(* ===== verification/_CoqProject ===== *)
-Q . S2P
Prelude.v
Types.v
MvMemory.v
Scheduler.v
SchedulerEffects.v
Statuses.v
SchedulerInv.v
Revm.v
Storage.v
Sample.v
Vm.v
Accounts.v
Database.v
Workers.v
WorkersInv.v
WorkersCorrect.v
Validity.v
Commit.v
VmCorrect.v
Writes.v
VmReplay.v
VmValid.v
Ratio.v
Preprocess.v
Primitives.v
Pevm.v
Typing.v
Relabel.v
Serial.v
Reference.v
Solo.v
Rpc.v
