(* ===== verification/Prelude.v ===== *)
(** * A verification library for Pevm, the RISE parallel EVM

    Pevm executes the transactions of an Ethereum block in parallel with the
    Block-STM algorithm and returns the results that sequential execution
    would: every transaction is executed optimistically against a
    multi-version memory, its reads are validated, and it is executed again
    when a lower transaction has changed what it read.  This library models
    the program's own code (every Rust module of [src/]) as executable Rocq
    definitions and proves what makes it correct.

    ** The program and the files that model it

    - [src/lib.rs] (types shared by all parts): [Types].  Memory locations,
      values, entries, statuses, versions, read origins and tasks are the
      inductive types and records of the source; the two hashers are
      functions on bytes and words.
    - [src/mv_memory.rs] (the multi-version memory): [MvMemory].  The state is
      the map from location hashes to ordered maps from transaction indexes to
      entries, and the last locations per transaction; [record],
      [validate_read_locations], [convert_writes_to_estimates] and
      [consume_location] are the methods of the same names.
    - [src/scheduler.rs] (the collaborative scheduler): [Scheduler] has the
      state (statuses, the two index counters, dependents, dependency counts)
      and one definition per method in a state monad; [SchedulerEffects] what
      an operation may change, [Statuses] the exact statuses after each;
      [SchedulerInv] the invariant that ties statuses,
      counters, dependents and the tasks in flight together, with one
      preservation lemma per operation.
    - [revm] and [alloy] (not in this repository): [Revm].  Their data that the
      source builds or matches is declared; their functions are the operations
      of the class [Revm]; the EVM itself is a program over revm's [Database]
      trait; the class [RevmLaws] has the documented facts that theorems use.
      [Sample] is a small instance for concrete examples.
    - [src/storage.rs], [src/storage/in_memory.rs]: [Storage], with the trait
      as a class, and the theorems of [Accounts]; [Database] has the blanket
      implementation of the trait for a revm database, and [StorageWrapper] as
      such a database.
    - [src/storage/rpc.rs] (a storage over a node, with caches): [Rpc].  The node
      is a parameter whose answers may change from call to call.
    - [src/vm.rs] (executing one transaction): [Vm], with the database that
      tracks reads ([VmDb]), the write set, lazy balance updates, rewards and the
      choice of what to validate; theorems in [VmCorrect], [Writes] (the write
      set), [VmReplay] and [VmValid].
    - [src/pevm.rs] (threads and entry points): [Workers] models the worker
      threads of [execute_revm] with [try_execute] and [try_validate];
      [WorkersInv] has the invariant of the thread pool and [WorkersCorrect] its
      first theorems; [Validity] shows that the reads of a finished block are
      valid, [Commit] traces what is stored back to executions, and [Serial]
      joins them with [VmReplay]; [Preprocess] models [preprocess_dependencies]
      ([Ratio] has its binary64 ratio); [Pevm] models
      sequential execution, the collection and lazy evaluation of parallel
      results, [execute_revm] and [execute].  [Typing] has the types of the
      values in the memory; [Relabel] and [Reference] compare a parallel run
      with an in-order executor, and [Solo] treats a run on one thread.
    - [src/primitives.rs] (from Alloy's blocks and transactions to revm's
      environments): [Primitives].

    ** Interfaces

    The workers are verified against the class [Workers.VmContract], what they
    rely on from executing a transaction: each result writes the beneficiary's
    location, has well-formed read origins, blocks only on lower transactions
    and asks for validation from itself or its successor.  [VmCorrect] proves
    that [Vm.execute] satisfies it.  The virtual machine is verified against
    the classes [Revm], [RevmLaws] and [Storage].

    ** Concurrency

    A worker is a program counter over the calls it makes on shared state, and
    the pool steps by letting any thread make its next call: any interleaving of
    the calls of the scheduler, the multi-version memory, the vector of results
    and the error cell, and of the single database calls inside a transaction's
    execution.  One method of the scheduler or of the memory is one step.  The
    theorems on the pool are about all reachable states, for any number of
    threads, any block and any schedule.

    ** What the theorems show

    - Memory ([MvMemory]): what [record] writes, removes and answers; the
      well-formedness of the memory under all its operations; validation is
      exactly the comparison of the origins read with the current ones; an abort
      or a new write makes the affected readers invalid, and writes of higher
      transactions never do.
    - Scheduler and pool ([Statuses], [WorkersCorrect]): the statuses after each
      operation are determined, and move along the documented table; no call of a worker on shared state panics
      or goes out of bounds except where the error cell is set twice (calls into
      the virtual machine may panic on storage errors and unsupported code); idle
      threads always find work or the end; when all threads leave without an error, every
      transaction has executed and those from the lowest index that asked for
      validation on are validated; a version identifies one value; counters stay
      in bounds.
    - Serializability ([Validity], [Commit], [Serial]): when the threads leave
      without an error, the reads of every transaction from the lowest index that
      asked for validation on are valid in the final memory, and such a
      transaction (and the first one) has stored what executing it alone on the
      final memory gives; an execution depends on lower transactions only.
    - Refinement ([Reference], [Relabel]): the in-order reference executes each
      transaction once on what the lower ones wrote, without scheduler, estimates
      or validation.  A finished parallel run in which the transactions below the
      lowest validated index read valid values returns exactly its outcome,
      whatever the interleaving, the number of threads and the number of
      incarnations; the virtual machine does not see incarnation numbers.
    - One thread ([Solo]): when the in-order reference returns a block, one
      thread terminates with it and with nothing else (and with the sequential
      outcome where preprocessing falls back); any block in which a transaction
      after the first one is refused for a lack of funds, once those before it
      have executed in order, never ends.
    - Types ([Typing]): with hashes that keep accounts and slots apart, no read
      finds a value of the wrong kind.
    - Virtual machine ([VmCorrect], [Writes], [VmReplay]): the contract above;
      the write set of an execution, location by location, rewards included;
      an execution whose read set validates against a memory returns the same result when run on it alone,
      and ([VmValid]) a read set validates against the memory it was read from.
    - Blocks ([Preprocess], [Pevm], [Primitives], [Accounts]): the dependencies
      found before execution are the specified ones, execution is sequential
      exactly when more than 85% of the transactions have some, and the
      concurrency level is half of the others; a parallel block without an
      error returns one result per transaction; lazily updated accounts have
      the balance and nonce of their whole history, the same that a reading
      transaction sees; sequential execution commits in order and stops at the
      first error; the hard fork is the latest of the mainnet schedule; the
      conversions of accounts and transactions.  [Pevm.contract_transfers_lose_update] is a block whose
      parallel execution differs from the sequential one, because transactions
      that only touch their sender and recipient are not validated, and
      [Pevm.plain_transfers_lose_update] is one without any contract.
    - Databases ([Database]): a storage wrapped as a revm database and used as a
      storage again gives the answers of the original.
    - RPC storage ([Rpc]): answers and caches agree with the chain, and the case
      in which a call waits for its own lock.

    ** Conventions

    Machine words are [Z] with wrap-around written out (a release build);
    indexes into the block are [nat], with the hypothesis that a block has fewer
    than [2^64] transactions where counters matter.  A panic, an index out of
    bounds or an unchecked access out of bounds is a [Fault] of the [outcome]
    type.  Fuel appears in two places: [Scheduler.next_task] and
    [try_execute_loop] take a number of turns of their loops, and
    [idle_threads_progress] proves a bound that is enough; the conversion of
    bytecode takes one analysis, which [RevmLaws] makes enough.  The ratio of
    dependencies is computed in binary64 with the Standard Library's [SpecFloat];
    [Ratio] shows that rounding does not change its comparison with 0.85.
    Location hashes are 64-bit words of an arbitrary hasher; theorems that a
    collision would falsify have a hypothesis that excludes it (of accounts with
    slots, or among the locations of the statement).

    ** Not modelled

    The HTTP transport of the RPC storage, benchmarks and tests; revm and Alloy
    themselves; weak memory orderings and interleavings inside one scheduler or
    memory method; the poisoning of mutexes by a thread that panics; freeing
    memory on other threads.

    ** Plan

    Next: conditions on a block under which the transactions that are not
    validated read valid values too, from the dependencies that
    [preprocess_dependencies] finds (for example, a sender whose account changes
    only by its own transactions and by transfers that its next transaction
    depends on); the in-order reference as a refinement of sequential execution
    on revm's [CacheDB]; interleaving inside scheduler methods; termination with
    several threads under a fair schedule. *)

From stdpp Require Import base list gmap sorting.
From Stdlib Require Import ZArith Lia.

(** ** Scopes, hint databases *)

Declare Scope pevm_scope.
Delimit Scope pevm_scope with pevm.

Create HintDb pevm discriminated.
Create Rewrite HintDb pevm.

(** ** Machine integers

    A [w]-bit unsigned integer is a [Z] in [[0, 2^w)]; the operations below
    write the wrap-around out. *)

Definition wrap (w x : Z) : Z := (x mod 2 ^ w)%Z.

Definition u256_add (x y : Z) : Z := wrap 256 (x + y).
Definition u256_mul (x y : Z) : Z := wrap 256 (x * y).
Definition u256_saturating_sub (x y : Z) : Z := Z.max 0 (x - y).
Definition u128_add (x y : Z) : Z := wrap 128 (x + y).
Definition usize_add (x y : Z) : Z := wrap 64 (x + y).
Definition usize_sub (x y : Z) : Z := wrap 64 (x - y).

Definition in_width (w x : Z) : Prop := (0 <= x < 2 ^ w)%Z.

(** ** Faults and the outcome type

    What the Rust code does outside of its ordinary results: [unreachable!],
    an index or a slice out of range, an [unwrap] of [None] or of an error, a
    mutex locked twice by one thread, [unimplemented!], and (for a modelled loop only) the end
    of the fuel. *)

Inductive fault : Type :=
| Unreachable
| OutOfBounds
| UnwrapFailed
| SelfDeadlock
| Unimplemented
| OutOfFuel.

Inductive outcome (A : Type) : Type :=
| Val (a : A)
| Fault (f : fault).
Arguments Val {A} a.
Arguments Fault {A} f.

#[export] Instance outcome_ret : MRet outcome := fun A a => Val a.
#[export] Instance outcome_bind : MBind outcome :=
  fun A B k m => match m with Val a => k a | Fault f => Fault f end.

(** A state-passing computation that may fault. *)
Definition ST (S A : Type) : Type := S -> outcome (A * S).

#[export] Instance ST_ret {S} : MRet (ST S) := fun A a s => Val (a, s).
#[export] Instance ST_bind {S} : MBind (ST S) :=
  fun A B k m s => match m s with Val (a, s') => k a s' | Fault f => Fault f end.

Definition st_fail {S A} (f : fault) : ST S A := fun _ => Fault f.
Definition st_get {S} : ST S S := fun s => Val (s, s).
Definition st_gets {S A} (f : S -> A) : ST S A := fun s => Val (f s, s).
Definition st_modify {S} (f : S -> S) : ST S unit := fun s => Val (tt, f s).

(** An index into a vector through [get_unchecked]. *)
Definition vec_get {A} (v : list A) (i : nat) : outcome A :=
  match v !! i with Some a => Val a | None => Fault OutOfBounds end.

(** ** Ordered maps

    A [BTreeMap<usize, V>] is a [gmap nat V]; [range_rev m i] lists what
    [m.range(..i)] yields through repeated [next_back], and [btree_iter m]
    lists the map in ascending key order. *)

Fixpoint range_rev {V} (m : gmap nat V) (i : nat) : list (nat * V) :=
  match i with
  | 0 => []
  | S j => match m !! j with
           | Some e => (j, e) :: range_rev m j
           | None => range_rev m j
           end
  end.

Definition key_bound {V} (m : gmap nat V) : nat :=
  map_fold (fun k _ b => Nat.max (S k) b) 0 m.

Definition btree_iter {V} (m : gmap nat V) : list (nat * V) :=
  reverse (range_rev m (key_bound m)).

(** ** Tactics *)

(** Case analysis on the scrutinees of the goal's or a hypothesis' matches. *)
Ltac case_step :=
  match goal with
  | |- context [match ?x with _ => _ end] => destruct x eqn:?; simplify_eq/=
  | H : context [match ?x with _ => _ end] |- _ => destruct x eqn:?; simplify_eq/=
  end.

(** Turn boolean tests into propositions. *)
Ltac bool_to_prop :=
  repeat match goal with
  | H : (_ <? _) = true |- _ => apply Nat.ltb_lt in H
  | H : (_ <? _) = false |- _ => apply Nat.ltb_ge in H
  | H : (_ <=? _) = true |- _ => apply Nat.leb_le in H
  | H : (_ <=? _) = false |- _ => apply Nat.leb_gt in H
  | H : (_ =? _) = true |- _ => apply Nat.eqb_eq in H
  | H : (_ =? _) = false |- _ => apply Nat.eqb_neq in H
  | H : negb _ = true |- _ => apply negb_true_iff in H
  | H : negb _ = false |- _ => apply negb_false_iff in H
  | H : (_ && _) = true |- _ => apply andb_true_iff in H; destruct H
  | H : (_ || _) = false |- _ => apply orb_false_iff in H; destruct H
  | H : bool_decide _ = true |- _ => apply bool_decide_eq_true in H
  | H : bool_decide _ = false |- _ => apply bool_decide_eq_false in H
  end.

(** ** Lemmas on machine integers *)

Lemma wrap_range w x : (0 <= w)%Z -> in_width w (wrap w x).
Proof. intros Hw. unfold in_width, wrap. apply Z.mod_pos_bound. lia. Qed.

Lemma wrap_small w x : in_width w x -> wrap w x = x.
Proof. unfold in_width, wrap. intros. by apply Z.mod_small. Qed.

Lemma wrap_add_l w x y : wrap w (wrap w x + y) = wrap w (x + y).
Proof. unfold wrap. apply Zplus_mod_idemp_l. Qed.

Lemma wrap_add_r w x y : wrap w (x + wrap w y) = wrap w (x + y).
Proof. unfold wrap. apply Zplus_mod_idemp_r. Qed.

Lemma wrap_sub_l w x y : wrap w (wrap w x - y) = wrap w (x - y).
Proof. unfold wrap. apply Zminus_mod_idemp_l. Qed.

#[export] Hint Rewrite wrap_add_l wrap_add_r wrap_sub_l : pevm.

Lemma u256_add_0_r x : in_width 256 x -> u256_add x 0 = x.
Proof. intros. unfold u256_add. rewrite Z.add_0_r. by apply wrap_small. Qed.

Lemma u256_add_comm x y : u256_add x y = u256_add y x.
Proof. unfold u256_add. by rewrite Z.add_comm. Qed.

Lemma u256_add_assoc x y z :
  u256_add x (u256_add y z) = u256_add (u256_add x y) z.
Proof. unfold u256_add. autorewrite with pevm. f_equal. lia. Qed.

Lemma u256_add_range x y : in_width 256 (u256_add x y).
Proof. apply wrap_range. lia. Qed.

#[export] Hint Resolve u256_add_range wrap_range : pevm.

(** ** Invariants of transition systems *)

Lemma rtc_invariant {A} (R : relation A) (P : A -> Prop) x y :
  rtc R x y -> P x -> (forall a b, R a b -> P a -> P b) -> P y.
Proof. intros Hxy Hx Hstep. induction Hxy; eauto. Qed.

(** ** Lemmas on lists *)

Lemma vec_get_Some {A} (v : list A) i a : v !! i = Some a -> vec_get v i = Val a.
Proof. unfold vec_get. by intros ->. Qed.

Lemma vec_get_Val {A} (v : list A) i a : vec_get v i = Val a -> v !! i = Some a.
Proof. unfold vec_get. destruct (v !! i); congruence. Qed.

Lemma forallb_ext_elem {A} (f g : A -> bool) l :
  (forall x, x ∈ l -> f x = g x) -> forallb f l = forallb g l.
Proof. induction l as [|x l IH]; simpl; intros Heq; [done|]. f_equal; set_solver. Qed.

(** How many elements of a vector satisfy a predicate. *)
Definition count_if {A} (P : A -> bool) (l : list A) : nat := length (List.filter P l).

Lemma count_if_insert {A} (P : A -> bool) (l : list A) i x y :
  l !! i = Some x ->
  count_if P (<[i := y]> l) + (if P x then 1 else 0) =
  count_if P l + (if P y then 1 else 0).
Proof.
  unfold count_if. revert i. induction l as [|z l IH]; intros [|i] Hi; simplify_eq/=.
  - destruct (P x), (P y); simpl; lia.
  - specialize (IH _ Hi). destruct (P z); simpl; lia.
Qed.

Lemma count_if_0 {A} (P : A -> bool) (l : list A) :
  (forall i x, l !! i = Some x -> P x = false) -> count_if P l = 0.
Proof.
  unfold count_if. induction l as [|z l IH]; intros HP; simpl; [done|].
  rewrite (HP 0 z) by done. apply IH. intros i x. apply (HP (S i)).
Qed.

Lemma count_if_pos {A} (P : A -> bool) (l : list A) :
  0 < count_if P l <-> exists i x, l !! i = Some x /\ P x = true.
Proof.
  unfold count_if. induction l as [|z l IH]; simpl.
  - split; [lia|]. by intros (i & x & ? & ?).
  - destruct (P z) eqn:Hz; simpl.
    + split; [|lia]. intros _. by exists 0, z.
    + rewrite IH. split; intros (i & x & Hi & Hx).
      * by exists (S i), x.
      * destruct i as [|i]; simplify_eq/=; [congruence|]. by exists i, x.
Qed.

Lemma count_if_le {A} (P : A -> bool) (l : list A) : count_if P l <= length l.
Proof. unfold count_if. induction l as [|z l IH]; simpl; [lia|]. destruct (P z); simpl; lia. Qed.

Lemma count_if_ext {A} (P : A -> bool) (l1 l2 : list A) :
  length l1 = length l2 ->
  (forall i x y, l1 !! i = Some x -> l2 !! i = Some y -> P x = P y) ->
  count_if P l1 = count_if P l2.
Proof.
  unfold count_if. revert l2. induction l1 as [|x l1 IH]; intros [|y l2] Hl HP; simplify_eq/=;
    [done|].
  rewrite (HP 0 x y) by done. specialize (IH l2 Hl (fun i => HP (S i))).
  destruct (P y); simpl; congruence.
Qed.

(** A predicate that fails below an index and counts enough holds from it on. *)
Lemma count_if_saturated {A} (P : A -> bool) (l : list A) m :
  (forall i x, l !! i = Some x -> P x = true -> m <= i) ->
  length l - m <= count_if P l ->
  forall i x, l !! i = Some x -> m <= i -> P x = true.
Proof.
  unfold count_if. revert m. induction l as [|z l IH]; intros m HP Hc i x Hi Hm; [done|].
  simpl in Hc. destruct m as [|m].
  - assert (length (List.filter P l) <= length l) by apply (count_if_le P l).
    destruct (P z) eqn:Hz; simpl in Hc; [|lia].
    destruct i as [|i]; simplify_eq/=; [done|].
    apply (IH 0) with i; [lia|lia|done|lia].
  - destruct (P z) eqn:Hz; [specialize (HP 0 z eq_refl Hz); lia|].
    destruct i as [|i]; [lia|]. simpl in *.
    apply (IH m) with i; [|lia|done|lia].
    intros j y Hj Hy. specialize (HP (S j) y Hj Hy). lia.
Qed.

(** A predicate that holds from an index on counts the rest of the list. *)
Lemma count_if_suffix {A} (P : A -> bool) (l : list A) m :
  (forall i x, l !! i = Some x -> m <= i -> P x = true) -> length l - m <= count_if P l.
Proof.
  unfold count_if. revert m. induction l as [|z l IH]; intros m HP; simpl; [lia|].
  destruct m as [|m].
  - rewrite (HP 0 z eq_refl) by lia. simpl.
    assert (length l - 0 <= length (List.filter P l)); [|lia].
    apply IH. intros i x Hi _. apply (HP (S i) x Hi). lia.
  - assert (length l - m <= length (List.filter P l)).
    { apply IH. intros i x Hi Hm. apply (HP (S i) x Hi). lia. }
    destruct (P z); simpl; lia.
Qed.

(** Counting elements is counting indexes. *)
Lemma count_if_index {A} (P : A -> bool) (l : list A) (Q : nat -> Prop)
  `{forall i, Decision (Q i)} :
  (forall i x, l !! i = Some x -> P x = bool_decide (Q i)) ->
  count_if P l = length (filter Q (seq 0 (length l))).
Proof.
  unfold count_if. induction l as [|x l IH] using rev_ind; intros HP; [done|].
  rewrite List.filter_app, !length_app, Nat.add_1_r, seq_S, filter_app, length_app. simpl.
  rewrite IH by (intros i y Hi; apply HP; by apply lookup_app_l_Some). f_equal.
  rewrite filter_cons, filter_nil. rewrite (HP (length l) x).
  - by case_bool_decide; case_decide.
  - rewrite lookup_app_r by lia. by rewrite Nat.sub_diag.
Qed.

(** ** Lemmas on ordered maps *)

Section range_rev.
Context {V : Type}.
Implicit Types (m : gmap nat V) (l : list (nat * V)).

Lemma elem_of_range_rev m i k e :
  (k, e) ∈ range_rev m i <-> k < i /\ m !! k = Some e.
Proof.
  induction i as [|i IH]; simpl.
  { split; [by intros []%elem_of_nil|lia]. }
  destruct (m !! i) as [e'|] eqn:Hi.
  - rewrite elem_of_cons, IH. split.
    + intros [[= -> ->]|[? ?]]; split; auto with lia.
    + intros [Hk He]. destruct (decide (k = i)) as [->|];
        [left; congruence | right; split; auto with lia].
  - rewrite IH. split; [intros [? ?]; split; auto with lia|].
    intros [Hk He]. destruct (decide (k = i)) as [->|]; [congruence|].
    split; auto with lia.
Qed.

(** [range_rev] only looks at the keys below its bound. *)
Lemma range_rev_ext m1 m2 i :
  (forall k, k < i -> m1 !! k = m2 !! k) -> range_rev m1 i = range_rev m2 i.
Proof.
  induction i as [|i IH]; intros Heq; simpl; [done|].
  rewrite Heq by lia. rewrite IH by auto with lia. done.
Qed.

Lemma range_rev_insert_ge m i k e :
  i <= k -> range_rev (<[k:=e]> m) i = range_rev m i.
Proof. intros. apply range_rev_ext. intros. by rewrite lookup_insert_ne by lia. Qed.

Lemma range_rev_delete_ge m i k :
  i <= k -> range_rev (delete k m) i = range_rev m i.
Proof. intros. apply range_rev_ext. intros. by rewrite lookup_delete_ne by lia. Qed.

(** The first element is the greatest key below the bound. *)
Lemma range_rev_cons_inv m i k e l :
  range_rev m i = (k, e) :: l ->
  k < i /\ m !! k = Some e /\ l = range_rev m k /\
  (forall j, k < j < i -> m !! j = None).
Proof.
  induction i as [|i IH]; simpl; [done|].
  destruct (m !! i) eqn:Hi; intros Heq.
  - simplify_eq. split_and!; auto with lia.
  - destruct (IH Heq) as (Hk & He & Hl & Hmax). split_and!; auto with lia.
    intros j Hj. destruct (decide (j = i)) as [->|]; [done|apply Hmax; lia].
Qed.

Lemma range_rev_nil_inv m i :
  range_rev m i = [] -> forall j, j < i -> m !! j = None.
Proof.
  intros Heq j Hj. destruct (m !! j) as [e|] eqn:He; [|done].
  assert ((j, e) ∈ range_rev m i) as Hin by (apply elem_of_range_rev; auto).
  rewrite Heq in Hin. set_solver.
Qed.

Lemma range_rev_empty i : range_rev (∅ : gmap nat V) i = [].
Proof. induction i as [|i IH]; simpl; [done|]. by rewrite lookup_empty. Qed.

Lemma key_bound_spec m k : is_Some (m !! k) -> k < key_bound m.
Proof.
  unfold key_bound. revert k.
  apply (map_fold_weak_ind
    (fun b (m : gmap nat V) => forall k, is_Some (m !! k) -> k < b)).
  - intros k [? Hk]. by rewrite lookup_empty in Hk.
  - intros i x m' r _ IH k [e Hk]. destruct (decide (k = i)) as [->|].
    + lia.
    + rewrite lookup_insert_ne in Hk by done.
      assert (k < r) by (apply IH; eauto). lia.
Qed.

(** A bound past every key does not matter. *)
Lemma range_rev_bound m i j :
  i <= j -> (forall k, i <= k < j -> m !! k = None) ->
  range_rev m j = range_rev m i.
Proof.
  intros Hij. induction Hij as [|j Hij IH]; intros Hnone; simpl; [done|].
  rewrite Hnone by lia. apply IH. intros. apply Hnone. lia.
Qed.

Lemma range_rev_all m i :
  (forall k, is_Some (m !! k) -> k < i) -> range_rev m i = reverse (btree_iter m).
Proof.
  intros Hb. unfold btree_iter. rewrite reverse_involutive.
  set (b := key_bound m).
  assert (forall k, Nat.min i b <= k -> m !! k = None) as Hnone.
  { intros k Hk. destruct (m !! k) eqn:He; [|done].
    assert (k < i) by (apply Hb; eauto).
    assert (k < b) by (apply key_bound_spec; eauto). lia. }
  rewrite (range_rev_bound m (Nat.min i b) i), (range_rev_bound m (Nat.min i b) b);
    auto with lia; intros; apply Hnone; lia.
Qed.

Lemma elem_of_btree_iter m k e : (k, e) ∈ btree_iter m <-> m !! k = Some e.
Proof.
  unfold btree_iter. rewrite elem_of_reverse, elem_of_range_rev.
  split; [tauto|]. intros He. split; [|done]. apply key_bound_spec. eauto.
Qed.
End range_rev.

Lemma range_rev_fmap {V W} (f : V -> W) (m : gmap nat V) i :
  range_rev (f <$> m) i = map (fun '(k, e) => (k, f e)) (range_rev m i).
Proof.
  induction i as [|i IH]; simpl; [done|]. rewrite lookup_fmap, IH. by destruct (m !! i).
Qed.

Lemma btree_iter_fmap {V W} (f : V -> W) (m : gmap nat V) :
  btree_iter (f <$> m) = map (fun '(k, e) => (k, f e)) (btree_iter m).
Proof.
  rewrite <-(reverse_involutive (btree_iter (f <$> m))).
  rewrite <-(range_rev_all _ (key_bound m)), range_rev_fmap.
  - symmetry. apply fmap_reverse.
  - intros k. rewrite lookup_fmap, fmap_is_Some. apply key_bound_spec.
Qed.

#[export] Hint Rewrite @range_rev_insert_ge @range_rev_delete_ge using lia : pevm.
