(* ===== verification/Types.v ===== *)
(** * Types: the data shared by every component ([src/lib.rs])

    The two hashers, memory locations, values and entries, transaction
    versions and statuses, read origins, read errors and tasks, with decidable
    equality.  The data types of [revm] that these types are built from
    ([AccountInfo], [Bytecode]) come first: they are the structs the source
    constructs and matches on; no function of [revm] is defined here. *)

From stdpp Require Import base list gmap strings.
From Stdlib Require Import ZArith Lia.
From S2P Require Import Prelude.

(** ** Words

    [Address] is a 160-bit word, [U256] and [B256] are 256-bit words, [u64] a
    64-bit word, all as [Z]; a block index or an incarnation is a [nat]. *)

Abbreviation u8 := Z (only parsing).
Abbreviation u64 := Z (only parsing).
Abbreviation U256 := Z (only parsing).
Abbreviation B256 := Z (only parsing).
Abbreviation Address := Z (only parsing).
Abbreviation Bytes := (list Z) (only parsing).

(** ** Data of [revm] *)

Record LegacyAnalyzedBytecode : Type := {
  lab_bytecode : Bytes;
  lab_original_len : nat;
  lab_jump_table : list bool;
}.

Inductive Bytecode : Type :=
| LegacyRaw (bytes : Bytes)
| LegacyAnalyzed (code : LegacyAnalyzedBytecode)
| Eof (raw : Bytes).

Record AccountInfo : Type := {
  info_balance : U256;
  info_nonce : u64;
  info_code_hash : B256;
  info_code : option Bytecode;
}.

#[export] Instance LegacyAnalyzedBytecode_eq_dec : EqDecision LegacyAnalyzedBytecode.
Proof. solve_decision. Defined.
#[export] Instance Bytecode_eq_dec : EqDecision Bytecode.
Proof. solve_decision. Defined.
#[export] Instance AccountInfo_eq_dec : EqDecision AccountInfo.
Proof. solve_decision. Defined.

(** [info.balance += v] *)
Definition info_add_balance (v : U256) (info : AccountInfo) : AccountInfo :=
  {| info_balance := u256_add (info_balance info) v;
     info_nonce := info_nonce info;
     info_code_hash := info_code_hash info;
     info_code := info_code info |}.

(** ** Hashers *)

(** [u64::from_be_bytes] *)
Definition u64_from_be_bytes (bs : list u8) : u64 :=
  foldl (fun acc b => acc * 256 + b)%Z 0%Z bs.

Record AddressHasher : Type := { address_hasher_0 : u64 }.

Definition AddressHasher_default : AddressHasher := {| address_hasher_0 := 0 |}.

(** [bytes[bytes.len() - 8..]] panics when there are fewer than eight bytes. *)
Definition AddressHasher_write (bytes : list u8) (h : AddressHasher)
  : outcome AddressHasher :=
  if length bytes <? 8 then Fault OutOfBounds
  else Val {| address_hasher_0 :=
                u64_from_be_bytes (drop (length bytes - 8) bytes) |}.

Definition AddressHasher_finish (h : AddressHasher) : u64 := address_hasher_0 h.

Record IdentityHasher : Type := { identity_hasher_0 : u64 }.

Definition IdentityHasher_default : IdentityHasher := {| identity_hasher_0 := 0 |}.

Definition IdentityHasher_write_u64 (id : u64) (h : IdentityHasher) : IdentityHasher :=
  {| identity_hasher_0 := id |}.

Definition IdentityHasher_write_usize (id : nat) (h : IdentityHasher) : IdentityHasher :=
  {| identity_hasher_0 := wrap 64 (Z.of_nat id) |}.

Definition IdentityHasher_write (_ : list u8) (h : IdentityHasher)
  : outcome IdentityHasher := Fault Unreachable.

Definition IdentityHasher_finish (h : IdentityHasher) : u64 := identity_hasher_0 h.

(** ** Memory *)

Inductive MemoryLocation : Type :=
| LocBasic (address : Address)
| LocStorage (address : Address) (index : U256).

(** The 64-bit hash of a location.  The hasher that makes it is seeded at random
    and is an argument of the model; the theorems hold for every hasher, in
    particular for those with 64-bit values, and where a collision of an account
    with a slot would matter they say so in a hypothesis. *)
Abbreviation MemoryLocationHash := u64 (only parsing).

Inductive MemoryValue : Type :=
| ValBasic (info : AccountInfo)
| ValLazyBalanceAddition (addition : U256)
| ValStorage (value : U256).

Abbreviation TxIdx := nat (only parsing).
Abbreviation TxIncarnation := nat (only parsing).

Inductive MemoryEntry : Type :=
| Data (tx_incarnation : TxIncarnation) (value : MemoryValue)
| Estimate.

#[export] Instance MemoryLocation_eq_dec : EqDecision MemoryLocation.
Proof. solve_decision. Defined.
#[export] Instance MemoryValue_eq_dec : EqDecision MemoryValue.
Proof. solve_decision. Defined.
#[export] Instance MemoryEntry_eq_dec : EqDecision MemoryEntry.
Proof. solve_decision. Defined.

#[export] Program Instance MemoryLocation_countable : Countable MemoryLocation :=
  inj_countable'
    (fun l => match l with
              | LocBasic a => inl a
              | LocStorage a i => inr (a, i)
              end)
    (fun x => match x with inl a => LocBasic a | inr (a, i) => LocStorage a i end) _.
Next Obligation. by intros []. Qed.

(** ** Transactions' statuses *)

Inductive IncarnationStatus : Type :=
| ReadyToExecute
| Executing
| Executed
| Validated
| Aborting.

Record TxStatus : Type := {
  incarnation : TxIncarnation;
  status : IncarnationStatus;
}.

#[export] Instance IncarnationStatus_eq_dec : EqDecision IncarnationStatus.
Proof. solve_decision. Defined.
#[export] Instance TxStatus_eq_dec : EqDecision TxStatus.
Proof. solve_decision. Defined.

Abbreviation TransactionsStatus := (list TxStatus) (only parsing).
Abbreviation TransactionsDependents := (list (list TxIdx)) (only parsing).
Abbreviation TransactionsDependenciesNum := (gmap TxIdx Z) (only parsing).

Record TxVersion : Type := {
  tx_idx : TxIdx;
  tx_incarnation : TxIncarnation;
}.

#[export] Instance TxVersion_eq_dec : EqDecision TxVersion.
Proof. solve_decision. Defined.

(** ** Reads and writes *)

Inductive ReadOrigin : Type :=
| OriginMvMemory (version : TxVersion)
| OriginStorage.

#[export] Instance ReadOrigin_eq_dec : EqDecision ReadOrigin.
Proof. solve_decision. Defined.

Abbreviation ReadLocations := (gmap MemoryLocationHash (list ReadOrigin)) (only parsing).

Record ReadSet : Type := {
  rs_locations : ReadLocations;
  rs_accounts : gmap MemoryLocationHash AccountInfo;
}.

Definition ReadSet_default : ReadSet := {| rs_locations := ∅; rs_accounts := ∅ |}.

Inductive ReadError : Type :=
| StorageError (msg : string)
| NotFound
| BlockingIndex (tx_idx : TxIdx)
| InconsistentRead
| InvalidMemoryLocationType.

#[export] Instance ReadError_eq_dec : EqDecision ReadError.
Proof. solve_decision. Defined.

Abbreviation WriteSet := (list (MemoryLocationHash * MemoryValue)) (only parsing).

Inductive Task : Type :=
| ExecutionTask (version : TxVersion)
| ValidationTask (version : TxVersion).

#[export] Instance Task_eq_dec : EqDecision Task.
Proof. solve_decision. Defined.

(** [Result<T, E>] of the source. *)
Inductive result (T E : Type) : Type :=
| Ok (t : T)
| Err (e : E).
Arguments Ok {T E} t.
Arguments Err {T E} e.

Definition map_err {T E E'} (f : E -> E') (r : result T E) : result T E' :=
  match r with Ok t => Ok t | Err e => Err (f e) end.

Definition map_ok {T T' E} (f : T -> T') (r : result T E) : result T' E :=
  match r with Ok t => Ok (f t) | Err e => Err e end.

(** ** The legal transitions of a transaction's status

    The table of [src/lib.rs] (lines 103-111), as a relation. *)

Inductive status_transition : TxStatus -> TxStatus -> Prop :=
| st_try_incarnate i :
    status_transition {| incarnation := i; status := ReadyToExecute |}
                      {| incarnation := i; status := Executing |}
| st_finish_execution i :
    status_transition {| incarnation := i; status := Executing |}
                      {| incarnation := i; status := Executed |}
| st_finish_validation i :
    status_transition {| incarnation := i; status := Executed |}
                      {| incarnation := i; status := Validated |}
| st_validation_abort i st :
    st = Executed \/ st = Validated ->
    status_transition {| incarnation := i; status := st |}
                      {| incarnation := i; status := Aborting |}
| st_add_dependency i :
    status_transition {| incarnation := i; status := Executing |}
                      {| incarnation := i; status := Aborting |}
| st_resume i :
    status_transition {| incarnation := i; status := Aborting |}
                      {| incarnation := S i; status := ReadyToExecute |}.

#[export] Hint Constructors status_transition : pevm.

(** ** Lemmas on the hashers *)

Lemma u64_from_be_bytes_app xs ys :
  u64_from_be_bytes (xs ++ ys) =
  (u64_from_be_bytes xs * 256 ^ Z.of_nat (length ys) + u64_from_be_bytes ys)%Z.
Proof.
  unfold u64_from_be_bytes. rewrite foldl_app.
  generalize (foldl (fun acc b => acc * 256 + b)%Z 0%Z xs) as a.
  induction ys as [|y ys IH] using rev_ind; intros a.
  - simpl. lia.
  - rewrite !foldl_app, length_app. simpl. rewrite IH, Nat2Z.inj_add, Z.pow_add_r by lia.
    change (Z.of_nat 1) with 1%Z. lia.
Qed.

Lemma u64_from_be_bytes_range bs :
  Forall (in_width 8) bs ->
  (0 <= u64_from_be_bytes bs < 256 ^ Z.of_nat (length bs))%Z.
Proof.
  induction bs as [|b bs IH] using rev_ind; intros Hbs; [done|].
  apply Forall_app in Hbs as [Hbs Hb]. inversion_clear Hb as [|? ? Hw].
  destruct (IH Hbs) as [Hlo Hhi]. unfold in_width in Hw.
  rewrite u64_from_be_bytes_app, length_app, Nat2Z.inj_add, Z.pow_add_r by lia.
  unfold u64_from_be_bytes at 2 4. simpl foldl.
  change (length [b]) with 1. change (Z.of_nat 1) with 1%Z. lia.
Qed.

(** C40. The hasher of addresses keeps the last eight bytes: for a slice of at
    least eight bytes the hash is the big-endian number modulo [2^64], whatever
    was written before, and a shorter slice panics. *)
Theorem address_hash_is_suffix bytes h :
  Forall (in_width 8) bytes ->
  match AddressHasher_write bytes h with
  | Val h' => 8 <= length bytes /\
      AddressHasher_finish h' = wrap 64 (u64_from_be_bytes bytes)
  | Fault f => length bytes < 8 /\ f = OutOfBounds
  end.
Proof.
  intros Hb. unfold AddressHasher_write. destruct (Nat.ltb_spec (length bytes) 8); [done|].
  split; [done|]. simpl. set (d := drop _ bytes).
  assert (length d = 8) as Hd by (unfold d; rewrite length_drop; lia).
  rewrite <-(take_drop (length bytes - 8) bytes) at 1. fold d.
  rewrite u64_from_be_bytes_app, Hd. unfold wrap.
  change (256 ^ Z.of_nat 8)%Z with (2 ^ 64)%Z.
  rewrite Z.add_comm, Z_mod_plus_full, Z.mod_small; [done|].
  pose proof (u64_from_be_bytes_range d (Forall_drop _ _ _ Hb)) as Hr. rewrite Hd in Hr.
  exact Hr.
Qed.

Lemma address_hash_is_suffix_witness :
  match AddressHasher_write [255; 255; 0; 0; 0; 0; 0; 0; 1; 2]%Z AddressHasher_default with
  | Val h' => 8 <= 10 /\
      AddressHasher_finish h' =
        wrap 64 (u64_from_be_bytes [255; 255; 0; 0; 0; 0; 0; 0; 1; 2]%Z)
  | Fault f => 10 < 8 /\ f = OutOfBounds
  end.
Proof.
  apply (address_hash_is_suffix [255; 255; 0; 0; 0; 0; 0; 0; 1; 2]%Z AddressHasher_default).
  repeat constructor; vm_compute; congruence.
Defined.
