(* ===== verification/MvMemory.v ===== *)
(** * MvMemory: the multi-version memory ([src/mv_memory.rs])

    For each memory location the latest entry written per transaction, and for
    each transaction the locations its last incarnation read and wrote.  The
    [DashMap] of [BTreeMap]s is a map of maps; a worker holds a location's
    shard while it reads or updates that location, so each access to one
    location is one indivisible access of the map. *)

From stdpp Require Import base list gmap.
From Stdlib Require Import ZArith Lia.
From S2P Require Import Prelude Types.

Record LastLocations : Type := {
  ll_read : ReadLocations;
  ll_write : list MemoryLocationHash;
}.

Definition LastLocations_default : LastLocations := {| ll_read := ∅; ll_write := [] |}.

Record MvMemory : Type := {
  mv_data : gmap MemoryLocationHash (gmap TxIdx MemoryEntry);
  mv_last_locations : list LastLocations;
}.

(** ** Construction *)

Definition new (block_size : nat)
  (estimated_locations : list (MemoryLocationHash * list TxIdx)) : MvMemory :=
  {| mv_data :=
       foldl (fun data '(location_hash, estimated_tx_idxs) =>
                <[location_hash :=
                    foldl (fun tree tx_idx => <[tx_idx := Estimate]> tree)
                          ∅ estimated_tx_idxs]> data)
             ∅ estimated_locations;
     mv_last_locations := replicate block_size LastLocations_default |}.

(** ** Recording an incarnation *)

(** The match on [self.data.entry(location)]. *)
Definition write_entry (tx_idx : TxIdx) (location : MemoryLocationHash)
  (entry : MemoryEntry) (data : gmap MemoryLocationHash (gmap TxIdx MemoryEntry))
  : gmap MemoryLocationHash (gmap TxIdx MemoryEntry) :=
  match data !! location with
  | Some written_transactions =>
      <[location := <[tx_idx := entry]> written_transactions]> data
  | None => <[location := {[tx_idx := entry]}]> data
  end.

Definition write_entries (version : TxVersion) (write_set : WriteSet)
  (data : gmap MemoryLocationHash (gmap TxIdx MemoryEntry))
  : gmap MemoryLocationHash (gmap TxIdx MemoryEntry) :=
  foldl (fun data '(location, value) =>
           write_entry (tx_idx version) location
                       (Data (tx_incarnation version) value) data)
        data write_set.

(** One step of the loop over the previous incarnation's writes. *)
Definition remove_stale (tx_idx : TxIdx) (new_locations : list MemoryLocationHash)
  (prev_location : MemoryLocationHash)
  (data : gmap MemoryLocationHash (gmap TxIdx MemoryEntry))
  : gmap MemoryLocationHash (gmap TxIdx MemoryEntry) :=
  if bool_decide (prev_location ∈ new_locations) then data
  else match data !! prev_location with
       | Some written_transactions =>
           <[prev_location := delete tx_idx written_transactions]> data
       | None => data
       end.

Definition remove_stales (tx_idx : TxIdx)
  (new_locations prev_locations : list MemoryLocationHash)
  (data : gmap MemoryLocationHash (gmap TxIdx MemoryEntry))
  : gmap MemoryLocationHash (gmap TxIdx MemoryEntry) :=
  foldl (fun data prev => remove_stale tx_idx new_locations prev data)
        data prev_locations.

Definition record (version : TxVersion) (read_locations : ReadLocations)
  (write_set : WriteSet) (mv : MvMemory) : outcome (bool * MvMemory) :=
  let new_locations := map fst write_set in
  let data := write_entries version write_set (mv_data mv) in
  last_locations ← vec_get (mv_last_locations mv) (tx_idx version);
  let data := remove_stales (tx_idx version) new_locations
                            (ll_write last_locations) data in
  let wrote_new_location :=
    existsb (fun new_location =>
               negb (bool_decide (new_location ∈ ll_write last_locations)))
            new_locations in
  Val (wrote_new_location,
       {| mv_data := data;
          mv_last_locations :=
            <[tx_idx version := {| ll_read := read_locations;
                                   ll_write := new_locations |}]>
              (mv_last_locations mv) |}).

(** ** Validation *)

(** The loop over one location's prior origins, against what
    [range(..tx_idx)] yields from the back. *)
Fixpoint validate_origins (iter : list (TxIdx * MemoryEntry))
  (prior_origins : list ReadOrigin) : bool :=
  match prior_origins with
  | [] => true
  | OriginMvMemory prior_version :: rest =>
      match iter with
      | (closest_idx, Data tx_inc _) :: iter' =>
          if negb (closest_idx =? tx_idx prior_version)
             || negb (tx_incarnation prior_version =? tx_inc)
          then false
          else validate_origins iter' rest
      | _ => false
      end
  | OriginStorage :: rest =>
      match iter with
      | _ :: _ => false
      | [] => validate_origins [] rest
      end
  end.

Definition read_location (location : MemoryLocationHash) (mv : MvMemory)
  : option (gmap TxIdx MemoryEntry) := mv_data mv !! location.

Definition validate_location (mv : MvMemory) (tx_idx : TxIdx)
  (location : MemoryLocationHash) (prior_origins : list ReadOrigin) : bool :=
  match read_location location mv with
  | Some written_transactions =>
      validate_origins (range_rev written_transactions tx_idx) prior_origins
  | None =>
      negb (negb (length prior_origins =? 1)
            || negb (bool_decide (last prior_origins = Some OriginStorage)))
  end.

Definition validate_read_locations (tx_idx : TxIdx) (mv : MvMemory) : outcome bool :=
  last_locations ← vec_get (mv_last_locations mv) tx_idx;
  Val (forallb (fun '(location, prior_origins) =>
                  validate_location mv tx_idx location prior_origins)
               (map_to_list (ll_read last_locations))).

(** ** Aborting and consuming *)

Definition estimate_entry (tx_idx : TxIdx) (location : MemoryLocationHash)
  (data : gmap MemoryLocationHash (gmap TxIdx MemoryEntry))
  : gmap MemoryLocationHash (gmap TxIdx MemoryEntry) :=
  match data !! location with
  | Some written_transactions =>
      <[location := <[tx_idx := Estimate]> written_transactions]> data
  | None => data
  end.

Definition convert_writes_to_estimates (tx_idx : TxIdx) (mv : MvMemory)
  : outcome MvMemory :=
  last_locations ← vec_get (mv_last_locations mv) tx_idx;
  Val {| mv_data := foldl (fun data location => estimate_entry tx_idx location data)
                          (mv_data mv) (ll_write last_locations);
         mv_last_locations := mv_last_locations mv |}.

Definition consume_location (location : MemoryLocationHash) (mv : MvMemory)
  : option (gmap TxIdx MemoryEntry) * MvMemory :=
  (mv_data mv !! location,
   {| mv_data := delete location (mv_data mv);
      mv_last_locations := mv_last_locations mv |}).

(** ** The abstract view: one entry per location and transaction *)

Definition entry_at (data : gmap MemoryLocationHash (gmap TxIdx MemoryEntry))
  (location : MemoryLocationHash) (tx_idx : TxIdx) : option MemoryEntry :=
  tree ← data !! location; tree !! tx_idx.

(** The last value a write set gives to a location. *)
Fixpoint written_value (write_set : WriteSet) (location : MemoryLocationHash)
  : option MemoryValue :=
  match write_set with
  | [] => None
  | (l, v) :: rest =>
      match written_value rest location with
      | Some v' => Some v'
      | None => if bool_decide (l = location) then Some v else None
      end
  end.

(** The entries of a location below a transaction, closest first. *)
Definition history (data : gmap MemoryLocationHash (gmap TxIdx MemoryEntry))
  (location : MemoryLocationHash) (tx_idx : TxIdx) : list (TxIdx * MemoryEntry) :=
  range_rev (default ∅ (data !! location)) tx_idx.

(** The origin a read that stops at an entry records for it. *)
Definition entry_origin (e : TxIdx * MemoryEntry) : option ReadOrigin :=
  match e with
  | (i, Data inc _) => Some (OriginMvMemory {| tx_idx := i; tx_incarnation := inc |})
  | (_, Estimate) => None
  end.

(** The origin lists a read records: versions from the closest down, then
    possibly the storage, and never the empty list. *)
Definition origins_wf (origins : list ReadOrigin) : Prop :=
  exists versions tail,
    origins = map OriginMvMemory versions ++ tail /\
    (tail = [OriginStorage] \/ tail = [] /\ versions <> []).

(** ** The invariant of the memory of a block of [n] transactions *)

Record mv_wf (n : nat) (mv : MvMemory) : Prop := {
  mv_wf_length : length (mv_last_locations mv) = n;
  mv_wf_bound : forall loc i e, entry_at (mv_data mv) loc i = Some e -> i < n;
  (* a value is always one that the transaction's last incarnation wrote *)
  mv_wf_data : forall loc i inc v,
    entry_at (mv_data mv) loc i = Some (Data inc v) ->
    exists last, mv_last_locations mv !! i = Some last /\ loc ∈ ll_write last;
  (* and no location it wrote has lost its entry *)
  mv_wf_write : forall i last loc,
    mv_last_locations mv !! i = Some last -> loc ∈ ll_write last ->
    is_Some (entry_at (mv_data mv) loc i);
  mv_wf_read : forall i last loc origins,
    mv_last_locations mv !! i = Some last -> ll_read last !! loc = Some origins ->
    origins_wf origins;
}.

(** ** Lemmas: entries *)

Lemma entry_at_history data loc i k e :
  (k, e) ∈ history data loc i <-> k < i /\ entry_at data loc k = Some e.
Proof.
  unfold history, entry_at. rewrite elem_of_range_rev.
  destruct (data !! loc) as [tree|]; simpl; [done|].
  rewrite lookup_empty. naive_solver.
Qed.

Lemma entry_at_write_entry data i loc e loc' j :
  entry_at (write_entry i loc e data) loc' j =
  if bool_decide (loc = loc' /\ i = j) then Some e else entry_at data loc' j.
Proof.
  unfold entry_at, write_entry. case_bool_decide as Hd.
  - destruct Hd as [-> ->].
    destruct (data !! loc') eqn:Hl; by simplify_map_eq.
  - destruct (decide (loc = loc')) as [->|].
    + assert (i <> j) by naive_solver.
      destruct (data !! loc') eqn:Hl; rewrite lookup_insert_eq; simpl.
      * by rewrite lookup_insert_ne.
      * by rewrite lookup_singleton_ne.
    + destruct (data !! loc) eqn:Hl; by rewrite lookup_insert_ne.
Qed.

Lemma entry_at_write_entries v ws data loc j :
  entry_at (write_entries v ws data) loc j =
  if bool_decide (tx_idx v = j) then
    match written_value ws loc with
    | Some value => Some (Data (tx_incarnation v) value)
    | None => entry_at data loc j
    end
  else entry_at data loc j.
Proof.
  unfold write_entries. revert data.
  induction ws as [|[l x] ws IH]; intros data; simpl.
  - by case_bool_decide.
  - rewrite IH, entry_at_write_entry.
    repeat case_bool_decide; destruct (written_value ws loc); naive_solver.
Qed.

Lemma entry_at_remove_stale i locs prev data loc j :
  entry_at (remove_stale i locs prev data) loc j =
  if bool_decide (i = j /\ loc = prev /\ prev ∉ locs) then None
  else entry_at data loc j.
Proof.
  unfold remove_stale. case_bool_decide as Hin; [by rewrite bool_decide_false by tauto|].
  unfold entry_at. destruct (data !! prev) as [tree|] eqn:Hl; simpl.
  - case_bool_decide as Hd.
    + destruct Hd as (-> & -> & _). by rewrite lookup_insert_eq; simpl; rewrite lookup_delete_eq.
    + destruct (decide (loc = prev)) as [->|]; [|by rewrite lookup_insert_ne by done].
      rewrite lookup_insert_eq, Hl. simpl. apply lookup_delete_ne. naive_solver.
  - case_bool_decide as Hd; [|done]. destruct Hd as (-> & -> & _). by rewrite Hl.
Qed.

Lemma entry_at_remove_stales i locs prevs data loc j :
  entry_at (remove_stales i locs prevs data) loc j =
  if bool_decide (i = j /\ loc ∈ prevs /\ loc ∉ locs) then None
  else entry_at data loc j.
Proof.
  unfold remove_stales. revert data.
  induction prevs as [|p prevs IH]; intros data; simpl.
  - rewrite bool_decide_false by set_solver. done.
  - rewrite IH, entry_at_remove_stale.
    repeat case_bool_decide; set_solver.
Qed.

Lemma entry_at_estimates i locs data loc j :
  entry_at (foldl (fun data location => estimate_entry i location data) data locs) loc j =
  if bool_decide (i = j /\ loc ∈ locs /\ is_Some (data !! loc)) then Some Estimate
  else entry_at data loc j.
Proof.
  revert data. induction locs as [|l locs IH]; intros data; simpl.
  - rewrite bool_decide_false by set_solver. done.
  - rewrite IH. unfold estimate_entry.
    destruct (data !! l) as [tree|] eqn:Hl.
    + unfold entry_at. destruct (decide (loc = l)) as [->|Hne].
      * rewrite lookup_insert_eq, Hl. simpl.
        destruct (decide (i = j)) as [->|Hij].
        -- rewrite lookup_insert_eq, (bool_decide_true (j = j /\ l ∈ l :: locs /\ _))
             by (split_and!; [done|set_solver|eauto]).
           by case_bool_decide.
        -- rewrite lookup_insert_ne by done.
           by rewrite !bool_decide_false by naive_solver.
      * rewrite lookup_insert_ne by done.
        erewrite bool_decide_ext; [done|]. set_solver.
    + erewrite bool_decide_ext; [done|].
      destruct (decide (loc = l)) as [->|]; [rewrite Hl|]; set_solver.
Qed.

Lemma written_value_Some ws loc : is_Some (written_value ws loc) <-> loc ∈ map fst ws.
Proof.
  induction ws as [|[l v] ws IH]; simpl.
  - split; [by intros []|set_solver].
  - rewrite elem_of_cons, <-IH. destruct (written_value ws loc); [naive_solver|].
    case_bool_decide; naive_solver.
Qed.

Lemma written_value_elem ws loc v : written_value ws loc = Some v -> (loc, v) ∈ ws.
Proof.
  induction ws as [|[l x] ws IH]; simpl; [done|]. destruct (written_value ws loc); [set_solver|].
  case_bool_decide; [|done]. intros [= <-]. subst. set_solver.
Qed.

Lemma written_value_None ws loc : written_value ws loc = None <-> loc ∉ map fst ws.
Proof. rewrite <-written_value_Some, eq_None_not_Some. done. Qed.

Lemma existsb_new_location (prev locs : list MemoryLocationHash) :
  existsb (fun l => negb (bool_decide (l ∈ prev))) locs = true <->
  exists l, l ∈ locs /\ l ∉ prev.
Proof.
  rewrite existsb_exists. setoid_rewrite <-list_elem_of_In.
  split; intros (l & Hin & Hp); exists l; (split; [done|]).
  - by apply negb_true_iff, bool_decide_eq_false in Hp.
  - by apply negb_true_iff, bool_decide_eq_false.
Qed.

(** What [record] does, entry by entry. *)
Lemma record_run v reads ws mv last :
  mv_last_locations mv !! tx_idx v = Some last ->
  exists wrote_new mv',
    record v reads ws mv = Val (wrote_new, mv') /\
    (wrote_new = true <-> exists l, l ∈ map fst ws /\ l ∉ ll_write last) /\
    mv_last_locations mv' =
      <[tx_idx v := {| ll_read := reads; ll_write := map fst ws |}]>
        (mv_last_locations mv) /\
    (forall loc j,
       entry_at (mv_data mv') loc j =
       if bool_decide (tx_idx v = j) then
         match written_value ws loc with
         | Some value => Some (Data (tx_incarnation v) value)
         | None => if bool_decide (loc ∈ ll_write last) then None
                   else entry_at (mv_data mv) loc j
         end
       else entry_at (mv_data mv) loc j).
Proof.
  intros Hlast. unfold record, vec_get. rewrite Hlast. simpl.
  eexists _, _. split_and!; [done|apply existsb_new_location|done|].
  intros loc j. simpl. rewrite entry_at_remove_stales, entry_at_write_entries.
  destruct (written_value ws loc) eqn:Hw.
  - assert (loc ∈ map fst ws) by (apply written_value_Some; eauto).
    rewrite bool_decide_false by tauto. done.
  - apply written_value_None in Hw. repeat case_bool_decide; naive_solver.
Qed.

Lemma convert_run i mv last :
  mv_last_locations mv !! i = Some last ->
  exists mv',
    convert_writes_to_estimates i mv = Val mv' /\
    mv_last_locations mv' = mv_last_locations mv /\
    (forall loc j,
       entry_at (mv_data mv') loc j =
       if bool_decide (i = j /\ loc ∈ ll_write last /\ is_Some (mv_data mv !! loc))
       then Some Estimate else entry_at (mv_data mv) loc j).
Proof.
  intros Hlast. unfold convert_writes_to_estimates, vec_get. rewrite Hlast. simpl.
  eexists. split_and!; [done..|]. intros. apply entry_at_estimates.
Qed.

(** ** Lemmas: validation *)

Lemma validate_origins_app_mv versions tail iter :
  validate_origins iter (map OriginMvMemory versions ++ tail) = true <->
  exists taken rest,
    iter = taken ++ rest /\
    map entry_origin taken = map (fun v => Some (OriginMvMemory v)) versions /\
    validate_origins rest tail = true.
Proof.
  revert iter. induction versions as [|[i inc] versions IH]; intros iter; simpl.
  - split; [by exists [], iter|]. intros ([|x taken] & rest & -> & ? & ?); done.
  - split.
    + destruct iter as [|[k [inc' v|]] iter']; [done| |done].
      destruct (negb _ || negb _) eqn:Hb; [done|]. bool_to_prop. simpl in *. subst.
      intros (taken & rest & -> & Ht & Hr)%IH.
      exists ((i, Data inc' v) :: taken), rest. simpl. by rewrite Ht.
    + intros (taken & rest & -> & Ht & Hr).
      destruct taken as [|[k [inc' v|]] taken]; simplify_eq/=.
      rewrite !Nat.eqb_refl. simpl. apply IH. eauto.
Qed.

Lemma validate_origins_storage iter :
  validate_origins iter [OriginStorage] = true <-> iter = [].
Proof. by destruct iter. Qed.

(** A version in a valid list of origins is an entry of the history. *)
Lemma validate_origins_elem iter origins v :
  validate_origins iter origins = true -> OriginMvMemory v ∈ origins ->
  exists value, (tx_idx v, Data (tx_incarnation v) value) ∈ iter.
Proof.
  revert iter. induction origins as [|o origins IH]; intros iter; [set_solver|].
  rewrite elem_of_cons. simpl. intros Hv Hin.
  destruct o as [[i inc]|].
  - destruct iter as [|[k [inc' x|]] iter']; [done| |done].
    destruct (negb _ || negb _) eqn:Hb; [done|]. bool_to_prop. simpl in *. subst.
    destruct Hin as [[= ->]|Hin]; [exists x; set_solver|].
    destruct (IH _ Hv Hin) as [y Hy]. exists y. set_solver.
  - destruct iter; [|done]. destruct Hin as [?|Hin]; [done|].
    destruct (IH _ Hv Hin) as [y Hy]. set_solver.
Qed.

(** On the origin lists that reads record, a location without a tree and one
    with an empty tree validate alike. *)
Lemma validate_location_history mv i loc origins :
  origins_wf origins ->
  validate_location mv i loc origins =
  validate_origins (history (mv_data mv) loc i) origins.
Proof.
  intros (vs & tail & -> & Htail).
  unfold validate_location, read_location, history.
  destruct (mv_data mv !! loc) as [tree|]; simpl; [done|].
  rewrite range_rev_empty. destruct vs as [|v vs]; simpl.
  - destruct Htail as [->|[_ ?]]; [|done].
    by rewrite bool_decide_true.
  - rewrite length_app, length_map. destruct Htail as [->|[-> _]]; simpl.
    + by rewrite Nat.add_1_r.
    + rewrite app_nil_r, Nat.add_0_r. by destruct vs as [|v' vs].
Qed.

Lemma validate_read_locations_true mv i last :
  mv_last_locations mv !! i = Some last ->
  validate_read_locations i mv = Val true <->
  (forall loc origins, ll_read last !! loc = Some origins ->
     validate_location mv i loc origins = true).
Proof.
  intros Hlast. unfold validate_read_locations, vec_get. rewrite Hlast. simpl.
  split.
  - intros [= Hall] loc origins Hl. rewrite forallb_forall in Hall.
    apply (Hall (loc, origins)), list_elem_of_In, elem_of_map_to_list, Hl.
  - intros Hall. f_equal. apply forallb_forall. intros [loc origins] Hin.
    apply Hall, elem_of_map_to_list, list_elem_of_In, Hin.
Qed.

Lemma validate_read_locations_total mv i :
  i < length (mv_last_locations mv) ->
  exists b, validate_read_locations i mv = Val b.
Proof.
  intros Hi. unfold validate_read_locations, vec_get.
  destruct (lookup_lt_is_Some_2 _ _ Hi) as [last ->]. simpl. eauto.
Qed.

Lemma history_ext d1 d2 loc i :
  (forall k, k < i -> entry_at d1 loc k = entry_at d2 loc k) ->
  history d1 loc i = history d2 loc i.
Proof.
  intros Heq. apply range_rev_ext. intros k Hk. specialize (Heq k Hk).
  unfold entry_at in Heq.
  destruct (d1 !! loc), (d2 !! loc); simpl in *; by rewrite ?lookup_empty.
Qed.

(** ** Lemmas: the invariant *)

Lemma new_entry n ests loc i e :
  entry_at (mv_data (new n ests)) loc i = Some e ->
  e = Estimate /\ exists idxs, (loc, idxs) ∈ ests /\ i ∈ idxs.
Proof.
  unfold new. simpl.
  assert (forall idxs (tree : gmap nat MemoryEntry), foldl (fun t k => <[k := Estimate]> t) tree idxs !! i = Some e ->
            tree !! i = Some e \/ e = Estimate /\ i ∈ idxs) as Htree.
  { induction idxs as [|k idxs IH]; intros tree Hl; simpl in *; [by left|].
    destruct (IH _ Hl) as [Hi|[-> Hi]]; [|by right; set_solver].
    destruct (decide (k = i)) as [->|]; simplify_map_eq; [right; set_solver|by left]. }
  assert (forall d, entry_at (foldl (fun data '(l, idxs) =>
            <[l := foldl (fun tree k => <[k := Estimate]> tree) ∅ idxs]> data) d ests) loc i
            = Some e ->
          entry_at d loc i = Some e \/
          e = Estimate /\ exists idxs, (loc, idxs) ∈ ests /\ i ∈ idxs) as Hgen.
  { induction ests as [|[l idxs] ests IH]; intros d Hl; simpl in *; [by left|].
    destruct (IH _ Hl) as [Hi|(-> & idxs' & Hin & Hi)]; [|right; set_solver].
    unfold entry_at in *. destruct (decide (l = loc)) as [->|].
    - rewrite lookup_insert_eq in Hi. simpl in Hi.
      destruct (Htree _ _ Hi) as [?|[-> ?]]; [by simplify_map_eq|right; set_solver].
    - rewrite lookup_insert_ne in Hi by done. by left. }
  intros Hl. destruct (Hgen _ Hl) as [Hd|]; [|done].
  unfold entry_at in Hd. by rewrite lookup_empty in Hd.
Qed.

Lemma mv_wf_new n ests :
  (forall loc idxs, (loc, idxs) ∈ ests -> Forall (fun i => i < n) idxs) ->
  mv_wf n (new n ests).
Proof.
  intros Hb.
  assert (forall i last, mv_last_locations (new n ests) !! i = Some last ->
            last = LastLocations_default) as Hlast.
  { intros i last Hl. simpl in Hl. by apply lookup_replicate in Hl as [-> _]. }
  split.
  - simpl. apply length_replicate.
  - intros loc i e He. apply new_entry in He as (_ & idxs & Hin & Hi).
    specialize (Hb _ _ Hin). rewrite Forall_forall in Hb. by apply Hb.
  - intros loc i inc v He. by apply new_entry in He as [? _].
  - intros i last loc Hl. rewrite (Hlast _ _ Hl). simpl. set_solver.
  - intros i last loc origins Hl. rewrite (Hlast _ _ Hl). simpl.
    by rewrite lookup_empty.
Qed.

Lemma mv_wf_record n v reads ws mv wrote_new mv' :
  mv_wf n mv -> tx_idx v < n ->
  map_Forall (fun _ => origins_wf) reads ->
  record v reads ws mv = Val (wrote_new, mv') -> mv_wf n mv'.
Proof.
  intros [Hlen Hbound Hdata Hwrite Hread] Hv Horigins Hrec.
  destruct (lookup_lt_is_Some_2 (mv_last_locations mv) (tx_idx v)) as [last Hlast]; [lia|].
  destruct (record_run v reads ws mv last Hlast) as (b & mv'' & Hrec' & _ & Hl & He).
  rewrite Hrec in Hrec'. simplify_eq.
  assert (forall i last', mv_last_locations mv'' !! i = Some last' ->
    i = tx_idx v /\ last' = {| ll_read := reads; ll_write := map fst ws |} \/
    i <> tx_idx v /\ mv_last_locations mv !! i = Some last') as Hcase.
  { intros i last' Hi. rewrite Hl in Hi.
    apply list_lookup_insert_Some in Hi as [(-> & <- & _)|[? ?]]; auto. }
  split.
  - by rewrite Hl, length_insert.
  - intros loc i e. rewrite He. case_bool_decide; [by subst|]. eauto.
  - intros loc i inc x. rewrite He, Hl. case_bool_decide as Hi.
    + subst i. rewrite list_lookup_insert_eq by lia.
      destruct (written_value ws loc) eqn:Hw.
      * intros _. eexists. split; [done|]. simpl. apply written_value_Some. eauto.
      * case_bool_decide as Hin; [done|]. intros Hd.
        destruct (Hdata _ _ _ _ Hd) as (last' & Hlast' & ?). naive_solver.
    + intros Hd. destruct (Hdata _ _ _ _ Hd) as (last' & Hlast' & ?).
      exists last'. by rewrite list_lookup_insert_ne.
  - intros i last' loc Hi Hin. rewrite He.
    destruct (Hcase _ _ Hi) as [[-> ->]|[Hne Hi']].
    + rewrite bool_decide_true by done. simpl in Hin.
      apply written_value_Some in Hin as [x ->]. eauto.
    + rewrite bool_decide_false by done. eauto.
  - intros i last' loc origins Hi Ho.
    destruct (Hcase _ _ Hi) as [[-> ->]|[Hne Hi']]; [apply (Horigins loc), Ho|eauto].
Qed.

Lemma entry_at_is_Some data loc i :
  is_Some (entry_at data loc i) -> is_Some (data !! loc).
Proof. unfold entry_at. intros [e He]. destruct (data !! loc); [eauto|done]. Qed.

Lemma mv_wf_convert n i mv mv' :
  mv_wf n mv -> i < n -> convert_writes_to_estimates i mv = Val mv' -> mv_wf n mv'.
Proof.
  intros [Hlen Hbound Hdata Hwrite Hread] Hi Hconv.
  destruct (lookup_lt_is_Some_2 (mv_last_locations mv) i) as [last Hlast]; [lia|].
  destruct (convert_run i mv last Hlast) as (mv'' & Hconv' & Hl & He).
  rewrite Hconv in Hconv'. simplify_eq. split; rewrite ?Hl; try done.
  - intros loc j e. rewrite He. case_bool_decide; [naive_solver|eauto].
  - intros loc j inc x. rewrite He. case_bool_decide; [done|eauto].
  - intros j last' loc Hj Hin. rewrite He. case_bool_decide; eauto.
Qed.

(** Once the writes of a transaction are converted, it has no value left. *)
Lemma convert_no_data n i mv mv' loc inc v :
  mv_wf n mv -> i < n -> convert_writes_to_estimates i mv = Val mv' ->
  entry_at (mv_data mv') loc i <> Some (Data inc v).
Proof.
  intros Hwf Hi Hconv.
  destruct (lookup_lt_is_Some_2 (mv_last_locations mv) i) as [last Hlast];
    [by rewrite (mv_wf_length _ _ Hwf)|].
  destruct (convert_run i mv last Hlast) as (mv'' & Hconv' & Hl & He).
  rewrite Hconv in Hconv'. simplify_eq. rewrite He.
  case_bool_decide as Hd; [done|]. intros Hx.
  destruct (mv_wf_data _ _ Hwf _ _ _ _ Hx) as (last' & Hlast' & Hin). simplify_eq.
  apply Hd. split_and!; [done..|]. eapply entry_at_is_Some. eauto.
Qed.

#[export] Hint Resolve mv_wf_new mv_wf_record mv_wf_convert : pevm.

(** * Properties *)

(** C15. [record] does exactly what the algorithm asks for, on every
    transaction index in range: a written location gets the new incarnation's
    last value for it, a location that only the previous incarnation wrote
    loses this transaction's entry, every other entry is untouched; the read
    and write sets become the recorded ones; and the returned flag is true
    exactly when some location was not written by the previous incarnation. *)
Theorem record_correct v reads ws mv last :
  mv_last_locations mv !! tx_idx v = Some last ->
  exists wrote_new mv',
    record v reads ws mv = Val (wrote_new, mv') /\
    (wrote_new = true <-> exists l, l ∈ map fst ws /\ l ∉ ll_write last) /\
    mv_last_locations mv' =
      <[tx_idx v := {| ll_read := reads; ll_write := map fst ws |}]>
        (mv_last_locations mv) /\
    (forall loc j, j <> tx_idx v ->
       entry_at (mv_data mv') loc j = entry_at (mv_data mv) loc j) /\
    (forall loc value, written_value ws loc = Some value ->
       entry_at (mv_data mv') loc (tx_idx v) =
       Some (Data (tx_incarnation v) value)) /\
    (forall loc, loc ∉ map fst ws -> loc ∈ ll_write last ->
       entry_at (mv_data mv') loc (tx_idx v) = None) /\
    (forall loc, loc ∉ map fst ws -> loc ∉ ll_write last ->
       entry_at (mv_data mv') loc (tx_idx v) = entry_at (mv_data mv) loc (tx_idx v)).
Proof.
  intros Hlast.
  destruct (record_run v reads ws mv last Hlast) as (b & mv' & Hrec & Hb & Hl & He).
  exists b, mv'. split_and!; try done; intros loc; intros; rewrite He.
  - by rewrite bool_decide_false by congruence.
  - by rewrite bool_decide_true, H.
  - apply written_value_None in H as ->. by rewrite !bool_decide_true.
  - apply written_value_None in H as ->.
    by rewrite bool_decide_true, bool_decide_false.
Qed.

(** A memory of three transactions used by the examples below: the first two
    wrote location 7, and the third read it from the second. *)
Definition sample_memory : MvMemory :=
  {| mv_data := {[7%Z := <[0 := Data 0 (ValStorage 5%Z)]>
                          {[1 := Data 2 (ValStorage 6%Z)]}]};
     mv_last_locations :=
       [{| ll_read := ∅; ll_write := [7%Z] |};
        {| ll_read := ∅; ll_write := [7%Z] |};
        {| ll_read := {[7%Z := [OriginMvMemory {| tx_idx := 1; tx_incarnation := 2 |}]]};
           ll_write := [] |}] |}.

Lemma record_correct_witness :
  mv_last_locations sample_memory !! 1 = Some {| ll_read := ∅; ll_write := [7%Z] |} /\
  exists wrote_new mv',
    record {| tx_idx := 1; tx_incarnation := 3 |} ∅ [(8%Z, ValStorage 9%Z)] sample_memory
    = Val (wrote_new, mv') /\ entry_at (mv_data mv') 7%Z 1 = None.
Proof.
  split; [reflexivity|].
  destruct (record_correct {| tx_idx := 1; tx_incarnation := 3 |} ∅
              [(8%Z, ValStorage 9%Z)] sample_memory
              {| ll_read := ∅; ll_write := [7%Z] |} eq_refl)
    as (b & mv' & Hrec & _ & _ & _ & _ & Hstale & _).
  exists b, mv'. split; [exact Hrec|]. apply Hstale; simpl; set_solver.
Defined.

(** The operations workers apply to the memory of a block of [n] transactions. *)
Inductive mv_step (n : nat) : MvMemory -> MvMemory -> Prop :=
| mv_step_record v reads ws mv wrote_new mv' :
    tx_idx v < n -> map_Forall (fun _ => origins_wf) reads ->
    record v reads ws mv = Val (wrote_new, mv') -> mv_step n mv mv'
| mv_step_convert i mv mv' :
    i < n -> convert_writes_to_estimates i mv = Val mv' -> mv_step n mv mv'.

(** C23. Starting from a new memory whose estimates are in the block, every
    sequence of [record] and [convert_writes_to_estimates] on indexes of the
    block keeps the memory's invariant: a value in the multi-version data is
    one that its transaction's last incarnation wrote, no written location is
    lost, no index leaves the block; and every further operation on an index
    of the block is defined (the unchecked indexing is in range). *)
Theorem mv_memory_invariant n ests mv :
  (forall loc idxs, (loc, idxs) ∈ ests -> Forall (fun i => i < n) idxs) ->
  rtc (mv_step n) (new n ests) mv ->
  mv_wf n mv /\
  forall i, i < n ->
    (exists b, validate_read_locations i mv = Val b) /\
    (exists mv', convert_writes_to_estimates i mv = Val mv') /\
    (forall inc reads ws, exists b mv',
       record {| tx_idx := i; tx_incarnation := inc |} reads ws mv = Val (b, mv')).
Proof.
  intros Hests Hsteps.
  assert (mv_wf n mv) as Hwf.
  { apply (rtc_invariant _ _ _ _ Hsteps); [by apply mv_wf_new|].
    intros mv1 mv2 []; eauto with pevm. }
  split; [done|]. intros i Hi. rewrite <-(mv_wf_length _ _ Hwf) in Hi.
  destruct (lookup_lt_is_Some_2 _ _ Hi) as [last Hlast]. split_and!.
  - by apply validate_read_locations_total.
  - destruct (convert_run i mv last Hlast) as (mv' & ? & _). eauto.
  - intros inc reads ws.
    destruct (record_run {| tx_idx := i; tx_incarnation := inc |} reads ws mv last Hlast)
      as (b & mv' & ? & _). eauto.
Qed.

Lemma mv_memory_invariant_witness :
  exists mv,
    record {| tx_idx := 0; tx_incarnation := 0 |} ∅ [(7%Z, ValStorage 5%Z)]
      (new 2 [(7%Z, [0; 1])]) = Val (true, mv) /\ mv_wf 2 mv.
Proof.
  eexists. split; [reflexivity|].
  refine (proj1 (mv_memory_invariant 2 [(7%Z, [0; 1])] _ _ _)).
  - intros loc idxs Hin%list_elem_of_singleton. simplify_eq. repeat constructor.
  - eapply rtc_once, mv_step_record with (v := {| tx_idx := 0; tx_incarnation := 0 |})
      (reads := ∅); [simpl; lia|done|reflexivity].
Defined.

(** C13. What a successful validation means: for every location of the recorded
    read set, the entries now below the transaction start with exactly the
    versions that were read, in order and all with values, and when the read
    went down to the storage there is no other entry; that is, reading the
    location again would follow the same origins. *)
Theorem validate_read_locations_correct n mv i last :
  mv_wf n mv -> mv_last_locations mv !! i = Some last ->
  validate_read_locations i mv = Val true <->
  (forall loc versions tail,
     ll_read last !! loc = Some (map OriginMvMemory versions ++ tail) ->
     tail = [OriginStorage] \/ tail = [] ->
     exists taken rest,
       history (mv_data mv) loc i = taken ++ rest /\
       map entry_origin taken = map (fun v => Some (OriginMvMemory v)) versions /\
       (tail = [OriginStorage] -> rest = [])).
Proof.
  intros Hwf Hlast. rewrite validate_read_locations_true by done. split.
  - intros Hall loc vs tail Hl Htail. specialize (Hall _ _ Hl).
    rewrite validate_location_history in Hall by eauto using mv_wf_read.
    apply validate_origins_app_mv in Hall as (taken & rest & Hh & Ht & Hr).
    exists taken, rest. split_and!; [done..|]. intros ->.
    by apply validate_origins_storage.
  - intros Hall loc origins Hl.
    pose proof (mv_wf_read _ _ Hwf _ _ _ _ Hlast Hl) as Ho.
    rewrite validate_location_history by done.
    destruct Ho as (vs & tail & -> & Htail).
    destruct (Hall loc vs tail Hl) as (taken & rest & -> & Ht & Hr); [tauto|].
    apply validate_origins_app_mv. exists taken, rest. split_and!; [done..|].
    destruct Htail as [->|[-> _]]; [|done]. rewrite Hr by done. done.
Qed.

Lemma sample_memory_wf : mv_wf 3 sample_memory.
Proof.
  assert (forall loc i e, entry_at (mv_data sample_memory) loc i = Some e ->
    loc = 7%Z /\ (i = 0 \/ i = 1)) as Hentry.
  { intros loc i e. unfold entry_at. simpl.
    destruct (decide (loc = 7%Z)) as [->|]; [|by rewrite lookup_singleton_ne].
    rewrite lookup_singleton_eq. simpl. intros He.
    destruct (decide (i = 0)) as [->|]; [auto|]. rewrite lookup_insert_ne in He by done.
    apply lookup_singleton_Some in He as [<- _]. auto. }
  split.
  - reflexivity.
  - intros loc i e [_ [-> | ->]]%Hentry; lia.
  - intros loc i inc v [-> [-> | ->]]%Hentry; eexists; split; try reflexivity;
      simpl; set_solver.
  - intros i last loc Hl Hin. destruct i as [|[|[|i]]]; simplify_eq/=; try set_solver;
      apply list_elem_of_singleton in Hin as ->; eexists; reflexivity.
  - intros i last loc origins Hl Ho. destruct i as [|[|[|i]]]; simplify_eq/=;
      try (by rewrite lookup_empty in Ho).
    apply lookup_singleton_Some in Ho as [<- <-].
    exists [{| tx_idx := 1; tx_incarnation := 2 |}], []. split; [done|]. by right.
Qed.

Lemma validate_read_locations_correct_witness :
  validate_read_locations 2 sample_memory = Val true /\
  exists taken rest,
    history (mv_data sample_memory) 7%Z 2 = taken ++ rest /\
    map entry_origin taken =
      [Some (OriginMvMemory {| tx_idx := 1; tx_incarnation := 2 |})].
Proof.
  split; [vm_compute; reflexivity|].
  destruct (proj1 (validate_read_locations_correct 3 sample_memory 2 _
              sample_memory_wf eq_refl) ltac:(vm_compute; reflexivity)
              7%Z [{| tx_idx := 1; tx_incarnation := 2 |}] []
              ltac:(vm_compute; reflexivity) ltac:(by right))
    as (taken & rest & Hh & Ht & _).
  exists taken, rest. split; [exact Hh|exact Ht].
Defined.

(** A valid read of a version keeps that version's value in the memory. *)
Lemma validated_version_present n mv j last loc origins v :
  mv_wf n mv -> mv_last_locations mv !! j = Some last ->
  validate_read_locations j mv = Val true ->
  ll_read last !! loc = Some origins -> OriginMvMemory v ∈ origins ->
  tx_idx v < j /\
  exists value, entry_at (mv_data mv) loc (tx_idx v) =
                Some (Data (tx_incarnation v) value).
Proof.
  intros Hwf Hlast Hval Hl Hin.
  rewrite validate_read_locations_true in Hval by done. specialize (Hval _ _ Hl).
  rewrite validate_location_history in Hval by eauto using mv_wf_read.
  destruct (validate_origins_elem _ _ _ Hval Hin) as [x Hx].
  apply entry_at_history in Hx as [? ?]. eauto.
Qed.

(** The validation of a transaction looks at lower transactions only. *)
Lemma validate_ext n mv mv' j :
  mv_wf n mv -> mv_wf n mv' -> j < n ->
  mv_last_locations mv' !! j = mv_last_locations mv !! j ->
  (forall loc k, k < j -> entry_at (mv_data mv') loc k = entry_at (mv_data mv) loc k) ->
  validate_read_locations j mv' = validate_read_locations j mv.
Proof.
  intros Hwf Hwf' Hj Hl He.
  unfold validate_read_locations, vec_get. rewrite Hl.
  destruct (mv_last_locations mv !! j) as [last|] eqn:Hlast; [|done]. simpl. f_equal.
  apply forallb_ext_elem. intros [loc origins] Hin%elem_of_map_to_list.
  rewrite !validate_location_history by eauto using mv_wf_read.
  by rewrite (history_ext (mv_data mv') (mv_data mv)) by auto.
Qed.

(** C21. After a transaction's writes are converted to estimates, every higher
    transaction whose recorded reads name any version of it fails validation,
    so no value of an aborted incarnation survives a validation. *)
Theorem convert_invalidates_readers n i j mv mv' last loc origins v :
  mv_wf n mv -> i < n ->
  mv_last_locations mv !! j = Some last ->
  ll_read last !! loc = Some origins -> OriginMvMemory v ∈ origins -> tx_idx v = i ->
  convert_writes_to_estimates i mv = Val mv' ->
  validate_read_locations j mv' = Val false.
Proof.
  intros Hwf Hi Hlast Hl Hin <- Hconv.
  assert (mv_last_locations mv' = mv_last_locations mv) as Heq.
  { unfold convert_writes_to_estimates, vec_get in Hconv. by repeat case_step. }
  assert (mv_wf n mv') as Hwf' by eauto with pevm.
  destruct (validate_read_locations_total mv' j) as [[] Hb]; [|exfalso|done].
  { rewrite Heq. by eapply lookup_lt_Some. }
  destruct (validated_version_present n mv' j last loc origins v) as [_ [x Hx]]; auto;
    [by rewrite Heq|].
  by destruct (convert_no_data n (tx_idx v) mv mv' loc (tx_incarnation v) x).
Qed.

Lemma convert_invalidates_readers_witness :
  exists mv', convert_writes_to_estimates 1 sample_memory = Val mv' /\
              validate_read_locations 2 mv' = Val false.
Proof.
  eexists. split; [reflexivity|].
  eapply (convert_invalidates_readers 3 1 2 sample_memory) with
    (v := {| tx_idx := 1; tx_incarnation := 2 |}) (loc := 7%Z);
    [exact sample_memory_wf|lia|reflexivity|reflexivity|set_solver|reflexivity|reflexivity].
Defined.

(** A valid list of origins that goes below an entry names it. *)
Lemma validate_origins_past (tree : gmap TxIdx MemoryEntry) i origins k e :
  validate_origins (range_rev tree i) origins = true -> k < i -> tree !! k = Some e ->
  OriginStorage ∈ origins \/ (exists u, OriginMvMemory u ∈ origins /\ tx_idx u < k) ->
  exists inc x, e = Data inc x /\
    OriginMvMemory {| tx_idx := k; tx_incarnation := inc |} ∈ origins.
Proof.
  revert i. induction origins as [|o origins IH]; intros i Hval Hk He Hbelow; [set_solver|].
  simpl in Hval. destruct o as [[c inc]|].
  - destruct (range_rev tree i) as [|[c' [inc' x|]] iter] eqn:Hiter; [done| |done].
    destruct (negb _ || negb _) eqn:Hb; [done|]. bool_to_prop. simpl in *. subst.
    apply range_rev_cons_inv in Hiter as (Hc & Htree & -> & Hmax).
    destruct (Nat.lt_trichotomy k c) as [Hlt|[->|Hgt]].
    + destruct (IH c Hval Hlt He) as (inc & y & -> & Hin); [|exists inc, y; set_solver].
      destruct Hbelow as [Hs|(u & Hu & Hlu)]; [left; set_solver|right].
      exists u. split; [|done]. apply elem_of_cons in Hu as [[= ->]|Hu]; [simpl in *; lia|done].
    + simplify_eq. exists inc', x. set_solver.
    + rewrite Hmax in He by lia. done.
  - destruct (range_rev tree i) eqn:Hiter; [|done].
    by rewrite (range_rev_nil_inv _ _ Hiter k Hk) in He.
Qed.

(** What a higher transaction has read at a location is not what reading it
    after transaction [i] recorded incarnation [v] there gives: it read another
    incarnation of that transaction, or it read past it, below the location that
    [v] writes. *)
Definition outdated_by (v : TxVersion) (ws : WriteSet) (loc : MemoryLocationHash)
  (origins : list ReadOrigin) : Prop :=
  (exists v', OriginMvMemory v' ∈ origins /\ tx_idx v' = tx_idx v /\
     tx_incarnation v' <> tx_incarnation v) \/
  (loc ∈ map fst ws /\ (OriginMvMemory v ∉ origins) /\
     (OriginStorage ∈ origins \/
      exists u, OriginMvMemory u ∈ origins /\ tx_idx u < tx_idx v)).

(** C20. Recording an incarnation invalidates what it should above it: a higher
    transaction that read another incarnation of this transaction, or that read
    past it (from a lower transaction or the storage) a location that it now
    writes, fails validation afterwards. *)
Theorem record_invalidates_old_readers n v reads ws mv wrote_new mv' j last loc origins :
  mv_wf n mv -> tx_idx v < n -> map_Forall (fun _ => origins_wf) reads ->
  record v reads ws mv = Val (wrote_new, mv') ->
  tx_idx v < j -> mv_last_locations mv !! j = Some last ->
  ll_read last !! loc = Some origins -> outdated_by v ws loc origins ->
  validate_read_locations j mv' = Val false.
Proof.
  intros Hwf Hv Ho Hrec Hj Hlast Hl Hold.
  assert (mv_wf n mv') as Hwf' by eauto with pevm.
  destruct (lookup_lt_is_Some_2 (mv_last_locations mv) (tx_idx v)) as [lastv Hlastv];
    [by rewrite (mv_wf_length _ _ Hwf)|].
  destruct (record_run v reads ws mv lastv Hlastv) as (b & mv'' & Hrec' & _ & Hll & He).
  rewrite Hrec in Hrec'. simplify_eq.
  assert (mv_last_locations mv'' !! j = Some last) as Hlast'
    by (rewrite Hll, list_lookup_insert_ne; auto with lia).
  destruct (validate_read_locations_total mv'' j) as [[] Hb]; [by eapply lookup_lt_Some| |done].
  exfalso. destruct Hold as [(v' & Hin & Hidx & Hinc)|(Hwrites & Hnot & Hbelow)].
  - destruct (validated_version_present n mv'' j last loc origins v') as [_ [x Hx]]; auto.
    rewrite He, bool_decide_true in Hx by done.
    destruct (written_value ws loc) eqn:Hw; [by simplify_eq|].
    case_bool_decide as Hprev; [done|]. rewrite Hidx in Hx.
    destruct (mv_wf_data _ _ Hwf _ _ _ _ Hx) as (? & ? & ?). by simplify_eq.
  - apply written_value_Some in Hwrites as [x Hx].
    specialize (He loc (tx_idx v)). rewrite bool_decide_true, Hx in He by done.
    rewrite (validate_read_locations_true _ _ _ Hlast') in Hb. specialize (Hb _ _ Hl).
    rewrite validate_location_history in Hb by eauto using mv_wf_read.
    unfold history in Hb. unfold entry_at in He.
    destruct (mv_data mv'' !! loc) as [tree|]; [|done]. simpl in *.
    destruct (validate_origins_past tree j origins (tx_idx v) _ Hb Hj He Hbelow)
      as (inc & y & [= <- <-] & Hin). by destruct v.
Qed.

Lemma record_invalidates_old_readers_witness :
  exists mv', record {| tx_idx := 1; tx_incarnation := 3 |} ∅ [(7%Z, ValStorage 6%Z)]
                sample_memory = Val (false, mv') /\
              validate_read_locations 2 mv' = Val false.
Proof.
  eexists. split; [reflexivity|].
  eapply (record_invalidates_old_readers 3 {| tx_idx := 1; tx_incarnation := 3 |} ∅
            [(7%Z, ValStorage 6%Z)] sample_memory) with (j := 2) (loc := 7%Z);
    [exact sample_memory_wf|simpl; lia|done|reflexivity|simpl; lia|reflexivity|reflexivity|].
  left. exists {| tx_idx := 1; tx_incarnation := 2 |}. simpl. split_and!; [set_solver|done|lia].
Defined.

(** C22. Neither recording nor aborting a transaction changes the outcome of
    validating a lower one: validation depends on lower transactions only. *)
Theorem lower_validation_stable n mv mv' i j :
  mv_wf n mv -> j < i -> i < n ->
  (exists inc reads ws b, map_Forall (fun _ => origins_wf) reads /\
     record {| tx_idx := i; tx_incarnation := inc |} reads ws mv = Val (b, mv')) \/
  convert_writes_to_estimates i mv = Val mv' ->
  validate_read_locations j mv' = validate_read_locations j mv.
Proof.
  intros Hwf Hj Hi Hop.
  destruct (lookup_lt_is_Some_2 (mv_last_locations mv) i) as [last Hlast];
    [by rewrite (mv_wf_length _ _ Hwf)|].
  destruct Hop as [(inc & reads & ws & b & Ho & Hrec)|Hconv].
  - destruct (record_run {| tx_idx := i; tx_incarnation := inc |} reads ws mv last Hlast)
      as (b' & mv'' & Hrec' & _ & Hl & He).
    rewrite Hrec in Hrec'. simplify_eq/=.
    apply (validate_ext n); [done|eapply mv_wf_record, Hrec; auto|lia|..].
    + rewrite Hl. apply list_lookup_insert_ne. lia.
    + intros loc k Hk. rewrite He. by rewrite bool_decide_false by lia.
  - destruct (convert_run i mv last Hlast) as (mv'' & Hconv' & Hl & He).
    rewrite Hconv in Hconv'. simplify_eq/=.
    apply (validate_ext n); [done|by eapply mv_wf_convert, Hconv|lia|..].
    + by rewrite Hl.
    + intros loc k Hk. rewrite He. by rewrite bool_decide_false by lia.
Qed.

Lemma lower_validation_stable_witness :
  exists mv', convert_writes_to_estimates 1 sample_memory = Val mv' /\
    validate_read_locations 0 mv' = validate_read_locations 0 sample_memory.
Proof.
  eexists. split; [reflexivity|].
  apply (lower_validation_stable 3 sample_memory _ 1 0);
    [exact sample_memory_wf|lia|lia|right; reflexivity].
Defined.
