(* ===== verification/Scheduler.v ===== *)
(** * Scheduler: the collaborative scheduler ([src/scheduler.rs])

    The shared state as a record and each operation as a state-passing
    computation that may fault.  The index counters ([execution_idx],
    [validation_idx], [min_validation_idx]) are natural numbers, which is
    enough because they stay near the block size (see [Workers]); the two
    counters that are decremented ([num_validated] and the numbers of pending
    dependencies) are machine words that wrap around like the atomics do. *)

From stdpp Require Import base list gmap.
From Stdlib Require Import ZArith Lia.
From S2P Require Import Prelude Types.

Record Scheduler : Type := {
  execution_idx : nat;
  validation_idx : nat;
  transactions_status : TransactionsStatus;
  block_size : nat;
  min_validation_idx : nat;
  num_validated : Z;
  transactions_dependents : TransactionsDependents;
  transactions_dependencies_num : TransactionsDependenciesNum;
}.

Definition new (block_size : nat) (transactions_status : TransactionsStatus)
  (transactions_dependents : TransactionsDependents)
  (transactions_dependencies : TransactionsDependenciesNum) : Scheduler :=
  {| block_size := block_size;
     execution_idx := 0;
     transactions_status := transactions_status;
     transactions_dependents := transactions_dependents;
     transactions_dependencies_num := transactions_dependencies;
     validation_idx := block_size;
     min_validation_idx := block_size;
     num_validated := 0 |}.

(** ** Field updates *)

Definition with_execution_idx (x : nat) (s : Scheduler) : Scheduler :=
  {| execution_idx := x; validation_idx := validation_idx s;
     transactions_status := transactions_status s; block_size := block_size s;
     min_validation_idx := min_validation_idx s; num_validated := num_validated s;
     transactions_dependents := transactions_dependents s;
     transactions_dependencies_num := transactions_dependencies_num s |}.

Definition with_validation_idx (x : nat) (s : Scheduler) : Scheduler :=
  {| execution_idx := execution_idx s; validation_idx := x;
     transactions_status := transactions_status s; block_size := block_size s;
     min_validation_idx := min_validation_idx s; num_validated := num_validated s;
     transactions_dependents := transactions_dependents s;
     transactions_dependencies_num := transactions_dependencies_num s |}.

Definition with_status (x : TransactionsStatus) (s : Scheduler) : Scheduler :=
  {| execution_idx := execution_idx s; validation_idx := validation_idx s;
     transactions_status := x; block_size := block_size s;
     min_validation_idx := min_validation_idx s; num_validated := num_validated s;
     transactions_dependents := transactions_dependents s;
     transactions_dependencies_num := transactions_dependencies_num s |}.

Definition with_min_validation_idx (x : nat) (s : Scheduler) : Scheduler :=
  {| execution_idx := execution_idx s; validation_idx := validation_idx s;
     transactions_status := transactions_status s; block_size := block_size s;
     min_validation_idx := x; num_validated := num_validated s;
     transactions_dependents := transactions_dependents s;
     transactions_dependencies_num := transactions_dependencies_num s |}.

Definition with_num_validated (x : Z) (s : Scheduler) : Scheduler :=
  {| execution_idx := execution_idx s; validation_idx := validation_idx s;
     transactions_status := transactions_status s; block_size := block_size s;
     min_validation_idx := min_validation_idx s; num_validated := x;
     transactions_dependents := transactions_dependents s;
     transactions_dependencies_num := transactions_dependencies_num s |}.

Definition with_dependents (x : TransactionsDependents) (s : Scheduler) : Scheduler :=
  {| execution_idx := execution_idx s; validation_idx := validation_idx s;
     transactions_status := transactions_status s; block_size := block_size s;
     min_validation_idx := min_validation_idx s; num_validated := num_validated s;
     transactions_dependents := x;
     transactions_dependencies_num := transactions_dependencies_num s |}.

Definition with_dependencies_num (x : TransactionsDependenciesNum) (s : Scheduler)
  : Scheduler :=
  {| execution_idx := execution_idx s; validation_idx := validation_idx s;
     transactions_status := transactions_status s; block_size := block_size s;
     min_validation_idx := min_validation_idx s; num_validated := num_validated s;
     transactions_dependents := transactions_dependents s;
     transactions_dependencies_num := x |}.

(** ** Locks and atomics *)

(** [index_mutex!(self.transactions_status, i)] *)
Definition lock_status (i : TxIdx) : ST Scheduler TxStatus := fun s =>
  tx ← vec_get (transactions_status s) i; Val (tx, s).

(** [tx.status = st], and [tx.incarnation = inc], under that lock *)
Definition store_status (i : TxIdx) (tx : TxStatus) : ST Scheduler unit :=
  st_modify (fun s => with_status (<[i := tx]> (transactions_status s)) s).

(** [index_mutex!(self.transactions_dependents, i)] *)
Definition lock_dependents (i : TxIdx) : ST Scheduler (list TxIdx) := fun s =>
  l ← vec_get (transactions_dependents s) i; Val (l, s).

Definition store_dependents (i : TxIdx) (l : list TxIdx) : ST Scheduler unit :=
  st_modify (fun s => with_dependents (<[i := l]> (transactions_dependents s)) s).

Definition fetch_add_execution_idx : ST Scheduler nat := fun s =>
  Val (execution_idx s, with_execution_idx (execution_idx s + 1) s).

Definition fetch_min_execution_idx (i : nat) : ST Scheduler unit :=
  st_modify (fun s => with_execution_idx (Nat.min (execution_idx s) i) s).

Definition fetch_add_validation_idx : ST Scheduler nat := fun s =>
  Val (validation_idx s, with_validation_idx (validation_idx s + 1) s).

Definition fetch_min_validation_idx (i : nat) : ST Scheduler unit :=
  st_modify (fun s => with_validation_idx (Nat.min (validation_idx s) i) s).

Definition fetch_min_min_validation_idx (i : nat) : ST Scheduler nat := fun s =>
  Val (min_validation_idx s,
       with_min_validation_idx (Nat.min (min_validation_idx s) i) s).

Definition fetch_add_num_validated : ST Scheduler unit :=
  st_modify (fun s => with_num_validated (usize_add (num_validated s) 1) s).

Definition fetch_sub_num_validated : ST Scheduler unit :=
  st_modify (fun s => with_num_validated (usize_sub (num_validated s) 1) s).

(** The atomic of the number of dependencies of a flagged transaction. *)
Definition store_deps_num (i : TxIdx) (x : Z) : ST Scheduler unit :=
  st_modify (fun s => with_dependencies_num
                        (<[i := x]> (transactions_dependencies_num s)) s).

Definition with_tx_status (tx : TxStatus) (st : IncarnationStatus) : TxStatus :=
  {| incarnation := incarnation tx; status := st |}.

(** [matches!(st, Executed | Validated)] *)
Definition is_done (st : IncarnationStatus) : bool :=
  match st with Executed | Validated => true | _ => false end.

(** ** Picking tasks *)

Fixpoint try_execute_loop (fuel : nat) (tx_idx : TxIdx) : ST Scheduler (option TxVersion) :=
  n ← st_gets block_size;
  if tx_idx <? n then
    match fuel with
    | 0 => st_fail OutOfFuel
    | S fuel =>
        tx ← lock_status tx_idx;
        if bool_decide (status tx = ReadyToExecute) then
          _ ← store_status tx_idx (with_tx_status tx Executing);
          mret (Some {| tx_idx := tx_idx; tx_incarnation := incarnation tx |})
        else
          tx_idx ← fetch_add_execution_idx;
          try_execute_loop fuel tx_idx
    end
  else mret None.

(** The loop looks at [tx_idx], then at the indexes from [execution_idx] up to
    the block size: it needs no more fuel than this. *)
Definition try_execute (tx_idx : TxIdx) : ST Scheduler (option TxVersion) := fun s =>
  try_execute_loop (S (block_size s - execution_idx s)) tx_idx s.

Definition try_validate : ST Scheduler (option TxVersion) :=
  tx_idx ← fetch_add_validation_idx;
  n ← st_gets block_size;
  if tx_idx <? n then
    tx ← lock_status tx_idx;
    if is_done (status tx) then
      mret (Some {| tx_idx := tx_idx; tx_incarnation := incarnation tx |})
    else mret None
  else mret None.

(** One iteration of the loop of [next_task]: [Some r] when the function
    returns [r], [None] when the loop goes on. *)
Definition next_task_iter : ST Scheduler (option (option Task)) :=
  n ← st_gets block_size;
  execution_idx ← st_gets execution_idx;
  validation_idx ← st_gets validation_idx;
  if (n <=? execution_idx) && (n <=? validation_idx) then
    num_validated ← st_gets num_validated;
    min_validation_idx ← st_gets min_validation_idx;
    if (usize_sub (Z.of_nat n) (Z.of_nat min_validation_idx) <=? num_validated)%Z
    then mret (Some None)
    else mret None
  else if validation_idx <? execution_idx then
    r ← try_validate;
    match r with
    | Some tx_version => mret (Some (Some (ValidationTask tx_version)))
    | None => mret None
    end
  else
    i ← fetch_add_execution_idx;
    r ← try_execute i;
    match r with
    | Some tx_version => mret (Some (Some (ExecutionTask tx_version)))
    | None => mret None
    end.

Fixpoint next_task (fuel : nat) : ST Scheduler (option Task) :=
  match fuel with
  | 0 => st_fail OutOfFuel
  | S fuel =>
      r ← next_task_iter;
      match r with
      | Some task => mret task
      | None => next_task fuel
      end
  end.

(** ** Blocking and resuming *)

(** A thread that locks one status twice deadlocks with itself. *)
Definition add_dependency (tx_idx blocking_tx_idx : TxIdx) : ST Scheduler bool :=
  blocking_tx ← lock_status blocking_tx_idx;
  if is_done (status blocking_tx) then mret false
  else if tx_idx =? blocking_tx_idx then st_fail SelfDeadlock
  else
    tx ← lock_status tx_idx;
    if bool_decide (status tx = Executing) then
      _ ← store_status tx_idx (with_tx_status tx Aborting);
      blocking_dependents ← lock_dependents blocking_tx_idx;
      _ ← store_dependents blocking_tx_idx (blocking_dependents ++ [tx_idx]);
      deps ← st_gets transactions_dependencies_num;
      match deps !! tx_idx with
      | Some deps_num => _ ← store_deps_num tx_idx (usize_add deps_num 1); mret true
      | None => mret true
      end
    else st_fail Unreachable.

Definition set_ready_status (tx_idx : TxIdx) : ST Scheduler unit :=
  tx ← lock_status tx_idx;
  if bool_decide (status tx = Aborting) then
    store_status tx_idx {| incarnation := incarnation tx + 1; status := ReadyToExecute |}
  else st_fail Unreachable.

(** [min_dependent_idx] after one more resumed dependent. *)
Definition min_opt (i : TxIdx) (m : option TxIdx) : option TxIdx :=
  match m with None => Some i | Some j => Some (Nat.min i j) end.

(** The loop over the dependents. *)
Fixpoint resume_dependents (dependents : list TxIdx) (min_dependent_idx : option TxIdx)
  : ST Scheduler (option TxIdx) :=
  match dependents with
  | [] => mret min_dependent_idx
  | tx_idx :: rest =>
      deps ← st_gets transactions_dependencies_num;
      match deps !! tx_idx with
      | Some deps_num =>
          _ ← store_deps_num tx_idx (usize_sub deps_num 1);
          if (1 <? deps_num)%Z then resume_dependents rest min_dependent_idx
          else
            _ ← set_ready_status tx_idx;
            resume_dependents rest (min_opt tx_idx min_dependent_idx)
      | None =>
          _ ← set_ready_status tx_idx;
          resume_dependents rest (min_opt tx_idx min_dependent_idx)
      end
  end.

(** ** Finishing tasks *)

(** Where to validate from after an execution. *)
Definition schedule_validation (tx_version : TxVersion) (wrote_new_location : bool)
  (next_validation_idx : option TxIdx) : ST Scheduler (option Task) :=
  min_validation_idx ←
    match next_validation_idx with
    | Some i => old ← fetch_min_min_validation_idx i; mret (Nat.min old i)
    | None => st_gets min_validation_idx
    end;
  n ← st_gets block_size;
  if min_validation_idx <? n then
    if tx_idx tx_version <? min_validation_idx then
      _ ← (if wrote_new_location then fetch_min_validation_idx min_validation_idx
           else mret tt);
      mret None
    else
      validation_idx ← st_gets validation_idx;
      if tx_idx tx_version <? validation_idx then
        _ ← (if wrote_new_location then fetch_min_validation_idx (tx_idx tx_version + 1)
             else mret tt);
        mret (Some (ValidationTask tx_version))
      else mret None
  else mret None.

Definition finish_execution (tx_version : TxVersion) (wrote_new_location : bool)
  (next_validation_idx : option TxIdx) : ST Scheduler (option Task) :=
  tx ← lock_status (tx_idx tx_version);
  if bool_decide (status tx = Executing) then
    _ ← store_status (tx_idx tx_version) (with_tx_status tx Executed);
    dependents ← lock_dependents (tx_idx tx_version);
    min_dependent_idx ← resume_dependents dependents None;
    _ ← store_dependents (tx_idx tx_version) [];
    _ ← match min_dependent_idx with
        | Some min_idx => fetch_min_execution_idx min_idx
        | None => mret tt
        end;
    schedule_validation tx_version wrote_new_location next_validation_idx
  else st_fail Unreachable.

Definition try_validation_abort (tx_version : TxVersion) : ST Scheduler bool :=
  tx ← lock_status (tx_idx tx_version);
  _ ← (if bool_decide (status tx = Validated) then fetch_sub_num_validated else mret tt);
  let aborting := is_done (status tx) in
  _ ← (if aborting then store_status (tx_idx tx_version) (with_tx_status tx Aborting)
       else mret tt);
  mret aborting.

Definition finish_validation (tx_version : TxVersion) (aborted : bool)
  : ST Scheduler (option Task) :=
  if aborted then
    _ ← set_ready_status (tx_idx tx_version);
    _ ← fetch_min_validation_idx (tx_idx tx_version + 1);
    execution_idx ← st_gets execution_idx;
    if tx_idx tx_version <? execution_idx then
      r ← try_execute (tx_idx tx_version);
      mret (option_map ExecutionTask r)
    else mret None
  else
    tx ← lock_status (tx_idx tx_version);
    if bool_decide (status tx = Executed) then
      _ ← store_status (tx_idx tx_version) (with_tx_status tx Validated);
      _ ← fetch_add_num_validated;
      mret None
    else mret None.

(** ** Views of the state *)

Definition st_at (s : Scheduler) (i : TxIdx) : option IncarnationStatus :=
  status <$> transactions_status s !! i.

Definition dependents_of (s : Scheduler) (i : TxIdx) : list TxIdx :=
  default [] (transactions_dependents s !! i).

(** Both vectors have one element per transaction, and no validation starts
    past the end of the block. *)
Record sized (s : Scheduler) : Prop := {
  sized_status : length (transactions_status s) = block_size s;
  sized_dependents : length (transactions_dependents s) = block_size s;
  sized_min : min_validation_idx s <= block_size s;
}.

(** Run a state computation on a known state. *)
Ltac st_run :=
  unfold lock_status, store_status, lock_dependents, store_dependents,
    fetch_add_execution_idx, fetch_min_execution_idx, fetch_add_validation_idx,
    fetch_min_validation_idx, fetch_min_min_validation_idx, fetch_add_num_validated,
    fetch_sub_num_validated, store_deps_num;
  unfold mbind, ST_bind, outcome_bind, mret, ST_ret, outcome_ret, st_gets, st_get,
    st_modify, st_fail; repeat progress simpl.

(** Answer the next indexing with a known element. *)
Ltac st_index H :=
  repeat progress simpl; rewrite (vec_get_Some _ _ _ H); repeat progress simpl.

(** ** Lemmas *)

Lemma st_at_Some s i st :
  st_at s i = Some st <->
  exists tx, transactions_status s !! i = Some tx /\ status tx = st.
Proof. unfold st_at. rewrite fmap_Some. naive_solver. Qed.

Lemma sized_lookup s i :
  sized s -> i < block_size s -> exists tx, transactions_status s !! i = Some tx.
Proof. intros [Hl _ _] Hi. apply lookup_lt_is_Some_2. lia. Qed.

Lemma sized_lookup_dependents s i :
  sized s -> i < block_size s ->
  transactions_dependents s !! i = Some (dependents_of s i).
Proof.
  intros [_ Hl _] Hi. unfold dependents_of.
  destruct (lookup_lt_is_Some_2 (transactions_dependents s) i) as [l ->]; [lia|done].
Qed.

Lemma st_at_lt s i st : sized s -> st_at s i = Some st -> i < block_size s.
Proof.
  intros [Hl _ _] (tx & Htx & _)%st_at_Some. rewrite <-Hl. by eapply lookup_lt_Some.
Qed.

Lemma st_at_with_status s l i : st_at (with_status l s) i = status <$> l !! i.
Proof. done. Qed.

Lemma st_at_insert s i tx j :
  i < length (transactions_status s) ->
  st_at (with_status (<[i := tx]> (transactions_status s)) s) j =
  if bool_decide (i = j) then Some (status tx) else st_at s j.
Proof.
  intros Hi. rewrite st_at_with_status. unfold st_at. case_bool_decide as Hj.
  - subst. by rewrite list_lookup_insert_eq.
  - by rewrite list_lookup_insert_ne.
Qed.

Lemma with_execution_idx_twice x y s :
  with_execution_idx x (with_execution_idx y s) = with_execution_idx x s.
Proof. done. Qed.

Lemma with_execution_idx_id s : with_execution_idx (execution_idx s) s = s.
Proof. by destruct s. Qed.

Lemma try_execute_loop_ge fuel i s :
  block_size s <= i -> try_execute_loop fuel i s = Val (None, s).
Proof.
  intros Hi. apply Nat.ltb_ge in Hi. destruct fuel; simpl; st_run; by rewrite Hi.
Qed.

Lemma try_execute_loop_S fuel i s tx :
  i < block_size s -> transactions_status s !! i = Some tx ->
  try_execute_loop (S fuel) i s =
  if bool_decide (status tx = ReadyToExecute) then
    Val (Some {| tx_idx := i; tx_incarnation := incarnation tx |},
         with_status (<[i := with_tx_status tx Executing]> (transactions_status s)) s)
  else try_execute_loop fuel (execution_idx s) (with_execution_idx (execution_idx s + 1) s).
Proof.
  intros Hi Htx. apply Nat.ltb_lt in Hi. simpl. st_run. rewrite Hi. st_index Htx.
  by destruct tx as [inc []].
Qed.

(** The loop of [try_execute]: it returns with the fuel [try_execute] gives
    it; it takes the index it was given when that one is ready, and otherwise
    the first ready one from [execution_idx] on; and it moves [execution_idx]
    past indexes that are not ready only. *)
Lemma try_execute_loop_run fuel i s :
  sized s -> block_size s - execution_idx s < fuel ->
  exists r e,
    execution_idx s <= e <= S (Nat.max (execution_idx s) (block_size s)) /\
    (forall j, execution_idx s <= j < e -> st_at s j = Some ReadyToExecute ->
       exists v, r = Some v /\ tx_idx v = j) /\
    (st_at s i = Some ReadyToExecute -> exists v, r = Some v /\ tx_idx v = i) /\
    match r with
    | Some v =>
        exists tx, transactions_status s !! tx_idx v = Some tx /\
          status tx = ReadyToExecute /\ tx_incarnation v = incarnation tx /\
          try_execute_loop fuel i s =
            Val (r, with_execution_idx e
                      (with_status (<[tx_idx v := with_tx_status tx Executing]>
                                      (transactions_status s)) s))
    | None => (i < block_size s -> block_size s <= e) /\
              try_execute_loop fuel i s = Val (r, with_execution_idx e s)
    end.
Proof.
  intros Hs Hfuel.
  assert (forall fuel e0 i,
    execution_idx s <= e0 -> block_size s - e0 < fuel ->
    exists r e,
      e0 <= e <= S (Nat.max e0 (block_size s)) /\
      (forall j, e0 <= j < e -> st_at s j = Some ReadyToExecute ->
         exists v, r = Some v /\ tx_idx v = j) /\
      (st_at s i = Some ReadyToExecute -> exists v, r = Some v /\ tx_idx v = i) /\
      match r with
      | Some v =>
          exists tx, transactions_status s !! tx_idx v = Some tx /\
            status tx = ReadyToExecute /\ tx_incarnation v = incarnation tx /\
            try_execute_loop fuel i (with_execution_idx e0 s) =
              Val (r, with_execution_idx e
                        (with_status (<[tx_idx v := with_tx_status tx Executing]>
                                        (transactions_status s)) s))
      | None => (i < block_size s -> block_size s <= e) /\
          try_execute_loop fuel i (with_execution_idx e0 s) =
            Val (r, with_execution_idx e s)
      end) as Hgen.
  { clear fuel i Hfuel. induction fuel as [|fuel IH]; intros e0 i He0 Hfuel; [lia|].
    destruct (decide (i < block_size s)) as [Hi|Hi].
    2: { exists None, e0. rewrite try_execute_loop_ge by (simpl; lia).
         split_and!; [lia|lia|intros; lia| |lia|done].
         intros Hr%st_at_lt; [lia|done]. }
    destruct (sized_lookup s i Hs Hi) as [tx Htx].
    erewrite try_execute_loop_S by done. case_bool_decide as Hst.
    - exists (Some {| tx_idx := i; tx_incarnation := incarnation tx |}), e0.
      split_and!; [lia|lia|intros; lia|eauto|]. exists tx. by simpl.
    - assert (st_at s i <> Some ReadyToExecute) as Hni.
      { unfold st_at. rewrite Htx. naive_solver. }
      simpl execution_idx. rewrite with_execution_idx_twice.
      destruct (decide (e0 < block_size s)) as [Hlt|Hge].
      + destruct (IH (e0 + 1) e0) as (r & e & He & Hskip & Htake & Hr); [lia..|].
        exists r, e. split_and!; [lia|lia| |done|].
        * intros j Hj Hrj. destruct (decide (j = e0)) as [->|]; [by apply Htake|].
          apply Hskip; [lia|done].
        * destruct r as [v|]; [done|]. destruct Hr as [Hr1 Hr2].
          by split; [intros; apply Hr1|].
      + exists None, (e0 + 1). rewrite try_execute_loop_ge by (simpl; lia).
        split_and!; [lia|lia| |done|lia|done].
        intros j Hj Hrj. apply st_at_lt in Hrj; [lia|done]. }
  specialize (Hgen fuel (execution_idx s) i (le_n _) Hfuel).
  by rewrite with_execution_idx_id in Hgen.
Qed.

Lemma try_validate_run s :
  sized s ->
  exists r,
    try_validate s = Val (r, with_validation_idx (validation_idx s + 1) s) /\
    match r with
    | Some v =>
        tx_idx v = validation_idx s /\
        exists tx, transactions_status s !! tx_idx v = Some tx /\
                   is_done (status tx) = true /\ tx_incarnation v = incarnation tx
    | None => forall tx, transactions_status s !! validation_idx s = Some tx ->
                         is_done (status tx) = false
    end.
Proof.
  intros Hs. unfold try_validate. st_run.
  destruct (validation_idx s <? block_size s) eqn:Hi; bool_to_prop.
  - destruct (sized_lookup s _ Hs Hi) as [tx Htx]. st_index Htx.
    destruct (is_done (status tx)) eqn:Hd; eexists; (split; [done|]); simpl.
    + split; [done|]. by exists tx.
    + intros tx' Htx'. by simplify_eq.
  - eexists. split; [done|]. simpl. intros tx Htx%lookup_lt_Some.
    rewrite sized_status in Htx by done. lia.
Qed.

(** The dependent [i] is resumed by the loop: it is not flagged, or this was
    its last pending dependency. *)
Definition resumes (deps : gmap TxIdx Z) (i : TxIdx) : Prop :=
  match deps !! i with Some d => (d <= 1)%Z | None => True end.

#[export] Instance resumes_dec deps i : Decision (resumes deps i).
Proof. unfold resumes. destruct (deps !! i); apply _. Defined.

Definition resumed_status (tx : TxStatus) : TxStatus :=
  {| incarnation := incarnation tx + 1; status := ReadyToExecute |}.

(** The minimum of [m] and of the resumed elements of [l]. *)
Definition min_resumed (deps : gmap TxIdx Z) (l : list TxIdx) (m : option TxIdx)
  : option TxIdx :=
  foldl (fun m i => if bool_decide (resumes deps i) then min_opt i m else m) m l.

Lemma min_resumed_ext deps deps' l m :
  (forall i, i ∈ l -> deps !! i = deps' !! i) ->
  min_resumed deps l m = min_resumed deps' l m.
Proof.
  unfold min_resumed. revert m. induction l as [|i l IH]; intros m Heq; simpl; [done|].
  rewrite IH by set_solver. erewrite bool_decide_ext; [done|].
  unfold resumes. by rewrite (Heq i) by set_solver.
Qed.

Lemma min_resumed_le deps l m x :
  min_resumed deps l m = Some x ->
  (forall j, m = Some j -> x <= j) /\
  (forall i, i ∈ l -> resumes deps i -> x <= i) /\
  (m = Some x \/ x ∈ l /\ resumes deps x).
Proof.
  unfold min_resumed. revert m. induction l as [|i l IH]; intros m Hx; simpl in *.
  - simplify_eq. split_and!; [naive_solver|set_solver|by left].
  - destruct (IH _ Hx) as (Hm & Hl & Hc). clear IH. case_bool_decide as Hr.
    + assert (x <= i /\ forall j, m = Some j -> x <= j) as [Hi Hj].
      { destruct m as [j|]; simpl in Hm; specialize (Hm _ eq_refl); split;
          intros; simplify_eq; lia. }
      split_and!; [done|set_solver|].
      destruct Hc as [Hc|[? ?]]; [|right; set_solver].
      destruct m as [j|]; simpl in Hc; simplify_eq; [|right; set_solver].
      destruct (Nat.min_dec i j) as [-> | ->]; [right; set_solver|by left].
    + split_and!; [done|set_solver|]. destruct Hc as [?|[? ?]]; [by left|right; set_solver].
Qed.

Lemma min_resumed_None deps l m :
  min_resumed deps l m = None ->
  m = None /\ forall i, i ∈ l -> ~ resumes deps i.
Proof.
  unfold min_resumed. revert m. induction l as [|i l IH]; intros m Hx; simpl in *.
  - split; [done|set_solver].
  - destruct (IH _ Hx) as [Hm Hl]. case_bool_decide as Hr; [by destruct m|].
    split; [done|set_solver].
Qed.

(** The state after the loop over the dependents. *)
Definition resumed_state (l : list TxIdx) (s : Scheduler) : Scheduler :=
  with_status
    (imap (fun i tx =>
             if bool_decide (i ∈ l /\ resumes (transactions_dependencies_num s) i)
             then resumed_status tx else tx)
          (transactions_status s))
    (with_dependencies_num
       (map_imap (fun i d => Some (if bool_decide (i ∈ l) then usize_sub d 1 else d))
                 (transactions_dependencies_num s)) s).

Lemma set_ready_status_run i tx s :
  transactions_status s !! i = Some tx -> status tx = Aborting ->
  set_ready_status i s =
  Val (tt, with_status (<[i := resumed_status tx]> (transactions_status s)) s).
Proof.
  intros Htx Hst. unfold set_ready_status. st_run. st_index Htx.
  by rewrite bool_decide_true.
Qed.

Lemma resumed_state_nil s : resumed_state [] s = s.
Proof.
  unfold resumed_state. destruct s; unfold with_status, with_dependencies_num; simpl. f_equal.
  - apply list_eq. intros j. rewrite list_lookup_imap.
    by destruct (_ !! j).
  - apply map_eq. intros j. rewrite map_lookup_imap. by destruct (_ !! j).
Qed.

(** Two scheduler states with the same fields are equal. *)
Lemma Scheduler_ext s1 s2 :
  execution_idx s1 = execution_idx s2 -> validation_idx s1 = validation_idx s2 ->
  transactions_status s1 = transactions_status s2 -> block_size s1 = block_size s2 ->
  min_validation_idx s1 = min_validation_idx s2 -> num_validated s1 = num_validated s2 ->
  transactions_dependents s1 = transactions_dependents s2 ->
  transactions_dependencies_num s1 = transactions_dependencies_num s2 -> s1 = s2.
Proof. destruct s1, s2; simpl; intros; by subst. Qed.

Lemma resumed_state_status l s j :
  transactions_status (resumed_state l s) !! j =
  (fun tx => if bool_decide (j ∈ l /\ resumes (transactions_dependencies_num s) j)
             then resumed_status tx else tx) <$> transactions_status s !! j.
Proof. unfold resumed_state. simpl. by rewrite list_lookup_imap. Qed.

Lemma resumed_state_deps l s j :
  transactions_dependencies_num (resumed_state l s) !! j =
  (fun d => if bool_decide (j ∈ l) then usize_sub d 1 else d)
    <$> transactions_dependencies_num s !! j.
Proof.
  unfold resumed_state. simpl. rewrite map_lookup_imap. by destruct (_ !! j).
Qed.

Lemma resumed_state_one i tx s :
  transactions_status s !! i = Some tx ->
  resumed_state [i] s =
  let s' := match transactions_dependencies_num s !! i with
            | Some d => with_dependencies_num
                          (<[i := usize_sub d 1]> (transactions_dependencies_num s)) s
            | None => s
            end in
  if bool_decide (resumes (transactions_dependencies_num s) i)
  then with_status (<[i := resumed_status tx]> (transactions_status s)) s' else s'.
Proof.
  intros Htx. apply Scheduler_ext; try (by repeat case_match).
  - apply list_eq. intros j. rewrite resumed_state_status.
    transitivity ((if bool_decide (resumes (transactions_dependencies_num s) i)
                   then <[i := resumed_status tx]> (transactions_status s)
                   else transactions_status s) !! j); [|by repeat case_match].
    destruct (decide (j = i)) as [->|Hj].
    + rewrite Htx. simpl. case_bool_decide as Hr; case_bool_decide; try set_solver.
      rewrite list_lookup_insert_eq; [done|by eapply lookup_lt_Some].
    + rewrite bool_decide_false by set_solver.
      case_bool_decide; rewrite ?list_lookup_insert_ne by done; by destruct (_ !! j).
  - apply map_eq. intros j. rewrite resumed_state_deps.
    destruct (decide (j = i)) as [->|Hj].
    + rewrite bool_decide_true by set_solver.
      destruct (transactions_dependencies_num s !! i) as [d|] eqn:Hd; case_match; simpl;
        by rewrite ?lookup_insert_eq, ?Hd.
    + rewrite bool_decide_false by set_solver.
      destruct (transactions_dependencies_num s !! i) as [d|] eqn:Hd; case_match; simpl;
        rewrite ?lookup_insert_ne by done; by destruct (_ !! j).
Qed.

Lemma resumes_resumed_state l s j :
  j ∉ l ->
  resumes (transactions_dependencies_num (resumed_state l s)) j <->
  resumes (transactions_dependencies_num s) j.
Proof.
  intros Hj. unfold resumes. rewrite resumed_state_deps.
  rewrite bool_decide_false by done. by destruct (_ !! j).
Qed.

Lemma resumed_state_cons i l s :
  i ∉ l -> resumed_state l (resumed_state [i] s) = resumed_state (i :: l) s.
Proof.
  intros Hi. apply Scheduler_ext; try done.
  - apply list_eq. intros j. rewrite !resumed_state_status.
    destruct (transactions_status s !! j) as [tx|]; [|done]. cbn [fmap option_fmap option_map].
    f_equal. destruct (decide (j = i)) as [->|].
    + rewrite (bool_decide_false (i ∈ l /\ _)) by tauto.
      repeat case_bool_decide; set_solver.
    + rewrite (bool_decide_false (j ∈ [i] /\ _)) by set_solver.
      erewrite bool_decide_ext; [done|].
      rewrite resumes_resumed_state by set_solver. set_solver.
  - apply map_eq. intros j. rewrite !resumed_state_deps.
    destruct (transactions_dependencies_num s !! j); [|done]. cbn [fmap option_fmap option_map].
    f_equal. repeat case_bool_decide; set_solver.
Qed.

Lemma resume_dependents_step i l m s tx :
  transactions_status s !! i = Some tx -> status tx = Aborting ->
  resume_dependents (i :: l) m s =
  resume_dependents l
    (if bool_decide (resumes (transactions_dependencies_num s) i) then min_opt i m else m)
    (resumed_state [i] s).
Proof.
  intros Htx Hst. rewrite (resumed_state_one i tx s Htx). simpl.
  destruct (decide (resumes (transactions_dependencies_num s) i)) as [Hr|Hr];
    [rewrite bool_decide_true by done|rewrite bool_decide_false by done];
    unfold resumes in Hr; st_run;
    destruct (transactions_dependencies_num s !! i) as [d|] eqn:Hd; try done; simpl.
  - replace (1 <? d)%Z with false by lia. by rewrite (set_ready_status_run i tx).
  - by rewrite (set_ready_status_run i tx).
  - by replace (1 <? d)%Z with true by lia.
Qed.

Lemma resume_dependents_run l m s :
  NoDup l -> (forall i, i ∈ l -> st_at s i = Some Aborting) ->
  resume_dependents l m s =
  Val (min_resumed (transactions_dependencies_num s) l m, resumed_state l s).
Proof.
  revert m s. induction l as [|i l IH]; intros m s Hnd Hab.
  - simpl. st_run. by rewrite resumed_state_nil.
  - apply NoDup_cons in Hnd as [Hi Hnd].
    destruct (proj1 (st_at_Some s i Aborting)) as (tx & Htx & Hst); [set_solver|].
    rewrite (resume_dependents_step i l m s tx) by done. rewrite IH; [|done|].
    + rewrite resumed_state_cons by done. do 2 f_equal.
      etransitivity; [apply (min_resumed_ext _ (transactions_dependencies_num s))|done].
      intros j Hj. rewrite resumed_state_deps.
      rewrite bool_decide_false by set_solver. by destruct (_ !! j).
    + intros j Hj. unfold st_at. rewrite resumed_state_status.
      rewrite bool_decide_false by set_solver.
      rewrite <-option_fmap_compose. apply Hab. set_solver.
Qed.
