(* ===== verification/SchedulerEffects.v ===== *)
(** * SchedulerEffects: what the scheduler's operations do to statuses

    From any state, every operation of [src/scheduler.rs] moves each
    transaction along the status machine of [src/lib.rs], never lowers an
    incarnation, and leaves the transactions other than its own in the part of
    the machine that neither finishes nor aborts an execution. *)

From stdpp Require Import base list gmap relations.
From Stdlib Require Import ZArith Lia.
From S2P Require Import Prelude Types Scheduler.

(** The transitions that an operation may make on any transaction. *)
Inductive forward_transition : TxStatus -> TxStatus -> Prop :=
| fw_try_incarnate i :
    forward_transition {| incarnation := i; status := ReadyToExecute |}
                       {| incarnation := i; status := Executing |}
| fw_finish_validation i :
    forward_transition {| incarnation := i; status := Executed |}
                       {| incarnation := i; status := Validated |}
| fw_resume i :
    forward_transition {| incarnation := i; status := Aborting |}
                       {| incarnation := S i; status := ReadyToExecute |}.

#[export] Hint Constructors forward_transition : pevm.

(** An operation about transaction [own] moves the statuses of [s] to those of
    [s']. *)
Definition tx_effect (own : option TxIdx) (j : TxIdx) : relation TxStatus :=
  if bool_decide (own = Some j) then rtc status_transition else rtc forward_transition.

Record effect (own : option TxIdx) (s s' : Scheduler) : Prop := {
  ef_size : block_size s' = block_size s;
  ef_min : min_validation_idx s' <= min_validation_idx s;
  ef_length : length (transactions_status s') = length (transactions_status s);
  ef_status : forall j tx tx', transactions_status s !! j = Some tx ->
    transactions_status s' !! j = Some tx' -> tx_effect own j tx tx';
}.
Arguments ef_size {own s s'} _.
Arguments ef_min {own s s'} _.
Arguments ef_length {own s s'} _.
Arguments ef_status {own s s'} _.

(** ** Transitions *)

Lemma forward_legal tx tx' : forward_transition tx tx' -> status_transition tx tx'.
Proof. intros []; auto with pevm. Qed.

Lemma forward_done tx tx' :
  rtc forward_transition tx tx' -> is_done (status tx') = is_done (status tx).
Proof. induction 1 as [|x y z [] _ IH]; [done|by rewrite IH..]. Qed.

(** Nothing leaves [Executing] without its own operation. *)
Lemma forward_executing tx tx' :
  rtc forward_transition tx tx' -> status tx = Executing -> tx' = tx.
Proof. intros Ht Hst. destruct Ht as [|x y z Hxy _]; [done|]. by inversion Hxy; subst. Qed.

Lemma legal_incarnation tx tx' :
  rtc status_transition tx tx' -> incarnation tx <= incarnation tx'.
Proof. induction 1 as [|x y z Hxy _ IH]; [done|]. inversion Hxy; subst; simpl in *; lia. Qed.

#[export] Instance tx_effect_preorder own j : PreOrder (tx_effect own j).
Proof. unfold tx_effect. case_bool_decide; apply _. Qed.

Lemma tx_effect_forward own j tx tx' : forward_transition tx tx' -> tx_effect own j tx tx'.
Proof.
  intros Ht. unfold tx_effect. case_bool_decide; apply rtc_once; [by apply forward_legal|done].
Qed.

Lemma tx_effect_legal own j tx tx' : tx_effect own j tx tx' -> rtc status_transition tx tx'.
Proof.
  unfold tx_effect. case_bool_decide; [done|]. intros Ht.
  eapply rtc_subrel; [|done]. apply forward_legal.
Qed.

Lemma tx_effect_other own j tx tx' :
  own <> Some j -> tx_effect own j tx tx' -> rtc forward_transition tx tx'.
Proof. intros Hj. unfold tx_effect. by rewrite bool_decide_false. Qed.

#[export] Instance effect_preorder own : PreOrder (effect own).
Proof.
  split.
  - intros s. split; try done. intros j tx tx' H1 H2. simplify_eq. reflexivity.
  - intros s1 s2 s3 [a1 b1 c1 d1] [a2 b2 c2 d2]. split; [congruence|lia|congruence|].
    intros j tx tx' H1 H3. destruct (lookup_lt_is_Some_2 (transactions_status s2) j) as [tx2 H2].
    { rewrite c1. by eapply lookup_lt_Some. }
    etransitivity; eauto.
Qed.

Lemma effect_forget own s s' : effect None s s' -> effect own s s'.
Proof.
  intros [a b c d]. split; auto. intros j tx tx' H1 H2. specialize (d j tx tx' H1 H2).
  unfold tx_effect in *. rewrite bool_decide_false in d by done.
  case_bool_decide; [|done]. eapply rtc_subrel; [|done]. apply forward_legal.
Qed.

(** Only the listed fields matter. *)
Lemma effect_same own s s' :
  transactions_status s' = transactions_status s -> block_size s' = block_size s ->
  min_validation_idx s' <= min_validation_idx s -> effect own s s'.
Proof.
  intros Es Eb Em. split; rewrite ?Es; auto. intros j tx tx' H1 H2. simplify_eq. reflexivity.
Qed.

Lemma effect_store own s i tx tx' :
  transactions_status s !! i = Some tx -> tx_effect own i tx tx' ->
  effect own s (with_status (<[i := tx']> (transactions_status s)) s).
Proof.
  intros Htx Ht. split; try done; [apply length_insert|]. simpl.
  intros j y y' Hy [(-> & <- & _)|[_ Hy']]%list_lookup_insert_Some; simplify_eq; [done|].
  reflexivity.
Qed.

(** ** Computations *)

(** Every run of [op] that returns has the effect. *)
Definition ensures {A} (own : option TxIdx) (op : ST Scheduler A) : Prop :=
  forall s r s', op s = Val (r, s') -> effect own s s'.

Lemma ensures_bind {A B} own (op : ST Scheduler A) (k : A -> ST Scheduler B) :
  ensures own op -> (forall a, ensures own (k a)) -> ensures own (a ← op; k a).
Proof.
  intros Hop Hk s r s' Hrun. unfold mbind, ST_bind, outcome_bind in Hrun.
  destruct (op s) as [[a s1]|] eqn:H1; [|done]. etransitivity; [by eapply Hop|by eapply Hk].
Qed.

Lemma ensures_ret {A} own (a : A) : ensures own (mret a).
Proof. intros s r s' Hrun. unfold mret, ST_ret in Hrun. simplify_eq. reflexivity. Qed.

Lemma ensures_fail {A} own f : ensures own (st_fail f : ST Scheduler A).
Proof. by intros s r s' Hrun. Qed.

Lemma ensures_gets {A} own (f : Scheduler -> A) : ensures own (st_gets f).
Proof. intros s r s' Hrun. unfold st_gets in Hrun. simplify_eq. reflexivity. Qed.

(** An operation that keeps the statuses. *)
Lemma ensures_keep {A} own (op : ST Scheduler A) :
  (forall s r s', op s = Val (r, s') ->
     transactions_status s' = transactions_status s /\ block_size s' = block_size s /\
     min_validation_idx s' <= min_validation_idx s) ->
  ensures own op.
Proof. intros Hop s r s' (? & ? & ?)%Hop. by apply effect_same. Qed.

(** A section under the lock of a status. *)
Lemma ensures_lock_status {A} own i (k : TxStatus -> ST Scheduler A) :
  (forall tx s r s', transactions_status s !! i = Some tx -> k tx s = Val (r, s') ->
     effect own s s') ->
  ensures own (tx ← lock_status i; k tx).
Proof.
  intros Hk s r s' Hrun. unfold mbind, ST_bind, outcome_bind, lock_status, vec_get in Hrun.
  destruct (transactions_status s !! i) as [tx|] eqn:Htx; [|done]. by eapply Hk.
Qed.

Lemma ensures_lock_any {A} own i (k : TxStatus -> ST Scheduler A) :
  (forall tx, ensures own (k tx)) -> ensures own (tx ← lock_status i; k tx).
Proof. intros Hk. apply ensures_lock_status. intros tx s r s' _. apply Hk. Qed.

(** ** The operations *)

Create HintDb effects.
#[export] Hint Resolve ensures_ret ensures_fail ensures_gets : effects.

(** Sequencing, branching and the operations known so far; a section under
    the lock of a status is left. *)
Ltac ensures_tac :=
  repeat lazymatch goal with
  | |- ensures _ (lock_status _ ≫= _) => fail
  | |- ensures _ (_ ≫= _) => apply ensures_bind; [|intros ?]
  | |- ensures _ (match _ with _ => _ end) => case_match
  | |- _ => solve [auto with effects]
  end.

Section primitives.
Implicit Types (own : option TxIdx) (i : TxIdx).

Lemma ensures_lock_dependents own i : ensures own (lock_dependents i).
Proof.
  apply ensures_keep. intros s r s' Hrun. unfold lock_dependents, vec_get in Hrun.
  by destruct (_ !! i); simplify_eq/=.
Qed.

Lemma ensures_modify own (f : Scheduler -> Scheduler) :
  (forall s, transactions_status (f s) = transactions_status s /\
             block_size (f s) = block_size s /\
             min_validation_idx (f s) <= min_validation_idx s) ->
  ensures own (st_modify f).
Proof. intros Hf. apply ensures_keep. intros s r s' [= <- <-]. apply Hf. Qed.

Lemma ensures_fetch_min_min own i : ensures own (fetch_min_min_validation_idx i).
Proof. apply ensures_keep. intros s r s' [= <- <-]. simpl. split_and!; auto. lia. Qed.

Lemma ensures_fetch_add_execution own : ensures own fetch_add_execution_idx.
Proof. apply ensures_keep. by intros s r s' [= <- <-]. Qed.

Lemma ensures_fetch_add_validation own : ensures own fetch_add_validation_idx.
Proof. apply ensures_keep. by intros s r s' [= <- <-]. Qed.
End primitives.

#[export] Hint Resolve ensures_lock_dependents ensures_fetch_min_min
  ensures_fetch_add_execution ensures_fetch_add_validation : effects.
#[export] Hint Extern 1 (ensures _ (fetch_min_execution_idx _)) =>
  by apply ensures_modify : effects.
#[export] Hint Extern 1 (ensures _ (fetch_min_validation_idx _)) =>
  by apply ensures_modify : effects.
#[export] Hint Extern 1 (ensures _ fetch_add_num_validated) =>
  by apply ensures_modify : effects.
#[export] Hint Extern 1 (ensures _ fetch_sub_num_validated) =>
  by apply ensures_modify : effects.
#[export] Hint Extern 1 (ensures _ (store_dependents _ _)) =>
  by apply ensures_modify : effects.
#[export] Hint Extern 1 (ensures _ (store_deps_num _ _)) =>
  by apply ensures_modify : effects.

(** A store under a lock followed by an operation with the effect. *)
Lemma effect_store_then {A} own s i tx tx' (k : ST Scheduler A) r s' :
  transactions_status s !! i = Some tx -> tx_effect own i tx tx' -> ensures own k ->
  (_ ← store_status i tx'; k) s = Val (r, s') -> effect own s s'.
Proof.
  intros Htx Ht Hk Hrun. unfold mbind, ST_bind, outcome_bind, store_status, st_modify in Hrun.
  etransitivity; [by apply (effect_store own s i tx tx')|]. by eapply Hk.
Qed.

Lemma try_execute_loop_ensures own fuel i : ensures own (try_execute_loop fuel i).
Proof.
  revert i. induction fuel as [|fuel IH]; intros i; simpl; ensures_tac.
  apply ensures_lock_status. intros tx s r s' Htx. case_bool_decide as Hst.
  - apply (effect_store_then _ s _ tx); auto with effects.
    apply tx_effect_forward. destruct tx; simpl in *; subst. constructor.
  - revert s r s' Htx. cut (ensures own (i ← fetch_add_execution_idx; try_execute_loop fuel i)).
    { intros Hen s r s' _ Hrun. by eapply Hen. }
    ensures_tac.
Qed.

Lemma try_execute_ensures own i : ensures own (try_execute i).
Proof. intros s r s' Hrun. by eapply try_execute_loop_ensures. Qed.
#[export] Hint Resolve try_execute_ensures : effects.

Lemma try_validate_ensures own : ensures own try_validate.
Proof.
  unfold try_validate. ensures_tac. apply ensures_lock_any. intros tx. ensures_tac.
Qed.
#[export] Hint Resolve try_validate_ensures : effects.

Lemma next_task_iter_ensures own : ensures own next_task_iter.
Proof. unfold next_task_iter. ensures_tac. Qed.

Lemma add_dependency_ensures i b : ensures (Some i) (add_dependency i b).
Proof.
  unfold add_dependency. apply ensures_lock_any. intros txb. ensures_tac. apply ensures_lock_status. intros tx s r s' Htx.
  case_bool_decide as Hst; [|done].
  apply (effect_store_then _ s _ tx); [done| |ensures_tac].
  unfold tx_effect. rewrite bool_decide_true by done. apply rtc_once.
  destruct tx; simpl in *; subst. apply st_add_dependency.
Qed.

Lemma set_ready_status_ensures own i : ensures own (set_ready_status i).
Proof.
  unfold set_ready_status. apply ensures_lock_status. intros tx s r s' Htx.
  case_bool_decide as Hst; [|done]. intros [= <- <-]. apply (effect_store _ s i tx); [done|].
  apply tx_effect_forward. destruct tx; simpl in *; subst. rewrite Nat.add_1_r. constructor.
Qed.
#[export] Hint Resolve set_ready_status_ensures : effects.

Lemma resume_dependents_ensures own l m : ensures own (resume_dependents l m).
Proof. revert m. induction l; intros m; simpl; ensures_tac. Qed.
#[export] Hint Resolve resume_dependents_ensures : effects.

Lemma schedule_validation_ensures own v wrote nv : ensures own (schedule_validation v wrote nv).
Proof. unfold schedule_validation. ensures_tac. Qed.
#[export] Hint Resolve schedule_validation_ensures : effects.

Lemma finish_execution_ensures v wrote nv :
  ensures (Some (tx_idx v)) (finish_execution v wrote nv).
Proof.
  unfold finish_execution. apply ensures_lock_status. intros tx s r s' Htx.
  case_bool_decide as Hst; [|done]. apply (effect_store_then _ s _ tx); [done| |ensures_tac].
  unfold tx_effect. rewrite bool_decide_true by done. apply rtc_once.
  destruct tx; simpl in *; subst. constructor.
Qed.

Lemma try_validation_abort_ensures v : ensures (Some (tx_idx v)) (try_validation_abort v).
Proof.
  unfold try_validation_abort. apply ensures_lock_status. intros tx s r s' Htx.
  destruct (is_done (status tx)) eqn:Hd.
  - intros Hrun.
    transitivity (with_status (<[tx_idx v := with_tx_status tx Aborting]>
      (transactions_status s)) s).
    + apply (effect_store _ s _ tx); [done|]. unfold tx_effect.
      rewrite bool_decide_true by done. apply rtc_once. destruct tx as [inc st]; simpl in *.
      constructor. destruct st; auto; done.
    + revert Hrun. st_run. case_bool_decide; simpl; intros [= <- <-]; by apply effect_same.
  - st_run. case_bool_decide; simpl; intros [= <- <-]; by apply effect_same.
Qed.

Lemma finish_validation_ensures own v aborted : ensures own (finish_validation v aborted).
Proof.
  unfold finish_validation. destruct aborted; ensures_tac.
  apply ensures_lock_status. intros tx s r s' Htx.
  case_bool_decide as Hst; [|by intros [= <- <-]].
  apply (effect_store_then _ s _ tx); [done| |ensures_tac].
  apply tx_effect_forward. destruct tx; simpl in *; subst. constructor.
Qed.

Lemma next_task_ensures own fuel : ensures own (next_task fuel).
Proof.
  induction fuel as [|fuel IH]; simpl; [auto with effects|].
  apply ensures_bind; [apply next_task_iter_ensures|]. intros []; auto with effects.
Qed.
