(* ===== verification/Statuses.v ===== *)
(** * Statuses: what each operation of the scheduler does to the statuses

    [SchedulerEffects] bounds what an operation may do to a transaction; this
    file gives the exact vector of statuses after every operation of
    [src/scheduler.rs] that returns, and shows that it follows the status
    machine of [src/lib.rs]. *)

From stdpp Require Import base list gmap relations.
From Stdlib Require Import ZArith Lia.
From S2P Require Import Prelude Types Scheduler SchedulerEffects.

(** ** Operations and their answers *)

(** The calls that [src/pevm.rs] makes on the scheduler. *)
Inductive operation : Type :=
| OpNextTask (fuel : nat)
| OpAddDependency (i b : TxIdx)
| OpFinishExecution (v : TxVersion) (wrote_new_location : bool) (nv : option TxIdx)
| OpTryValidationAbort (v : TxVersion)
| OpFinishValidation (v : TxVersion) (aborted : bool).

Inductive answer : Type :=
| AnswerTask (task : option Task)
| AnswerFlag (flag : bool).

Definition run_operation (op : operation) : ST Scheduler answer :=
  match op with
  | OpNextTask fuel => task ← next_task fuel; mret (AnswerTask task)
  | OpAddDependency i b => flag ← add_dependency i b; mret (AnswerFlag flag)
  | OpFinishExecution v wrote nv => task ← finish_execution v wrote nv; mret (AnswerTask task)
  | OpTryValidationAbort v => flag ← try_validation_abort v; mret (AnswerFlag flag)
  | OpFinishValidation v aborted => task ← finish_validation v aborted; mret (AnswerTask task)
  end.

Abbreviation at_ i st := {| incarnation := i; status := st |} (only parsing).

(** Picking a task: an execution task takes a ready transaction at its
    incarnation, a validation task names an executed one. *)
Definition picked (task : option Task) (l l' : TransactionsStatus) : Prop :=
  match task with
  | Some (ExecutionTask v) =>
      l !! tx_idx v = Some (at_ (tx_incarnation v) ReadyToExecute) /\
      l' = <[tx_idx v := at_ (tx_incarnation v) Executing]> l
  | Some (ValidationTask v) =>
      l' = l /\ exists st, l !! tx_idx v = Some (at_ (tx_incarnation v) st) /\
                          (st = Executed \/ st = Validated)
  | None => l' = l
  end.

(** The transactions that finishing the execution of [i] resumes: those that wait
    for it and for nothing else. *)
Definition resumed_by (s : Scheduler) (i j : TxIdx) : Prop :=
  j ∈ dependents_of s i /\
  forall pending, transactions_dependencies_num s !! j = Some pending -> (pending <= 1)%Z.

(** The statuses after an operation with its answer. *)
Definition statuses_after (op : operation) (ans : answer) (s s' : Scheduler) : Prop :=
  let l := transactions_status s in
  let l' := transactions_status s' in
  match op, ans with
  | OpNextTask _, AnswerTask task => picked task l l'
  | OpAddDependency i b, AnswerFlag true =>
      (exists k st, l !! b = Some (at_ k st) /\ st <> Executed /\ st <> Validated) /\
      exists k, l !! i = Some (at_ k Executing) /\ l' = <[i := at_ k Aborting]> l
  | OpAddDependency i b, AnswerFlag false =>
      (exists k st, l !! b = Some (at_ k st) /\ (st = Executed \/ st = Validated)) /\ l' = l
  | OpFinishExecution v _ _, AnswerTask task =>
      (task = None \/ task = Some (ValidationTask v)) /\
      exists k, l !! tx_idx v = Some (at_ k Executing) /\
        l' !! tx_idx v = Some (at_ k Executed) /\
        forall j, j <> tx_idx v ->
          (resumed_by s (tx_idx v) j ->
             exists k, l !! j = Some (at_ k Aborting) /\
                       l' !! j = Some (at_ (S k) ReadyToExecute)) /\
          (~ resumed_by s (tx_idx v) j -> l' !! j = l !! j)
  | OpTryValidationAbort v, AnswerFlag aborted =>
      exists k st, l !! tx_idx v = Some (at_ k st) /\
        if aborted then (st = Executed \/ st = Validated) /\
                        l' = <[tx_idx v := at_ k Aborting]> l
        else st <> Executed /\ st <> Validated /\ l' = l
  | OpFinishValidation v true, AnswerTask task =>
      exists k, l !! tx_idx v = Some (at_ k Aborting) /\
        picked task (<[tx_idx v := at_ (S k) ReadyToExecute]> l) l'
  | OpFinishValidation v false, AnswerTask task =>
      task = None /\ exists k st, l !! tx_idx v = Some (at_ k st) /\
        (st = Executed -> l' = <[tx_idx v := at_ k Validated]> l) /\
        (st <> Executed -> l' = l)
  | _, _ => False
  end.

(** ** Lemmas on the operations *)

Lemma is_done_spec st : is_done st = true <-> st = Executed \/ st = Validated.
Proof. destruct st; simpl; naive_solver. Qed.

Lemma lock_status_val {A} i (k : TxStatus -> ST Scheduler A) s r s' :
  (tx ← lock_status i; k tx) s = Val (r, s') ->
  exists inc st, transactions_status s !! i = Some (at_ inc st) /\ k (at_ inc st) s = Val (r, s').
Proof.
  st_run. destruct (vec_get _ i) as [[inc st]|] eqn:Htx; [|done]. simpl. intros Hk.
  exists inc, st. split; [by apply vec_get_Val|done].
Qed.

Lemma try_execute_loop_picks fuel i s r s' :
  try_execute_loop fuel i s = Val (r, s') ->
  picked (option_map ExecutionTask r) (transactions_status s) (transactions_status s').
Proof.
  revert i s. induction fuel as [|fuel IH]; intros i s; simpl; st_run.
  { by destruct (_ <? _); [|intros [= <- <-]]. }
  destruct (_ <? _); [|by intros [= <- <-]].
  destruct (vec_get _ i) as [[inc st]|] eqn:Htx; [|done]. apply vec_get_Val in Htx. simpl.
  case_bool_decide as Hst; [|apply IH]. intros [= <- <-]. simpl in *. by subst.
Qed.

Lemma next_task_iter_picks s r s' :
  next_task_iter s = Val (r, s') ->
  picked (default None r) (transactions_status s) (transactions_status s').
Proof.
  unfold next_task_iter. st_run. destruct (_ && _); [by case_match; intros [= <- <-]|].
  destruct (_ <? _).
  - unfold try_validate. st_run. destruct (_ <? _); [|by intros [= <- <-]].
    destruct (vec_get _ _) as [[inc st]|] eqn:Htx; [|done]. apply vec_get_Val in Htx. simpl.
    destruct (is_done st) eqn:Hd; intros [= <- <-]; [|done]. simpl. split; [done|].
    exists st. split; [done|by apply is_done_spec].
  - destruct (try_execute _ _) as [[r1 s1]|] eqn:Hx; [|done].
    apply try_execute_loop_picks in Hx. simpl in Hx. by destruct r1; intros [= <- <-].
Qed.

Lemma next_task_picks fuel s r s' :
  next_task fuel s = Val (r, s') ->
  picked r (transactions_status s) (transactions_status s').
Proof.
  revert s. induction fuel as [|fuel IH]; intros s; simpl; [done|]. st_run.
  destruct (next_task_iter s) as [[[task|] s1]|] eqn:Hi; [| |done];
    apply next_task_iter_picks in Hi; simpl in Hi.
  - by intros [= <- <-].
  - intros Hn%IH. by rewrite <-Hi.
Qed.

(** One turn of the loop over the dependents. *)
Lemma resume_dependents_turn i l m s r s' :
  resume_dependents (i :: l) m s = Val (r, s') ->
  exists m1 s1, resume_dependents l m1 s1 = Val (r, s') /\
    (forall j, j <> i ->
       transactions_dependencies_num s1 !! j = transactions_dependencies_num s !! j /\
       transactions_status s1 !! j = transactions_status s !! j) /\
    (resumes (transactions_dependencies_num s) i /\
     (exists k, transactions_status s !! i = Some (at_ k Aborting) /\
                transactions_status s1 !! i = Some (at_ (S k) ReadyToExecute)) \/
     ~ resumes (transactions_dependencies_num s) i /\
     transactions_status s1 !! i = transactions_status s !! i).
Proof.
  assert (forall m1 s0, transactions_status s0 = transactions_status s ->
    (forall j, j <> i ->
       transactions_dependencies_num s0 !! j = transactions_dependencies_num s !! j) ->
    (_ ← set_ready_status i; resume_dependents l m1) s0 = Val (r, s') ->
    exists m1 s1, resume_dependents l m1 s1 = Val (r, s') /\
      (forall j, j <> i ->
         transactions_dependencies_num s1 !! j = transactions_dependencies_num s !! j /\
         transactions_status s1 !! j = transactions_status s !! j) /\
      exists k, transactions_status s !! i = Some (at_ k Aborting) /\
                transactions_status s1 !! i = Some (at_ (S k) ReadyToExecute)) as Hready.
  { intros m1 s0 Est Edeps. unfold set_ready_status. st_run. rewrite Est.
    destruct (vec_get _ i) as [[k st]|] eqn:Htx; [|done]. apply vec_get_Val in Htx. simpl.
    case_bool_decide; [|done]. simpl in *. subst. intros Hrun. eexists m1, _.
    split; [exact Hrun|]. simpl. rewrite Est. split.
    - intros j Hj. rewrite list_lookup_insert_ne by done. auto.
    - exists k. split; [done|]. rewrite list_lookup_insert_eq by by eapply lookup_lt_Some.
      by rewrite Nat.add_1_r. }
  change (resume_dependents (i :: l) m s) with
    ((deps ← st_gets transactions_dependencies_num;
      match deps !! i with
      | Some deps_num =>
          _ ← store_deps_num i (usize_sub deps_num 1);
          if (1 <? deps_num)%Z then resume_dependents l m
          else _ ← set_ready_status i; resume_dependents l (min_opt i m)
      | None => _ ← set_ready_status i; resume_dependents l (min_opt i m)
      end) s).
  unfold st_gets, resumes, mbind at 1, ST_bind at 1. simpl.
  destruct (transactions_dependencies_num s !! i) as [d|] eqn:Hd.
  - unfold store_deps_num, st_modify, mbind at 1, ST_bind at 1. simpl.
    destruct (Z.ltb_spec 1 d).
    + intros Hrun. eexists m, _. split; [exact Hrun|].
      split; [|right; split; [lia|done]]. intros j Hj. simpl. by rewrite lookup_insert_ne.
    + intros Hrun. apply Hready in Hrun as (m1 & s1 & ? & ? & ?); [|done|].
      * exists m1, s1. split_and!; [done|done|]. left. by split; [lia|].
      * intros j Hj. simpl. by rewrite lookup_insert_ne.
  - intros Hrun. apply Hready in Hrun as (m1 & s1 & ? & ? & ?); [|done|done].
    exists m1, s1. split_and!; [done|done|]. by left.
Qed.

(** The loop resumes the dependents without other pending dependencies, and no
    other transaction. *)
Lemma resume_dependents_statuses l m s r s' :
  NoDup l -> resume_dependents l m s = Val (r, s') ->
  forall j,
    (j ∈ l /\ resumes (transactions_dependencies_num s) j ->
       exists k, transactions_status s !! j = Some (at_ k Aborting) /\
                 transactions_status s' !! j = Some (at_ (S k) ReadyToExecute)) /\
    (~ (j ∈ l /\ resumes (transactions_dependencies_num s) j) ->
       transactions_status s' !! j = transactions_status s !! j).
Proof.
  revert m s. induction l as [|i l IH]; intros m s Hnd Hrun j.
  { injection Hrun as <- <-. split; [set_solver|done]. }
  apply NoDup_cons in Hnd as [Hi Hnd].
  destruct (resume_dependents_turn _ _ _ _ _ _ Hrun) as (m1 & s1 & Hrun1 & Hne & Heq).
  specialize (IH m1 s1 Hnd Hrun1 j). destruct (decide (j = i)) as [->|Hj].
  - rewrite (proj2 IH) by tauto. destruct Heq as [[Hr Heq]|[Hr Heq]].
    + split; [done|]. intros []. split; [set_solver|done].
    + split; [by intros [_ ?]|done].
  - destruct (Hne j Hj) as [Ed Es]. rewrite Es in IH.
    assert (j ∈ i :: l /\ resumes (transactions_dependencies_num s) j <->
            j ∈ l /\ resumes (transactions_dependencies_num s1) j) as Hiff.
    { unfold resumes. rewrite Ed. set_solver. }
    by rewrite Hiff.
Qed.

Lemma schedule_validation_statuses v wrote nv s r s' :
  schedule_validation v wrote nv s = Val (r, s') ->
  transactions_status s' = transactions_status s /\ (r = None \/ r = Some (ValidationTask v)).
Proof.
  unfold schedule_validation. destruct nv, wrote; st_run;
    repeat (match goal with |- context [if ?b then _ else _] => destruct b end; st_run);
    intros [= <- <-]; auto.
Qed.

Lemma finish_execution_statuses v wrote nv s r s' :
  NoDup (dependents_of s (tx_idx v)) -> finish_execution v wrote nv s = Val (r, s') ->
  statuses_after (OpFinishExecution v wrote nv) (AnswerTask r) s s'.
Proof.
  intros Hnd. unfold finish_execution. intros (k & st & Htx & Hrun)%lock_status_val. revert Hrun.
  simpl. case_bool_decide as Hst; [|done]. subst. st_run.
  assert (tx_idx v < length (transactions_status s)) as Hlt by by eapply lookup_lt_Some.
  destruct (vec_get (transactions_dependents s) (tx_idx v)) as [l|] eqn:Hl; [|done].
  apply vec_get_Val in Hl. simpl.
  assert (dependents_of s (tx_idx v) = l) as Hdep by (unfold dependents_of; by rewrite Hl).
  rewrite Hdep in Hnd.
  destruct (resume_dependents l None _) as [[m s1]|] eqn:Hres; [|done].
  pose proof (resume_dependents_statuses _ _ _ _ _ Hnd Hres) as Hs1. simpl in Hs1. clear Hres.
  set (s2 := with_dependents _ s1). intros Hrun.
  assert (exists s3, transactions_status s3 = transactions_status s1 /\
    schedule_validation v wrote nv s3 = Val (r, s')) as (s3 & Es3 & Hsched).
  { destruct m; simpl in Hrun; eexists; (split; [|exact Hrun]); done. }
  apply schedule_validation_statuses in Hsched as [Es' Htask].
  split; [done|]. exists k. split; [done|].
  assert (forall j, resumed_by s (tx_idx v) j <->
    j ∈ l /\ resumes (transactions_dependencies_num s) j) as Hby.
  { intros j. unfold resumed_by, resumes. rewrite Hdep.
    destruct (_ !! j); naive_solver. }
  rewrite Es', Es3. split.
  - destruct (Hs1 (tx_idx v)) as [Hin Hout]. rewrite list_lookup_insert_eq in Hin, Hout by done.
    destruct (decide (tx_idx v ∈ l /\ resumes (transactions_dependencies_num s) (tx_idx v)))
      as [Hr|Hr]; [by destruct (Hin Hr) as (? & ? & _)|by apply Hout].
  - intros j Hj. rewrite Hby. destruct (Hs1 j) as [Hin Hout].
    by rewrite list_lookup_insert_ne in Hin, Hout by done.
Qed.

Lemma add_dependency_statuses i b s r s' :
  add_dependency i b s = Val (r, s') ->
  statuses_after (OpAddDependency i b) (AnswerFlag r) s s'.
Proof.
  unfold add_dependency. intros (k & st & Hb & Hrun)%lock_status_val. simpl in Hrun.
  destruct (is_done st) eqn:Hd.
  { injection Hrun as <- <-. apply is_done_spec in Hd. simpl. eauto. }
  assert (st <> Executed /\ st <> Validated) as Hnd by (by destruct st).
  destruct (_ =? _); [done|]. apply lock_status_val in Hrun as (k' & st' & Hi & Hrun).
  simpl in Hrun. case_bool_decide; [|done]. subst. revert Hrun. st_run.
  destruct (vec_get _ b); [|done]. simpl.
  destruct (transactions_dependencies_num s !! i); intros [= <- <-]; simpl;
    (split; [by exists k, st|by exists k']).
Qed.

Lemma try_validation_abort_statuses v s r s' :
  try_validation_abort v s = Val (r, s') ->
  statuses_after (OpTryValidationAbort v) (AnswerFlag r) s s'.
Proof.
  unfold try_validation_abort. intros (k & st & Hv & Hrun)%lock_status_val. revert Hrun.
  st_run. destruct st; simpl; intros [= <- <-]; exists k; eexists; (split; [exact Hv|]); simpl;
    auto.
Qed.

Lemma finish_validation_statuses v aborted s r s' :
  finish_validation v aborted s = Val (r, s') ->
  statuses_after (OpFinishValidation v aborted) (AnswerTask r) s s'.
Proof.
  unfold finish_validation. destruct aborted.
  - unfold set_ready_status. st_run.
    destruct (vec_get _ _) as [[k st]|] eqn:Hv; [|done]. apply vec_get_Val in Hv. simpl.
    case_bool_decide; [|done]. simpl in *. subst. rewrite !Nat.add_1_r.
    intros Hrun. exists k. split; [done|]. revert Hrun.
    destruct (_ <? _); cbn beta; [|by intros [= <- <-]]. destruct (try_execute _ _) as [[r1 s1]|] eqn:Hx; [|done].
    apply try_execute_loop_picks in Hx. by intros [= <- <-].
  - intros (k & st & Hv & Hrun)%lock_status_val. revert Hrun. st_run.
    case_bool_decide; simpl; intros [= <- <-]; (split; [done|]); exists k, st;
      (split; [done|]); split; intros; simplify_eq; done.
Qed.

(** ** The status machine *)

(** From one status to the other: nothing, one transition of the table, or, in a
    transaction that is taken again as soon as it is ready, two. *)
Definition moves (op : operation) (tx tx' : TxStatus) : Prop :=
  tx' = tx \/ status_transition tx tx' \/
  (exists v mid, op = OpFinishValidation v true /\ status_transition tx mid /\
     status mid = ReadyToExecute /\ status_transition mid tx').

Lemma picked_moves op task l l' j tx tx' :
  picked task l l' -> l !! j = Some tx -> l' !! j = Some tx' -> moves op tx tx'.
Proof.
  intros Hp Hj Hj'. destruct task as [[v|v]|]; simpl in Hp.
  - destruct Hp as [Hv ->].
    apply list_lookup_insert_Some in Hj' as [(<- & <- & _)|[_ ?]]; simplify_eq; [|by left].
    right; left. constructor.
  - destruct Hp as [-> _]. simplify_eq. by left.
  - simplify_eq. by left.
Qed.

Lemma statuses_after_moves op ans s s' j tx tx' :
  statuses_after op ans s s' ->
  transactions_status s !! j = Some tx -> transactions_status s' !! j = Some tx' ->
  moves op tx tx'.
Proof.
  intros Hafter Hj Hj'. destruct op as [fuel|i b|v wrote nv|v|v []], ans as [task|[]];
    simpl in Hafter; try done.
  - by eapply picked_moves.
  - destruct Hafter as (_ & k & Hi & E). rewrite E in Hj'.
    apply list_lookup_insert_Some in Hj' as [(<- & <- & _)|[_ ?]]; simplify_eq; [|by left].
    right; left. apply st_add_dependency.
  - destruct Hafter as [_ E]. simplify_eq. left. congruence.
  - destruct Hafter as (_ & k & Hv & Hv' & Hother). destruct (decide (j = tx_idx v)) as [->|Hne].
    { simplify_eq. right; left. constructor. }
    destruct (Hother j Hne) as [Hin Hout].
    destruct (decide (j ∈ dependents_of s (tx_idx v) /\
                      resumes (transactions_dependencies_num s) j)) as [[Hd Hr]|Hno].
    + destruct Hin as (k' & ? & ?); [|simplify_eq; right; left; constructor].
      split; [done|]. intros pending Hp. unfold resumes in Hr. by rewrite Hp in Hr.
    + rewrite Hout in Hj'; [simplify_eq; by left|]. intros [Hd Hr]. apply Hno. split; [done|].
      unfold resumes. destruct (transactions_dependencies_num s !! j); [by apply Hr|done].
  - destruct Hafter as (k & st & Hv & Hst & E). rewrite E in Hj'.
    apply list_lookup_insert_Some in Hj' as [(<- & <- & _)|[_ ?]]; simplify_eq; [|by left].
    right; left. by constructor.
  - destruct Hafter as (k & st & Hv & _ & _ & E). left. congruence.
  - destruct Hafter as (k & Hv & Hp). destruct (decide (j = tx_idx v)) as [->|Hne].
    + assert (tx_idx v < length (transactions_status s)) as Hlt by by eapply lookup_lt_Some.
      simplify_eq. pose proof (list_lookup_insert_eq (transactions_status s) (tx_idx v)
        (at_ (S k) ReadyToExecute) Hlt) as Hmid.
      destruct (picked_moves (OpNextTask 0) _ _ _ _ _ _ Hp Hmid Hj') as [->|[Ht|(? & ? & [=] & _)]].
      * right; left. constructor.
      * right; right. exists v, (at_ (S k) ReadyToExecute).
        split_and!; [done|constructor|done|done].
    + eapply picked_moves; [exact Hp| |done]. by rewrite list_lookup_insert_ne.
  - destruct Hafter as (_ & k & st & Hv & Hyes & Hno).
    destruct (decide (st = Executed)) as [->|Hst].
    + rewrite Hyes in Hj' by done.
      apply list_lookup_insert_Some in Hj' as [(<- & <- & _)|[_ ?]]; simplify_eq; [|by left].
      right; left. constructor.
    + rewrite Hno in Hj' by done. simplify_eq. by left.
Qed.

(** C24. What every operation of the scheduler does to the statuses: picking a
    task takes one ready transaction or none; adding a dependency suspends an
    executing transaction, unless the one it waits for is executed; finishing an
    execution makes it executed and resumes exactly the dependents that wait for
    nothing else; an abort suspends an executed or validated transaction; and a
    validation makes an executed transaction validated or, after an abort, ready
    in its next incarnation, when it may be taken at once.  No other status
    changes, so every transaction follows the status machine documented in
    lib.rs one transition at a time (two where it is taken at once).  It is
    stated for lists of dependents without repetitions, as they are in all
    reachable states. *)
Theorem status_machine_respected op ans s s' :
  (forall i, NoDup (dependents_of s i)) ->
  run_operation op s = Val (ans, s') ->
  statuses_after op ans s s' /\
  length (transactions_status s') = length (transactions_status s) /\
  forall j tx tx',
    transactions_status s !! j = Some tx -> transactions_status s' !! j = Some tx' ->
    moves op tx tx'.
Proof.
  intros Hnd Hrun. assert (statuses_after op ans s s') as Hafter.
  { destruct op; simpl in Hrun; unfold mbind, ST_bind, outcome_bind in Hrun;
      match type of Hrun with match ?o with _ => _ end = _ =>
        destruct o as [[a s1]|] eqn:Ho; [|done] end; injection Hrun as <- <-.
    - by eapply next_task_picks.
    - by apply add_dependency_statuses.
    - by apply finish_execution_statuses.
    - by apply try_validation_abort_statuses.
    - by apply finish_validation_statuses. }
  split_and!; [done| |intros j tx tx'; by eapply statuses_after_moves].
  assert (exists own, ensures own (run_operation op)) as [own Hens]; [|by eapply ef_length, Hens].
  destruct op; eexists; simpl; apply ensures_bind; auto using next_task_ensures,
    add_dependency_ensures, finish_execution_ensures, try_validation_abort_ensures,
    finish_validation_ensures, ensures_ret.
  Unshelve. all: exact None.
Qed.

Definition sample_scheduler : Scheduler :=
  Scheduler.new 2 [{| incarnation := 0; status := Executing |};
                   {| incarnation := 3; status := Aborting |}] [[1]; []] {[1 := 1%Z]}.

(** Finishing the first transaction resumes the second one. *)
Lemma status_machine_respected_witness :
  let op := OpFinishExecution {| tx_idx := 0; tx_incarnation := 0 |} true (Some 1) in
  exists s', run_operation op sample_scheduler = Val (AnswerTask None, s') /\
    statuses_after op (AnswerTask None) sample_scheduler s' /\
    transactions_status s' = [{| incarnation := 0; status := Executed |};
                              {| incarnation := 4; status := ReadyToExecute |}].
Proof.
  intros op. destruct (run_operation op sample_scheduler) as [[ans s']|f] eqn:Hrun.
  - exists s'. pose proof Hrun as Hrun'. vm_compute in Hrun'. injection Hrun' as Hans Hs'.
    subst ans. split; [reflexivity|]. split; [|by subst s'].
    apply (status_machine_respected op (AnswerTask None) sample_scheduler s'); [|exact Hrun].
    intros [|[|i]]; vm_compute; repeat constructor; set_solver.
  - exfalso. vm_compute in Hrun. discriminate.
Defined.
