(* ===== verification/SchedulerInv.v ===== *)
(** * SchedulerInv: the scheduler's invariant

    What holds between the scheduler's state and the tasks the workers hold,
    whenever no operation is in progress.  Each worker has a role towards at
    most one transaction; the invariant ties statuses, dependents, counters
    and roles together, and every operation that [src/pevm.rs] calls in a role
    returns without a fault and keeps it.  The abstract promise of the
    scheduler to its callers is stated at the end. *)

From stdpp Require Import base list gmap.
From Stdlib Require Import ZArith Lia.
From S2P Require Import Prelude Types Scheduler SchedulerEffects.

(** ** Roles *)

(** A worker executes a transaction, validates it, or has aborted it and is
    about to make it ready again. *)
Inductive role : Type :=
| RExecute (i : TxIdx)
| RValidate (i : TxIdx)
| RAbort (i : TxIdx).

Definition role_of_task (t : Task) : role :=
  match t with
  | ExecutionTask v => RExecute (tx_idx v)
  | ValidationTask v => RValidate (tx_idx v)
  end.

(** Roles that only one worker may have. *)
Definition exclusive (r : role) : Prop :=
  match r with RExecute _ | RAbort _ => True | RValidate _ => False end.

Abbreviation has_role roles t r := (roles !! t = Some (Some r)) (only parsing).

(** ** The invariant *)

(** In how many lists of dependents a transaction waits. *)
Definition waits (s : Scheduler) (i : TxIdx) : nat :=
  count_if (fun l => bool_decide (i ∈ l)) (transactions_dependents s).

Definition validated_count (s : Scheduler) : nat :=
  count_if (fun tx => bool_decide (status tx = Validated)) (transactions_status s).

Definition role_idx (r : role) : TxIdx :=
  match r with RExecute i | RValidate i | RAbort i => i end.

(** What holds of one transaction, whose status is [st]. *)
Record tx_inv (s : Scheduler) (roles : list (option role)) (failed : bool)
  (i : TxIdx) (st : IncarnationStatus) : Prop := {
  (* an executing transaction has a worker *)
  ti_execute : forall t, has_role roles t (RExecute i) -> st = Executing;
  ti_executing : failed = false -> st = Executing ->
    exists t, has_role roles t (RExecute i);
  (* an aborting transaction waits in lists of dependents or has a worker *)
  ti_abort : forall t, has_role roles t (RAbort i) ->
    st = Aborting /\ waits s i = 0 /\ min_validation_idx s <= i;
  ti_aborting : failed = false -> st = Aborting ->
    0 < waits s i \/ exists t, has_role roles t (RAbort i);
  ti_wait : 0 < waits s i -> st = Aborting;
  (* and its counter, when it has one, is the number of these lists *)
  ti_deps : match transactions_dependencies_num s !! i with
            | Some d => d = Z.of_nat (waits s i)
            | None => waits s i <= 1
            end;
  ti_ready : st = ReadyToExecute -> execution_idx s <= i;
  ti_validated : st = Validated -> min_validation_idx s <= i;
  ti_validate : forall t, has_role roles t (RValidate i) -> min_validation_idx s <= i;
  (* an executed transaction past the minimum will be validated *)
  ti_pending : failed = false -> min_validation_idx s <= i -> st = Executed ->
    validation_idx s <= i \/ exists t, has_role roles t (RValidate i);
}.

Record sinv (s : Scheduler) (roles : list (option role)) (failed : bool) : Prop := {
  si_sized : sized s;
  si_small : (Z.of_nat (block_size s) < 2 ^ 64)%Z;
  si_execution_bound : execution_idx s <= S (block_size s);
  si_validation_bound : min_validation_idx s <= validation_idx s <= block_size s;
  si_roles : forall t r, has_role roles t r -> role_idx r < block_size s;
  si_unique : forall t1 t2 r, exclusive r ->
    has_role roles t1 r -> has_role roles t2 r -> t1 = t2;
  (* a transaction waits for lower transactions that are not done *)
  si_wait : forall i b, i ∈ dependents_of s b ->
    b < i < block_size s /\ (forall st, st_at s b = Some st -> is_done st = false);
  si_nodup : forall b, NoDup (dependents_of s b);
  si_num_validated : num_validated s = Z.of_nat (validated_count s);
  si_tx : forall i st, st_at s i = Some st -> tx_inv s roles failed i st;
}.

Arguments ti_execute {s roles failed i st} _.
Arguments ti_executing {s roles failed i st} _.
Arguments ti_abort {s roles failed i st} _.
Arguments ti_aborting {s roles failed i st} _.
Arguments ti_wait {s roles failed i st} _.
Arguments ti_deps {s roles failed i st} _.
Arguments ti_ready {s roles failed i st} _.
Arguments ti_validated {s roles failed i st} _.
Arguments ti_validate {s roles failed i st} _.
Arguments ti_pending {s roles failed i st} _.
Arguments si_sized {s roles failed} _.
Arguments si_small {s roles failed} _.
Arguments si_execution_bound {s roles failed} _.
Arguments si_validation_bound {s roles failed} _.
Arguments si_roles {s roles failed} _.
Arguments si_unique {s roles failed} _.
Arguments si_wait {s roles failed} _.
Arguments si_nodup {s roles failed} _.
Arguments si_num_validated {s roles failed} _.
Arguments si_tx {s roles failed} _.

(** ** Lemmas on roles *)

Lemma has_role_insert (roles : list (option role)) t x t' r :
  has_role (<[t := x]> roles) t' r <->
  t' = t /\ t < length roles /\ x = Some r \/ t' <> t /\ has_role roles t' r.
Proof. rewrite list_lookup_insert_Some. naive_solver. Qed.

(** A worker that drops a role without replacement. *)
Lemma has_role_keep (roles : list (option role)) t x t' r :
  has_role roles t' r -> t' = t \/ has_role (<[t := x]> roles) t' r.
Proof.
  intros Hr. destruct (decide (t' = t)); [by left|right].
  by rewrite list_lookup_insert_ne.
Qed.

(** ** Lemmas on lists of dependents *)

Lemma dependents_of_insert s b l b' :
  b < length (transactions_dependents s) ->
  dependents_of (with_dependents (<[b := l]> (transactions_dependents s)) s) b' =
  if bool_decide (b = b') then l else dependents_of s b'.
Proof.
  intros Hb. unfold dependents_of. simpl. case_bool_decide; subst.
  - by rewrite list_lookup_insert_eq.
  - by rewrite list_lookup_insert_ne.
Qed.

Lemma waits_pos s i : 0 < waits s i <-> exists b, i ∈ dependents_of s b.
Proof.
  unfold waits. rewrite count_if_pos. unfold dependents_of. split.
  - intros (b & l & Hl & Hi%bool_decide_eq_true). exists b. by rewrite Hl.
  - intros [b Hi]. destruct (transactions_dependents s !! b) as [l|] eqn:Hl; simpl in Hi;
      [|set_solver].
    exists b, l. split; [done|]. by apply bool_decide_eq_true.
Qed.

Lemma waits_le s i : sized s -> waits s i <= block_size s.
Proof. intros [_ <- _]. apply count_if_le. Qed.

Lemma waits_insert s b l i :
  sized s -> b < block_size s ->
  waits (with_dependents (<[b := l]> (transactions_dependents s)) s) i
    + (if bool_decide (i ∈ dependents_of s b) then 1 else 0) =
  waits s i + (if bool_decide (i ∈ l) then 1 else 0).
Proof.
  intros Hs Hb. unfold waits. simpl.
  apply (count_if_insert (fun l => bool_decide (i ∈ l))).
  by apply sized_lookup_dependents.
Qed.

Lemma validated_count_insert s i tx tx' :
  transactions_status s !! i = Some tx ->
  validated_count (with_status (<[i := tx']> (transactions_status s)) s)
    + (if bool_decide (status tx = Validated) then 1 else 0) =
  validated_count s + (if bool_decide (status tx' = Validated) then 1 else 0).
Proof.
  intros Htx. unfold validated_count. simpl.
  by apply (count_if_insert (fun tx => bool_decide (status tx = Validated))).
Qed.

Lemma validated_count_ext s s' :
  length (transactions_status s') = length (transactions_status s) ->
  (forall j, st_at s' j = Some Validated <-> st_at s j = Some Validated) ->
  validated_count s' = validated_count s.
Proof.
  intros Hl Hst. apply count_if_ext; [done|]. intros j x y Hx Hy.
  apply bool_decide_ext. specialize (Hst j). unfold st_at in Hst.
  rewrite Hx, Hy in Hst. simpl in Hst. destruct Hst as [H1 H2]. split; intros E.
  - specialize (H1 ltac:(congruence)). congruence.
  - specialize (H2 ltac:(congruence)). congruence.
Qed.

Lemma validated_count_le s : sized s -> validated_count s <= block_size s.
Proof. intros [<- _ _]. apply count_if_le. Qed.

Lemma usize_of_nat n : (Z.of_nat n < 2 ^ 64)%Z -> wrap 64 (Z.of_nat n) = Z.of_nat n.
Proof. intros. apply wrap_small. split; lia. Qed.

Lemma sized_same s s' :
  sized s ->
  length (transactions_status s') = length (transactions_status s) ->
  length (transactions_dependents s') = length (transactions_dependents s) ->
  block_size s' = block_size s -> min_validation_idx s' <= min_validation_idx s ->
  sized s'.
Proof. intros [] H1 H2 H3 H4. split; rewrite ?H1, ?H2, ?H3; auto; lia. Qed.

(** ** Views of an updated state *)

Lemma st_at_update s s' i tx :
  transactions_status s' = <[i := tx]> (transactions_status s) ->
  i < length (transactions_status s) ->
  forall j, st_at s' j = if bool_decide (i = j) then Some (status tx) else st_at s j.
Proof. intros Hs' Hi j. rewrite <-(st_at_insert s i tx j Hi). unfold st_at. by rewrite Hs'. Qed.

Lemma dependents_of_eq s s' :
  transactions_dependents s' = transactions_dependents s ->
  forall b, dependents_of s' b = dependents_of s b.
Proof. intros Hs' b. unfold dependents_of. by rewrite Hs'. Qed.

Lemma waits_eq s s' :
  transactions_dependents s' = transactions_dependents s ->
  forall i, waits s' i = waits s i.
Proof. intros Hs' b. unfold waits. by rewrite Hs'. Qed.

(** ** Frames *)

(** A step of worker [t] that concerns transaction [i] only. *)
Lemma roles_frame (roles : list (option role)) t x i :
  (forall r, roles !! t = Some (Some r) -> role_idx r = i) ->
  (forall r, x = Some r -> role_idx r = i) ->
  forall t' r, role_idx r <> i ->
    has_role (<[t := x]> roles) t' r <-> has_role roles t' r.
Proof.
  intros Hold Hnew t' r Hr. rewrite has_role_insert. split.
  - intros [(-> & _ & ->)|[_ ?]]; [|done]. by destruct Hr; apply Hnew.
  - intros Ht'. right. split; [|done]. intros ->. by destruct Hr; apply Hold.
Qed.

(** A transaction that a step does not concern. *)
Lemma tx_inv_frame s s' roles roles' failed j st :
  tx_inv s roles failed j st ->
  (forall t r, role_idx r = j -> has_role roles' t r <-> has_role roles t r) ->
  waits s' j = waits s j ->
  transactions_dependencies_num s' !! j = transactions_dependencies_num s !! j ->
  min_validation_idx s' <= min_validation_idx s ->
  (st = ReadyToExecute -> execution_idx s <= j -> execution_idx s' <= j) ->
  (failed = false -> st = Executed -> min_validation_idx s' <= j ->
   (min_validation_idx s <= j -> validation_idx s <= j \/
                                 exists t, has_role roles t (RValidate j)) ->
   validation_idx s' <= j \/ exists t, has_role roles t (RValidate j)) ->
  tx_inv s' roles' failed j st.
Proof.
  intros Htx Hr Hw Hd Hm He Hp.
  assert (forall t, has_role roles' t (RExecute j) <-> has_role roles t (RExecute j)) as HrE
    by (intros; by apply Hr).
  assert (forall t, has_role roles' t (RAbort j) <-> has_role roles t (RAbort j)) as HrA
    by (intros; by apply Hr).
  assert (forall t, has_role roles' t (RValidate j) <-> has_role roles t (RValidate j)) as HrV
    by (intros; by apply Hr).
  destruct Htx. split; rewrite ?Hw, ?Hd; try done.
  all: try setoid_rewrite HrE; try setoid_rewrite HrA; try setoid_rewrite HrV; try done.
  - intros t Ht. destruct (ti_abort0 t Ht) as (? & ? & ?). split_and!; auto; lia.
  - auto.
  - intros Hst. specialize (ti_validated0 Hst). lia.
  - intros t Ht. specialize (ti_validate0 t Ht). lia.
  - intros Hf Hmj Hst. apply Hp; auto.
Qed.

(** Only an aborting transaction waits. *)
Lemma tx_inv_not_waiting s roles failed i st :
  tx_inv s roles failed i st -> st <> Aborting -> waits s i = 0.
Proof. intros Htx Hst. destruct (waits s i) eqn:Hw; [done|]. destruct Hst. apply Htx. lia. Qed.

Section operations.
Implicit Types (s : Scheduler) (roles : list (option role)) (failed : bool).

(** The other transactions' part of the invariant when worker [t] changes its
    role about [i] and the statuses of the others stay. *)
Lemma si_tx_frame s s' roles failed t x i j st :
  sinv s roles failed -> st_at s j = Some st -> j <> i ->
  (forall r, roles !! t = Some (Some r) -> role_idx r = i) ->
  (forall r, x = Some r -> role_idx r = i) ->
  waits s' j = waits s j ->
  transactions_dependencies_num s' !! j = transactions_dependencies_num s !! j ->
  min_validation_idx s' <= min_validation_idx s ->
  (st = ReadyToExecute -> execution_idx s <= j -> execution_idx s' <= j) ->
  (failed = false -> st = Executed -> min_validation_idx s' <= j ->
   (min_validation_idx s <= j -> validation_idx s <= j \/
                                 exists t, has_role roles t (RValidate j)) ->
   validation_idx s' <= j \/ exists t, has_role roles t (RValidate j)) ->
  tx_inv s' (<[t := x]> roles) failed j st.
Proof.
  intros Hinv Hst Hj Hold Hnew. apply tx_inv_frame; [by apply Hinv|].
  intros t' r <-. by apply (roles_frame roles t x i).
Qed.

(** Uniqueness of exclusive roles after a worker takes one nobody had. *)
Lemma si_unique_insert s roles failed t x :
  sinv s roles failed ->
  (forall r t', x = Some r -> exclusive r -> t' <> t -> ~ has_role roles t' r) ->
  forall t1 t2 r, exclusive r -> has_role (<[t := x]> roles) t1 r ->
    has_role (<[t := x]> roles) t2 r -> t1 = t2.
Proof.
  intros Hinv Hx t1 t2 r Hr [(-> & _ & ->)|[Hn1 H1]]%has_role_insert
    [(-> & _ & ?)|[Hn2 H2]]%has_role_insert; simplify_eq; auto.
  - by destruct (Hx r t2).
  - by destruct (Hx r t1).
  - by eapply Hinv.
Qed.

Lemma si_roles_insert s roles failed t x :
  sinv s roles failed -> (forall r, x = Some r -> role_idx r < block_size s) ->
  forall t' r, has_role (<[t := x]> roles) t' r -> role_idx r < block_size s.
Proof.
  intros Hinv Hx t' r [(_ & _ & ->)|[_ ?]]%has_role_insert; [auto|].
  by eapply si_roles.
Qed.

(** No worker has a role about a transaction in a state that excludes it. *)
Lemma si_no_execute s roles failed i st t :
  sinv s roles failed -> st_at s i = Some st -> st <> Executing ->
  ~ has_role roles t (RExecute i).
Proof. intros Hinv Hst Hne Ht. by apply Hne, (ti_execute (si_tx Hinv i st Hst) t). Qed.

Lemma si_no_abort s roles failed i st t :
  sinv s roles failed -> st_at s i = Some st -> st <> Aborting ->
  ~ has_role roles t (RAbort i).
Proof. intros Hinv Hst Hne Ht. by apply Hne, (ti_abort (si_tx Hinv i st Hst) t). Qed.

(** A ready transaction becomes executing, and [execution_idx] moves past
    transactions that are not ready. *)
Lemma sinv_execute s roles failed t i tx e :
  sinv s roles failed -> roles !! t = Some None ->
  transactions_status s !! i = Some tx -> status tx = ReadyToExecute ->
  execution_idx s <= e <= S (block_size s) ->
  (forall j, execution_idx s <= j < e -> st_at s j = Some ReadyToExecute -> j = i) ->
  sinv (with_execution_idx e
          (with_status (<[i := with_tx_status tx Executing]> (transactions_status s)) s))
       (<[t := Some (RExecute i)]> roles) failed.
Proof.
  intros Hinv Ht Htx Htst He Hskip.
  assert (st_at s i = Some ReadyToExecute) as Hi by (apply st_at_Some; eauto).
  assert (i < block_size s) as Hlt by (eapply st_at_lt; [apply Hinv|done]).
  pose proof (validated_count_insert s i tx (with_tx_status tx Executing) Htx) as Hcount.
  rewrite Htst in Hcount. simpl in Hcount.
  pose proof (si_tx Hinv i _ Hi) as Htxi.
  set (s1 := with_status _ s) in *. set (s' := with_execution_idx e s1).
  assert (forall j, st_at s' j = if bool_decide (i = j) then Some Executing else st_at s j)
    as Hst by (apply (st_at_update s s' i (with_tx_status tx Executing));
               [done|by eapply lookup_lt_Some]).
  split; try apply Hinv; try (simpl; lia).
  - by apply (sized_same s); [apply Hinv|apply length_insert|..].
  - apply (si_roles_insert s roles failed t _ Hinv). by intros r [= <-].
  - apply (si_unique_insert s roles failed t _ Hinv). intros r t' [= <-] _ _.
    by eapply si_no_execute.
  - intros j b Hj. destruct (si_wait Hinv j b Hj) as [? Hb]. split; [done|].
    intros st. rewrite Hst. case_bool_decide; [by intros [= <-]|apply Hb].
  - simpl. rewrite (si_num_validated Hinv). unfold validated_count in *. simpl in *. lia.
  - intros j st. rewrite Hst. case_bool_decide as Hij.
    + intros [= <-]. subst j. assert (waits s i = 0) as Hw by by eapply tx_inv_not_waiting.
      split; try done.
      * intros _ _. exists t. apply has_role_insert. left. split_and!; [done| |done].
        by eapply lookup_lt_Some.
      * intros t' [(_ & _ & ?)|[_ Ht']]%has_role_insert; [done|].
        by destruct (si_no_abort s roles failed i _ t' Hinv Hi).
      * intros Hpos. change (waits s' i) with (waits s i) in Hpos. lia.
      * apply Htxi.
      * intros t' [(_ & _ & ?)|[_ Ht']]%has_role_insert; [done|].
        exact (ti_validate Htxi t' Ht').
    + intros Hj. eapply (si_tx_frame s s' roles failed t _ i); try done.
      * intros r Hr. congruence.
      * by intros r [= <-].
      * intros -> Hge. simpl. destruct (decide (j < e)); [|lia].
        destruct Hij. symmetry. apply Hskip; [lia|done].
      * auto.
Qed.

(** [execution_idx] moves past transactions that are not ready. *)
Lemma sinv_skip s roles failed e :
  sinv s roles failed -> execution_idx s <= e <= S (block_size s) ->
  (forall j, execution_idx s <= j < e -> st_at s j <> Some ReadyToExecute) ->
  sinv (with_execution_idx e s) roles failed.
Proof.
  intros Hinv He Hskip. split; try apply Hinv; try (simpl; lia).
  - by apply (sized_same s); [apply Hinv|..].
  - intros j st Hj. apply (tx_inv_frame s _ roles roles); auto; [by apply Hinv|].
    simpl. intros -> Hge. destruct (decide (j < e)); [|lia].
    by destruct (Hskip j); [lia|].
Qed.

(** The next transaction to validate is taken, or skipped when not executed. *)
Lemma sinv_validate s roles failed t x :
  sinv s roles failed -> roles !! t = Some None -> validation_idx s < block_size s ->
  (forall r, x = Some r -> r = RValidate (validation_idx s)) ->
  (x = None -> st_at s (validation_idx s) <> Some Executed) ->
  sinv (with_validation_idx (validation_idx s + 1) s) (<[t := x]> roles) failed.
Proof.
  intros Hinv Ht Hlt Hx Hnone. pose proof (si_validation_bound Hinv).
  split; try apply Hinv; try (simpl; lia).
  - by apply (sized_same s); [apply Hinv|..].
  - apply (si_roles_insert s roles failed t x Hinv). by intros r ->%Hx.
  - apply (si_unique_insert s roles failed t x Hinv). by intros r t' ->%Hx [].
  - intros j st Hj. destruct (decide (j = validation_idx s)) as [->|Hne].
    + pose proof (si_tx Hinv _ _ Hj) as Htx.
      assert (forall t' r, exclusive r ->
                has_role (<[t := x]> roles) t' r -> has_role roles t' r) as Hkeep.
      { intros t' r Hr [(-> & _ & ->%Hx)|[_ ?]]%has_role_insert; done. }
      assert (forall t' r, has_role roles t' r -> has_role (<[t := x]> roles) t' r) as Hkeep'.
      { intros t' r Hr. apply has_role_insert. right. split; [congruence|done]. }
      split; try apply Htx.
      * intros t' Ht'. by eapply (ti_execute Htx), Hkeep.
      * intros Hf Hst. destruct (ti_executing Htx Hf Hst) as [t' Ht']. eauto.
      * intros t' Ht'. eapply (ti_abort Htx), Hkeep; done.
      * intros Hf Hst. destruct (ti_aborting Htx Hf Hst) as [?|[t' Ht']]; eauto.
      * simpl. lia.
      * intros Hf Hm ->. right. exists t. apply has_role_insert. left.
        destruct x as [r|]; [|by destruct (Hnone eq_refl)].
        rewrite (Hx r) by done. split_and!; [done| |done]. by eapply lookup_lt_Some.
    + apply (si_tx_frame s _ roles failed t x (validation_idx s)); auto; try done.
      * intros r Hr. congruence.
      * by intros r ->%Hx.
      * simpl. intros Hf -> Hm Hp. destruct (Hp Hm) as [?|?]; [left; lia|by right].
Qed.

Definition role_of_iter (r : option (option Task)) : option role :=
  match r with Some (Some task) => Some (role_of_task task) | _ => None end.

(** When enough transactions are validated, all those past the minimum are. *)
Lemma sinv_all_validated s roles failed :
  sinv s roles failed -> block_size s - min_validation_idx s <= validated_count s ->
  forall i, min_validation_idx s <= i < block_size s -> st_at s i = Some Validated.
Proof.
  intros Hinv Hc i Hi. destruct (sized_lookup s i (si_sized Hinv)) as [tx Htx]; [lia|].
  apply st_at_Some. exists tx. split; [done|].
  pose proof (count_if_saturated (fun tx => bool_decide (status tx = Validated))
    (transactions_status s) (min_validation_idx s)) as Hsat.
  apply (bool_decide_eq_true_1 _), (Hsat) with i; clear Hsat;
    [|by rewrite (sized_status _ (si_sized Hinv))|done|lia].
  intros j y Hj Hy%bool_decide_eq_true.
  eapply ti_validated; [eapply si_tx, st_at_Some; eauto|done].
Qed.

(** The exit test of [next_task] counts the validated transactions. *)
Lemma exit_test_correct s roles failed :
  sinv s roles failed ->
  (usize_sub (Z.of_nat (block_size s)) (Z.of_nat (min_validation_idx s))
     <=? num_validated s)%Z = true <->
  block_size s - min_validation_idx s <= validated_count s.
Proof.
  intros Hinv. pose proof (sized_min _ (si_sized Hinv)). pose proof (si_small Hinv).
  rewrite (si_num_validated Hinv), Z.leb_le. unfold usize_sub.
  rewrite wrap_small by (split; lia). lia.
Qed.

(** A task to execute is a new incarnation of its transaction. *)
Definition new_incarnation (s s' : Scheduler) (v : TxVersion) : Prop :=
  transactions_status s' !! tx_idx v =
    Some {| incarnation := tx_incarnation v; status := Executing |} /\
  exists tx, transactions_status s !! tx_idx v = Some tx /\
    (status tx = ReadyToExecute /\ incarnation tx = tx_incarnation v \/
     incarnation tx < tx_incarnation v).

(** An execution task is taken from [execution_idx] on. *)
Lemma sinv_next_execution s roles failed t :
  sinv s roles failed -> roles !! t = Some None -> execution_idx s < block_size s ->
  exists r s',
    try_execute (execution_idx s) (with_execution_idx (execution_idx s + 1) s) = Val (r, s') /\
    sinv s' (<[t := RExecute ∘ tx_idx <$> r]> roles) failed /\
    execution_idx s < execution_idx s' /\ validation_idx s' = validation_idx s /\
    (forall v, r = Some v -> new_incarnation s s' v).
Proof.
  intros Hinv Ht Hlt. set (s1 := with_execution_idx _ s).
  assert (sized s1) as Hs1 by by apply (sized_same s); [apply Hinv|..].
  destruct (try_execute_loop_run (S (block_size s1 - execution_idx s1)) (execution_idx s) s1)
    as (r & e & He & Hskip & Htake & Hr); [done|simpl; lia|].
  change (st_at s1) with (st_at s) in *. simpl in He, Hskip.
  assert (execution_idx s <= e <= S (block_size s)) by lia.
  assert (forall j, execution_idx s <= j < e -> st_at s j = Some ReadyToExecute ->
            exists v, r = Some v /\ tx_idx v = j) as Hall.
  { intros j Hj Hrj. destruct (decide (j = execution_idx s)) as [->|]; [auto|].
    apply Hskip; [lia|done]. }
  destruct r as [v|].
  - destruct Hr as (tx & Htx & Hst & Hinc & Hrun). eexists _, _. split; [exact Hrun|].
    split; [|split_and!; [simpl; lia|done|]].
    + apply (sinv_execute s roles failed t (tx_idx v) tx e); try done.
      intros j Hj Hrj. destruct (Hall j Hj Hrj) as (v' & ? & ?). by simplify_eq.
    + intros ? [= <-]. split; [|by exists tx; eauto]. simpl.
      rewrite list_lookup_insert_eq by (by eapply lookup_lt_Some). by rewrite Hinc.
  - destruct Hr as [_ Hrun]. eexists _, _. split; [exact Hrun|].
    split; [|split_and!; [simpl; lia|done|done]]. simpl. rewrite list_insert_id by done.
    apply (sinv_skip s); try done.
    intros j Hj Hrj. by destruct (Hall j Hj Hrj) as (v' & ? & ?).
Qed.

(** One iteration of [next_task]: the loop ends only when every transaction
    past the minimum is validated; it goes on only when it waits for other
    workers or has moved a counter. *)
Lemma next_task_iter_sinv s roles failed t :
  sinv s roles failed -> roles !! t = Some None ->
  exists r s',
    next_task_iter s = Val (r, s') /\
    sinv s' (<[t := role_of_iter r]> roles) failed /\
    (r = Some None ->
       s' = s /\ block_size s <= execution_idx s /\ block_size s <= validation_idx s /\
       (forall i, min_validation_idx s <= i < block_size s -> st_at s i = Some Validated)) /\
    (r = None ->
       s' = s /\ block_size s <= execution_idx s /\ block_size s <= validation_idx s /\
         ~ block_size s - min_validation_idx s <= validated_count s \/
       execution_idx s + validation_idx s < execution_idx s' + validation_idx s') /\
    (forall v, r = Some (Some (ExecutionTask v)) -> new_incarnation s s' v).
Proof.
  intros Hinv Ht. pose proof (si_sized Hinv) as Hs. pose proof (si_validation_bound Hinv).
  assert (sinv s (<[t := None]> roles) failed) as Hsame by by rewrite list_insert_id.
  unfold next_task_iter. st_run.
  destruct ((block_size s <=? execution_idx s) && (block_size s <=? validation_idx s))
    eqn:Hend.
  - bool_to_prop.
    destruct (usize_sub _ _ <=? _)%Z eqn:Hexit; [|apply not_true_iff_false in Hexit];
      rewrite (exit_test_correct s roles failed) in Hexit by done;
      eexists _, _; (split; [done|]); (split; [done|]).
    + split; [|done]. intros _. split_and!; try done. by eapply sinv_all_validated.
    + split; [done|]. split; [|done]. intros _. by left.
  - apply andb_false_iff in Hend.
    destruct (validation_idx s <? execution_idx s) eqn:Hval; bool_to_prop.
    + assert (validation_idx s < block_size s) by (destruct Hend; bool_to_prop; lia).
      destruct (try_validate_run s Hs) as (r & Hrun & Hr). rewrite Hrun.
      destruct r as [v|]; eexists _, _; (split; [done|]); simpl.
      * destruct Hr as (Hidx & _). split; [|done].
        apply sinv_validate; try done. intros r [= <-]. by rewrite Hidx.
      * split; [|split; [done|split; [right; lia|done]]].
        apply sinv_validate; try done. intros _ (tx & Htx & Hst)%st_at_Some.
        specialize (Hr tx Htx). by rewrite Hst in Hr.
    + assert (execution_idx s < block_size s) as Hlt by (destruct Hend; bool_to_prop; lia).
      destruct (sinv_next_execution s roles failed t Hinv Ht Hlt)
        as (r & s' & Hrun & Hinv' & Hmove & Hsamev & Hnew). rewrite Hrun.
      destruct r as [v|]; eexists _, _; (split; [done|]); simpl in *; split; try done.
      * split_and!; [done..|]. intros ? [= <-]. by apply Hnew.
      * split; [done|split; [right; lia|done]].
Qed.

(** The parts of the invariant that a change of one status touches. *)
Lemma sinv_set_status s s' roles failed t x i tx tx' :
  sinv s roles failed ->
  transactions_status s !! i = Some tx ->
  transactions_status s' = <[i := tx']> (transactions_status s) ->
  transactions_dependents s' = transactions_dependents s ->
  transactions_dependencies_num s' = transactions_dependencies_num s ->
  block_size s' = block_size s ->
  min_validation_idx s' = min_validation_idx s ->
  execution_idx s' = execution_idx s ->
  min_validation_idx s <= validation_idx s' <= validation_idx s ->
  num_validated s' = Z.of_nat (validated_count s') ->
  (forall r, roles !! t = Some (Some r) -> role_idx r = i) ->
  (forall r, x = Some r -> role_idx r = i) ->
  (forall r t', x = Some r -> exclusive r -> t' <> t -> ~ has_role roles t' r) ->
  (is_done (status tx) = false -> is_done (status tx') = false) ->
  tx_inv s' (<[t := x]> roles) failed i (status tx') ->
  sinv s' (<[t := x]> roles) failed.
Proof.
  intros Hinv Htx Es Ed En Eb Em Ee Hv Hnum Hold Hnew Hex Hdone Htxi.
  assert (i < block_size s) as Hlt
    by (rewrite <-(sized_status _ (si_sized Hinv)); by eapply lookup_lt_Some).
  assert (forall j, st_at s' j = if bool_decide (i = j) then Some (status tx') else st_at s j)
    as Hst by (apply (st_at_update s s' i tx'); [done|by eapply lookup_lt_Some]).
  pose proof (dependents_of_eq s s' Ed) as Hdep. pose proof (waits_eq s s' Ed) as Hw.
  pose proof (si_validation_bound Hinv). pose proof (si_execution_bound Hinv).
  split; rewrite ?Eb, ?Ee, ?Em; try apply Hinv; try lia; try done.
  - apply (sized_same s); [apply Hinv|by rewrite Es, length_insert|by rewrite Ed|done|lia].
  - apply (si_roles_insert s roles failed t x Hinv). by intros r ->%Hnew.
  - by apply (si_unique_insert s roles failed t x Hinv).
  - intros j b. rewrite Hdep. intros Hj. destruct (si_wait Hinv j b Hj) as [? Hb].
    split; [done|]. intros st. rewrite Hst. case_bool_decide; [|apply Hb].
    intros [= <-]. subst b. apply Hdone, Hb, st_at_Some. eauto.
  - intros b. rewrite Hdep. apply Hinv.
  - intros j st. rewrite Hst. case_bool_decide as Hij; [by subst; intros [= <-]|].
    intros Hj. apply (si_tx_frame s s' roles failed t x i); try done; rewrite ?En, ?Em, ?Ee;
      auto.
    intros Hf Hs Hm Hp. destruct (Hp Hm) as [?|?]; [left; lia|by right].
Qed.

(** [try_validation_abort] by a worker that validates the transaction. *)
Lemma try_validation_abort_sinv s roles failed t v :
  sinv s roles failed -> has_role roles t (RValidate (tx_idx v)) ->
  exists aborted s',
    try_validation_abort v s = Val (aborted, s') /\
    sinv s' (<[t := Some (if aborted then RAbort (tx_idx v) else RValidate (tx_idx v))]> roles)
         failed /\
    (aborted = false -> s' = s).
Proof.
  intros Hinv Ht. set (i := tx_idx v) in *.
  pose proof (si_roles Hinv _ _ Ht) as Hi. simpl in Hi.
  destruct (sized_lookup s i (si_sized Hinv) Hi) as [tx Htx].
  assert (st_at s i = Some (status tx)) as Hsti by (apply st_at_Some; eauto).
  pose proof (si_tx Hinv _ _ Hsti) as Htxi.
  pose proof (validated_count_insert s i tx (with_tx_status tx Aborting) Htx) as Hcount.
  pose proof (validated_count_le s (si_sized Hinv)). pose proof (si_small Hinv).
  unfold try_validation_abort. st_run. fold i. st_index Htx.
  destruct (is_done (status tx)) eqn:Hdone.
  - set (s' := with_status (<[i := with_tx_status tx Aborting]> (transactions_status s))
      (if bool_decide (status tx = Validated)
       then with_num_validated (usize_sub (num_validated s) 1) s else s)).
    exists true, s'. split; [by unfold s'; case_bool_decide|]. split; [|done].
    assert (status tx <> Aborting) as Hna by (intros E; by rewrite E in Hdone).
    apply (sinv_set_status s s' roles failed t _ i tx (with_tx_status tx Aborting));
      try done; try (by unfold s'; case_bool_decide).
    + pose proof (si_validation_bound Hinv). unfold s'; case_bool_decide; simpl; lia.
    + assert (num_validated s' = Z.of_nat (validated_count
        (with_status (<[i := with_tx_status tx Aborting]> (transactions_status s)) s)))
        as Hnum; [|by unfold s'; case_bool_decide].
      unfold s'. repeat case_bool_decide; try done; simpl; rewrite (si_num_validated Hinv).
      * unfold usize_sub. rewrite wrap_small; [lia|split; lia].
      * lia.
    + intros r. rewrite Ht. by intros [= <-].
    + by intros r [= <-].
    + intros r t' [= <-] _ _. by eapply si_no_abort.
    + assert (waits s' i = 0) as Hw.
      { transitivity (waits s i); [by unfold s'; case_bool_decide|].
        by eapply tx_inv_not_waiting. }
      assert (min_validation_idx s' <= i) as Hm.
      { unfold s'. case_bool_decide; exact (ti_validate Htxi t Ht). }
      assert (t < length roles) as Htl by by eapply lookup_lt_Some.
      split; rewrite ?Hw; try done; try lia.
      * intros t' [(_ & _ & ?)|[_ Ht']]%has_role_insert; [done|].
        rewrite (ti_execute Htxi t' Ht') in Hdone. done.
      * intros _ _. right. exists t. by rewrite list_lookup_insert_eq.
      * pose proof (ti_deps Htxi) as Hd.
        rewrite (tx_inv_not_waiting _ _ _ _ _ Htxi Hna) in Hd.
        unfold s'. case_bool_decide; simpl; destruct (_ !! i); auto; lia.
  - exists false, s. split_and!; [by destruct (status tx)| |done].
    by rewrite list_insert_id.
Qed.

(** [finish_validation] without an abort. *)
Lemma finish_validation_ok_sinv s roles failed t v :
  sinv s roles failed -> has_role roles t (RValidate (tx_idx v)) ->
  exists s', finish_validation v false s = Val (None, s') /\
             sinv s' (<[t := None]> roles) failed.
Proof.
  intros Hinv Ht. set (i := tx_idx v) in *.
  pose proof (si_roles Hinv _ _ Ht) as Hi. simpl in Hi.
  destruct (sized_lookup s i (si_sized Hinv) Hi) as [tx Htx].
  assert (st_at s i = Some (status tx)) as Hsti by (apply st_at_Some; eauto).
  pose proof (si_tx Hinv _ _ Hsti) as Htxi.
  pose proof (validated_count_insert s i tx (with_tx_status tx Validated) Htx) as Hcount.
  pose proof (si_small Hinv). pose proof (si_validation_bound Hinv).
  assert (forall t' r, has_role (<[t := None]> roles) t' r -> has_role roles t' r) as Hkeep.
  { by intros t' r [(_ & _ & ?)|[_ ?]]%has_role_insert. }
  unfold finish_validation. st_run. fold i. st_index Htx.
  destruct (decide (status tx = Executed)) as [Hex|Hex];
    [rewrite (bool_decide_true (status tx = Executed)) by done
    |rewrite (bool_decide_false (status tx = Executed)) by done].
  - eexists. split; [done|].
    set (s1 := with_status _ s) in *. set (s' := with_num_validated _ s1).
    rewrite bool_decide_false, bool_decide_true in Hcount by (done || congruence).
    apply (sinv_set_status s s' roles failed t None i tx (with_tx_status tx Validated));
      try done.
    + change (validation_idx s') with (validation_idx s). lia.
    + assert (validated_count s1 <= block_size s).
      { apply (validated_count_le s1).
        by apply (sized_same s); [apply Hinv|apply length_insert|..]. }
      change (validated_count s') with (validated_count s1).
      change (num_validated s') with (usize_add (num_validated s) 1). unfold usize_add.
      rewrite (si_num_validated Hinv), wrap_small; [lia|split; lia].
    + intros r. rewrite Ht. by intros [= <-].
    + by rewrite Hex.
    + assert (waits s' i = 0) as Hw
        by (change (waits s i = 0); eapply tx_inv_not_waiting; [exact Htxi|by rewrite Hex]).
      split; rewrite ?Hw; try done; try lia.
      * intros t' Ht'%Hkeep. apply (ti_execute Htxi) in Ht'. congruence.
      * intros t' Ht'%Hkeep. apply (ti_abort Htxi) in Ht' as [? _]. congruence.
      * pose proof (ti_deps Htxi) as Hd. change (waits s i) with (waits s' i) in Hd.
        by rewrite Hw in Hd.
      * intros _. exact (ti_validate Htxi t Ht).
      * intros t' Ht'%Hkeep. exact (ti_validate Htxi t' Ht').
  - eexists. split; [done|].
    apply (sinv_set_status s s roles failed t None i tx tx); try done.
    + by rewrite list_insert_id.
    + lia.
    + apply Hinv.
    + intros r. rewrite Ht. by intros [= <-].
    + split; try apply Htxi; try done.
      * intros t' Ht'%Hkeep. by eapply (ti_execute Htxi).
      * intros Hf Hst. destruct (ti_executing Htxi Hf Hst) as [t' Ht']. exists t'.
        apply has_role_insert. right. split; [congruence|done].
      * intros t' Ht'%Hkeep. by eapply (ti_abort Htxi).
      * intros Hf Hst. destruct (ti_aborting Htxi Hf Hst) as [?|[t' Ht']]; [by left|right].
        exists t'. apply has_role_insert. right. split; [congruence|done].
      * intros t' Ht'%Hkeep. by eapply (ti_validate Htxi).
Qed.

(** An aborted transaction restarts: it is ready again at or after
    [execution_idx], or the worker executes it itself. *)
Lemma sinv_restart s roles failed t i tx tx' x :
  sinv s roles failed -> has_role roles t (RAbort i) ->
  transactions_status s !! i = Some tx ->
  (status tx' = ReadyToExecute /\ execution_idx s <= i /\ x = None \/
   status tx' = Executing /\ x = Some (RExecute i)) ->
  sinv (with_validation_idx (Nat.min (validation_idx s) (i + 1))
          (with_status (<[i := tx']> (transactions_status s)) s))
       (<[t := x]> roles) failed.
Proof.
  intros Hinv Ht Htx Hx.
  assert (st_at s i = Some (status tx)) as Hsti by (apply st_at_Some; eauto).
  pose proof (si_tx Hinv _ _ Hsti) as Htxi.
  destruct (ti_abort Htxi t Ht) as (Hst & Hw & Hm).
  pose proof (si_validation_bound Hinv).
  pose proof (validated_count_insert s i tx tx' Htx) as Hcount.
  rewrite Hst in Hcount. simpl in Hcount.
  set (s1 := with_status _ s) in *. set (s' := with_validation_idx _ s1).
  assert (x = None \/ x = Some (RExecute i)) as Hx' by naive_solver.
  assert (status tx' = ReadyToExecute \/ status tx' = Executing) as Hst' by naive_solver.
  assert (forall t' r, role_idx r = i -> r <> RExecute i ->
    has_role (<[t := x]> roles) t' r -> has_role roles t' r) as Hkeep.
  { intros t' r _ Hne [(_ & _ & ->)|[_ ?]]%has_role_insert; naive_solver. }
  apply (sinv_set_status s s' roles failed t x i tx tx'); try done.
  - simpl. lia.
  - change (validated_count s') with (validated_count s1).
    change (num_validated s') with (num_validated s). rewrite (si_num_validated Hinv).
    rewrite (bool_decide_false (status tx' = Validated)) in Hcount
      by (destruct Hst'; congruence). lia.
  - intros r. rewrite Ht. by intros [= <-].
  - intros r ->. naive_solver.
  - intros r t' -> Hex Hne Ht'. destruct Hx' as [|[= ->]]; [done|].
    apply (ti_execute Htxi) in Ht'. congruence.
  - intros _. by destruct Hst' as [-> | ->].
  - change (waits s i) with (waits s' i) in Hw. split; rewrite ?Hw; try lia.
    + intros t' [(-> & _ & Hr)|[_ Ht']]%has_role_insert.
      * destruct Hx as [(_ & _ & ?)|[? _]]; congruence.
      * apply (ti_execute Htxi) in Ht'. congruence.
    + intros _ Hex. exists t. apply has_role_insert. left.
      split_and!; [done|by eapply lookup_lt_Some|].
      destruct Hx as [(? & _ & _)|[_ ?]]; congruence.
    + intros t' Ht'. assert (t' <> t) as Hne.
      { intros ->. apply has_role_insert in Ht' as [(_ & _ & ?)|[? _]]; [|done].
        destruct Hx'; congruence. }
      apply Hkeep in Ht'; [|done..]. destruct Hne.
      by eapply (si_unique Hinv _ _ (RAbort i)).
    + intros _ Ha. destruct Hst'; congruence.
    + pose proof (ti_deps Htxi) as Hd. change (waits s i) with (waits s' i) in Hd.
      by rewrite Hw in Hd.
    + intros Hr. simpl. destruct Hx as [(_ & ? & _)|[Hs' _]]; [done|congruence].
    + intros Hr. destruct Hst'; congruence.
    + intros t' Ht'%Hkeep; [|done..]. exact (ti_validate Htxi t' Ht').
    + intros _ _ Hr. destruct Hst'; congruence.
Qed.

(** [finish_validation] after an abort. *)
Lemma finish_validation_abort_sinv s roles failed t v :
  sinv s roles failed -> has_role roles t (RAbort (tx_idx v)) ->
  exists r s', finish_validation v true s = Val (r, s') /\
               sinv s' (<[t := role_of_task <$> r]> roles) failed /\
               (r = None \/ exists inc, r = Some (ExecutionTask
                  {| tx_idx := tx_idx v; tx_incarnation := inc |})) /\
               (forall v', r = Some (ExecutionTask v') -> new_incarnation s s' v').
Proof.
  intros Hinv Ht. set (i := tx_idx v) in *.
  pose proof (si_roles Hinv _ _ Ht) as Hi. simpl in Hi.
  destruct (sized_lookup s i (si_sized Hinv) Hi) as [tx Htx].
  assert (st_at s i = Some (status tx)) as Hsti by (apply st_at_Some; eauto).
  pose proof (si_tx Hinv _ _ Hsti) as Htxi.
  destruct (ti_abort Htxi t Ht) as (Hst & Hw & Hm).
  unfold finish_validation. st_run. fold i.
  rewrite (set_ready_status_run i tx) by done. repeat progress simpl.
  destruct (i <? execution_idx s) eqn:Hlt; bool_to_prop.
  - unfold try_execute. erewrite try_execute_loop_S; [|done|].
    2: { simpl. rewrite list_lookup_insert_eq; [done|]. by eapply lookup_lt_Some. }
    rewrite bool_decide_true by done. simpl. eexists _, _. split; [done|].
    split; [|split; [right; eauto|]].
    2: { intros v' [= <-]. split; simpl.
         - rewrite list_insert_insert_eq. rewrite list_lookup_insert_eq; [done|].
           by eapply lookup_lt_Some.
         - exists tx. split; [done|right; lia]. }
    pose proof (sinv_restart s roles failed t i tx
      (with_tx_status (resumed_status tx) Executing) (Some (RExecute i)) Hinv Ht Htx
      (or_intror (conj eq_refl eq_refl))) as Hres.
    match type of Hres with sinv ?a _ _ => match goal with |- sinv ?b _ _ =>
      replace b with a; [exact Hres|] end end.
    unfold with_validation_idx, with_status. simpl. f_equal. by rewrite list_insert_insert_eq.
  - eexists _, _. split; [done|]. split; [|split; [by left|done]].
    apply (sinv_restart s roles failed t i tx); try done. left. split_and!; [done|lia|done].
Qed.
(** The state after [i] has been suspended in the list of [b]. *)
Definition suspended (s : Scheduler) (i b : TxIdx) (tx : TxStatus) : Scheduler :=
  let s1 := with_status (<[i := with_tx_status tx Aborting]> (transactions_status s)) s in
  let s2 := with_dependents
              (<[b := dependents_of s b ++ [i]]> (transactions_dependents s)) s1 in
  match transactions_dependencies_num s !! i with
  | Some d => with_dependencies_num
                (<[i := usize_add d 1]> (transactions_dependencies_num s)) s2
  | None => s2
  end.

Lemma suspended_waits s i b tx j :
  sized s -> b < block_size s -> waits s i = 0 ->
  waits (suspended s i b tx) j = if bool_decide (j = i) then 1 else waits s j.
Proof.
  intros Hs Hb Hw.
  pose proof (waits_insert s b (dependents_of s b ++ [i]) j Hs Hb) as Hj.
  assert (waits (suspended s i b tx) j = waits (with_dependents
    (<[b := dependents_of s b ++ [i]]> (transactions_dependents s)) s) j) as ->
    by by unfold suspended; destruct (transactions_dependencies_num s !! i).
  destruct (decide (j = i)) as [->|Hne].
  - rewrite (bool_decide_true (i = i)), Hw in * by done.
    assert (i ∉ dependents_of s b) as Hni.
    { intros Hi. assert (0 < waits s i) by (apply waits_pos; eauto). lia. }
    rewrite (bool_decide_false (i ∈ dependents_of s b)) in Hj by done.
    rewrite bool_decide_true in Hj by set_solver. lia.
  - rewrite (bool_decide_false (j = i)) by done.
    rewrite (bool_decide_ext (j ∈ dependents_of s b ++ [i]) (j ∈ dependents_of s b)) in Hj
      by set_solver. lia.
Qed.

Lemma suspended_dependents s i b tx b' :
  sized s -> b < block_size s ->
  dependents_of (suspended s i b tx) b' =
  if bool_decide (b = b') then dependents_of s b ++ [i] else dependents_of s b'.
Proof.
  intros Hs Hb. rewrite <-(dependents_of_insert s b (dependents_of s b ++ [i]) b').
  - unfold suspended. by destruct (transactions_dependencies_num s !! i).
  - by rewrite sized_dependents.
Qed.

Lemma suspended_deps s i b tx j :
  transactions_dependencies_num (suspended s i b tx) !! j =
  if bool_decide (j = i) then (fun d => usize_add d 1) <$> transactions_dependencies_num s !! j
  else transactions_dependencies_num s !! j.
Proof.
  unfold suspended. case_bool_decide as Hj.
  - subst j. destruct (transactions_dependencies_num s !! i) eqn:Hd; simpl; [|done].
    by rewrite lookup_insert_eq.
  - destruct (transactions_dependencies_num s !! i); simpl; [|done].
    by rewrite lookup_insert_ne.
Qed.

Lemma sinv_suspend s roles failed t i b tx st :
  sinv s roles failed -> has_role roles t (RExecute i) ->
  transactions_status s !! i = Some tx -> b < i ->
  st_at s b = Some st -> is_done st = false ->
  sinv (suspended s i b tx) (<[t := None]> roles) failed.
Proof.
  intros Hinv Ht Htx Hb Hstb Hbd. pose proof (si_sized Hinv) as Hs.
  pose proof (si_roles Hinv _ _ Ht) as Hi. simpl in Hi.
  assert (st_at s i = Some (status tx)) as Hsti by (apply st_at_Some; eauto).
  pose proof (si_tx Hinv _ _ Hsti) as Htxi.
  pose proof (ti_execute Htxi t Ht) as Hex.
  assert (waits s i = 0) as Hw by (eapply tx_inv_not_waiting; [done|congruence]).
  pose proof (validated_count_insert s i tx (with_tx_status tx Aborting) Htx) as Hcount.
  rewrite Hex in Hcount. simpl in Hcount.
  pose proof (fun j => suspended_waits s i b tx j Hs ltac:(lia) Hw) as Hwaits.
  pose proof (fun j => suspended_dependents s i b tx j Hs ltac:(lia)) as Hdep.
  pose proof (suspended_deps s i b tx) as Hnum.
  assert (forall j, st_at (suspended s i b tx) j =
    if bool_decide (i = j) then Some Aborting else st_at s j) as Hst.
  { apply (st_at_update s _ i (with_tx_status tx Aborting)); [|by eapply lookup_lt_Some].
    unfold suspended. by destruct (transactions_dependencies_num s !! i). }
  assert (length (transactions_status (suspended s i b tx)) = length (transactions_status s) /\
          length (transactions_dependents (suspended s i b tx)) =
          length (transactions_dependents s)) as [Hl1 Hl2].
  { unfold suspended. destruct (transactions_dependencies_num s !! i); simpl; by rewrite !length_insert. }
  assert (block_size (suspended s i b tx) = block_size s /\
          min_validation_idx (suspended s i b tx) = min_validation_idx s /\
          validation_idx (suspended s i b tx) = validation_idx s /\
          execution_idx (suspended s i b tx) = execution_idx s /\
          num_validated (suspended s i b tx) = num_validated s /\
          validated_count (suspended s i b tx) = validated_count s)
    as (Eb & Em & Ev & Ee & En & Ec).
  { unfold suspended. destruct (transactions_dependencies_num s !! i); simpl; split_and!; try done;
      unfold validated_count in *; simpl in *; lia. }
  assert (forall t' r, has_role (<[t := None]> roles) t' r -> has_role roles t' r) as Hkeep.
  { by intros t' r [(_ & _ & ?)|[_ ?]]%has_role_insert. }
  generalize dependent (suspended s i b tx).
  intros s' Hwaits Hdep Hnum Hst Hl1 Hl2 Eb Em Ev Ee En Ec.
  split; rewrite ?Eb, ?Em, ?Ev, ?Ee, ?En, ?Ec; try apply Hinv.
  - by apply (sized_same s); [| | | |rewrite Em].
  - apply (si_roles_insert s roles failed t _ Hinv). done.
  - apply (si_unique_insert s roles failed t _ Hinv). done.
  - intros j b' Hj. rewrite Hdep in Hj. rewrite Hst. case_bool_decide.
    + subst b'. case_bool_decide; [lia|]. apply elem_of_app in Hj as [Hj|Hj].
      * by apply (si_wait Hinv).
      * apply list_elem_of_singleton in Hj as ->. split; [lia|]. intros st' ?. by simplify_eq.
    + destruct (si_wait Hinv j b' Hj) as [? Hb']. split; [done|].
      case_bool_decide; [by intros ? [= <-]|done].
  - intros b'. rewrite Hdep. case_bool_decide; [|apply Hinv].
    apply NoDup_app. split_and!; [apply Hinv| |apply NoDup_singleton].
    intros j Hj ->%list_elem_of_singleton.
    assert (0 < waits s i) by (apply waits_pos; eauto). lia.
  - intros j st'. rewrite Hst. case_bool_decide as Hij.
    + intros [= <-]. subst j. specialize (Hwaits i). rewrite bool_decide_true in Hwaits by done.
      specialize (Hnum i). rewrite bool_decide_true in Hnum by done.
      split; rewrite ?Hwaits, ?Hnum; try done; try lia.
      * intros t' [(_ & _ & ?)|[Hne Ht']]%has_role_insert; [done|].
        destruct Hne. by eapply (si_unique Hinv _ _ (RExecute i)).
      * intros t' Ht'%Hkeep. apply (ti_abort Htxi) in Ht' as [? _]. congruence.
      * pose proof (ti_deps Htxi) as Hd. rewrite Hw in Hd.
        destruct (transactions_dependencies_num s !! i); simpl; [by subst|lia].
      * rewrite Em. intros t' Ht'%Hkeep. exact (ti_validate Htxi t' Ht').
    + intros Hj. specialize (Hwaits j). specialize (Hnum j).
      rewrite bool_decide_false in Hwaits, Hnum by congruence.
      apply (si_tx_frame s s' roles failed t None i); rewrite ?Em, ?Ev, ?Ee; auto; [|done].
      intros r. rewrite Ht. by intros [= <-].
Qed.

(** [add_dependency] by a worker that executes the transaction, blocked by a
    lower one. *)
Lemma add_dependency_sinv s roles failed t i b :
  sinv s roles failed -> has_role roles t (RExecute i) -> b < i ->
  exists r s',
    add_dependency i b s = Val (r, s') /\
    sinv s' (<[t := if r then None else Some (RExecute i)]> roles) failed /\
    (r = true -> st_at s' i = Some Aborting) /\
    (r = false -> s' = s /\ exists st, st_at s b = Some st /\ is_done st = true).
Proof.
  intros Hinv Ht Hb. pose proof (si_sized Hinv) as Hs.
  pose proof (si_roles Hinv _ _ Ht) as Hi. simpl in Hi.
  destruct (sized_lookup s i Hs Hi) as [tx Htx].
  destruct (sized_lookup s b Hs ltac:(lia)) as [txb Htxb].
  pose proof (sized_lookup_dependents s b Hs ltac:(lia)) as Hl.
  assert (st_at s i = Some (status tx)) as Hsti by (apply st_at_Some; eauto).
  assert (st_at s b = Some (status txb)) as Hstb by (apply st_at_Some; eauto).
  pose proof (ti_execute (si_tx Hinv _ _ Hsti) t Ht) as Hex.
  unfold add_dependency. st_run. st_index Htxb.
  destruct (is_done (status txb)) eqn:Hd.
  - exists false, s. split_and!; [done| |done|eauto]. by rewrite list_insert_id.
  - replace (i =? b) with false by (symmetry; apply Nat.eqb_neq; lia).
    st_index Htx. rewrite (bool_decide_true _ Hex). st_index Hl.
    exists true, (suspended s i b tx). split_and!; [| | |done].
    + unfold suspended. by destruct (transactions_dependencies_num s !! i).
    + by eapply sinv_suspend.
    + intros _. apply st_at_Some. exists (with_tx_status tx Aborting). split; [|done].
      unfold suspended. destruct (transactions_dependencies_num s !! i); simpl;
        (rewrite list_lookup_insert_eq; [done|by eapply lookup_lt_Some]).
Qed.
(** The state after [i] is executed and its dependents are resumed. *)
Definition executed (s : Scheduler) (i : TxIdx) (tx : TxStatus) : Scheduler :=
  let s1 := with_status (<[i := with_tx_status tx Executed]> (transactions_status s)) s in
  let s2 := resumed_state (dependents_of s i) s1 in
  let s3 := with_dependents (<[i := []]> (transactions_dependents s)) s2 in
  match min_resumed (transactions_dependencies_num s) (dependents_of s i) None with
  | Some m => with_execution_idx (Nat.min (execution_idx s) m) s3
  | None => s3
  end.

(** The dependents that are resumed. *)
Definition resumed (s : Scheduler) (i j : TxIdx) : Prop :=
  j ∈ dependents_of s i /\ resumes (transactions_dependencies_num s) j.

#[local] Instance resumed_dec s i j : Decision (resumed s i j).
Proof. unfold resumed. apply _. Defined.

Lemma executed_st_at s roles failed i tx j :
  sinv s roles failed -> transactions_status s !! i = Some tx ->
  st_at (executed s i tx) j =
  if bool_decide (i = j) then Some Executed
  else if bool_decide (resumed s i j) then Some ReadyToExecute else st_at s j.
Proof.
  intros Hinv Htx.
  assert (st_at (executed s i tx) j = st_at (resumed_state (dependents_of s i)
    (with_status (<[i := with_tx_status tx Executed]> (transactions_status s)) s)) j) as ->
    by by unfold executed; destruct (min_resumed _ _ _).
  unfold st_at. rewrite resumed_state_status. simpl.
  rewrite (bool_decide_ext _ (resumed s i j)) by done.
  destruct (decide (i = j)) as [Hij|Hij];
    [rewrite (bool_decide_true (i = j)) by done|rewrite (bool_decide_false (i = j)) by done].
  - subst j. rewrite list_lookup_insert_eq by (by eapply lookup_lt_Some). simpl.
    rewrite bool_decide_false; [done|]. intros [Hi _].
    apply (si_wait Hinv) in Hi as [? _]. lia.
  - rewrite list_lookup_insert_ne by done. case_bool_decide as Hr; [|by destruct (_ !! j)].
    destruct (transactions_status s !! j) eqn:Hj; [done|].
    destruct Hr as [Hr _]. apply (si_wait Hinv) in Hr as [? _].
    apply lookup_ge_None in Hj. rewrite (sized_status _ (si_sized Hinv)) in Hj. lia.
Qed.

Lemma executed_dependents s roles failed i tx b :
  sinv s roles failed -> i < block_size s ->
  dependents_of (executed s i tx) b =
  if bool_decide (i = b) then [] else dependents_of s b.
Proof.
  intros Hinv Hi. rewrite <-(dependents_of_insert s i [] b).
  - unfold executed. by destruct (min_resumed _ _ _).
  - by rewrite (sized_dependents _ (si_sized Hinv)).
Qed.

Lemma executed_waits s roles failed i tx j :
  sinv s roles failed -> i < block_size s ->
  waits (executed s i tx) j + (if bool_decide (j ∈ dependents_of s i) then 1 else 0) =
  waits s j.
Proof.
  intros Hinv Hi. pose proof (waits_insert s i [] j (si_sized Hinv) Hi) as Hj.
  rewrite (bool_decide_false (j ∈ [])) in Hj by set_solver.
  assert (waits (executed s i tx) j =
          waits (with_dependents (<[i := []]> (transactions_dependents s)) s) j) as ->
    by by unfold executed; destruct (min_resumed _ _ _).
  lia.
Qed.

Lemma executed_deps s i tx j :
  transactions_dependencies_num (executed s i tx) !! j =
  (fun d => if bool_decide (j ∈ dependents_of s i) then usize_sub d 1 else d)
    <$> transactions_dependencies_num s !! j.
Proof.
  etransitivity; [|apply (resumed_state_deps (dependents_of s i) s j)].
  unfold executed. by destruct (min_resumed _ _ _).
Qed.

Lemma executed_execution_idx s i tx :
  execution_idx (executed s i tx) <= execution_idx s /\
  forall j, resumed s i j -> execution_idx (executed s i tx) <= j.
Proof.
  unfold executed.
  destruct (min_resumed _ _ _) as [m|] eqn:Hm; simpl; (split; [lia|]); intros j [Hj Hr].
  - apply min_resumed_le in Hm as (_ & Hm & _). specialize (Hm j Hj Hr). lia.
  - apply min_resumed_None in Hm as [_ Hm]. by destruct (Hm j Hj).
Qed.
(** A dependent of [i] is resumed exactly when it waits for nothing else. *)
Lemma resumed_waits s roles failed i tx j :
  sinv s roles failed -> i < block_size s -> j ∈ dependents_of s i ->
  resumed s i j <-> waits (executed s i tx) j = 0.
Proof.
  intros Hinv Hi Hj. pose proof (executed_waits s roles failed i tx j Hinv Hi) as Hw.
  rewrite bool_decide_true in Hw by done.
  destruct (si_wait Hinv j i Hj) as [Hlt _].
  destruct (sized_lookup s j (si_sized Hinv)) as [txj Htxj]; [lia|].
  assert (st_at s j = Some (status txj)) as Hst by (apply st_at_Some; eauto).
  pose proof (ti_deps (si_tx Hinv _ _ Hst)) as Hd. unfold resumed, resumes.
  destruct (transactions_dependencies_num s !! j); split; intros; try split; try tauto; lia.
Qed.

(** A transaction that waits for others or for a worker. *)
Lemma tx_inv_idle s roles failed j st :
  (forall t r, exclusive r -> role_idx r = j -> ~ has_role roles t r) ->
  (forall t, has_role roles t (RValidate j) -> min_validation_idx s <= j) ->
  st = Aborting /\ 0 < waits s j \/
    st = ReadyToExecute /\ waits s j = 0 /\ execution_idx s <= j ->
  match transactions_dependencies_num s !! j with
  | Some d => d = Z.of_nat (waits s j)
  | None => waits s j <= 1
  end ->
  tx_inv s roles failed j st.
Proof.
  intros Hex Hval Hst Hd. split; auto.
  - intros t Ht. by destruct (Hex t (RExecute j)).
  - intros _ ->. by destruct Hst as [[? _]|[? _]].
  - intros t Ht. by destruct (Hex t (RAbort j)).
  - intros _ ->. destruct Hst as [[_ ?]|[? _]]; [by left|done].
  - intros Hw. destruct Hst as [[? _]|(_ & ? & _)]; [done|lia].
  - intros ->. by destruct Hst as [[? _]|(_ & _ & ?)].
  - intros ->. by destruct Hst as [[? _]|[? _]].
  - intros _ _ ->. by destruct Hst as [[? _]|[? _]].
Qed.

(** The invariant of the transactions other than [i]. *)
Lemma executed_tx_inv s roles failed t x i tx j st :
  sinv s roles failed -> has_role roles t (RExecute i) ->
  (forall r, x = Some r -> role_idx r = i) -> j <> i ->
  st_at s j = Some st ->
  tx_inv (executed s i tx) (<[t := x]> roles) failed j
         (if bool_decide (resumed s i j) then ReadyToExecute else st).
Proof.
  intros Hinv Ht Hx Hij Hst. pose proof (si_roles Hinv _ _ Ht) as Hi. simpl in Hi.
  pose proof (executed_waits s roles failed i tx j Hinv Hi) as Hw.
  pose proof (executed_deps s i tx j) as Hdep.
  pose proof (executed_execution_idx s i tx) as [He1 He2]. specialize (He2 j).
  pose proof (si_tx Hinv _ _ Hst) as Htxj.
  assert (min_validation_idx (executed s i tx) = min_validation_idx s /\
          validation_idx (executed s i tx) = validation_idx s) as [Em Ev]
    by (unfold executed; by destruct (min_resumed _ _ _)).
  assert (forall r, roles !! t = Some (Some r) -> role_idx r = i) as Hold.
  { intros r. rewrite Ht. by intros [= <-]. }
  destruct (decide (j ∈ dependents_of s i)) as [Hj|Hj].
  - pose proof (resumed_waits s roles failed i tx j Hinv Hi Hj) as Hres.
    rewrite bool_decide_true in Hw, Hdep by done.
    assert (st = Aborting) as -> by (apply (ti_wait Htxj); lia).
    assert (forall t' r, role_idx r = j ->
      has_role (<[t := x]> roles) t' r -> has_role roles t' r) as Hr.
    { intros t' r <-. by apply (roles_frame roles t x i). }
    pose proof (ti_deps Htxj) as Hd. pose proof (waits_le s j (si_sized Hinv)).
    pose proof (si_small Hinv).
    apply tx_inv_idle.
    + intros t' r Hexc Hrj Ht'%Hr; [|done]. destruct r; simpl in Hrj; subst; [|done|].
      * by apply (ti_execute Htxj) in Ht'.
      * apply (ti_abort Htxj) in Ht' as (_ & ? & _). lia.
    + intros t' Ht'%Hr; [|done]. rewrite Em. by eapply (ti_validate Htxj).
    + case_bool_decide as Hres'; [right|left].
      * split_and!; [done|by apply Hres|auto].
      * split; [done|]. rewrite Hres in Hres'. lia.
    + rewrite Hdep. destruct (transactions_dependencies_num s !! j); simpl; [|lia].
      subst. unfold usize_sub. rewrite wrap_small; [lia|split; lia].
  - rewrite bool_decide_false in Hw, Hdep by done.
    rewrite bool_decide_false by (by intros [? _]).
    apply (si_tx_frame s _ roles failed t x i); rewrite ?Em, ?Ev; auto; try lia.
    rewrite Hdep. by destruct (transactions_dependencies_num s !! j).
Qed.

Lemma sinv_executed s roles failed t x i tx :
  sinv s roles failed -> has_role roles t (RExecute i) ->
  transactions_status s !! i = Some tx ->
  (forall r, x = Some r -> r = RValidate i /\ min_validation_idx s <= i) ->
  (min_validation_idx s <= i -> validation_idx s <= i \/ x = Some (RValidate i)) ->
  sinv (executed s i tx) (<[t := x]> roles) failed.
Proof.
  intros Hinv Ht Htx Hx Hpend. pose proof (si_roles Hinv _ _ Ht) as Hi. simpl in Hi.
  assert (st_at s i = Some (status tx)) as Hsti by (apply st_at_Some; eauto).
  pose proof (si_tx Hinv _ _ Hsti) as Htxi. pose proof (ti_execute Htxi t Ht) as Hex.
  pose proof (fun j => executed_st_at s roles failed i tx j Hinv Htx) as Hst.
  pose proof (fun b => executed_dependents s roles failed i tx b Hinv Hi) as Hdep.
  pose proof (executed_waits s roles failed i tx i Hinv Hi) as Hwi.
  pose proof (executed_deps s i tx i) as Hdi.
  assert (i ∉ dependents_of s i) as Hni.
  { intros Hin. apply (si_wait Hinv) in Hin as [? _]. lia. }
  rewrite bool_decide_false in Hwi, Hdi by done.
  pose proof (executed_execution_idx s i tx) as [He _].
  pose proof (fun j st => executed_tx_inv s roles failed t x i tx j st Hinv Ht) as Htxj.
  assert (block_size (executed s i tx) = block_size s /\
          min_validation_idx (executed s i tx) = min_validation_idx s /\
          validation_idx (executed s i tx) = validation_idx s /\
          num_validated (executed s i tx) = num_validated s /\
          length (transactions_status (executed s i tx)) = length (transactions_status s) /\
          length (transactions_dependents (executed s i tx)) =
          length (transactions_dependents s)) as (Eb & Em & Ev & En & El1 & El2).
  { unfold executed. destruct (min_resumed _ _ _); simpl;
      by rewrite length_imap, !length_insert. }
  generalize dependent (executed s i tx). intros s' Hst Hdep Hwi Hdi He Htxj Eb Em Ev En El1 El2.
  assert (forall j st, j ∈ dependents_of s i -> st_at s j = Some st -> st = Aborting) as Hda.
  { intros j st Hj Hstj. apply (ti_wait (si_tx Hinv _ _ Hstj)), waits_pos. eauto. }
  pose proof (si_execution_bound Hinv).
  split; rewrite ?Eb, ?Em, ?Ev, ?En; try apply Hinv; try lia.
  - by apply (sized_same s); [apply Hinv| | | |rewrite Em].
  - apply (si_roles_insert s roles failed t x Hinv). by intros r [-> _]%Hx.
  - apply (si_unique_insert s roles failed t x Hinv). by intros r t' [-> _]%Hx.
  - intros j b. rewrite Hdep. case_bool_decide; [set_solver|]. intros Hj.
    destruct (si_wait Hinv j b Hj) as [? Hb]. split; [done|]. intros st. rewrite Hst.
    rewrite (bool_decide_false (i = b)) by done. case_bool_decide; [by intros [= <-]|apply Hb].
  - intros b. rewrite Hdep. case_bool_decide; [constructor|apply Hinv].
  - rewrite (si_num_validated Hinv). f_equal. symmetry. apply validated_count_ext; [done|].
    intros j. rewrite Hst. case_bool_decide; [subst; rewrite Hsti, Hex; naive_solver|].
    case_bool_decide as Hr; [|done]. split; [done|]. intros Hv.
    by specialize (Hda j _ (proj1 Hr) Hv).
  - intros j st. rewrite Hst. case_bool_decide as Hij.
    + intros [= <-]. subst j. assert (waits s i = 0) as Hw
        by (eapply tx_inv_not_waiting; [done|congruence]).
      split; rewrite ?Em, ?Ev; try done; try lia.
      * intros t' [(_ & _ & Hr)|[Hne Ht']]%has_role_insert.
        -- by apply Hx in Hr as [? _].
        -- destruct Hne. by eapply (si_unique Hinv _ _ (RExecute i)).
      * intros t' [(_ & _ & Hr)|[_ Ht']]%has_role_insert.
        -- by apply Hx in Hr as [? _].
        -- apply (ti_abort Htxi) in Ht' as [? _]. congruence.
      * pose proof (ti_deps Htxi) as Hd. rewrite Hdi.
        destruct (transactions_dependencies_num s !! i); simpl; lia.
      * intros t' [(_ & _ & Hr)|[_ Ht']]%has_role_insert; [by apply Hx in Hr as [_ ?]|].
        by eapply (ti_validate Htxi).
      * intros _ Hm _. destruct (Hpend Hm) as [?| ->]; [by left|right]. exists t.
        apply has_role_insert. left. split_and!; [done|by eapply lookup_lt_Some|done].
    + intros Hj. assert (exists st0, st_at s j = Some st0 /\
        st = if bool_decide (resumed s i j) then ReadyToExecute else st0) as (st0 & Hj0 & ->).
      { revert Hj. case_bool_decide as Hr; [|naive_solver]. intros [= <-].
        destruct (si_wait Hinv j i (proj1 Hr)) as [? _].
        destruct (sized_lookup s j (si_sized Hinv)) as [txj Htj]; [lia|].
        exists (status txj). split; [|done]. apply st_at_Some. eauto. }
      apply Htxj; [by intros r [-> _]%Hx|congruence|done].
Qed.
Definition scheduled (m v : nat) (s : Scheduler) : Scheduler :=
  with_validation_idx v (with_min_validation_idx m s).

Lemma executed_scheduled m v s i tx :
  executed (scheduled m v s) i tx = scheduled m v (executed s i tx).
Proof.
  unfold executed. change (dependents_of (scheduled m v s) i) with (dependents_of s i).
  simpl. by destruct (min_resumed _ _ _).
Qed.

(** The validation counters are lowered. *)
Lemma sinv_lower s roles failed m v :
  sinv s roles failed -> m <= min_validation_idx s -> m <= v <= validation_idx s ->
  (forall j, m <= j -> st_at s j = Some Executed -> min_validation_idx s <= j \/ v <= j) ->
  sinv (scheduled m v s) roles failed.
Proof.
  intros Hinv Hm Hv Hj. pose proof (si_validation_bound Hinv).
  split; try apply Hinv; try (simpl; lia).
  - by apply (sized_same s); [apply Hinv|..].
  - intros j st Hst. apply (tx_inv_frame s _ roles roles); auto; [by apply Hinv|].
    simpl. intros _ -> Hmj Hp. destruct (Hj j Hmj Hst) as [Hmin|?]; [|by left].
    destruct (Hp Hmin); [left; lia|by right].
Qed.

(** What [finish_execution] schedules. *)
Lemma schedule_validation_run ver wrote nv s :
  exists r m v,
    schedule_validation ver wrote nv s = Val (r, scheduled m v s) /\
    m = match nv with
        | Some k => Nat.min (min_validation_idx s) k
        | None => min_validation_idx s
        end /\
    (r = None \/ r = Some (ValidationTask ver)) /\
    (if decide (block_size s <= m) then r = None /\ v = validation_idx s
     else if decide (tx_idx ver < m) then
       r = None /\ v = (if wrote then Nat.min (validation_idx s) m else validation_idx s)
     else if decide (tx_idx ver < validation_idx s) then
       r = Some (ValidationTask ver) /\
       v = (if wrote then Nat.min (validation_idx s) (tx_idx ver + 1) else validation_idx s)
     else r = None /\ v = validation_idx s).
Proof.
  set (m := match nv with Some k => _ | None => _ end).
  assert (forall s0, scheduled (min_validation_idx s0) (validation_idx s0) s0 = s0)
    as Hid by by intros [].
  assert (exists s0, s0 = scheduled m (validation_idx s) s /\
    schedule_validation ver wrote nv s = schedule_validation ver wrote None s0)
    as (s0 & -> & ->).
  { eexists. split; [done|]. unfold m. destruct nv; [done|]. by rewrite Hid. }
  unfold schedule_validation. st_run.
  destruct (m <? block_size s) eqn:E1, (tx_idx ver <? m) eqn:E2,
    (tx_idx ver <? validation_idx s) eqn:E3, wrote; simpl; rewrite ?E3; bool_to_prop; simpl;
    eexists _, m, _; (split; [reflexivity|]); (split; [done|]); (split; [auto|]);
    repeat case_decide; try lia; done.
Qed.
(** The first part of [finish_execution]. *)
Lemma finish_execution_run s roles failed t ver wrote nv :
  sinv s roles failed -> has_role roles t (RExecute (tx_idx ver)) ->
  exists tx, transactions_status s !! tx_idx ver = Some tx /\
    finish_execution ver wrote nv s =
    schedule_validation ver wrote nv (executed s (tx_idx ver) tx).
Proof.
  intros Hinv Ht. set (i := tx_idx ver) in *. pose proof (si_sized Hinv) as Hs.
  pose proof (si_roles Hinv _ _ Ht) as Hi. simpl in Hi.
  destruct (sized_lookup s i Hs Hi) as [tx Htx]. exists tx. split; [done|].
  pose proof (sized_lookup_dependents s i Hs Hi) as Hl.
  assert (st_at s i = Some (status tx)) as Hsti by (apply st_at_Some; eauto).
  pose proof (ti_execute (si_tx Hinv _ _ Hsti) t Ht) as Hex.
  unfold finish_execution. st_run. fold i. st_index Htx. rewrite (bool_decide_true _ Hex).
  st_index Hl. rewrite resume_dependents_run.
  - unfold executed. simpl. by destruct (min_resumed _ _ _).
  - apply Hinv.
  - intros j Hj. destruct (si_wait Hinv j i Hj) as [Hij _].
    rewrite st_at_insert by by rewrite (sized_status _ Hs).
    rewrite bool_decide_false by lia.
    destruct (sized_lookup s j Hs) as [txj Htxj]; [lia|].
    apply st_at_Some. exists txj. split; [done|].
    assert (st_at s j = Some (status txj)) as Hstj by (apply st_at_Some; eauto).
    apply (ti_wait (si_tx Hinv _ _ Hstj)), waits_pos. eauto.
Qed.

(** [finish_execution] by the worker that executes the transaction. *)
Lemma finish_execution_sinv s roles failed t ver wrote nv :
  sinv s roles failed -> has_role roles t (RExecute (tx_idx ver)) ->
  (forall k, nv = Some k -> k = tx_idx ver \/ k = S (tx_idx ver)) ->
  (nv <> None -> wrote = false -> min_validation_idx s <= tx_idx ver) ->
  exists r s',
    finish_execution ver wrote nv s = Val (r, s') /\
    sinv s' (<[t := role_of_task <$> r]> roles) failed /\
    (r = None \/ r = Some (ValidationTask ver)) /\
    st_at s' (tx_idx ver) = Some Executed /\
    min_validation_idx s' <= min_validation_idx s.
Proof.
  intros Hinv Ht Hnv Hwrote.
  destruct (finish_execution_run s roles failed t ver wrote nv Hinv Ht) as (tx & Htx & ->).
  set (i := tx_idx ver) in *. pose proof (si_roles Hinv _ _ Ht) as Hi. simpl in Hi.
  pose proof (si_validation_bound Hinv) as Hvb.
  assert (st_at s i = Some Executing) as Hsti.
  { assert (st_at s i = Some (status tx)) as Hsti by (apply st_at_Some; eauto).
    by rewrite <-(ti_execute (si_tx Hinv _ _ Hsti) t Ht). }
  destruct (schedule_validation_run ver wrote nv (executed s i tx))
    as (r & m & v & Hrun & Hm & Hr & Hcases). fold i in Hcases.
  assert (block_size (executed s i tx) = block_size s /\
          min_validation_idx (executed s i tx) = min_validation_idx s /\
          validation_idx (executed s i tx) = validation_idx s) as (Eb & Em & Ev)
    by (unfold executed; by destruct (min_resumed _ _ _)).
  rewrite Eb, Ev in Hcases. rewrite Em in Hm.
  exists r, (scheduled m v (executed s i tx)). split; [done|].
  assert (m <= min_validation_idx s) as Hmle by (destruct nv; lia).
  assert (m = min_validation_idx s \/ i <= m /\ wrote = true) as Hlow.
  { destruct nv as [k|]; [|by left]. destruct (Hnv k eq_refl), wrote; try lia;
      left; specialize (Hwrote ltac:(done) eq_refl); lia. }
  split; [|split_and!; [done| |done]].
  - rewrite <-executed_scheduled. apply sinv_executed with (failed := failed); try done.
    + apply sinv_lower; try done.
      * repeat case_decide; destruct Hcases as [_ ->]; destruct wrote; lia.
      * intros j Hj Hstj. destruct (decide (min_validation_idx s <= j)); [by left|right].
        assert (j <> i) by congruence.
        destruct Hlow as [|[? ->]]; [lia|].
        repeat case_decide; destruct Hcases as [_ ->]; lia.
    + intros x Hx. destruct Hr as [-> | ->]; [done|]. simpl in Hx. simplify_eq. simpl.
      split; [done|]. repeat case_decide; destruct Hcases as [? _]; try done; lia.
    + simpl. intros Hmi. repeat case_decide; destruct Hcases as [-> ->]; simpl; auto; lia.
  - change (st_at (executed s i tx) i = Some Executed).
    rewrite (executed_st_at s roles failed) by done. by rewrite bool_decide_true.
Qed.
(** ** The initial state *)

(** What the preprocessing of a block hands to [Scheduler::new]. *)
Record initial_wf (n : nat) (status_ : TransactionsStatus)
  (dependents : TransactionsDependents) (deps : TransactionsDependenciesNum) : Prop := {
  iw_status : length status_ = n;
  iw_dependents : length dependents = n;
  iw_lower : forall b l i, dependents !! b = Some l -> i ∈ l -> b < i < n;
  iw_nodup : forall b l, dependents !! b = Some l -> NoDup l;
  iw_tx : forall i tx, status_ !! i = Some tx ->
    let w := count_if (fun l => bool_decide (i ∈ l)) dependents in
    (status tx = Aborting /\ 0 < w /\ deps !! i = Some (Z.of_nat w) \/
     status tx = ReadyToExecute /\ w = 0 /\ deps !! i = None);
}.

Lemma sinv_new n status_ dependents deps threads :
  (Z.of_nat n < 2 ^ 64)%Z -> initial_wf n status_ dependents deps ->
  sinv (Scheduler.new n status_ dependents deps) (replicate threads None) false.
Proof.
  intros Hn [Hl1 Hl2 Hlow Hnd Htx].
  assert (forall t (r : role), ~ has_role (replicate threads None) t r) as Hno.
  { by intros t r [? _]%lookup_replicate. }
  assert (forall b i, i ∈ dependents_of (Scheduler.new n status_ dependents deps) b ->
    exists l, dependents !! b = Some l /\ i ∈ l) as Hdep.
  { intros b i. unfold dependents_of. simpl. destruct (dependents !! b); simpl; [eauto|set_solver]. }
  split; try done; simpl; try lia.
  - intros t r Hr. by destruct (Hno t r).
  - intros t1 t2 r _ Hr. by destruct (Hno t1 r).
  - intros i b (l & Hl & Hi)%Hdep. pose proof (Hlow b l i Hl Hi). split; [lia|].
    intros st (tx & Hs & <-)%st_at_Some. by destruct (Htx b tx Hs) as [[-> _]|[-> _]].
  - intros b. unfold dependents_of. simpl. destruct (dependents !! b) eqn:Hb; simpl; [eauto|].
    constructor.
  - symmetry. rewrite <-(Nat2Z.inj_0). f_equal. apply count_if_0. intros i tx Hs.
    apply bool_decide_eq_false. by destruct (Htx i tx Hs) as [[-> _]|[-> _]].
  - intros i st (tx & Hs & <-)%st_at_Some. apply tx_inv_idle.
    + intros t r _ _. apply Hno.
    + intros t Ht. by destruct (Hno _ _ Ht).
    + simpl. unfold waits. simpl. destruct (Htx i tx Hs) as [(? & ? & _)|(? & ? & _)];
        [by left|right]. split_and!; [done..|lia].
    + unfold waits. simpl. destruct (Htx i tx Hs) as [(_ & _ & ->)|(_ & -> & ->)]; lia.
Qed.

(** A worker gives its role up when the block fails. *)
Lemma sinv_drop s roles failed t :
  sinv s roles failed -> sinv s (<[t := None]> roles) true.
Proof.
  intros Hinv.
  assert (forall t' r, has_role (<[t := None]> roles) t' r -> has_role roles t' r) as Hkeep.
  { by intros t' r [(_ & _ & ?)|[_ ?]]%has_role_insert. }
  split; try apply Hinv.
  - intros t' r Hr%Hkeep. by apply (si_roles Hinv t').
  - intros t1 t2 r Hr H1%Hkeep H2%Hkeep. by apply (si_unique Hinv _ _ r).
  - intros i st Hst. pose proof (si_tx Hinv _ _ Hst) as Htx.
    split; try apply Htx; try done; intros t' Ht'%Hkeep;
      [exact (ti_execute Htx t' Ht')|exact (ti_abort Htx t' Ht')
      |exact (ti_validate Htx t' Ht')].
Qed.

(** ** Progress *)

(** When no worker holds a task, a transaction that is not done is ready or
    waits, in the end, for a ready one. *)
Lemma sinv_idle_done s roles :
  sinv s roles false -> (forall t r, ~ has_role roles t r) ->
  block_size s <= execution_idx s ->
  forall i st, st_at s i = Some st -> is_done st = true.
Proof.
  intros Hinv Hno He i. induction (lt_wf i) as [i _ IH]. intros st Hst.
  pose proof (si_tx Hinv _ _ Hst) as Htx.
  destruct st; try done.
  - pose proof (ti_ready Htx eq_refl). apply st_at_lt in Hst; [lia|apply Hinv].
  - destruct (ti_executing Htx eq_refl eq_refl) as [t Ht]. by destruct (Hno _ _ Ht).
  - destruct (ti_aborting Htx eq_refl eq_refl) as [Hw|[t Ht]]; [|by destruct (Hno _ _ Ht)].
    apply waits_pos in Hw as [b Hb]. destruct (si_wait Hinv i b Hb) as [Hlt Hnd].
    destruct (sized_lookup s b (si_sized Hinv)) as [tx Htxb]; [lia|].
    assert (st_at s b = Some (status tx)) as Hstb by (apply st_at_Some; eauto).
    specialize (IH b ltac:(lia) _ Hstb). specialize (Hnd _ Hstb). congruence.
Qed.

Lemma sinv_idle_validated s roles :
  sinv s roles false -> (forall t r, ~ has_role roles t r) ->
  block_size s <= execution_idx s -> block_size s <= validation_idx s ->
  block_size s - min_validation_idx s <= validated_count s.
Proof.
  intros Hinv Hno He Hv. rewrite <-(sized_status _ (si_sized Hinv)).
  apply count_if_suffix. intros i tx Htx Hm. apply bool_decide_eq_true.
  assert (st_at s i = Some (status tx)) as Hst by (apply st_at_Some; eauto).
  pose proof (sinv_idle_done s roles Hinv Hno He _ _ Hst) as Hd.
  destruct (status tx) eqn:E; try done.
  destruct (ti_pending (si_tx Hinv _ _ Hst) eq_refl Hm eq_refl) as [?|[t Ht]].
  - apply st_at_lt in Hst; [lia|apply Hinv].
  - by destruct (Hno _ _ Ht).
Qed.

(** The loop of [next_task] returns when no other worker holds a task: its
    counters move at every turn and are bounded. *)
Lemma next_task_returns s roles t fuel :
  sinv s roles false -> roles !! t = Some None -> (forall t r, ~ has_role roles t r) ->
  2 * block_size s + 2 - (execution_idx s + validation_idx s) <= fuel ->
  exists r s',
    next_task fuel s = Val (r, s') /\
    sinv s' (<[t := role_of_task <$> r]> roles) false /\
    (r = None -> forall i, i < block_size s ->
       exists st, st_at s' i = Some st /\ is_done st = true /\
                  (min_validation_idx s' <= i -> st = Validated)).
Proof.
  revert s. induction fuel as [|fuel IH]; intros s Hinv Ht Hno Hfuel.
  { pose proof (si_execution_bound Hinv). pose proof (si_validation_bound Hinv). lia. }
  destruct (next_task_iter_sinv s roles false t Hinv Ht)
    as (r & s1 & Hrun & Hinv1 & Hend & Hloop & _).
  simpl. unfold mbind, ST_bind, outcome_bind. rewrite Hrun.
  destruct r as [[task|]|].
  - exists (Some task), s1. by split_and!.
  - destruct (Hend eq_refl) as (-> & He & Hv & Hval). exists None, s. split_and!; try done.
    intros _ i Hi. destruct (sized_lookup s i (si_sized Hinv) Hi) as [tx Htx].
    assert (st_at s i = Some (status tx)) as Hst by (apply st_at_Some; eauto).
    exists (status tx). split_and!; [done|by apply (sinv_idle_done s roles Hinv Hno He i)|].
    intros Hm. specialize (Hval i (conj Hm Hi)). congruence.
  - simpl in Hinv1. rewrite list_insert_id in Hinv1 by done.
    assert (block_size s1 = block_size s) as Eb
      by apply (next_task_iter_ensures None _ _ _ Hrun).
    destruct (Hloop eq_refl) as [(-> & He & Hv & Hn)|Hmove].
    + destruct Hn. by eapply sinv_idle_validated.
    + destruct (IH s1) as (r & s' & ? & ? & Hall); try done; [lia|].
      exists r, s'. split_and!; try done. intros Hr i Hi. apply Hall; [done|lia].
Qed.
End operations.
