(* ===== verification/Revm.v ===== *)
(** * Revm: the interface to the third-party EVM ([revm], [alloy])

    Pevm executes transactions with [revm].  Its data types that the sources
    of this repository build or take apart are records here; its functions are
    the operations of the class [Revm], left abstract.  A transaction's
    execution is generic in the database it reads from, so it is a program
    that calls the methods of revm's [Database] trait ([DbProg]); the class
    [RevmLaws] states the documented behaviour that some theorems rely on. *)

From stdpp Require Import base list gmap strings.
From Stdlib Require Import ZArith Lia.
From S2P Require Import Prelude Types.

(** ** Environments *)

Inductive SpecId : Type :=
| FRONTIER | FRONTIER_THAWING | HOMESTEAD | DAO_FORK | TANGERINE | SPURIOUS_DRAGON
| BYZANTIUM | CONSTANTINOPLE | PETERSBURG | ISTANBUL | MUIR_GLACIER | BERLIN | LONDON
| ARROW_GLACIER | GRAY_GLACIER | MERGE | SHANGHAI | CANCUN | PRAGUE | LATEST.

#[export] Instance SpecId_eq_dec : EqDecision SpecId.
Proof. solve_decision. Defined.

(** [SpecId as u8]: the hard forks are declared in order. *)
Definition spec_number (s : SpecId) : nat :=
  match s with
  | FRONTIER => 0 | FRONTIER_THAWING => 1 | HOMESTEAD => 2 | DAO_FORK => 3 | TANGERINE => 4
  | SPURIOUS_DRAGON => 5 | BYZANTIUM => 6 | CONSTANTINOPLE => 7 | PETERSBURG => 8
  | ISTANBUL => 9 | MUIR_GLACIER => 10 | BERLIN => 11 | LONDON => 12 | ARROW_GLACIER => 13
  | GRAY_GLACIER => 14 | MERGE => 15 | SHANGHAI => 16 | CANCUN => 17 | PRAGUE => 18
  | LATEST => 19
  end.

Inductive TransactTo : Type :=
| Call (address : Address)
| Create.

#[export] Instance TransactTo_eq_dec : EqDecision TransactTo.
Proof. solve_decision. Defined.

Record TxEnv : Type := {
  te_caller : Address;
  te_gas_limit : u64;
  te_gas_price : U256;
  te_gas_priority_fee : option U256;
  te_transact_to : TransactTo;
  te_value : U256;
  te_data : Bytes;
  te_nonce : option u64;
  te_chain_id : option u64;
  te_access_list : list (Address * list U256);
  te_blob_hashes : list B256;
  te_max_fee_per_blob_gas : option U256;
}.

Record BlobExcessGasAndPrice : Type := {
  be_excess_blob_gas : u64;
  be_blob_gasprice : Z;
}.

Record BlockEnv : Type := {
  be_number : U256;
  be_coinbase : Address;
  be_timestamp : U256;
  be_gas_limit : U256;
  be_basefee : U256;
  be_difficulty : U256;
  be_prevrandao : option B256;
  be_blob_excess_gas_and_price : option BlobExcessGasAndPrice;
}.

(** ** Results *)

Record Log : Type := {
  log_address : Address;
  log_topics : list B256;
  log_data : Bytes;
}.

(** The queries of [ExecutionResult] that Pevm makes. *)
Record ExecutionResult : Type := {
  er_is_success : bool;
  er_gas_used : u64;
  er_logs : list Log;
}.

Record StorageSlot : Type := {
  slot_original_value : U256;
  slot_present_value : U256;
}.

(** An account of revm's journaled state, with the queries of its status
    flags that Pevm makes. *)
Record Account : Type := {
  acc_info : AccountInfo;
  acc_storage : list (U256 * StorageSlot);
  acc_is_touched : bool;
  acc_is_selfdestructed : bool;
}.

(** An account of revm's in-memory databases. *)
Record PlainAccount : Type := {
  pa_info : AccountInfo;
  pa_storage : gmap U256 U256;
}.

Record ResultAndState : Type := {
  ras_result : ExecutionResult;
  ras_state : list (Address * Account);
}.

Inductive InvalidTransaction : Type :=
| LackOfFundForMaxFee (fee balance : U256)
| OtherInvalidTransaction (msg : string).

Inductive EVMError (E : Type) : Type :=
| EvmTransaction (err : InvalidTransaction)
| EvmHeader (msg : string)
| EvmDatabase (err : E)
| EvmCustom (msg : string).
Arguments EvmTransaction {E} err.
Arguments EvmHeader {E} msg.
Arguments EvmDatabase {E} err.
Arguments EvmCustom {E} msg.

(** ** Programs over a database *)

Inductive DbProg (E R : Type) : Type :=
| Return (r : R)
| CallBasic (address : Address) (is_preload : bool)
    (k : result (option AccountInfo) E -> DbProg E R)
| CallCodeByHash (code_hash : B256) (k : result Bytecode E -> DbProg E R)
| CallHasStorage (address : Address) (k : result bool E -> DbProg E R)
| CallStorage (address : Address) (index : U256) (k : result U256 E -> DbProg E R)
| CallBlockHash (number : U256) (k : result B256 E -> DbProg E R).
Arguments Return {E R} r.
Arguments CallBasic {E R} address is_preload k.
Arguments CallCodeByHash {E R} code_hash k.
Arguments CallHasStorage {E R} address k.
Arguments CallStorage {E R} address index k.
Arguments CallBlockHash {E R} number k.

(** Whatever the database answers, the program fails. *)
Fixpoint always_fails {E T X} (p : DbProg E (result T X)) : Prop :=
  match p with
  | Return r => exists x, r = Err x
  | CallBasic _ _ k => forall r, always_fails (k r)
  | CallCodeByHash _ k => forall r, always_fails (k r)
  | CallHasStorage _ k => forall r, always_fails (k r)
  | CallStorage _ _ k => forall r, always_fails (k r)
  | CallBlockHash _ k => forall r, always_fails (k r)
  end.

(** The program treats database errors as fatal: it fails once a call has
    failed, and a database error it reports is one that a call returned; [P]
    is any property that all the errors returned so far have. *)
Fixpoint db_errors_fatal {E T} (P : E -> Prop)
  (p : DbProg E (result T (EVMError E))) : Prop :=
  let answer {A} (r : result A E) (p : DbProg E (result T (EVMError E))) :=
    match r with
    | Ok _ => db_errors_fatal P p
    | Err e => P e -> db_errors_fatal P p /\ always_fails p
    end in
  match p with
  | Return r => forall e, r = Err (EvmDatabase e) -> P e
  | CallBasic _ _ k => forall r, answer r (k r)
  | CallCodeByHash _ k => forall r, answer r (k r)
  | CallHasStorage _ k => forall r, answer r (k r)
  | CallStorage _ _ k => forall r, answer r (k r)
  | CallBlockHash _ k => forall r, answer r (k r)
  end.

(** ** The functions of revm that Pevm calls *)

Class Revm : Type := {
  KECCAK_EMPTY : B256;
  keccak256 : Bytes -> B256;
  Bytecode_default : Bytecode;
  Bytecode_is_empty : Bytecode -> bool;
  hash_slow : Bytecode -> B256;
  to_analysed : Bytecode -> Bytecode;
  AccountInfo_default : AccountInfo;
  AccountInfo_from_balance : U256 -> AccountInfo;
  (* [PartialEq for AccountInfo] *)
  AccountInfo_eqb : AccountInfo -> AccountInfo -> bool;
  is_empty_code_hash : AccountInfo -> bool;
  Account_is_empty : Account -> bool;
  changed_storage_slots : Account -> list (U256 * StorageSlot);
  is_enabled_in : SpecId -> SpecId -> bool;
  BlobExcessGasAndPrice_new : u64 -> BlobExcessGasAndPrice;
  (* [Evm::new(context, handler).transact()] *)
  transact : forall E : Type, u64 -> SpecId -> BlockEnv -> TxEnv -> bool ->
             DbProg E (result ResultAndState (EVMError E));
}.

Class RevmLaws `{Revm} : Prop := {
  Bytecode_default_is_empty : Bytecode_is_empty Bytecode_default = true;
  to_analysed_raw : forall bs, exists code, to_analysed (LegacyRaw bs) = LegacyAnalyzed code;
  AccountInfo_eqb_spec : forall a b,
    AccountInfo_eqb a b = true <->
    info_balance a = info_balance b /\ info_nonce a = info_nonce b /\
    info_code_hash a = info_code_hash b;
  AccountInfo_default_balance : info_balance AccountInfo_default = 0%Z;
  AccountInfo_from_balance_balance : forall b,
    info_balance (AccountInfo_from_balance b) = b;
  AccountInfo_from_balance_nonce : forall b, info_nonce (AccountInfo_from_balance b) = 0%Z;
  transact_db_errors : forall E chain spec block tx reward (P : E -> Prop),
    db_errors_fatal P (transact E chain spec block tx reward);
}.
