(* ===== verification/Storage.v ===== *)
(** * Storage: chain state before the block ([src/storage.rs],
      [src/storage/in_memory.rs])

    The accounts Pevm works with and their conversions from and to revm's
    types, the [Storage] trait as a type class, its in-memory implementation,
    and the wrapper that turns a storage into a revm database. *)

From Stdlib Require Import ZArith Lia Ascii String.
From stdpp Require Import base list gmap strings pretty.
From S2P Require Import Prelude Types Revm.

(** ** Accounts *)

Record EvmCode : Type := {
  ec_bytecode : Bytes;
  ec_original_len : nat;
  ec_jump_table : list bool;
}.

#[export] Instance EvmCode_eq_dec : EqDecision EvmCode.
Proof. solve_decision. Defined.

Record AccountBasic : Type := {
  ab_balance : U256;
  ab_nonce : u64;
  ab_code : option EvmCode;
  ab_code_hash : option B256;
}.

#[export] Instance AccountBasic_eq_dec : EqDecision AccountBasic.
Proof. solve_decision. Defined.

Definition AccountBasic_default : AccountBasic :=
  {| ab_balance := 0; ab_nonce := 0; ab_code := None; ab_code_hash := None |}.

Record EvmAccount : Type := {
  ea_basic : AccountBasic;
  ea_storage : gmap U256 U256;
}.

#[export] Instance EvmAccount_eq_dec : EqDecision EvmAccount.
Proof. solve_decision. Defined.

Definition AccountBasic_is_empty (a : AccountBasic) : bool :=
  (ab_balance a =? 0)%Z && (ab_nonce a =? 0)%Z && bool_decide (ab_code a = None).

(** [EvmAccount::from(AccountBasic)] *)
Definition EvmAccount_from_basic (basic : AccountBasic) : EvmAccount :=
  {| ea_basic := basic; ea_storage := ∅ |}.

Definition EvmAccount_with_balance (balance : U256) : EvmAccount :=
  EvmAccount_from_basic
    {| ab_balance := balance; ab_nonce := 0; ab_code := None; ab_code_hash := None |}.

(** [Bytecode::from(EvmCode)] *)
Definition Bytecode_from_code (code : EvmCode) : Bytecode :=
  LegacyAnalyzed {| lab_bytecode := ec_bytecode code;
                    lab_original_len := ec_original_len code;
                    lab_jump_table := ec_jump_table code |}.

Section conversions.
Context `{Revm}.

(** [EvmCode::from(Bytecode)]: raw code is analysed, then converted. *)
Fixpoint EvmCode_from_bytecode_loop (fuel : nat) (code : Bytecode) : outcome EvmCode :=
  match code with
  | LegacyRaw _ =>
      match fuel with
      | 0 => Fault OutOfFuel
      | S fuel => EvmCode_from_bytecode_loop fuel (to_analysed code)
      end
  | LegacyAnalyzed code => Val {| ec_bytecode := lab_bytecode code;
                                  ec_original_len := lab_original_len code;
                                  ec_jump_table := lab_jump_table code |}
  | Eof _ => Fault Unimplemented
  end.

(** One analysis is enough, since it does not return raw code. *)
Definition EvmCode_from_bytecode (code : Bytecode) : outcome EvmCode :=
  EvmCode_from_bytecode_loop 1 code.

(** [AccountInfo::from(AccountBasic)] *)
Definition AccountInfo_from_basic (account : AccountBasic) : AccountInfo :=
  let code := default Bytecode_default (Bytecode_from_code <$> ab_code account) in
  {| info_balance := ab_balance account;
     info_nonce := ab_nonce account;
     info_code_hash := default (hash_slow code) (ab_code_hash account);
     info_code := Some code |}.

(** [AccountBasic::from(AccountInfo)] *)
Definition AccountBasic_from_info (account : AccountInfo) : outcome AccountBasic :=
  code ← match info_code account with
         | Some code =>
             if Bytecode_is_empty code then Val None
             else code ← EvmCode_from_bytecode code; Val (Some code)
         | None => Val None
         end;
  Val {| ab_balance := info_balance account;
         ab_nonce := info_nonce account;
         ab_code_hash := match code with
                         | Some _ => Some (info_code_hash account)
                         | None => None
                         end;
         ab_code := code |}.

(** [PlainAccount::from(EvmAccount)] *)
Definition PlainAccount_from_account (account : EvmAccount) : PlainAccount :=
  {| pa_info := AccountInfo_from_basic (ea_basic account);
     pa_storage := ea_storage account |}.

(** [EvmAccount::from(PlainAccount)] *)
Definition EvmAccount_from_plain (account : PlainAccount) : outcome EvmAccount :=
  basic ← AccountBasic_from_info (pa_info account);
  Val {| ea_basic := basic; ea_storage := pa_storage account |}.

(** [EvmAccount::from(Account)]: the present values of every loaded slot. *)
Definition EvmAccount_from_account (account : Account) : outcome EvmAccount :=
  basic ← AccountBasic_from_info (acc_info account);
  Val {| ea_basic := basic;
         ea_storage :=
           foldl (fun m '(k, slot) => <[k := slot_present_value slot]> m)
                 ∅ (acc_storage account) |}.
End conversions.

(** ** The [Storage] trait *)

Class Storage (S : Type) : Type := {
  Error : Type;
  fmt_debug : Error -> string;
  basic : S -> Address -> result (option AccountBasic) Error;
  is_contract : S -> Address -> result bool Error;
  code_by_hash : S -> B256 -> result (option EvmCode) Error;
  has_storage : S -> Address -> result bool Error;
  storage : S -> Address -> U256 -> result U256 Error;
  block_hash : S -> U256 -> result B256 Error;
}.

(** The trait's default implementation of [is_contract]. *)
Definition is_contract_of_basic {E} (basic : result (option AccountBasic) E)
  : result bool E :=
  map_ok (fun account => match account with
                         | Some account => bool_decide (is_Some (ab_code account))
                         | None => false
                         end) basic.

(** What Pevm relies on: [is_contract] agrees with [basic]. *)
Class StorageLaws (S : Type) `{Storage S} : Prop := {
  is_contract_spec : forall s a, is_contract s a = is_contract_of_basic (basic s a);
}.

(** ** In-memory storage *)

Record InMemoryStorage : Type := {
  im_accounts : gmap Address EvmAccount;
  im_block_hashes : gmap U256 B256;
}.

(** The accounts are of any type that converts into [EvmAccount]; [collect] keeps
    the last of several entries for one key. *)
Definition InMemoryStorage_new {A} (into : A -> EvmAccount) (accounts : list (Address * A))
  (block_hashes : list (U256 * B256)) : InMemoryStorage :=
  {| im_accounts := foldl (fun m '(addr, acc) => <[addr := into acc]> m) ∅ accounts;
     im_block_hashes := foldl (fun m '(n, h) => <[n := h]> m) ∅ block_hashes |}.

Section in_memory.
Context `{Revm}.

(** [number.to_string().as_bytes()]: the decimal digits of the number. *)
Definition decimal_bytes (number : U256) : Bytes :=
  map (fun c => Z.of_nat (nat_of_ascii c)) (list_ascii_of_string (pretty number)).

Definition im_basic (s : InMemoryStorage) (address : Address)
  : result (option AccountBasic) unit :=
  Ok (ea_basic <$> im_accounts s !! address).

Definition im_is_contract (s : InMemoryStorage) (address : Address) : result bool unit :=
  Ok (match im_accounts s !! address with
      | Some account => bool_decide (is_Some (ab_code (ea_basic account)))
      | None => false
      end).

(** The first account, in the iteration order of the map, with that hash. *)
Definition im_code_by_hash (s : InMemoryStorage) (code_hash : B256)
  : result (option EvmCode) unit :=
  Ok (match list_find (fun '(_, account) =>
                         ab_code_hash (ea_basic account) = Some code_hash)
                      (map_to_list (im_accounts s)) with
      | Some (_, (_, account)) => ab_code (ea_basic account)
      | None => None
      end).

Definition im_has_storage (s : InMemoryStorage) (address : Address) : result bool unit :=
  Ok (match im_accounts s !! address with
      | Some account => negb (bool_decide (ea_storage account = ∅))
      | None => false
      end).

Definition im_storage (s : InMemoryStorage) (address : Address) (index : U256)
  : result U256 unit :=
  Ok (default 0%Z (account ← im_accounts s !! address; ea_storage account !! index)).

Definition im_block_hash (s : InMemoryStorage) (number : U256) : result B256 unit :=
  Ok (default (keccak256 (decimal_bytes number)) (im_block_hashes s !! number)).

#[export] Instance InMemoryStorage_storage : Storage InMemoryStorage := {|
  Error := unit;
  fmt_debug := fun _ => "()"%string;
  basic := im_basic;
  is_contract := im_is_contract;
  code_by_hash := im_code_by_hash;
  has_storage := im_has_storage;
  storage := im_storage;
  block_hash := im_block_hash;
|}.

#[export] Instance InMemoryStorage_laws : StorageLaws InMemoryStorage.
Proof.
  split. intros s a. simpl. unfold im_is_contract, im_basic, is_contract_of_basic. simpl.
  by destruct (im_accounts s !! a).
Qed.
End in_memory.

(** ** A storage as a revm database *)

Section wrapper.
Context `{Revm} {S : Type} `{Storage S}.

(** [StorageWrapper]'s implementation of [DatabaseRef]. *)
Definition basic_ref (s : S) (address : Address) : result (option AccountInfo) Error :=
  map_ok (fmap AccountInfo_from_basic) (basic s address).

Definition code_by_hash_ref (s : S) (code_hash : B256) : result Bytecode Error :=
  map_ok (fun code => default Bytecode_default (Bytecode_from_code <$> code))
         (code_by_hash s code_hash).

Definition has_storage_ref (s : S) (address : Address) : result bool Error :=
  has_storage s address.

Definition storage_ref (s : S) (address : Address) (index : U256) : result U256 Error :=
  storage s address index.

Definition block_hash_ref (s : S) (number : U256) : result B256 Error :=
  block_hash s number.
End wrapper.
