(* ===== verification/Sample.v ===== *)
(** * Sample: a small revm for the witnesses

    An instance of the third-party interface ([Revm.Revm]) that satisfies its
    laws: transactions that move value between accounts and use 21000 gas.  It
    models no code of the repository; the theorems that are stated for any
    revm are applied to it on concrete blocks. *)

From stdpp Require Import base list gmap strings.
From Stdlib Require Import ZArith Lia.
From S2P Require Import Prelude Types Revm Storage.

Definition sample_default : AccountInfo :=
  {| info_balance := 0; info_nonce := 0; info_code_hash := 0; info_code := None |}.

Definition touched (info : AccountInfo) : Account :=
  {| acc_info := info; acc_storage := []; acc_is_touched := true;
     acc_is_selfdestructed := false |}.

Definition debited (v : U256) (info : AccountInfo) : AccountInfo :=
  {| info_balance := info_balance info - v; info_nonce := info_nonce info + 1;
     info_code_hash := info_code_hash info; info_code := info_code info |}.

Definition receipt_21000 (state : list (Address * Account)) : ResultAndState :=
  {| ras_result := {| er_is_success := true; er_gas_used := 21000; er_logs := [] |};
     ras_state := state |}.

(** Read the sender, check its funds, read the recipient, move the value. *)
Definition transfer (E : Type) (tx : TxEnv) : DbProg E (result ResultAndState (EVMError E)) :=
  CallBasic (te_caller tx) false (fun r =>
    match r with
    | Err e => Return (Err (EvmDatabase e))
    | Ok sender =>
        let sender := default sample_default sender in
        if (info_balance sender <? te_value tx)%Z then
          Return (Err (EvmTransaction
                         (LackOfFundForMaxFee (te_value tx) (info_balance sender))))
        else
          let debit := (te_caller tx, touched (debited (te_value tx) sender)) in
          match te_transact_to tx with
          | Create => Return (Ok (receipt_21000 [debit]))
          | Call to =>
              CallBasic to false (fun r =>
                match r with
                | Err e => Return (Err (EvmDatabase e))
                | Ok recipient =>
                    let recipient := default sample_default recipient in
                    Return (Ok (receipt_21000
                      [debit; (to, touched (info_add_balance (te_value tx) recipient))]))
                end)
          end
    end).

#[export] Instance sample_revm : Revm := {|
  KECCAK_EMPTY := 0%Z;
  keccak256 := fun bs => foldl Z.add 1%Z bs;
  Bytecode_default := LegacyRaw [];
  Bytecode_is_empty := fun code => match code with LegacyRaw [] => true | _ => false end;
  hash_slow := fun _ => 0%Z;
  to_analysed := fun code =>
    match code with
    | LegacyRaw bs => LegacyAnalyzed {| lab_bytecode := bs; lab_original_len := length bs;
                                        lab_jump_table := [] |}
    | code => code
    end;
  AccountInfo_default := sample_default;
  AccountInfo_from_balance := fun b =>
    {| info_balance := b; info_nonce := 0; info_code_hash := 0; info_code := None |};
  AccountInfo_eqb := fun a b =>
    (info_balance a =? info_balance b)%Z && (info_nonce a =? info_nonce b)%Z
    && (info_code_hash a =? info_code_hash b)%Z;
  is_empty_code_hash := fun info => (info_code_hash info =? 0)%Z;
  Account_is_empty := fun a =>
    (info_balance (acc_info a) =? 0)%Z && (info_nonce (acc_info a) =? 0)%Z;
  changed_storage_slots := fun a =>
    List.filter (fun '(_, s) => negb (slot_original_value s =? slot_present_value s)%Z)
                (acc_storage a);
  is_enabled_in := fun s other => spec_number other <=? spec_number s;
  BlobExcessGasAndPrice_new := fun g =>
    {| be_excess_blob_gas := g; be_blob_gasprice := 1 |};
  transact := fun E _ _ _ tx _ => transfer E tx;
|}.

#[export] Instance sample_laws : RevmLaws.
Proof.
  split; simpl.
  - done.
  - by eexists.
  - intros a b. rewrite !andb_true_iff, !Z.eqb_eq. tauto.
  - done.
  - done.
  - done.
  - intros E chain spec block tx reward P. unfold transfer. intros [sender|e].
    + destruct (_ <? _)%Z; [done|]. destruct (te_transact_to tx); [|done].
      intros [recipient|e]; [done|]. intros He. split; [by intros ? [= <-]|by eexists].
    + intros He. split; [by intros ? [= <-]|by eexists].
Qed.

(** ** A block of two transfers: 1 pays 5 to 2, which pays 3 to 3 *)

Definition sample_storage : InMemoryStorage :=
  InMemoryStorage_new id [(1%Z, EvmAccount_with_balance 100); (2%Z, EvmAccount_with_balance 10)] [].

(** A 64-bit hash: account locations are even, storage locations odd; it is
    injective on the addresses of the examples. *)
Definition sample_hasher (l : MemoryLocation) : MemoryLocationHash :=
  let tagged n tag := if ((0 <=? n) && (n <? 16))%Z then (2 * n + tag)%Z else tag in
  match l with
  | LocBasic a => tagged a 0%Z
  | LocStorage a i => tagged (a + i)%Z 1%Z
  end.

Lemma sample_hasher_width l : in_width 64 (sample_hasher l).
Proof.
  unfold in_width. destruct l; simpl; case_match; rewrite ?andb_true_iff, ?Z.leb_le, ?Z.ltb_lt in *;
    lia.
Qed.

Lemma sample_hasher_disjoint a b i : sample_hasher (LocBasic a) <> sample_hasher (LocStorage b i).
Proof. simpl. repeat case_match; lia. Qed.

Definition sample_block : BlockEnv :=
  {| be_number := 1; be_coinbase := 9; be_timestamp := 0; be_gas_limit := 0; be_basefee := 0;
     be_difficulty := 0; be_prevrandao := None; be_blob_excess_gas_and_price := None |}.

Definition pay (from to value : Z) : TxEnv :=
  {| te_caller := from; te_gas_limit := 21000; te_gas_price := 2; te_gas_priority_fee := None;
     te_transact_to := Call to; te_value := value; te_data := []; te_nonce := None;
     te_chain_id := None; te_access_list := []; te_blob_hashes := [];
     te_max_fee_per_blob_gas := None |}.

Definition sample_txs : list TxEnv := [pay 1 2 5; pay 2 3 3].
