(* ===== verification/Vm.v ===== *)
(** * Vm: executing one transaction ([src/vm.rs])

    The database a transaction reads through ([VmDb]), which takes values from
    the multi-version memory and the storage and tracks the read set; the
    execution of a transaction ([execute]) with the write set it produces, the
    rewards, and where to validate from next.

    Other workers may update the memory between two reads of one execution, so
    an execution takes the memory as a function of the number of database calls
    made so far ([mvs]); a run without interference is the constant function. *)

From stdpp Require Import base list gmap strings.
From Stdlib Require Import ZArith Lia.
From S2P Require Import Prelude Types MvMemory Revm Storage.

(** ** Results *)

Record Receipt : Type := {
  rc_status : bool;
  rc_cumulative_gas_used : Z;
  rc_logs : list Log;
}.

Abbreviation EvmStateTransitions := (gmap Address (option EvmAccount)) (only parsing).

Record PevmTxExecutionResult : Type := {
  receipt : Receipt;
  state : EvmStateTransitions;
}.

Inductive RewardPolicy : Type :=
| Ethereum.

Abbreviation ExecutionError := (EVMError ReadError) (only parsing).

Inductive VmExecutionResult : Type :=
| VmRetry
| VmReadError (blocking_tx_idx : TxIdx)
| VmExecutionError (err : ExecutionError)
| VmOk (execution_result : PevmTxExecutionResult) (read_locations : ReadLocations)
       (write_set : WriteSet) (next_validation_idx : option TxIdx).

Section from_revm.
Context `{Revm}.

(** One account of [PevmTxExecutionResult::from_revm]'s iterator. *)
Definition from_revm_account (spec_id : SpecId) (account : Account)
  : outcome (option EvmAccount) :=
  if acc_is_selfdestructed account
     || (Account_is_empty account && is_enabled_in spec_id SPURIOUS_DRAGON)
  then Val None
  else account ← EvmAccount_from_account account; Val (Some account).

Fixpoint from_revm_state (spec_id : SpecId) (accounts : list (Address * Account))
  (acc : EvmStateTransitions) : outcome EvmStateTransitions :=
  match accounts with
  | [] => Val acc
  | (address, account) :: rest =>
      if acc_is_touched account then
        a ← from_revm_account spec_id account;
        from_revm_state spec_id rest (<[address := a]> acc)
      else from_revm_state spec_id rest acc
  end.

Definition from_revm (spec_id : SpecId) (ras : ResultAndState)
  : outcome PevmTxExecutionResult :=
  state ← from_revm_state spec_id (ras_state ras) ∅;
  Val {| receipt := {| rc_status := er_is_success (ras_result ras);
                       rc_cumulative_gas_used := er_gas_used (ras_result ras);
                       rc_logs := er_logs (ras_result ras) |};
         state := state |}.
End from_revm.

(** ** The virtual machine of a block *)

Record Vm (S : Type) : Type := {
  vm_hasher : MemoryLocation -> MemoryLocationHash;
  vm_storage : S;
  vm_chain : u64;
  vm_spec_id : SpecId;
  vm_block_env : BlockEnv;
  vm_beneficiary_location_hash : MemoryLocationHash;
  vm_reward_policy : RewardPolicy;
  vm_txs : list TxEnv;
}.
Arguments vm_hasher {S} _ _.
Arguments vm_storage {S} _.
Arguments vm_chain {S} _.
Arguments vm_spec_id {S} _.
Arguments vm_block_env {S} _.
Arguments vm_beneficiary_location_hash {S} _.
Arguments vm_reward_policy {S} _.
Arguments vm_txs {S} _.

Definition new {S} (hasher : MemoryLocation -> MemoryLocationHash) (storage : S)
  (chain : u64) (spec_id : SpecId) (block_env : BlockEnv) (txs : list TxEnv) : Vm S :=
  {| vm_hasher := hasher;
     vm_storage := storage;
     vm_chain := chain;
     vm_spec_id := spec_id;
     vm_beneficiary_location_hash := hasher (LocBasic (be_coinbase block_env));
     vm_block_env := block_env;
     vm_reward_policy := Ethereum;
     vm_txs := txs |}.

(** [Vm::get_address_hash] *)
Definition get_address_hash {S} (vm : Vm S) (address : Address) : MemoryLocationHash :=
  if (address =? be_coinbase (vm_block_env vm))%Z
  then vm_beneficiary_location_hash vm
  else vm_hasher vm (LocBasic address).

(** ** The database of one execution *)

Record VmDb : Type := {
  db_tx_idx : TxIdx;
  db_from : Address;
  db_from_hash : MemoryLocationHash;
  db_to : option Address;
  db_to_hash : option MemoryLocationHash;
  db_is_maybe_lazy : bool;
  db_read_set : ReadSet;
  db_only_read_from_and_to : bool;
}.

(** [VmDb::new] *)
Definition VmDb_new (tx_idx : TxIdx) (from : Address) (from_hash : MemoryLocationHash)
  (to : option Address) (to_hash : option MemoryLocationHash) (is_maybe_lazy : bool)
  : VmDb :=
  {| db_tx_idx := tx_idx; db_from := from; db_from_hash := from_hash; db_to := to;
     db_to_hash := to_hash; db_is_maybe_lazy := is_maybe_lazy;
     db_only_read_from_and_to := true; db_read_set := ReadSet_default |}.

Definition with_read_set (rs : ReadSet) (db : VmDb) : VmDb :=
  {| db_tx_idx := db_tx_idx db; db_from := db_from db; db_from_hash := db_from_hash db;
     db_to := db_to db; db_to_hash := db_to_hash db;
     db_is_maybe_lazy := db_is_maybe_lazy db; db_read_set := rs;
     db_only_read_from_and_to := db_only_read_from_and_to db |}.

Definition with_only_read_from_and_to (b : bool) (db : VmDb) : VmDb :=
  {| db_tx_idx := db_tx_idx db; db_from := db_from db; db_from_hash := db_from_hash db;
     db_to := db_to db; db_to_hash := db_to_hash db;
     db_is_maybe_lazy := db_is_maybe_lazy db; db_read_set := db_read_set db;
     db_only_read_from_and_to := b |}.

(** [*read_origins = origins] in the read set's entry of a location. *)
Definition with_origins (location : MemoryLocationHash) (origins : list ReadOrigin)
  (db : VmDb) : VmDb :=
  with_read_set {| rs_locations := <[location := origins]> (rs_locations (db_read_set db));
                   rs_accounts := rs_accounts (db_read_set db) |} db.

Definition with_account (location : MemoryLocationHash) (account : AccountInfo)
  (db : VmDb) : VmDb :=
  with_read_set {| rs_locations := rs_locations (db_read_set db);
                   rs_accounts := <[location := account]> (rs_accounts (db_read_set db)) |} db.

(** [VmDb::get_address_hash] *)
Definition VmDb_get_address_hash {S} (vm : Vm S) (db : VmDb) (address : Address)
  : outcome MemoryLocationHash :=
  if (address =? db_from db)%Z then Val (db_from_hash db)
  else if bool_decide (Some address = db_to db) then
    match db_to_hash db with Some h => Val h | None => Fault UnwrapFailed end
  else Val (get_address_hash vm address).

(** The loop that evaluates lazy updates, over what [range(..tx_idx)] yields
    from the back.  [prev] are the origins of an earlier read of the location,
    empty on the first one. *)
Fixpoint evaluate_lazy (reschedule : ReadError) (need_consecutive_idxs : bool)
  (prev : list ReadOrigin) (iter : list (TxIdx * MemoryEntry)) (current_idx : TxIdx)
  (balance_addition : U256) (new_origins : list ReadOrigin)
  : result (option AccountInfo * U256 * list ReadOrigin) ReadError :=
  let has_prev_origins := negb (length prev =? 0) in
  match iter with
  | (blocking_idx, Estimate) :: _ =>
      Err (if need_consecutive_idxs then reschedule else BlockingIndex blocking_idx)
  | (closest_idx, Data inc value) :: iter =>
      if need_consecutive_idxs && negb (closest_idx =? current_idx - 1)
      then Err reschedule
      else if has_prev_origins && (length prev =? length new_origins)
      then Err InconsistentRead
      else
        let origin :=
          OriginMvMemory {| tx_idx := closest_idx; tx_incarnation := inc |} in
        if has_prev_origins
           && negb (bool_decide (prev !! length new_origins = Some origin))
        then Err InconsistentRead
        else
          match value with
          | ValBasic account =>
              Ok (Some (info_add_balance balance_addition account),
                  balance_addition, new_origins ++ [origin])
          | ValLazyBalanceAddition addition =>
              evaluate_lazy reschedule need_consecutive_idxs prev iter closest_idx
                (u256_add balance_addition addition) (new_origins ++ [origin])
          | ValStorage _ => Err InvalidMemoryLocationType
          end
  | [] =>
      if need_consecutive_idxs && (0 <? current_idx) then Err reschedule
      else Ok (None, balance_addition, new_origins)
  end.

Section vm.
Context `{Revm} {S : Type} `{Storage S}.
Implicit Types (vm : Vm S) (db : VmDb) (mv : MvMemory).

(** [ReadError::StorageError(format!("{err:?}"))] *)
Definition storage_error (err : Error) : ReadError := StorageError (fmt_debug err).

(** The part of [basic] that reads the multi-version memory. *)
Definition basic_from_memory (vm : Vm S) (mv : MvMemory) (tx_idx : TxIdx)
  (location_hash : MemoryLocationHash) (prev : list ReadOrigin)
  : result (option AccountInfo * U256 * list ReadOrigin) ReadError :=
  if 0 <? tx_idx then
    let need_consecutive_idxs :=
      (location_hash =? vm_beneficiary_location_hash vm)%Z in
    let reschedule := BlockingIndex (tx_idx - 1) in
    match read_location location_hash mv with
    | Some written_transactions =>
        evaluate_lazy reschedule need_consecutive_idxs prev
          (range_rev written_transactions tx_idx) tx_idx 0%Z []
    | None =>
        if need_consecutive_idxs then Err reschedule else Ok (None, 0%Z, [])
    end
  else Ok (None, 0%Z, []).

(** The fall back to the storage, when the memory gave no full account. *)
Definition basic_from_storage (vm : Vm S) (address : Address)
  (prev : list ReadOrigin) (balance_addition : U256) (new_origins : list ReadOrigin)
  : result (option AccountInfo * list ReadOrigin) ReadError :=
  let has_prev_origins := negb (length prev =? 0) in
  if has_prev_origins
     && (negb (length prev =? length new_origins + 1)
         || negb (bool_decide (last prev = Some OriginStorage)))
  then Err InconsistentRead
  else
    let new_origins :=
      if has_prev_origins then new_origins else new_origins ++ [OriginStorage] in
    match Storage.basic (vm_storage vm) address with
    | Ok (Some account) =>
        Ok (Some (info_add_balance balance_addition (AccountInfo_from_basic account)),
            new_origins)
    | Ok None =>
        Ok (if (0 <? balance_addition)%Z
            then Some (AccountInfo_from_balance balance_addition) else None,
            new_origins)
    | Err err => Err (storage_error err)
    end.

(** The account that [basic] finds and the origins it found it at. *)
Definition basic_read (vm : Vm S) (mv : MvMemory) (tx_idx : TxIdx) (address : Address)
  (location_hash : MemoryLocationHash) (prev : list ReadOrigin)
  : result (option AccountInfo * list ReadOrigin) ReadError :=
  match basic_from_memory vm mv tx_idx location_hash prev with
  | Err err => Err err
  | Ok (final_account, balance_addition, new_origins) =>
      match final_account with
      | Some _ => Ok (final_account, new_origins)
      | None => basic_from_storage vm address prev balance_addition new_origins
      end
  end.

(** The end of [basic]: store the origins of a first read, and the account
    without its code. *)
Definition basic_record (location_hash : MemoryLocationHash) (prev : list ReadOrigin)
  (final_account : option AccountInfo) (new_origins : list ReadOrigin) (db : VmDb) : VmDb :=
  let has_prev_origins := negb (length prev =? 0) in
  let db := if has_prev_origins then db else with_origins location_hash new_origins db in
  match final_account with
  | Some account =>
      with_account location_hash
        {| info_balance := info_balance account;
           info_nonce := info_nonce account;
           info_code_hash := info_code_hash account;
           info_code := None |} db
  | None => db
  end.

(** [VmDb::basic] *)
Definition basic (vm : Vm S) (mv : MvMemory) (db : VmDb) (address : Address)
  (is_preload : bool) : outcome (result (option AccountInfo) ReadError * VmDb) :=
  if is_preload then Val (Ok None, db)
  else if db_is_maybe_lazy db && bool_decide (Some address = db_to db) then
    Val (Ok (Some {| info_nonce := 1;
                     info_balance := info_balance AccountInfo_default;
                     info_code_hash := info_code_hash AccountInfo_default;
                     info_code := info_code AccountInfo_default |}), db)
  else
    let db := if negb (address =? db_from db)%Z
                 && negb (bool_decide (Some address = db_to db))
              then with_only_read_from_and_to false db else db in
    location_hash ← VmDb_get_address_hash vm db address;
    let read_origins :=
      default [] (rs_locations (db_read_set db) !! location_hash) in
    let db := with_origins location_hash read_origins db in
    match basic_read vm mv (db_tx_idx db) address location_hash read_origins with
    | Err err => Val (Err err, db)
    | Ok (final_account, new_origins) =>
        Val (Ok final_account,
             basic_record location_hash read_origins final_account new_origins db)
    end.

(** [VmDb::code_by_hash] *)
Definition code_by_hash (vm : Vm S) (code_hash : B256) : result Bytecode ReadError :=
  map_err storage_error
    (map_ok (fun code => default Bytecode_default (Bytecode_from_code <$> code))
            (Storage.code_by_hash (vm_storage vm) code_hash)).

(** [VmDb::has_storage] *)
Definition has_storage (vm : Vm S) (address : Address) : result bool ReadError :=
  map_err storage_error (Storage.has_storage (vm_storage vm) address).

(** What [storage] reads, and the origins of the location afterwards. *)
Definition storage_read (vm : Vm S) (mv : MvMemory) (tx_idx : TxIdx) (address : Address)
  (index : U256) (location_hash : MemoryLocationHash) (read_origins : list ReadOrigin)
  : result U256 ReadError * list ReadOrigin :=
  let prev_origin := last read_origins in
  let from_storage :=
    let stored := map_err storage_error (Storage.storage (vm_storage vm) address index) in
    match prev_origin with
    | Some prev_origin =>
        if negb (bool_decide (prev_origin = OriginStorage))
        then (Err InconsistentRead, read_origins) else (stored, read_origins)
    | None => (stored, read_origins ++ [OriginStorage])
    end in
  if 0 <? tx_idx then
    match read_location location_hash mv with
    | Some written_transactions =>
        match range_rev written_transactions tx_idx with
        | (closest_idx, Data inc (ValStorage value)) :: _ =>
            let origin :=
              OriginMvMemory {| tx_idx := closest_idx; tx_incarnation := inc |} in
            match prev_origin with
            | Some prev_origin =>
                if negb (bool_decide (prev_origin = origin))
                then (Err InconsistentRead, read_origins) else (Ok value, read_origins)
            | None => (Ok value, read_origins ++ [origin])
            end
        | (closest_idx, Estimate) :: _ => (Err (BlockingIndex closest_idx), read_origins)
        | (_, Data _ _) :: _ => (Err InvalidMemoryLocationType, read_origins)
        | [] => from_storage
        end
    | None => from_storage
    end
  else from_storage.

(** [VmDb::storage] *)
Definition storage (vm : Vm S) (mv : MvMemory) (db : VmDb) (address : Address)
  (index : U256) : result U256 ReadError * VmDb :=
  let db := with_only_read_from_and_to false db in
  let location_hash := vm_hasher vm (LocStorage address index) in
  let read_origins :=
    default [] (rs_locations (db_read_set db) !! location_hash) in
  let '(r, origins) := storage_read vm mv (db_tx_idx db) address index
                                    location_hash read_origins in
  (r, with_origins location_hash origins db).

(** [VmDb::block_hash] *)
Definition block_hash (vm : Vm S) (number : U256) : result B256 ReadError :=
  map_err storage_error (Storage.block_hash (vm_storage vm) number).

(** The next call of a database program. *)
Definition db_call {R} (vm : Vm S) (mv : MvMemory) (p : DbProg ReadError R) (db : VmDb)
  : outcome (DbProg ReadError R * VmDb) :=
  match p with
  | Return r => Val (Return r, db)
  | CallBasic address is_preload k =>
      '(r, db) ← basic vm mv db address is_preload; Val (k r, db)
  | CallCodeByHash code_hash k => Val (k (code_by_hash vm code_hash), db)
  | CallHasStorage address k => Val (k (has_storage vm address), db)
  | CallStorage address index k =>
      let '(r, db) := storage vm mv db address index in Val (k r, db)
  | CallBlockHash number k => Val (k (block_hash vm number), db)
  end.

(** Run a database program on the database of one execution; the memory at the
    [i]-th call is [mvs i]. *)
Fixpoint run_db {R} (vm : Vm S) (mvs : nat -> MvMemory) (p : DbProg ReadError R)
  (calls : nat) (db : VmDb) : outcome (R * VmDb) :=
  match p with
  | Return r => Val (r, db)
  | CallBasic address is_preload k =>
      '(r, db) ← basic vm (mvs calls) db address is_preload;
      run_db vm mvs (k r) (calls + 1) db
  | CallCodeByHash code_hash k =>
      run_db vm mvs (k (code_by_hash vm code_hash)) (calls + 1) db
  | CallHasStorage address k =>
      run_db vm mvs (k (has_storage vm address)) (calls + 1) db
  | CallStorage address index k =>
      let '(r, db) := storage vm (mvs calls) db address index in
      run_db vm mvs (k r) (calls + 1) db
  | CallBlockHash number k =>
      run_db vm mvs (k (block_hash vm number)) (calls + 1) db
  end.

(** [execute_tx] *)
Definition execute_tx {E} (chain : u64) (spec_id : SpecId) (block_env : BlockEnv)
  (tx : TxEnv) (with_reward_beneficiary : bool)
  : DbProg E (result ResultAndState (EVMError E)) :=
  transact E chain spec_id block_env tx with_reward_beneficiary.

(** ** Rewards *)

(** The [RewardPolicy::Ethereum] arm: the price paid to the beneficiary. *)
Definition effective_gas_price (vm : Vm S) (tx : TxEnv) : U256 :=
  let basefee := be_basefee (vm_block_env vm) in
  let gas_price :=
    match te_gas_priority_fee tx with
    | Some priority_fee => Z.min (te_gas_price tx) (u256_add priority_fee basefee)
    | None => te_gas_price tx
    end in
  if is_enabled_in (vm_spec_id vm) LONDON
  then u256_saturating_sub gas_price basefee else gas_price.

Definition rewards (vm : Vm S) (tx : TxEnv) (gas_used : U256)
  : list (MemoryLocationHash * U256) :=
  match vm_reward_policy vm with
  | Ethereum => [(vm_beneficiary_location_hash vm,
                  u256_mul (effective_gas_price vm tx) gas_used)]
  end.

(** Add a reward to the first entry of the recipient's location, or push a
    lazy addition when there is none. *)
Fixpoint apply_reward (recipient : MemoryLocationHash) (amount : U256)
  (write_set : WriteSet) : outcome WriteSet :=
  match write_set with
  | [] => Val [(recipient, ValLazyBalanceAddition amount)]
  | (location, value) :: rest =>
      if (location =? recipient)%Z then
        match value with
        | ValBasic info => Val ((location, ValBasic (info_add_balance amount info)) :: rest)
        | ValLazyBalanceAddition addition =>
            Val ((location, ValLazyBalanceAddition (u256_add addition amount)) :: rest)
        | ValStorage _ => Fault Unreachable
        end
      else
        rest ← apply_reward recipient amount rest;
        Val ((location, value) :: rest)
  end.

Fixpoint apply_reward_list (rs : list (MemoryLocationHash * U256)) (write_set : WriteSet)
  : outcome WriteSet :=
  match rs with
  | [] => Val write_set
  | (recipient, amount) :: rs =>
      write_set ← apply_reward recipient amount write_set;
      apply_reward_list rs write_set
  end.

Definition apply_rewards (vm : Vm S) (write_set : WriteSet) (tx : TxEnv) (gas_used : U256)
  : outcome WriteSet :=
  apply_reward_list (rewards vm tx gas_used) write_set.

(** ** Executing a transaction *)

(** The write-set entries of one account of the resulting state. *)
Definition account_writes (vm : Vm S) (tx : TxEnv) (to : option Address)
  (is_maybe_lazy : bool) (read_accounts : gmap MemoryLocationHash AccountInfo)
  (address : Address) (account : Account) : WriteSet :=
  if acc_is_selfdestructed account then
    [(get_address_hash vm address, ValBasic AccountInfo_default)]
  else
    let account_location_hash := get_address_hash vm address in
    let unchanged :=
      match read_accounts !! account_location_hash with
      | Some info => AccountInfo_eqb info (acc_info account)
      | None => false
      end in
    (if acc_is_touched account && negb unchanged then
       [(account_location_hash,
         if is_maybe_lazy && bool_decide (Some address = to)
            && is_empty_code_hash (acc_info account)
         then ValLazyBalanceAddition (te_value tx)
         else ValBasic (acc_info account))]
     else [])
    ++ map (fun '(slot, value) =>
              (vm_hasher vm (LocStorage address slot),
               ValStorage (slot_present_value value)))
           (changed_storage_slots account).

Definition write_set_of (vm : Vm S) (tx : TxEnv) (to : option Address)
  (is_maybe_lazy : bool) (read_accounts : gmap MemoryLocationHash AccountInfo)
  (accounts : list (Address * Account)) : WriteSet :=
  flat_map (fun '(address, account) =>
              account_writes vm tx to is_maybe_lazy read_accounts address account)
           accounts.

(** From which transaction to validate after this execution. *)
Definition next_validation (vm : Vm S) (tx_idx : TxIdx) (only_read_from_and_to is_create_tx : bool)
  (from_hash : MemoryLocationHash) (to_hash : option MemoryLocationHash)
  (write_set : WriteSet) : option TxIdx :=
  if tx_idx =? 0 then None
  else if negb only_read_from_and_to then Some tx_idx
  else if is_create_tx
          || existsb (fun '(location_hash, _) =>
                        negb (location_hash =? from_hash)%Z
                        && negb (bool_decide (Some location_hash = to_hash))
                        && negb (location_hash =? vm_beneficiary_location_hash vm)%Z)
                     write_set
  then Some (tx_idx + 1)
  else None.

(** The results of a run that did not succeed. *)
Definition execution_failure (tx_idx : TxIdx) (err : ExecutionError) : VmExecutionResult :=
  match err with
  | EvmDatabase InconsistentRead => VmRetry
  | EvmDatabase (BlockingIndex blocking_tx_idx) => VmReadError blocking_tx_idx
  | EvmTransaction (LackOfFundForMaxFee _ _) =>
      if 0 <? tx_idx then VmReadError (tx_idx - 1) else VmExecutionError err
  | _ => VmExecutionError err
  end.

(** [storage.is_contract(to).unwrap()] *)
Definition is_contract_unwrap (vm : Vm S) (to : Address) : outcome bool :=
  match is_contract (vm_storage vm) to with
  | Ok b => Val b
  | Err _ => Fault UnwrapFailed
  end.

Definition maybe_lazy (vm : Vm S) (from : Address) (to : option Address) : outcome bool :=
  if bool_decide (Some from = to) then Val false
  else match to with
       | Some to => b ← is_contract_unwrap vm to; Val (negb b)
       | None => Val false
       end.

(** The local variables of [execute]. *)
Record Execution : Type := {
  ex_tx_idx : TxIdx;
  ex_tx : TxEnv;
  ex_from_hash : MemoryLocationHash;
  ex_is_create_tx : bool;
  ex_to : option Address;
  ex_to_hash : option MemoryLocationHash;
  ex_is_maybe_lazy : bool;
}.

(** Up to the call of [execute_tx]. *)
Definition begin_execution (vm : Vm S) (tx_idx : TxIdx) : outcome (Execution * VmDb) :=
  tx ← vec_get (vm_txs vm) tx_idx;
  let from := te_caller tx in
  let from_hash := get_address_hash vm from in
  let '(is_create_tx, to, to_hash) :=
    match te_transact_to tx with
    | Call address => (false, Some address, Some (get_address_hash vm address))
    | Create => (true, None, None)
    end in
  is_maybe_lazy ← maybe_lazy vm from to;
  Val ({| ex_tx_idx := tx_idx; ex_tx := tx; ex_from_hash := from_hash;
          ex_is_create_tx := is_create_tx; ex_to := to; ex_to_hash := to_hash;
          ex_is_maybe_lazy := is_maybe_lazy |},
       VmDb_new tx_idx from from_hash to to_hash is_maybe_lazy).

(** The program that [execute] runs on its database. *)
Definition execution_program (vm : Vm S) (ex : Execution)
  : DbProg ReadError (result ResultAndState ExecutionError) :=
  execute_tx (vm_chain vm) (vm_spec_id vm) (vm_block_env vm) (ex_tx ex) false.

(** From the result of [execute_tx] on. *)
Definition end_execution (vm : Vm S) (ex : Execution) (db : VmDb)
  (r : result ResultAndState ExecutionError) : outcome VmExecutionResult :=
  match r with
  | Ok result_and_state =>
      let write_set := write_set_of vm (ex_tx ex) (ex_to ex) (ex_is_maybe_lazy ex)
                         (rs_accounts (db_read_set db)) (ras_state result_and_state) in
      write_set ← apply_rewards vm write_set (ex_tx ex)
                    (er_gas_used (ras_result result_and_state));
      let next_validation_idx :=
        next_validation vm (ex_tx_idx ex) (db_only_read_from_and_to db)
                        (ex_is_create_tx ex) (ex_from_hash ex) (ex_to_hash ex) write_set in
      execution_result ← from_revm (vm_spec_id vm) result_and_state;
      Val (VmOk execution_result (rs_locations (db_read_set db)) write_set
                next_validation_idx)
  | Err err => Val (execution_failure (ex_tx_idx ex) err)
  end.

(** [Vm::execute] *)
Definition execute (vm : Vm S) (mvs : nat -> MvMemory) (tx_idx : TxIdx)
  : outcome VmExecutionResult :=
  '(ex, db) ← begin_execution vm tx_idx;
  '(r, db) ← run_db vm mvs (execution_program vm ex) 0 db;
  end_execution vm ex db r.
End vm.
