(* ===== verification/Accounts.v ===== *)
(** * Accounts: theorems on accounts, their storage and their conversions

    The round trip between the accounts of Pevm and those of revm, what the
    in-memory storage answers, and the state transitions reported for a
    transaction ([PevmTxExecutionResult::from_revm]). *)

From Stdlib Require Import ZArith Lia.
From stdpp Require Import base list gmap strings.
From S2P Require Import Prelude Types Revm Storage Sample Vm.

(** ** Maps built from lists *)

(** The last value that a list of pairs gives to a key. *)
Definition last_value {V} (k : Z) (l : list (Z * V)) : option V :=
  snd <$> last (filter (fun p => p.1 = k) l).

Lemma collect_map_lookup {V W} (f : V -> W) (l : list (Z * V)) k :
  (foldl (fun m '(k, v) => <[k := f v]> m) ∅ l : gmap Z W) !! k = f <$> last_value k l.
Proof.
  unfold last_value. induction l as [|[k' v] l IH] using rev_ind; [done|].
  rewrite foldl_app, filter_app. simpl. destruct (decide (k' = k)) as [->|Hk].
  - rewrite lookup_insert_eq, filter_cons_True, filter_nil by done. by rewrite last_snoc.
  - rewrite lookup_insert_ne, IH, filter_cons_False, filter_nil by done. by rewrite app_nil_r.
Qed.

Lemma collect_lookup {V} (l : list (Z * V)) k :
  (foldl (fun m '(k, v) => <[k := v]> m) ∅ l : gmap Z V) !! k = last_value k l.
Proof. rewrite (collect_map_lookup id). by destruct (last_value k l). Qed.

Section accounts.
Context `{Revm}.

(** ** In-memory storage *)

(** C34. The in-memory storage answers from the last account (converted) and the
    last hash it was given for a key: balances, nonces and code for existing accounts, no
    contract, no storage and zero slots for the others, and the hash of the
    decimal number for unknown blocks; a code found by its hash is the code of
    an account with that hash, and it is not found only when there is none. *)
Theorem in_memory_storage_answers {A} (into : A -> EvmAccount) accounts block_hashes a i n h :
  let s := InMemoryStorage_new into accounts block_hashes in
  let account := into <$> last_value a accounts in
  Storage.basic s a = Ok (ea_basic <$> account) /\
  Storage.is_contract s a =
    Ok (bool_decide (is_Some (account ≫= fun account => ab_code (ea_basic account)))) /\
  Storage.has_storage s a = Ok (bool_decide (default ∅ (ea_storage <$> account) <> ∅)) /\
  Storage.storage s a i = Ok (default 0%Z (default ∅ (ea_storage <$> account) !! i)) /\
  Storage.block_hash s n = Ok (default (keccak256 (decimal_bytes n)) (last_value n block_hashes)) /\
  exists found, Storage.code_by_hash s h = Ok found /\
    match found with
    | Some code => exists a account, into <$> last_value a accounts = Some account /\
        ab_code_hash (ea_basic account) = Some h /\ ab_code (ea_basic account) = Some code
    | None => forall a account, into <$> last_value a accounts = Some account ->
        ab_code_hash (ea_basic account) = Some h ->
        exists a' account', into <$> last_value a' accounts = Some account' /\
          ab_code_hash (ea_basic account') = Some h /\ ab_code (ea_basic account') = None
    end.
Proof.
  intros s account.
  assert (forall a, im_accounts s !! a = into <$> last_value a accounts) as Hacc
    by apply collect_map_lookup.
  simpl. unfold im_basic, im_is_contract, im_has_storage, im_storage, im_block_hash,
    im_code_by_hash. rewrite !Hacc. fold account. split_and!.
  - done.
  - by destruct account.
  - f_equal. destruct account as [x|]; simpl; [|done]. by repeat case_bool_decide.
  - by destruct account.
  - unfold s. simpl. by rewrite collect_lookup.
  - eexists. split; [done|]. destruct (list_find _ _) as [[k [a' x]]|] eqn:Hf.
    + apply list_find_Some in Hf as (Hin%list_elem_of_lookup_2%elem_of_map_to_list & Hh & _).
      rewrite Hacc in Hin. destruct (ab_code (ea_basic x)) eqn:Hc; eauto 10.
    + intros a' x Hx Hh. apply list_find_None in Hf. rewrite Forall_forall in Hf.
      rewrite <-Hacc, <-elem_of_map_to_list in Hx. by destruct (Hf _ Hx).
Qed.

(** ** Conversions *)

Section laws.
Context `{!RevmLaws}.

(** An account as the sources build it: code comes with its hash, and is not
    empty. *)
Definition account_wf (account : AccountBasic) : Prop :=
  match ab_code account, ab_code_hash account with
  | Some code, Some _ => Bytecode_is_empty (Bytecode_from_code code) = false
  | None, None => True
  | _, _ => False
  end.

(** An account survives the conversion to revm's and back. *)
Lemma account_basic_roundtrip account :
  account_wf account -> AccountBasic_from_info (AccountInfo_from_basic account) = Val account.
Proof.
  destruct account as [balance nonce [code|] [hash|]]; unfold account_wf; simpl; try done.
  - intros Hc. unfold AccountBasic_from_info. simpl. rewrite Hc. by destruct code.
  - intros _. unfold AccountBasic_from_info. simpl. by rewrite Bytecode_default_is_empty.
Qed.

(** C33. An account with its storage, converted to revm's account and back: the
    conversion never panics and keeps the balance, the nonce, the storage and the
    code unless it is empty; the hash comes back exactly with the code (computed
    when there was none).  So the account survives unchanged exactly when it is
    well formed: an account with a hash but no code loses the hash, one with code
    but no hash gains it, and one with empty code loses the code. *)
Theorem plain_account_roundtrip account :
  exists account',
    EvmAccount_from_plain (PlainAccount_from_account account) = Val account' /\
    ea_storage account' = ea_storage account /\
    ab_balance (ea_basic account') = ab_balance (ea_basic account) /\
    ab_nonce (ea_basic account') = ab_nonce (ea_basic account) /\
    (forall code, ab_code (ea_basic account') = Some code <->
       ab_code (ea_basic account) = Some code /\
       Bytecode_is_empty (Bytecode_from_code code) = false) /\
    ab_code_hash (ea_basic account') =
      (code ← ab_code (ea_basic account');
       Some (default (hash_slow (Bytecode_from_code code)) (ab_code_hash (ea_basic account)))) /\
    (account' = account <-> account_wf (ea_basic account)).
Proof.
  unfold EvmAccount_from_plain, AccountBasic_from_info, account_wf. simpl.
  destruct account as [[balance nonce [code|] hash] slots]; simpl.
  - destruct (Bytecode_is_empty (Bytecode_from_code code)) eqn:He; simpl.
    + eexists. split_and!; try done; simpl.
      * intros c. split; [done|]. intros [[= <-] ?]. congruence.
      * destruct hash; split; intros; simplify_eq; done.
    + destruct code. eexists. split_and!; try done; simpl.
      * intros c. split; [by intros [= <-]|by intros [[= <-] _]].
      * destruct hash; split; intros; simplify_eq; done.
  - rewrite Bytecode_default_is_empty. eexists. split_and!; try done; simpl.
    + intros c. split; [done|by intros [? _]].
    + destruct hash; split; intros; simplify_eq; done.
Qed.

(** Only the unsupported format makes the conversion of an account panic. *)
Lemma AccountBasic_from_info_outcome info :
  match AccountBasic_from_info info with
  | Val b => ab_balance b = info_balance info /\ ab_nonce b = info_nonce info
  | Fault f => f = Unimplemented /\ exists raw, info_code info = Some (Eof raw)
  end.
Proof.
  unfold AccountBasic_from_info. destruct (info_code info) as [code|]; [|done].
  destruct (Bytecode_is_empty code); [done|].
  destruct code as [bs|code|raw]; simpl; eauto.
  unfold EvmCode_from_bytecode. simpl. by destruct (to_analysed_raw bs) as [code ->].
Qed.

(** ** The state transitions of a transaction *)

(** Removed by the transaction: by itself, or as empty (EIP-161). *)
Definition removed (spec_id : SpecId) (account : Account) : bool :=
  acc_is_selfdestructed account
  || (Account_is_empty account && is_enabled_in spec_id SPURIOUS_DRAGON).

(** What the transaction's result says of a touched account. *)
Definition reported (spec_id : SpecId) (account : Account) (o : option EvmAccount) : Prop :=
  if removed spec_id account then o = None
  else exists a, o = Some a /\
    ab_balance (ea_basic a) = info_balance (acc_info account) /\
    ab_nonce (ea_basic a) = info_nonce (acc_info account) /\
    forall k, ea_storage a !! k = slot_present_value <$> last_value k (acc_storage account).

Definition unsupported (account : Account) : Prop :=
  acc_is_touched account = true /\ exists raw, info_code (acc_info account) = Some (Eof raw).

Lemma from_revm_account_outcome spec_id account :
  match from_revm_account spec_id account with
  | Val o => reported spec_id account o
  | Fault f => f = Unimplemented /\ exists raw, info_code (acc_info account) = Some (Eof raw)
  end.
Proof.
  unfold from_revm_account, reported, removed. destruct (_ || _); [done|].
  unfold EvmAccount_from_account.
  pose proof (AccountBasic_from_info_outcome (acc_info account)) as Hb.
  destruct (AccountBasic_from_info _) as [b|f]; simpl; [|done].
  destruct Hb. eexists. split_and!; try done. intros k. simpl. apply collect_map_lookup.
Qed.

Lemma from_revm_state_outcome spec_id accounts acc :
  match from_revm_state spec_id accounts acc with
  | Val m => forall a,
      match last_value a (filter (fun p => acc_is_touched p.2 = true) accounts) with
      | Some account => exists o, m !! a = Some o /\ reported spec_id account o
      | None => m !! a = acc !! a
      end
  | Fault f => f = Unimplemented /\ exists a account, (a, account) ∈ accounts /\ unsupported account
  end.
Proof.
  revert acc. induction accounts as [|[a x] accounts IH]; intros acc; simpl; [done|].
  destruct (acc_is_touched x) eqn:Htouched.
  - pose proof (from_revm_account_outcome spec_id x) as Hx.
    destruct (from_revm_account spec_id x) as [o|f]; simpl.
    + specialize (IH (<[a := o]> acc)). destruct (from_revm_state _ _ _) as [m|f].
      * intros b. rewrite filter_cons_True by done. specialize (IH b). revert IH.
        unfold last_value. destruct (decide (a = b)) as [->|Hab].
        -- rewrite (filter_cons_True _ (b, x)) by done. rewrite last_cons.
           destruct (last _) as [[]|]; simpl; [done|]. rewrite lookup_insert_eq. eauto.
        -- rewrite (filter_cons_False _ (a, x)) by done. by rewrite lookup_insert_ne.
      * destruct IH as (-> & b & y & ? & ?). split; [done|]. exists b, y. set_solver.
    + destruct Hx as [-> Hx]. split; [done|]. exists a, x. split; [set_solver|]. by split.
  - specialize (IH acc). destruct (from_revm_state _ _ _) as [m|f].
    + intros b. rewrite filter_cons_False by (simpl; congruence). apply IH.
    + destruct IH as (-> & b & y & ? & ?). split; [done|]. exists b, y. set_solver.
Qed.

(** C31. The result reported for a transaction: the receipt has revm's status,
    gas and logs; the state has the touched accounts and no others, [None] for
    those that self-destructed or are empty since Spurious Dragon, and otherwise
    the new balance, nonce and the present value of every slot; the only panic
    is on bytecode in the unsupported EOF format. *)
Theorem from_revm_correct spec_id ras :
  match from_revm spec_id ras with
  | Val r =>
      rc_status (receipt r) = er_is_success (ras_result ras) /\
      rc_cumulative_gas_used (receipt r) = er_gas_used (ras_result ras) /\
      rc_logs (receipt r) = er_logs (ras_result ras) /\
      forall a,
        match last_value a (filter (fun p => acc_is_touched p.2 = true) (ras_state ras)) with
        | Some account => exists o, state r !! a = Some o /\ reported spec_id account o
        | None => state r !! a = None
        end
  | Fault f =>
      f = Unimplemented /\ exists a account, (a, account) ∈ ras_state ras /\ unsupported account
  end.
Proof.
  unfold from_revm. pose proof (from_revm_state_outcome spec_id (ras_state ras) ∅) as Hs.
  destruct (from_revm_state _ _ _) as [m|f]; simpl; [|done]. split_and!; try done.
Qed.
End laws.
End accounts.

(** A removed account, a kept one and an untouched one. *)
Lemma from_revm_correct_witness :
  let account b touched :=
    {| acc_info := {| info_balance := b; info_nonce := 0; info_code_hash := 0;
                      info_code := None |};
       acc_storage := [(1%Z, {| slot_original_value := 0; slot_present_value := 9 |})];
       acc_is_touched := touched; acc_is_selfdestructed := false |} in
  let ras := receipt_21000 [(1%Z, account 0%Z true); (2%Z, account 5%Z true);
                            (3%Z, account 5%Z false)] in
  exists r, from_revm CANCUN ras = Val r /\
    forall a,
      match last_value a (filter (fun p => acc_is_touched p.2 = true) (ras_state ras)) with
      | Some account => exists o, state r !! a = Some o /\ reported CANCUN account o
      | None => state r !! a = None
      end.
Proof.
  intros account ras. pose proof (from_revm_correct CANCUN ras) as Hr.
  destruct (from_revm CANCUN ras) as [r|f] eqn:E.
  - exists r. split; [reflexivity|]. apply Hr.
  - vm_compute in E. discriminate.
Defined.

(** An account with a hash but no code loses the hash. *)
Lemma plain_account_roundtrip_witness :
  let account := {| ea_basic := {| ab_balance := 5; ab_nonce := 1; ab_code := None;
                                   ab_code_hash := Some 7%Z |};
                    ea_storage := {[1%Z := 9%Z]} |} in
  exists account',
    EvmAccount_from_plain (PlainAccount_from_account account) = Val account' /\
    ea_storage account' = ea_storage account /\ ab_code_hash (ea_basic account') = None.
Proof.
  intros account. destruct (plain_account_roundtrip account)
    as (account' & Hrun & Hs & _ & _ & Hcode & Hhash & _).
  exists account'. split_and!; [exact Hrun|exact Hs|]. rewrite Hhash.
  destruct (ab_code (ea_basic account')) as [code|] eqn:E; [|reflexivity].
  destruct (proj1 (Hcode code) eq_refl) as [Hnone _]. discriminate.
Defined.
