(* ===== verification/Database.v ===== *)
(** * Database: revm databases as storages ([src/storage.rs])

    Any revm [DatabaseRef] is a storage (the blanket implementation of
    [Storage]), and any storage is a revm database (through [StorageWrapper]).
    The conversion of code from revm panics on the EOF format, so the answers of
    the blanket implementation are outcomes. *)

From Stdlib Require Import ZArith Lia.
From stdpp Require Import base list gmap strings.
From S2P Require Import Prelude Types Revm Storage Sample Accounts.

(** revm's [DatabaseRef]. *)
Class DatabaseRef (D : Type) : Type := {
  DbError : Type;
  db_basic_ref : D -> Address -> result (option AccountInfo) DbError;
  db_code_by_hash_ref : D -> B256 -> result Bytecode DbError;
  db_has_storage_ref : D -> Address -> result bool DbError;
  db_storage_ref : D -> Address -> U256 -> result U256 DbError;
  db_block_hash_ref : D -> U256 -> result B256 DbError;
}.

(** ** The blanket implementation of [Storage] *)

Section blanket.
Context `{Revm} {D : Type} `{DatabaseRef D}.
Implicit Types (d : D).

Definition db_basic d (address : Address) : outcome (result (option AccountBasic) DbError) :=
  match db_basic_ref d address with
  | Ok (Some info) => account ← AccountBasic_from_info info; Val (Ok (Some account))
  | Ok None => Val (Ok None)
  | Err e => Val (Err e)
  end.

(** The trait's default implementation. *)
Definition db_is_contract d (address : Address) : outcome (result bool DbError) :=
  account ← db_basic d address; Val (is_contract_of_basic account).

Definition db_code_by_hash d (code_hash : B256) : outcome (result (option EvmCode) DbError) :=
  match db_code_by_hash_ref d code_hash with
  | Ok bytecode =>
      if Bytecode_is_empty bytecode then Val (Ok None)
      else code ← EvmCode_from_bytecode bytecode; Val (Ok (Some code))
  | Err e => Val (Err e)
  end.

Definition db_has_storage d (address : Address) : result bool DbError :=
  db_has_storage_ref d address.

Definition db_storage d (address : Address) (index : U256) : result U256 DbError :=
  db_storage_ref d address index.

Definition db_block_hash d (number : U256) : result B256 DbError :=
  db_block_hash_ref d number.
End blanket.

(** ** A storage as a revm database *)

Record StorageWrapper (S : Type) : Type := { wrapped : S }.
Arguments wrapped {S} _.

#[export] Instance StorageWrapper_database `{Revm} {S : Type} `{Storage S}
  : DatabaseRef (StorageWrapper S) := {|
  DbError := Error;
  db_basic_ref := fun w => basic_ref (wrapped w);
  db_code_by_hash_ref := fun w => code_by_hash_ref (wrapped w);
  db_has_storage_ref := fun w => has_storage_ref (wrapped w);
  db_storage_ref := fun w => storage_ref (wrapped w);
  db_block_hash_ref := fun w => block_hash_ref (wrapped w);
|}.

(** ** Theorems *)

Section laws.
Context `{RevmLaws}.

(** An account whose code a database leaves to [code_by_hash] is no contract to
    Pevm: with the code, its hash is dropped. *)
Lemma database_code_dropped {D : Type} `{DatabaseRef D} (d : D) a info :
  db_basic_ref d a = Ok (Some info) -> info_code info = None ->
  db_is_contract d a = Val (Ok false) /\
  exists account, db_basic d a = Val (Ok (Some account)) /\ ab_code_hash account = None.
Proof.
  intros Hd Hc. unfold db_is_contract, db_basic. rewrite Hd. unfold AccountBasic_from_info.
  rewrite Hc. simpl. split; [done|]. by eexists.
Qed.

(** The only panic is on the unsupported format. *)
Lemma EvmCode_from_bytecode_outcome code :
  match EvmCode_from_bytecode code with
  | Val _ => forall raw, code <> Eof raw
  | Fault f => f = Unimplemented /\ exists raw, code = Eof raw
  end.
Proof.
  unfold EvmCode_from_bytecode. destruct code as [bs|code|raw]; simpl; [|done|eauto].
  by destruct (to_analysed_raw bs) as [code ->].
Qed.

(** What a revm database becomes as a storage: balances and nonces are the
    database's, an account has code exactly when the database inlines code that
    is not empty, and the hash exactly when it has code; code found by hash is
    never empty; and a query panics only on code in the EOF format. *)
Lemma database_storage_answers {D : Type} `{DatabaseRef D} (d : D) a h :
  match db_basic d a with
  | Val (Ok (Some account)) => exists info, db_basic_ref d a = Ok (Some info) /\
      ab_balance account = info_balance info /\ ab_nonce account = info_nonce info /\
      (is_Some (ab_code account) <->
         exists code, info_code info = Some code /\ Bytecode_is_empty code = false) /\
      ab_code_hash account = (_ ← ab_code account; Some (info_code_hash info))
  | Val (Ok None) => db_basic_ref d a = Ok None
  | Val (Err e) => db_basic_ref d a = Err e
  | Fault f => f = Unimplemented /\ exists info raw,
      db_basic_ref d a = Ok (Some info) /\ info_code info = Some (Eof raw)
  end /\
  match db_code_by_hash d h with
  | Val (Ok (Some code)) => exists bytecode, db_code_by_hash_ref d h = Ok bytecode /\
      Bytecode_is_empty bytecode = false
  | Val (Ok None) => exists bytecode, db_code_by_hash_ref d h = Ok bytecode /\
      Bytecode_is_empty bytecode = true
  | Val (Err e) => db_code_by_hash_ref d h = Err e
  | Fault f => f = Unimplemented /\ exists raw, db_code_by_hash_ref d h = Ok (Eof raw)
  end.
Proof.
  split.
  - unfold db_basic. destruct (db_basic_ref d a) as [[info|]|]; [|done..].
    unfold AccountBasic_from_info. destruct (info_code info) as [code|] eqn:Hc; simpl.
    2: { exists info. split_and!; try done. split; [by intros []|]. intros (? & ? & _). congruence. }
    destruct (Bytecode_is_empty code) eqn:He; simpl.
    { exists info. split_and!; try done. split; [by intros []|]. intros (? & ? & ?). congruence. }
    pose proof (EvmCode_from_bytecode_outcome code) as Ho.
    destruct (EvmCode_from_bytecode code) as [c|f]; simpl.
    + exists info. split_and!; try done. split; [|by eauto]. intros _. by exists code.
    + destruct Ho as [-> [raw ->]]. split; [done|]. by exists info, raw.
  - unfold db_code_by_hash. destruct (db_code_by_hash_ref d h) as [code|]; [|done].
    destruct (Bytecode_is_empty code) eqn:He; [by exists code|].
    pose proof (EvmCode_from_bytecode_outcome code) as Ho.
    destruct (EvmCode_from_bytecode code) as [c|f]; simpl; [by exists code|].
    destruct Ho as [-> [raw ->]]. split; [done|]. by exists raw.
Qed.

(** C32. A storage seen through [StorageWrapper] and back through the blanket
    implementation answers every query as itself, errors included, and nothing
    panics: for accounts whose code comes with its hash and is not empty, for
    code that is not empty when it is found, and for a storage whose
    [is_contract], if it is its own, agrees with the trait's default one. *)
Theorem storage_wrapper_roundtrip {S : Type} `{StorageLaws S} (s : S) a i h n :
  (forall account, Storage.basic s a = Ok (Some account) -> account_wf account) ->
  (forall code, Storage.code_by_hash s h = Ok (Some code) ->
     Bytecode_is_empty (Bytecode_from_code code) = false) ->
  let w := {| wrapped := s |} in
  db_basic w a = Val (Storage.basic s a) /\
  db_is_contract w a = Val (Storage.is_contract s a) /\
  db_code_by_hash w h = Val (Storage.code_by_hash s h) /\
  db_has_storage w a = Storage.has_storage s a /\
  db_storage w a i = Storage.storage s a i /\
  db_block_hash w n = Storage.block_hash s n.
Proof.
  intros Ha Hh w.
  assert (db_basic w a = Val (Storage.basic s a)) as Hb.
  { unfold db_basic. simpl. unfold basic_ref.
    destruct (Storage.basic s a) as [[account|]|]; simpl; try done.
    by rewrite account_basic_roundtrip by by apply Ha. }
  split_and!; [done|unfold db_is_contract; rewrite Hb, is_contract_spec; done| |done..].
  unfold db_code_by_hash. simpl. unfold code_by_hash_ref.
  destruct (Storage.code_by_hash s h) as [[code|]|]; simpl; [|by rewrite Bytecode_default_is_empty|done].
  rewrite Hh by done. by destruct code.
Qed.
End laws.

(** ** Witness: a contract and its code *)

Definition database_code : EvmCode :=
  {| ec_bytecode := [96%Z; 0%Z]; ec_original_len := 1; ec_jump_table := [false] |}.

Definition database_sample : InMemoryStorage :=
  InMemoryStorage_new id
    [(5%Z, {| ea_basic := {| ab_balance := 100; ab_nonce := 1; ab_code := Some database_code;
                             ab_code_hash := Some 42%Z |};
              ea_storage := {[1%Z := 2%Z]} |})] [].

Lemma storage_wrapper_roundtrip_witness :
  let w := {| wrapped := database_sample |} in
  Storage.code_by_hash database_sample 42 = Ok (Some database_code) /\
  db_basic w 5 = Val (Storage.basic database_sample 5) /\
  db_is_contract w 5 = Val (Storage.is_contract database_sample 5) /\
  db_code_by_hash w 42 = Val (Storage.code_by_hash database_sample 42) /\
  db_has_storage w 5 = Storage.has_storage database_sample 5 /\
  db_storage w 5 1 = Storage.storage database_sample 5 1 /\
  db_block_hash w 7 = Storage.block_hash database_sample 7.
Proof.
  intros w. split; [vm_compute; reflexivity|].
  apply (storage_wrapper_roundtrip database_sample 5 1 42 7).
  - intros account Ha. vm_compute in Ha. injection Ha as <-. reflexivity.
  - intros code Hc. vm_compute in Hc. injection Hc as <-. reflexivity.
Defined.
