(* ===== verification/Workers.v ===== *)
(** * Workers: the worker threads of a block ([src/pevm.rs])

    [execute_revm] starts threads that loop over tasks: they take one from the
    scheduler, execute or validate a transaction ([try_execute],
    [try_validate]) and continue with the task the scheduler hands back.  A
    worker is a program counter over the calls it makes on shared state, one
    step per call: the scheduler, the multi-version memory, the vector of
    results and the error cell.  An execution reads the memory as it is at each
    of its database calls.  Threads interleave at these steps.

    The workers are verified against an interface of the virtual machine
    ([VmOps], [VmContract]) that [VmCorrect] implements. *)

From stdpp Require Import base list gmap.
From Stdlib Require Import ZArith Lia.
From S2P Require Import Prelude Types MvMemory Scheduler SchedulerInv Revm Storage Vm.

(** ** The interface of the virtual machine *)

(** An execution starts, makes calls that read the current memory, and ends
    with a result. *)
Class VmOps : Type := {
  Exec : Type;
  vm_start : TxIdx -> outcome Exec;
  vm_step : MvMemory -> Exec -> outcome (Exec + VmExecutionResult);
}.

(** What the workers rely on, for a result of transaction [i]; [lazy] is the
    location that every transaction writes, and [typed] what values a location
    may hold. *)
Definition result_ok (typed : MemoryLocationHash -> MemoryValue -> Prop)
  (lazy : MemoryLocationHash) (i : TxIdx) (r : VmExecutionResult) : Prop :=
  match r with
  | VmRetry | VmExecutionError _ => True
  | VmReadError b => b < i
  | VmOk _ reads ws nv =>
      lazy ∈ map fst ws /\
      (forall loc origins, reads !! loc = Some origins -> origins_wf origins) /\
      (forall k, nv = Some k -> k = i \/ k = S i) /\
      (forall loc v, (loc, v) ∈ ws -> typed loc v)
  end.

Class VmContract `{VmOps} (n : nat) (lazy : MemoryLocationHash) : Type := {
  typed : MemoryLocationHash -> MemoryValue -> Prop;
  exec_inv : TxIdx -> Exec -> Prop;
  vm_start_inv : forall i e, i < n -> vm_start i = Val e -> exec_inv i e;
  vm_step_inv : forall i mv e e', exec_inv i e -> vm_step mv e = Val (inl e') -> exec_inv i e';
  vm_step_result : forall i mv e r,
    exec_inv i e -> vm_step mv e = Val (inr r) -> result_ok typed lazy i r;
}.

(** ** The shared state *)

Record Shared : Type := {
  sh_scheduler : Scheduler;
  sh_memory : MvMemory;
  execution_results : list (option PevmTxExecutionResult);
  execution_error : option ExecutionError;
}.

Definition with_scheduler (s : Scheduler) (sh : Shared) : Shared :=
  {| sh_scheduler := s; sh_memory := sh_memory sh;
     execution_results := execution_results sh; execution_error := execution_error sh |}.

Definition with_memory (mv : MvMemory) (sh : Shared) : Shared :=
  {| sh_scheduler := sh_scheduler sh; sh_memory := mv;
     execution_results := execution_results sh; execution_error := execution_error sh |}.

Definition with_results (l : list (option PevmTxExecutionResult)) (sh : Shared) : Shared :=
  {| sh_scheduler := sh_scheduler sh; sh_memory := sh_memory sh;
     execution_results := l; execution_error := execution_error sh |}.

Definition with_error (err : ExecutionError) (sh : Shared) : Shared :=
  {| sh_scheduler := sh_scheduler sh; sh_memory := sh_memory sh;
     execution_results := execution_results sh; execution_error := Some err |}.

(** ** The workers *)

Section workers.
Context `{VmOps}.

(** The next call of a worker, with the values it holds. *)
Inductive worker : Type :=
(* in [scheduler.next_task] *)
| WNext
(* in [try_execute] *)
| WExecute (v : TxVersion)
| WRun (v : TxVersion) (e : Exec)
| WAddDependency (v : TxVersion) (blocking_tx_idx : TxIdx)
| WSetError (v : TxVersion) (err : ExecutionError)
| WStoreResult (v : TxVersion) (r : PevmTxExecutionResult) (reads : ReadLocations)
    (ws : WriteSet) (nv : option TxIdx)
| WRecord (v : TxVersion) (reads : ReadLocations) (ws : WriteSet) (nv : option TxIdx)
| WFinishExecution (v : TxVersion) (wrote_new_location : bool) (nv : option TxIdx)
(* in [try_validate] *)
| WValidate (v : TxVersion)
| WTryAbort (v : TxVersion)
| WConvert (v : TxVersion)
| WFinishValidation (v : TxVersion) (aborted : bool)
(* after the task, before the next one *)
| WCheckError (next : option Task)
| WDone
| WPanicked (f : fault).

(** The body of the loop on a task. *)
Definition start_task (task : Task) : worker :=
  match task with
  | ExecutionTask v => WExecute v
  | ValidationTask v => WValidate v
  end.

(** What [try_execute] does with a result of the virtual machine. *)
Definition handle_result (v : TxVersion) (r : VmExecutionResult) : worker :=
  match r with
  | VmRetry => WExecute v
  | VmReadError b => WAddDependency v b
  | VmExecutionError err => WSetError v err
  | VmOk r reads ws nv => WStoreResult v r reads ws nv
  end.

(** A scheduler operation on the shared state. *)
Definition on_scheduler {A} (op : ST Scheduler A) (k : A -> worker) (sh : Shared)
  : outcome (worker * Shared) :=
  '(a, s) ← op (sh_scheduler sh); Val (k a, with_scheduler s sh).

Definition worker_step (w : worker) (sh : Shared) : outcome (worker * Shared) :=
  match w with
  | WNext =>
      on_scheduler next_task_iter
        (fun r => match r with
                  | None => WNext
                  | Some None => WDone
                  | Some (Some task) => start_task task
                  end) sh
  | WExecute v => e ← vm_start (tx_idx v); Val (WRun v e, sh)
  | WRun v e =>
      r ← vm_step (sh_memory sh) e;
      match r with
      | inl e => Val (WRun v e, sh)
      | inr r => Val (handle_result v r, sh)
      end
  | WAddDependency v b =>
      on_scheduler (add_dependency (tx_idx v) b)
        (fun added => if added then WCheckError None else WExecute v) sh
  | WSetError v err =>
      match execution_error sh with
      | Some _ => Fault UnwrapFailed
      | None => Val (WCheckError None, with_error err sh)
      end
  | WStoreResult v r reads ws nv =>
      _ ← vec_get (execution_results sh) (tx_idx v);
      Val (WRecord v reads ws nv,
           with_results (<[tx_idx v := Some r]> (execution_results sh)) sh)
  | WRecord v reads ws nv =>
      '(wrote, mv) ← MvMemory.record v reads ws (sh_memory sh);
      Val (WFinishExecution v wrote nv, with_memory mv sh)
  | WFinishExecution v wrote nv =>
      on_scheduler (finish_execution v wrote nv) WCheckError sh
  | WValidate v =>
      valid ← validate_read_locations (tx_idx v) (sh_memory sh);
      Val (if valid : bool then WFinishValidation v false else WTryAbort v, sh)
  | WTryAbort v =>
      on_scheduler (try_validation_abort v)
        (fun aborted => if aborted then WConvert v else WFinishValidation v false) sh
  | WConvert v =>
      mv ← convert_writes_to_estimates (tx_idx v) (sh_memory sh);
      Val (WFinishValidation v true, with_memory mv sh)
  | WFinishValidation v aborted =>
      on_scheduler (finish_validation v aborted) WCheckError sh
  | WCheckError next =>
      Val (match execution_error sh with
           | Some _ => WDone
           | None => match next with Some task => start_task task | None => WNext end
           end, sh)
  | WDone => Val (WDone, sh)
  | WPanicked f => Val (WPanicked f, sh)
  end.

(** ** The thread pool *)

Record Pool : Type := {
  pl_shared : Shared;
  pl_workers : list worker;
}.

(** Thread [t] makes its next call; a panic ends the thread. *)
Definition step_thread (t : nat) (p : Pool) : Pool :=
  match pl_workers p !! t with
  | None => p
  | Some w =>
      match worker_step w (pl_shared p) with
      | Val (w', sh') => {| pl_shared := sh'; pl_workers := <[t := w']> (pl_workers p) |}
      | Fault f => {| pl_shared := pl_shared p;
                      pl_workers := <[t := WPanicked f]> (pl_workers p) |}
      end
  end.

(** Any thread may make the next step. *)
Definition pool_step (p p' : Pool) : Prop :=
  exists t, t < length (pl_workers p) /\ p' = step_thread t p.

(** The state in which [thread::scope] starts its threads. *)
Definition start_pool (s : Scheduler) (mv : MvMemory) (n threads : nat) : Pool :=
  {| pl_shared := {| sh_scheduler := s; sh_memory := mv;
                     execution_results := replicate n None; execution_error := None |};
     pl_workers := replicate threads WNext |}.

Definition all_done (p : Pool) : bool :=
  forallb (fun w => match w with WDone => true | _ => false end) (pl_workers p).

(** Every thread has left its loop or panicked: the scope joins its threads. *)
Definition all_ended (p : Pool) : bool :=
  forallb (fun w => match w with WDone | WPanicked _ => true | _ => false end) (pl_workers p).

(** Any sequence of thread numbers is a run of the pool. *)
Lemma steps_rtc l p :
  Forall (fun t => t < length (pl_workers p)) l ->
  rtc pool_step p (foldl (fun p t => step_thread t p) p l).
Proof.
  revert p. induction l as [|t l IH]; intros p Hl; [done|]. simpl.
  apply Forall_cons in Hl as [Ht Hl]. eapply rtc_l; [by exists t|]. apply IH.
  assert (length (pl_workers (step_thread t p)) = length (pl_workers p)) as ->; [|done].
  unfold step_thread. destruct (_ !! t) as [w|]; [|done].
  destruct (worker_step w _) as [[??]|]; simpl; apply length_insert.
Qed.
End workers.
