(* ===== verification/WorkersInv.v ===== *)
(** * WorkersInv: the invariant of the thread pool

    Ties the scheduler's invariant ([SchedulerInv]), the memory's ([MvMemory])
    and what each worker holds together, and shows that every step of every
    thread keeps it.  From it: no call on the scheduler, the memory or the
    results panics, a block that ends without an error has executed every
    transaction, validated what had to be, and left a result for each and no
    estimate in the memory, and threads never wait for each other in vain. *)

From stdpp Require Import base list gmap relations.
From Stdlib Require Import ZArith Lia.
From S2P Require Import Prelude Types MvMemory Scheduler SchedulerEffects.
From S2P Require Import SchedulerInv Revm Storage Vm Workers.

Section pool.
Context `{VmOps} {n : nat} {lazy : MemoryLocationHash} `{!VmContract n lazy}.
Implicit Types (w : worker) (sh : Shared) (p : Pool) (failed : bool).

(** ** The invariant *)

Definition worker_role w : option role :=
  match w with
  | WExecute v | WRun v _ | WAddDependency v _ | WSetError v _
  | WStoreResult v _ _ _ _ | WRecord v _ _ _ | WFinishExecution v _ _ =>
      Some (RExecute (tx_idx v))
  | WValidate v | WTryAbort v | WFinishValidation v false => Some (RValidate (tx_idx v))
  | WConvert v | WFinishValidation v true => Some (RAbort (tx_idx v))
  | WCheckError next => role_of_task <$> next
  | WNext | WDone | WPanicked _ => None
  end.

(** The version a worker executes and has not recorded yet. *)
Definition pending_version w : option TxVersion :=
  match w with
  | WExecute v | WRun v _ | WAddDependency v _ | WSetError v _
  | WStoreResult v _ _ _ _ | WRecord v _ _ _ | WCheckError (Some (ExecutionTask v)) => Some v
  | _ => None
  end.

Definition has_result sh (i : TxIdx) : Prop :=
  exists r, execution_results sh !! i = Some (Some r).

Definition no_estimate (mv : MvMemory) (i : TxIdx) : Prop :=
  forall loc, entry_at (mv_data mv) loc i <> Some Estimate.

(** The transaction has recorded an incarnation. *)
Definition recorded (mv : MvMemory) (i : TxIdx) : Prop :=
  exists last, mv_last_locations mv !! i = Some last /\ ll_write last <> [].

(** An incarnation number that the transaction has used up. *)
Definition used (inc : TxIncarnation) (tx : TxStatus) : Prop :=
  inc <= incarnation tx /\ (status tx = ReadyToExecute -> inc < incarnation tx).

(** The worker executes the transaction's current incarnation, of which the
    memory knows nothing yet. *)
Definition executes sh (v : TxVersion) : Prop :=
  transactions_status (sh_scheduler sh) !! tx_idx v =
    Some {| incarnation := tx_incarnation v; status := Executing |} /\
  forall loc inc val, entry_at (mv_data (sh_memory sh)) loc (tx_idx v) = Some (Data inc val) ->
    inc < tx_incarnation v.

Record worker_inv sh w : Prop := {
  wi_pending : forall v, pending_version w = Some v -> executes sh v;
  wi_holds :
    match w with
    | WRun v e => exec_inv (tx_idx v) e
    | WAddDependency v b => b < tx_idx v
    | WStoreResult v r reads ws nv => result_ok typed lazy (tx_idx v) (VmOk r reads ws nv)
    | WRecord v reads ws nv =>
        has_result sh (tx_idx v) /\
        exists r, result_ok typed lazy (tx_idx v) (VmOk r reads ws nv)
    | WFinishExecution v wrote nv =>
        has_result sh (tx_idx v) /\ no_estimate (sh_memory sh) (tx_idx v) /\
        (forall k, nv = Some k -> k = tx_idx v \/ k = S (tx_idx v)) /\
        (wrote = false -> min_validation_idx (sh_scheduler sh) <= tx_idx v)
    | _ => True
    end;
}.

(** Whether worker [w] is about to finish the execution of [i]. *)
Definition finishes w (i : TxIdx) : Prop :=
  match w with WFinishExecution v _ _ => tx_idx v = i | _ => False end.

Record pool_inv (failed : bool) (p : Pool) : Prop := {
  pi_scheduler : sinv (sh_scheduler (pl_shared p)) (worker_role <$> pl_workers p) failed;
  pi_size : block_size (sh_scheduler (pl_shared p)) = n;
  pi_memory : mv_wf n (sh_memory (pl_shared p));
  pi_results : length (execution_results (pl_shared p)) = n;
  pi_failed : failed = true ->
    is_Some (execution_error (pl_shared p)) \/
    exists t f, pl_workers p !! t = Some (WPanicked f);
  pi_estimates : forall loc i,
    entry_at (mv_data (sh_memory (pl_shared p))) loc i = Some Estimate ->
    loc = lazy \/ exists last, mv_last_locations (sh_memory (pl_shared p)) !! i = Some last /\
                               loc ∈ ll_write last;
  pi_done : forall i st, st_at (sh_scheduler (pl_shared p)) i = Some st ->
    is_done st = true ->
    has_result (pl_shared p) i /\ no_estimate (sh_memory (pl_shared p)) i;
  pi_recorded : forall i st, recorded (sh_memory (pl_shared p)) i ->
    st_at (sh_scheduler (pl_shared p)) i = Some st ->
    is_done st = true \/ min_validation_idx (sh_scheduler (pl_shared p)) <= i \/
    exists t w, pl_workers p !! t = Some w /\ finishes w i;
  pi_used : forall loc i inc val tx,
    entry_at (mv_data (sh_memory (pl_shared p))) loc i = Some (Data inc val) ->
    transactions_status (sh_scheduler (pl_shared p)) !! i = Some tx -> used inc tx;
  pi_typed : forall loc i inc val,
    entry_at (mv_data (sh_memory (pl_shared p))) loc i = Some (Data inc val) -> typed loc val;
  pi_workers : forall t w, pl_workers p !! t = Some w -> worker_inv (pl_shared p) w;
}.
End pool.
Arguments pi_scheduler {_ _ _ _ failed p} _.
Arguments pi_size {_ _ _ _ failed p} _.
Arguments pi_memory {_ _ _ _ failed p} _.
Arguments pi_results {_ _ _ _ failed p} _.
Arguments pi_failed {_ _ _ _ failed p} _.
Arguments pi_estimates {_ _ _ _ failed p} _.
Arguments pi_done {_ _ _ _ failed p} _.
Arguments pi_recorded {_ _ _ _ failed p} _.
Arguments pi_used {_ _ _ _ failed p} _.
Arguments pi_typed {_ _ _ _ failed p} _.
Arguments pi_workers {_ _ _ _ failed p} _.
Arguments wi_pending {_ _ _ _ sh w} _.
Arguments wi_holds {_ _ _ _ sh w} _.

(** ** Lemmas *)

Lemma used_legal inc tx tx' : rtc status_transition tx tx' -> used inc tx -> used inc tx'.
Proof.
  unfold used. induction 1 as [|x y z Hxy _ IH]; [done|]. intros Hx. apply IH.
  inversion Hxy; subst; simpl in *; intuition (done || lia).
Qed.

Section steps.
Context `{VmOps} {n : nat} {lazy : MemoryLocationHash} `{!VmContract n lazy}.
Implicit Types (w : worker) (sh : Shared) (p : Pool) (failed : bool).

(** The pool after thread [t] became [w'] with shared state [sh']. *)
Definition moved p (t : nat) (w' : worker) (sh' : Shared) : Pool :=
  {| pl_shared := sh'; pl_workers := <[t := w']> (pl_workers p) |}.

Lemma moved_workers p t w w' sh' t' w0 :
  pl_workers p !! t = Some w ->
  pl_workers (moved p t w' sh') !! t' = Some w0 ->
  t' = t /\ w0 = w' \/ t' <> t /\ pl_workers p !! t' = Some w0.
Proof. intros Ht. simpl. rewrite list_lookup_insert_Some. naive_solver. Qed.

Lemma moved_self p t w w' sh' :
  pl_workers p !! t = Some w -> pl_workers (moved p t w' sh') !! t = Some w'.
Proof. intros Ht. simpl. apply list_lookup_insert_eq. by eapply lookup_lt_Some. Qed.

Lemma moved_roles p t w' sh' :
  worker_role <$> pl_workers (moved p t w' sh') =
  <[t := worker_role w']> (worker_role <$> pl_workers p).
Proof. simpl. by rewrite list_fmap_insert. Qed.

Lemma worker_has_role p t w r :
  pl_workers p !! t = Some w -> worker_role w = Some r ->
  has_role (worker_role <$> pl_workers p) t r.
Proof. intros Ht Hr. by rewrite list_lookup_fmap, Ht, <-Hr. Qed.

Lemma pending_role w v : pending_version w = Some v -> worker_role w = Some (RExecute (tx_idx v)).
Proof. destruct w as [| | | | | | | | | | |? []|[[]|]| |]; simpl; congruence. Qed.

(** What a worker holds survives the steps of the others. *)
Lemma worker_inv_frame sh sh' w :
  worker_inv (lazy := lazy) sh w ->
  (forall v, pending_version w = Some v -> executes sh v -> executes sh' v) ->
  (forall i, has_result sh i -> has_result sh' i) ->
  min_validation_idx (sh_scheduler sh') <= min_validation_idx (sh_scheduler sh) ->
  (forall i, finishes w i -> no_estimate (sh_memory sh) i -> no_estimate (sh_memory sh') i) ->
  worker_inv (lazy := lazy) sh' w.
Proof.
  intros [Hp Hh] Hex Hres Hmin Hest. split; [by eauto|].
  destruct w; simpl in *; try done.
  - destruct Hh as [? ?]. auto.
  - destruct Hh as (? & ? & ? & Hw). split_and!; auto. intros Hf. specialize (Hw Hf). lia.
Qed.

(** The failure flag is still explained after the step of a live thread. *)
Lemma failed_moved failed p t w w' sh' :
  pool_inv (lazy := lazy) failed p -> pl_workers p !! t = Some w ->
  (forall f, w <> WPanicked f) ->
  (is_Some (execution_error (pl_shared p)) -> is_Some (execution_error sh')) ->
  failed = true ->
  is_Some (execution_error sh') \/
  exists t' f, pl_workers (moved p t w' sh') !! t' = Some (WPanicked f).
Proof.
  intros Hinv Ht Hw Herr Hf. destruct (pi_failed Hinv Hf) as [?|(t' & f & Ht')]; [auto|right].
  exists t', f. simpl. rewrite list_lookup_insert_ne; [done|]. intros ->.
  destruct (Hw f). congruence.
Qed.

(** The finisher of a transaction after the step of a thread that is none. *)
Lemma finisher_moved p t w w' sh' i :
  pl_workers p !! t = Some w -> ~ finishes w i ->
  (exists t' w0, pl_workers p !! t' = Some w0 /\ finishes w0 i) ->
  exists t' w0, pl_workers (moved p t w' sh') !! t' = Some w0 /\ finishes w0 i.
Proof.
  intros Ht Hw (t' & w0 & Ht' & Hf). exists t', w0. split; [|done]. simpl.
  rewrite list_lookup_insert_ne; [done|]. intros ->. destruct Hw. by simplify_eq.
Qed.

(** A step that changes nothing but the worker. *)
Lemma pool_inv_local failed p t w w' :
  pool_inv (lazy := lazy) failed p -> pl_workers p !! t = Some w ->
  worker_role w' = worker_role w -> (forall i, ~ finishes w i) ->
  (forall f, w <> WPanicked f) ->
  worker_inv (lazy := lazy) (pl_shared p) w' ->
  pool_inv (lazy := lazy) failed (moved p t w' (pl_shared p)).
Proof.
  intros Hinv Ht Hr Hfin Hpan Hw'. split; try apply Hinv.
  - rewrite moved_roles, Hr, <-list_fmap_insert, list_insert_id by done. apply Hinv.
  - intros Hf. by eapply failed_moved.
  - intros i st Hrec Hst. destruct (pi_recorded Hinv i st Hrec Hst) as [?|[?|?]]; auto.
    right; right. eapply finisher_moved; eauto.
  - intros t' w0 [[-> ->]|[_ ?]]%(moved_workers _ _ _ _ _ _ _ Ht); [done|].
    by apply (pi_workers Hinv t').
Qed.

(** The task that an operation hands out is a pending version. *)
Lemma executes_new failed p s' v :
  pool_inv (lazy := lazy) failed p -> new_incarnation (sh_scheduler (pl_shared p)) s' v ->
  executes (with_scheduler s' (pl_shared p)) v.
Proof.
  intros Hinv [Hnew (tx & Htx & Hold)]. split; [done|]. intros loc inc val Hent.
  destruct (pi_used Hinv _ _ _ _ _ Hent Htx) as [Hle Hready].
  destruct Hold as [[Hst <-]|?]; [auto|lia].
Qed.

(** Statuses after an operation about [own]. *)
Lemma effect_st_at own s s' j st' :
  effect own s s' -> st_at s' j = Some st' ->
  exists st, st_at s j = Some st /\ (own <> Some j -> is_done st' = is_done st).
Proof.
  intros Hef (tx' & Htx' & <-)%st_at_Some.
  destruct (lookup_lt_is_Some_2 (transactions_status s) j) as [tx Htx].
  { rewrite <-(ef_length Hef). by eapply lookup_lt_Some. }
  exists (status tx). split; [apply st_at_Some; eauto|]. intros Hj.
  by eapply forward_done, tx_effect_other, (ef_status Hef).
Qed.

(** A step that is an operation on the scheduler. *)
Lemma pool_inv_sched failed p t w w' s' own :
  pool_inv (lazy := lazy) failed p -> pl_workers p !! t = Some w ->
  effect own (sh_scheduler (pl_shared p)) s' ->
  sinv s' (<[t := worker_role w']> (worker_role <$> pl_workers p)) failed ->
  (forall f, w <> WPanicked f) -> (forall i, finishes w i -> own = Some i) ->
  (forall t' w0 v, t' <> t -> pl_workers p !! t' = Some w0 ->
     pending_version w0 = Some v -> own <> Some (tx_idx v)) ->
  (forall j st', own = Some j -> st_at s' j = Some st' ->
     if is_done st'
     then has_result (pl_shared p) j /\ no_estimate (sh_memory (pl_shared p)) j
     else recorded (sh_memory (pl_shared p)) j -> min_validation_idx s' <= j) ->
  worker_inv (lazy := lazy) (with_scheduler s' (pl_shared p)) w' ->
  pool_inv (lazy := lazy) failed (moved p t w' (with_scheduler s' (pl_shared p))).
Proof.
  intros Hinv Ht Hef Hs Hpan Hfin Hother Hown Hw'. split; try apply Hinv; simpl.
  - by rewrite list_fmap_insert.
  - rewrite (ef_size Hef). apply Hinv.
  - intros Hf. by eapply failed_moved.
  - intros i st Hst Hd. destruct (effect_st_at own _ _ _ _ Hef Hst) as (st0 & Hst0 & Hsame).
    destruct (decide (own = Some i)) as [Hi|Hi].
    + specialize (Hown i st Hi Hst). by rewrite Hd in Hown.
    + apply (pi_done Hinv i st0); [done|]. by rewrite <-Hsame.
  - intros i st Hrec Hst. destruct (effect_st_at own _ _ _ _ Hef Hst) as (st0 & Hst0 & Hsame).
    destruct (decide (own = Some i)) as [Hi|Hi].
    + specialize (Hown i st Hi Hst). destruct (is_done st); [by left|right; left; auto].
    + rewrite Hsame by done. pose proof (ef_min Hef).
      destruct (pi_recorded Hinv i st0 Hrec Hst0) as [?|[?|?]]; [by left|right; left; lia|].
      right; right. apply (finisher_moved p t w w' (with_scheduler s' (pl_shared p)));
        [done| |done]. intros Hf. by destruct Hi; apply Hfin.
  - intros loc i inc val tx' Hent Htx'.
    destruct (lookup_lt_is_Some_2 (transactions_status (sh_scheduler (pl_shared p))) i)
      as [tx Htx]. { rewrite <-(ef_length Hef). by eapply lookup_lt_Some. }
    eapply used_legal; [|by eapply (pi_used Hinv)].
    by eapply tx_effect_legal, (ef_status Hef).
  - intros t' w0 [[-> ->]|[Hne Ht']]%(moved_workers _ _ _ _
      (with_scheduler s' (pl_shared p)) _ _ Ht); [done|].
    apply (worker_inv_frame (pl_shared p)); try done; [by apply (pi_workers Hinv t')| |].
    + intros v Hv [Hex Hold]. split; [|done]. simpl.
      destruct (lookup_lt_is_Some_2 (transactions_status s') (tx_idx v)) as [tx' Htx'].
      { rewrite (ef_length Hef). by eapply lookup_lt_Some. }
      rewrite Htx'. f_equal. apply forward_executing; [|done].
      eapply tx_effect_other, (ef_status Hef); eauto.
    + apply Hef.
Qed.
(** Only one worker executes or aborts a transaction. *)
Lemma worker_unique failed p t1 t2 w1 w2 r :
  pool_inv (lazy := lazy) failed p -> pl_workers p !! t1 = Some w1 ->
  pl_workers p !! t2 = Some w2 -> exclusive r ->
  worker_role w1 = Some r -> worker_role w2 = Some r -> t1 = t2.
Proof.
  intros Hinv H1 H2 Hr Hr1 Hr2. eapply (si_unique (pi_scheduler Hinv) _ _ r); [done|..];
    by eapply worker_has_role.
Qed.

Lemma finishes_role w i : finishes w i -> worker_role w = Some (RExecute i).
Proof. destruct w; simpl; try done. by intros ->. Qed.

(** The status of a transaction that a worker executes or aborts. *)
Lemma worker_status failed p t w r :
  pool_inv (lazy := lazy) failed p -> pl_workers p !! t = Some w ->
  worker_role w = Some r ->
  role_idx r < n /\
  exists tx, transactions_status (sh_scheduler (pl_shared p)) !! role_idx r = Some tx /\
    match r with
    | RExecute _ => status tx = Executing
    | RAbort i => status tx = Aborting
    | RValidate i => min_validation_idx (sh_scheduler (pl_shared p)) <= i
    end.
Proof.
  intros Hinv Ht Hr. pose proof (pi_scheduler Hinv) as Hs.
  pose proof (worker_has_role p t w r Ht Hr) as Hrole.
  pose proof (si_roles Hs _ _ Hrole) as Hi. split; [by rewrite <-(pi_size Hinv)|].
  destruct (sized_lookup _ _ (si_sized Hs) Hi) as [tx Htx]. exists tx. split; [done|].
  assert (st_at (sh_scheduler (pl_shared p)) (role_idx r) = Some (status tx)) as Hst
    by (apply st_at_Some; eauto).
  pose proof (si_tx Hs _ _ Hst) as Htxi. destruct r; simpl in *.
  - by eapply (ti_execute Htxi).
  - by eapply (ti_validate Htxi).
  - by eapply (ti_abort Htxi).
Qed.

(** Recording an incarnation. *)
Lemma pool_inv_record failed p t v reads ws nv :
  pool_inv (lazy := lazy) failed p -> pl_workers p !! t = Some (WRecord v reads ws nv) ->
  exists wrote mv',
    MvMemory.record v reads ws (sh_memory (pl_shared p)) = Val (wrote, mv') /\
    pool_inv (lazy := lazy) failed
      (moved p t (WFinishExecution v wrote nv) (with_memory mv' (pl_shared p))).
Proof.
  intros Hinv Ht. pose proof (pi_memory Hinv) as Hmv. set (i := tx_idx v).
  destruct (worker_status failed p t _ _ Hinv Ht eq_refl) as (Hi & tx & Htx & Hst).
  destruct (pi_workers Hinv _ _ Ht) as [Hp [Hres [r0 (Hlazy & Hor & Hnv & Htyped)]]]. simpl in *.
  fold i in Hi, Htx, Hres, Hnv. destruct (Hp v eq_refl) as [Hex Hold]. fold i in Hex, Hold.
  destruct (lookup_lt_is_Some_2 (mv_last_locations (sh_memory (pl_shared p))) i)
    as [last Hlast]; [by rewrite (mv_wf_length _ _ Hmv)|].
  destruct (record_run v reads ws _ last Hlast) as (wrote & mv' & Hrun & Hwrote & Hl & He).
  fold i in Hl, He. exists wrote, mv'. split; [done|].
  assert (forall loc j, j <> i ->
    entry_at (mv_data mv') loc j = entry_at (mv_data (sh_memory (pl_shared p))) loc j) as Hne.
  { intros loc j Hj. by rewrite He, bool_decide_false by congruence. }
  assert (no_estimate mv' i) as Hnoest.
  { intros loc. rewrite He, bool_decide_true by done.
    destruct (written_value ws loc) eqn:Hw; [done|]. case_bool_decide as Hloc; [done|].
    intros Hest. apply written_value_None in Hw.
    destruct (pi_estimates Hinv _ _ Hest) as [->|(? & ? & ?)]; [done|]. by simplify_eq. }
  assert (forall t' w0, t' <> t -> pl_workers p !! t' = Some w0 ->
    worker_role w0 <> Some (RExecute i)) as Hexcl.
  { intros t' w0 Hne' Ht' Hr. destruct Hne'.
    by apply (worker_unique failed p t' t w0 _ (RExecute i) Hinv Ht' Ht). }
  split; try apply Hinv; simpl.
  - rewrite list_fmap_insert. simpl. rewrite list_insert_id; [apply Hinv|].
    by eapply worker_has_role.
  - by eapply mv_wf_record.
  - intros Hf. by eapply failed_moved.
  - intros loc j Hest. destruct (decide (j = i)) as [->|Hj]; [by destruct (Hnoest loc)|].
    rewrite Hl, list_lookup_insert_ne by done. rewrite Hne in Hest by done.
    by apply (pi_estimates Hinv).
  - intros j st Hstj Hd. assert (j <> i) as Hj.
    { intros ->. apply st_at_Some in Hstj as (? & ? & <-). by simplify_eq. }
    destruct (pi_done Hinv j st Hstj Hd) as [? Hno]. split; [done|].
    intros loc. rewrite Hne by done. apply Hno.
  - intros j st [last' [Hl' Hw']] Hstj. destruct (decide (j = i)) as [->|Hj].
    + right; right. exists t. eexists.
      split; [apply list_lookup_insert_eq; by eapply lookup_lt_Some|done].
    + rewrite Hl, list_lookup_insert_ne in Hl' by done.
      destruct (pi_recorded Hinv j st) as [?|[?|?]]; [by exists last'|done|by left|by right; left|].
      right; right. eapply (finisher_moved p t _ _ (with_memory mv' (pl_shared p)));
        [exact Ht|by intros []|done].
  - intros loc j inc val txj. destruct (decide (j = i)) as [->|Hj].
    + rewrite He, bool_decide_true by done. intros Hent Htxj. simplify_eq.
      destruct (written_value ws loc).
      * simplify_eq. split; simpl; [done|congruence].
      * case_bool_decide; [done|]. by eapply (pi_used Hinv).
    + rewrite Hne by done. apply (pi_used Hinv).
  - intros loc j inc val. rewrite He. case_bool_decide; [|apply (pi_typed Hinv)].
    destruct (written_value ws loc) as [val'|] eqn:Hw.
    + intros [= _ <-]. by apply Htyped, written_value_elem.
    + case_bool_decide; [done|apply (pi_typed Hinv)].
  - intros t' w0 [[-> ->]|[Hne' Ht']]%(moved_workers _ _ _ _
      (with_memory mv' (pl_shared p)) _ _ Ht).
    + split; [done|]. simpl. split_and!; try done. intros ->.
      destruct (pi_recorded Hinv i (status tx)) as [Hd|[?|(t' & w0 & Ht' & Hf)]].
      * exists last. split; [done|]. intros Hnil.
        cut (false = true); [done|]. apply Hwrote. exists lazy. rewrite Hnil. set_solver.
      * apply st_at_Some. eauto.
      * by rewrite Hst in Hd.
      * done.
      * destruct (decide (t' = t)) as [->|Hn]; [by simplify_eq|].
        by destruct (Hexcl t' w0 Hn Ht'); apply finishes_role.
    + specialize (Hexcl t' w0 Hne' Ht').
      apply (worker_inv_frame (pl_shared p)); try done; [by apply (pi_workers Hinv t')|..].
      * intros v' Hv' [? Hent]. split; [done|]. simpl. intros loc inc val. rewrite Hne; [apply Hent|].
        intros E. apply Hexcl. rewrite <-E. by apply pending_role.
      * intros j Hf Hno loc. simpl. rewrite Hne; [apply Hno|]. intros ->.
        by apply Hexcl, finishes_role.
Qed.
(** Turning the writes of an aborted incarnation into estimates. *)
Lemma pool_inv_convert failed p t v :
  pool_inv (lazy := lazy) failed p -> pl_workers p !! t = Some (WConvert v) ->
  exists mv',
    convert_writes_to_estimates (tx_idx v) (sh_memory (pl_shared p)) = Val mv' /\
    pool_inv (lazy := lazy) failed
      (moved p t (WFinishValidation v true) (with_memory mv' (pl_shared p))).
Proof.
  intros Hinv Ht. pose proof (pi_memory Hinv) as Hmv. set (i := tx_idx v).
  destruct (worker_status failed p t _ _ Hinv Ht eq_refl) as (Hi & tx & Htx & Hst).
  simpl in *. fold i in Hi, Htx.
  destruct (lookup_lt_is_Some_2 (mv_last_locations (sh_memory (pl_shared p))) i)
    as [last Hlast]; [by rewrite (mv_wf_length _ _ Hmv)|].
  destruct (convert_run i _ last Hlast) as (mv' & Hrun & Hl & He).
  exists mv'. split; [done|].
  assert (forall loc j inc val, entry_at (mv_data mv') loc j = Some (Data inc val) ->
    entry_at (mv_data (sh_memory (pl_shared p))) loc j = Some (Data inc val)) as Hdata.
  { intros loc j inc val. rewrite He. by case_bool_decide. }
  assert (forall j, j <> i -> no_estimate (sh_memory (pl_shared p)) j ->
    no_estimate mv' j) as Hno.
  { intros j Hj Hno loc. rewrite He, bool_decide_false; [apply Hno|naive_solver]. }
  split; try apply Hinv; simpl.
  - rewrite list_fmap_insert. simpl. rewrite list_insert_id; [apply Hinv|].
    by eapply worker_has_role.
  - by eapply mv_wf_convert.
  - intros Hf. by eapply failed_moved.
  - intros loc j. rewrite Hl, He. case_bool_decide as Hd; [|apply (pi_estimates Hinv)].
    destruct Hd as (<- & ? & _). eauto.
  - intros j st Hstj Hd. destruct (pi_done Hinv j st Hstj Hd). split; [done|].
    apply Hno; [|done]. intros ->. apply st_at_Some in Hstj as (? & ? & <-). simplify_eq.
    by rewrite Hst in Hd.
  - intros j st [last' [Hl' Hw']] Hstj. rewrite Hl in Hl'.
    destruct (pi_recorded Hinv j st) as [?|[?|?]]; [by exists last'|done|by left|by right; left|].
    right; right. eapply (finisher_moved p t _ _ (with_memory mv' (pl_shared p)));
      [exact Ht|by intros []|done].
  - intros loc j inc val txj Hent%Hdata. by apply (pi_used Hinv loc j inc val).
  - intros loc j inc val Hent%Hdata. by apply (pi_typed Hinv loc j inc val).
  - intros t' w0 [[-> ->]|[Hne' Ht']]%(moved_workers _ _ _ _
      (with_memory mv' (pl_shared p)) _ _ Ht); [done|].
    apply (worker_inv_frame (pl_shared p)); try done; [by apply (pi_workers Hinv t')|..].
    + intros v' Hv' [? Hent]. split; [done|]. simpl. intros loc inc val Hd%Hdata. eauto.
    + intros j Hf. apply Hno. intros ->.
      destruct (worker_status failed p t' w0 (RExecute i) Hinv Ht') as (_ & tx' & Htx' & Hst');
        [by apply finishes_role|]. simpl in Htx'. congruence.
Qed.

(** Storing the result of an execution. *)
Lemma pool_inv_result failed p t v r reads ws nv :
  pool_inv (lazy := lazy) failed p ->
  pl_workers p !! t = Some (WStoreResult v r reads ws nv) ->
  tx_idx v < length (execution_results (pl_shared p)) /\
  pool_inv (lazy := lazy) failed
    (moved p t (WRecord v reads ws nv)
       (with_results (<[tx_idx v := Some r]> (execution_results (pl_shared p)))
                     (pl_shared p))).
Proof.
  intros Hinv Ht.
  destruct (worker_status failed p t _ _ Hinv Ht eq_refl) as (Hi & tx & Htx & Hst).
  simpl in *. rewrite <-(pi_results Hinv) in Hi. split; [done|].
  set (sh' := with_results _ _).
  assert (has_result sh' (tx_idx v)) as Hself
    by (exists r; by apply list_lookup_insert_eq).
  assert (forall j, has_result (pl_shared p) j -> has_result sh' j) as Hres.
  { intros j [r' Hr']. destruct (decide (j = tx_idx v)) as [->|]; [done|].
    exists r'. simpl. by rewrite list_lookup_insert_ne. }
  split; try apply Hinv; simpl.
  - rewrite list_fmap_insert. simpl. rewrite list_insert_id; [apply Hinv|].
    by eapply worker_has_role.
  - rewrite length_insert. apply Hinv.
  - intros Hf. by eapply failed_moved.
  - intros j st Hstj Hd. destruct (pi_done Hinv j st Hstj Hd). auto.
  - intros j st Hrec Hstj. destruct (pi_recorded Hinv j st Hrec Hstj) as [?|[?|?]]; auto.
    right; right. eapply (finisher_moved p t _ _ sh'); [exact Ht|by intros []|done].
  - destruct (pi_workers Hinv _ _ Ht) as [Hp Hok].
    intros t' w0 [[-> ->]|[Hne' Ht']]%(moved_workers _ _ _ _ sh' _ _ Ht).
    + split; simpl; [|by eauto]. intros v' [= <-]. by apply (Hp v).
    + apply (worker_inv_frame (pl_shared p)); try done. by apply (pi_workers Hinv t').
Qed.

(** A thread that stops because the block fails. *)
Lemma pool_inv_fail failed p t w w' sh' :
  pool_inv (lazy := lazy) failed p -> pl_workers p !! t = Some w ->
  (forall i, ~ finishes w i) -> (forall f, w <> WPanicked f) ->
  w' = WDone \/ w' = WCheckError None \/ (exists f, w' = WPanicked f) ->
  sh_scheduler sh' = sh_scheduler (pl_shared p) -> sh_memory sh' = sh_memory (pl_shared p) ->
  execution_results sh' = execution_results (pl_shared p) ->
  (is_Some (execution_error sh') \/ exists f, w' = WPanicked f) ->
  pool_inv (lazy := lazy) true (moved p t w' sh').
Proof.
  intros Hinv Ht Hfin Hpan Hw' Es Em Er Herr.
  assert (worker_role w' = None) as Hrole by (destruct Hw' as [->|[->|[f ->]]]; done).
  assert (worker_inv (lazy := lazy) sh' w') as Hwi
    by (destruct Hw' as [->|[->|[f ->]]]; by split).
  assert (forall i, has_result (pl_shared p) i -> has_result sh' i) as Hres
    by (unfold has_result; by rewrite Er).
  split; simpl; rewrite ?Es, ?Em, ?Er; try apply Hinv.
  - rewrite list_fmap_insert, Hrole. eapply sinv_drop, Hinv.
  - intros _. destruct Herr as [?|[f ->]]; [by left|right]. exists t, f.
    apply list_lookup_insert_eq. by eapply lookup_lt_Some.
  - intros i st Hst Hd. destruct (pi_done Hinv i st Hst Hd). auto.
  - intros i st Hrec Hst. destruct (pi_recorded Hinv i st Hrec Hst) as [?|[?|?]]; auto.
    right; right. by eapply (finisher_moved p t w w' sh').
  - intros t' w0 [[-> ->]|[Hne' Ht']]%(moved_workers _ _ _ _ sh' _ _ Ht); [done|].
    apply (worker_inv_frame (pl_shared p)); try done; [by apply (pi_workers Hinv t')|..].
    + intros v' _ [? ?]. by split; rewrite ?Es, ?Em.
    + by rewrite Es.
    + intros i _. by rewrite Em.
Qed.
(** A worker that starts or is handed a task. *)
Lemma worker_inv_task sh (task : Task) w :
  w = start_task task \/ w = WCheckError (Some task) ->
  (forall v, task = ExecutionTask v -> executes sh v) ->
  worker_inv (lazy := lazy) sh w /\ worker_role w = Some (role_of_task task).
Proof. intros [-> | ->] Hex; destruct task; (split; [split|]); simpl; naive_solver. Qed.

(** ** The steps on the scheduler *)

(** What a step guarantees: the invariant, and that a failure is remembered. *)
Definition step_ok failed p (t : nat) (o : outcome (worker * Shared)) : Prop :=
  exists w' sh' failed', o = Val (w', sh') /\
    pool_inv (lazy := lazy) failed' (moved p t w' sh') /\ (failed = true -> failed' = true).

Lemma step_next failed p t :
  pool_inv (lazy := lazy) failed p -> pl_workers p !! t = Some WNext ->
  step_ok failed p t (worker_step WNext (pl_shared p)).
Proof.
  intros Hinv Ht. simpl. unfold on_scheduler.
  destruct (next_task_iter_sinv (sh_scheduler (pl_shared p)) (worker_role <$> pl_workers p)
    failed t) as (r & s' & Hrun & Hs & _ & _ & Hnew); [apply Hinv|by rewrite list_lookup_fmap, Ht|].
  pose proof (next_task_iter_ensures None _ _ _ Hrun) as Hef.
  rewrite Hrun. eexists _, _, failed. split; [done|]. split; [|done].
  assert (exists w', w' = match r with None => WNext | Some None => WDone
                          | Some (Some task) => start_task task end /\
    worker_role w' = role_of_iter r /\
    worker_inv (lazy := lazy) (with_scheduler s' (pl_shared p)) w') as (w' & <- & Hr & Hw).
  { eexists. split; [done|]. destruct r as [[task|]|]; [|by repeat split..]. simpl.
    destruct (worker_inv_task (with_scheduler s' (pl_shared p)) task (start_task task));
      [by left| |done].
    intros v ->. eapply executes_new; [done|]. by apply Hnew. }
  eapply (pool_inv_sched failed p t WNext w' s' None); try done. by rewrite Hr.
Qed.

(** A transaction that is executed again was validated before. *)
Lemma recorded_min failed p t w v :
  pool_inv (lazy := lazy) failed p -> pl_workers p !! t = Some w ->
  worker_role w = Some (RExecute (tx_idx v)) -> (forall i, ~ finishes w i) ->
  recorded (sh_memory (pl_shared p)) (tx_idx v) ->
  min_validation_idx (sh_scheduler (pl_shared p)) <= tx_idx v.
Proof.
  intros Hinv Ht Hr Hfin Hrec.
  destruct (worker_status failed p t w _ Hinv Ht Hr) as (_ & tx & Htx & Hst). simpl in *.
  destruct (pi_recorded Hinv (tx_idx v) (status tx) Hrec) as [Hd|[?|(t' & w0 & Ht' & Hf)]];
    [apply st_at_Some; eauto|by rewrite Hst in Hd|done|].
  assert (t' = t) as ->.
  { apply (worker_unique failed p t' t w0 w (RExecute (tx_idx v))); try done.
    by apply finishes_role. }
  simplify_eq. by destruct (Hfin (tx_idx v)).
Qed.

(** No other worker has a pending version of a transaction that a worker
    executes. *)
Lemma pending_other failed p t w i :
  pool_inv (lazy := lazy) failed p -> pl_workers p !! t = Some w ->
  worker_role w = Some (RExecute i) ->
  forall t' w0 v, t' <> t -> pl_workers p !! t' = Some w0 ->
    pending_version w0 = Some v -> Some i <> Some (tx_idx v).
Proof.
  intros Hinv Ht Hr t' w0 v Hne Ht' Hv%pending_role [= E]. destruct Hne.
  apply (worker_unique failed p t' t w0 w (RExecute i)); try done. congruence.
Qed.

Lemma step_add_dependency failed p t v b :
  pool_inv (lazy := lazy) failed p -> pl_workers p !! t = Some (WAddDependency v b) ->
  step_ok failed p t (worker_step (WAddDependency v b) (pl_shared p)).
Proof.
  intros Hinv Ht. simpl. unfold on_scheduler.
  destruct (pi_workers Hinv _ _ Ht) as [Hp Hb]. simpl in Hb.
  destruct (add_dependency_sinv (sh_scheduler (pl_shared p)) (worker_role <$> pl_workers p)
    failed t (tx_idx v) b) as (r & s' & Hrun & Hs & Hyes & Hno);
    [apply Hinv|by eapply worker_has_role|done|].
  pose proof (add_dependency_ensures _ _ _ _ _ Hrun) as Hef.
  rewrite Hrun. eexists _, _, failed. split; [done|]. split; [|done]. destruct r.
  - eapply (pool_inv_sched failed p t _ _ s' (Some (tx_idx v))); try done.
    + by eapply pending_other.
    + intros j st' [= <-] Hst'. rewrite Hyes in Hst' by done. simplify_eq. simpl.
      intros Hrec. pose proof (ef_min Hef).
      pose proof (recorded_min failed p t _ v Hinv Ht eq_refl ltac:(by intros ? []) Hrec). lia.
  - destruct (Hno eq_refl) as [-> _].
    by eapply (pool_inv_sched failed p t _ _ _ None).
Qed.

Lemma step_finish_execution failed p t v wrote nv :
  pool_inv (lazy := lazy) failed p ->
  pl_workers p !! t = Some (WFinishExecution v wrote nv) ->
  step_ok failed p t (worker_step (WFinishExecution v wrote nv) (pl_shared p)).
Proof.
  intros Hinv Ht. simpl. unfold on_scheduler.
  destruct (pi_workers Hinv _ _ Ht) as [_ (Hres & Hest & Hnv & Hwrote)].
  destruct (finish_execution_sinv (sh_scheduler (pl_shared p)) (worker_role <$> pl_workers p)
    failed t v wrote nv) as (r & s' & Hrun & Hs & Hr & Hst & Hmin);
    [apply Hinv|by eapply worker_has_role|done|auto|].
  pose proof (finish_execution_ensures _ _ _ _ _ _ Hrun) as Hef.
  rewrite Hrun. eexists _, _, failed. split; [done|]. split; [|done].
  eapply (pool_inv_sched failed p t _ _ s' (Some (tx_idx v))); try done.
  - by intros i <-.
  - by eapply pending_other.
  - intros j st' [= <-]. rewrite Hst. by intros [= <-].
  - destruct Hr as [-> | ->]; by split.
Qed.

Lemma step_try_abort failed p t v :
  pool_inv (lazy := lazy) failed p -> pl_workers p !! t = Some (WTryAbort v) ->
  step_ok failed p t (worker_step (WTryAbort v) (pl_shared p)).
Proof.
  intros Hinv Ht. simpl. unfold on_scheduler.
  destruct (worker_status failed p t _ _ Hinv Ht eq_refl) as (_ & tx & Htx & Hm). simpl in *.
  destruct (try_validation_abort_sinv (sh_scheduler (pl_shared p))
    (worker_role <$> pl_workers p) failed t v) as (aborted & s' & Hrun & Hs & Hno);
    [apply Hinv|by eapply worker_has_role|].
  pose proof (try_validation_abort_ensures _ _ _ _ Hrun) as Hef.
  rewrite Hrun. eexists _, _, failed. split; [done|]. split; [|done]. destruct aborted.
  - assert (st_at s' (tx_idx v) = Some Aborting) as Hst'.
    { destruct (sized_lookup s' (tx_idx v) (si_sized Hs)) as [tx' Htx'].
      - apply (si_roles Hs t (RAbort (tx_idx v))). apply list_lookup_insert_eq.
        rewrite length_fmap. by eapply lookup_lt_Some.
      - assert (st_at s' (tx_idx v) = Some (status tx')) as Hst by (apply st_at_Some; eauto).
        rewrite Hst. f_equal. eapply (ti_abort (si_tx Hs _ _ Hst) t).
        apply list_lookup_insert_eq. rewrite length_fmap. by eapply lookup_lt_Some. }
    eapply (pool_inv_sched failed p t _ _ s' (Some (tx_idx v))); try done.
    + intros t' w0 v' Hne Ht' Hv'%pending_role [= E].
      pose proof (ti_execute (si_tx Hs _ _ Hst') t') as Hex. specialize (Hex ltac:(
        rewrite list_lookup_insert_ne by done; rewrite E; by eapply worker_has_role)). done.
    + intros j st'' [= <-]. rewrite Hst'. intros [= <-]. simpl. pose proof (ef_min Hef). lia.
  - rewrite (Hno eq_refl) in *. by eapply (pool_inv_sched failed p t _ _ _ None).
Qed.

Lemma step_finish_validation failed p t v aborted :
  pool_inv (lazy := lazy) failed p ->
  pl_workers p !! t = Some (WFinishValidation v aborted) ->
  step_ok failed p t (worker_step (WFinishValidation v aborted) (pl_shared p)).
Proof.
  intros Hinv Ht. simpl. unfold on_scheduler.
  assert (exists r s', finish_validation v aborted (sh_scheduler (pl_shared p)) = Val (r, s') /\
    sinv s' (<[t := role_of_task <$> r]> (worker_role <$> pl_workers p)) failed /\
    (forall v', r = Some (ExecutionTask v') ->
       new_incarnation (sh_scheduler (pl_shared p)) s' v')) as (r & s' & Hrun & Hs & Hnew).
  { destruct aborted.
    - destruct (finish_validation_abort_sinv (sh_scheduler (pl_shared p))
        (worker_role <$> pl_workers p) failed t v) as (r & s' & ? & ? & _ & ?); eauto 10.
      + apply Hinv.
      + by eapply worker_has_role.
    - destruct (finish_validation_ok_sinv (sh_scheduler (pl_shared p))
        (worker_role <$> pl_workers p) failed t v) as (s' & ? & ?);
        [apply Hinv|by eapply worker_has_role|]. by exists None, s'. }
  pose proof (finish_validation_ensures None _ _ _ _ _ Hrun) as Hef.
  rewrite Hrun. eexists _, _, failed. split; [done|]. split; [|done].
  eapply (pool_inv_sched failed p t _ _ s' None); try done.
  destruct r as [task|]; [|by split].
  apply (worker_inv_task _ task); [by right|]. intros v' ->.
  eapply executes_new; [done|]. by apply Hnew.
Qed.

(** ** All steps *)

(** The calls that may panic: into the virtual machine, and setting the error
    of the block when another worker has set one. *)
Definition may_panic sh w : bool :=
  match w with
  | WExecute _ | WRun _ _ => true
  | WSetError _ _ => bool_decide (is_Some (execution_error sh))
  | _ => false
  end.

Lemma handle_result_inv sh v r :
  executes sh v -> result_ok typed lazy (tx_idx v) r ->
  worker_inv (lazy := lazy) sh (handle_result v r) /\
  worker_role (handle_result v r) = Some (RExecute (tx_idx v)).
Proof.
  intros Hex Hr. destruct r; simpl; (split; [|done]); split; simpl in *; try done;
    by intros ? [= <-].
Qed.

(** A step that concerns the worker alone. *)
Ltac local_step := eapply pool_inv_local; [done|done| |by intros ? []|done|].

Lemma worker_step_ok failed p t w :
  pool_inv (lazy := lazy) failed p -> pl_workers p !! t = Some w ->
  step_ok failed p t (worker_step w (pl_shared p)) \/
  may_panic (pl_shared p) w = true /\ exists f, worker_step w (pl_shared p) = Fault f.
Proof.
  intros Hinv Ht. destruct w as [|v|v e|v b|v err|v r reads ws nv|v reads ws nv|v wrote nv
    |v|v|v|v aborted|next| |f].
  - left. by apply step_next.
  - simpl. destruct (vm_start (tx_idx v)) as [e|f] eqn:Hrun; simpl; [left|right; eauto].
    destruct (worker_status failed p t _ _ Hinv Ht eq_refl) as [Hi _].
    destruct (pi_workers Hinv _ _ Ht) as [Hp _].
    eexists _, _, failed. split; [done|]. split; [|done].
    local_step; [done|]. split; [done|]. by eapply vm_start_inv.
  - simpl. destruct (vm_step _ e) as [[e'|r]|f] eqn:Hrun; simpl; [left|left|right; eauto];
      destruct (pi_workers Hinv _ _ Ht) as [Hp He]; simpl in He;
      eexists _, _, failed; (split; [done|]); (split; [|done]).
    + local_step; [done|]. split; [done|]. by eapply vm_step_inv.
    + destruct (handle_result_inv (pl_shared p) v r) as [? ?];
        [by apply (Hp v)|by eapply vm_step_result|].
      by local_step.
  - left. by apply step_add_dependency.
  - simpl. destruct (execution_error (pl_shared p)) as [err'|] eqn:He; [right; eauto|left].
    eexists _, _, true. split; [done|]. split; [|done].
    eapply pool_inv_fail; [done|done|by intros ? []|done| | | | |]; try done; [by right; left|left; by eexists].
  - left. simpl. destruct (pool_inv_result failed p t v r reads ws nv Hinv Ht) as [Hi ?].
    destruct (lookup_lt_is_Some_2 _ _ Hi) as [old Hold].
    rewrite (vec_get_Some _ _ _ Hold). simpl. eexists _, _, failed. by split.
  - left. simpl. destruct (pool_inv_record failed p t v reads ws nv Hinv Ht)
      as (wrote & mv' & -> & ?). simpl. eexists _, _, failed. by split.
  - left. by apply step_finish_execution.
  - left. simpl. destruct (worker_status failed p t _ _ Hinv Ht eq_refl) as [Hi _].
    destruct (validate_read_locations_total (sh_memory (pl_shared p)) (tx_idx v)) as [b ->].
    { by rewrite (mv_wf_length _ _ (pi_memory Hinv)). }
    simpl. eexists _, _, failed. split; [done|]. split; [|done].
    local_step; by destruct b.
  - left. by apply step_try_abort.
  - left. simpl. destruct (pool_inv_convert failed p t v Hinv Ht) as (mv' & -> & ?).
    simpl. eexists _, _, failed. by split.
  - left. by apply step_finish_validation.
  - left. simpl. destruct (execution_error (pl_shared p)) as [err|] eqn:He;
      [eexists _, _, true|eexists _, _, failed]; (split; [done|]); (split; [|done]).
    + eapply pool_inv_fail; [done|done|by intros ? []|done| | | | |]; try done; [by left|left; by rewrite He].
    + destruct (pi_workers Hinv _ _ Ht) as [Hp _]. destruct next as [task|].
      * destruct (worker_inv_task (pl_shared p) task (start_task task)) as [? Hr];
          [by left| |].
        { intros v ->. by apply Hp. }
        by local_step.
      * by local_step.
  - left. simpl. eexists _, _, failed. split; [done|]. split; [|done].
    unfold moved. rewrite list_insert_id by done. by destruct p.
  - left. simpl. eexists _, _, failed. split; [done|]. split; [|done].
    unfold moved. rewrite list_insert_id by done. by destruct p.
Qed.
(** The invariant is kept by every step of every thread. *)
Lemma step_thread_inv failed p t :
  pool_inv (lazy := lazy) failed p ->
  exists failed', pool_inv (lazy := lazy) failed' (step_thread t p) /\
                  (failed = true -> failed' = true).
Proof.
  intros Hinv. unfold step_thread.
  destruct (pl_workers p !! t) as [w|] eqn:Ht; [|by exists failed].
  destruct (worker_step_ok failed p t w Hinv Ht) as [(w' & sh' & f' & -> & ? & ?)|[Hp [f ->]]].
  - by exists f'.
  - exists true. split; [|done].
    apply (pool_inv_fail failed p t w (WPanicked f)); try done;
      [by destruct w; intros ? []|by intros f' ->|by right; right; eexists|by right; eexists].
Qed.

(** ** The initial pool *)

(** The memory that [execute_revm] creates: every transaction is expected to
    write the beneficiary's location. *)
Definition initial_memory (n : nat) (lazy : MemoryLocationHash) : MvMemory :=
  MvMemory.new n [(lazy, seq 0 n)].

Lemma pool_inv_start s threads :
  sinv s (replicate threads None) false -> block_size s = n ->
  (forall i st, st_at s i = Some st -> is_done st = false) ->
  pool_inv (lazy := lazy) false (start_pool s (initial_memory n lazy) n threads).
Proof.
  intros Hs Hn Hnd.
  assert (forall i last, mv_last_locations (initial_memory n lazy) !! i = Some last ->
    last = LastLocations_default) as Hlast.
  { intros i last Hl. simpl in Hl. by apply lookup_replicate in Hl as [-> _]. }
  split; cbn [start_pool pl_shared pl_workers sh_scheduler sh_memory execution_results]; try done.
  - by rewrite fmap_replicate.
  - apply mv_wf_new. intros loc idxs [= -> ->]%list_elem_of_singleton.
    apply Forall_forall. intros i [_ ?]%elem_of_seq. lia.
  - apply length_replicate.
  - intros loc i (_ & idxs & [= -> ->]%list_elem_of_singleton & _)%new_entry. by left.
  - intros i st Hst. by rewrite (Hnd i st Hst).
  - intros i st (last & Hl & Hw). by rewrite (Hlast i last Hl) in Hw.
  - intros loc i inc val tx (? & _)%new_entry. done.
  - intros loc i inc val (? & _)%new_entry. done.
  - intros t w [-> _]%lookup_replicate. by split.
Qed.
End steps.
