(* ===== verification/WorkersCorrect.v ===== *)
(** * WorkersCorrect: what the thread pool guarantees

    The theorems about every interleaving of the worker threads of a block,
    from the scheduler that the preprocessing built and the memory that
    [execute_revm] creates, for any virtual machine that keeps its contract
    ([Workers.VmContract]); and a small virtual machine that witnesses them. *)

From stdpp Require Import base list gmap relations.
From Stdlib Require Import ZArith Lia.
From S2P Require Import Prelude Types MvMemory Scheduler SchedulerEffects SchedulerInv.
From S2P Require Import Revm Storage Vm Workers WorkersInv.

Section theorems.
Context `{VmOps} {n : nat} {lazy : MemoryLocationHash} `{!VmContract n lazy}.
Implicit Types (w : worker) (sh : Shared) (p : Pool) (threads : nat).

(** The states that the pool of a block reaches. *)
Definition reachable (lazy : MemoryLocationHash) (status_ : TransactionsStatus)
  (dependents : TransactionsDependents) (deps : TransactionsDependenciesNum)
  (threads : nat) (p : Pool) : Prop :=
  let n := length status_ in
  rtc pool_step
    (start_pool (Scheduler.new n status_ dependents deps) (initial_memory n lazy) n threads) p.

(** ** Steps *)

Lemma pool_inv_initial status_ dependents deps threads :
  (Z.of_nat n < 2 ^ 64)%Z -> initial_wf n status_ dependents deps ->
  pool_inv (lazy := lazy) false
    (start_pool (Scheduler.new n status_ dependents deps) (initial_memory n lazy) n threads).
Proof.
  intros Hn Hwf. apply pool_inv_start; [by apply sinv_new|done|].
  intros i st (tx & Htx & <-)%st_at_Some. simpl in Htx.
  by destruct (iw_tx _ _ _ _ Hwf i tx Htx) as [[-> _]|[-> _]].
Qed.

Lemma pool_inv_steps failed p p' :
  pool_inv (lazy := lazy) failed p -> rtc pool_step p p' ->
  exists failed', pool_inv (lazy := lazy) failed' p'.
Proof.
  intros Hinv Hsteps. apply (rtc_invariant pool_step
    (fun p => exists failed, pool_inv (lazy := lazy) failed p) p); [done|by eexists|].
  intros p1 p2 (t & _ & ->) [f1 H1].
  destruct (step_thread_inv f1 p1 t H1) as (f2 & ? & _). by exists f2.
Qed.

(** Failures are visible: an error is set or a thread has panicked. *)
Lemma pool_inv_not_failed failed p :
  pool_inv (lazy := lazy) failed p -> execution_error (pl_shared p) = None ->
  (forall t f, pl_workers p !! t <> Some (WPanicked f)) ->
  pool_inv (lazy := lazy) false p.
Proof.
  intros Hinv He Hp. destruct failed; [|done].
  destruct (pi_failed Hinv eq_refl) as [[x Hx]|(t & f & Ht)]; [congruence|].
  by destruct (Hp t f).
Qed.
(** ** The end of a block *)

Lemma all_done_lookup p t w : all_done p = true -> pl_workers p !! t = Some w -> w = WDone.
Proof.
  unfold all_done. rewrite forallb_forall. intros Hall Hw.
  specialize (Hall w). destruct w; try done; discriminate Hall;
    by apply list_elem_of_In, list_elem_of_lookup_2 with t.
Qed.

(** The last thread leaves when both counters are at the end of the block. *)
Definition exit_inv p : Prop :=
  all_done p = true -> execution_error (pl_shared p) = None ->
  block_size (sh_scheduler (pl_shared p)) <= execution_idx (sh_scheduler (pl_shared p)) /\
  block_size (sh_scheduler (pl_shared p)) <= validation_idx (sh_scheduler (pl_shared p)).

(** A worker that leaves found the exit condition of [next_task], or an error. *)
Lemma worker_step_exit failed p t w sh' :
  pool_inv (lazy := lazy) failed p -> pl_workers p !! t = Some w ->
  worker_step w (pl_shared p) = Val (WDone, sh') ->
  w = WDone /\ sh' = pl_shared p \/ is_Some (execution_error sh') \/
  block_size (sh_scheduler sh') <= execution_idx (sh_scheduler sh') /\
  block_size (sh_scheduler sh') <= validation_idx (sh_scheduler sh').
Proof.
  intros Hinv Ht. destruct w; simpl; unfold on_scheduler.
  - destruct (next_task_iter_sinv (sh_scheduler (pl_shared p)) (worker_role <$> pl_workers p)
      failed t) as (r & s' & -> & _ & Hend & _); [apply Hinv|by rewrite list_lookup_fmap, Ht|].
    destruct r as [[[]|]|]; try done. intros [= <-].
    destruct (Hend eq_refl) as (-> & ? & ? & _). by right; right.
  - by destruct (vm_start _).
  - destruct (vm_step _ _) as [[|[]]|]; done.
  - by destruct (add_dependency _ _ _) as [[[] ?]|].
  - by destruct (execution_error _).
  - by destruct (vec_get _ _).
  - by destruct (MvMemory.record _ _ _ _) as [[??]|].
  - by destruct (finish_execution _ _ _ _) as [[??]|].
  - by destruct (validate_read_locations _ _) as [[]|].
  - by destruct (try_validation_abort _ _) as [[[] ?]|].
  - by destruct (convert_writes_to_estimates _ _).
  - by destruct (finish_validation _ _ _) as [[??]|].
  - destruct (execution_error (pl_shared p)) eqn:He; [|by destruct next as [[]|]].
    intros [= <-]. rewrite He. by right; left.
  - intros [= <-]. by left.
  - done.
Qed.

Lemma exit_inv_step failed p t :
  pool_inv (lazy := lazy) failed p -> exit_inv p -> exit_inv (step_thread t p).
Proof.
  intros Hinv Hexit. unfold step_thread.
  destruct (pl_workers p !! t) as [w|] eqn:Ht; [|done].
  assert (t < length (pl_workers p)) as Hlt by by eapply lookup_lt_Some.
  destruct (worker_step w (pl_shared p)) as [[w' sh']|f] eqn:Hrun; intros Hall He; simpl in *.
  - assert (w' = WDone) as ->.
    { eapply all_done_lookup; [done|]. simpl. by apply list_lookup_insert_eq. }
    destruct (worker_step_exit failed p t w sh' Hinv Ht Hrun) as [[-> ->]|[[? ?]|?]];
      [|congruence|done].
    apply Hexit; [|done]. unfold all_done in *. simpl in *. by rewrite list_insert_id in Hall.
  - cut (WPanicked f = WDone); [done|].
    eapply all_done_lookup; [done|]. simpl. by apply list_lookup_insert_eq.
Qed.

Lemma exit_inv_reachable status_ dependents deps threads p :
  (Z.of_nat n < 2 ^ 64)%Z -> initial_wf n status_ dependents deps -> 0 < threads ->
  reachable lazy status_ dependents deps threads p ->
  exit_inv p /\ exists failed, pool_inv (lazy := lazy) failed p.
Proof.
  intros Hn Hwf Hthreads Hp. unfold reachable in Hp. rewrite (iw_status _ _ _ _ Hwf) in Hp.
  apply (rtc_invariant pool_step (fun p => exit_inv p /\
    exists failed, pool_inv (lazy := lazy) failed p) _ _ Hp).
  - split; [|eexists; by apply pool_inv_initial]. destruct threads; [lia|done].
  - intros p1 p2 (t & _ & ->) [Hexit [f1 H1]]. split; [by eapply exit_inv_step|].
    destruct (step_thread_inv f1 p1 t H1) as (f2 & ? & _). by exists f2.
Qed.
(** ** Versions *)

(** A step moves statuses legally, takes on new incarnations only, and adds no
    value to the memory but those of the version it has pending. *)
Lemma worker_step_trace failed p t w w' sh' :
  pool_inv (lazy := lazy) failed p -> pl_workers p !! t = Some w ->
  worker_step w (pl_shared p) = Val (w', sh') ->
  (exists own, effect own (sh_scheduler (pl_shared p)) (sh_scheduler sh')) /\
  (forall v, pending_version w' = Some v -> pending_version w = Some v \/
     new_incarnation (sh_scheduler (pl_shared p)) (sh_scheduler sh') v) /\
  (forall loc j inc val,
     entry_at (mv_data (sh_memory sh')) loc j = Some (Data inc val) ->
     entry_at (mv_data (sh_memory (pl_shared p))) loc j = Some (Data inc val) \/
     exists v, pending_version w = Some v /\ tx_idx v = j /\ tx_incarnation v = inc).
Proof.
  assert (forall s : Scheduler, exists own, effect own s s) as Hrefl.
  { intros s. by exists None. }
  intros Hinv Ht. destruct w; simpl; unfold on_scheduler.
  - destruct (next_task_iter_sinv (sh_scheduler (pl_shared p)) (worker_role <$> pl_workers p)
      failed t) as (r & s' & Hrun & _ & _ & _ & Hnew);
      [apply Hinv|by rewrite list_lookup_fmap, Ht|].
    rewrite Hrun. intros [= <- <-]. split_and!; [eexists; by eapply (next_task_iter_ensures None)
      | |by left].
    destruct r as [[[v|v]|]|]; simpl; try done. intros v' [= <-]. right. by apply Hnew.
  - destruct (vm_start _); [|done]. intros [= <- <-]. simpl. split_and!; auto.
  - destruct (vm_step _ _) as [[|[]]|]; try done; intros [= <- <-]; simpl; split_and!; auto; done.
  - destruct (add_dependency _ _ _) as [[[] s']|] eqn:Hrun; try done; intros [= <- <-];
      (split_and!; [eexists; by eapply add_dependency_ensures| |by left]); simpl; auto; done.
  - destruct (execution_error _); [done|]. intros [= <- <-]. split_and!; simpl; auto; done.
  - destruct (vec_get _ _); [|done]. intros [= <- <-]. split_and!; simpl; auto.
  - destruct (pool_inv_record failed p t v reads ws nv Hinv Ht) as (wrote & mv' & Hrun & _).
    rewrite Hrun. intros [= <- <-]. split_and!; simpl; [auto|done|].
    destruct (lookup_lt_is_Some_2 (mv_last_locations (sh_memory (pl_shared p))) (tx_idx v))
      as [last Hlast].
    { rewrite (mv_wf_length _ _ (pi_memory Hinv)).
      by destruct (worker_status failed p t _ _ Hinv Ht eq_refl). }
    destruct (record_run v reads ws _ last Hlast) as (? & ? & Hrun' & _ & _ & He).
    rewrite Hrun in Hrun'. simplify_eq. intros loc j inc val. rewrite He. repeat case_match; try done; [|by left..].
    intros [= <- <-]. bool_to_prop. right. by exists v.
  - destruct (finish_execution _ _ _ _) as [[r s']|] eqn:Hrun; [|done]. intros [= <- <-].
    split_and!; [eexists; by eapply finish_execution_ensures| |by left]. simpl.
    destruct (pi_workers Hinv _ _ Ht) as [_ (_ & _ & Hnv & Hwrote)].
    destruct (finish_execution_sinv (sh_scheduler (pl_shared p))
      (worker_role <$> pl_workers p) failed t v wrote_new_location nv)
      as (r' & s'' & Hrun' & _ & Hr & _); [apply Hinv|by eapply worker_has_role|done|auto|].
    rewrite Hrun in Hrun'. simplify_eq. by destruct Hr as [-> | ->].
  - destruct (validate_read_locations _ _) as [[]|]; try done; intros [= <- <-];
      split_and!; simpl; auto; done.
  - destruct (try_validation_abort _ _) as [[[] s']|] eqn:Hrun; try done; intros [= <- <-];
      (split_and!; [eexists; by eapply try_validation_abort_ensures| |by left]); done.
  - destruct (pool_inv_convert failed p t v Hinv Ht) as (mv' & Hrun & _).
    rewrite Hrun. intros [= <- <-]. split_and!; simpl; [auto|done|].
    destruct (lookup_lt_is_Some_2 (mv_last_locations (sh_memory (pl_shared p))) (tx_idx v))
      as [last Hlast].
    { rewrite (mv_wf_length _ _ (pi_memory Hinv)).
      by destruct (worker_status failed p t _ _ Hinv Ht eq_refl). }
    destruct (convert_run (tx_idx v) _ last Hlast) as (? & Hrun' & _ & He).
    rewrite Hrun in Hrun'. simplify_eq. intros loc j inc val. rewrite He. case_match; [done|by left].
  - destruct (finish_validation _ _ _) as [[r s']|] eqn:Hrun; [|done]. intros [= <- <-].
    split_and!; [eexists; by eapply (finish_validation_ensures None)| |by left]. simpl.
    intros v' Hv'. destruct r as [[v''|]|]; try done. simplify_eq. right. destruct aborted.
    + destruct (finish_validation_abort_sinv (sh_scheduler (pl_shared p))
        (worker_role <$> pl_workers p) failed t v) as (r & s'' & Hrun' & _ & _ & Hnew);
        [apply Hinv|by eapply worker_has_role|].
      rewrite Hrun in Hrun'. simplify_eq. by apply Hnew.
    + destruct (finish_validation_ok_sinv (sh_scheduler (pl_shared p))
        (worker_role <$> pl_workers p) failed t v) as (s'' & Hrun' & _);
        [apply Hinv|by eapply worker_has_role|].
      rewrite Hrun in Hrun'. by simplify_eq.
  - destruct (execution_error (pl_shared p)) eqn:He; intros [= <- <-]; split_and!; auto; [done|].
    destruct next as [[]|]; simpl; auto; done.
  - intros [= <- <-]. split_and!; auto.
  - intros [= <- <-]. split_and!; auto.
Qed.
(** No worker will record incarnation [inc] of [i] any more. *)
Definition spent p (i : TxIdx) (inc : TxIncarnation) : Prop :=
  (forall tx, transactions_status (sh_scheduler (pl_shared p)) !! i = Some tx -> used inc tx) /\
  (forall t w v, pl_workers p !! t = Some w -> pending_version w = Some v -> tx_idx v = i ->
     inc < tx_incarnation v).

Lemma spent_entry failed p loc i inc val :
  pool_inv (lazy := lazy) failed p ->
  entry_at (mv_data (sh_memory (pl_shared p))) loc i = Some (Data inc val) -> spent p i inc.
Proof.
  intros Hinv Hent. split.
  - intros tx Htx. by eapply (pi_used Hinv).
  - intros t w v Ht Hv <-. by eapply (wi_pending (pi_workers Hinv t w Ht) v Hv).
Qed.

Lemma spent_step failed p t loc i inc val :
  pool_inv (lazy := lazy) failed p -> spent p i inc ->
  spent (step_thread t p) i inc /\
  (entry_at (mv_data (sh_memory (pl_shared (step_thread t p)))) loc i = Some (Data inc val) ->
   entry_at (mv_data (sh_memory (pl_shared p))) loc i = Some (Data inc val)).
Proof.
  intros Hinv [Hused Hpend]. unfold step_thread.
  destruct (pl_workers p !! t) as [w|] eqn:Ht; [|done].
  destruct (worker_step w (pl_shared p)) as [[w' sh']|f] eqn:Hrun; simpl.
  2: { split; [|done]. split; [done|]. simpl. intros t' w0 v Ht' Hv Hi.
       apply list_lookup_insert_Some in Ht' as [(_ & <- & _)|[_ ?]]; [done|by eauto]. }
  destruct (worker_step_trace failed p t w w' sh' Hinv Ht Hrun) as ([own Hef] & Hnew & Hent).
  split.
  - split; simpl.
    + intros tx' Htx'.
      destruct (lookup_lt_is_Some_2 (transactions_status (sh_scheduler (pl_shared p))) i)
        as [tx Htx]; [rewrite <-(ef_length Hef); by eapply lookup_lt_Some|].
      eapply used_legal; [|by apply Hused].
      by eapply tx_effect_legal, (ef_status Hef).
    + intros t' w0 v Ht' Hv Hi.
      apply list_lookup_insert_Some in Ht' as [(-> & <- & _)|[_ ?]]; [|by eauto].
      destruct (Hnew v Hv) as [?|[_ (tx & Htx & Hold)]]; [by eauto|].
      rewrite Hi in Htx. destruct (Hused tx Htx) as [? Hr].
      destruct Hold as [[Hst <-]|?]; [auto|lia].
  - intros [?|(v & Hv & Hi & Hinc)]%Hent; [done|].
    specialize (Hpend t w v Ht Hv Hi). lia.
Qed.

(** The end of a block, with the invariant. *)
Lemma pool_complete status_ dependents deps threads p :
  (Z.of_nat n < 2 ^ 64)%Z -> initial_wf n status_ dependents deps -> 0 < threads ->
  reachable lazy status_ dependents deps threads p ->
  all_done p = true -> execution_error (pl_shared p) = None ->
  pool_inv (lazy := lazy) false p /\
  forall i, i < n ->
    (exists st, st_at (sh_scheduler (pl_shared p)) i = Some st /\ is_done st = true /\
       (min_validation_idx (sh_scheduler (pl_shared p)) <= i -> st = Validated)) /\
    (exists r, execution_results (pl_shared p) !! i = Some (Some r)) /\
    (forall loc, entry_at (mv_data (sh_memory (pl_shared p))) loc i <> Some Estimate).
Proof.
  intros Hn Hwf Hthreads Hp Hall He.
  destruct (exit_inv_reachable _ _ _ _ _ Hn Hwf Hthreads Hp) as [Hexit [failed Hinv]].
  destruct (Hexit Hall He) as [Hex Hval]. apply pool_inv_not_failed in Hinv; [|done|].
  2: { intros t f Ht. by specialize (all_done_lookup p t _ Hall Ht). }
  split; [done|]. intros i Hi. pose proof (pi_scheduler Hinv) as Hs. pose proof (pi_size Hinv) as Hsize.
  assert (forall t r, (worker_role <$> pl_workers p) !! t <> Some (Some r)) as Hno.
  { intros t r (w & Hr & Ht)%list_lookup_fmap_Some.
    by rewrite (all_done_lookup p t w Hall Ht) in Hr. }
  destruct (sized_lookup _ i (si_sized Hs)) as [tx Htx]; [lia|].
  assert (st_at (sh_scheduler (pl_shared p)) i = Some (status tx)) as Hst
    by (apply st_at_Some; eauto).
  pose proof (sinv_idle_done _ _ Hs Hno Hex i _ Hst) as Hd.
  destruct (pi_done Hinv i _ Hst Hd) as [Hres Hest]. split_and!; [|done|done].
  exists (status tx). split_and!; [done|done|]. intros Hm.
  pose proof (sinv_idle_validated _ _ Hs Hno Hex Hval) as Hc.
  assert (st_at (sh_scheduler (pl_shared p)) i = Some Validated); [|congruence].
  eapply sinv_all_validated; [done|done|lia].
Qed.

(** * Properties *)

(** C9. Whatever the interleaving of the threads, no call on the scheduler, the
    multi-version memory or the vector of results panics, indexes out of range
    or deadlocks with itself: the only steps of a worker that can are calls
    into the virtual machine, and reporting an error when another worker has
    already reported one. *)
Theorem pool_calls_return status_ dependents deps threads p t w :
  (Z.of_nat n < 2 ^ 64)%Z -> initial_wf n status_ dependents deps -> 0 < threads ->
  reachable lazy status_ dependents deps threads p ->
  pl_workers p !! t = Some w -> may_panic (pl_shared p) w = false ->
  exists w' sh', worker_step w (pl_shared p) = Val (w', sh').
Proof.
  intros Hn Hwf Hthreads Hp Ht Hw.
  destruct (exit_inv_reachable _ _ _ _ _ Hn Hwf Hthreads Hp) as [_ [failed Hinv]].
  destruct (worker_step_ok failed p t w Hinv Ht) as [(w' & sh' & _ & ? & _)|[? _]]; [eauto|].
  congruence.
Qed.

(** C4. When all threads have left and no error was reported, every
    transaction of the block has been executed, every transaction from the
    lowest one that needs validation on is validated, each has its result, and
    no estimate is left in the multi-version memory, so collecting the results
    and evaluating the lazy updates finds a value everywhere. *)
Theorem block_completes status_ dependents deps threads p :
  (Z.of_nat n < 2 ^ 64)%Z -> initial_wf n status_ dependents deps -> 0 < threads ->
  reachable lazy status_ dependents deps threads p ->
  all_done p = true -> execution_error (pl_shared p) = None ->
  forall i, i < n ->
    (exists st, st_at (sh_scheduler (pl_shared p)) i = Some st /\ is_done st = true /\
       (min_validation_idx (sh_scheduler (pl_shared p)) <= i -> st = Validated)) /\
    (exists r, execution_results (pl_shared p) !! i = Some (Some r)) /\
    (forall loc, entry_at (mv_data (sh_memory (pl_shared p))) loc i <> Some Estimate).
Proof. intros. by eapply pool_complete. Qed.

(** C10. Threads never wait for each other in vain: in every reachable state
    where no thread holds a task and none has failed, the loop of [next_task]
    of a waiting thread returns within 2n+2 turns, with a task, or with none
    when the block is complete. *)
Theorem idle_threads_progress status_ dependents deps threads p t :
  (Z.of_nat n < 2 ^ 64)%Z -> initial_wf n status_ dependents deps -> 0 < threads ->
  reachable lazy status_ dependents deps threads p ->
  execution_error (pl_shared p) = None -> pl_workers p !! t = Some WNext ->
  (forall t' w, pl_workers p !! t' = Some w -> w = WNext \/ w = WDone) ->
  exists r s',
    next_task (2 * n + 2) (sh_scheduler (pl_shared p)) = Val (r, s') /\
    (r = None -> forall i, i < n ->
       exists st, st_at s' i = Some st /\ is_done st = true /\
                  (min_validation_idx s' <= i -> st = Validated)).
Proof.
  intros Hn Hwf Hthreads Hp He Ht Hidle.
  destruct (exit_inv_reachable _ _ _ _ _ Hn Hwf Hthreads Hp) as [_ [failed Hinv]].
  apply pool_inv_not_failed in Hinv; [|done|].
  2: { intros t' f Ht'. by destruct (Hidle t' _ Ht'). }
  destruct (next_task_returns (sh_scheduler (pl_shared p)) (worker_role <$> pl_workers p)
    t (2 * n + 2)) as (r & s' & ? & _ & Hall).
  - apply Hinv.
  - by rewrite list_lookup_fmap, Ht.
  - intros t' r (w & Hr & Ht')%list_lookup_fmap_Some.
    by destruct (Hidle t' w Ht') as [-> | ->].
  - rewrite (pi_size Hinv). lia.
  - exists r, s'. split; [done|]. by rewrite (pi_size Hinv) in Hall.
Qed.

(** C17. A version (a transaction and its incarnation) identifies the values it
    wrote: if a location holds a value of a version at some point and a value
    of the same version later, it is the same value, whatever happened in
    between.  This is what makes comparing versions, as validation does, enough
    to compare the values read. *)
Theorem version_identifies_value status_ dependents deps threads p p' loc i inc val val' :
  (Z.of_nat n < 2 ^ 64)%Z -> initial_wf n status_ dependents deps -> 0 < threads ->
  reachable lazy status_ dependents deps threads p -> rtc pool_step p p' ->
  entry_at (mv_data (sh_memory (pl_shared p))) loc i = Some (Data inc val) ->
  entry_at (mv_data (sh_memory (pl_shared p'))) loc i = Some (Data inc val') ->
  val' = val.
Proof.
  intros Hn Hwf Hthreads Hp Hsteps Hent Hent'.
  destruct (exit_inv_reachable _ _ _ _ _ Hn Hwf Hthreads Hp) as [_ [failed Hinv]].
  destruct (rtc_invariant pool_step (fun p => (exists f, pool_inv (lazy := lazy) f p) /\
    spent p i inc /\ forall x, entry_at (mv_data (sh_memory (pl_shared p))) loc i =
                               Some (Data inc x) -> x = val) _ _ Hsteps) as (_ & _ & Hval).
  - split_and!; [by eexists|by eapply spent_entry|]. intros x Hx. by simplify_eq.
  - intros p1 p2 (t & _ & ->) ([f1 H1] & Hsp & Hval).
    destruct (step_thread_inv f1 p1 t H1) as (f2 & ? & _). split_and!; [by eexists| |].
    + by eapply (spent_step f1 p1 t loc i inc val).
    + intros x Hx. apply Hval. by eapply (spent_step f1 p1 t loc i inc x).
  - by apply Hval.
Qed.

End theorems.

(** ** A virtual machine for the witnesses *)

Module Counter.
(** Every transaction adds one to the counter at location 1 and lets the
    beneficiary's location 0 grow by one. *)
Definition result_of (i : TxIdx) : PevmTxExecutionResult :=
  {| receipt := {| rc_status := true; rc_cumulative_gas_used := Z.of_nat i; rc_logs := [] |};
     state := ∅ |}.

Definition increment (i : TxIdx) (origin : ReadOrigin) (x : Z) : VmExecutionResult :=
  VmOk (result_of i) {[1%Z := [origin]]}
       [(0%Z, ValLazyBalanceAddition 1); (1%Z, ValStorage (x + 1))] (Some i).

Definition step (mv : MvMemory) (i : TxIdx) : VmExecutionResult :=
  match range_rev (default ∅ (read_location 1%Z mv)) i with
  | (b, Estimate) :: _ => VmReadError b
  | (j, Data inc (ValStorage x)) :: _ =>
      increment i (OriginMvMemory {| tx_idx := j; tx_incarnation := inc |}) x
  | _ => increment i OriginStorage 0
  end.

#[export] Instance vm : VmOps :=
  {| Exec := TxIdx; vm_start := fun i => Val i; vm_step := fun mv i => Val (inr (step mv i)) |}.

Lemma step_result mv i : result_ok (fun _ _ => True) 0%Z i (step mv i).
Proof.
  assert (forall o x, (o = OriginStorage \/ exists v, o = OriginMvMemory v) ->
    result_ok (fun _ _ => True) 0%Z i (increment i o x)) as Hinc.
  { intros o x Ho. split_and!; [set_solver| |naive_solver|done].
    intros loc origins [<- <-]%lookup_singleton_Some.
    destruct Ho as [->|[v ->]]; [exists [], [OriginStorage]|exists [v], []]; naive_solver. }
  unfold step. destruct (range_rev _ i) as [|[j [inc []|]] l] eqn:Hr; eauto.
  simpl. apply (elem_of_range_rev (default ∅ (read_location 1%Z mv)) i j Estimate).
  rewrite Hr. set_solver.
Qed.

#[export] Instance contract n : VmContract n 0%Z.
Proof.
  refine {| typed := fun _ _ => True; exec_inv := fun i (e : @Exec vm) => e = i |}.
  - intros i e _ [= <-]. done.
  - intros i mv e e' _ Hs. discriminate.
  - intros i mv e r -> [= <-]. apply step_result.
Defined.

(** A block of three transactions and two threads. *)
Definition status0 : TransactionsStatus :=
  replicate 3 {| incarnation := 0; status := ReadyToExecute |}.

Definition start : Pool :=
  start_pool (Scheduler.new 3 status0 [[]; []; []] ∅) (initial_memory 3 0%Z) 3 2.

(** Both threads take a transaction and read the counter before either writes
    it; then they alternate. *)
Definition schedule : list nat := concat (replicate 40 [0; 1]).

Definition run (l : list nat) : Pool := foldl (fun p t => step_thread t p) start l.

Lemma start_wf : initial_wf 3 status0 [[]; []; []] ∅.
Proof.
  split; try done.
  - intros b l i Hl Hi. apply list_elem_of_lookup_2 in Hl.
    repeat (apply elem_of_cons in Hl as [->|Hl]; [set_solver|]). set_solver.
  - intros b l Hl. apply list_elem_of_lookup_2 in Hl.
    repeat (apply elem_of_cons in Hl as [->|Hl]; [constructor|]). set_solver.
  - intros i tx [-> _]%lookup_replicate. right. split_and!; done.
Qed.

Lemma schedule_threads k : Forall (fun t => t < 2) (take k schedule).
Proof.
  apply Forall_take. unfold schedule. apply Forall_concat, Forall_replicate.
  repeat constructor.
Qed.

Lemma run_reachable k : reachable 0%Z status0 [[]; []; []] ∅ 2 (run (take k schedule)).
Proof. apply steps_rtc, schedule_threads. Qed.
End Counter.

#[local] Existing Instances Counter.vm Counter.contract.

Lemma pool_calls_return_witness :
  exists w' sh',
    worker_step (WFinishExecution {| tx_idx := 1; tx_incarnation := 0 |} true (Some 1))
                (pl_shared (Counter.run (take 10 Counter.schedule))) = Val (w', sh').
Proof.
  apply (pool_calls_return (n := 3) (lazy := 0%Z) Counter.status0 [[]; []; []] ∅ 2 _ 1
    (WFinishExecution {| tx_idx := 1; tx_incarnation := 0 |} true (Some 1))).
  - lia.
  - exact Counter.start_wf.
  - lia.
  - apply Counter.run_reachable.
  - vm_compute. reflexivity.
  - reflexivity.
Defined.

(** The counter ends at three although the first attempts all read zero. *)
Lemma block_completes_witness :
  let p := Counter.run (take 80 Counter.schedule) in
  all_done p = true /\
  (exists st, st_at (sh_scheduler (pl_shared p)) 2 = Some st /\ is_done st = true /\
     (min_validation_idx (sh_scheduler (pl_shared p)) <= 2 -> st = Validated)) /\
  entry_at (mv_data (sh_memory (pl_shared p))) 1%Z 2 = Some (Data 1 (ValStorage 3)).
Proof.
  intros p. split_and!.
  - vm_compute. reflexivity.
  - apply (block_completes (n := 3) (lazy := 0%Z) Counter.status0 [[]; []; []] ∅ 2 p).
    + lia.
    + exact Counter.start_wf.
    + lia.
    + apply Counter.run_reachable.
    + vm_compute. reflexivity.
    + vm_compute. reflexivity.
    + lia.
  - vm_compute. reflexivity.
Defined.

Lemma idle_threads_progress_witness :
  exists r s',
    next_task 8 (sh_scheduler (pl_shared (Counter.run (take 0 Counter.schedule)))) =
      Val (r, s') /\
    (r = None -> forall i, i < 3 ->
       exists st, st_at s' i = Some st /\ is_done st = true /\
                  (min_validation_idx s' <= i -> st = Validated)).
Proof.
  apply (idle_threads_progress (n := 3) (lazy := 0%Z) Counter.status0 [[]; []; []] ∅ 2 _ 0).
  - lia.
  - exact Counter.start_wf.
  - lia.
  - apply Counter.run_reachable.
  - reflexivity.
  - reflexivity.
  - intros t w Hw. left. by apply lookup_replicate in Hw as [-> _].
Defined.

Lemma version_identifies_value_witness :
  let p := Counter.run (take 12 Counter.schedule) in
  let p' := foldl (fun p t => step_thread t p) p (drop 12 Counter.schedule) in
  entry_at (mv_data (sh_memory (pl_shared p))) 1%Z 0 = Some (Data 0 (ValStorage 1)) /\
  forall val', entry_at (mv_data (sh_memory (pl_shared p'))) 1%Z 0 = Some (Data 0 val') ->
    val' = ValStorage 1.
Proof.
  intros p p'. split; [vm_compute; reflexivity|]. intros val' Hval'.
  apply (version_identifies_value (n := 3) (lazy := 0%Z) Counter.status0 [[]; []; []] ∅ 2
    p p' 1%Z 0 0 (ValStorage 1) val').
  - lia.
  - exact Counter.start_wf.
  - lia.
  - apply Counter.run_reachable.
  - apply steps_rtc. apply Forall_drop.
    assert (length (pl_workers p) = 2) as -> by (vm_compute; reflexivity).
    apply (Counter.schedule_threads 80).
  - vm_compute. reflexivity.
  - exact Hval'.
Defined.

