(* ===== verification/Validity.v ===== *)
(** * Validity: the reads of a finished block are valid

    The safety argument of Block-STM for the workers: in every reachable state,
    an executed transaction that must be validated either has valid reads in the
    current memory, or its validation is still to come ([validation_idx] has not
    passed it, a worker holds its validation, or a worker is about to lower
    [validation_idx] below it).  When all threads have left there is no such
    worker and the counter is past the block, so all its reads are valid. *)

From stdpp Require Import base list gmap relations.
From Stdlib Require Import ZArith Lia.
From S2P Require Import Prelude Types MvMemory Scheduler SchedulerEffects SchedulerInv.
From S2P Require Import Revm Storage Vm Workers WorkersInv WorkersCorrect.

(** The reads that the transaction last recorded are valid. *)
Definition reads_valid (mv : MvMemory) (i : TxIdx) : Prop :=
  validate_read_locations i mv = Val true.

(** ** Replacing estimates keeps valid reads valid *)

(** A valid list of origins never gets to an estimate. *)
Lemma validate_origins_estimate h1 k h2 h3 origins :
  validate_origins (h1 ++ (k, Estimate) :: h2) origins = true ->
  validate_origins (h1 ++ h3) origins = true.
Proof.
  revert origins. induction h1 as [|[k' e] h1 IH]; intros [|[v|] origins]; simpl; try done.
  destruct e as [inc val|]; [|done]. destruct (_ || _); [done|]. apply IH.
Qed.

(** The entries above a key do not depend on it. *)
Lemma range_rev_split {V} (m : gmap nat V) i j :
  j < i -> exists h, range_rev m i = h ++ range_rev m (S j) /\
    forall m', (forall k, k < i -> k <> j -> m' !! k = m !! k) ->
      range_rev m' i = h ++ range_rev m' (S j).
Proof.
  intros Hj. induction Hj as [|i Hj (h & Hh & Hm')].
  - by exists [].
  - cbn [range_rev]. destruct (m !! i) as [e|] eqn:Hi.
    + exists ((i, e) :: h). rewrite Hh. split; [done|]. intros m' Heq.
      rewrite Heq, Hi by lia. rewrite Hm'; [done|]. intros. apply Heq; lia.
    + exists h. split; [done|]. intros m' Heq. rewrite Heq, Hi by lia.
      apply Hm'. intros. apply Heq; lia.
Qed.

Lemma validate_estimates n mv mv' i j :
  mv_wf n mv -> mv_wf n mv' -> j < i ->
  mv_last_locations mv' !! i = mv_last_locations mv !! i ->
  (forall loc k, k < i -> k <> j ->
     entry_at (mv_data mv') loc k = entry_at (mv_data mv) loc k) ->
  (forall loc, entry_at (mv_data mv') loc j = entry_at (mv_data mv) loc j \/
               entry_at (mv_data mv) loc j = Some Estimate) ->
  reads_valid mv i -> reads_valid mv' i.
Proof.
  unfold reads_valid. intros Hwf Hwf' Hj Hl Hne Hest Hv.
  destruct (mv_last_locations mv !! i) as [last|] eqn:Hlast.
  2: { unfold validate_read_locations, vec_get in Hv. by rewrite Hlast in Hv. }
  rewrite validate_read_locations_true in Hv |- * by done. intros loc origins Ho.
  specialize (Hv loc origins Ho). rewrite validate_location_history in Hv |- *
    by (eapply mv_wf_read; [|done..]; done).
  destruct (Hest loc) as [Hsame|He].
  - rewrite (history_ext (mv_data mv') (mv_data mv)); [done|]. intros k Hk.
    destruct (decide (k = j)) as [->|]; auto.
  - unfold history in *.
    destruct (range_rev_split (default ∅ (mv_data mv !! loc)) i j Hj) as (h & Hh & Hm').
    rewrite (Hm' (default ∅ (mv_data mv' !! loc))).
    + rewrite Hh in Hv. unfold entry_at in He. destruct (mv_data mv !! loc) as [tree|]; [|done].
      simpl in *. rewrite He in Hv. by eapply validate_origins_estimate.
    + intros k Hk Hkj. specialize (Hne loc k Hk Hkj). unfold entry_at in Hne.
      by destruct (mv_data mv !! loc), (mv_data mv' !! loc); simpl in *; rewrite ?lookup_empty.
Qed.

(** ** Operations that leave the validation counters alone *)

Definition keeps_counters {A} (op : ST Scheduler A) : Prop :=
  forall s r s', op s = Val (r, s') ->
    validation_idx s' = validation_idx s /\ min_validation_idx s' = min_validation_idx s.

Lemma keeps_bind {A B} (op : ST Scheduler A) (k : A -> ST Scheduler B) :
  keeps_counters op -> (forall a, keeps_counters (k a)) -> keeps_counters (a ← op; k a).
Proof.
  intros Hop Hk s r s'. unfold mbind, ST_bind.
  destruct (op s) as [[a s1]|] eqn:E; [|done]. intros Hrun.
  destruct (Hop _ _ _ E), (Hk _ _ _ _ Hrun). split; congruence.
Qed.

Lemma keeps_ret {A} (a : A) : keeps_counters (mret a).
Proof. by intros s r s' [= <- <-]. Qed.

Lemma keeps_fail {A} f : keeps_counters (st_fail (A := A) f).
Proof. done. Qed.

Lemma keeps_gets {A} (f : Scheduler -> A) : keeps_counters (st_gets f).
Proof. by intros s r s' [= <- <-]. Qed.

Lemma keeps_modify (f : Scheduler -> Scheduler) :
  (forall s, validation_idx (f s) = validation_idx s /\
             min_validation_idx (f s) = min_validation_idx s) ->
  keeps_counters (st_modify f).
Proof. by intros Hf s r s' [= <- <-]. Qed.

Lemma keeps_lock_status i : keeps_counters (lock_status i).
Proof. intros s r s'. unfold lock_status. by destruct (vec_get _ _); [intros [= <- <-]|]. Qed.

Lemma keeps_lock_dependents i : keeps_counters (lock_dependents i).
Proof. intros s r s'. unfold lock_dependents. by destruct (vec_get _ _); [intros [= <- <-]|]. Qed.

Lemma keeps_fetch_add_execution : keeps_counters fetch_add_execution_idx.
Proof. by intros s r s' [= <- <-]. Qed.

(** Decomposes an operation into calls. *)
Ltac keeps :=
  repeat first
    [ apply keeps_ret | apply keeps_fail | apply keeps_gets | apply keeps_lock_status
    | apply keeps_lock_dependents | apply keeps_fetch_add_execution
    | apply keeps_modify; by intros | apply keeps_bind; [|intros ?] | case_match ].

Lemma keeps_try_execute i : keeps_counters (try_execute i).
Proof.
  intros s r s'. unfold try_execute. generalize (S (block_size s - execution_idx s)) as fuel.
  intros fuel. revert s r s'. change (keeps_counters (try_execute_loop fuel i)).
  revert i. induction fuel as [|fuel IH]; intros i; simpl; keeps. apply IH.
Qed.

Lemma keeps_add_dependency i b : keeps_counters (add_dependency i b).
Proof. unfold add_dependency. keeps. Qed.

Lemma keeps_set_ready_status i : keeps_counters (set_ready_status i).
Proof. unfold set_ready_status. keeps. Qed.

Lemma keeps_try_validation_abort v : keeps_counters (try_validation_abort v).
Proof. unfold try_validation_abort. keeps. Qed.

Lemma keeps_finish_validation v : keeps_counters (finish_validation v false).
Proof. unfold finish_validation. keeps. Qed.

Lemma finish_validation_counters v s r s' :
  finish_validation v true s = Val (r, s') ->
  validation_idx s' = Nat.min (validation_idx s) (tx_idx v + 1) /\
  min_validation_idx s' = min_validation_idx s.
Proof.
  unfold finish_validation, mbind, ST_bind, st_gets, st_modify.
  destruct (set_ready_status (tx_idx v) s) as [[[] s1]|] eqn:E1; [|done].
  destruct (keeps_set_ready_status _ _ _ _ E1) as [Hv Hm]. cbn [fetch_min_validation_idx st_modify].
  destruct (tx_idx v <? _).
  - destruct (try_execute (tx_idx v) _) as [[r' s2]|] eqn:E2; [|done]. intros [= <- <-].
    destruct (keeps_try_execute _ _ _ _ E2) as [Hv2 Hm2]. simpl in *. split; congruence.
  - intros [= <- <-]. simpl. split; congruence.
Qed.

(** [next_task] moves [validation_idx] past a transaction only to validate it, or
    when it is not executed. *)
Lemma next_task_iter_counters s r s' :
  sized s -> next_task_iter s = Val (r, s') ->
  min_validation_idx s' = min_validation_idx s /\
  forall i st, validation_idx s <= i -> st_at s i = Some st -> is_done st = true ->
    validation_idx s' <= i \/ exists v, r = Some (Some (ValidationTask v)) /\ tx_idx v = i.
Proof.
  intros Hs. unfold next_task_iter, mbind, ST_bind, st_gets.
  destruct (_ && _).
  { case_match; intros [= <- <-]; auto. }
  destruct (_ <? _).
  - destruct (try_validate_run s Hs) as (rv & -> & Hrv).
    destruct rv as [v|]; intros [= <- <-]; (split; [done|]); intros i st Hi Hst Hd;
      apply st_at_Some in Hst as (tx & Htx & <-); simpl.
    + destruct (decide (validation_idx s = i)) as [<-|]; [|left; lia]. destruct Hrv. eauto.
    + destruct (decide (validation_idx s = i)) as [<-|]; [|left; lia].
      rewrite (Hrv tx Htx) in Hd. done.
  - cbn [fetch_add_execution_idx]. destruct (try_execute _ _) as [[re s1]|] eqn:E; [|done].
    destruct (keeps_try_execute _ _ _ _ E) as [Hv Hm]. simpl in *.
    destruct re; intros [= <- <-]; (split; [done|]); intros i st Hi; left; lia.
Qed.

(** After an execution, validation goes on at the transaction itself or below,
    or the validation of the transaction is handed out; and below every higher
    transaction when a new location was written. *)
Lemma finish_execution_counters s roles failed t v wrote nv r s' :
  sinv s roles failed -> has_role roles t (RExecute (tx_idx v)) ->
  (forall k, nv = Some k -> k = tx_idx v \/ k = S (tx_idx v)) ->
  (wrote = false -> min_validation_idx s <= tx_idx v) ->
  finish_execution v wrote nv s = Val (r, s') ->
  validation_idx s' <= validation_idx s /\
  (forall i, min_validation_idx s' <= i -> i < block_size s ->
     (i < tx_idx v -> min_validation_idx s <= i) /\
     (i = tx_idx v -> validation_idx s' <= i \/ r = Some (ValidationTask v)) /\
     (tx_idx v < i -> if wrote then validation_idx s' <= i else min_validation_idx s <= i)).
Proof.
  intros Hinv Ht Hnv Hwrote. destruct (finish_execution_run _ _ _ _ v wrote nv Hinv Ht)
    as (tx & _ & ->).
  assert (validation_idx (executed s (tx_idx v) tx) = validation_idx s /\
    min_validation_idx (executed s (tx_idx v) tx) = min_validation_idx s /\
    block_size (executed s (tx_idx v) tx) = block_size s) as (Ev & Em & Eb).
  { unfold executed. by destruct (min_resumed _ _ _). }
  destruct (schedule_validation_run v wrote nv (executed s (tx_idx v) tx))
    as (r' & m & x & -> & Hm & _ & Hcases).
  rewrite Ev, Em, Eb in *. intros [= <- <-]. simpl.
  assert (forall i, m <= i < tx_idx v -> min_validation_idx s <= i) as Hlow.
  { intros i Hi. destruct nv as [k|]; [|lia]. destruct (Hnv k eq_refl); lia. }
  assert (tx_idx v < m -> forall i, m <= i -> tx_idx v < i) as Hup by lia.
  repeat case_decide; destruct Hcases as [-> ->]; destruct wrote; (split; [lia|]);
    intros i Hi Hb; (split_and!; [intros; apply Hlow; lia|..]); intros;
    try specialize (Hwrote eq_refl); (lia || auto with lia).
Qed.

(** ** The invariant *)

Section validity.
Context `{VmOps} {n : nat} {lazy : MemoryLocationHash} `{!VmContract n lazy}.
Implicit Types (w : worker) (sh : Shared) (p : Pool) (failed : bool).

(** The worker will validate [i], or lower [validation_idx] so that [i] is
    validated; a thread that panicked ends the block. *)
Definition duty w (i : TxIdx) : Prop :=
  match w with
  | WValidate v | WTryAbort v | WCheckError (Some (ValidationTask v)) => tx_idx v = i
  | WFinishExecution v wrote _ => wrote = true /\ tx_idx v < i
  | WConvert v | WFinishValidation v true => tx_idx v < i
  | WPanicked _ => True
  | _ => False
  end.

(** The worker is about to mark [i] executed, or has just marked it aborting. *)
Definition live w (i : TxIdx) : Prop :=
  match w with WFinishExecution v _ _ | WConvert v => tx_idx v = i | _ => False end.

(** Why [i] needs nothing from the other workers. *)
Definition settled sh w (i : TxIdx) : Prop :=
  reads_valid (sh_memory sh) i \/ validation_idx (sh_scheduler sh) <= i \/
  is_Some (execution_error sh) \/ duty w i.

Definition must_validate sh (i : TxIdx) : Prop :=
  min_validation_idx (sh_scheduler sh) <= i /\
  exists st, st_at (sh_scheduler sh) i = Some st /\ is_done st = true.

Record valid_inv p : Prop := {
  (* values in the memory are those of executed transactions *)
  vi_live : forall loc i inc val,
    entry_at (mv_data (sh_memory (pl_shared p))) loc i = Some (Data inc val) ->
    (exists st, st_at (sh_scheduler (pl_shared p)) i = Some st /\ is_done st = true) \/
    exists t w, pl_workers p !! t = Some w /\ live w i;
  vi_valid : forall i, must_validate (pl_shared p) i ->
    reads_valid (sh_memory (pl_shared p)) i \/
    validation_idx (sh_scheduler (pl_shared p)) <= i \/
    is_Some (execution_error (pl_shared p)) \/
    exists t w, pl_workers p !! t = Some w /\ duty w i;
}.

(** A step of thread [t] keeps the invariant if it settles what it had to do. *)
Lemma valid_inv_moved p t w w' sh' :
  valid_inv p -> pl_workers p !! t = Some w ->
  (forall loc i inc val,
     entry_at (mv_data (sh_memory sh')) loc i = Some (Data inc val) ->
     (exists st, st_at (sh_scheduler sh') i = Some st /\ is_done st = true) \/ live w' i \/
     entry_at (mv_data (sh_memory (pl_shared p))) loc i = Some (Data inc val) /\ ~ live w i /\
     (forall st, st_at (sh_scheduler (pl_shared p)) i = Some st -> is_done st = false)) ->
  (forall i, must_validate sh' i ->
     settled sh' w' i \/
     must_validate (pl_shared p) i /\ (settled (pl_shared p) w i -> settled sh' w' i)) ->
  valid_inv (moved p t w' sh').
Proof.
  intros [Hl Hv] Ht Hlive Hval. split; simpl.
  - intros loc i inc val Hent. destruct (Hlive loc i inc val Hent) as [?|[?|(Hold & Hw & Hd)]].
    + by left.
    + right. exists t, w'. split; [|done]. apply list_lookup_insert_eq. by eapply lookup_lt_Some.
    + destruct (Hl loc i inc val Hold) as [(st & Hst & Hdone)|(t' & w0 & Ht' & Hw0)].
      * by rewrite (Hd st Hst) in Hdone.
      * right. exists t', w0. rewrite list_lookup_insert_ne; [done|]. intros ->. by simplify_eq.
  - intros i Hi. assert (settled sh' w' i \/ exists t' w0,
      <[t:=w']> (pl_workers p) !! t' = Some w0 /\ duty w0 i) as [Hs|?]; [| |by auto].
    + destruct (Hval i Hi) as [?|[Hm Hset]]; [by left|].
      destruct (Hv i Hm) as [?|[?|[?|(t' & w0 & Ht' & Hd)]]];
        try (left; apply Hset; unfold settled; tauto).
      destruct (decide (t' = t)) as [->|Hne].
      * simplify_eq. left. apply Hset. unfold settled. tauto.
      * right. exists t', w0. by rewrite list_lookup_insert_ne.
    + destruct Hs as [?|[?|[?|Hd]]]; auto. right; right; right. exists t, w'.
      split; [|done]. apply list_lookup_insert_eq. by eapply lookup_lt_Some.
Qed.

(** Memory and scheduler stay as they are. *)
Lemma valid_inv_same p t w w' sh' :
  valid_inv p -> pl_workers p !! t = Some w ->
  sh_scheduler sh' = sh_scheduler (pl_shared p) -> sh_memory sh' = sh_memory (pl_shared p) ->
  (is_Some (execution_error (pl_shared p)) -> is_Some (execution_error sh')) ->
  (forall i, ~ live w i) -> (forall i, duty w i -> settled sh' w' i) ->
  valid_inv (moved p t w' sh').
Proof.
  intros Hv Ht Es Em Ee Hlive Hduty. apply (valid_inv_moved p t w); [done|done|..].
  - intros loc i inc val. rewrite Es, Em. intros Hent.
    destruct (st_at (sh_scheduler (pl_shared p)) i) as [st|] eqn:Hst.
    + destruct (is_done st) eqn:Hd; [by left; eauto|right; right]. split_and!; auto. congruence.
    + right; right. split_and!; auto. congruence.
  - unfold must_validate, settled. rewrite Es, Em. intros i Hi. right. split; [done|].
    intros [?|[?|[?|Hd]]]; auto. specialize (Hduty i Hd). unfold settled in Hduty.
    by rewrite Es, Em in Hduty.
Qed.

(** An operation on the scheduler that leaves [min_validation_idx] alone. *)
Lemma valid_inv_sched p t w w' s' own :
  valid_inv p -> pl_workers p !! t = Some w ->
  effect own (sh_scheduler (pl_shared p)) s' ->
  min_validation_idx s' = min_validation_idx (sh_scheduler (pl_shared p)) ->
  (forall i, ~ live w i) ->
  (forall i st, st_at (sh_scheduler (pl_shared p)) i = Some st -> is_done st = true ->
     validation_idx (sh_scheduler (pl_shared p)) <= i \/ duty w i ->
     own = Some i \/ validation_idx s' <= i \/ duty w' i) ->
  (forall j st st', own = Some j -> st_at (sh_scheduler (pl_shared p)) j = Some st ->
     st_at s' j = Some st' -> is_done st' = false /\ (is_done st = true -> live w' j)) ->
  valid_inv (moved p t w' (with_scheduler s' (pl_shared p))).
Proof.
  intros Hv Ht Hef Em Hlive Hduty Hown. apply (valid_inv_moved p t w); [done|done|..].
  - intros loc i inc val Hent. simpl in *.
    destruct (st_at s' i) as [st'|] eqn:Hst'.
    + destruct (effect_st_at own _ _ _ _ Hef Hst') as (st & Hst & Hsame).
      destruct (decide (own = Some i)) as [Hi|Hi].
      * destruct (Hown i st st' Hi Hst Hst') as [_ Hl].
        destruct (is_done st) eqn:Hd; [by auto|right; right]. split_and!; auto. congruence.
      * destruct (is_done st') eqn:Hd; [by left; eauto|right; right]. split_and!; auto.
        intros st0 Hst0. rewrite Hst in Hst0. injection Hst0 as <-. by rewrite <-Hsame.
    + right; right. split_and!; auto. intros st (tx & Htx & _)%st_at_Some.
      destruct (lookup_lt_is_Some_2 (transactions_status s') i) as [tx' Htx'].
      { rewrite (ef_length Hef). by eapply lookup_lt_Some. }
      unfold st_at in Hst'. by rewrite Htx' in Hst'.
  - intros i (Hmin & st' & Hst' & Hd). simpl in *. right.
    destruct (effect_st_at own _ _ _ _ Hef Hst') as (st & Hst & Hsame).
    assert (own <> Some i) as Hi.
    { intros Hi. destruct (Hown i st st' Hi Hst Hst') as [Hf _]. congruence. }
    rewrite Em in Hmin. assert (is_done st = true) as Hd0 by (by rewrite <-Hsame).
    split; [by split; eauto|]. unfold settled. simpl.
    specialize (Hduty i st Hst Hd0). tauto.
Qed.

(** ** The steps *)

Lemma valid_next failed p t w' sh' :
  pool_inv (lazy := lazy) failed p -> valid_inv p -> pl_workers p !! t = Some WNext ->
  worker_step WNext (pl_shared p) = Val (w', sh') -> valid_inv (moved p t w' sh').
Proof.
  intros Hinv Hv Ht. simpl. unfold on_scheduler.
  destruct (next_task_iter _) as [[r s']|] eqn:Hrun; [|done]. intros [= <- <-].
  destruct (next_task_iter_counters _ _ _ (si_sized (pi_scheduler Hinv)) Hrun) as [Em Hc].
  apply (valid_inv_sched p t WNext _ s' None); try done.
  - by eapply (next_task_iter_ensures None).
  - by intros i [].
  - intros i st Hst Hd [Hi|[]]. destruct (Hc i st Hi Hst Hd) as [?|(v & -> & <-)]; [by auto|].
    by right; right.
Qed.

(** An operation that keeps the counters, by a worker that owes no validation. *)
Lemma valid_keep p t w w' s' own :
  valid_inv p -> pl_workers p !! t = Some w ->
  effect own (sh_scheduler (pl_shared p)) s' ->
  validation_idx s' = validation_idx (sh_scheduler (pl_shared p)) /\
  min_validation_idx s' = min_validation_idx (sh_scheduler (pl_shared p)) ->
  (forall i, ~ live w i) -> (forall i, duty w i -> own = Some i) ->
  (forall j st st', own = Some j -> st_at (sh_scheduler (pl_shared p)) j = Some st ->
     st_at s' j = Some st' -> is_done st' = false /\ (is_done st = true -> live w' j)) ->
  valid_inv (moved p t w' (with_scheduler s' (pl_shared p))).
Proof.
  intros Hv Ht Hef [Ev Em] Hl Hd Hown. apply (valid_inv_sched p t w w' s' own); try done.
  intros i st Hst Hdone [Hi|Hi]; [right; left; by rewrite Ev|left; auto].
Qed.

Lemma valid_add_dependency failed p t v b w' sh' :
  pool_inv (lazy := lazy) failed p -> valid_inv p ->
  pl_workers p !! t = Some (WAddDependency v b) ->
  worker_step (WAddDependency v b) (pl_shared p) = Val (w', sh') -> valid_inv (moved p t w' sh').
Proof.
  intros Hinv Hv Ht. simpl. unfold on_scheduler.
  destruct (pi_workers Hinv _ _ Ht) as [Hp Hb]. simpl in Hb.
  destruct (add_dependency_sinv (sh_scheduler (pl_shared p)) (worker_role <$> pl_workers p)
    failed t (tx_idx v) b) as (r & s' & Hrun & Hs & Hyes & Hno);
    [apply Hinv|by eapply worker_has_role|done|].
  pose proof (add_dependency_ensures _ _ _ _ _ Hrun) as Hef.
  pose proof (keeps_add_dependency _ _ _ _ _ Hrun) as Hk.
  rewrite Hrun. intros [= <- <-]. destruct r.
  - apply (valid_keep p t (WAddDependency v b) _ s' (Some (tx_idx v))); try done; [by intros i []|].
    intros j st st' [= <-] Hst Hst'. rewrite Hyes in Hst' by done. simplify_eq. split; [done|].
    intros Hd. destruct (worker_status failed p t _ _ Hinv Ht eq_refl) as (_ & tx & Htx & Hex).
    apply st_at_Some in Hst as (tx' & Htx' & <-). simpl in Htx. simplify_eq. by rewrite Hex in Hd.
  - destruct (Hno eq_refl) as [-> _].
    apply (valid_keep p t (WAddDependency v b) _ _ None); try done; by intros i [].
Qed.

Lemma try_validation_abort_status v s aborted s' st st' :
  try_validation_abort v s = Val (aborted, s') -> st_at s (tx_idx v) = Some st ->
  st_at s' (tx_idx v) = Some st' -> is_done st' = false /\ aborted = is_done st.
Proof.
  intros Hrun (tx & Htx & <-)%st_at_Some. revert Hrun. unfold try_validation_abort.
  st_run. st_index Htx. assert (tx_idx v < length (transactions_status s)) as Hi
    by by eapply lookup_lt_Some.
  destruct (status tx) eqn:Hst; simpl; intros [= <- <-]; unfold st_at; simpl;
    rewrite ?list_lookup_insert_eq by done; rewrite ?Htx; simpl; intros [= <-];
    rewrite ?Hst; done.
Qed.

Lemma valid_try_abort failed p t v w' sh' :
  pool_inv (lazy := lazy) failed p -> valid_inv p -> pl_workers p !! t = Some (WTryAbort v) ->
  worker_step (WTryAbort v) (pl_shared p) = Val (w', sh') -> valid_inv (moved p t w' sh').
Proof.
  intros Hinv Hv Ht. simpl. unfold on_scheduler.
  destruct (try_validation_abort v (sh_scheduler (pl_shared p))) as [[aborted s']|] eqn:Hrun; [|done].
  pose proof (try_validation_abort_ensures _ _ _ _ Hrun) as Hef.
  pose proof (keeps_try_validation_abort _ _ _ _ Hrun) as Hk.
  intros [= <- <-].
  apply (valid_keep p t (WTryAbort v) _ s' (Some (tx_idx v))); try done.
  - by intros i [].
  - by intros i <-.
  - intros j st st' [= <-] Hst Hst'.
    destruct (try_validation_abort_status _ _ _ _ _ _ Hrun Hst Hst') as [Hd ->].
    split; [done|]. by intros ->.
Qed.

Lemma valid_finish_validation failed p t v aborted w' sh' :
  pool_inv (lazy := lazy) failed p -> valid_inv p ->
  pl_workers p !! t = Some (WFinishValidation v aborted) ->
  worker_step (WFinishValidation v aborted) (pl_shared p) = Val (w', sh') ->
  valid_inv (moved p t w' sh').
Proof.
  intros Hinv Hv Ht. simpl. unfold on_scheduler.
  destruct (finish_validation v aborted _) as [[r s']|] eqn:Hrun; [|done]. intros [= <- <-].
  pose proof (finish_validation_ensures None _ _ _ _ _ Hrun) as Hef. destruct aborted.
  - destruct (finish_validation_counters _ _ _ _ Hrun) as [Ev Em].
    apply (valid_inv_sched p t (WFinishValidation v true) _ s' None); try done; [by intros i []|].
    intros i st Hst Hd Hi. right; left. rewrite Ev. destruct Hi as [Hi|Hi]; simpl in Hi; lia.
  - pose proof (keeps_finish_validation _ _ _ _ Hrun) as Hk.
    apply (valid_keep p t (WFinishValidation v false) _ s' None); try done; by intros i [].
Qed.

(** A transaction that a worker executes and has not recorded has no values in the
    memory. *)
Lemma executing_no_data failed p t w loc i inc val :
  pool_inv (lazy := lazy) failed p -> valid_inv p -> pl_workers p !! t = Some w ->
  worker_role w = Some (RExecute i) -> (forall j, ~ live w j) ->
  entry_at (mv_data (sh_memory (pl_shared p))) loc i <> Some (Data inc val).
Proof.
  intros Hinv Hv Ht Hr Hl Hent.
  destruct (worker_status failed p t w _ Hinv Ht Hr) as (_ & tx & Htx & Hst). simpl in *.
  destruct (vi_live _ Hv loc i inc val Hent) as [(st & Hsti & Hd)|(t' & w0 & Ht' & Hw0)].
  - apply st_at_Some in Hsti as (tx' & Htx' & <-). simplify_eq. by rewrite Hst in Hd.
  - destruct w0; simpl in Hw0; try done; subst i.
    + assert (t' = t) as ->; [|simplify_eq; by destruct (Hl (tx_idx v))].
      by apply (worker_unique failed p t' t _ w (RExecute (tx_idx v)) Hinv Ht' Ht).
    + destruct (worker_status failed p t' _ _ Hinv Ht' eq_refl) as (_ & tx' & Htx' & Hst').
      simpl in *. simplify_eq. congruence.
Qed.

Lemma valid_record failed p t v reads ws nv w' sh' :
  pool_inv (lazy := lazy) failed p -> valid_inv p ->
  pl_workers p !! t = Some (WRecord v reads ws nv) ->
  worker_step (WRecord v reads ws nv) (pl_shared p) = Val (w', sh') ->
  valid_inv (moved p t w' sh').
Proof.
  intros Hinv Hv Ht. simpl. pose proof (pi_memory Hinv) as Hmv. set (j := tx_idx v).
  destruct (worker_status failed p t _ _ Hinv Ht eq_refl) as (Hj & tx & Htx & Hst). simpl in *.
  fold j in Hj, Htx.
  destruct (pool_inv_record failed p t v reads ws nv Hinv Ht) as (wrote & mv' & Hrun & Hinv').
  rewrite Hrun. simpl. intros [= <- <-].
  destruct (lookup_lt_is_Some_2 (mv_last_locations (sh_memory (pl_shared p))) j)
    as [last Hlast]; [by rewrite (mv_wf_length _ _ Hmv)|].
  destruct (record_run v reads ws _ last Hlast) as (wrote' & mv'' & Hrun' & Hwrote & Hl & He).
  rewrite Hrun in Hrun'. simplify_eq. fold j in Hl, He.
  apply (valid_inv_moved p t (WRecord v reads ws nv)); [done|done|..]; simpl.
  - intros loc i inc val Hent. destruct (decide (j = i)) as [<-|Hij]; [by auto|].
    rewrite He, bool_decide_false in Hent by done.
    destruct (st_at (sh_scheduler (pl_shared p)) i) as [st|] eqn:Hsti.
    + destruct (is_done st) eqn:Hd; [by left; eauto|right; right]. split_and!; auto. congruence.
    + right; right. split_and!; auto. congruence.
  - intros i Hm. right. split; [done|]. destruct Hm as (_ & st & Hsti & Hd). simpl in *.
    assert (i <> j) as Hij.
    { intros ->. apply st_at_Some in Hsti as (tx' & Htx' & <-). simplify_eq. by rewrite Hst in Hd. }
    unfold settled. simpl. intros [Hval|[?|[?|[]]]]; auto.
    destruct (decide (i < j)) as [Hlt|Hge]; [|destruct wrote'].
    + left. unfold reads_valid in *. rewrite <-Hval.
      apply (validate_ext n); [done|apply Hinv'|lia|by rewrite Hl, list_lookup_insert_ne|].
      intros loc k Hk. by rewrite He, bool_decide_false by lia.
    + right; right; right. split; [done|]. lia.
    + left. apply (validate_estimates n (sh_memory (pl_shared p)) mv'' i j);
        [done|apply Hinv'|lia|by rewrite Hl, list_lookup_insert_ne| | |done].
      * intros loc k _ Hk. by rewrite He, bool_decide_false.
      * intros loc. destruct (decide (loc ∈ ll_write last)) as [Hin|Hout].
        -- right. destruct (mv_wf_write _ _ Hmv j last loc Hlast Hin) as [[inc val|] Hent]; [|done].
           by destruct (executing_no_data failed p t _ loc j inc val Hinv Hv Ht eq_refl
             ltac:(by intros ? [])).
        -- left. rewrite He, bool_decide_true by done.
           destruct (written_value ws loc) as [val|] eqn:Hw; [|by rewrite bool_decide_false].
           cut (false = true); [done|]. apply Hwrote. exists loc. split; [|done].
           apply written_value_Some. eauto.
Qed.

Lemma valid_convert failed p t v w' sh' :
  pool_inv (lazy := lazy) failed p -> valid_inv p -> pl_workers p !! t = Some (WConvert v) ->
  worker_step (WConvert v) (pl_shared p) = Val (w', sh') -> valid_inv (moved p t w' sh').
Proof.
  intros Hinv Hv Ht. simpl. pose proof (pi_memory Hinv) as Hmv. set (j := tx_idx v).
  destruct (worker_status failed p t _ _ Hinv Ht eq_refl) as (Hj & tx & Htx & Hst). simpl in *.
  fold j in Hj, Htx.
  destruct (pool_inv_convert failed p t v Hinv Ht) as (mv' & Hrun & Hinv').
  fold j in Hrun. rewrite Hrun. simpl. intros [= <- <-].
  destruct (lookup_lt_is_Some_2 (mv_last_locations (sh_memory (pl_shared p))) j)
    as [last Hlast]; [by rewrite (mv_wf_length _ _ Hmv)|].
  destruct (convert_run j _ last Hlast) as (mv'' & Hrun' & Hl & He).
  rewrite Hrun in Hrun'. simplify_eq.
  apply (valid_inv_moved p t (WConvert v)); [done|done|..]; simpl.
  - intros loc i inc val Hent. destruct (decide (j = i)) as [<-|Hij].
    { by destruct (convert_no_data n j _ _ loc inc val Hmv Hj Hrun). }
    rewrite He, bool_decide_false in Hent by naive_solver.
    destruct (st_at (sh_scheduler (pl_shared p)) i) as [st|] eqn:Hsti.
    + destruct (is_done st) eqn:Hd; [by left; eauto|right; right]. split_and!; auto. congruence.
    + right; right. split_and!; auto. congruence.
  - intros i Hm. right. split; [done|]. destruct Hm as (_ & st & Hsti & Hd). simpl in *.
    assert (i <> j) as Hij.
    { intros ->. apply st_at_Some in Hsti as (tx' & Htx' & <-). simplify_eq. by rewrite Hst in Hd. }
    unfold settled. simpl. fold j. intros [Hval|?]; [|tauto].
    destruct (decide (i < j)) as [Hlt|Hge]; [left|right; right; right; lia].
    unfold reads_valid in *. rewrite <-Hval.
    apply (validate_ext n); [done|apply Hinv'|lia|by rewrite Hl|].
    intros loc k Hk. by rewrite He, bool_decide_false by lia.
Qed.

Lemma valid_finish_execution failed p t v wrote nv w' sh' :
  pool_inv (lazy := lazy) failed p -> valid_inv p ->
  pl_workers p !! t = Some (WFinishExecution v wrote nv) ->
  worker_step (WFinishExecution v wrote nv) (pl_shared p) = Val (w', sh') ->
  valid_inv (moved p t w' sh').
Proof.
  intros Hinv Hv Ht. simpl. unfold on_scheduler.
  destruct (pi_workers Hinv _ _ Ht) as [_ (_ & _ & Hnv & Hwrote)].
  pose proof (worker_has_role p t _ _ Ht eq_refl) as Hrole.
  destruct (finish_execution_sinv (sh_scheduler (pl_shared p)) (worker_role <$> pl_workers p)
    failed t v wrote nv) as (r & s' & Hrun & Hs & _ & Hst & _); [apply Hinv|done..|auto|].
  destruct (finish_execution_counters _ _ _ _ _ _ _ _ _ (pi_scheduler Hinv) Hrole Hnv Hwrote Hrun)
    as [Hle Hc].
  pose proof (finish_execution_ensures _ _ _ _ _ _ Hrun) as Hef.
  rewrite Hrun. intros [= <- <-].
  apply (valid_inv_moved p t (WFinishExecution v wrote nv)); [done|done|..]; simpl.
  - intros loc i inc val Hent. destruct (decide (tx_idx v = i)) as [<-|Hi].
    { left. exists Executed. by rewrite Hst. }
    destruct (st_at s' i) as [st'|] eqn:Hst'.
    + destruct (effect_st_at _ _ _ _ _ Hef Hst') as (st0 & Hst0 & Hsame).
      destruct (is_done st') eqn:Hd; [by left; eauto|right; right]. split_and!; auto.
      intros st Hst1. rewrite Hst0 in Hst1. injection Hst1 as <-. rewrite <-Hsame; congruence.
    + right; right. split_and!; auto. intros st (tx & Htx & _)%st_at_Some.
      destruct (lookup_lt_is_Some_2 (transactions_status s') i) as [tx' Htx'].
      { rewrite (ef_length Hef). by eapply lookup_lt_Some. }
      unfold st_at in Hst'. by rewrite Htx' in Hst'.
  - intros i (Hmin & st' & Hst' & Hd). simpl in *.
    destruct (effect_st_at _ _ _ _ _ Hef Hst') as (st0 & Hst0 & Hsame).
    destruct (Hc i Hmin) as (Hlow & Hown & Hup).
    { eapply st_at_lt; [|done]. apply (si_sized (pi_scheduler Hinv)). }
    unfold settled. simpl. destruct (lt_eq_lt_dec i (tx_idx v)) as [[Hi|Hi]|Hi].
    + right. split; [split; [auto|]|].
      * exists st0. split; [done|]. rewrite <-Hsame; [done|]. intros [= ?]. lia.
      * intros [?|[?|[?|[_ ?]]]]; auto with lia.
    + left. destruct (Hown Hi) as [? | ->]; [by auto|]. by right; right; right.
    + specialize (Hup Hi). destruct wrote; [by left; auto|]. right. split; [split; [done|]|].
      * exists st0. split; [done|]. rewrite <-Hsame; [done|]. intros [= ?]. lia.
      * intros [?|[?|[?|[? ?]]]]; auto with lia.
Qed.

Lemma valid_step failed p t w w' sh' :
  pool_inv (lazy := lazy) failed p -> valid_inv p -> pl_workers p !! t = Some w ->
  worker_step w (pl_shared p) = Val (w', sh') -> valid_inv (moved p t w' sh').
Proof.
  intros Hinv Hv Ht. destruct w as [|v|v e|v b|v err|v r reads ws nv|v reads ws nv|v wrote nv
    |v|v|v|v aborted|next| |f].
  - by eapply valid_next.
  - simpl. destruct (vm_start _); [|done]. intros [= <- <-].
    eapply valid_inv_same; try done; by intros i [].
  - simpl. destruct (vm_step _ _) as [[|]|]; try done; intros [= <- <-];
      (eapply valid_inv_same; try done; by intros i []).
  - by eapply valid_add_dependency.
  - simpl. destruct (execution_error _); [done|]. intros [= <- <-].
    eapply valid_inv_same; try done; by intros i [].
  - simpl. destruct (vec_get _ _); [|done]. intros [= <- <-].
    eapply valid_inv_same; try done; by intros i [].
  - by eapply valid_record.
  - by eapply valid_finish_execution.
  - simpl. destruct (validate_read_locations _ _) as [b|] eqn:Hb; [|done]. intros [= <- <-].
    eapply valid_inv_same; try done; [by intros i []|]. simpl. intros i <-. unfold settled.
    destruct b; [by left|by right; right; right].
  - by eapply valid_try_abort.
  - by eapply valid_convert.
  - by eapply valid_finish_validation.
  - simpl. destruct (execution_error (pl_shared p)) eqn:He; intros [= <- <-];
      (eapply valid_inv_same; try done; [by intros i []|]); intros i Hd; unfold settled.
    + right; right; left. by rewrite He.
    + destruct next as [[]|]; simpl in *; try done. by right; right; right.
  - intros [= <- <-]. unfold moved. rewrite list_insert_id by done. by destruct p.
  - intros [= <- <-]. unfold moved. rewrite list_insert_id by done. by destruct p.
Qed.

Lemma valid_thread failed p t :
  pool_inv (lazy := lazy) failed p -> valid_inv p -> valid_inv (step_thread t p).
Proof.
  intros Hinv Hv. unfold step_thread. destruct (pl_workers p !! t) as [w|] eqn:Ht; [|done].
  destruct (worker_step w (pl_shared p)) as [[w' sh']|f] eqn:Hrun; [by eapply valid_step|].
  destruct (worker_step_ok failed p t w Hinv Ht) as [(? & ? & ? & ? & _)|[Hp _]]; [congruence|].
  eapply (valid_inv_same p t w); try done; [by destruct w; intros i []|].
  intros i _. by right; right; right.
Qed.

Lemma valid_reachable status_ dependents deps threads p :
  (Z.of_nat n < 2 ^ 64)%Z -> initial_wf n status_ dependents deps ->
  reachable lazy status_ dependents deps threads p ->
  valid_inv p /\ exists failed, pool_inv (lazy := lazy) failed p.
Proof.
  intros Hn Hwf Hp. unfold reachable in Hp. rewrite (iw_status _ _ _ _ Hwf) in Hp.
  apply (rtc_invariant pool_step (fun p => valid_inv p /\
    exists failed, pool_inv (lazy := lazy) failed p) _ _ Hp).
  - split; [|eexists; by apply pool_inv_initial]. split.
    + by intros loc i inc val (? & _)%new_entry.
    + intros i (_ & st & (tx & Htx & <-)%st_at_Some & Hd). simpl in *.
      by destruct (iw_tx _ _ _ _ Hwf i tx Htx) as [[Hst _]|[Hst _]]; rewrite Hst in Hd.
  - intros p1 p2 (t & _ & ->) [Hv [f1 H1]]. split; [by eapply valid_thread|].
    destruct (step_thread_inv f1 p1 t H1) as (f2 & ? & _). by exists f2.
Qed.

Lemma complete_reads_valid status_ dependents deps threads p i :
  (Z.of_nat n < 2 ^ 64)%Z -> initial_wf n status_ dependents deps -> 0 < threads ->
  reachable lazy status_ dependents deps threads p ->
  all_done p = true -> execution_error (pl_shared p) = None ->
  i < n -> min_validation_idx (sh_scheduler (pl_shared p)) <= i ->
  reads_valid (sh_memory (pl_shared p)) i.
Proof.
  intros Hn Hwf Hthreads Hp Hall He Hi Hm.
  destruct (exit_inv_reachable _ _ _ _ _ Hn Hwf Hthreads Hp) as [Hexit _].
  destruct (Hexit Hall He) as [_ Hval].
  destruct (pool_complete _ _ _ _ _ Hn Hwf Hthreads Hp Hall He) as [Hinv Hcomplete].
  destruct (Hcomplete i Hi) as ((st & Hst & Hd & _) & _).
  destruct (valid_reachable _ _ _ _ _ Hn Hwf Hp) as [Hv _].
  destruct (vi_valid _ Hv i) as [?|[?|[[? ?]|(t & w & Ht & Hw)]]].
  - split; eauto.
  - done.
  - rewrite (pi_size Hinv) in Hval. lia.
  - congruence.
  - by rewrite (all_done_lookup p t w Hall Ht) in Hw.
Qed.

(** C6. The reads of a finished block are valid: when all threads have left and no
    error was reported, re-reading in the final memory what any transaction from
    [min_validation_idx] on recorded gives the origins it recorded, although it
    may have been validated long before, or by a validation of an earlier
    incarnation. *)
Theorem block_reads_valid status_ dependents deps threads p i :
  (Z.of_nat n < 2 ^ 64)%Z -> initial_wf n status_ dependents deps -> 0 < threads ->
  reachable lazy status_ dependents deps threads p ->
  all_done p = true -> execution_error (pl_shared p) = None ->
  i < n -> min_validation_idx (sh_scheduler (pl_shared p)) <= i ->
  validate_read_locations i (sh_memory (pl_shared p)) = Val true.
Proof. apply complete_reads_valid. Qed.
End validity.

#[local] Existing Instances Counter.vm Counter.contract.

Lemma block_reads_valid_witness :
  let p := Counter.run (take 80 Counter.schedule) in
  validate_read_locations 2 (sh_memory (pl_shared p)) = Val true.
Proof.
  intros p. apply (block_reads_valid (n := 3) (lazy := 0%Z) Counter.status0 [[]; []; []] ∅ 2 p 2).
  - lia.
  - exact Counter.start_wf.
  - lia.
  - apply Counter.run_reachable.
  - vm_compute. reflexivity.
  - vm_compute. reflexivity.
  - lia.
  - vm_compute. lia.
Defined.
