(* ===== verification/Commit.v ===== *)
(** * Commit: what a finished block has stored is what its executions returned

    A ghost account of the run: the values that every version ever had in the
    memory.  With it, each result and each entry of an executed transaction is
    traced back to one execution, all of whose reads saw memories that the ghost
    account explains. *)

From stdpp Require Import base list gmap relations.
From Stdlib Require Import ZArith Lia.
From S2P Require Import Prelude Types MvMemory Scheduler SchedulerEffects SchedulerInv.
From S2P Require Import Revm Storage Vm Workers WorkersInv WorkersCorrect Validity.

(** The values of all versions so far. *)
Definition knowledge : Type := MemoryLocationHash -> TxVersion -> option MemoryValue.
Implicit Types (G : knowledge).

Definition known G (mv : MvMemory) : Prop :=
  forall loc k inc v, entry_at (mv_data mv) loc k = Some (Data inc v) ->
    G loc {| tx_idx := k; tx_incarnation := inc |} = Some v.

Definition extends G G' : Prop := forall loc ver v, G loc ver = Some v -> G' loc ver = Some v.

Lemma known_extends G G' mv : extends G G' -> known G mv -> known G' mv.
Proof. intros Hext Hk loc k inc v He. by apply Hext, Hk. Qed.

Section commit.
Context `{VmOps} {n : nat} {lazy : MemoryLocationHash} `{!VmContract n lazy}.
Implicit Types (w : worker) (sh : Shared) (p : Pool) (failed : bool).

(** An execution of [i] that has seen known memories only. *)
Inductive explained G (i : TxIdx) : Exec -> Prop :=
| explained_start e : vm_start i = Val e -> explained G i e
| explained_step e mv e' :
    explained G i e -> known G mv -> vm_step mv e = Val (inl e') -> explained G i e'.

(** A result of such an execution. *)
Definition produced G (i : TxIdx) (r : VmExecutionResult) : Prop :=
  exists e mv, explained G i e /\ known G mv /\ vm_step mv e = Val (inr r).

(** The result, the read set and the entries of [i] are those of one execution. *)
Definition committed_tx G sh (i : TxIdx) : Prop :=
  exists r reads ws nv inc,
    produced G i (VmOk r reads ws nv) /\
    execution_results sh !! i = Some (Some r) /\
    mv_last_locations (sh_memory sh) !! i = Some {| ll_read := reads; ll_write := map fst ws |} /\
    forall loc, entry_at (mv_data (sh_memory sh)) loc i = Data inc <$> written_value ws loc.

Definition worker_explained G sh w : Prop :=
  match w with
  | WRun v e => explained G (tx_idx v) e
  | WStoreResult v r reads ws nv => produced G (tx_idx v) (VmOk r reads ws nv)
  | WRecord v reads ws nv =>
      exists r, execution_results sh !! tx_idx v = Some (Some r) /\
                produced G (tx_idx v) (VmOk r reads ws nv)
  | WFinishExecution v _ _ => committed_tx G sh (tx_idx v)
  | _ => True
  end.

Record commit_inv G p : Prop := {
  ci_known : known G (sh_memory (pl_shared p));
  ci_spent : forall loc ver v, G loc ver = Some v -> spent p (tx_idx ver) (tx_incarnation ver);
  ci_workers : forall t w, pl_workers p !! t = Some w -> worker_explained G (pl_shared p) w;
  ci_done : forall i st, st_at (sh_scheduler (pl_shared p)) i = Some st -> is_done st = true ->
    committed_tx G (pl_shared p) i;
}.

(** ** More knowledge, other transactions *)

Lemma explained_extends G G' i e : extends G G' -> explained G i e -> explained G' i e.
Proof.
  intros Hext. induction 1; [by constructor|]. econstructor; [done|by eapply known_extends|done].
Qed.

Lemma produced_extends G G' i r : extends G G' -> produced G i r -> produced G' i r.
Proof.
  intros Hext (e & mv & He & Hk & Hr). exists e, mv.
  split_and!; [by eapply explained_extends|by eapply known_extends|done].
Qed.

(** Nothing about [i] has changed. *)
Definition same_tx sh sh' (i : TxIdx) : Prop :=
  execution_results sh' !! i = execution_results sh !! i /\
  mv_last_locations (sh_memory sh') !! i = mv_last_locations (sh_memory sh) !! i /\
  forall loc, entry_at (mv_data (sh_memory sh')) loc i = entry_at (mv_data (sh_memory sh)) loc i.

Lemma committed_frame G G' sh sh' i :
  extends G G' -> same_tx sh sh' i -> committed_tx G sh i -> committed_tx G' sh' i.
Proof.
  intros Hext (Hr & Hl & He) (r & reads & ws & nv & inc & Hp & Hr0 & Hl0 & He0).
  exists r, reads, ws, nv, inc. rewrite Hr, Hl.
  split_and!; [by eapply produced_extends|done|done|]. intros loc. by rewrite He.
Qed.

Lemma worker_explained_frame G G' sh sh' w :
  extends G G' ->
  (forall i, worker_role w = Some (RExecute i) -> same_tx sh sh' i) ->
  worker_explained G sh w -> worker_explained G' sh' w.
Proof.
  intros Hext Hsame. destruct w; simpl in *; try done.
  - by apply explained_extends.
  - by apply produced_extends.
  - intros (r & Hr & Hp). exists r. destruct (Hsame _ eq_refl) as [-> _].
    split; [done|]. by eapply produced_extends.
  - by apply committed_frame; [|apply Hsame].
Qed.

(** ** Steps *)

(** A step of thread [t] that changes nothing but what belongs to [own]. *)
Lemma commit_moved G G' failed p t w w' sh' (own : option TxIdx) :
  pool_inv (lazy := lazy) failed p -> commit_inv G p -> pl_workers p !! t = Some w ->
  worker_step w (pl_shared p) = Val (w', sh') ->
  extends G G' -> known G' (sh_memory sh') ->
  (forall loc ver v, G' loc ver = Some v -> G loc ver = Some v \/
     spent (step_thread t p) (tx_idx ver) (tx_incarnation ver)) ->
  (forall i, own <> Some i -> same_tx (pl_shared p) sh' i) ->
  (forall t' w0 i, t' <> t -> pl_workers p !! t' = Some w0 ->
     worker_role w0 = Some (RExecute i) -> own <> Some i) ->
  (forall i st, st_at (sh_scheduler sh') i = Some st -> is_done st = true ->
     own <> Some i /\
     (committed_tx G (pl_shared p) i \/
      exists st0, st_at (sh_scheduler (pl_shared p)) i = Some st0 /\ is_done st0 = true)) ->
  worker_explained G' sh' w' -> commit_inv G' (moved p t w' sh').
Proof.
  intros Hinv Hc Ht Hrun Hext Hknown Hnew Hsame Hother Hdone Hw'.
  assert (step_thread t p = moved p t w' sh') as Hstep
    by (unfold step_thread; by rewrite Ht, Hrun).
  split; simpl.
  - done.
  - intros loc ver v Hver. rewrite <-Hstep. destruct (Hnew loc ver v Hver) as [Hold|?]; [|done].
    destruct (spent_step failed p t loc (tx_idx ver) (tx_incarnation ver) v) as [? _]; try done.
    by apply (ci_spent _ _ Hc loc ver v).
  - intros t' w0 [[-> ->]|[Hne Ht']]%(moved_workers _ _ _ _ sh' _ _ Ht); [done|].
    eapply worker_explained_frame; [done| |by eapply (ci_workers _ _ Hc)].
    intros i Hi. apply Hsame. eauto.
  - intros i st Hst Hd. destruct (Hdone i st Hst Hd) as [Hi Hcom].
    eapply committed_frame; [done|by apply Hsame|].
    destruct Hcom as [?|(st0 & ? & ?)]; [done|by eapply (ci_done _ _ Hc)].
Qed.

Lemma extends_refl G : extends G G.
Proof. by intros loc ver v. Qed.

(** A step that changes neither memory nor results. *)
Lemma commit_keep G failed p t w w' sh' own :
  pool_inv (lazy := lazy) failed p -> commit_inv G p -> pl_workers p !! t = Some w ->
  worker_step w (pl_shared p) = Val (w', sh') ->
  sh_memory sh' = sh_memory (pl_shared p) ->
  execution_results sh' = execution_results (pl_shared p) ->
  effect own (sh_scheduler (pl_shared p)) (sh_scheduler sh') ->
  (forall i st, own = Some i -> st_at (sh_scheduler sh') i = Some st -> is_done st = true ->
     committed_tx G (pl_shared p) i) ->
  worker_explained G sh' w' -> commit_inv G (moved p t w' sh').
Proof.
  intros Hinv Hc Ht Hrun Em Er Hef Hown Hw'.
  apply (commit_moved G G failed p t w w' sh' None); try done; [apply extends_refl|..].
  - rewrite Em. apply Hc.
  - by left.
  - intros i _. unfold same_tx. by rewrite Em, Er.
  - intros i st Hst Hd. split; [done|]. destruct (decide (own = Some i)) as [Hi|Hi]; [by eauto|].
    destruct (effect_st_at _ _ _ _ _ Hef Hst) as (st0 & Hst0 & Hsame).
    right. exists st0. split; [done|]. by rewrite <-Hsame.
Qed.

(** A worker that executes [i] is the only one, and [i] is not done. *)
Lemma executing_own failed p t w i :
  pool_inv (lazy := lazy) failed p -> pl_workers p !! t = Some w ->
  worker_role w = Some (RExecute i) \/ worker_role w = Some (RAbort i) ->
  (forall t' w0 j, t' <> t -> pl_workers p !! t' = Some w0 ->
     worker_role w0 = Some (RExecute j) -> Some i <> Some j) /\
  (forall j st, st_at (sh_scheduler (pl_shared p)) j = Some st -> is_done st = true ->
     Some i <> Some j).
Proof.
  intros Hinv Ht Hr. split.
  - intros t' w0 j Hne Ht' Hr' [= <-]. destruct Hr as [Hr|Hr].
    + destruct Hne. by apply (worker_unique failed p t' t w0 w (RExecute i)).
    + destruct (worker_status failed p t w _ Hinv Ht Hr) as (_ & tx & Htx & Hst).
      destruct (worker_status failed p t' w0 _ Hinv Ht' Hr') as (_ & tx' & Htx' & Hst').
      simpl in *. simplify_eq. congruence.
  - intros j st (tx & Htx & <-)%st_at_Some Hd [= <-]. destruct Hr as [Hr|Hr];
      destruct (worker_status failed p t w _ Hinv Ht Hr) as (_ & tx' & Htx' & Hst');
      simpl in *; simplify_eq; by rewrite Hst' in Hd.
Qed.

Lemma commit_result G failed p t v r reads ws nv w' sh' :
  pool_inv (lazy := lazy) failed p -> commit_inv G p ->
  pl_workers p !! t = Some (WStoreResult v r reads ws nv) ->
  worker_step (WStoreResult v r reads ws nv) (pl_shared p) = Val (w', sh') ->
  commit_inv G (moved p t w' sh').
Proof.
  intros Hinv Hc Ht Hrun.
  destruct (executing_own failed p t _ (tx_idx v) Hinv Ht (or_introl eq_refl)) as [Hother Hdone].
  destruct (pool_inv_result failed p t v r reads ws nv Hinv Ht) as [Hi _].
  pose proof Hrun as Hrun'. simpl in Hrun. destruct (vec_get _ _); [|done]. injection Hrun as <- <-.
  apply (commit_moved G G failed p t (WStoreResult v r reads ws nv) _ _ (Some (tx_idx v)));
    try done; [apply extends_refl|apply Hc|by left|..].
  - intros i Hne. split_and!; try done. simpl. apply list_lookup_insert_ne. congruence.
  - intros i st Hst Hd. split; [by eapply Hdone|right; eauto].
  - simpl. exists r. split; [by apply list_lookup_insert_eq|]. apply (ci_workers _ _ Hc _ _ Ht).
Qed.

Lemma commit_convert G failed p t v w' sh' :
  pool_inv (lazy := lazy) failed p -> commit_inv G p -> pl_workers p !! t = Some (WConvert v) ->
  worker_step (WConvert v) (pl_shared p) = Val (w', sh') -> commit_inv G (moved p t w' sh').
Proof.
  intros Hinv Hc Ht Hrun. pose proof (pi_memory Hinv) as Hmv.
  destruct (executing_own failed p t _ (tx_idx v) Hinv Ht (or_intror eq_refl)) as [Hother Hdone].
  destruct (worker_status failed p t _ _ Hinv Ht eq_refl) as [Hi _]. simpl in Hi.
  pose proof Hrun as Hrun'. simpl in Hrun.
  destruct (lookup_lt_is_Some_2 (mv_last_locations (sh_memory (pl_shared p))) (tx_idx v))
    as [last Hlast]; [by rewrite (mv_wf_length _ _ Hmv)|].
  destruct (convert_run (tx_idx v) _ last Hlast) as (mv' & Hconv & Hl & He).
  rewrite Hconv in Hrun. injection Hrun as <- <-.
  apply (commit_moved G G failed p t (WConvert v) _ _ (Some (tx_idx v)));
    try done; [apply extends_refl| |by left|..].
  - intros loc k inc val. simpl. rewrite He. case_bool_decide; [done|]. apply Hc.
  - intros i Hne. split_and!; simpl; [done|by rewrite Hl|]. intros loc.
    rewrite He, bool_decide_false by naive_solver. done.
  - intros i st Hst Hd. split; [by eapply Hdone|right; eauto].
Qed.

Lemma commit_record G failed p t v reads ws nv w' sh' :
  pool_inv (lazy := lazy) failed p -> commit_inv G p ->
  pl_workers p !! t = Some (WRecord v reads ws nv) ->
  worker_step (WRecord v reads ws nv) (pl_shared p) = Val (w', sh') ->
  exists G', commit_inv G' (moved p t w' sh').
Proof.
  intros Hinv Hc Ht Hrun. pose proof (pi_memory Hinv) as Hmv.
  destruct (executing_own failed p t _ (tx_idx v) Hinv Ht (or_introl eq_refl)) as [Hother Hdone].
  destruct (worker_status failed p t _ _ Hinv Ht eq_refl) as [Hi _]. simpl in Hi.
  destruct (ci_workers _ _ Hc _ _ Ht) as (r & Hr & Hprod).
  destruct (pi_workers Hinv _ _ Ht) as [Hp [_ (r0 & Hlazy & _)]].
  pose proof Hrun as Hrun'. simpl in Hrun.
  destruct (lookup_lt_is_Some_2 (mv_last_locations (sh_memory (pl_shared p))) (tx_idx v))
    as [last Hlast]; [by rewrite (mv_wf_length _ _ Hmv)|].
  destruct (record_run v reads ws _ last Hlast) as (wrote & mv' & Hrec & _ & Hl & He).
  rewrite Hrec in Hrun. injection Hrun as <- <-.
  assert (forall loc, entry_at (mv_data mv') loc (tx_idx v) =
    Data (tx_incarnation v) <$> written_value ws loc) as Hown.
  { intros loc. rewrite He, bool_decide_true by done.
    destruct (written_value ws loc) eqn:Hw; [done|]. case_bool_decide as Hin; [done|]. simpl.
    destruct (entry_at _ loc (tx_idx v)) as [[inc val|]|] eqn:Hent; [| |done].
    - destruct (mv_wf_data _ _ Hmv _ _ _ _ Hent) as (last' & ? & ?). by simplify_eq.
    - apply written_value_None in Hw.
      destruct (pi_estimates Hinv _ _ Hent) as [->|(last' & ? & ?)]; by simplify_eq. }
  assert (forall loc val, G loc v <> Some val) as Hfresh.
  { intros loc val Hg. destruct (ci_spent _ _ Hc _ _ _ Hg) as [_ Hpend].
    specialize (Hpend t _ v Ht eq_refl eq_refl). lia. }
  set (G' := fun loc ver => if decide (ver = v) then written_value ws loc else G loc ver).
  exists G'.
  assert (extends G G') as Hext.
  { intros loc ver val Hg. unfold G'. case_decide as Hv; [|done]. subst. by destruct (Hfresh loc val). }
  apply (commit_moved G G' failed p t (WRecord v reads ws nv) _ _ (Some (tx_idx v))); try done.
  - intros loc k inc val. simpl. destruct (decide (k = tx_idx v)) as [->|Hk].
    + rewrite Hown. destruct (written_value ws loc) as [val'|] eqn:Hw; simpl; [|done].
      intros [= <- <-]. unfold G'. rewrite decide_True; [done|by destruct v].
    + rewrite He, bool_decide_false by done. intros Hent. by apply Hext, Hc.
  - intros loc ver val. unfold G'. case_decide as Hv; [|by left]. subst ver. intros _. right.
    unfold step_thread. rewrite Ht, Hrun'. split; simpl.
    + intros tx Htx. destruct (Hp v eq_refl) as [Hex _]. simplify_eq. by split.
    + intros t' w0 v' Ht' Hv' E.
      apply list_lookup_insert_Some in Ht' as [(_ & <- & _)|[Hne Ht']]; [done|].
      apply pending_role in Hv'. destruct (Hother t' w0 (tx_idx v') (not_eq_sym Hne) Ht' Hv').
      by rewrite E.
  - intros i Hne. assert (tx_idx v <> i) by congruence. split_and!; simpl; [done|..].
    + by rewrite Hl, list_lookup_insert_ne.
    + intros loc. by rewrite He, bool_decide_false.
  - intros i st Hst Hd. split; [by eapply Hdone|right; eauto].
  - simpl. exists r, reads, ws, nv, (tx_incarnation v). split_and!; try done.
    + by eapply produced_extends.
    + simpl. rewrite Hl. apply list_lookup_insert_eq. by rewrite (mv_wf_length _ _ Hmv).
Qed.

Lemma commit_step G failed p t w w' sh' :
  pool_inv (lazy := lazy) failed p -> commit_inv G p -> pl_workers p !! t = Some w ->
  worker_step w (pl_shared p) = Val (w', sh') -> exists G', commit_inv G' (moved p t w' sh').
Proof.
  intros Hinv Hc Ht Hrun.
  assert (forall s : Scheduler, effect None s s) as Hrefl by reflexivity.
  destruct w as [|v|v e|v b|v err|v r reads ws nv|v reads ws nv|v wrote nv
    |v|v|v|v aborted|next| |f]; pose proof Hrun as Hrun'; simpl in Hrun; unfold on_scheduler in Hrun.
  - destruct (next_task_iter _) as [[r s']|] eqn:E; [|done]. injection Hrun as <- <-. exists G.
    eapply (commit_keep G failed p t _ _ _ None); try done;
      [by eapply (next_task_iter_ensures None)|by destruct r as [[[]|]|]].
  - destruct (vm_start _) as [e|] eqn:E; [|done]. injection Hrun as <- <-. exists G.
    eapply (commit_keep G failed p t _ _ _ None); try done. by constructor.
  - pose proof (ci_workers _ _ Hc _ _ Ht) as He. simpl in He.
    destruct (vm_step _ _) as [[e'|r]|] eqn:E; [| |done]; injection Hrun as <- <-; exists G;
      eapply (commit_keep G failed p t _ _ _ None); try done; simpl.
    + by eapply explained_step; [|apply Hc|].
    + destruct r; try done. exists e, (sh_memory (pl_shared p)). split_and!; [done|apply Hc|done].
  - destruct (pi_workers Hinv _ _ Ht) as [_ Hb]. simpl in Hb.
    destruct (add_dependency_sinv (sh_scheduler (pl_shared p)) (worker_role <$> pl_workers p)
      failed t (tx_idx v) b) as (r & s' & E & _ & Hyes & Hno);
      [apply Hinv|by eapply worker_has_role|done|].
    rewrite E in Hrun. injection Hrun as <- <-. exists G. destruct r.
    + eapply (commit_keep G failed p t _ _ _ (Some (tx_idx v))); try done;
        [by eapply add_dependency_ensures|].
      intros i st [= <-] Hst Hd. simpl in Hst. rewrite Hyes in Hst by done. by simplify_eq.
    + destruct (Hno eq_refl) as [-> _]. by eapply (commit_keep G failed p t _ _ _ None).
  - destruct (execution_error _) eqn:E; [done|]. injection Hrun as <- <-. exists G.
    by eapply (commit_keep G failed p t _ _ _ None).
  - exists G. by eapply commit_result.
  - by eapply commit_record.
  - destruct (finish_execution _ _ _ _) as [[r s']|] eqn:E; [|done]. injection Hrun as <- <-.
    exists G. eapply (commit_keep G failed p t _ _ _ (Some (tx_idx v))); try done;
      [by eapply finish_execution_ensures|]. intros i st [= <-] _ _. apply (ci_workers _ _ Hc _ _ Ht).
  - destruct (validate_read_locations _ _) as [b|] eqn:E; [|done]. injection Hrun as <- <-.
    exists G. eapply (commit_keep G failed p t _ _ _ None); try done. by destruct b.
  - destruct (try_validation_abort _ _) as [[b s']|] eqn:E; [|done]. injection Hrun as <- <-.
    pose proof (try_validation_abort_ensures _ _ _ _ E) as Hef.
    exists G. eapply (commit_keep G failed p t _ _ _ (Some (tx_idx v))); try done; [|by destruct b].
    intros i st' [= <-] Hst' Hd. destruct (effect_st_at _ _ _ _ _ Hef Hst') as (st & Hst & _).
    destruct (try_validation_abort_status _ _ _ _ _ _ E Hst Hst'). congruence.
  - exists G. by eapply commit_convert.
  - destruct (finish_validation _ _ _) as [[r s']|] eqn:E; [|done]. injection Hrun as <- <-.
    exists G. eapply (commit_keep G failed p t _ _ _ None); try done.
    by eapply (finish_validation_ensures None).
  - injection Hrun as <- <-. exists G. eapply (commit_keep G failed p t _ _ _ None); try done.
    by destruct (execution_error _), next as [[]|].
  - injection Hrun as <- <-. exists G. unfold moved. rewrite list_insert_id by done. by destruct p.
  - injection Hrun as <- <-. exists G. unfold moved. rewrite list_insert_id by done. by destruct p.
Qed.

Lemma commit_thread G failed p t :
  pool_inv (lazy := lazy) failed p -> commit_inv G p ->
  exists G', commit_inv G' (step_thread t p).
Proof.
  intros Hinv Hc. destruct (pl_workers p !! t) as [w|] eqn:Ht.
  2: { exists G. unfold step_thread. by rewrite Ht. }
  destruct (worker_step w (pl_shared p)) as [[w' sh']|f] eqn:Hrun.
  { unfold step_thread. rewrite Ht, Hrun. by eapply commit_step. }
  exists G. assert (forall loc ver v, G loc ver = Some v ->
    spent (step_thread t p) (tx_idx ver) (tx_incarnation ver)) as Hspent.
  { intros loc ver v Hv. apply (spent_step failed p t loc _ _ v Hinv). by eapply (ci_spent _ _ Hc). }
  revert Hspent. unfold step_thread. rewrite Ht, Hrun. intros Hspent. split; simpl; try apply Hc.
  - done.
  - intros t' w0 [(-> & <- & _)|[_ Ht']]%list_lookup_insert_Some; [done|]. by eapply (ci_workers _ _ Hc).
Qed.

Lemma commit_reachable status_ dependents deps threads p :
  (Z.of_nat n < 2 ^ 64)%Z -> initial_wf n status_ dependents deps ->
  reachable lazy status_ dependents deps threads p -> exists G, commit_inv G p.
Proof.
  intros Hn Hwf Hp. unfold reachable in Hp. rewrite (iw_status _ _ _ _ Hwf) in Hp.
  cut ((exists G, commit_inv G p) /\ exists failed, pool_inv (lazy := lazy) failed p);
    [by intros [? _]|].
  apply (rtc_invariant pool_step (fun p => (exists G, commit_inv G p) /\
    exists failed, pool_inv (lazy := lazy) failed p) _ _ Hp).
  - split; [|eexists; by apply pool_inv_initial]. exists (fun _ _ => None). split.
    + by intros loc i inc val (? & _)%new_entry.
    + done.
    + by intros t w [-> _]%lookup_replicate.
    + intros i st (tx & Htx & <-)%st_at_Some Hd. simpl in *.
      by destruct (iw_tx _ _ _ _ Hwf i tx Htx) as [[Hst _]|[Hst _]]; rewrite Hst in Hd.
  - intros p1 p2 (t & _ & ->) [[G Hc] [f1 H1]]. split; [by eapply commit_thread|].
    destruct (step_thread_inv f1 p1 t H1) as (f2 & ? & _). by exists f2.
Qed.
End commit.
