(* ===== verification/VmCorrect.v ===== *)
(** * VmCorrect: the virtual machine keeps its contract

    What [src/vm.rs] promises to the workers and to validation: the read sets,
    writes and blocking indexes it reports are well formed, with other workers
    changing the memory between its reads.  The workers execute call by call;
    enough calls give the result of [Vm::execute]. *)

From stdpp Require Import base list gmap.
From Stdlib Require Import ZArith Lia.
From S2P Require Import Prelude Types MvMemory Revm Storage Sample Vm Workers.

Section contract.
Context `{RevmLaws} {S : Type} `{Storage S}.
Implicit Types (vm : Vm S) (db : VmDb) (mv : MvMemory).

(** An error blocks on lower transactions only. *)
Definition blocks_lower (i : TxIdx) (e : ReadError) : Prop :=
  match e with BlockingIndex b => b < i | _ => True end.

(** Every location read so far has a well-formed list of origins. *)
Definition reads_wf db : Prop :=
  forall loc origins, rs_locations (db_read_set db) !! loc = Some origins -> origins_wf origins.

(** ** Reading the memory *)

Lemma range_rev_head (tree : gmap TxIdx MemoryEntry) i k x l :
  range_rev tree i = (k, x) :: l -> k < i.
Proof.
  intros Hr. apply (elem_of_range_rev tree i k x). rewrite Hr. set_solver.
Qed.

Lemma evaluate_lazy_error resch need prev iter cur bal org e i :
  evaluate_lazy resch need prev iter cur bal org = Err e ->
  blocks_lower i resch -> (forall k x, (k, x) ∈ iter -> k < i) -> blocks_lower i e.
Proof.
  revert cur bal org. induction iter as [|[k x] iter IH]; intros cur bal org Hrun Hr Hk; simpl in *.
  - case_match; by simplify_eq.
  - destruct x as [inc val|].
    + repeat case_match; simplify_eq; try done. eapply IH; [done..|]. set_solver.
    + simplify_eq. case_match; [done|]. simpl. apply (Hk k Estimate). set_solver.
Qed.

(** The origins that a successful evaluation adds. *)
Lemma evaluate_lazy_origins resch need prev iter cur bal org acc bal' org' :
  evaluate_lazy resch need prev iter cur bal org = Ok (acc, bal', org') ->
  exists vs, org' = org ++ map OriginMvMemory vs /\ (acc <> None -> vs <> []).
Proof.
  revert cur bal org. induction iter as [|[k x] iter IH]; intros cur bal org Hrun; simpl in *.
  - case_match; simplify_eq. exists []. by rewrite app_nil_r.
  - destruct x as [inc val|]; [|done]. repeat case_match; simplify_eq.
    + by exists [{| tx_idx := k; tx_incarnation := inc |}].
    + destruct (IH _ _ _ Hrun) as (vs & -> & _).
      exists ({| tx_idx := k; tx_incarnation := inc |} :: vs). simpl.
      by rewrite <-app_assoc.
Qed.

Lemma basic_from_memory_error vm mv i loc prev e :
  basic_from_memory vm mv i loc prev = Err e -> blocks_lower i e.
Proof.
  unfold basic_from_memory. destruct (0 <? i) eqn:Hi; [|done]. bool_to_prop.
  destruct (read_location loc mv) as [tree|].
  - intros Hrun. eapply evaluate_lazy_error; [done|simpl; lia|].
    intros k x Hx%elem_of_range_rev. tauto.
  - case_match; [|done]. intros [= <-]. simpl. lia.
Qed.

Lemma basic_from_memory_origins vm mv i loc prev acc bal org :
  basic_from_memory vm mv i loc prev = Ok (acc, bal, org) ->
  exists vs, org = map OriginMvMemory vs /\ (acc <> None -> vs <> []).
Proof.
  unfold basic_from_memory. repeat case_match; try done.
  - intros (vs & -> & ?)%evaluate_lazy_origins. by exists vs.
  - intros [= <- <- <-]. by exists [].
  - intros [= <- <- <-]. by exists [].
Qed.

Lemma basic_from_storage_error vm address prev bal org e i :
  basic_from_storage vm address prev bal org = Err e -> blocks_lower i e.
Proof. unfold basic_from_storage. repeat case_match; intros; by simplify_eq. Qed.

Lemma basic_from_storage_origins vm address prev bal org acc org' :
  basic_from_storage vm address prev bal org = Ok (acc, org') ->
  org' = if negb (length prev =? 0) then org else org ++ [OriginStorage].
Proof. unfold basic_from_storage. repeat case_match; intros; by simplify_eq. Qed.

Lemma origins_wf_versions vs : vs <> [] -> origins_wf (map OriginMvMemory vs).
Proof. intros. exists vs, []. rewrite app_nil_r. auto. Qed.

Lemma origins_wf_storage vs : origins_wf (map OriginMvMemory vs ++ [OriginStorage]).
Proof. exists vs, [OriginStorage]. auto. Qed.

Lemma origins_wf_nonempty origins : origins_wf origins -> length origins <> 0.
Proof. intros (vs & tail & -> & [->|[-> Hne]]); rewrite length_app; simpl; [lia|].
  destruct vs; simpl; [done|lia]. Qed.

Lemma reads_wf_origins loc origins db :
  reads_wf db -> origins_wf origins -> reads_wf (with_origins loc origins db).
Proof.
  intros Hdb Ho loc' origins' Hl. simpl in Hl.
  apply lookup_insert_Some in Hl as [[_ <-]|[_ ?]]; [done|by eapply Hdb].
Qed.

(** What a successful read of an account relies on: versions of the memory that
    are a prefix of the location's origins, or all of them and the storage. *)
Definition origins_after (prev new : list ReadOrigin) : list ReadOrigin :=
  if length prev =? 0 then new else prev.

Lemma evaluate_lazy_prefix resch need prev iter cur bal org acc bal' org' :
  evaluate_lazy resch need prev iter cur bal org = Ok (acc, bal', org') ->
  length prev <> 0 -> org `prefix_of` prev -> org' `prefix_of` prev.
Proof.
  revert cur bal org. induction iter as [|[k x] iter IH]; intros cur bal org Hrun Hp Hpre;
    simpl in *.
  - case_match; by simplify_eq.
  - destruct x as [inc val|]; [|done].
    apply Nat.eqb_neq in Hp as Hp'. rewrite Hp' in Hrun. simpl in Hrun.
    destruct (need && _); [done|]. destruct (length prev =? length org); [done|].
    case_bool_decide as Hnext; [|done]. simpl in Hrun.
    assert (org ++ [OriginMvMemory {| tx_idx := k; tx_incarnation := inc |}] `prefix_of` prev)
      as Hpre'.
    { destruct Hpre as [rest ->]. rewrite lookup_app_r in Hnext by lia.
      rewrite Nat.sub_diag in Hnext. destruct rest as [|o rest]; simplify_eq/=.
      exists rest. by rewrite <-app_assoc. }
    destruct val; simplify_eq; [done|]. by eapply IH.
Qed.

Lemma basic_from_memory_prefix vm mv i loc prev acc bal org :
  basic_from_memory vm mv i loc prev = Ok (acc, bal, org) ->
  length prev <> 0 -> org `prefix_of` prev.
Proof.
  unfold basic_from_memory. intros Hm Hp. repeat case_match; simplify_eq;
    try apply prefix_nil. eapply evaluate_lazy_prefix; [done|done|apply prefix_nil].
Qed.

Lemma basic_read_spec vm mv i address loc prev acc new :
  basic_read vm mv i address loc prev = Ok (acc, new) ->
  exists vs bal,
    ((exists a, basic_from_memory vm mv i loc prev = Ok (Some a, bal, map OriginMvMemory vs)) /\
     vs <> [] /\ map OriginMvMemory vs `prefix_of` origins_after prev new) \/
    (basic_from_memory vm mv i loc prev = Ok (None, bal, map OriginMvMemory vs) /\
     origins_after prev new = map OriginMvMemory vs ++ [OriginStorage]).
Proof.
  unfold basic_read. destruct (basic_from_memory _ _ _ _ _) as [[[facc bal] org]|] eqn:Hm; [|done].
  destruct (basic_from_memory_origins _ _ _ _ _ _ _ _ Hm) as (vs & -> & Hvs).
  unfold origins_after. destruct facc as [a|]; intros Hrun; exists vs, bal.
  - left. simplify_eq. split_and!; [by eexists|by apply Hvs|].
    destruct (length prev =? 0) eqn:Hp; [done|]. apply Nat.eqb_neq in Hp.
    by eapply basic_from_memory_prefix.
  - right. split; [done|]. pose proof (basic_from_storage_origins _ _ _ _ _ _ _ Hrun) as ->.
    destruct (length prev =? 0) eqn:Hp; simpl; [done|].
    unfold basic_from_storage in Hrun. rewrite Hp in Hrun. simpl in Hrun.
    destruct (negb _ || negb _) eqn:Hb; [done|]. bool_to_prop.
    destruct (basic_from_memory_prefix _ _ _ _ _ _ _ _ Hm Hp) as [rest ->].
    rewrite length_app in *. destruct rest as [|o [|]]; simpl in *; try lia.
    rewrite last_snoc in *. by simplify_eq.
Qed.

(** ** One database call *)

(** The origins of a location so far. *)
Definition origins_of db (loc : MemoryLocationHash) : list ReadOrigin :=
  default [] (rs_locations (db_read_set db) !! loc).

(** How [basic] answers, whatever the memory: without reading it, or from
    [basic_read] at the account's location. *)
Lemma basic_shape vm db address preload :
  (exists x, forall mv, basic vm mv db address preload = Val (Ok x, db)) \/
  (exists f, forall mv, basic vm mv db address preload = Fault f) \/
  (exists loc db0,
     VmDb_get_address_hash vm db address = Val loc /\
     (db0 = db \/ db0 = with_only_read_from_and_to false db) /\
     forall mv, basic vm mv db address preload =
       match basic_read vm mv (db_tx_idx db) address loc (origins_of db loc) with
       | Err err => Val (Err err, with_origins loc (origins_of db loc) db0)
       | Ok (acc, new) =>
           Val (Ok acc, basic_record loc (origins_of db loc) acc new
                          (with_origins loc (origins_of db loc) db0))
       end).
Proof.
  unfold basic. destruct preload; [left; eauto|].
  destruct (db_is_maybe_lazy db && _); [left; eauto|]. right.
  set (db0 := if negb _ && negb _ then _ else db).
  assert (db0 = db \/ db0 = with_only_read_from_and_to false db) as Hdb0
    by (unfold db0; case_match; auto).
  assert (VmDb_get_address_hash vm db0 address = VmDb_get_address_hash vm db address) as ->
    by by destruct Hdb0 as [-> | ->].
  destruct (VmDb_get_address_hash vm db address) as [loc|f]; [right|left; by exists f].
  exists loc, db0. split_and!; [done|done|]. intros mv.
  assert (db_tx_idx db0 = db_tx_idx db /\ db_read_set db0 = db_read_set db) as [Hi Hr]
    by by destruct Hdb0 as [-> | ->].
  simpl. unfold origins_of. by rewrite Hi, Hr.
Qed.

Lemma basic_record_reads loc prev acc new db :
  rs_locations (db_read_set (basic_record loc prev acc new (with_origins loc prev db))) =
  <[loc := origins_after prev new]> (rs_locations (db_read_set db)).
Proof.
  unfold basic_record, origins_after.
  destruct (length prev =? 0), acc; simpl; by rewrite ?insert_insert_eq.
Qed.

Lemma basic_record_tx_idx loc prev acc new db :
  db_tx_idx (basic_record loc prev acc new db) = db_tx_idx db.
Proof. unfold basic_record. by repeat case_match. Qed.

Lemma storage_read_spec vm mv i address index loc prev r origins :
  storage_read vm mv i address index loc prev = (r, origins) ->
  (forall e, r = Err e -> blocks_lower i e) /\
  (origins = prev \/ length prev = 0 /\ exists o, origins = prev ++ [o]) /\
  (forall x, r = Ok x -> length origins <> 0).
Proof.
  intros Hrun. unfold storage_read in Hrun.
  destruct (last prev) as [o|] eqn:Hl.
  - assert (length prev <> 0) by (destruct prev; simpl in *; [done|lia]).
    repeat case_match; simplify_eq; (split_and!; [|auto|auto]); intros e He; try done; simplify_eq;
      try done.
    all: try (destruct (Storage.storage _ _ _); by simplify_eq/=).
    by eapply range_rev_head.
  - apply last_None in Hl as ->.
    repeat case_match; simplify_eq; (split_and!; [|eauto|auto]); intros e He; try done;
      simplify_eq; try done.
    all: try (destruct (Storage.storage _ _ _); by simplify_eq/=).
    by eapply range_rev_head.
Qed.
(** A call about transaction [i]: it keeps the index and the origins found
    before, its errors block on lower transactions, and when it succeeds the
    read set stays well formed. *)
Record call_ok {A} (db : VmDb) (r : result A ReadError) (db' : VmDb) : Prop := {
  co_tx_idx : db_tx_idx db' = db_tx_idx db;
  co_error : forall e, r = Err e -> blocks_lower (db_tx_idx db) e;
  co_reads : forall x, r = Ok x -> reads_wf db -> reads_wf db';
  co_keeps : forall loc origins, length origins <> 0 ->
    rs_locations (db_read_set db) !! loc = Some origins ->
    rs_locations (db_read_set db') !! loc = Some origins;
}.

(** Updating the origins of one location keeps those found before. *)
Lemma keeps_insert db loc origins :
  (length (origins_of db loc) <> 0 -> origins = origins_of db loc) ->
  forall loc' origins', length origins' <> 0 ->
    rs_locations (db_read_set db) !! loc' = Some origins' ->
    <[loc := origins]> (rs_locations (db_read_set db)) !! loc' = Some origins'.
Proof.
  intros Ho loc' origins' Hlen Hl. destruct (decide (loc = loc')) as [->|];
    [|by rewrite lookup_insert_ne].
  rewrite lookup_insert_eq. unfold origins_of in Ho. rewrite Hl in Ho. by rewrite Ho.
Qed.

Lemma origins_of_wf db loc : reads_wf db -> length (origins_of db loc) <> 0 ->
  origins_wf (origins_of db loc).
Proof.
  unfold origins_of. intros Hwf Hl. destruct (_ !! loc) eqn:E; simpl in *; [by eapply Hwf|lia].
Qed.

Lemma basic_read_wf vm mv i address loc db acc new :
  reads_wf db -> basic_read vm mv i address loc (origins_of db loc) = Ok (acc, new) ->
  origins_wf (origins_after (origins_of db loc) new).
Proof.
  intros Hwf Hrun. destruct (decide (length (origins_of db loc) = 0)) as [Hl|Hl].
  - destruct (basic_read_spec _ _ _ _ _ _ _ _ Hrun) as (vs & bal & [([a Hm] & Hvs & _)|[_ ->]]).
    + unfold basic_read in Hrun. rewrite Hm in Hrun. simplify_eq.
      unfold origins_after. rewrite Hl. simpl. by apply origins_wf_versions.
    + apply origins_wf_storage.
  - unfold origins_after. apply Nat.eqb_neq in Hl as Hl'. rewrite Hl'.
    by apply origins_of_wf.
Qed.

Lemma basic_call_ok vm mv db address preload r db' :
  basic vm mv db address preload = Val (r, db') -> call_ok db r db'.
Proof.
  destruct (basic_shape vm db address preload) as [[x ->]|[[f ->]|(loc & db0 & _ & Hdb0 & ->)]].
  - intros [= <- <-]. by split.
  - done.
  - assert (db_tx_idx db0 = db_tx_idx db /\ db_read_set db0 = db_read_set db) as [Hi Hr]
      by by destruct Hdb0 as [-> | ->].
    destruct (basic_read _ _ _ _ _ _) as [[acc new]|e] eqn:Hrun; intros [= <- <-].
    + split; rewrite ?basic_record_tx_idx, ?basic_record_reads; try done.
      * intros _ _ Hwf loc' origins'. rewrite basic_record_reads, Hr.
        intros [[_ <-]|[_ ?]]%lookup_insert_Some; [|by eapply Hwf].
        by eapply basic_read_wf.
      * rewrite Hr. apply keeps_insert. intros Hl. unfold origins_after.
        by apply Nat.eqb_neq in Hl as ->.
    + split; try done.
      * intros e' [= <-]. unfold basic_read in Hrun.
        destruct (basic_from_memory _ _ _ _ _) as [[[[] ?] ?]|] eqn:Hm; simplify_eq;
          [by eapply basic_from_storage_error|by eapply basic_from_memory_error].
      * simpl. rewrite Hr. by apply keeps_insert.
Qed.

Lemma storage_call_ok vm mv db address index r db' :
  storage vm mv db address index = (r, db') -> call_ok db r db'.
Proof.
  unfold storage. simpl. set (loc := vm_hasher vm _). fold (origins_of db loc).
  destruct (storage_read _ _ _ _ _ _ _) as [r0 origins] eqn:Hrun. intros [= <- <-].
  destruct (storage_read_spec _ _ _ _ _ _ _ _ _ Hrun) as (He & Ho & Hok).
  split; try done.
  - intros x -> Hwf loc' origins' Hl. simpl in Hl.
    apply lookup_insert_Some in Hl as [[_ <-]|[_ ?]]; [|by eapply Hwf].
    destruct Ho as [->|[Hl [o ->]]]; [apply origins_of_wf; [done|by eapply Hok]|].
    apply length_zero_iff_nil in Hl as ->. destruct o as [v|].
    + by apply (origins_wf_versions [v]).
    + apply (origins_wf_storage []).
  - apply (keeps_insert db). intros Hl. destruct Ho as [|[? _]]; [done|lia].
Qed.

(** A call of the program: the rest of the program and the answer it got. *)
Inductive answers {R} : DbProg ReadError R -> forall A, result A ReadError ->
  DbProg ReadError R -> Prop :=
| ans_basic a b k r : answers (CallBasic a b k) _ r (k r)
| ans_code_by_hash h k r : answers (CallCodeByHash h k) _ r (k r)
| ans_has_storage a k r : answers (CallHasStorage a k) _ r (k r)
| ans_storage a i k r : answers (CallStorage a i k) _ r (k r)
| ans_block_hash b k r : answers (CallBlockHash b k) _ r (k r).

Lemma db_call_ok {R} vm mv (p p' : DbProg ReadError R) db db' :
  db_call vm mv p db = Val (p', db') -> (forall r, p <> Return r) ->
  exists A (r : result A ReadError), answers p A r p' /\ call_ok db r db'.
Proof.
  assert (forall A (r : result A ReadError), (forall e, r = Err e -> blocks_lower (db_tx_idx db) e) ->
    call_ok db r db) as Hsame by by split.
  intros Hrun Hp. destruct p; simpl in Hrun.
  - by destruct (Hp r).
  - destruct (basic _ _ _ _ _) as [[r db1]|] eqn:Hb; simplify_eq/=.
    eexists _, r. split; [constructor|by eapply basic_call_ok].
  - simplify_eq. eexists _, _. split; [constructor|]. apply Hsame.
    unfold code_by_hash. destruct (Storage.code_by_hash _ _); naive_solver.
  - simplify_eq. eexists _, _. split; [constructor|]. apply Hsame.
    unfold has_storage. destruct (Storage.has_storage _ _); naive_solver.
  - destruct (storage _ _ _ _ _) as [r db1] eqn:Hb. simplify_eq.
    eexists _, r. split; [constructor|by eapply storage_call_ok].
  - simplify_eq. eexists _, _. split; [constructor|]. apply Hsame.
    unfold block_hash. destruct (Storage.block_hash _ _); naive_solver.
Qed.
Lemma answers_fails {T X} (p p' : DbProg ReadError (result T X)) A (r : result A ReadError) :
  answers p A r p' -> always_fails p -> always_fails p'.
Proof. intros [] Hp; apply Hp. Qed.

Lemma answers_fatal {T} (P : ReadError -> Prop)
  (p p' : DbProg ReadError (result T (EVMError ReadError))) A (r : result A ReadError) :
  answers p A r p' -> db_errors_fatal P p ->
  match r with
  | Ok _ => db_errors_fatal P p'
  | Err e => P e -> db_errors_fatal P p' /\ always_fails p'
  end.
Proof. intros [? ? ? x|? ? x|? ? x|? ? ? x|? ? x] Hp; exact (Hp x). Qed.

(** ** The result of an execution *)

Lemma apply_reward_mem loc amount ws ws' :
  apply_reward loc amount ws = Val ws' -> loc ∈ map fst ws'.
Proof.
  revert ws'. induction ws as [|[l v] ws IH]; intros ws' Hrun; simpl in *.
  - simplify_eq. simpl. set_solver.
  - destruct (l =? loc)%Z eqn:E.
    + apply Z.eqb_eq in E as ->. destruct v; simplify_eq/=; set_solver.
    + destruct (apply_reward loc amount ws) as [rest|] eqn:Hrest; simplify_eq/=.
      specialize (IH rest eq_refl). set_solver.
Qed.

Lemma apply_rewards_mem vm ws tx gas ws' :
  apply_rewards vm ws tx gas = Val ws' -> vm_beneficiary_location_hash vm ∈ map fst ws'.
Proof.
  unfold apply_rewards, rewards. destruct (vm_reward_policy vm). simpl.
  destruct (apply_reward _ _ _) as [ws1|] eqn:Hr; [|done]. intros [= <-].
  by eapply apply_reward_mem.
Qed.

(** Slots are written to storage locations, accounts to account locations. *)
Definition location_typed vm (loc : MemoryLocationHash) (v : MemoryValue) : Prop :=
  match v with
  | ValStorage _ => exists a ix, loc = vm_hasher vm (LocStorage a ix)
  | ValBasic _ | ValLazyBalanceAddition _ =>
      loc = vm_beneficiary_location_hash vm \/ exists a, loc = get_address_hash vm a
  end.

Lemma write_set_of_typed vm tx to is_maybe_lazy accounts state loc v :
  (loc, v) ∈ write_set_of vm tx to is_maybe_lazy accounts state -> location_typed vm loc v.
Proof.
  unfold write_set_of. rewrite list_elem_of_In, in_flat_map.
  intros ([address account] & _ & Hin). unfold account_writes in Hin.
  destruct (acc_is_selfdestructed account).
  - destruct Hin as [[= <- <-]|[]]. right. by eexists.
  - apply in_app_iff in Hin as [Hin|Hin].
    + destruct (acc_is_touched account && _); [|done]. destruct Hin as [[= <- <-]|[]].
      destruct (is_maybe_lazy && _ && _); right; by eexists.
    + apply in_map_iff in Hin as ([slot value] & [= <- <-] & _). by eexists _, _.
Qed.

Lemma apply_reward_typed vm amount ws ws' :
  apply_reward (vm_beneficiary_location_hash vm) amount ws = Val ws' ->
  (forall loc v, (loc, v) ∈ ws -> location_typed vm loc v) ->
  forall loc v, (loc, v) ∈ ws' -> location_typed vm loc v.
Proof.
  revert ws'. induction ws as [|[l x] ws IH]; intros ws' Hrun Hws loc v Hin; simpl in Hrun.
  - simplify_eq. apply list_elem_of_singleton in Hin as [= -> ->]. by left.
  - destruct (l =? _)%Z eqn:E.
    + apply Z.eqb_eq in E as ->. destruct x; simplify_eq/=;
        (apply elem_of_cons in Hin as [[= -> ->]|Hin]; [by left|apply Hws; set_solver]).
    + destruct (apply_reward _ amount ws) as [rest|] eqn:Hrest; simplify_eq/=.
      apply elem_of_cons in Hin as [[= -> ->]|Hin]; [apply Hws; set_solver|].
      eapply IH; [done| |done]. intros loc' v' Hin'. apply Hws. set_solver.
Qed.

Lemma apply_rewards_typed vm ws tx gas ws' :
  apply_rewards vm ws tx gas = Val ws' ->
  (forall loc v, (loc, v) ∈ ws -> location_typed vm loc v) ->
  forall loc v, (loc, v) ∈ ws' -> location_typed vm loc v.
Proof.
  unfold apply_rewards, rewards. destruct (vm_reward_policy vm). simpl.
  destruct (apply_reward _ _ _) as [ws1|] eqn:Hr; [|done]. intros [= <-].
  by eapply apply_reward_typed.
Qed.

Lemma next_validation_range vm i only create from_hash to_hash ws k :
  next_validation vm i only create from_hash to_hash ws = Some k -> k = i \/ k = Datatypes.S i.
Proof. unfold next_validation. repeat case_match; intros; simplify_eq; lia. Qed.

Lemma end_execution_ok vm ex db r res :
  end_execution vm ex db r = Val res ->
  (forall e, r = Err (EvmDatabase e) -> blocks_lower (ex_tx_idx ex) e) ->
  (forall x, r = Ok x -> reads_wf db) ->
  result_ok (location_typed vm) (vm_beneficiary_location_hash vm) (ex_tx_idx ex) res.
Proof.
  unfold end_execution. intros Hrun Herr Hok. destruct r as [ras|err].
  - destruct (apply_rewards _ _ _ _) as [ws|] eqn:Hw; simplify_eq/=.
    destruct (from_revm _ _) as [x|]; simplify_eq/=. split_and!.
    + by eapply apply_rewards_mem.
    + by eapply Hok.
    + apply next_validation_range.
    + eapply apply_rewards_typed; [done|]. intros loc v. apply write_set_of_typed.
  - simplify_eq. unfold execution_failure.
    destruct err as [[]| |[]|]; simpl; try done; [|by apply (Herr (BlockingIndex _))].
    destruct (0 <? ex_tx_idx ex) eqn:Hi; simpl; [|done]. bool_to_prop. lia.
Qed.

(** ** The implementation of the interface *)

#[export] Instance vm_ops vm : VmOps :=
  {| Exec := Execution * DbProg ReadError (result ResultAndState ExecutionError) * VmDb;
     vm_start := fun i =>
       '(ex, db) ← begin_execution vm i; Val (ex, execution_program vm ex, db);
     vm_step := fun mv '(ex, p, db) =>
       match p with
       | Return r => res ← end_execution vm ex db r; Val (inr res)
       | _ => '(p, db) ← db_call vm mv p db; Val (inl (ex, p, db))
       end |}.

(** What holds during an execution of transaction [i]. *)
Definition execution_inv vm (i : TxIdx) (e : @Exec (vm_ops vm)) : Prop :=
  let '(ex, p, db) := e in
  ex_tx_idx ex = i /\ db_tx_idx db = i /\
  db_errors_fatal (blocks_lower i) p /\ (reads_wf db \/ always_fails p).

Lemma begin_execution_ok vm i ex db :
  begin_execution vm i = Val (ex, db) ->
  ex_tx_idx ex = i /\ db_tx_idx db = i /\ db_read_set db = ReadSet_default.
Proof.
  unfold begin_execution. intros Hrun.
  destruct (vec_get _ _) as [tx|]; [|done]. simpl in Hrun.
  destruct (te_transact_to tx); simpl in Hrun;
    [destruct (maybe_lazy vm (te_caller tx) (Some address))|]; by simplify_eq/=.
Qed.

Lemma execution_step vm i mv ex p db p' db' :
  execution_inv vm i (ex, p, db) -> (forall r, p <> Return r) ->
  db_call vm mv p db = Val (p', db') -> execution_inv vm i (ex, p', db').
Proof.
  intros (Hex & Hdb & Hfatal & Hwf) Hp Hrun.
  destruct (db_call_ok vm mv p p' db db' Hrun Hp) as (A & r & Hans & Hcall).
  pose proof (answers_fatal _ _ _ _ _ Hans Hfatal) as Hnext.
  split; [done|]. split; [by rewrite (co_tx_idx _ _ _ Hcall)|].
  destruct r as [x|e].
  - split; [done|]. destruct Hwf as [Hwf|Hf].
    + left. by eapply (co_reads _ _ _ Hcall).
    + right. by eapply answers_fails.
  - destruct Hnext as [? ?]; [|by auto]. rewrite <-Hdb. by apply (co_error _ _ _ Hcall).
Qed.

Lemma end_execution_result vm i ex db r res :
  execution_inv vm i (ex, Return r, db) -> end_execution vm ex db r = Val res ->
  result_ok (location_typed vm) (vm_beneficiary_location_hash vm) i res.
Proof.
  intros (<- & _ & Hfatal & Hwf) Hrun. eapply end_execution_ok; [done|by apply Hfatal|].
  intros x ->. destruct Hwf as [?|[? ?]]; done.
Qed.

#[export] Instance vm_contract vm n :
  @VmContract (vm_ops vm) n (vm_beneficiary_location_hash vm).
Proof.
  unshelve refine (Build_VmContract (vm_ops vm) n (vm_beneficiary_location_hash vm)
    (location_typed vm) (execution_inv vm) _ _ _).
  - intros i e _ Hrun. simpl in Hrun.
    destruct (begin_execution vm i) as [[ex db]|] eqn:Hb; simplify_eq/=.
    destruct (begin_execution_ok vm i ex db Hb) as (Hex & Hdb & Hr). split_and!; [done|done| |].
    + apply transact_db_errors.
    + left. intros loc origins. by rewrite Hr.
  - intros i mv [[ex p] db] e' Hinv Hrun. cbn [vm_step vm_ops] in Hrun. simpl in Hrun.
    assert (exists p' db', db_call vm mv p db = Val (p', db') /\ e' = (ex, p', db') /\
      forall r, p <> Return r) as (p' & db' & Hcall & -> & Hp).
    { destruct p; try (by destruct (end_execution _ _ _ _));
        destruct (db_call vm mv _ db) as [[p' db']|]; simplify_eq/=; by eexists _, _. }
    by eapply execution_step.
  - intros i mv [[ex p] db] res Hinv Hrun. simpl in Hrun.
    destruct p; try (destruct (db_call vm mv _ db) as [[? ?]|]; by simplify_eq/=).
    destruct (end_execution _ _ _ _) eqn:Hend; simplify_eq/=.
    by eapply end_execution_result.
Defined.
(** ** Whole executions *)

Lemma run_db_call {R} vm mvs (p : DbProg ReadError R) calls db :
  (forall r, p <> Return r) ->
  run_db vm mvs p calls db =
  '(p', db') ← db_call vm (mvs calls) p db; run_db vm mvs p' (calls + 1) db'.
Proof.
  intros Hp. destruct p; simpl; [by destruct (Hp r)|..|done]; try done.
  - by destruct (basic _ _ _ _ _) as [[? ?]|].
  - by destruct (storage _ _ _ _ _).
Qed.

Lemma not_return {R} (p : DbProg ReadError R) :
  (exists r, p = Return r) \/ (forall r, p <> Return r).
Proof. destruct p; [left; by eexists|right..]; done. Qed.

(** The programs that a call may continue with are smaller. *)
Lemma DbProg_call_ind {R} (P : DbProg ReadError R -> Prop) :
  (forall r, P (Return r)) ->
  (forall p, (forall r, p <> Return r) ->
     (forall A (r : result A ReadError) p', answers p A r p' -> P p') -> P p) ->
  forall p, P p.
Proof.
  intros Hret Hcall. induction p; [apply Hret|..]; (apply Hcall; [done|]);
    intros A x p' Hans; inversion Hans; subst; auto.
Qed.

Lemma run_db_inv vm mvs i ex p calls db r db' :
  execution_inv vm i (ex, p, db) -> run_db vm mvs p calls db = Val (r, db') ->
  execution_inv vm i (ex, Return r, db').
Proof.
  revert calls db. induction p as [r0|p Hp IH] using DbProg_call_ind; intros calls db Hinv Hrun.
  - simpl in Hrun. by simplify_eq.
  - rewrite run_db_call in Hrun by done.
    destruct (db_call vm (mvs calls) p db) as [[p1 db1]|] eqn:Hcall; simplify_eq/=.
    destruct (db_call_ok _ _ _ _ _ _ Hcall Hp) as (A & x & Hans & _).
    eapply IH; [done|by eapply execution_step|done].
Qed.

(** The execution of a transaction as the workers make it, call by call, the
    memory being [mvs k] at the [k]-th step. *)
Fixpoint execute_steps vm (mvs : nat -> MvMemory) (fuel calls : nat) (e : @Exec (vm_ops vm))
  : outcome VmExecutionResult :=
  match fuel with
  | 0 => Fault OutOfFuel
  | Datatypes.S fuel =>
      r ← vm_step (mvs calls) e;
      match r with
      | inl e => execute_steps vm mvs fuel (calls + 1) e
      | inr res => Val res
      end
  end.

Lemma execute_steps_run vm mvs ex p calls db :
  exists fuel, forall fuel', fuel <= fuel' ->
    execute_steps vm mvs fuel' calls (ex, p, db) =
    '(r, db') ← run_db vm mvs p calls db; end_execution vm ex db' r.
Proof.
  revert calls db. induction p as [r|p Hp IH] using DbProg_call_ind; intros calls db.
  - exists 1. intros [|fuel'] Hf; [lia|]. simpl. by destruct (end_execution _ _ _ _).
  - destruct (db_call vm (mvs calls) p db) as [[p1 db1]|f] eqn:Hcall.
    + destruct (db_call_ok _ _ _ _ _ _ Hcall Hp) as (A & x & Hans & _).
      destruct (IH _ _ _ Hans (calls + 1) db1) as [fuel Hfuel].
      exists (Datatypes.S fuel). intros [|fuel'] Hf; [lia|].
      rewrite run_db_call, Hcall by done.
      transitivity (execute_steps vm mvs fuel' (calls + 1) (ex, p1, db1));
        [|by rewrite Hfuel by lia].
      cbn [execute_steps vm_step vm_ops].
      destruct p; [by destruct (Hp r)|..]; rewrite Hcall; done.
    + exists 1. intros [|fuel'] Hf; [lia|]. rewrite run_db_call, Hcall by done.
      cbn [execute_steps vm_step vm_ops].
      destruct p; [by destruct (Hp r)|..]; rewrite Hcall; done.
Qed.
(** * Properties *)

(** C26. What an execution reports is well formed, whatever the memory does while
    it runs: a blocking transaction is a lower one; a successful execution
    always writes the beneficiary's location, recorded for every location it
    read a non-empty list of origins (versions from the closest down, then
    possibly the storage), writes slots to storage locations and accounts to
    account locations, and asks for validation from itself or from the next
    transaction, if at all. *)
Theorem execute_result_ok vm mvs i r :
  execute vm mvs i = Val r -> result_ok (location_typed vm) (vm_beneficiary_location_hash vm) i r.
Proof.
  unfold execute. intros Hrun.
  destruct (begin_execution vm i) as [[ex db]|] eqn:Hb; [|done]. simpl in Hrun.
  destruct (run_db vm mvs _ 0 db) as [[x db']|] eqn:Hr; [|done]. simpl in Hrun.
  eapply end_execution_result; [|done]. eapply run_db_inv; [|done].
  destruct (begin_execution_ok vm i ex db Hb) as (Hex & Hdb & Hrs).
  split_and!; [done|done|apply transact_db_errors|]. left. intros loc origins. by rewrite Hrs.
Qed.
End contract.

Lemma execute_result_ok_witness :
  let vm := Vm.new sample_hasher sample_storage 1%Z LONDON sample_block sample_txs in
  let mv := MvMemory.new 2 [(18%Z, [0; 1])] in
  exists r, execute vm (fun _ => mv) 1 = Val r /\ result_ok (location_typed vm) 18%Z 1 r.
Proof.
  intros vm mv. destruct (execute vm (fun _ => mv) 1) as [r|f] eqn:Hrun.
  - exists r. split; [reflexivity|]. exact (execute_result_ok vm (fun _ => mv) 1 r Hrun).
  - vm_compute in Hrun. discriminate.
Defined.
