(* ===== verification/Writes.v ===== *)
(** * Writes: what an execution writes

    The write set that [Vm::execute] builds from the state revm returns
    ([src/vm.rs]), location by location: each account and slot that changed, the
    recipients of plain transfers lazily, and the beneficiary with its reward. *)

From stdpp Require Import base list gmap.
From Stdlib Require Import ZArith Lia.
From S2P Require Import Prelude Types MvMemory Revm Storage Sample Vm VmCorrect.

(** ** The specification *)

Section spec.
Context `{Revm} {S : Type} `{Storage S}.

(** The transaction pays an address that has no code in the storage and is not
    its own sender. *)
Definition pays_plainly (storage : S) (tx : TxEnv) (a : Address) : Prop :=
  te_transact_to tx = Call a /\ te_caller tx <> a /\ is_contract storage a = Ok false.

(** The account that was read is the one that results. *)
Definition unchanged (read : option AccountInfo) (info : AccountInfo) : Prop :=
  exists old, read = Some old /\ info_balance old = info_balance info /\
    info_nonce old = info_nonce info /\ info_code_hash old = info_code_hash info.

(** The value that is written for an account, rewards aside. *)
Inductive account_value (storage : S) (tx : TxEnv) (read : option AccountInfo)
  (a : Address) (account : Account) : MemoryValue -> Prop :=
| value_destroyed :
    acc_is_selfdestructed account = true ->
    account_value storage tx read a account (ValBasic AccountInfo_default)
| value_received :
    acc_is_selfdestructed account = false -> acc_is_touched account = true ->
    ~ unchanged read (acc_info account) ->
    pays_plainly storage tx a -> is_empty_code_hash (acc_info account) = true ->
    account_value storage tx read a account (ValLazyBalanceAddition (te_value tx))
| value_updated :
    acc_is_selfdestructed account = false -> acc_is_touched account = true ->
    ~ unchanged read (acc_info account) ->
    ~ (pays_plainly storage tx a /\ is_empty_code_hash (acc_info account) = true) ->
    account_value storage tx read a account (ValBasic (acc_info account)).

(** What the transaction writes, rewards aside, when revm returns [state]. *)
Inductive written (storage : S) (tx : TxEnv) (reads : Address -> option AccountInfo)
  (state : list (Address * Account)) : MemoryLocation -> MemoryValue -> Prop :=
| written_account a account v :
    (a, account) ∈ state -> account_value storage tx (reads a) a account v ->
    written storage tx reads state (LocBasic a) v
| written_slot a account index slot :
    (a, account) ∈ state -> acc_is_selfdestructed account = false ->
    (index, slot) ∈ changed_storage_slots account ->
    written storage tx reads state (LocStorage a index) (ValStorage (slot_present_value slot)).

(** What the beneficiary is paid for each unit of gas: from London on at most the
    priority fee, and at most what the price leaves above the base fee. *)
Definition tip (spec_id : SpecId) (basefee : U256) (tx : TxEnv) : Z :=
  let room := (te_gas_price tx - basefee)%Z in
  let tip := match te_gas_priority_fee tx with Some fee => Z.min fee room | None => room end in
  if is_enabled_in spec_id LONDON then Z.max 0 tip else (tip + basefee)%Z.

(** The writes with the beneficiary's reward added to its own account. *)
Inductive rewarded (coinbase : Address) (reward : Z) (own : MemoryLocation -> MemoryValue -> Prop)
  : MemoryLocation -> MemoryValue -> Prop :=
| rewarded_other l v : l <> LocBasic coinbase -> own l v -> rewarded coinbase reward own l v
| rewarded_account info :
    own (LocBasic coinbase) (ValBasic info) ->
    rewarded coinbase reward own (LocBasic coinbase)
      (ValBasic {| info_balance := ((info_balance info + reward) mod 2 ^ 256)%Z;
                   info_nonce := info_nonce info; info_code_hash := info_code_hash info;
                   info_code := info_code info |})
| rewarded_lazy addition :
    own (LocBasic coinbase) (ValLazyBalanceAddition addition) ->
    rewarded coinbase reward own (LocBasic coinbase)
      (ValLazyBalanceAddition ((addition + reward) mod 2 ^ 256)%Z)
| rewarded_only :
    (forall v, ~ own (LocBasic coinbase) v) ->
    rewarded coinbase reward own (LocBasic coinbase) (ValLazyBalanceAddition reward).

Definition location_address (l : MemoryLocation) : Address :=
  match l with LocBasic a | LocStorage a _ => a end.

(** The locations that may be written. *)
Definition involved (coinbase : Address) (state : list (Address * Account))
  (l : MemoryLocation) : Prop :=
  l = LocBasic coinbase \/
  exists a account, (a, account) ∈ state /\
    (l = LocBasic a \/
     exists index slot, (index, slot) ∈ changed_storage_slots account /\ l = LocStorage a index).

(** A map of accounts to their changed slots, and no collisions among them. *)
Record state_wf (hasher : MemoryLocation -> MemoryLocationHash) (coinbase : Address)
  (state : list (Address * Account)) : Prop := {
  sw_accounts : NoDup (map fst state);
  sw_slots : forall a account, (a, account) ∈ state ->
    NoDup (map fst (changed_storage_slots account));
  sw_hashes : forall l l', involved coinbase state l -> involved coinbase state l' ->
    hasher l = hasher l' -> l = l';
}.
End spec.

(** ** Lemmas *)

Lemma elem_of_map_fst {A B} (l : list (A * B)) a :
  a ∈ map fst l <-> exists b, (a, b) ∈ l.
Proof.
  rewrite list_elem_of_In, in_map_iff. setoid_rewrite <-list_elem_of_In. split.
  - intros ([a' b] & <- & Hin). by exists b.
  - intros [b Hin]. by exists (a, b).
Qed.

Section writes.
Context `{RevmLaws} {S : Type} `{Storage S}.
Context (hasher : MemoryLocation -> MemoryLocationHash) (storage : S) (chain : u64)
  (spec_id : SpecId) (block : BlockEnv) (txs : list TxEnv).
#[local] Abbreviation vm := (Vm.new hasher storage chain spec_id block txs) (only parsing).
#[local] Abbreviation coinbase := (be_coinbase block) (only parsing).

Lemma get_address_hash_new a : get_address_hash vm a = hasher (LocBasic a).
Proof.
  unfold get_address_hash. simpl. destruct (a =? coinbase)%Z eqn:E; [|done].
  by apply Z.eqb_eq in E as ->.
Qed.

Lemma begin_execution_tx i ex db :
  begin_execution vm i = Val (ex, db) ->
  txs !! i = Some (ex_tx ex) /\
  forall a, ex_is_maybe_lazy ex && bool_decide (Some a = ex_to ex) = true <->
    pays_plainly storage (ex_tx ex) a.
Proof.
  unfold begin_execution, vec_get, pays_plainly. simpl.
  destruct (txs !! i) as [tx|]; [|done]. simpl.
  destruct (te_transact_to tx) as [to|] eqn:Hto.
  - unfold maybe_lazy, is_contract_unwrap. simpl. case_bool_decide as Hfrom.
    + intros [= <- <-]. simpl. split; [done|]. intros a. rewrite Hto. split; [done|].
      intros ([= ->] & Hne & _). by injection Hfrom.
    + destruct (is_contract storage to) as [b|] eqn:Hc; [|done]. intros [= <- <-]. simpl.
      split; [done|]. intros a. rewrite andb_true_iff, bool_decide_eq_true, negb_true_iff, Hto.
      split.
      * intros [-> [= ->]]. split_and!; [done|congruence|done].
      * intros ([= ->] & _ & Ha). split; [|done]. congruence.
  - unfold maybe_lazy. simpl. intros [= <- <-]. simpl.
    split; [done|]. intros a. rewrite Hto. split; [done|]. by intros [? _].
Qed.

Lemma unchanged_eqb read info :
  (match read with Some old => AccountInfo_eqb old info | None => false end) = true <->
  unchanged read info.
Proof.
  unfold unchanged. destruct read as [old|]; [|split; [done|by intros (? & ? & _)]].
  rewrite AccountInfo_eqb_spec. split; [by eexists|]. by intros (? & [= <-] & ?).
Qed.

Section one.
Context (tx : TxEnv) (to : option Address) (lazy : bool)
  (accounts : gmap MemoryLocationHash AccountInfo).
Hypothesis Hlazy : forall a, lazy && bool_decide (Some a = to) = true <-> pays_plainly storage tx a.
#[local] Abbreviation reads := (fun a => accounts !! hasher (LocBasic a)) (only parsing).

Lemma account_value_spec a account v :
  acc_is_selfdestructed account = false ->
  account_value storage tx (reads a) a account v <->
  acc_is_touched account = true /\ ~ unchanged (reads a) (acc_info account) /\
  v = if lazy && bool_decide (Some a = to) && is_empty_code_hash (acc_info account)
      then ValLazyBalanceAddition (te_value tx) else ValBasic (acc_info account).
Proof.
  intros Hsd. split.
  - intros [?|? ? ? Hp He|? ? ? Hn]; [congruence| |]; split_and!; try done.
    + apply Hlazy in Hp. by rewrite Hp, He.
    + destruct (_ && is_empty_code_hash _) eqn:E; [|done]. apply andb_true_iff in E as [E%Hlazy ?].
      by destruct Hn.
  - intros (Ht & Hu & ->). destruct (_ && is_empty_code_hash _) eqn:E.
    + apply andb_true_iff in E as [E%Hlazy ?]. by constructor.
    + constructor; try done. intros [Hp%Hlazy He]. by rewrite Hp, He in E.
Qed.

(** The entries of one account, with their locations. *)
Lemma account_writes_spec a account loc v :
  (loc, v) ∈ account_writes vm tx to lazy accounts a account <->
  (loc = hasher (LocBasic a) /\ account_value storage tx (reads a) a account v) \/
  (acc_is_selfdestructed account = false /\
   exists index slot, (index, slot) ∈ changed_storage_slots account /\
     loc = hasher (LocStorage a index) /\ v = ValStorage (slot_present_value slot)).
Proof.
  unfold account_writes. rewrite get_address_hash_new.
  destruct (acc_is_selfdestructed account) eqn:Hsd.
  { rewrite list_elem_of_singleton. split.
    - intros [= -> ->]. left. by split; [|constructor].
    - intros [[-> Hv]|[? _]]; [|done]. destruct Hv; congruence. }
  rewrite elem_of_app, account_value_spec by done. f_equiv.
  - rewrite <-(unchanged_eqb (reads a)).
    set (same := match accounts !! hasher (LocBasic a) with Some _ => _ | None => _ end).
    destruct (acc_is_touched account), same; simpl; rewrite ?elem_of_nil, ?list_elem_of_singleton;
      naive_solver.
  - rewrite list_elem_of_In, in_map_iff. split.
    + intros ([index slot] & [= <- <-] & ?%list_elem_of_In). split; [done|]. by eexists _, _.
    + intros (_ & index & slot & ? & -> & ->). exists (index, slot).
      by rewrite <-list_elem_of_In.
Qed.

Lemma write_set_of_spec state loc v :
  (loc, v) ∈ write_set_of vm tx to lazy accounts state <->
  exists l, loc = hasher l /\ written storage tx reads state l v.
Proof.
  unfold write_set_of. rewrite list_elem_of_In, in_flat_map. setoid_rewrite <-list_elem_of_In.
  split.
  - intros ([a account] & Hin & Hv). apply account_writes_spec in Hv as [[-> ?]|(? & ? & ? & ? & -> & ->)];
      (eexists; split; [done|by econstructor]).
  - intros (l & -> & [a account v' Hin ?|a account index slot Hin ? ?]);
      exists (a, account); (split; [done|]); apply account_writes_spec; [by left|].
    right. split; [done|]. by eexists _, _.
Qed.

(** Each location is written once. *)
Lemma account_writes_nodup state a account :
  state_wf hasher coinbase state -> (a, account) ∈ state ->
  NoDup (map fst (account_writes vm tx to lazy accounts a account)).
Proof.
  intros [_ Hslots Hinj] Hin. unfold account_writes. rewrite get_address_hash_new.
  destruct (acc_is_selfdestructed account); [apply NoDup_singleton|].
  rewrite map_app, map_map. apply NoDup_app. split_and!.
  - destruct (_ && _); [apply NoDup_singleton|constructor].
  - intros loc Hloc ([index slot] & Hl & Hs)%list_elem_of_In%in_map_iff. simpl in Hl. subst loc.
    assert (Heq : hasher (LocStorage a index) = hasher (LocBasic a)).
    { destruct (_ && _); [|by apply elem_of_nil in Hloc]. by apply list_elem_of_singleton in Hloc. }
    apply Hinj in Heq; [done| |]; right; exists a, account; (split; [done|]); [right|by left].
    exists index, slot. by rewrite list_elem_of_In.
  - specialize (Hslots a account Hin).
    assert (forall index, index ∈ map fst (changed_storage_slots account) ->
              involved coinbase state (LocStorage a index)) as Hi.
    { intros index [slot Hs]%elem_of_map_fst. right. exists a, account.
      split; [done|]. right. by exists index, slot. }
    revert Hslots Hi. induction (changed_storage_slots account) as [|[index slot] l IH]; simpl;
      [constructor|].
    intros [Hnew Hnd]%NoDup_cons Hi. constructor; [|apply IH; set_solver].
    intros ([index' slot'] & Heq & Hs)%list_elem_of_In%in_map_iff. simpl in Heq.
    assert (index' ∈ map fst l) as Hidx by (apply elem_of_map_fst; exists slot'; by apply list_elem_of_In).
    apply Hinj in Heq; [|apply Hi; set_solver..]. by injection Heq as ->.
Qed.

Lemma write_set_of_involved state loc :
  loc ∈ map fst (write_set_of vm tx to lazy accounts state) ->
  exists l, loc = hasher l /\ involved coinbase state l /\ location_address l ∈ map fst state.
Proof.
  intros [v (l & -> & Hw)%write_set_of_spec]%elem_of_map_fst. exists l. split; [done|].
  destruct Hw as [a account v Hin _|a account index slot Hin _ ?];
    (split; [right; exists a, account; (split; [done|])|apply elem_of_map_fst; by exists account]);
    [by left|right; by eexists _, _].
Qed.

Lemma involved_mono part state l :
  (forall x, x ∈ part -> x ∈ state) -> involved coinbase part l -> involved coinbase state l.
Proof. unfold involved. naive_solver. Qed.

Lemma write_set_of_nodup state part :
  state_wf hasher coinbase state -> (forall x, x ∈ part -> x ∈ state) -> NoDup (map fst part) ->
  NoDup (map fst (write_set_of vm tx to lazy accounts part)).
Proof.
  intros Hwf. induction part as [|[a account] part IH]; simpl; intros Hin Hnd; [constructor|].
  apply NoDup_cons in Hnd as [Hnew Hnd]. rewrite map_app. apply NoDup_app. split_and!.
  - eapply account_writes_nodup; [done|]. apply Hin. set_solver.
  - intros loc Hloc Hloc'.
    destruct (write_set_of_involved [(a, account)] loc) as (l & -> & Hi & Hl);
      [simpl; by rewrite app_nil_r|].
    apply write_set_of_involved in Hloc' as (l' & Heq & Hi' & Hl').
    apply (sw_hashes _ _ _ Hwf) in Heq as <-.
    + apply list_elem_of_singleton in Hl. simpl in Hl. by subst a.
    + eapply involved_mono; [|done]. set_solver.
    + eapply involved_mono; [|done]. set_solver.
  - apply IH; [set_solver|done].
Qed.
End one.

(** ** Rewards *)

Definition with_reward (amount : U256) (v : MemoryValue) : MemoryValue :=
  match v with
  | ValBasic info => ValBasic (info_add_balance amount info)
  | ValLazyBalanceAddition addition => ValLazyBalanceAddition (u256_add addition amount)
  | ValStorage _ => v
  end.

(** A reward changes the one entry of its location, or adds one. *)
Lemma apply_reward_spec recipient amount ws ws' :
  NoDup (map fst ws) -> apply_reward recipient amount ws = Val ws' ->
  NoDup (map fst ws') /\
  (forall loc, loc ∈ map fst ws' <-> (loc = recipient \/ loc ∈ map fst ws)) /\
  (forall loc v, loc <> recipient -> ((loc, v) ∈ ws' <-> (loc, v) ∈ ws)) /\
  (forall v, (recipient, v) ∈ ws' <->
     (exists w, (recipient, w) ∈ ws /\ v = with_reward amount w) \/
     ((recipient ∉ map fst ws) /\ v = ValLazyBalanceAddition amount)).
Proof.
  revert ws'. induction ws as [|[l x] ws IH]; simpl; intros ws' Hnd Hrun.
  { simplify_eq. simpl. split_and!; [apply NoDup_singleton|set_solver|set_solver|].
    intros v. rewrite list_elem_of_singleton. set_solver. }
  apply NoDup_cons in Hnd as [Hnew Hnd].
  assert (forall v, (l, v) ∈ ws -> False) as Hl.
  { intros v Hv. apply Hnew, elem_of_map_fst. by exists v. }
  destruct (l =? recipient)%Z eqn:E.
  - apply Z.eqb_eq in E as ->.
    assert (ws' = (recipient, with_reward amount x) :: ws) as -> by (destruct x; by simplify_eq).
    simpl. split_and!; [by constructor|set_solver|set_solver|].
    intros v. setoid_rewrite elem_of_cons. split.
    + intros [[= ->]|?%Hl]; [|done]. left. eexists. by split; [left|].
    + intros [(w & [[= ->]|?%Hl] & ->)|[Hn _]]; [by left|done|]. by destruct Hn; left.
  - apply Z.eqb_neq in E.
    destruct (apply_reward recipient amount ws) as [ws1|] eqn:Hr; simplify_eq/=.
    destruct (IH ws1 Hnd eq_refl) as (Hnd' & Hdom & Hother & Hown). split_and!.
    + constructor; [|done]. rewrite Hdom. by intros [?|?].
    + intros loc. rewrite !elem_of_cons, Hdom. tauto.
    + intros loc v Hloc. by rewrite !elem_of_cons, Hother.
    + intros v. rewrite elem_of_cons, not_elem_of_cons, Hown. setoid_rewrite elem_of_cons. split.
      * intros [[= -> ->]|[(w & ? & ->)|[? ->]]]; [done| |]; [left; eauto|right].
        by split_and!.
      * intros [(w & [[= -> ->]|?] & ->)|[[_ ?] ->]]; [done| |]; right; [left; eauto|by right].
Qed.

Lemma written_involved tx reads state l v :
  written storage tx reads state l v -> involved coinbase state l.
Proof.
  intros [a account v' Hin _|a account index slot Hin _ ?]; right; exists a, account;
    (split; [done|]); [by left|right; by eexists _, _].
Qed.

Lemma written_account_value tx reads state a v :
  written storage tx reads state (LocBasic a) v -> forall w, v = ValStorage w -> False.
Proof. inversion 1 as [a' account v' Hin Hv|]; subst. by destruct Hv. Qed.

(** Rewarding the entries of a set of writes. *)
Lemma rewarded_spec tx reads state amount ws ws' :
  state_wf hasher coinbase state -> NoDup (map fst ws) ->
  (forall loc v, (loc, v) ∈ ws <-> exists l, loc = hasher l /\ written storage tx reads state l v) ->
  apply_reward (hasher (LocBasic coinbase)) amount ws = Val ws' ->
  NoDup (map fst ws') /\
  forall loc v, (loc, v) ∈ ws' <->
    exists l, loc = hasher l /\ rewarded coinbase amount (written storage tx reads state) l v.
Proof.
  intros Hwf Hnd Hws Hr. set (own := written storage tx reads state) in *.
  destruct (apply_reward_spec _ _ _ _ Hnd Hr) as (Hnd' & _ & Hother & Hown).
  split; [done|]. intros loc v.
  assert (forall w, (hasher (LocBasic coinbase), w) ∈ ws <-> own (LocBasic coinbase) w) as Hcb.
  { intros w. rewrite Hws. split; [|by eexists]. intros (l & Heq & Hw).
    apply (sw_hashes _ _ _ Hwf) in Heq as ->; [done|by left|by eapply written_involved]. }
  destruct (decide (loc = hasher (LocBasic coinbase))) as [->|Hne].
  - rewrite Hown. split.
    + intros [(w & Hw%Hcb & ->)|[Hnone ->]]; (eexists; split; [done|]).
      * destruct w; [by constructor|by constructor|by destruct (written_account_value _ _ _ _ _ Hw value eq_refl)].
      * apply rewarded_only. intros w Hw%Hcb. apply Hnone, elem_of_map_fst. by exists w.
    + intros (l & Heq & Hl). destruct Hl as [l v Hne Hw|info Hw|addition Hw|Hnone].
      * apply (sw_hashes _ _ _ Hwf) in Heq as <-; [done|by left|by eapply written_involved].
      * left. eexists. by rewrite Hcb.
      * left. eexists. by rewrite Hcb.
      * right. split; [|done]. intros [w Hw%Hcb]%elem_of_map_fst. by apply (Hnone w).
  - rewrite Hother, Hws by done. f_equiv. intros l. split.
    + intros [-> Hw]. split; [done|]. constructor; [congruence|done].
    + intros [-> Hw]. split; [done|]. by destruct Hw.
Qed.

Lemma rewards_tip tx gas :
  (forall fee, te_gas_priority_fee tx = Some fee -> in_width 256 (fee + be_basefee block)) ->
  rewards vm tx gas =
  [(hasher (LocBasic coinbase), ((tip spec_id (be_basefee block) tx * gas) mod 2 ^ 256)%Z)].
Proof.
  intros Hfee. unfold rewards, effective_gas_price, tip, u256_mul, u256_saturating_sub, wrap. simpl.
  do 4 f_equal. destruct (te_gas_priority_fee tx) as [fee|].
  - specialize (Hfee fee eq_refl). unfold u256_add. rewrite wrap_small by done.
    destruct (is_enabled_in _ _); lia.
  - destruct (is_enabled_in _ _); lia.
Qed.
End writes.

(** ** Properties *)

Section correct.
Context `{RevmLaws} {S : Type} `{Storage S}.

(** C27. The write set of a successful execution, location by location: the
    locations are written at most once; an account is written if and only if the
    transaction destroyed it (as the default account), or touched it and it
    differs from what was read (as it results, or, for the recipient of a plain
    transfer that has no code, as a lazy addition of the value); a slot is written
    if and only if it changed, in an account that was not destroyed; and the
    beneficiary's account has the gas used times the tip added to it, as a
    lazy addition when the transaction does not write it otherwise.  It is stated
    for a state of revm that is a map, for hashes that do not collide on the
    locations involved, and for a priority fee that does not overflow when the
    base fee is added. *)
Theorem execute_writes hasher (storage : S) chain spec_id block txs mvs i ex db db' ras
    res reads ws nv :
  let vm := Vm.new hasher storage chain spec_id block txs in
  let tx := ex_tx ex in
  let read a := rs_accounts (db_read_set db') !! hasher (LocBasic a) in
  begin_execution vm i = Val (ex, db) ->
  run_db vm mvs (execution_program vm ex) 0 db = Val (Ok ras, db') ->
  execute vm mvs i = Val (VmOk res reads ws nv) ->
  state_wf hasher (be_coinbase block) (ras_state ras) ->
  (forall fee, te_gas_priority_fee tx = Some fee -> in_width 256 (fee + be_basefee block)) ->
  let reward := ((tip spec_id (be_basefee block) tx * er_gas_used (ras_result ras)) mod 2 ^ 256)%Z in
  txs !! i = Some tx /\
  NoDup (map fst ws) /\
  forall loc v, (loc, v) ∈ ws <->
    exists l, loc = hasher l /\
      rewarded (be_coinbase block) reward (written storage tx read (ras_state ras)) l v.
Proof.
  intros vm tx read Hbegin Hrun Hexec Hwf Hfee reward.
  destruct (begin_execution_tx hasher storage chain spec_id block txs i ex db Hbegin) as [Htx Hlazy].
  unfold execute in Hexec. fold vm in Hexec. rewrite Hbegin in Hexec. simpl in Hexec. rewrite Hrun in Hexec.
  simpl in Hexec.
  set (own := write_set_of _ _ _ _ _ _) in Hexec.
  unfold apply_rewards in Hexec. unfold vm in Hexec. rewrite rewards_tip in Hexec by done.
  simpl in Hexec. change (_ mod _)%Z with reward in Hexec.
  destruct (apply_reward _ reward own) as [ws'|] eqn:Hr; [|done]. simpl in Hexec.
  destruct (from_revm _ _) as [x|]; [|done]. simpl in Hexec. injection Hexec as <- <- <- <-.
  split; [done|]. eapply rewarded_spec; [done| |by apply write_set_of_spec|done].
  eapply write_set_of_nodup; [done..|]. by destruct Hwf.
Qed.
End correct.

Lemma sample_state_wf info info' :
  state_wf sample_hasher 9 [(2%Z, touched info); (3%Z, touched info')].
Proof.
  split.
  - by apply (bool_decide_unpack _).
  - intros a account Hin. assert (changed_storage_slots account = []) as ->; [|constructor].
    apply elem_of_cons in Hin as [[= -> ->]|[= -> ->]%list_elem_of_singleton]; done.
  - assert (forall l, involved 9 [(2%Z, touched info); (3%Z, touched info')] l ->
      l = LocBasic 9 \/ l = LocBasic 2 \/ l = LocBasic 3) as Hl.
    { intros l [->|(a & account & Hin & Hl)]; [by left|right].
      apply elem_of_cons in Hin as [[= -> ->]|[= -> ->]%list_elem_of_singleton];
        destruct Hl as [->|(? & ? & []%not_elem_of_nil & _)]; auto. }
    intros l l' [->|[->| ->]]%Hl [->|[->| ->]]%Hl; done.
Qed.

(** Transaction 1 pays 3, a plain account, in the sample block: the beneficiary,
    which is not touched, gets a lazy addition of 2 for each unit of gas. *)
Lemma execute_writes_witness :
  let vm := Vm.new sample_hasher sample_storage 1%Z LONDON sample_block sample_txs in
  let mvs := fun _ : nat => MvMemory.new 2 [(18%Z, [0; 1])] in
  exists ex db db' ras res reads ws nv,
    begin_execution vm 1 = Val (ex, db) /\
    run_db vm mvs (execution_program vm ex) 0 db = Val (Ok ras, db') /\
    execute vm mvs 1 = Val (VmOk res reads ws nv) /\
    NoDup (map fst ws) /\ (18%Z, ValLazyBalanceAddition 42000) ∈ ws.
Proof.
  intros vm mvs.
  destruct (begin_execution vm 1) as [[ex db]|] eqn:Hb; [|vm_compute in Hb; discriminate].
  destruct (run_db vm mvs (execution_program vm ex) 0 db) as [[[ras|] db']|] eqn:Hr;
    [|pose proof Hb as Hb'; vm_compute in Hb'; injection Hb' as <- <-; vm_compute in Hr; discriminate..].
  destruct (execute vm mvs 1) as [[| | |res reads ws nv]|] eqn:He; try (vm_compute in He; discriminate).
  assert (exists info info', ras = receipt_21000 [(2%Z, touched info); (3%Z, touched info')])
    as (info & info' & ->).
  { pose proof Hb as Hb'. vm_compute in Hb'. injection Hb' as <- <-. vm_compute in Hr.
    injection Hr as <- _. by eexists _, _. }
  exists ex, db, db', (receipt_21000 [(2%Z, touched info); (3%Z, touched info')]), res, reads, ws, nv.
  destruct (execute_writes sample_hasher sample_storage 1%Z LONDON sample_block sample_txs mvs 1
    ex db db' _ res reads ws nv Hb Hr He (sample_state_wf _ _)) as (Htx & Hnd & Hws).
  { pose proof Hb as Hb'. vm_compute in Hb'. by injection Hb' as <- <-. }
  split_and!; [done..|]. apply Hws. exists (LocBasic 9). split; [done|].
  injection Htx as <-. apply rewarded_only. intros v Hv. inversion Hv as [? ? ? Hin|]; subst.
  apply elem_of_cons in Hin as [[=]|[=]%list_elem_of_singleton].
Defined.
