(* ===== verification/VmReplay.v ===== *)
(** * VmReplay: a valid read set replays

    The property that optimistic execution rests on: when the read set that an
    execution recorded validates against another memory, and versions identify
    values (as [WorkersCorrect] shows they do), then executing the transaction
    again on that memory gives the same result, read set and write set. *)

From stdpp Require Import base list gmap.
From Stdlib Require Import ZArith Lia.
From S2P Require Import Prelude Types MvMemory Revm Storage Sample Vm Workers VmCorrect.

Section replay.
Context `{RevmLaws} {S : Type} `{Storage S}.
Implicit Types (db : VmDb) (mv : MvMemory).

(** The values of the memory are those of their versions. *)
Definition valued (value : MemoryLocationHash -> TxVersion -> MemoryValue) mv : Prop :=
  forall loc k inc v, entry_at (mv_data mv) loc k = Some (Data inc v) ->
    v = value loc {| tx_idx := k; tx_incarnation := inc |}.

(** Account locations and storage locations do not collide. *)
Record hashes_wf (vm : Vm S) : Prop := {
  hw_beneficiary :
    vm_beneficiary_location_hash vm = vm_hasher vm (LocBasic (be_coinbase (vm_block_env vm)));
  hw_disjoint : forall a b i, vm_hasher vm (LocBasic a) <> vm_hasher vm (LocStorage b i);
}.

(** ** Reads as functions of the history of a location *)

Lemma basic_from_memory_history (vm : Vm S) mv i loc prev :
  basic_from_memory vm mv i loc prev =
  if 0 <? i then
    evaluate_lazy (BlockingIndex (i - 1)) (loc =? vm_beneficiary_location_hash vm)%Z prev
      (history (mv_data mv) loc i) i 0%Z []
  else Ok (None, 0%Z, []).
Proof.
  unfold basic_from_memory, history, read_location. destruct (0 <? i) eqn:Hi; [|done].
  destruct (mv_data mv !! loc); simpl; [done|]. rewrite range_rev_empty. simpl. rewrite Hi.
  by destruct (_ =? _)%Z.
Qed.

(** Entries with the values of their versions. *)
Definition entries_valued (value : TxVersion -> MemoryValue)
  (iter : list (TxIdx * MemoryEntry)) : Prop :=
  forall k inc v, (k, Data inc v) ∈ iter -> v = value {| tx_idx := k; tx_incarnation := inc |}.

(** The entries start with the given versions. *)
Definition follows (iter : list (TxIdx * MemoryEntry)) (vs : list TxVersion)
  (rest : list (TxIdx * MemoryEntry)) : Prop :=
  exists taken, iter = taken ++ rest /\
    map entry_origin taken = map (fun v => Some (OriginMvMemory v)) vs.

Lemma follows_cons iter k inc vs rest :
  follows iter ({| tx_idx := k; tx_incarnation := inc |} :: vs) rest ->
  exists v iter', iter = (k, Data inc v) :: iter' /\ follows iter' vs rest.
Proof.
  intros ([|[k' [inc' v|]] taken] & -> & Ht); simplify_eq/=. eexists _, _. split; [done|].
  by exists taken.
Qed.

Lemma follows_nil iter rest : follows iter [] rest -> iter = rest.
Proof. by intros ([|? ?] & -> & ?). Qed.

Lemma versions_inj (org : list ReadOrigin) (vs vs' : list TxVersion) :
  org ++ map OriginMvMemory vs = org ++ map OriginMvMemory vs' -> vs = vs'.
Proof.
  intros E%app_inv_head. revert vs' E. induction vs as [|v vs IH]; intros [|v' vs']; try done.
  simpl. intros [= -> E]. by rewrite (IH vs').
Qed.

(** Evaluating the same versions again. *)
Lemma evaluate_lazy_replay value resch need prev iter iter' cur bal org acc bal' vs rest :
  entries_valued value iter -> entries_valued value iter' ->
  evaluate_lazy resch need prev iter cur bal org = Ok (acc, bal', org ++ map OriginMvMemory vs) ->
  follows iter' vs rest -> (acc = None -> rest = []) ->
  evaluate_lazy resch need prev iter' cur bal org = Ok (acc, bal', org ++ map OriginMvMemory vs).
Proof.
  revert iter' cur bal org vs.
  induction iter as [|[k [inc v|]] iter IH]; intros iter' cur bal org vs Hv Hv' Hrun Hf Hrest;
    simpl in Hrun; [| |done].
  - destruct (need && (0 <? cur)) eqn:Hn; [done|]. injection Hrun as <- <- Hvs.
    assert (vs = []) as ->.
    { apply (versions_inj org). simpl. by rewrite app_nil_r. }
    apply follows_nil in Hf as ->. rewrite (Hrest eq_refl). simpl.
    by rewrite Hn, app_nil_r.
  - set (ver := {| tx_idx := k; tx_incarnation := inc |}) in *.
    destruct (need && _) eqn:Hn; [done|].
    destruct (negb (length prev =? 0) && (length prev =? length org)) eqn:Hl; [done|].
    destruct (negb (length prev =? 0) && negb _) eqn:Hp; [done|].
    assert (exists vs0, vs = ver :: vs0) as [vs0 ->].
    { destruct v as [info|addition|]; [|destruct (evaluate_lazy_origins _ _ _ _ _ _ _ _ _ _ Hrun)
        as (vs0 & Hvs & _)|done].
      - injection Hrun as _ _ Hvs. exists []. by apply (versions_inj org).
      - exists vs0. apply (versions_inj org). rewrite Hvs. simpl. by rewrite <-app_assoc. }
    apply follows_cons in Hf as (v' & iter0 & -> & Hf).
    assert (v' = v) as ->.
    { rewrite (Hv k inc v) by set_solver. apply Hv'. set_solver. }
    simpl. rewrite Hn, Hl. fold ver. rewrite Hp. destruct v as [info|addition|]; [done| |done].
    assert (org ++ map OriginMvMemory (ver :: vs0) =
            (org ++ [OriginMvMemory ver]) ++ map OriginMvMemory vs0) as E
      by by rewrite <-app_assoc.
    rewrite E in Hrun. simpl in E. rewrite E.
    apply (IH iter0 k (u256_add bal addition) (org ++ [OriginMvMemory ver]) vs0);
      [..|done|done|done]; intros k' inc' v' Hin.
    + apply Hv. set_solver.
    + apply Hv'. set_solver.
Qed.
Lemma history_valued value mv loc i :
  valued value mv -> entries_valued (value loc) (history (mv_data mv) loc i).
Proof. intros Hv k inc v [_ Hent]%entry_at_history. by apply Hv. Qed.

Lemma validate_follows mv i loc vs tail :
  origins_wf (map OriginMvMemory vs ++ tail) ->
  validate_location mv i loc (map OriginMvMemory vs ++ tail) = true ->
  exists rest, follows (history (mv_data mv) loc i) vs rest /\
               (tail = [OriginStorage] -> rest = []).
Proof.
  intros Hwf. rewrite validate_location_history by done.
  intros (taken & rest & Hh & Ht & Hr)%validate_origins_app_mv.
  exists rest. split; [by exists taken|]. intros ->. by apply validate_origins_storage in Hr.
Qed.

(** ** Single reads *)

Lemma basic_read_replay (vm : Vm S) value mv mv' i address loc prev acc new :
  valued value mv -> valued value mv' ->
  basic_read vm mv i address loc prev = Ok (acc, new) ->
  origins_wf (origins_after prev new) ->
  validate_location mv' i loc (origins_after prev new) = true ->
  basic_read vm mv' i address loc prev = Ok (acc, new).
Proof.
  intros Hv Hv' Hrun Hwf Hval.
  destruct (basic_read_spec _ _ _ _ _ _ _ _ Hrun) as (vs & bal & Hspec).
  cut (basic_from_memory vm mv' i loc prev = basic_from_memory vm mv i loc prev).
  { intros E. unfold basic_read in *. by rewrite E. }
  assert (exists facc rest,
    basic_from_memory vm mv i loc prev = Ok (facc, bal, map OriginMvMemory vs) /\
    follows (history (mv_data mv') loc i) vs rest /\ (facc = None -> rest = []))
    as (facc & rest & Hm & Hf & Hrest).
  { destruct Hspec as [([a Hm] & _ & [tail Htail])|[Hm Ho]].
    - rewrite Htail in Hwf, Hval. destruct (validate_follows _ _ _ _ _ Hwf Hval) as (rest & Hf & _).
      by exists (Some a), rest.
    - rewrite Ho in Hwf, Hval. destruct (validate_follows _ _ _ _ _ Hwf Hval) as (rest & Hf & Hr).
      exists None, rest. split_and!; auto. }
  rewrite Hm. rewrite basic_from_memory_history in Hm |- *. destruct (0 <? i); [|done].
  apply (evaluate_lazy_replay (value loc) _ _ _ (history (mv_data mv) loc i) _ _ _ []
    facc bal vs rest); try done; by apply history_valued.
Qed.

Lemma storage_read_history (vm : Vm S) mv i address index loc prev :
  storage_read vm mv i address index loc prev =
  storage_read vm {| mv_data := {[loc := default ∅ (mv_data mv !! loc)]};
                     mv_last_locations := mv_last_locations mv |} i address index loc prev.
Proof.
  unfold storage_read, read_location. simpl. rewrite lookup_singleton_eq.
  destruct (0 <? i); [|done]. destruct (mv_data mv !! loc); simpl; [done|].
  by rewrite range_rev_empty.
Qed.

Lemma storage_read_replay (vm : Vm S) value mv mv' i address index loc prev x origins :
  valued value mv -> valued value mv' ->
  storage_read vm mv i address index loc prev = (Ok x, origins) ->
  length prev <= 1 -> origins_wf origins ->
  validate_location mv' i loc origins = true ->
  storage_read vm mv' i address index loc prev = (Ok x, origins).
Proof.
  intros Hv Hv' Hrun Hlen Hwf Hval. pose proof (history_valued value mv loc i Hv) as Hh.
  pose proof (history_valued value mv' loc i Hv') as Hh'.
  rewrite storage_read_history in Hrun |- *. unfold storage_read, read_location in *.
  simpl in *. rewrite lookup_singleton_eq in *. destruct (0 <? i); [|done].
  fold (history (mv_data mv) loc i) in Hrun. fold (history (mv_data mv') loc i).
  assert (origins = prev \/ prev = []) as Hprev.
  { destruct prev; [by right|left]. destruct (last (r :: prev)) eqn:Hl;
      [|by apply last_None in Hl]. by repeat case_match; simplify_eq. }
  destruct (history (mv_data mv) loc i) as [|[k [inc v|]] l] eqn:Hhist.
  - assert (origins = [OriginStorage]) as ->.
    { destruct prev as [|o []]; simpl in *; [by simplify_eq| |lia].
      case_bool_decide; simplify_eq/=; by destruct (Storage.storage _ _ _). }
    destruct (validate_follows mv' i loc [] [OriginStorage]) as (rest & Hf & Hrest); try done.
    apply follows_nil in Hf as ->. by rewrite (Hrest eq_refl).
  - destruct v as [| |value0]; [done..|].
    assert (origins = [OriginMvMemory {| tx_idx := k; tx_incarnation := inc |}] /\ x = value0)
      as [-> ->].
    { destruct prev as [|o []]; simpl in *; [by simplify_eq| |lia].
      case_bool_decide; by simplify_eq/=. }
    destruct (validate_follows mv' i loc [{| tx_idx := k; tx_incarnation := inc |}] [])
      as (rest & Hf & _); [done|done|].
    apply follows_cons in Hf as (v' & l' & E & _). rewrite E in *.
    assert (v' = ValStorage value0) as ->.
    { rewrite (Hh k inc (ValStorage value0)) by set_solver. apply Hh'. set_solver. }
    done.
  - done.
Qed.
(** ** The database of an execution *)

Record db_inv (vm : Vm S) (i : TxIdx) db : Prop := {
  di_tx_idx : db_tx_idx db = i;
  di_from : db_from_hash db = vm_hasher vm (LocBasic (db_from db));
  di_to : db_to_hash db = (fun a => vm_hasher vm (LocBasic a)) <$> db_to db;
  di_storage : forall a ix, length (origins_of db (vm_hasher vm (LocStorage a ix))) <= 1;
  di_reads : reads_wf db;
}.

Lemma get_address_hash_eq (vm : Vm S) address :
  hashes_wf vm -> get_address_hash vm address = vm_hasher vm (LocBasic address).
Proof.
  intros [Hb _]. unfold get_address_hash. destruct (_ =? _)%Z eqn:E; [|done].
  apply Z.eqb_eq in E as ->. done.
Qed.

Lemma VmDb_get_address_hash_eq (vm : Vm S) i db address loc :
  hashes_wf vm -> db_inv vm i db -> VmDb_get_address_hash vm db address = Val loc ->
  loc = vm_hasher vm (LocBasic address).
Proof.
  intros Hvm Hdb. unfold VmDb_get_address_hash. destruct (_ =? _)%Z eqn:E.
  - apply Z.eqb_eq in E as ->. intros [= <-]. apply Hdb.
  - case_bool_decide as Hto.
    + rewrite (di_to _ _ _ Hdb), <-Hto. simpl. by intros [= <-].
    + intros [= <-]. by apply get_address_hash_eq.
Qed.

(** The database after an answer that recorded [origins] at [loc]. *)
Lemma db_inv_update (vm : Vm S) i db db' loc origins :
  db_inv vm i db ->
  db_tx_idx db' = db_tx_idx db -> db_from db' = db_from db ->
  db_from_hash db' = db_from_hash db -> db_to db' = db_to db -> db_to_hash db' = db_to_hash db ->
  rs_locations (db_read_set db') = <[loc := origins]> (rs_locations (db_read_set db)) ->
  reads_wf db' ->
  (forall a ix, loc = vm_hasher vm (LocStorage a ix) -> length origins <= 1) ->
  db_inv vm i db'.
Proof.
  intros [] E1 E2 E3 E4 E5 Er Hwf Hlen. split; rewrite ?E2, ?E3, ?E4, ?E5; try congruence; [|done].
  intros a ix. unfold origins_of. rewrite Er.
  destruct (decide (loc = vm_hasher vm (LocStorage a ix))) as [->|].
  - rewrite lookup_insert_eq. simpl. by eapply Hlen.
  - rewrite lookup_insert_ne by done. apply di_storage0.
Qed.

(** What the new memory must confirm: the origins recorded so far. *)
Definition confirms mv' (i : TxIdx) db : Prop :=
  forall loc origins, length origins <> 0 ->
    rs_locations (db_read_set db) !! loc = Some origins ->
    validate_location mv' i loc origins = true.

Lemma basic_replay (vm : Vm S) value mv mv' i db address preload x db' :
  hashes_wf vm -> valued value mv -> valued value mv' -> db_inv vm i db ->
  basic vm mv db address preload = Val (Ok x, db') -> confirms mv' i db' ->
  basic vm mv' db address preload = Val (Ok x, db') /\ db_inv vm i db'.
Proof.
  intros Hvm Hv Hv' Hdb Hrun Hconf.
  pose proof (co_reads _ _ _ (basic_call_ok _ _ _ _ _ _ _ Hrun) x eq_refl (di_reads _ _ _ Hdb))
    as Hwf.
  destruct (basic_shape vm db address preload)
    as [[y Hy]|[[f Hf]|(loc & db0 & Hloc & Hdb0 & Hb)]].
  - rewrite Hy in *. by simplify_eq.
  - by rewrite Hf in Hrun.
  - rewrite Hb in Hrun |- *.
    destruct (basic_read vm mv _ _ _ _) as [[acc new]|e] eqn:Hread; [|done].
    injection Hrun as <- <-.
    assert (rs_locations (db_read_set (basic_record loc (origins_of db loc) acc new
        (with_origins loc (origins_of db loc) db0))) =
      <[loc := origins_after (origins_of db loc) new]> (rs_locations (db_read_set db))) as Hrs.
    { rewrite basic_record_reads. by destruct Hdb0 as [-> | ->]. }
    pose proof (basic_read_wf _ _ _ _ _ _ _ _ (di_reads _ _ _ Hdb) Hread) as Hofs.
    split.
    + rewrite (di_tx_idx _ _ _ Hdb) in *.
      rewrite (basic_read_replay vm value mv mv' i address loc (origins_of db loc) acc new);
        try done.
      apply Hconf; [by apply origins_wf_nonempty|]. by rewrite Hrs, lookup_insert_eq.
    + eapply (db_inv_update vm i db _ loc); try done.
      all: try (unfold basic_record; destruct Hdb0 as [-> | ->]; by repeat case_match).
      intros a ix ->. apply (VmDb_get_address_hash_eq vm i db) in Hloc; [|done|done].
      by destruct (hw_disjoint _ Hvm address a ix).
Qed.

Lemma storage_replay (vm : Vm S) value mv mv' i db address index x db' :
  valued value mv -> valued value mv' -> db_inv vm i db ->
  storage vm mv db address index = (Ok x, db') -> confirms mv' i db' ->
  storage vm mv' db address index = (Ok x, db') /\ db_inv vm i db'.
Proof.
  intros Hv Hv' Hdb Hrun Hconf.
  pose proof (co_reads _ _ _ (storage_call_ok _ _ _ _ _ _ _ Hrun) x eq_refl (di_reads _ _ _ Hdb))
    as Hwf.
  unfold storage in *. simpl in *. set (loc := vm_hasher vm (LocStorage address index)) in *.
  fold (origins_of db loc) in *.
  destruct (storage_read vm mv _ _ _ _ _) as [r origins] eqn:Hread. injection Hrun as -> <-.
  assert (origins_wf origins) as Hofs by (apply (Hwf loc); simpl; by rewrite lookup_insert_eq).
  pose proof (di_storage _ _ _ Hdb address index) as Hlen. fold loc in Hlen.
  rewrite (di_tx_idx _ _ _ Hdb) in *. split.
  - rewrite (storage_read_replay vm value mv mv' i address index loc (origins_of db loc) x origins);
      try done.
    apply (Hconf loc); [by apply origins_wf_nonempty|]. simpl. by rewrite lookup_insert_eq.
  - eapply (db_inv_update vm i db _ loc); try done. intros a ix _.
    destruct (storage_read_spec _ _ _ _ _ _ _ _ _ Hread) as (_ & [->|[Hl [o ->]]] & _); [done|].
    apply length_zero_iff_nil in Hl as ->. simpl. lia.
Qed.
(** ** Whole executions *)

Abbreviation program := (DbProg ReadError (result ResultAndState ExecutionError)).

(** An answer is a success when the program does not fail after it. *)
Lemma answers_success (p p' : program) A (r : result A ReadError) :
  answers p A r p' -> db_errors_fatal (fun _ => True) p -> ~ always_fails p' ->
  (exists x, r = Ok x) /\ db_errors_fatal (fun _ => True) p'.
Proof.
  intros Hans Hfatal Hnf. pose proof (answers_fatal _ _ _ _ _ Hans Hfatal) as Hnext.
  destruct r as [x|e]; [by eauto|]. by destruct (Hnext I).
Qed.

Lemma db_call_replay (vm : Vm S) value mv mv' i (p p1 : program) db db1 :
  hashes_wf vm -> valued value mv -> valued value mv' -> db_inv vm i db ->
  (forall r, p <> Return r) -> db_errors_fatal (fun _ => True) p ->
  db_call vm mv p db = Val (p1, db1) -> ~ always_fails p1 -> confirms mv' i db1 ->
  db_call vm mv' p db = Val (p1, db1) /\ db_inv vm i db1 /\
  db_errors_fatal (fun _ => True) p1.
Proof.
  intros Hvm Hv Hv' Hdb Hp Hfatal Hrun Hnf Hconf. destruct p; simpl in Hrun.
  - by destruct (Hp r).
  - destruct (basic vm mv db address is_preload) as [[r db']|] eqn:Hb; simplify_eq/=.
    destruct (answers_success _ _ _ _ (ans_basic address is_preload k r) Hfatal Hnf)
      as [[x ->] Hnext].
    destruct (basic_replay vm value mv mv' i db address is_preload x db1) as [Hb' ?]; try done.
    rewrite Hb'. done.
  - simplify_eq. split_and!; [done|done|].
    apply (answers_success _ _ _ _ (ans_code_by_hash code_hash k _) Hfatal Hnf).
  - simplify_eq. split_and!; [done|done|].
    apply (answers_success _ _ _ _ (ans_has_storage address k _) Hfatal Hnf).
  - destruct (storage vm mv db address index) as [r db'] eqn:Hb; simplify_eq/=.
    destruct (answers_success _ _ _ _ (ans_storage address index k r) Hfatal Hnf)
      as [[x ->] Hnext].
    destruct (storage_replay vm value mv mv' i db address index x db1) as [Hb' ?]; try done.
    rewrite Hb'. done.
  - simplify_eq. split_and!; [done|done|].
    apply (answers_success _ _ _ _ (ans_block_hash number k _) Hfatal Hnf).
Qed.

Lemma run_db_keeps {R} (vm : Vm S) mvs (p : DbProg ReadError R) calls db r db' loc origins :
  run_db vm mvs p calls db = Val (r, db') -> length origins <> 0 ->
  rs_locations (db_read_set db) !! loc = Some origins ->
  rs_locations (db_read_set db') !! loc = Some origins.
Proof.
  revert calls db. induction p as [r0|p Hp IH] using DbProg_call_ind;
    intros calls db Hrun Hl Hdb.
  - simpl in Hrun. by simplify_eq.
  - rewrite run_db_call in Hrun by done.
    destruct (db_call vm (mvs calls) p db) as [[p1 db1]|] eqn:Hcall; simplify_eq/=.
    destruct (db_call_ok _ _ _ _ _ _ Hcall Hp) as (A & x & Hans & Hok).
    eapply IH; [done|done|done|]. by apply (co_keeps _ _ _ Hok).
Qed.

Lemma run_db_fails (vm : Vm S) mvs (p : program) calls db r db' :
  always_fails p -> run_db vm mvs p calls db = Val (r, db') -> exists e, r = Err e.
Proof.
  revert calls db. induction p as [r0|p Hp IH] using DbProg_call_ind; intros calls db Hf Hrun.
  - simpl in Hrun. by simplify_eq.
  - rewrite run_db_call in Hrun by done.
    destruct (db_call vm (mvs calls) p db) as [[p1 db1]|] eqn:Hcall; simplify_eq/=.
    destruct (db_call_ok _ _ _ _ _ _ Hcall Hp) as (A & x & Hans & _).
    eapply IH; [done|by eapply answers_fails|done].
Qed.

Lemma run_db_replay (vm : Vm S) value mvs mv' i (p : program) calls db ras db' :
  hashes_wf vm -> (forall k, valued value (mvs k)) -> valued value mv' -> db_inv vm i db ->
  db_errors_fatal (fun _ => True) p ->
  run_db vm mvs p calls db = Val (Ok ras, db') -> confirms mv' i db' ->
  run_db vm (fun _ => mv') p calls db = Val (Ok ras, db').
Proof.
  intros Hvm Hvs Hv'. revert calls db.
  induction p as [r0|p Hp IH] using DbProg_call_ind; intros calls db Hdb Hfatal Hrun Hconf.
  - done.
  - rewrite run_db_call in Hrun |- * by done.
    destruct (db_call vm (mvs calls) p db) as [[p1 db1]|] eqn:Hcall; simplify_eq/=.
    destruct (db_call_ok _ _ _ _ _ _ Hcall Hp) as (A & x & Hans & _).
    destruct (db_call_replay vm value (mvs calls) mv' i p p1 db db1) as (-> & Hdb1 & Hf1);
      try done.
    + intros Hf. by destruct (run_db_fails _ _ _ _ _ _ _ Hf Hrun).
    + intros loc origins Hl Ho. apply Hconf; [done|]. by eapply run_db_keeps.
    + simpl. by eapply IH.
Qed.

Lemma execute_replay (vm : Vm S) value mvs mv' i res reads ws nv :
  hashes_wf vm -> (forall k, valued value (mvs k)) -> valued value mv' ->
  execute vm mvs i = Val (VmOk res reads ws nv) ->
  (forall loc origins, reads !! loc = Some origins ->
     validate_location mv' i loc origins = true) ->
  execute vm (fun _ => mv') i = Val (VmOk res reads ws nv).
Proof.
  intros Hvm Hvs Hv' Hrun Hval. unfold execute in *.
  destruct (begin_execution vm i) as [[ex db]|] eqn:Hb; [|done]. simpl in *.
  destruct (run_db vm mvs _ 0 db) as [[r db']|] eqn:Hr; [|done]. simpl in Hrun.
  destruct r as [ras|e].
  2: { simpl in Hrun. unfold execution_failure in Hrun. by repeat case_match. }
  assert (rs_locations (db_read_set db') = reads) as Hreads.
  { simpl in Hrun. destruct (apply_rewards _ _ _ _); simplify_eq/=.
    destruct (from_revm _ _); by simplify_eq/=. }
  rewrite (run_db_replay vm value mvs mv' i (execution_program vm ex) 0 db ras db'); try done.
  - unfold begin_execution in Hb. destruct (vec_get _ _) as [tx|]; [|done]. simpl in Hb.
    destruct (te_transact_to tx) as [to|]; simpl in Hb;
      [destruct (maybe_lazy vm (te_caller tx) (Some to))|]; simplify_eq/=;
      (split; simpl; try done; [by apply get_address_hash_eq|..]).
    + by rewrite (get_address_hash_eq vm to).
    + intros ? ?. unfold origins_of. simpl. rewrite lookup_empty. simpl. lia.
    + intros ? ?. unfold origins_of. simpl. rewrite lookup_empty. simpl. lia.
  - apply transact_db_errors.
  - intros loc origins _ Hl. apply Hval. by rewrite <-Hreads.
Qed.

(** C7. A valid read set replays: if an execution of transaction [i] (with the
    memory changing under it) succeeded, and every origin list it recorded
    validates against a memory [mv'], then executing the transaction on [mv']
    succeeds with the same result, the same read set, the same write set and
    the same next index to validate.  Versions must identify values, and
    account and storage locations must not collide. *)
Theorem validated_execution_replays (vm : Vm S) value mvs mv' i res reads ws nv :
  hashes_wf vm -> (forall k, valued value (mvs k)) -> valued value mv' ->
  execute vm mvs i = Val (VmOk res reads ws nv) ->
  (forall loc origins, reads !! loc = Some origins ->
     validate_location mv' i loc origins = true) ->
  execute vm (fun _ => mv') i = Val (VmOk res reads ws nv).
Proof. apply execute_replay. Qed.
End replay.

(** The second transfer of the sample block, executed after the first one was
    recorded, replays on a memory where the first one's other locations have
    changed since. *)
Definition sample_vm : Vm InMemoryStorage :=
  Vm.new sample_hasher sample_storage 1%Z LONDON sample_block sample_txs.

Definition sample_memory_at (inc : TxIncarnation) : MvMemory :=
  {| mv_data := {[4%Z := {[0 := Data 0 (ValLazyBalanceAddition 5)]};
                  2%Z := {[0 := Data inc (ValLazyBalanceAddition (Z.of_nat inc))]}]};
     mv_last_locations := [] |}.

Definition sample_value (loc : MemoryLocationHash) (v : TxVersion) : MemoryValue :=
  if (loc =? 4)%Z then ValLazyBalanceAddition 5
  else ValLazyBalanceAddition (Z.of_nat (tx_incarnation v)).

Lemma sample_valued inc : valued sample_value (sample_memory_at inc).
Proof.
  intros loc k inc' v Hent. unfold entry_at in Hent. simpl in Hent.
  destruct (decide (loc = 4%Z)) as [->|Hl4].
  - rewrite lookup_insert_eq in Hent. simpl in Hent.
    by apply lookup_singleton_Some in Hent as [<- [= <- <-]].
  - rewrite lookup_insert_ne in Hent by done.
    destruct (decide (loc = 2%Z)) as [->|].
    + rewrite lookup_singleton_eq in Hent. simpl in Hent.
      by apply lookup_singleton_Some in Hent as [<- [= <- <-]].
    + by rewrite lookup_singleton_ne in Hent.
Qed.

Lemma sample_hashes_wf : hashes_wf sample_vm.
Proof. split; [done|]. intros a b i. apply sample_hasher_disjoint. Qed.

Lemma validated_execution_replays_witness :
  exists res reads ws nv,
    execute sample_vm (fun k => sample_memory_at k) 1 = Val (VmOk res reads ws nv) /\
    reads !! 4%Z = Some [OriginMvMemory {| tx_idx := 0; tx_incarnation := 0 |}; OriginStorage] /\
    execute sample_vm (fun _ => sample_memory_at 7) 1 = Val (VmOk res reads ws nv).
Proof.
  destruct (execute sample_vm (fun k => sample_memory_at k) 1)
    as [[| | |res reads ws nv]|f] eqn:Hrun; try (vm_compute in Hrun; discriminate).
  exists res, reads, ws, nv. split_and!; [reflexivity| |].
  - vm_compute in Hrun. injection Hrun as _ <- _ _. reflexivity.
  - apply (validated_execution_replays sample_vm sample_value (fun k => sample_memory_at k)).
    + exact sample_hashes_wf.
    + intros k. apply sample_valued.
    + apply sample_valued.
    + exact Hrun.
    + assert (reads = {[4%Z := [OriginMvMemory {| tx_idx := 0; tx_incarnation := 0 |};
                                  OriginStorage]]}) as ->.
      { vm_compute in Hrun. injection Hrun as _ <- _ _. vm_compute. reflexivity. }
      intros loc origins Hl. apply lookup_singleton_Some in Hl as [<- <-].
      vm_compute. reflexivity.
Defined.
