(* ===== verification/VmValid.v ===== *)
(** * VmValid: a read set validates against the memory it was read from

    The converse of [VmReplay]: when nothing changes during an execution, the
    origins it records are exactly what a validation finds, so a transaction
    that was executed on the final values of the lower ones is never aborted. *)

From stdpp Require Import base list gmap.
From Stdlib Require Import ZArith Lia.
From S2P Require Import Prelude Types MvMemory Revm Storage Sample Vm Workers VmCorrect VmReplay.

Section valid.
Context `{RevmLaws} {S : Type} `{Storage S}.
Implicit Types (db : VmDb) (mv : MvMemory).

(** The versions that a lazy evaluation records are the entries it went through,
    and it goes through all of them when it finds no account. *)
Lemma evaluate_lazy_follows resch need prev iter cur bal org acc bal' org' :
  evaluate_lazy resch need prev iter cur bal org = Ok (acc, bal', org') ->
  exists vs rest, org' = org ++ map OriginMvMemory vs /\ follows iter vs rest /\
    (acc = None -> rest = []).
Proof.
  revert cur bal org. induction iter as [|[k [inc v|]] iter IH]; intros cur bal org Hrun;
    simpl in Hrun; [| |done].
  - destruct (need && _); [done|]. simplify_eq. exists [], []. rewrite app_nil_r.
    split_and!; [done|by exists []|done].
  - set (ver := {| tx_idx := k; tx_incarnation := inc |}) in *.
    destruct (need && _); [done|]. destruct (negb _ && _); [done|].
    destruct (negb _ && _); [done|]. destruct v as [info|addition|]; [| |done].
    + simplify_eq. exists [ver], iter. split_and!; [done| |done].
      by exists [(k, Data inc (ValBasic info))].
    + destruct (IH _ _ _ Hrun) as (vs & rest & -> & (taken & -> & Ht) & Hrest).
      exists (ver :: vs), rest. split_and!; [by rewrite <-app_assoc| |done].
      exists ((k, Data inc (ValLazyBalanceAddition addition)) :: taken). simpl. by rewrite Ht.
Qed.

Lemma follows_validate iter vs rest tail :
  follows iter vs rest -> tail = [] \/ tail = [OriginStorage] /\ rest = [] ->
  validate_origins iter (map OriginMvMemory vs ++ tail) = true.
Proof.
  intros (taken & -> & Ht) Htail. apply validate_origins_app_mv. exists taken, rest.
  split_and!; [done|done|]. by destruct Htail as [->|[-> ->]].
Qed.

Lemma basic_read_validates (vm : Vm S) mv i address loc acc new :
  basic_read vm mv i address loc [] = Ok (acc, new) ->
  validate_origins (history (mv_data mv) loc i) new = true.
Proof.
  unfold basic_read. rewrite basic_from_memory_history.
  assert (forall facc bal org,
    (if 0 <? i then evaluate_lazy (BlockingIndex (i - 1))
        (loc =? vm_beneficiary_location_hash vm)%Z [] (history (mv_data mv) loc i) i 0%Z []
     else Ok (None, 0%Z, [])) = Ok (facc, bal, org) ->
    exists vs rest, org = map OriginMvMemory vs /\
      follows (history (mv_data mv) loc i) vs rest /\ (facc = None -> rest = [])) as Hmem.
  { intros facc bal org Hrun. destruct (Nat.ltb_spec 0 i).
    - by apply evaluate_lazy_follows in Hrun.
    - assert (i = 0) as -> by lia. simplify_eq. exists [], []. split_and!; [done|by exists []|done]. }
  destruct (if 0 <? i then _ else _) as [[[facc bal] org]|] eqn:Hm; [|done].
  destruct (Hmem facc bal org eq_refl) as (vs & rest & -> & Hf & Hrest).
  destruct facc as [a|]; intros Hrun.
  - simplify_eq. rewrite <-(app_nil_r (map _ vs)). eapply follows_validate; eauto.
  - apply basic_from_storage_origins in Hrun as ->. eapply follows_validate; eauto.
Qed.

Lemma storage_read_validates (vm : Vm S) mv i address index loc r origins :
  storage_read vm mv i address index loc [] = (r, origins) ->
  validate_origins (history (mv_data mv) loc i) origins = true.
Proof.
  rewrite storage_read_history. unfold storage_read, read_location. simpl.
  rewrite lookup_singleton_eq. fold (history (mv_data mv) loc i).
  destruct (Nat.ltb_spec 0 i).
  - destruct (history (mv_data mv) loc i) as [|[k [inc [| |value]|]] iter]; intros [= <- <-];
      try done; simpl. by rewrite !Nat.eqb_refl.
  - assert (i = 0) as -> by lia. intros [= <- <-]. done.
Qed.

(** ** Calls and executions *)

(** The origins of one more location. *)
Lemma confirms_insert mv i db db' loc origins :
  confirms mv i db ->
  rs_locations (db_read_set db') = <[loc := origins]> (rs_locations (db_read_set db)) ->
  (length origins <> 0 -> validate_location mv i loc origins = true) -> confirms mv i db'.
Proof.
  intros Hc Hr Hv loc' origins' Hl. rewrite Hr.
  intros [[<- <-]|[_ ?]]%lookup_insert_Some; [by apply Hv|by apply Hc].
Qed.

Lemma confirms_origins mv i db loc :
  confirms mv i db -> length (origins_of db loc) <> 0 ->
  validate_location mv i loc (origins_of db loc) = true.
Proof.
  intros Hc Hl. apply Hc; [done|]. unfold origins_of in *.
  by destruct (rs_locations _ !! loc).
Qed.

Lemma basic_confirms (vm : Vm S) mv i db address preload r db' :
  Vm.basic vm mv db address preload = Val (r, db') -> db_tx_idx db = i -> reads_wf db ->
  confirms mv i db -> confirms mv i db'.
Proof.
  intros Hrun Hi Hwf Hc.
  destruct (basic_shape vm db address preload) as [[x Hx]|[[f Hf]|(loc & db0 & _ & Hdb0 & Hb)]].
  - rewrite Hx in Hrun. by simplify_eq.
  - by rewrite Hf in Hrun.
  - rewrite Hb in Hrun. clear Hb.
    assert (db_read_set db0 = db_read_set db) as Hr by by destruct Hdb0 as [-> | ->].
    destruct (basic_read _ _ _ _ _ _) as [[acc new]|e] eqn:Hread; simplify_eq.
    + eapply confirms_insert; [done|by rewrite basic_record_reads, Hr|]. intros Hl.
      pose proof (basic_read_wf _ _ _ _ _ _ _ _ Hwf Hread) as Hofs. unfold origins_after in *.
      destruct (length (origins_of db loc) =? 0) eqn:Hz; bool_to_prop.
      * apply length_zero_iff_nil in Hz. rewrite Hz in Hread.
        rewrite validate_location_history by done. by eapply basic_read_validates.
      * by apply confirms_origins.
    + eapply confirms_insert; [done|simpl; by rewrite Hr|]. by apply confirms_origins.
Qed.

Lemma storage_confirms (vm : Vm S) mv i db address index r db' :
  Vm.storage vm mv db address index = (r, db') -> db_tx_idx db = i ->
  confirms mv i db -> confirms mv i db'.
Proof.
  unfold Vm.storage. simpl. set (loc := vm_hasher vm _). fold (origins_of db loc).
  intros Hrun Hi Hc.
  destruct (storage_read _ _ _ _ _ _ _) as [r0 origins] eqn:Hread. simplify_eq.
  eapply (confirms_insert _ _ db _ loc); [done|done|]. intros Hl.
  destruct (storage_read_spec _ _ _ _ _ _ _ _ _ Hread) as (_ & [->|[Hz [o ->]]] & _);
    [by apply confirms_origins|].
  apply length_zero_iff_nil in Hz. rewrite Hz in *. simpl in *.
  rewrite validate_location_history.
  - by eapply storage_read_validates.
  - destruct o as [v|]; [by apply (origins_wf_versions [v])|apply (origins_wf_storage [])].
Qed.

Abbreviation program := (DbProg ReadError (result ResultAndState ExecutionError)).

Lemma run_db_confirms (vm : Vm S) mv i (p : program) calls db ras db' :
  db_errors_fatal (fun _ => True) p -> db_tx_idx db = i -> reads_wf db -> confirms mv i db ->
  run_db vm (fun _ => mv) p calls db = Val (Ok ras, db') -> confirms mv i db'.
Proof.
  revert calls db. induction p as [r0|p Hp IH] using DbProg_call_ind;
    intros calls db Hfatal Hi Hwf Hc Hrun.
  - simpl in Hrun. by simplify_eq.
  - rewrite run_db_call in Hrun by done.
    destruct (db_call vm mv p db) as [[p1 db1]|] eqn:Hcall; simplify_eq/=.
    destruct (db_call_ok _ _ _ _ _ _ Hcall Hp) as (A & x & Hans & Hok).
    destruct (answers_success _ _ _ _ Hans Hfatal) as [[y ->] Hf1].
    { intros Hf. by destruct (run_db_fails _ _ _ _ _ _ _ Hf Hrun). }
    eapply IH; [done|done|apply (co_tx_idx _ _ _ Hok)|by eapply (co_reads _ _ _ Hok)| |done].
    destruct p; simpl in Hcall; simplify_eq/=; try done.
    + destruct (Vm.basic _ _ _ _ _) as [[]|] eqn:Hb; simplify_eq/=. by eapply basic_confirms.
    + destruct (Vm.storage _ _ _ _ _) eqn:Hb; simplify_eq/=. by eapply storage_confirms.
Qed.

(** The locations without origins are none in the end. *)
Lemma execute_confirms (vm : Vm S) mv i res reads ws nv :
  Vm.execute vm (fun _ => mv) i = Val (VmOk res reads ws nv) ->
  forall loc origins, reads !! loc = Some origins -> validate_location mv i loc origins = true.
Proof.
  intros Hrun. assert (map_Forall (fun _ => origins_wf) reads) as Hwf.
  { unfold Vm.execute in Hrun.
    destruct (begin_execution vm i) as [[ex db]|] eqn:Hb; [|done]. simpl in Hrun.
    destruct (run_db vm _ _ 0 db) as [[x db']|] eqn:Hr; [|done]. simpl in Hrun.
    destruct (begin_execution_ok vm i ex db Hb) as (Hex & Hdb & Hrs).
    assert (result_ok (location_typed vm) (vm_beneficiary_location_hash vm) i
      (VmOk res reads ws nv)) as (_ & ? & _); [|by intros loc origins; eauto].
    eapply end_execution_result; [|done]. eapply run_db_inv; [|done].
    split_and!; [done|done|apply transact_db_errors|]. left. intros loc origins. by rewrite Hrs. }
  unfold Vm.execute in Hrun. destruct (begin_execution vm i) as [[ex db]|] eqn:Hb; [|done].
  simpl in Hrun. destruct (run_db vm _ _ 0 db) as [[r db']|] eqn:Hr; [|done]. simpl in Hrun.
  destruct (begin_execution_ok vm i ex db Hb) as (Hex & Hdb & Hrs).
  destruct r as [ras|e]; [|simpl in Hrun; unfold execution_failure in Hrun; by repeat case_match].
  assert (rs_locations (db_read_set db') = reads) as <-.
  { simpl in Hrun. destruct (apply_rewards _ _ _ _); simplify_eq/=.
    destruct (from_revm _ _); by simplify_eq/=. }
  intros loc origins Hl. eapply (run_db_confirms vm mv i (execution_program vm ex) 0 db);
    [apply transact_db_errors|done| | |done| |done].
  - intros l o. by rewrite Hrs.
  - intros l o _. by rewrite Hrs.
  - apply origins_wf_nonempty. by eapply Hwf.
Qed.

(** C8. A read set validates against the memory it was read from: when the memory
    does not change while transaction [i] is executed and the execution succeeds,
    every origin list it recorded validates against that memory; so a validation
    only fails where an entry was written, removed or replaced since. *)
Theorem execution_validates (vm : Vm S) mv i res reads ws nv :
  Vm.execute vm (fun _ => mv) i = Val (VmOk res reads ws nv) ->
  forall loc origins, reads !! loc = Some origins -> validate_location mv i loc origins = true.
Proof. apply execute_confirms. Qed.
End valid.

Lemma execution_validates_witness :
  exists res reads ws nv,
    Vm.execute sample_vm (fun _ => sample_memory_at 3) 1 = Val (VmOk res reads ws nv) /\
    validate_location (sample_memory_at 3) 1 4
      [OriginMvMemory {| tx_idx := 0; tx_incarnation := 0 |}; OriginStorage] = true.
Proof.
  destruct (Vm.execute sample_vm (fun _ => sample_memory_at 3) 1)
    as [[| | |res reads ws nv]|f] eqn:Hrun; try (vm_compute in Hrun; discriminate).
  exists res, reads, ws, nv. split; [done|].
  apply (execution_validates sample_vm (sample_memory_at 3) 1 res reads ws nv Hrun 4).
  vm_compute in Hrun. injection Hrun as _ <- _ _. reflexivity.
Defined.
