(* ===== verification/Ratio.v ===== *)
(** * Ratio: a quotient of counters in binary64

    [preprocess_dependencies] of [src/pevm.rs] compares a ratio of two counters,
    computed in [f64], with the constant 0.85.  The model computes it with the
    [SpecFloat] of the Standard Library; this file shows that, for blocks of less
    than [2^48] transactions, rounding does not change the outcome of the
    comparison. *)

From stdpp Require Import base list.
From Stdlib Require Import ZArith Lia SpecFloat.
From S2P Require Import Prelude.

#[local] Open Scope Z_scope.

(** [x as f64], rounded to the nearest, and the constant 0.85. *)
Definition f64_of_nat (x : nat) : spec_float :=
  binary_normalize 53 1024 (Z.of_nat x) 0 false.

Definition f64_0_85 : spec_float := S754_finite false 7656119366529843 (-53).

(** ** Digits *)

Lemma digits2_pos_bounds p :
  2 ^ (Zpos (digits2_pos p) - 1) <= Zpos p < 2 ^ Zpos (digits2_pos p).
Proof.
  induction p as [p IH|p IH|]; cbn [digits2_pos]; [| |done].
  all: rewrite Pos2Z.inj_succ; replace (Z.succ (Zpos (digits2_pos p)) - 1)
    with (Z.succ (Zpos (digits2_pos p) - 1)) by lia; rewrite !Z.pow_succ_r by lia; lia.
Qed.

Lemma Zdigits2_unique m k : 0 < k -> 2 ^ (k - 1) <= m < 2 ^ k -> Zdigits2 m = k.
Proof.
  intros Hk Hm. assert (0 < 2 ^ (k - 1)) by (apply Z.pow_pos_nonneg; lia).
  destruct m as [|p|p]; [lia| |lia]. simpl. pose proof (digits2_pos_bounds p) as Hp.
  destruct (Z.lt_trichotomy (Zpos (digits2_pos p)) k) as [Hlt|[?|Hgt]]; [|done|].
  - pose proof (Z.pow_le_mono_r 2 (Zpos (digits2_pos p)) (k - 1)). lia.
  - pose proof (Z.pow_le_mono_r 2 k (Zpos (digits2_pos p) - 1)). lia.
Qed.

Lemma iter_xO p k : Zpos (Pos.iter xO p k) = Zpos p * 2 ^ Zpos k.
Proof.
  induction k as [|k IH] using Pos.peano_ind; [simpl; lia|].
  rewrite Pos.iter_succ, Pos2Z.inj_xO, IH, Pos2Z.inj_succ, Z.pow_succ_r by lia. lia.
Qed.

(** ** Rounding *)

Lemma fexp_normal e : -1000 <= e -> fexp 53 1024 e = e - 53.
Proof. intros He. unfold fexp, emin. lia. Qed.

(** A mantissa of 53 digits is not shifted. *)
Lemma shr_fexp_normal m e l :
  -900 <= e -> 2 ^ 52 <= m < 2 ^ 53 ->
  shr_fexp 53 1024 m e l = (shr_record_of_loc m l, e).
Proof.
  intros He Hm. unfold shr_fexp. rewrite (Zdigits2_unique m 53) by lia.
  rewrite fexp_normal by lia. by replace (53 + e - 53 - e) with 0 by lia.
Qed.

(** One of 54 digits is shifted once. *)
Lemma shr_fexp_long m e l :
  -900 <= e -> 2 ^ 53 <= m < 2 ^ 54 ->
  shr_fexp 53 1024 m e l = (shr_1 (shr_record_of_loc m l), e + 1).
Proof.
  intros He Hm. unfold shr_fexp. rewrite (Zdigits2_unique m 54) by lia.
  rewrite fexp_normal by lia. by replace (54 + e - 53 - e) with 1 by lia.
Qed.

(** The float with a rounded mantissa, which may have reached [2^53]. *)
Definition float_of (m e : Z) : spec_float :=
  if m <? 2 ^ 53 then S754_finite false (Z.to_pos m) e
  else S754_finite false (2 ^ 52) (e + 1).

Lemma finish_rounding m e :
  -900 <= e <= 900 -> 2 ^ 52 <= m <= 2 ^ 53 ->
  (let '(mrs, e') := shr_fexp 53 1024 m e loc_Exact in
   match shr_m mrs with
   | Z0 => S754_zero false
   | Zpos m => if Z.leb e' (1024 - 53) then S754_finite false m e' else S754_infinity false
   | _ => S754_nan
   end) = float_of m e.
Proof.
  intros He Hm. unfold float_of. destruct (Z.ltb_spec m (2 ^ 53)).
  - rewrite shr_fexp_normal by lia. simpl. destruct m as [|p|p]; [lia| |lia].
    by destruct (Z.leb_spec e (1024 - 53)); [|lia].
  - assert (m = 2 ^ 53) as -> by lia. rewrite shr_fexp_long by lia. simpl.
    by destruct (Z.leb_spec (e + 1) (1024 - 53)); [|lia].
Qed.

(** A location that rounds up is at least the middle. *)
Definition at_least_half (l : location) : bool :=
  match l with loc_Inexact (Eq | Gt) => true | _ => false end.

Lemma round_nearest_even_bounds m l :
  round_nearest_even m l = m \/ round_nearest_even m l = m + 1 /\ at_least_half l = true.
Proof. destruct l as [|[]]; simpl; auto. destruct (Z.even m); auto. Qed.

Lemma loc_of_shr_record_of_loc m l : loc_of_shr_record (shr_record_of_loc m l) = l.
Proof. by destruct l as [|[]]. Qed.

Lemma shr_m_of_loc m l : shr_m (shr_record_of_loc m l) = m.
Proof. by destruct l as [|[]]. Qed.

Lemma shr_1_of_loc m l :
  0 < m -> shr_m (shr_1 (shr_record_of_loc m l)) = m / 2 /\
    (at_least_half (loc_of_shr_record (shr_1 (shr_record_of_loc m l))) = true -> m mod 2 = 1).
Proof.
  intros Hm. destruct m as [|p|p]; [lia| |lia].
  assert (forall p, Zpos p~1 / 2 = Zpos p /\ Zpos p~1 mod 2 = 1) as H1.
  { intros q. rewrite Pos2Z.inj_xI.
    pose proof (Z.div_mod (2 * Zpos q + 1) 2). pose proof (Z.mod_pos_bound (2 * Zpos q + 1) 2). lia. }
  assert (forall p, Zpos p~0 / 2 = Zpos p) as H0.
  { intros q. rewrite Pos2Z.inj_xO. pose proof (Z.div_mod (2 * Zpos q) 2).
    pose proof (Z.mod_pos_bound (2 * Zpos q) 2). lia. }
  destruct p as [p|p|]; destruct l as [|[]]; simpl; rewrite ?H0, ?(proj1 (H1 p)), ?(proj2 (H1 p));
    try done; by split.
Qed.

Lemma new_location_half m r :
  0 < m -> 0 <= r < m -> at_least_half (new_location m r) = true -> m <= 2 * r.
Proof.
  intros Hm Hr. unfold new_location, new_location_even, new_location_odd.
  destruct (Z.even m) eqn:Hev, (Z.eqb_spec r 0); try done; simpl.
  - destruct (Z.compare_spec (2 * r) m); try done; lia.
  - destruct (Z.compare_spec (2 * r + 1) m); try done; lia.
Qed.

(** ** Division *)

(** The quotient of two normal numbers: its mantissa is the quotient of the
    mantissas, scaled by [2^53] (or half of it), rounded down or to the nearest. *)
Lemma SFdiv_normal m1 e1 m2 e2 :
  2 ^ 52 <= Zpos m1 < 2 ^ 53 -> 2 ^ 52 <= Zpos m2 < 2 ^ 53 ->
  -60 <= e1 <= 60 -> -60 <= e2 <= 60 ->
  exists R E D,
    SFdiv 53 1024 (S754_finite false m1 e1) (S754_finite false m2 e2) = float_of R E /\
    (Zpos m1 < Zpos m2 /\ D = Zpos m2 /\ E = e1 - e2 - 53 \/
     Zpos m2 <= Zpos m1 /\ D = 2 * Zpos m2 /\ E = e1 - e2 - 52) /\
    2 ^ 52 <= R <= 2 ^ 53 /\
    Zpos m1 * 2 ^ 53 < (R + 1) * D /\ 2 * (R * D) <= 2 * (Zpos m1 * 2 ^ 53) + D.
Proof.
  intros H1 H2 He1 He2. unfold SFdiv, SFdiv_core_binary.
  rewrite (Zdigits2_unique (Zpos m1) 53), (Zdigits2_unique (Zpos m2) 53) by lia.
  rewrite fexp_normal by lia.
  replace (Z.min (53 + e1 - (53 + e2) - 53) (e1 - e2)) with (e1 - e2 - 53) by lia.
  replace (e1 - e2 - (e1 - e2 - 53)) with 53 by lia. cbn [xorb].
  rewrite Z.shiftl_mul_pow2 by lia. set (N := Zpos m1 * 2 ^ 53).
  assert (Z.div_eucl N (Zpos m2) = (N / Zpos m2, N mod Zpos m2)) as ->
    by (unfold Z.div, Z.modulo; by destruct (Z.div_eucl N (Zpos m2))).
  pose proof (Z.div_mod N (Zpos m2) ltac:(lia)) as Hqr.
  pose proof (Z.mod_pos_bound N (Zpos m2) ltac:(lia)) as Hr.
  set (q := N / Zpos m2) in *. set (r := N mod Zpos m2) in *. unfold binary_round_aux.
  pose proof (new_location_half (Zpos m2) r ltac:(lia) Hr) as Hhalf.
  set (l := new_location (Zpos m2) r) in *.
  destruct (Z.lt_ge_cases (Zpos m1) (Zpos m2)) as [Hlt|Hge].
  - assert (2 ^ 52 <= q < 2 ^ 53) as Hq by (unfold N in *; nia).
    rewrite shr_fexp_normal by lia. rewrite loc_of_shr_record_of_loc, shr_m_of_loc.
    exists (round_nearest_even q l), (e1 - e2 - 53), (Zpos m2).
    destruct (round_nearest_even_bounds q l) as [-> | [-> Hl]].
    + rewrite finish_rounding by lia. by split_and!; [|lia..].
    + specialize (Hhalf Hl). rewrite finish_rounding by lia. by split_and!; [|lia..].
  - assert (2 ^ 53 <= q < 2 ^ 54) as Hq by (unfold N in *; nia).
    rewrite shr_fexp_long by lia.
    destruct (shr_1_of_loc q l ltac:(lia)) as [Hm Hodd]. rewrite Hm.
    set (l' := loc_of_shr_record _) in *.
    pose proof (Z.div_mod q 2 ltac:(lia)) as Hq2. pose proof (Z.mod_pos_bound q 2 ltac:(lia)).
    exists (round_nearest_even (q / 2) l'), (e1 - e2 - 52), (2 * Zpos m2).
    replace (e1 - e2 - 53 + 1) with (e1 - e2 - 52) by lia.
    destruct (round_nearest_even_bounds (q / 2) l') as [-> | [-> Hl]].
    + rewrite finish_rounding by lia. by split_and!; [|right; lia|nia..].
    + specialize (Hodd Hl). rewrite finish_rounding by lia.
      by split_and!; [|right; lia|nia..].
Qed.

(** A counter is represented exactly, with 53 digits. *)
Lemma f64_of_nat_normal (x : nat) :
  0 < Z.of_nat x < 2 ^ 53 ->
  exists m a, 0 <= a <= 52 /\ f64_of_nat x = S754_finite false m (- a) /\
    Zpos m = Z.of_nat x * 2 ^ a /\ 2 ^ 52 <= Zpos m < 2 ^ 53.
Proof.
  intros Hx. unfold f64_of_nat. destruct (Z.of_nat x) as [|p|p] eqn:Ep; [lia| |lia].
  cbn [binary_normalize]. unfold binary_round.
  pose proof (digits2_pos_bounds p) as Hp. set (d := Zpos (digits2_pos p)) in *.
  assert (1 <= d <= 53) as Hd.
  { split; [lia|]. destruct (Z.le_gt_cases d 53); [done|].
    pose proof (Z.pow_le_mono_r 2 53 (d - 1)). lia. }
  rewrite fexp_normal by lia. unfold shl_align.
  set (m := Z.to_pos (Zpos p * 2 ^ (53 - d))).
  assert (0 < 2 ^ (53 - d)) as Hpow by (apply Z.pow_pos_nonneg; lia).
  assert (Zpos m = Zpos p * 2 ^ (53 - d)) as Em by (unfold m; rewrite Z2Pos.id; lia).
  assert (2 ^ 52 <= Zpos m < 2 ^ 53) as Hm.
  { rewrite Em. replace (2 ^ 52) with (2 ^ (d - 1) * 2 ^ (53 - d))
      by (rewrite <-Z.pow_add_r by lia; f_equal; lia).
    replace (2 ^ 53) with (2 ^ d * 2 ^ (53 - d)) by (rewrite <-Z.pow_add_r by lia; f_equal; lia).
    nia. }
  exists m, (53 - d). split; [lia|]. split; [|done].
  assert ((match d + 0 - 53 - 0 with Zneg k => (Pos.iter xO p k, d + 0 - 53) | _ => (p, 0) end) =
    (m, - (53 - d))) as ->.
  { destruct (d + 0 - 53 - 0) as [|k|k] eqn:Ek; [|lia|].
    - assert (d = 53) as E by lia. rewrite E in *. f_equal.
      apply Pos2Z.inj. rewrite Em. simpl. lia.
    - f_equal; [|lia]. apply Pos2Z.inj. rewrite Em. replace (53 - d) with (Zpos k) by lia.
      apply iter_xO. }
  unfold binary_round_aux. rewrite shr_fexp_normal by lia.
  rewrite loc_of_shr_record_of_loc, shr_m_of_loc. cbn [round_nearest_even].
  rewrite finish_rounding by lia. unfold float_of.
  by destruct (Z.ltb_spec (Zpos m) (2 ^ 53)); [|lia].
Qed.

(** ** The comparison with 0.85 *)

Lemma exceeds_85 R E :
  2 ^ 52 <= R <= 2 ^ 53 ->
  SFltb f64_0_85 (float_of R E) = true <-> -53 < E \/ E = -53 /\ 7656119366529843 < R.
Proof.
  intros HR. unfold float_of, SFltb, SFcompare, f64_0_85.
  destruct (Z.ltb_spec R (2 ^ 53)).
  - destruct (Z.compare_spec (-53) E); [|split; [lia|done]|split; [done|lia]]. subst.
    change (Pos.compare_cont Eq 7656119366529843 (Z.to_pos R))
      with (Pos.compare 7656119366529843 (Z.to_pos R)).
    destruct (Pos.compare_spec 7656119366529843 (Z.to_pos R)); split; try done; lia.
  - destruct (Z.compare_spec (-53) (E + 1)); [|split; [lia|done]|split; [done|lia]].
    split; [done|]. lia.
Qed.

(** Rounding is harmless: the quotient exceeds 0.85 exactly when the counters do. *)
Lemma ratio_exceeds_85 (d n : nat) :
  (0 < n)%nat -> Z.of_nat n < 2 ^ 48 -> (d <= n)%nat ->
  SFltb f64_0_85 (SFdiv 53 1024 (f64_of_nat d) (f64_of_nat n)) = true <->
  (17 * n < 20 * d)%nat.
Proof.
  intros Hn Hbound Hd.
  destruct (f64_of_nat_normal n) as (m2 & b & Hb & -> & E2 & H2); [lia|].
  destruct d as [|d]; [split; [done|lia]|]. set (x := Datatypes.S d) in *.
  destruct (f64_of_nat_normal x) as (m1 & a & Ha & -> & E1 & H1); [lia|].
  destruct (SFdiv_normal m1 (- a) m2 (- b)) as (R & E & D & -> & HD & HR & Hlow & Hhigh); [lia..|].
  rewrite exceeds_85 by done. rewrite E1 in *. rewrite E2 in *.
  assert (0 < 2 ^ a) as HA by (apply Z.pow_pos_nonneg; lia).
  assert (0 < 2 ^ b) as HB by (apply Z.pow_pos_nonneg; lia).
  assert (forall i j, 0 <= i -> 0 <= j -> i <= j -> 2 ^ i <= 2 ^ j) as Hmono
    by (intros; by apply Z.pow_le_mono_r).
  assert (forall i, 0 <= i -> 2 ^ (i + 1) = 2 * 2 ^ i) as Hdouble
    by (intros; by rewrite Z.pow_add_r, Z.mul_comm by lia).
  assert (E = -53 -> D = Z.of_nat n * 2 ^ a) as HDa.
  { intros ->. destruct HD as [(_ & -> & ?)|(_ & -> & ?)].
    - by replace a with b by lia.
    - replace a with (b + 1) by lia. rewrite Hdouble by lia. lia. }
  destruct (Z.lt_trichotomy E (-53)) as [HE|[HE|HE]].
  - split; [lia|]. intros Hgt. exfalso. destruct HD as [(Hlt & _ & ?)|(Hge & _ & ?)].
    + pose proof (Hmono (b + 1) a). rewrite Hdouble in * by lia. nia.
    + pose proof (Hmono (b + 1 + 1) a). rewrite !Hdouble in * by lia. nia.
  - rewrite (HDa HE) in *. set (A := 2 ^ a) in *. clearbody A.
    assert (Z.of_nat x * 2 ^ 53 < (R + 1) * Z.of_nat n) as Hlow' by nia.
    assert (2 * (R * Z.of_nat n) <= 2 * (Z.of_nat x * 2 ^ 53) + Z.of_nat n) as Hhigh' by nia.
    split.
    + intros [?|[_ HC]]; [lia|].
      pose proof (Z.mul_le_mono_nonneg_r (7656119366529843 + 1) R (Z.of_nat n)). lia.
    + intros Hgt. right. split; [done|].
      destruct (Z.lt_ge_cases 7656119366529843 R) as [?|HC]; [done|].
      pose proof (Z.mul_le_mono_nonneg_r R 7656119366529843 (Z.of_nat n)). lia.
  - split; [|by left]. intros _. destruct HD as [(Hlt & _ & ?)|(Hge & _ & ?)].
    + pose proof (Hmono (a + 1) b). rewrite Hdouble in * by lia. nia.
    + pose proof (Hmono a b). nia.
Qed.
