(* ===== verification/Preprocess.v ===== *)
(** * Preprocess: the dependencies known before execution
      ([preprocess_dependencies] of [src/pevm.rs])

    Transactions of one sender, and transactions that fund a later sender, are
    made dependent before the block is executed, so that they are not executed
    out of order; a block with too many of them is executed sequentially. *)

From stdpp Require Import base list gmap.
From Stdlib Require Import ZArith Lia SpecFloat.
From S2P Require Import Prelude Types Scheduler SchedulerInv Revm Sample Ratio.

(** ** The loop's variables *)

Record Preprocess : Type := {
  pp_status : TransactionsStatus;
  pp_dependents : TransactionsDependents;
  pp_dependencies : TransactionsDependenciesNum;
  pp_last_by_sender : gmap Address TxIdx;
  pp_last_by_recipient : gmap Address TxIdx;
}.

Definition Preprocess_start (block_size : nat) : Preprocess :=
  {| pp_status := replicate block_size {| incarnation := 0; status := ReadyToExecute |};
     pp_dependents := replicate block_size [];
     pp_dependencies := ∅;
     pp_last_by_sender := ∅;
     pp_last_by_recipient := ∅ |}.

(** [get_unchecked_mut(i)] followed by an update. *)
Definition vec_update {A} (v : list A) (i : nat) (f : A -> A) : outcome (list A) :=
  x ← vec_get v i; Val (<[i := f x]> v).

Fixpoint push_dependent (tx_idx : TxIdx) (dependency_idxs : list TxIdx)
  (dependents : TransactionsDependents) : outcome TransactionsDependents :=
  match dependency_idxs with
  | [] => Val dependents
  | d :: rest =>
      dependents ← vec_update dependents d (fun l => l ++ [tx_idx]);
      push_dependent tx_idx rest dependents
  end.

(** The closure [register_dependency]. *)
Definition register_dependency (tx_idx : TxIdx) (dependency_idxs : list TxIdx)
  (pp : Preprocess) : outcome Preprocess :=
  st ← vec_update (pp_status pp) tx_idx (fun tx => with_tx_status tx Aborting);
  dependents ← push_dependent tx_idx dependency_idxs (pp_dependents pp);
  Val {| pp_status := st;
         pp_dependents := dependents;
         pp_dependencies := <[tx_idx := Z.of_nat (length dependency_idxs)]> (pp_dependencies pp);
         pp_last_by_sender := pp_last_by_sender pp;
         pp_last_by_recipient := pp_last_by_recipient pp |}.

Definition involves (address : Address) (tx : TxEnv) : bool :=
  (te_caller tx =? address)%Z || bool_decide (te_transact_to tx = Call address).

(** The dependencies found for a transaction of index [tx_idx > 0]. *)
Definition find_dependencies (beneficiary_address : Address) (tx_idx : TxIdx) (tx : TxEnv)
  (pp : Preprocess) : list TxIdx :=
  if involves beneficiary_address tx then
    let start_idx := default 0 (pp_last_by_sender pp !! beneficiary_address) in
    seq start_idx (tx_idx - start_idx)
  else
    let dependencies :=
      match pp_last_by_sender pp !! te_caller tx with
      | Some prev_idx => [prev_idx]
      | None => []
      end in
    match pp_last_by_recipient pp !! te_caller tx with
    | Some prev_idx =>
        if bool_decide (prev_idx ∈ dependencies) then dependencies
        else dependencies ++ [prev_idx]
    | None => dependencies
    end.

(** The beneficiary's transactions register even an empty list. *)
Definition find_and_register (beneficiary_address : Address) (tx_idx : TxIdx) (tx : TxEnv)
  (pp : Preprocess) : outcome Preprocess :=
  if 0 <? tx_idx then
    let dependencies := find_dependencies beneficiary_address tx_idx tx pp in
    if involves beneficiary_address tx || negb (length dependencies =? 0)
    then register_dependency tx_idx dependencies pp
    else Val pp
  else Val pp.

(** The ratio of the two counters, in [f64], against 0.85. *)
Definition too_many_dependencies (dependencies block_size : nat) : bool :=
  SFltb f64_0_85 (SFdiv 53 1024 (f64_of_nat dependencies) (f64_of_nat block_size)).

(** The two maps of last indexes after a transaction. *)
Definition remember (tx_idx : TxIdx) (tx : TxEnv) (pp : Preprocess) : Preprocess :=
  {| pp_status := pp_status pp;
     pp_dependents := pp_dependents pp;
     pp_dependencies := pp_dependencies pp;
     pp_last_by_sender := <[te_caller tx := tx_idx]> (pp_last_by_sender pp);
     pp_last_by_recipient :=
       if (0 <? te_value tx)%Z then
         match te_transact_to tx with
         | Call to_address => <[to_address := tx_idx]> (pp_last_by_recipient pp)
         | Create => pp_last_by_recipient pp
         end
       else pp_last_by_recipient pp |}.

(** The loop over the transactions; [None] to fall back to sequential. *)
Fixpoint preprocess_loop (beneficiary_address : Address) (block_size : nat) (tx_idx : TxIdx)
  (txs : list TxEnv) (pp : Preprocess) : outcome (option Preprocess) :=
  match txs with
  | [] => Val (Some pp)
  | tx :: txs =>
      pp ← find_and_register beneficiary_address tx_idx tx pp;
      if too_many_dependencies (size (pp_dependencies pp)) block_size then Val None
      else preprocess_loop beneficiary_address block_size (tx_idx + 1) txs
             (remember tx_idx tx pp)
  end.

Definition preprocess_dependencies (beneficiary_address : Address) (txs : list TxEnv)
  : outcome (option (Scheduler * nat)) :=
  let block_size := length txs in
  r ← preprocess_loop beneficiary_address block_size 0 txs (Preprocess_start block_size);
  match r with
  | None => Val None
  | Some pp =>
      let ready := (block_size - size (pp_dependencies pp)) / 2 in
      let max_concurrency_level := Nat.max (if ready =? 0 then 2 else ready) 2 in
      Val (Some (Scheduler.new block_size (pp_status pp) (pp_dependents pp)
                               (pp_dependencies pp), max_concurrency_level))
  end.

(** ** The specification *)

(** The last transaction of a list with a property. *)
Definition last_index (P : TxEnv -> bool) (txs : list TxEnv) : option TxIdx :=
  foldl (fun acc '(i, tx) => if P tx then Some i else acc) None (imap pair txs).

(** The transactions that transaction [i] has to wait for. *)
Definition dependencies_of (beneficiary_address : Address) (txs : list TxEnv) (i : TxIdx)
  : list TxIdx :=
  match i, txs !! i with
  | S _, Some tx =>
      let before := take i txs in
      if involves beneficiary_address tx then
        (* all from the beneficiary's last transaction on *)
        let start :=
          default 0 (last_index (fun t => (te_caller t =? beneficiary_address)%Z) before) in
        seq start (i - start)
      else
        (* the closest of the same sender, and the closest that funds the sender *)
        let same_sender := last_index (fun t => (te_caller t =? te_caller tx)%Z) before in
        let funding :=
          last_index (fun t => (0 <? te_value t)%Z
                               && bool_decide (te_transact_to t = Call (te_caller tx))) before in
        match same_sender, funding with
        | Some a, Some b => if a =? b then [a] else [a; b]
        | Some a, None => [a]
        | None, Some b => [b]
        | None, None => []
        end
  | _, _ => []
  end.

Lemma last_index_snoc P l x :
  last_index P (l ++ [x]) = if P x then Some (length l) else last_index P l.
Proof.
  unfold last_index. rewrite imap_app, foldl_app. simpl. by rewrite Nat.add_0_r.
Qed.

Lemma last_index_lt P l i : last_index P l = Some i -> i < length l.
Proof.
  induction l as [|x l IH] using rev_ind; [done|].
  rewrite last_index_snoc, length_app. simpl. destruct (P x); [|intros ?%IH; lia].
  intros [= <-]. lia.
Qed.

Lemma dependencies_lt ben txs i d : d ∈ dependencies_of ben txs i -> d < i.
Proof.
  unfold dependencies_of. destruct i as [|i]; [set_solver|].
  destruct (txs !! S i) as [tx|] eqn:Htx; [|set_solver].
  assert (length (take (S i) txs) = S i) as Hlen.
  { rewrite length_take. apply lookup_lt_Some in Htx. lia. }
  destruct (involves ben tx); [intros []%elem_of_seq; lia|].
  destruct (last_index _ (take (S i) txs)) as [a|] eqn:Ha;
    destruct (last_index (fun t => (0 <? _)%Z && _) _) as [b|] eqn:Hb;
    repeat match goal with H : last_index _ _ = Some _ |- _ => apply last_index_lt in H end;
    rewrite ?Hlen in *; repeat case_match; set_solver by lia.
Qed.

Lemma dependencies_nodup ben txs i : NoDup (dependencies_of ben txs i).
Proof.
  unfold dependencies_of. destruct i as [|i]; [constructor|].
  destruct (txs !! S i) as [tx|]; [|constructor].
  destruct (involves ben tx); [apply NoDup_seq|].
  repeat case_match; bool_to_prop; repeat constructor; set_solver.
Qed.

(** ** The invariant of the loop *)

Section loop.
Context (ben : Address) (txs : list TxEnv).
Abbreviation deps_of := (dependencies_of ben txs) (only parsing).

(** Whether transaction [i] has been found dependent after [k] turns. *)
Definition dependent (k i : nat) : bool := (i <? k) && negb (length (deps_of i) =? 0).

Record loop_inv (k : nat) (pp : Preprocess) : Prop := {
  li_status_length : length (pp_status pp) = length txs;
  li_dependents_length : length (pp_dependents pp) = length txs;
  li_sender : forall a, pp_last_by_sender pp !! a =
    last_index (fun t => (te_caller t =? a)%Z) (take k txs);
  li_recipient : forall a, pp_last_by_recipient pp !! a =
    last_index (fun t => (0 <? te_value t)%Z && bool_decide (te_transact_to t = Call a))
               (take k txs);
  li_status : forall i tx, pp_status pp !! i = Some tx ->
    status tx = if dependent k i then Aborting else ReadyToExecute;
  li_dependencies : forall i, pp_dependencies pp !! i =
    if dependent k i then Some (Z.of_nat (length (deps_of i))) else None;
  li_dependents : forall b l, pp_dependents pp !! b = Some l ->
    l = filter (fun i => b ∈ deps_of i) (seq 0 k);
}.

Lemma loop_inv_start : loop_inv 0 (Preprocess_start (length txs)).
Proof.
  split; simpl; try done.
  - apply length_replicate.
  - apply length_replicate.
  - by intros i tx [-> _]%lookup_replicate.
  - by intros b l [-> _]%lookup_replicate.
Qed.

Lemma push_dependent_run i ds l :
  NoDup ds -> (forall d, d ∈ ds -> d < length l) ->
  exists l', push_dependent i ds l = Val l' /\ length l' = length l /\
    forall b, l' !! b = (fun x => if bool_decide (b ∈ ds) then x ++ [i] else x) <$> l !! b.
Proof.
  revert l. induction ds as [|d ds IH]; intros l Hnd Hlt; simpl.
  - exists l. split_and!; try done. intros b. by destruct (l !! b).
  - apply NoDup_cons in Hnd as [Hd Hnd].
    destruct (lookup_lt_is_Some_2 l d) as [x Hx]; [apply Hlt; set_solver|].
    unfold vec_update. rewrite (vec_get_Some _ _ _ Hx). simpl.
    destruct (IH (<[d := x ++ [i]]> l)) as (l' & Hrun & Hlen & Hl'); [done| |].
    { intros d' Hd'. rewrite length_insert. apply Hlt. set_solver. }
    exists l'. rewrite length_insert in Hlen. split_and!; [done|done|]. intros b.
    rewrite Hl'. destruct (decide (b = d)) as [->|Hb].
    + rewrite list_lookup_insert_eq by (by eapply lookup_lt_Some). rewrite Hx. simpl.
      by rewrite bool_decide_false, bool_decide_true by set_solver.
    + rewrite list_lookup_insert_ne by done. destruct (l !! b); [|done]. simpl.
      by rewrite (bool_decide_ext (b ∈ d :: ds) (b ∈ ds)) by set_solver.
Qed.

(** The maps give the dependencies of the specification. *)
Lemma find_dependencies_spec k tx pp :
  loop_inv k pp -> txs !! k = Some tx -> 0 < k -> find_dependencies ben k tx pp = deps_of k.
Proof.
  intros Hinv Htx Hk. destruct k as [|k]; [lia|]. unfold find_dependencies, dependencies_of.
  rewrite Htx. destruct (involves ben tx); [by rewrite (li_sender _ _ Hinv)|].
  rewrite (li_sender _ _ Hinv), (li_recipient _ _ Hinv).
  destruct (last_index _ (take (S k) txs)) as [a|], (last_index _ (take (S k) txs)) as [b|];
    try done.
  - destruct (b =? a) eqn:E; bool_to_prop.
    + subst. by rewrite bool_decide_true by set_solver.
    + by rewrite bool_decide_false by set_solver.
Qed.

Lemma involves_dependent k tx :
  txs !! k = Some tx -> 0 < k -> involves ben tx = true -> length (deps_of k) <> 0.
Proof.
  intros Htx Hk Hi. unfold dependencies_of. destruct k as [|k]; [lia|].
  rewrite Htx, Hi, length_seq.
  destruct (last_index _ (take (S k) txs)) as [a|] eqn:Ha; simpl; [|lia].
  apply last_index_lt in Ha. rewrite length_take in Ha. lia.
Qed.

Lemma dependent_S k i :
  dependent (S k) i = if i =? k then negb (length (deps_of k) =? 0) else dependent k i.
Proof.
  unfold dependent. destruct (i =? k) eqn:E; bool_to_prop; subst.
  - by replace (k <? S k) with true by (symmetry; apply Nat.ltb_lt; lia).
  - by replace (i <? S k) with (i <? k) by (apply Bool.eq_iff_eq_true; rewrite !Nat.ltb_lt; lia).
Qed.

Lemma dependents_S b k :
  filter (fun i => b ∈ deps_of i) (seq 0 (S k)) =
  filter (fun i => b ∈ deps_of i) (seq 0 k) ++ (if bool_decide (b ∈ deps_of k) then [k] else []).
Proof.
  rewrite seq_S, filter_app. simpl. rewrite filter_cons, filter_nil.
  by case_decide; case_bool_decide.
Qed.

(** One turn of the loop. *)
Lemma find_and_register_run k tx pp :
  loop_inv k pp -> txs !! k = Some tx ->
  exists pp', find_and_register ben k tx pp = Val pp' /\
              loop_inv (S k) (remember k tx pp').
Proof.
  intros Hinv Htx. assert (k < length txs) as Hk by by eapply lookup_lt_Some.
  assert (take (S k) txs = take k txs ++ [tx]) as Htake by by apply take_S_r.
  assert (length (take k txs) = k) as Hlen by (rewrite length_take; lia).
  assert (forall pp',
    length (pp_status pp') = length txs -> length (pp_dependents pp') = length txs ->
    pp_last_by_sender pp' = pp_last_by_sender pp ->
    pp_last_by_recipient pp' = pp_last_by_recipient pp ->
    (forall i t, pp_status pp' !! i = Some t ->
       status t = if dependent (S k) i then Aborting else ReadyToExecute) ->
    (forall i, pp_dependencies pp' !! i =
       if dependent (S k) i then Some (Z.of_nat (length (deps_of i))) else None) ->
    (forall b l, pp_dependents pp' !! b = Some l ->
       l = filter (fun i => b ∈ deps_of i) (seq 0 (S k))) ->
    loop_inv (S k) (remember k tx pp')) as Hrem.
  { intros pp' Hl1 Hl2 Es Er Hst Hd Hdep. split; simpl; try done.
    - intros a. rewrite Es, Htake, last_index_snoc, Hlen. destruct (te_caller tx =? a)%Z eqn:E.
      + apply Z.eqb_eq in E as ->. by rewrite lookup_insert_eq.
      + apply Z.eqb_neq in E. rewrite lookup_insert_ne by done. apply Hinv.
    - intros a. rewrite Er, Htake, last_index_snoc, Hlen. destruct (0 <? te_value tx)%Z; simpl;
        [|apply Hinv].
      destruct (te_transact_to tx) as [to|]; [|rewrite bool_decide_false by done; apply Hinv].
      case_bool_decide as E; simplify_eq; [by rewrite lookup_insert_eq|].
      rewrite lookup_insert_ne by congruence. apply Hinv. }
  destruct (negb (length (deps_of k) =? 0)) eqn:Hne.
  - assert (0 < k) as Hpos by (destruct k; [done|lia]).
    unfold find_and_register. replace (0 <? k) with true by (symmetry; by apply Nat.ltb_lt).
    rewrite (find_dependencies_spec k tx pp) by done. rewrite Hne, orb_true_r.
    unfold register_dependency, vec_update.
    destruct (lookup_lt_is_Some_2 (pp_status pp) k) as [t Ht];
      [by rewrite (li_status_length _ _ Hinv)|].
    rewrite (vec_get_Some _ _ _ Ht). simpl.
    destruct (push_dependent_run k (deps_of k) (pp_dependents pp)) as (l' & Hrun & Hl' & Hlook).
    { apply dependencies_nodup. }
    { intros d Hd%dependencies_lt. rewrite (li_dependents_length _ _ Hinv). lia. }
    rewrite Hrun. simpl. eexists. split; [done|].
    apply Hrem; cbn [pp_status pp_dependents pp_dependencies pp_last_by_sender
                     pp_last_by_recipient]; try done.
    + rewrite length_insert. apply Hinv.
    + rewrite Hl'. apply Hinv.
    + intros i t' [(-> & <- & _)|[Hik Ht']]%list_lookup_insert_Some; rewrite dependent_S.
      * by rewrite Nat.eqb_refl, Hne.
      * rewrite (proj2 (Nat.eqb_neq i k)) by done. by apply Hinv.
    + intros i. rewrite dependent_S. destruct (i =? k) eqn:E.
      * apply Nat.eqb_eq in E as ->. by rewrite lookup_insert_eq, Hne.
      * apply Nat.eqb_neq in E. rewrite lookup_insert_ne by done. apply Hinv.
    + intros b l Hl. rewrite Hlook in Hl. destruct (pp_dependents pp !! b) as [l0|] eqn:Hl0;
        simpl in Hl; simplify_eq. rewrite dependents_S, <-(li_dependents _ _ Hinv b l0 Hl0).
      case_bool_decide; [done|by rewrite app_nil_r].
  - exists pp. split.
    + unfold find_and_register. destruct (0 <? k) eqn:Hpos; [|done]. apply Nat.ltb_lt in Hpos.
      rewrite (find_dependencies_spec k tx pp) by done.
      destruct (involves ben tx) eqn:Hi.
      * destruct (involves_dependent k tx Htx Hpos Hi).
        by apply Nat.eqb_eq, negb_false_iff.
      * by rewrite Hne.
    + apply Hrem; try done; try apply Hinv.
      * intros i t Ht. rewrite dependent_S. destruct (i =? k) eqn:E; [|by apply Hinv].
        apply Nat.eqb_eq in E as ->. rewrite Hne. simpl. rewrite (li_status _ _ Hinv k t Ht).
        unfold dependent. by rewrite Nat.ltb_irrefl.
      * intros i. rewrite dependent_S, (li_dependencies _ _ Hinv).
        destruct (i =? k) eqn:E; [|done]. apply Nat.eqb_eq in E as ->. rewrite Hne.
        unfold dependent. by rewrite Nat.ltb_irrefl.
      * intros b l Hl. rewrite dependents_S, <-(li_dependents _ _ Hinv b l Hl).
        bool_to_prop. apply length_zero_iff_nil in Hne as ->.
        rewrite bool_decide_false by set_solver. by rewrite app_nil_r.
Qed.

(** How many of the first [k] transactions depend on others. *)
Definition number_dependent (k : nat) : nat :=
  length (filter (fun i => deps_of i <> []) (seq 0 k)).

Lemma number_dependent_mono k1 k2 : k1 <= k2 -> number_dependent k1 <= number_dependent k2.
Proof.
  intros Hk. unfold number_dependent. replace k2 with (k1 + (k2 - k1)) by lia.
  rewrite seq_app, filter_app, length_app. lia.
Qed.

Lemma number_dependent_le k : number_dependent k <= k.
Proof.
  unfold number_dependent. etransitivity; [apply length_filter|]. by rewrite length_seq.
Qed.

Lemma loop_inv_size k pp : loop_inv k pp -> size (pp_dependencies pp) = number_dependent k.
Proof.
  intros Hinv. rewrite <-size_dom. unfold number_dependent.
  rewrite <-(size_list_to_set (C := gset nat)) by (apply NoDup_filter, NoDup_seq).
  f_equal. apply set_eq. intros i.
  rewrite elem_of_dom, elem_of_list_to_set, list_elem_of_filter, elem_of_seq,
    (li_dependencies _ _ Hinv). unfold dependent.
  destruct (Nat.ltb_spec i k); simpl.
  - destruct (deps_of i) as [|d l]; simpl.
    + split; [by intros []|]. by intros [? _].
    + split; [|by eexists]. intros _. split; [done|lia].
  - split; [by intros []|]. lia.
Qed.

Lemma preprocess_loop_run k rest pp :
  loop_inv k pp -> drop k txs = rest ->
  exists r, preprocess_loop ben (length txs) k rest pp = Val r /\
    (forall pp', r = Some pp' -> loop_inv (length txs) pp') /\
    (r = None <-> exists k', k < k' <= length txs /\
       too_many_dependencies (number_dependent k') (length txs) = true).
Proof.
  revert k pp. induction rest as [|tx rest IH]; intros k pp Hinv Hrest; simpl.
  - assert (length txs <= k) as Hk.
    { apply (f_equal length) in Hrest. rewrite length_drop in Hrest. simpl in Hrest. lia. }
    eexists. split; [done|]. split; [intros ? [= <-]|split; [done|intros (k' & ? & _); lia]].
    assert (forall i, i < length txs -> dependent k i = dependent (length txs) i) as Hdep.
    { intros i Hi. unfold dependent. by rewrite !(proj2 (Nat.ltb_lt _ _)) by lia. }
    assert (forall i, length txs <= i -> deps_of i = []) as Hnil.
    { intros i Hi. unfold dependencies_of. destruct i; [done|].
      by rewrite lookup_ge_None_2. }
    assert (forall i, dependent k i = dependent (length txs) i) as Hdep'.
    { intros i. destruct (decide (i < length txs)); [by apply Hdep|].
      unfold dependent. rewrite Hnil by lia. by rewrite !andb_false_r. }
    destruct Hinv. split; try done.
    + intros a. rewrite take_ge by done. by rewrite <-(take_ge txs k).
    + intros a. rewrite take_ge by done. by rewrite <-(take_ge txs k).
    + intros i tx Htx. rewrite <-Hdep'. auto.
    + intros i. rewrite <-Hdep'. auto.
    + intros b l Hl. rewrite (li_dependents0 b l Hl).
      replace k with (length txs + (k - length txs)) at 1 by lia.
      rewrite seq_app, filter_app. simpl.
      assert (filter (fun i => b ∈ deps_of i) (seq (length txs) (k - length txs)) = []) as ->;
        [|by rewrite app_nil_r].
      apply elem_of_nil_inv. intros i [Hb [? _]%elem_of_seq]%list_elem_of_filter.
      rewrite Hnil in Hb by done. set_solver.
  - assert (txs !! k = Some tx) as Htx.
    { rewrite <-(Nat.add_0_r k), <-lookup_drop, Hrest. done. }
    destruct (find_and_register_run k tx pp Hinv Htx) as (pp' & Hrun & Hinv').
    rewrite Hrun. simpl. pose proof (loop_inv_size _ _ Hinv') as Hsize. simpl in Hsize.
    rewrite Hsize. apply lookup_lt_Some in Htx as Hlt.
    destruct (too_many_dependencies _ _) eqn:Hmany.
    { eexists. split; [done|]. split; [done|]. split; [|done]. intros _.
      exists (S k). split; [lia|done]. }
    rewrite Nat.add_1_r. destruct (IH (S k) (remember k tx pp')) as (r & -> & Hr & Hnone);
      [done|by rewrite <-Nat.add_1_r, <-drop_drop, Hrest|].
    exists r. split; [done|]. split; [done|]. rewrite Hnone. split.
    + intros (k' & ? & ?). exists k'. split; [lia|done].
    + intros (k' & ? & Hk'). destruct (decide (k' = S k)) as [->|]; [congruence|].
      exists k'. split; [lia|done].
Qed.

(** In how many lists of dependents a transaction is. *)
Lemma loop_inv_waits pp i :
  loop_inv (length txs) pp -> i < length txs ->
  count_if (fun l => bool_decide (i ∈ l)) (pp_dependents pp) = length (deps_of i).
Proof.
  intros Hinv Hi. rewrite (count_if_index _ _ (fun b => b ∈ deps_of i)).
  - rewrite (li_dependents_length _ _ Hinv). apply Permutation_length.
    apply NoDup_Permutation; [apply NoDup_filter, NoDup_seq|apply dependencies_nodup|].
    intros b. rewrite list_elem_of_filter, elem_of_seq. split; [tauto|]. intros Hb.
    pose proof (dependencies_lt _ _ _ _ Hb). split; [done|lia].
  - intros b l Hl. apply bool_decide_ext. rewrite (li_dependents _ _ Hinv b l Hl).
    rewrite list_elem_of_filter, elem_of_seq. split; [tauto|]. split; [done|lia].
Qed.

Lemma loop_inv_initial pp :
  loop_inv (length txs) pp ->
  initial_wf (length txs) (pp_status pp) (pp_dependents pp) (pp_dependencies pp).
Proof.
  intros Hinv. split; try apply Hinv.
  - intros b l i Hl Hi. rewrite (li_dependents _ _ Hinv b l Hl) in Hi.
    apply list_elem_of_filter in Hi as [Hb [_ ?]%elem_of_seq].
    pose proof (dependencies_lt _ _ _ _ Hb). lia.
  - intros b l Hl. rewrite (li_dependents _ _ Hinv b l Hl). apply NoDup_filter, NoDup_seq.
  - intros i tx Htx. assert (i < length txs) as Hi
      by (rewrite <-(li_status_length _ _ Hinv); by eapply lookup_lt_Some).
    rewrite (loop_inv_waits pp i Hinv Hi), (li_status _ _ Hinv i tx Htx),
      (li_dependencies _ _ Hinv i). unfold dependent.
    rewrite (proj2 (Nat.ltb_lt _ _) Hi). simpl.
    destruct (length (deps_of i)); simpl; [right|left]; split_and!; auto; lia.
Qed.
End loop.

(** In binary64 the loop stops exactly when the final ratio is above 85%. *)
Lemma falls_back ben txs :
  (Z.of_nat (length txs) < 2 ^ 48)%Z ->
  (exists k, 0 < k <= length txs /\
     too_many_dependencies (number_dependent ben txs k) (length txs) = true) <->
  17 * length txs < 20 * number_dependent ben txs (length txs).
Proof.
  intros Hbound. unfold too_many_dependencies. split.
  - intros (k & Hk & Hmany). pose proof (number_dependent_le ben txs k).
    apply ratio_exceeds_85 in Hmany; [|lia..].
    pose proof (number_dependent_mono ben txs k (length txs)). lia.
  - intros Hmany. pose proof (number_dependent_le ben txs (length txs)).
    exists (length txs). split; [lia|]. apply ratio_exceeds_85; [lia..|done].
Qed.

Lemma concurrency_level ready : Nat.max (if ready =? 0 then 2 else ready) 2 = Nat.max 2 ready.
Proof. destruct ready; [done|apply Nat.max_comm]. Qed.

Lemma preprocess_wf ben txs s c :
  preprocess_dependencies ben txs = Val (Some (s, c)) ->
  2 <= c /\ exists st dependents deps,
    s = Scheduler.new (length txs) st dependents deps /\
    initial_wf (length txs) st dependents deps.
Proof.
  destruct (preprocess_loop_run ben txs 0 txs (Preprocess_start (length txs)))
    as (r & Hrun & Hr & _); [apply loop_inv_start|done|].
  unfold preprocess_dependencies. rewrite Hrun. simpl.
  destruct r as [pp|]; [|done]. intros [= <- <-]. split; [apply Nat.le_max_r|].
  eexists _, _, _. split; [done|]. by eapply loop_inv_initial, Hr.
Qed.

(** * Properties *)

(** C16. Preprocessing always returns.  It falls back to sequential execution
    exactly when more than 85% of the transactions have dependencies.  Otherwise
    half of the transactions without dependencies, but at least two, is the
    greatest number of threads, and the scheduler it builds is well formed and
    encodes exactly the specified dependencies: transaction [i] is in the list of
    dependents of [b] if and only if [b] is one of its dependencies (for a
    transaction that involves the beneficiary, all from the beneficiary's last
    transaction on; otherwise the closest of the same sender and the closest
    that funds the sender), it starts suspended if and only if it has some, and
    its counter is their number.  (The ratio is computed in binary64, which is
    exact enough for blocks of less than [2^48] transactions.) *)
Theorem preprocess_correct ben txs :
  (Z.of_nat (length txs) < 2 ^ 48)%Z ->
  let dependents_number := length (filter (fun i => dependencies_of ben txs i <> []) (seq 0 (length txs))) in
  exists r, preprocess_dependencies ben txs = Val r /\
    (r = None <-> 17 * length txs < 20 * dependents_number) /\
    forall s c, r = Some (s, c) ->
      exists st dependents deps,
        s = Scheduler.new (length txs) st dependents deps /\
        c = Nat.max 2 ((length txs - dependents_number) / 2) /\
        initial_wf (length txs) st dependents deps /\
        forall i, i < length txs ->
          (forall b, i ∈ dependents_of s b <-> b ∈ dependencies_of ben txs i) /\
          st_at s i = Some (if bool_decide (dependencies_of ben txs i = [])
                            then ReadyToExecute else Aborting) /\
          deps !! i = (if bool_decide (dependencies_of ben txs i = []) then None
                       else Some (Z.of_nat (length (dependencies_of ben txs i)))).
Proof.
  intros Hbound dependents_number.
  destruct (preprocess_loop_run ben txs 0 txs (Preprocess_start (length txs)))
    as (r & Hrun & Hr & Hnone); [apply loop_inv_start|done|].
  assert (r = None <-> 17 * length txs < 20 * dependents_number) as Hfall.
  { rewrite Hnone. by apply falls_back. }
  unfold preprocess_dependencies. rewrite Hrun. cbn -[Nat.mul Nat.div].
  destruct r as [pp|]; [|exists None; split_and!; [done|by rewrite <-Hfall|by intros ? ?]]. specialize (Hr pp eq_refl).
  assert (size (pp_dependencies pp) = dependents_number) as -> by by rewrite (loop_inv_size _ _ _ _ Hr).
  rewrite concurrency_level. eexists. split; [done|]. split; [by rewrite <-Hfall|].
  intros s c [= <- <-]. eexists _, _, _.
  split_and!; [done|done|by eapply loop_inv_initial|].
  intros i Hi.
  assert (dependent ben txs (length txs) i = negb (bool_decide (dependencies_of ben txs i = [])))
    as Hd.
  { unfold dependent. rewrite (proj2 (Nat.ltb_lt _ _) Hi). simpl.
    by destruct (dependencies_of ben txs i). }
  split_and!.
  - intros b. unfold dependents_of. simpl.
    destruct (pp_dependents pp !! b) as [l|] eqn:Hl; simpl.
    + rewrite (li_dependents _ _ _ _ Hr b l Hl), list_elem_of_filter, elem_of_seq.
      split; [tauto|]. split; [done|lia].
    + apply lookup_ge_None in Hl. rewrite (li_dependents_length _ _ _ _ Hr) in Hl.
      split; [set_solver|]. intros ?%dependencies_lt. lia.
  - destruct (lookup_lt_is_Some_2 (pp_status pp) i) as [tx Htx];
      [by rewrite (li_status_length _ _ _ _ Hr)|].
    apply st_at_Some. exists tx. split; [done|]. rewrite (li_status _ _ _ _ Hr i tx Htx), Hd.
    by case_bool_decide.
  - rewrite (li_dependencies _ _ _ _ Hr i), Hd. by case_bool_decide.
Qed.

(** Two dependent transfers out of three: 1 pays 2, which pays 3, and 4 pays 5. *)
Lemma preprocess_correct_witness :
  let txs := [pay 1 2 5; pay 2 3 3; pay 4 5 1] in
  exists s, preprocess_dependencies 9 txs = Val (Some (s, 2)) /\
    dependents_of s 0 = [1] /\ 2 = Nat.max 2 ((3 - 1) / 2).
Proof.
  intros txs. destruct (preprocess_correct 9 txs ltac:(vm_compute; reflexivity))
    as (r & Hrun & _ & Hr).
  destruct r as [[s c]|]; [|vm_compute in Hrun; discriminate].
  destruct (Hr s c eq_refl) as (_ & _ & _ & _ & Hc & _).
  exists s. pose proof Hrun as Hs. vm_compute in Hs. injection Hs as Hs1 Hs2.
  split_and!; [by rewrite Hrun, <-Hs2|by subst s|by rewrite Hs2 at 1].
Defined.
