(* ===== verification/Primitives.v ===== *)
(** * Primitives: reading an Alloy block ([src/primitives.rs])

    The hard fork of a block, its environment, and the environment of each
    transaction, from the RPC types of Alloy.  The fields of those types that
    the source reads are records here.  The hard fork is compared with the
    mainnet schedule, a list of activation points. *)

From stdpp Require Import base list.
From Stdlib Require Import ZArith Lia.
From S2P Require Import Prelude Types Revm Sample.

(** ** Alloy's types *)

Record Header : Type := {
  hd_number : option u64;
  hd_timestamp : u64;
  hd_miner : Address;
  hd_gas_limit : Z;
  hd_gas_used : Z;
  hd_base_fee_per_gas : option Z;
  hd_difficulty : U256;
  hd_total_difficulty : option U256;
  hd_mix_hash : option B256;
  hd_excess_blob_gas : option Z;
}.

Record AccessListItem : Type := {
  al_address : Address;
  al_storage_keys : list B256;
}.

Record Transaction : Type := {
  tx_from : Address;
  tx_gas : Z;
  tx_transaction_type : option u8;
  tx_gas_price : option Z;
  tx_max_fee_per_gas : option Z;
  tx_max_priority_fee_per_gas : option Z;
  tx_to : option Address;
  tx_value : U256;
  tx_input : Bytes;
  tx_nonce : u64;
  tx_chain_id : option u64;
  tx_access_list : option (list AccessListItem);
  tx_blob_versioned_hashes : option (list B256);
  tx_max_fee_per_blob_gas : option Z;
}.

(** ** The hard fork *)

Definition terminal_total_difficulty : U256 := 58750000000000000000000%Z.

(** The forks before the merge, by block number. *)
Definition spec_of_number (number : u64) : SpecId :=
  if (12965000 <=? number)%Z then LONDON
  else if (12244000 <=? number)%Z then BERLIN
  else if (9069000 <=? number)%Z then ISTANBUL
  else if (7280000 <=? number)%Z then PETERSBURG
  else if (4370000 <=? number)%Z then BYZANTIUM
  else if (2675000 <=? number)%Z then SPURIOUS_DRAGON
  else if (2463000 <=? number)%Z then TANGERINE
  else if (1150000 <=? number)%Z then HOMESTEAD
  else FRONTIER.

Definition get_block_spec (header : Header) : option SpecId :=
  if (1710338135 <=? hd_timestamp header)%Z then Some CANCUN
  else if (1681338455 <=? hd_timestamp header)%Z then Some SHANGHAI
  else
    total_difficulty ← hd_total_difficulty header;
    if (terminal_total_difficulty
          <=? u256_saturating_sub total_difficulty (hd_difficulty header))%Z
    then Some MERGE
    else
      number ← hd_number header;
      Some (spec_of_number number).

(** ** The block environment *)

Definition get_block_env `{Revm} (header : Header) : option BlockEnv :=
  number ← hd_number header;
  Some {| be_number := number;
          be_coinbase := hd_miner header;
          be_timestamp := hd_timestamp header;
          be_gas_limit := hd_gas_limit header;
          be_basefee := default 0%Z (hd_base_fee_per_gas header);
          be_difficulty := hd_difficulty header;
          be_prevrandao := hd_mix_hash header;
          be_blob_excess_gas_and_price :=
            (fun excess_blob_gas => BlobExcessGasAndPrice_new (wrap 64 excess_blob_gas))
              <$> hd_excess_blob_gas header |}.

(** ** The transaction environments *)

Inductive TransactionParsingError : Type :=
| OverflowedGasLimit
| MissingGasPrice
| MissingMaxFeePerGas
| InvalidType (transaction_type : u8).

Definition ok_or {A E} (x : option A) (e : E) : result A E :=
  match x with Some a => Ok a | None => Err e end.

(** The match on [tx.transaction_type.unwrap()]. *)
Definition get_gas_price (tx : Transaction) : outcome (result U256 TransactionParsingError) :=
  match tx_transaction_type tx with
  | None => Fault UnwrapFailed
  | Some ty =>
      Val (if (ty =? 0)%Z || (ty =? 1)%Z then ok_or (tx_gas_price tx) MissingGasPrice
           else if (ty =? 2)%Z || (ty =? 3)%Z
           then ok_or (tx_max_fee_per_gas tx) MissingMaxFeePerGas
           else Err (InvalidType ty))
  end.

(** [tx.gas] is a [u128]; the fields are evaluated in order, so an overflowing
    gas limit is reported before the type is looked at. *)
Definition get_tx_env (tx : Transaction) : outcome (result TxEnv TransactionParsingError) :=
  if (2 ^ 64 <=? tx_gas tx)%Z then Val (Err OverflowedGasLimit)
  else
    gas_price ← get_gas_price tx;
    Val (match gas_price with
         | Err e => Err e
         | Ok gas_price =>
             Ok {| te_caller := tx_from tx;
                   te_gas_limit := tx_gas tx;
                   te_gas_price := gas_price;
                   te_gas_priority_fee := tx_max_priority_fee_per_gas tx;
                   te_transact_to := match tx_to tx with
                                     | Some address => Call address
                                     | None => Create
                                     end;
                   te_value := tx_value tx;
                   te_data := tx_input tx;
                   te_nonce := Some (tx_nonce tx);
                   te_chain_id := tx_chain_id tx;
                   te_access_list :=
                     map (fun access => (al_address access, al_storage_keys access))
                         (default [] (tx_access_list tx));
                   te_blob_hashes := default [] (tx_blob_versioned_hashes tx);
                   te_max_fee_per_blob_gas := tx_max_fee_per_blob_gas tx |}
         end).

(** * Properties *)

(** ** The schedule of hard forks *)

(** When a hard fork starts: at the first block, at a block number, at an
    accumulated difficulty of the blocks before, or at a time. *)
Inductive Activation : Type :=
| AtGenesis
| AtNumber (number : u64)
| AtDifficulty (difficulty : U256)
| AtTime (timestamp : u64).

(** The forks of the Ethereum mainnet that change the rules of execution, as they
    happened. *)
Definition mainnet_schedule : list (Activation * SpecId) :=
  [(AtGenesis, FRONTIER);
   (AtNumber 1150000, HOMESTEAD);
   (AtNumber 2463000, TANGERINE);
   (AtNumber 2675000, SPURIOUS_DRAGON);
   (AtNumber 4370000, BYZANTIUM);
   (AtNumber 7280000, PETERSBURG);
   (AtNumber 9069000, ISTANBUL);
   (AtNumber 12244000, BERLIN);
   (AtNumber 12965000, LONDON);
   (AtDifficulty (58750 * 10 ^ 18), MERGE);
   (AtTime 1681338455, SHANGHAI);
   (AtTime 1710338135, CANCUN)].

(** Whether a fork has started at a block, if the header tells. *)
Definition activated (header : Header) (a : Activation) : option bool :=
  match a with
  | AtGenesis => (fun _ => true) <$> hd_number header
  | AtNumber n => (fun number => n <=? number)%Z <$> hd_number header
  | AtDifficulty d =>
      (fun total => d <=? total - hd_difficulty header)%Z <$> hd_total_difficulty header
  | AtTime t => Some (t <=? hd_timestamp header)%Z
  end.

(** A schedule, latest fork first, at a block: the first fork that has started,
    if all later ones are known not to have. *)
Fixpoint latest_fork (header : Header) (forks : list (Activation * SpecId)) : option SpecId :=
  match forks with
  | [] => None
  | (a, spec_id) :: forks =>
      active ← activated header a;
      if active : bool then Some spec_id else latest_fork header forks
  end.

Lemma latest_fork_spec header forks s :
  latest_fork header (reverse forks) = Some s <->
  exists k a, forks !! k = Some (a, s) /\ activated header a = Some true /\
    forall k' a' s', k < k' -> forks !! k' = Some (a', s') -> activated header a' = Some false.
Proof.
  induction forks as [|[a0 s0] forks IH] using rev_ind.
  { split; [done|]. by intros (k & a & Hk & _). }
  rewrite reverse_snoc. simpl. assert (forall k x, (forks ++ [(a0, s0)]) !! k = Some x ->
    k = length forks /\ x = (a0, s0) \/ k < length forks /\ forks !! k = Some x) as Hlook.
  { intros k x [Hk|[Hk Hx]]%lookup_app_Some; [right|left].
    - split; [by eapply lookup_lt_Some|done].
    - apply list_lookup_singleton_Some in Hx as [? <-]. split; [lia|done]. }
  assert ((forks ++ [(a0, s0)]) !! length forks = Some (a0, s0)) as Hlast
    by by rewrite list_lookup_middle.
  destruct (activated header a0) as [[]|] eqn:Ha; simpl.
  - split.
    + intros [= ->]. exists (length forks), a0. split_and!; [done|done|].
      intros k' a' s' Hk [[? _]|[? _]]%Hlook; lia.
    + intros (k & a & [[-> [= -> ->]]|[Hk _]]%Hlook & _ & Hl); [done|].
      specialize (Hl _ _ _ Hk Hlast). congruence.
  - rewrite IH. split.
    + intros (k & a & Hk & Hs & Hl). exists k, a.
      split_and!; [by apply lookup_app_l_Some|done|].
      intros k' a' s' Hlt [[-> [= -> ->]]|[_ Hk']]%Hlook; [done|by eapply Hl].
    + intros (k & a & [[-> [= -> ->]]|[_ Hk]]%Hlook & Hs & Hl); [congruence|].
      exists k, a. split_and!; [done|done|]. intros k' a' s' Hlt Hk'.
      eapply Hl; [done|by apply lookup_app_l_Some].
  - split; [done|]. intros (k & a & [[-> [= -> ->]]|[Hk _]]%Hlook & Hs & Hl); [congruence|].
    specialize (Hl _ _ _ Hk Hlast). congruence.
Qed.

Lemma get_block_spec_latest header :
  get_block_spec header = latest_fork header (reverse mainnet_schedule).
Proof.
  unfold get_block_spec, spec_of_number, terminal_total_difficulty, u256_saturating_sub.
  cbn -[Z.leb Z.max Z.sub]. destruct (_ <=? _)%Z; [done|]. destruct (_ <=? _)%Z; [done|].
  destruct (hd_total_difficulty header) as [total|]; [|done]. cbn -[Z.leb Z.max Z.sub].
  destruct (Z.leb_spec 58750000000000000000000 (Z.max 0 (total - hd_difficulty header))),
    (Z.leb_spec (58750 * 10 ^ 18) (total - hd_difficulty header)); try lia; [done|].
  destruct (hd_number header); [|done]. cbn -[Z.leb].
  by repeat (destruct (_ <=? _)%Z; [done|]).
Qed.

(** A fork that is not later than another one of the schedule comes before it. *)
Lemma schedule_order k1 k2 a1 s1 a2 s2 :
  mainnet_schedule !! k1 = Some (a1, s1) -> mainnet_schedule !! k2 = Some (a2, s2) ->
  k1 <= k2 -> spec_number s1 <= spec_number s2.
Proof.
  intros H1 H2 Hk.
  do 12 (destruct k1 as [|k1]; [injection H1 as _ <-;
    do 12 (destruct k2 as [|k2]; [injection H2 as _ <-; simpl in *; lia|]); discriminate|]).
  discriminate.
Qed.

(** C39. The hard fork of a block is the latest one of the mainnet schedule that
    has started at it: by time for Shanghai and Cancun, by the difficulty
    accumulated before the block for the merge, by number for the older ones.  It
    is unknown exactly when the header lacks the field that decides: the total
    difficulty of a block before Shanghai, or the number of a block before the
    merge.  So a block at which at least the same forks have started runs the
    same or a later hard fork. *)
Theorem block_spec_latest header :
  (forall s, get_block_spec header = Some s <->
     exists k a, mainnet_schedule !! k = Some (a, s) /\ activated header a = Some true /\
       forall k' a' s', k < k' -> mainnet_schedule !! k' = Some (a', s') ->
         activated header a' = Some false) /\
  (get_block_spec header = None <->
     (hd_timestamp header < 1681338455)%Z /\
     (hd_total_difficulty header = None \/
      hd_number header = None /\ exists total, hd_total_difficulty header = Some total /\
        (total - hd_difficulty header < 58750 * 10 ^ 18)%Z)) /\
  (forall header' s s', get_block_spec header = Some s -> get_block_spec header' = Some s' ->
     (forall k a s0, mainnet_schedule !! k = Some (a, s0) ->
        activated header a = Some true -> activated header' a <> Some false) ->
     spec_number s <= spec_number s').
Proof.
  assert (forall s, get_block_spec header = Some s <-> _) as Hspec
    by (intros s; rewrite get_block_spec_latest; apply latest_fork_spec).
  split_and!; [exact Hspec| |].
  - unfold get_block_spec, terminal_total_difficulty, u256_saturating_sub.
    destruct (Z.leb_spec 1710338135 (hd_timestamp header)); [split; [done|lia]|].
    destruct (Z.leb_spec 1681338455 (hd_timestamp header)); [split; [done|lia]|].
    destruct (hd_total_difficulty header) as [total|]; simpl; [|by split; auto].
    destruct (Z.leb_spec 58750000000000000000000 (Z.max 0 (total - hd_difficulty header))).
    + split; [done|]. intros (_ & [?|(_ & t & [= <-] & ?)]); [done|lia].
    + destruct (hd_number header); simpl.
      * split; [done|]. by intros (_ & [?|(? & _)]).
      * split; [|done]. intros _. split; [done|]. right. split; [done|].
        exists total. split; [done|lia].
  - intros header' s s' (k & a & Hk & Hs & _)%Hspec Hs' Hle.
    rewrite get_block_spec_latest in Hs'.
    apply latest_fork_spec in Hs' as (k' & a' & Hk' & _ & Hl).
    eapply schedule_order; [done|done|]. destruct (decide (k <= k')); [done|].
    destruct (Hle _ _ _ Hk Hs). eapply Hl; [|done]. lia.
Qed.

(** A block of the London era and one after the merge. *)
Definition sample_header (number timestamp total : Z) : Header :=
  {| hd_number := Some number; hd_timestamp := timestamp; hd_miner := 9; hd_gas_limit := 30000000;
     hd_gas_used := 15000000; hd_base_fee_per_gas := Some 7%Z; hd_difficulty := 0;
     hd_total_difficulty := Some total; hd_mix_hash := None; hd_excess_blob_gas := None |}.

Lemma block_spec_latest_witness :
  get_block_spec (sample_header 13000000 1629000000 0) = Some LONDON /\
  spec_number LONDON <= spec_number SHANGHAI.
Proof.
  assert (get_block_spec (sample_header 13000000 1629000000 0) = Some LONDON) as Hs
    by reflexivity.
  split; [exact Hs|].
  apply (proj2 (proj2 (block_spec_latest (sample_header 13000000 1629000000 0)))
    (sample_header 17000000 1690000000 (58750 * 10 ^ 18))); [exact Hs|reflexivity|].
  intros k a s0 Hk. do 12 (destruct k as [|k]; [injection Hk as <- _; vm_compute; congruence|]).
  discriminate.
Defined.

(** C38. Parsing a transaction: it panics exactly when the gas limit fits and the
    type is missing; otherwise it fails exactly for a gas limit over 64 bits, a
    legacy or access-list transaction without a gas price, a dynamic-fee or blob
    transaction without a maximal fee, or an unknown type, in this order; and a
    parsed transaction keeps the sender, recipient, value, data, nonce and gas
    limit, with the gas price of its type. *)
Theorem get_tx_env_spec tx :
  match get_tx_env tx with
  | Fault f => f = UnwrapFailed /\ (tx_gas tx < 2 ^ 64)%Z /\ tx_transaction_type tx = None
  | Val (Err OverflowedGasLimit) => (2 ^ 64 <= tx_gas tx)%Z
  | Val (Err MissingGasPrice) =>
      (tx_gas tx < 2 ^ 64)%Z /\ tx_gas_price tx = None /\
      (tx_transaction_type tx = Some 0%Z \/ tx_transaction_type tx = Some 1%Z)
  | Val (Err MissingMaxFeePerGas) =>
      (tx_gas tx < 2 ^ 64)%Z /\ tx_max_fee_per_gas tx = None /\
      (tx_transaction_type tx = Some 2%Z \/ tx_transaction_type tx = Some 3%Z)
  | Val (Err (InvalidType ty)) =>
      (tx_gas tx < 2 ^ 64)%Z /\ tx_transaction_type tx = Some ty /\ ~ (0 <= ty <= 3)%Z
  | Val (Ok env) =>
      te_gas_limit env = tx_gas tx /\ (tx_gas tx < 2 ^ 64)%Z /\
      te_caller env = tx_from tx /\ te_value env = tx_value tx /\ te_data env = tx_input tx /\
      te_nonce env = Some (tx_nonce tx) /\
      (forall a, te_transact_to env = Call a <-> tx_to tx = Some a) /\
      ((tx_transaction_type tx = Some 0%Z \/ tx_transaction_type tx = Some 1%Z) /\
         tx_gas_price tx = Some (te_gas_price env) \/
       (tx_transaction_type tx = Some 2%Z \/ tx_transaction_type tx = Some 3%Z) /\
         tx_max_fee_per_gas tx = Some (te_gas_price env))
  end.
Proof.
  unfold get_tx_env, get_gas_price. destruct (2 ^ 64 <=? tx_gas tx)%Z eqn:Hg; [simpl; lia|].
  apply Z.leb_gt in Hg. destruct (tx_transaction_type tx) as [ty|]; [|done]. simpl.
  assert (forall a, match tx_to tx with Some address => Call address | None => Create end = Call a
    <-> tx_to tx = Some a) as Hto by (intros a; destruct (tx_to tx); naive_solver).
  destruct (ty =? 0)%Z eqn:E0, (ty =? 1)%Z eqn:E1, (ty =? 2)%Z eqn:E2, (ty =? 3)%Z eqn:E3;
    rewrite ?Z.eqb_eq, ?Z.eqb_neq in *; subst; try lia; simpl;
    [destruct (tx_gas_price tx)|destruct (tx_gas_price tx)|destruct (tx_max_fee_per_gas tx)
    |destruct (tx_max_fee_per_gas tx)|]; simpl; split_and!; auto; lia.
Qed.
