(* ===== verification/Pevm.v ===== *)
(** * Pevm: executing a block ([src/pevm.rs])

    The entry points: sequential execution, the collection of the parallel
    results with the evaluation of lazily updated accounts, parallel execution
    over the thread pool of [Workers], and the choice between them for an Alloy
    block. *)

From stdpp Require Import base list gmap strings.
From Stdlib Require Import ZArith Lia.
From S2P Require Import Prelude Types MvMemory Scheduler SchedulerInv Revm Storage Sample.
From S2P Require Import Vm Workers WorkersInv WorkersCorrect VmCorrect Preprocess Primitives.

Inductive PevmError : Type :=
| UnknownBlockSpec
| MissingHeaderData
| MissingTransactionData
| InvalidTransactionError (err : TransactionParsingError)
| ExecutionErrorMsg (msg : string)
| UnreachableError.

Abbreviation PevmResult := (result (list PevmTxExecutionResult) PevmError) (only parsing).

(** [execution_result.receipt.cumulative_gas_used = gas] *)
Definition with_cumulative_gas (gas : Z) (r : PevmTxExecutionResult) : PevmTxExecutionResult :=
  {| receipt := {| rc_status := rc_status (receipt r); rc_cumulative_gas_used := gas;
                   rc_logs := rc_logs (receipt r) |};
     state := state r |}.

Definition with_state (st : gmap Address (option EvmAccount)) (r : PevmTxExecutionResult)
  : PevmTxExecutionResult := {| receipt := receipt r; state := st |}.

(** revm's [CacheDB] over a storage, and how errors are printed. *)
Class CacheDb (S : Type) `{Storage S} : Type := {
  cdb : Type;
  cdb_new : S -> cdb;
  cdb_commit : list (Address * Account) -> cdb -> cdb;
  cdb_run : forall R, DbProg Error R -> cdb -> R * cdb;
  debug_error : EVMError Error -> string;
  debug_execution_error : ExecutionError -> string;
}.

Section pevm.
Context `{Revm} {S : Type} `{Storage S} `{!CacheDb S}.

(** ** Sequential execution *)

(** The loop over the transactions. *)
Fixpoint sequential_loop (chain : u64) (spec_id : SpecId) (block_env : BlockEnv)
  (txs : list TxEnv) (cumulative_gas_used : Z) (results : list PevmTxExecutionResult)
  (db : cdb) : outcome PevmResult :=
  match txs with
  | [] => Val (Ok results)
  | tx :: txs =>
      match cdb_run _ (execute_tx chain spec_id block_env tx true) db with
      | (Ok result_and_state, db) =>
          let db := cdb_commit (ras_state result_and_state) db in
          execution_result ← from_revm spec_id result_and_state;
          let cumulative_gas_used :=
            u128_add cumulative_gas_used (rc_cumulative_gas_used (receipt execution_result)) in
          sequential_loop chain spec_id block_env txs cumulative_gas_used
            (results ++ [with_cumulative_gas cumulative_gas_used execution_result]) db
      | (Err err, _) => Val (Err (ExecutionErrorMsg (debug_error err)))
      end
  end.

Definition execute_revm_sequential (storage : S) (chain : u64) (spec_id : SpecId)
  (block_env : BlockEnv) (txs : list TxEnv) : outcome PevmResult :=
  sequential_loop chain spec_id block_env txs 0 [] (cdb_new storage).

(** ** The results of a parallel execution *)

(** The recipients of raw transfers. *)
Fixpoint lazy_to_addresses (storage : S) (txs : list TxEnv) : outcome (gset Address) :=
  match txs with
  | [] => Val ∅
  | tx :: txs =>
      here ← match te_transact_to tx with
             | Call to_address =>
                 if negb (to_address =? te_caller tx)%Z then
                   match is_contract storage to_address with
                   | Ok b => Val (if b then (∅ : gset Address) else {[to_address]})
                   | Err _ => Fault UnwrapFailed
                   end
                 else Val ∅
             | Create => Val ∅
             end;
      rest ← lazy_to_addresses storage txs;
      Val (here ∪ rest)
  end.

Fixpoint collect_results (cumulative_gas_used : Z) (rs : list (option PevmTxExecutionResult))
  : outcome (list PevmTxExecutionResult) :=
  match rs with
  | [] => Val []
  | None :: _ => Fault UnwrapFailed
  | Some r :: rs =>
      let cumulative_gas_used :=
        u128_add cumulative_gas_used (rc_cumulative_gas_used (receipt r)) in
      rest ← collect_results cumulative_gas_used rs;
      Val (with_cumulative_gas cumulative_gas_used r :: rest)
  end.

(** [current_account] after one entry of its history. *)
Definition evaluate_entry (current_account : AccountBasic) (memory_entry : MemoryEntry)
  : outcome AccountBasic :=
  match memory_entry with
  | Data _ (ValBasic info) =>
      Val {| ab_balance := info_balance info; ab_nonce := info_nonce info;
             ab_code := ab_code current_account;
             ab_code_hash := ab_code_hash current_account |}
  | Data _ (ValLazyBalanceAddition addition) =>
      Val {| ab_balance := u256_add (ab_balance current_account) addition;
             ab_nonce := ab_nonce current_account;
             ab_code := ab_code current_account;
             ab_code_hash := ab_code_hash current_account |}
  | _ => Fault Unreachable
  end.

(** What the transaction's result says about the account. *)
Definition evaluated_account (current_account : AccountBasic) (account : option EvmAccount)
  : option EvmAccount :=
  if AccountBasic_is_empty current_account then None
  else match account with
       | Some account =>
           Some {| ea_basic := {| ab_balance := ab_balance current_account;
                                  ab_nonce := ab_nonce current_account;
                                  ab_code := ab_code (ea_basic account);
                                  ab_code_hash := ab_code_hash (ea_basic account) |};
                   ea_storage := ea_storage account |}
       | None => Some {| ea_basic := current_account; ea_storage := ∅ |}
       end.

Definition update_result (address : Address) (current_account : AccountBasic)
  (r : PevmTxExecutionResult) : PevmTxExecutionResult :=
  with_state (<[address := evaluated_account current_account
                             (default None (state r !! address))]> (state r)) r.

(** The loop over the write history of one account. *)
Fixpoint evaluate_history (address : Address) (current_account : AccountBasic)
  (write_history : list (TxIdx * MemoryEntry)) (results : list PevmTxExecutionResult)
  : outcome (list PevmTxExecutionResult) :=
  match write_history with
  | [] => Val results
  | (tx_idx, memory_entry) :: write_history =>
      current_account ← evaluate_entry current_account memory_entry;
      tx_result ← vec_get results tx_idx;
      evaluate_history address current_account write_history
        (<[tx_idx := update_result address current_account tx_result]> results)
  end.

(** The account before the block, or an empty one. *)
Definition initial_account (storage : S) (address : Address) : AccountBasic :=
  match Storage.basic storage address with
  | Ok (Some account) => account
  | _ => AccountBasic_default
  end.

(** The loop over the lazily updated addresses. *)
Fixpoint evaluate_addresses (hasher : MemoryLocation -> MemoryLocationHash) (storage : S)
  (addresses : list Address) (mv : MvMemory) (results : list PevmTxExecutionResult)
  : outcome (list PevmTxExecutionResult) :=
  match addresses with
  | [] => Val results
  | address :: addresses =>
      match consume_location (hasher (LocBasic address)) mv with
      | (Some write_history, mv) =>
          results ← evaluate_history address (initial_account storage address)
                      (btree_iter write_history) results;
          evaluate_addresses hasher storage addresses mv results
      | (None, mv) => evaluate_addresses hasher storage addresses mv results
      end
  end.

(** From the end of the thread scope on. *)
Definition finish_block (hasher : MemoryLocation -> MemoryLocationHash) (storage : S)
  (lazy_to : gset Address) (beneficiary_address : Address) (sh : Shared)
  : outcome PevmResult :=
  match execution_error sh with
  | Some err => Val (Err (ExecutionErrorMsg (debug_execution_error err)))
  | None =>
      fully_evaluated_results ← collect_results 0 (execution_results sh);
      fully_evaluated_results ←
        evaluate_addresses hasher storage (elements lazy_to ++ [beneficiary_address])
                           (sh_memory sh) fully_evaluated_results;
      Val (Ok fully_evaluated_results)
  end.

(** ** Parallel execution *)

(** Everything that [execute_revm] prepares before it starts its threads. *)
Record Setup : Type := {
  su_vm : Vm S;
  su_lazy_to : gset Address;
  su_scheduler : Scheduler;
  su_threads : nat;
}.

Definition setup (hasher : MemoryLocation -> MemoryLocationHash) (storage : S) (chain : u64)
  (spec_id : SpecId) (block_env : BlockEnv) (txs : list TxEnv) (concurrency_level : nat)
  : outcome (option Setup) :=
  r ← preprocess_dependencies (be_coinbase block_env) txs;
  match r with
  | None => Val None
  | Some (scheduler, max_concurrency_level) =>
      lazy_to ← lazy_to_addresses storage txs;
      Val (Some {| su_vm := Vm.new hasher storage chain spec_id block_env txs;
                   su_lazy_to := lazy_to;
                   su_scheduler := scheduler;
                   su_threads := Nat.min concurrency_level max_concurrency_level |})
  end.

(** The pool that the thread scope starts. *)
Definition setup_pool (su : Setup) (txs : list TxEnv) : Pool (H := vm_ops (su_vm su)) :=
  let n := length txs in
  start_pool (H := vm_ops (su_vm su)) (su_scheduler su)
    (initial_memory n (vm_beneficiary_location_hash (su_vm su))) n (su_threads su).

(** The outcomes of [execute_revm]: threads interleave freely, and the hasher is
    random, so it is a relation. *)
Inductive execute_revm (hasher : MemoryLocation -> MemoryLocationHash) (storage : S)
  (chain : u64) (spec_id : SpecId) (block_env : BlockEnv) (txs : list TxEnv)
  (concurrency_level : nat) : outcome PevmResult -> Prop :=
| er_empty :
    txs = [] ->
    execute_revm hasher storage chain spec_id block_env txs concurrency_level (Val (Ok []))
| er_setup_panic f :
    txs <> [] ->
    setup hasher storage chain spec_id block_env txs concurrency_level = Fault f ->
    execute_revm hasher storage chain spec_id block_env txs concurrency_level (Fault f)
| er_sequential :
    txs <> [] ->
    setup hasher storage chain spec_id block_env txs concurrency_level = Val None ->
    execute_revm hasher storage chain spec_id block_env txs concurrency_level
      (execute_revm_sequential storage chain spec_id block_env txs)
| er_parallel su p :
    txs <> [] ->
    setup hasher storage chain spec_id block_env txs concurrency_level = Val (Some su) ->
    rtc (pool_step (H := vm_ops (su_vm su))) (setup_pool su txs) p ->
    all_done p = true ->
    execute_revm hasher storage chain spec_id block_env txs concurrency_level
      (finish_block hasher storage (su_lazy_to su) (be_coinbase block_env) (pl_shared p))
| er_thread_panic su p t f :
    txs <> [] ->
    setup hasher storage chain spec_id block_env txs concurrency_level = Val (Some su) ->
    rtc (pool_step (H := vm_ops (su_vm su))) (setup_pool su txs) p ->
    all_ended p = true -> pl_workers p !! t = Some (WPanicked f) ->
    execute_revm hasher storage chain spec_id block_env txs concurrency_level (Fault f).

(** ** Executing an Alloy block *)

Inductive BlockTransactions : Type :=
| Full (txs : list Transaction)
| Hashes (hashes : list B256)
| Uncle.

Record Block : Type := {
  bk_header : Header;
  bk_transactions : BlockTransactions;
}.

(** [collect::<Result<Vec<_>, _>>()] stops at the first error. *)
Fixpoint get_tx_envs (txs : list Transaction)
  : outcome (result (list TxEnv) TransactionParsingError) :=
  match txs with
  | [] => Val (Ok [])
  | tx :: txs =>
      r ← get_tx_env tx;
      match r with
      | Err e => Val (Err e)
      | Ok env =>
          rest ← get_tx_envs txs;
          Val (match rest with Err e => Err e | Ok envs => Ok (env :: envs) end)
      end
  end.

(** What [execute] does with the block: fail, run sequentially or in parallel. *)
Inductive Plan : Type :=
| PlanError (err : PevmError)
| PlanSequential (spec_id : SpecId) (block_env : BlockEnv) (txs : list TxEnv)
| PlanParallel (spec_id : SpecId) (block_env : BlockEnv) (txs : list TxEnv).

Definition plan (block : Block) (force_sequential : bool) : outcome Plan :=
  match get_block_spec (bk_header block) with
  | None => Val (PlanError UnknownBlockSpec)
  | Some spec_id =>
      match get_block_env (bk_header block) with
      | None => Val (PlanError MissingHeaderData)
      | Some block_env =>
          match bk_transactions block with
          | Full txs =>
              r ← get_tx_envs txs;
              Val (match r with
                   | Err e => PlanError (InvalidTransactionError e)
                   | Ok tx_envs =>
                       if force_sequential || (length tx_envs <? 4)
                          || (hd_gas_used (bk_header block) <=? 650000)%Z
                       then PlanSequential spec_id block_env tx_envs
                       else PlanParallel spec_id block_env tx_envs
                   end)
          | _ => Val (PlanError MissingTransactionData)
          end
      end
  end.

Definition execute (hasher : MemoryLocation -> MemoryLocationHash) (storage : S) (chain : u64)
  (block : Block) (concurrency_level : nat) (force_sequential : bool)
  (o : outcome PevmResult) : Prop :=
  match plan block force_sequential with
  | Fault f => o = Fault f
  | Val (PlanError err) => o = Val (Err err)
  | Val (PlanSequential spec_id block_env txs) =>
      o = execute_revm_sequential storage chain spec_id block_env txs
  | Val (PlanParallel spec_id block_env txs) =>
      execute_revm hasher storage chain spec_id block_env txs concurrency_level o
  end.
(** ** Lemmas on the collection of results *)

(** The gas used up to and including transaction [i]. *)
Definition gas_up_to (start : Z) (rs : list PevmTxExecutionResult) (i : nat) : Z :=
  foldl (fun gas r => u128_add gas (rc_cumulative_gas_used (receipt r))) start (take (i + 1) rs).

(** Same receipt but for the cumulative gas. *)
Definition receipt_kept (gas : Z) (r r' : PevmTxExecutionResult) : Prop :=
  rc_status (receipt r') = rc_status (receipt r) /\ rc_logs (receipt r') = rc_logs (receipt r) /\
  rc_cumulative_gas_used (receipt r') = gas.

Lemma collect_results_run start rs :
  exists out, collect_results start (map Some rs) = Val out /\ length out = length rs /\
    forall i r, rs !! i = Some r ->
      exists r', out !! i = Some r' /\ state r' = state r /\
                 receipt_kept (gas_up_to start rs i) r r'.
Proof.
  revert start. induction rs as [|r rs IH]; intros start; simpl; [by exists []|].
  destruct (IH (u128_add start (rc_cumulative_gas_used (receipt r)))) as (out & -> & Hl & Hout).
  simpl. eexists. split; [done|]. split; [simpl; lia|].
  intros [|i] r0; simpl; [|by apply Hout]. intros [= <-]. eexists. by split_and!.
Qed.

(** An entry that the evaluation of an account accepts. *)
Definition evaluable (e : MemoryEntry) : Prop :=
  match e with Data _ (ValBasic _) | Data _ (ValLazyBalanceAddition _) => True | _ => False end.

(** The same number of results, with the same receipts. *)
Definition same_receipts : relation (list PevmTxExecutionResult) :=
  Forall2 (fun r r' => receipt r' = receipt r).

#[local] Instance same_receipts_preorder : PreOrder same_receipts.
Proof.
  unfold same_receipts.
  assert (PreOrder (fun r r' : PevmTxExecutionResult => receipt r' = receipt r)) as Hpre.
  { split; [done|]. intros r1 r2 r3 ? ?. congruence. }
  apply _.
Qed.

Lemma evaluate_history_run address current history results :
  (forall k e, (k, e) ∈ history -> k < length results /\ evaluable e) ->
  exists out, evaluate_history address current history results = Val out /\
              same_receipts results out.
Proof.
  revert current results. induction history as [|[k e] history IH]; intros current results Hh; simpl.
  - by exists results.
  - destruct (Hh k e) as [Hk He]; [set_solver|].
    assert (exists current', evaluate_entry current e = Val current') as [current' ->]
      by (destruct e as [? []|]; simpl in *; eauto; done).
    destruct (lookup_lt_is_Some_2 _ _ Hk) as [r Hr]. simpl.
    rewrite (vec_get_Some _ _ _ Hr). simpl.
    assert (same_receipts results (<[k := update_result address current' r]> results)) as Hsame.
    { rewrite <-(list_insert_id results k r Hr) at 1. by apply Forall2_insert. }
    destruct (IH current' (<[k := update_result address current' r]> results))
      as (out & Hrun & Hout).
    { intros k' e' Hin. rewrite length_insert. apply Hh. set_solver. }
    exists out. split; [done|]. by etransitivity.
Qed.

Lemma evaluate_addresses_run hasher storage addresses mv results :
  (forall address k e, entry_at (mv_data mv) (hasher (LocBasic address)) k = Some e ->
     k < length results /\ evaluable e) ->
  exists out, evaluate_addresses hasher storage addresses mv results = Val out /\
              same_receipts results out.
Proof.
  revert mv results. induction addresses as [|address addresses IH]; intros mv results Hmv; simpl.
  - by exists results.
  - set (mv' := {| mv_data := _; mv_last_locations := _ |}).
    assert (forall a k e, entry_at (mv_data mv') (hasher (LocBasic a)) k = Some e ->
      k < length results /\ evaluable e) as Hmv'.
    { intros a k e He. apply (Hmv a). revert He. unfold entry_at. simpl.
      destruct (decide (hasher (LocBasic address) = hasher (LocBasic a))) as [->|];
        [by rewrite lookup_delete_eq|by rewrite lookup_delete_ne]. }
    destruct (mv_data mv !! hasher (LocBasic address)) as [tree|] eqn:Ht; [|by apply IH].
    destruct (evaluate_history_run address (initial_account storage address) (btree_iter tree)
      results) as (out & -> & Hout).
    { intros k e Hin%elem_of_btree_iter. apply (Hmv address). unfold entry_at. by rewrite Ht. }
    simpl. destruct (IH mv' out) as (out' & ? & ?).
    { intros a k e. rewrite <-(Forall2_length _ _ _ Hout). apply Hmv'. }
    exists out'. split; [done|]. by etransitivity.
Qed.
(** What [setup] prepares. *)
Lemma setup_run hasher storage chain spec_id block_env txs level su :
  setup hasher storage chain spec_id block_env txs level = Val (Some su) ->
  su_vm su = Vm.new hasher storage chain spec_id block_env txs /\
  exists c, 2 <= c /\ su_threads su = Nat.min level c /\
  exists st dependents deps,
    su_scheduler su = Scheduler.new (length txs) st dependents deps /\
    initial_wf (length txs) st dependents deps.
Proof.
  unfold setup. destruct (preprocess_dependencies _ _) as [[[s c]|]|] eqn:Hp; try done. simpl.
  destruct (lazy_to_addresses _ _); [|done]. intros [= <-]. simpl.
  destruct (preprocess_wf _ _ _ _ Hp) as (Hc & st & dependents & deps & Hs & Hwf).
  split; [done|]. exists c. split_and!; [done|done|]. eauto 10.
Qed.

Lemma setup_lazy_to hasher storage chain spec_id block_env txs level su :
  setup hasher storage chain spec_id block_env txs level = Val (Some su) ->
  lazy_to_addresses storage txs = Val (su_lazy_to su).
Proof.
  unfold setup. destruct (preprocess_dependencies _ _) as [[[s c]|]|]; try done. simpl.
  destruct (lazy_to_addresses _ _); [|done]. by intros [= <-].
Qed.

(** The results that are all there. *)
Lemma all_results (rs : list (option PevmTxExecutionResult)) n :
  length rs = n -> (forall i, i < n -> exists r, rs !! i = Some (Some r)) ->
  exists rs', rs = map Some rs' /\ length rs' = n.
Proof.
  revert n. induction rs as [|r rs IH]; intros n Hl Hall; simpl in Hl; subst.
  - by exists [].
  - destruct (IH (length rs) eq_refl) as (rs' & -> & Hl).
    { intros i Hi. apply (Hall (Datatypes.S i)). lia. }
    destruct (Hall 0) as [r' Hr']; [lia|]. simplify_eq/=. exists (r' :: rs'). simpl.
    by rewrite length_map.
Qed.

(** ** Lemmas on lazy evaluation *)

(** The account after the entries of its history, oldest first. *)
Fixpoint evaluate_entries (current_account : AccountBasic) (entries : list (TxIdx * MemoryEntry))
  : outcome AccountBasic :=
  match entries with
  | [] => Val current_account
  | (_, e) :: entries =>
      current_account ← evaluate_entry current_account e;
      evaluate_entries current_account entries
  end.

Lemma evaluate_entries_snoc c entries k e :
  evaluate_entries c (entries ++ [(k, e)]) =
  c' ← evaluate_entries c entries; evaluate_entry c' e.
Proof.
  revert c. induction entries as [|[k' e'] entries IH]; intros c; simpl.
  - by destruct (evaluate_entry c e).
  - destruct (evaluate_entry c e'); simpl; [apply IH|done].
Qed.

(** Reading backwards and evaluating forwards the same history. *)
Lemma lazy_evaluation_loop (tree : gmap TxIdx MemoryEntry) resch need c0 i cur bal org :
  (forall k e, k < i -> tree !! k = Some e -> evaluable e) ->
  (need = true -> cur = i /\ forall k, k < i -> is_Some (tree !! k)) ->
  exists acc bal' org' c,
    evaluate_lazy resch need [] (range_rev tree i) cur bal org = Ok (acc, bal', org') /\
    evaluate_entries c0 (reverse (range_rev tree i)) = Val c /\
    match acc with
    | Some info => info_balance info = u256_add (ab_balance c) bal /\ info_nonce info = ab_nonce c
    | None => u256_add (ab_balance c) bal = u256_add (ab_balance c0) bal' /\
              ab_nonce c = ab_nonce c0 /\ (in_width 256 bal -> in_width 256 bal')
    end.
Proof.
  revert cur bal org. induction i as [|j IH]; intros cur bal org Hev Hneed; simpl.
  - assert (need && (0 <? cur) = false) as ->.
    { destruct need; [|done]. by destruct (Hneed eq_refl) as [-> _]. }
    by eexists None, bal, org, c0.
  - assert (forall k e, k < j -> tree !! k = Some e -> evaluable e) as Hev'
      by (intros k e Hk; apply Hev; lia).
    destruct (tree !! j) as [e|] eqn:Hj.
    + assert (evaluable e) as He by (by eapply Hev; [|done]; lia).
      assert (need && negb (j =? cur - 1) = false) as Hn.
      { destruct need; [|done]. destruct (Hneed eq_refl) as [-> _]. simpl.
        by rewrite Nat.sub_0_r, Nat.eqb_refl. }
      rewrite reverse_cons, evaluate_entries_snoc.
      destruct e as [inc [info|addition|]|]; try done; simpl; rewrite Hn.
      * destruct (IH j bal org Hev') as (_ & _ & _ & c & _ & -> & _).
        { intros E. destruct (Hneed E) as [_ Hall]. split; [done|]. intros k Hk. apply Hall. lia. }
        simpl. eexists (Some _), _, _, _. by split_and!.
      * destruct (IH j (u256_add bal addition)
          (org ++ [OriginMvMemory {| tx_idx := j; tx_incarnation := inc |}]) Hev')
          as (acc & bal' & org' & c & Hlazy & -> & Hacc).
        { intros E. destruct (Hneed E) as [_ Hall]. split; [done|]. intros k Hk. apply Hall. lia. }
        simpl. eexists acc, bal', org', _. split_and!; [done|done|]. simpl.
        assert (u256_add (u256_add (ab_balance c) addition) bal =
                u256_add (ab_balance c) (u256_add bal addition)) as ->.
        { by rewrite (u256_add_comm bal), u256_add_assoc. }
        destruct acc; [done|]. destruct Hacc as (? & ? & Hw). split_and!; auto with pevm.
    + destruct need.
      * destruct (Hneed eq_refl) as [_ Hall]. destruct (Hall j) as [? ?]; [lia|]. congruence.
      * by apply IH.
Qed.

(** ** The final state of lazily updated accounts *)

Lemma evaluate_history_snoc address c history k e results out :
  evaluate_history address c (history ++ [(k, e)]) results = Val out ->
  exists c1 r out1,
    evaluate_entries c (history ++ [(k, e)]) = Val c1 /\
    evaluate_history address c history results = Val out1 /\
    out1 !! k = Some r /\ out = <[k := update_result address c1 r]> out1.
Proof.
  revert c results. induction history as [|[k0 e0] history IH]; intros c results; simpl.
  - destruct (evaluate_entry c e) as [c1|]; simpl; [|done].
    destruct (vec_get results k) as [r|] eqn:Hr; simpl; [|done]. intros [= <-].
    exists c1, r, results. split_and!; try done. by apply vec_get_Val.
  - destruct (evaluate_entry c e0) as [c0|]; simpl; [|done].
    destruct (vec_get results k0) as [r0|]; simpl; [|done]. apply IH.
Qed.

(** What the evaluation of one account turns the account into that the result of
    transaction [k] has, if any. *)
Definition evaluated_at (c0 : AccountBasic) (tree : gmap TxIdx MemoryEntry) (k : TxIdx)
  (o o' : option (option EvmAccount)) : Prop :=
  match tree !! k with
  | Some _ => exists c, evaluate_entries c0 (reverse (range_rev tree (Datatypes.S k))) = Val c /\
      o' = Some (evaluated_account c (default None o))
  | None => o' = o
  end.

(** The account evaluated and no other. *)
Definition only_evaluated (address : Address) (c0 : AccountBasic)
  (tree : gmap TxIdx MemoryEntry) (k : TxIdx) (r r' : PevmTxExecutionResult) : Prop :=
  evaluated_at c0 tree k (state r !! address) (state r' !! address) /\
  forall a, a <> address -> state r' !! a = state r !! a.

Lemma evaluate_history_range address c0 tree i results out :
  evaluate_history address c0 (reverse (range_rev tree i)) results = Val out ->
  length out = length results /\
  forall k r r', results !! k = Some r -> out !! k = Some r' ->
    if k <? i then only_evaluated address c0 tree k r r' else r' = r.
Proof.
  revert out. induction i as [|j IH]; intros out; simpl.
  { intros [= <-]. split; [done|]. intros k r r' ? ?. simpl. congruence. }
  destruct (tree !! j) as [e|] eqn:Hj.
  - rewrite reverse_cons. intros (c1 & r1 & out1 & Hc & Hout1 & Hr1 & ->)%evaluate_history_snoc.
    destruct (IH _ Hout1) as [Hlen Hk]. rewrite length_insert. split; [done|].
    intros k r r' Hr Hr'. destruct (decide (k = j)) as [->|Hkj].
    + rewrite list_lookup_insert_eq in Hr' by (by eapply lookup_lt_Some). injection Hr' as <-.
      specialize (Hk j r r1 Hr Hr1). rewrite Nat.ltb_irrefl in Hk. subst r1.
      rewrite (proj2 (Nat.ltb_lt j (Datatypes.S j))) by lia.
      split; simpl; [|intros a Ha; by rewrite lookup_insert_ne].
      unfold evaluated_at. rewrite Hj. exists c1. simpl.
      by rewrite Hj, reverse_cons, lookup_insert_eq.
    + rewrite list_lookup_insert_ne in Hr' by done. specialize (Hk k r r' Hr Hr').
      destruct (Nat.ltb_spec k j), (Nat.ltb_spec k (Datatypes.S j)); try lia; done.
  - intros Hout. destruct (IH _ Hout) as [Hlen Hk]. split; [done|].
    intros k r r' Hr Hr'. specialize (Hk k r r' Hr Hr').
    destruct (Nat.ltb_spec k j), (Nat.ltb_spec k (Datatypes.S j)); try lia; try done.
    assert (k = j) as -> by lia. subst r'. split; [|done]. unfold evaluated_at. by rewrite Hj.
Qed.

Lemma evaluate_history_tree address c0 tree results out k r r' :
  evaluate_history address c0 (btree_iter tree) results = Val out ->
  results !! k = Some r -> out !! k = Some r' -> only_evaluated address c0 tree k r r'.
Proof.
  intros [_ Hk]%evaluate_history_range Hr Hr'. specialize (Hk k r r' Hr Hr').
  destruct (Nat.ltb_spec k (key_bound tree)) as [|Hge]; [done|]. subst r'.
  split; [|done]. unfold evaluated_at. destruct (tree !! k) eqn:He; [|done].
  assert (k < key_bound tree) by (apply key_bound_spec; eauto). lia.
Qed.

(** The same for an account that may have no history. *)
Definition maybe_evaluated (storage : S) (tree : option (gmap TxIdx MemoryEntry))
  (a : Address) (k : TxIdx) (r r' : PevmTxExecutionResult) : Prop :=
  match tree with
  | Some tree =>
      evaluated_at (initial_account storage a) tree k (state r !! a) (state r' !! a)
  | None => state r' !! a = state r !! a
  end.

Lemma evaluate_addresses_state hasher storage addresses mv results out :
  (forall a b, a ∈ addresses -> b ∈ addresses ->
     hasher (LocBasic a) = hasher (LocBasic b) -> a = b) ->
  evaluate_addresses hasher storage addresses mv results = Val out ->
  length out = length results /\
  forall k r r' a, results !! k = Some r -> out !! k = Some r' ->
    maybe_evaluated storage
      (if bool_decide (a ∈ addresses) then mv_data mv !! hasher (LocBasic a) else None)
      a k r r'.
Proof.
  revert mv results. induction addresses as [|b addresses IH]; intros mv results Hinj; simpl.
  { intros [= <-]. split; [done|]. intros k r r' a ? ?. simplify_eq. done. }
  set (mv' := {| mv_data := _; mv_last_locations := _ |}).
  assert (forall a, (if bool_decide (a ∈ addresses)
                     then mv_data mv' !! hasher (LocBasic a) else None) =
    if bool_decide (a = b) then None
    else if bool_decide (a ∈ b :: addresses) then mv_data mv !! hasher (LocBasic a) else None)
    as Hrest.
  { intros a. simpl. destruct (decide (a = b)) as [->|Hab].
    - rewrite (bool_decide_true (b = b)), lookup_delete_eq by done. by destruct (bool_decide _).
    - rewrite (bool_decide_false (a = b)) by done.
      rewrite (bool_decide_ext (a ∈ b :: addresses) (a ∈ addresses)) by set_solver.
      case_bool_decide as Ha; [|done]. apply lookup_delete_ne. intros E. apply Hab.
      apply Hinj; [set_solver|set_solver|done]. }
  destruct (mv_data mv !! hasher (LocBasic b)) as [tree|] eqn:Ht.
  - destruct (evaluate_history _ _ _ _) as [results1|] eqn:Hh; simpl; [|done]. intros Hout.
    destruct (IH mv' results1) as [Hlen Hk]; [set_solver|done|].
    destruct (evaluate_history_range _ _ _ _ _ _ Hh) as [Hlen1 _].
    split; [congruence|]. intros k r r' a Hr Hr'.
    destruct (lookup_lt_is_Some_2 results1 k) as [r1 Hr1].
    { rewrite Hlen1. by eapply lookup_lt_Some. }
    destruct (evaluate_history_tree _ _ _ _ _ _ _ _ Hh Hr Hr1) as [Hb Hne].
    specialize (Hk k r1 r' a Hr1 Hr'). rewrite Hrest in Hk.
    destruct (decide (a = b)) as [->|Hab].
    + rewrite (bool_decide_true (b = b)) in Hk by done. simpl in Hk.
      rewrite bool_decide_true, Ht by set_solver. simpl. by rewrite Hk.
    + rewrite (bool_decide_false (a = b)) in Hk by done.
      unfold maybe_evaluated in *. by rewrite <-(Hne a Hab).
  - intros Hout. destruct (IH mv' results) as [Hlen Hk]; [set_solver|done|].
    split; [done|]. intros k r r' a Hr Hr'. specialize (Hk k r r' a Hr Hr').
    rewrite Hrest in Hk. destruct (decide (a = b)) as [->|Hab].
    + rewrite (bool_decide_true (b = b)) in Hk by done. by destruct (bool_decide _); rewrite ?Ht.
    + by rewrite (bool_decide_false (a = b)) in Hk by done.
Qed.

(** ** What the state of a lazily updated account is *)

(** The balance and the nonce after the writes of a history, oldest first: an
    account replaces them, a lazy addition adds to the balance modulo [2^256]. *)
Fixpoint balance_nonce_after (balance : U256) (nonce : u64) (writes : list (TxIdx * MemoryEntry))
  : U256 * u64 :=
  match writes with
  | [] => (balance, nonce)
  | (_, Data _ (ValBasic info)) :: writes =>
      balance_nonce_after (info_balance info) (info_nonce info) writes
  | (_, Data _ (ValLazyBalanceAddition addition)) :: writes =>
      balance_nonce_after ((balance + addition) mod 2 ^ 256) nonce writes
  | _ :: writes => balance_nonce_after balance nonce writes
  end.

(** What the result of transaction [k] says of an account with the writes
    [tree], before ([o]) and after ([o']) the evaluation, when [stored] is the
    account before the block. *)
Definition fully_evaluated (stored : option AccountBasic) (tree : gmap TxIdx MemoryEntry)
  (k : TxIdx) (o o' : option (option EvmAccount)) : Prop :=
  match tree !! k with
  | None => o' = o
  | Some _ =>
      let '(balance, nonce) :=
        balance_nonce_after (default 0%Z (ab_balance <$> stored)) (default 0%Z (ab_nonce <$> stored))
          (reverse (range_rev tree (Datatypes.S k))) in
      let empty := balance = 0%Z /\ nonce = 0%Z /\ (stored ≫= ab_code) = None in
      match o' with
      | None => False
      | Some None => empty
      | Some (Some account) =>
          ~ empty /\
          ab_balance (ea_basic account) = balance /\ ab_nonce (ea_basic account) = nonce /\
          match o with
          | Some (Some reported) =>
              ab_code (ea_basic account) = ab_code (ea_basic reported) /\
              ab_code_hash (ea_basic account) = ab_code_hash (ea_basic reported) /\
              ea_storage account = ea_storage reported
          | _ =>
              ab_code (ea_basic account) = (stored ≫= ab_code) /\
              ab_code_hash (ea_basic account) = (stored ≫= ab_code_hash) /\
              ea_storage account = ∅
          end
      end
  end.

Lemma evaluate_entries_after c entries c' :
  evaluate_entries c entries = Val c' ->
  balance_nonce_after (ab_balance c) (ab_nonce c) entries = (ab_balance c', ab_nonce c') /\
  ab_code c' = ab_code c /\ ab_code_hash c' = ab_code_hash c.
Proof.
  revert c. induction entries as [|[k [inc [info|addition|slot]|]] entries IH]; intros c; simpl;
    try done.
  - by intros [= ->].
  - intros (? & ? & ?)%IH. done.
  - intros (? & ? & ?)%IH. done.
Qed.

Lemma evaluated_at_full storage a tree k o o' :
  evaluated_at (initial_account storage a) tree k o o' ->
  fully_evaluated (match Storage.basic storage a with Ok stored => stored | Err _ => None end)
    tree k o o'.
Proof.
  unfold evaluated_at, fully_evaluated. destruct (tree !! k); [|done].
  intros (c & (Hbn & Hcode & Hhash)%evaluate_entries_after & ->).
  set (stored := match Storage.basic storage a with Ok stored => stored | Err _ => None end).
  assert (ab_balance (initial_account storage a) = default 0%Z (ab_balance <$> stored) /\
    ab_nonce (initial_account storage a) = default 0%Z (ab_nonce <$> stored) /\
    ab_code (initial_account storage a) = (stored ≫= ab_code) /\
    ab_code_hash (initial_account storage a) = (stored ≫= ab_code_hash)) as (Eb & En & Ec & Eh).
  { unfold stored, initial_account. by destruct (Storage.basic storage a) as [[]|]. }
  rewrite <-Eb, <-En, Hbn, <-Ec, <-Eh, <-Hcode, <-Hhash.
  assert (AccountBasic_is_empty c = true <->
    ab_balance c = 0%Z /\ ab_nonce c = 0%Z /\ ab_code c = None) as Hempty.
  { unfold AccountBasic_is_empty. rewrite !andb_true_iff, !Z.eqb_eq, bool_decide_eq_true. tauto. }
  unfold evaluated_account. destruct (AccountBasic_is_empty c); [by apply Hempty|].
  destruct o as [[reported|]|]; simpl; (split; [intros He%Hempty; done|]); done.
Qed.

(** C19. The accounts that a block returns for lazily updated addresses are fully
    evaluated: in the result of transaction [i], an account with an entry of [i]
    in the multi-version memory has the balance and the nonce of the account in
    storage (zero when there is none) after all entries up to [i], oldest first;
    it keeps the code and the slots that the transaction's execution reported, or
    the stored code when it reported none; it is absent exactly when it has no
    balance, nonce or code left; and every other account is as the transaction's
    execution reported it.  It is stated for hashes that do not collide on the
    evaluated addresses. *)
Theorem lazy_accounts_evaluated hasher storage lazy_to beneficiary sh out :
  (forall a b, a ∈ lazy_to ∪ {[beneficiary]} -> b ∈ lazy_to ∪ {[beneficiary]} ->
     hasher (LocBasic a) = hasher (LocBasic b) -> a = b) ->
  finish_block hasher storage lazy_to beneficiary sh = Val (Ok out) ->
  exists rs, collect_results 0 (execution_results sh) = Val rs /\ length out = length rs /\
    forall i r r' a, rs !! i = Some r -> out !! i = Some r' ->
      let stored := match Storage.basic storage a with Ok stored => stored | Err _ => None end in
      fully_evaluated stored
        (if bool_decide (a ∈ lazy_to ∪ {[beneficiary]})
         then default ∅ (mv_data (sh_memory sh) !! hasher (LocBasic a)) else ∅)
        i (state r !! a) (state r' !! a).
Proof.
  intros Hinj. unfold finish_block. destruct (execution_error sh); [done|].
  destruct (collect_results 0 _) as [rs|]; simpl; [|done].
  destruct (evaluate_addresses _ _ _ _ _) as [out'|] eqn:Hout; simpl; [|done]. intros [= <-].
  assert (forall a, a ∈ elements lazy_to ++ [beneficiary] <-> a ∈ lazy_to ∪ {[beneficiary]})
    as Hin by set_solver.
  apply evaluate_addresses_state in Hout as [Hlen Hk];
    [|intros a b; rewrite !Hin; apply Hinj].
  exists rs. split_and!; [done|done|]. intros i r r' a Hr Hr'. specialize (Hk i r r' a Hr Hr').
  rewrite (bool_decide_ext _ _ (Hin a)) in Hk. unfold maybe_evaluated in Hk. simpl.
  case_bool_decide; [destruct (_ !! hasher _) as [tree|]|]; simpl; [by apply evaluated_at_full| |];
    unfold fully_evaluated; by rewrite lookup_empty.
Qed.

(** ** Sequential execution commits one transaction after the other *)

(** Every transaction runs on the database that its predecessors committed to. *)
Inductive committed (chain : u64) (spec_id : SpecId) (block_env : BlockEnv)
  : cdb -> list TxEnv -> list ResultAndState -> cdb -> Prop :=
| committed_nil db : committed chain spec_id block_env db [] [] db
| committed_cons db db1 db2 tx txs r rs :
    cdb_run _ (execute_tx chain spec_id block_env tx true) db = (Ok r, db1) ->
    committed chain spec_id block_env (cdb_commit (ras_state r) db1) txs rs db2 ->
    committed chain spec_id block_env db (tx :: txs) (r :: rs) db2.

(** How a loop that starts with [gas] and [acc] ends. *)
Definition sequential_end (chain : u64) (spec_id : SpecId) (block_env : BlockEnv)
  (txs : list TxEnv) (gas : Z) (acc : list PevmTxExecutionResult)
  (k : nat) (rs : list ResultAndState) (db : cdb) (o : outcome PevmResult) : Prop :=
  match o with
  | Val (Ok out) =>
      k = length txs /\
      exists results out', Forall2 (fun ras r => from_revm spec_id ras = Val r) rs results /\
        collect_results gas (map Some results) = Val out' /\ out = acc ++ out'
  | Val (Err e) =>
      exists tx err db', txs !! k = Some tx /\
        cdb_run _ (execute_tx chain spec_id block_env tx true) db = (Err err, db') /\
        e = ExecutionErrorMsg (debug_error err)
  | Fault f => exists ras, last rs = Some ras /\ from_revm spec_id ras = Fault f
  end.

Lemma sequential_loop_run chain spec_id block_env txs gas acc db :
  exists k rs db', committed chain spec_id block_env db (take k txs) rs db' /\
    sequential_end chain spec_id block_env txs gas acc k rs db'
      (sequential_loop chain spec_id block_env txs gas acc db).
Proof.
  revert gas acc db. induction txs as [|tx txs IH]; intros gas acc db; simpl.
  - exists 0, [], db. split; [constructor|]. split; [done|]. exists [], []. by rewrite app_nil_r.
  - destruct (cdb_run _ _ db) as [[r|err] db1] eqn:Hrun.
    + destruct (from_revm spec_id r) as [x|f] eqn:Hx; simpl.
      * set (gas' := u128_add gas _).
        destruct (IH gas' (acc ++ [with_cumulative_gas gas' x]) (cdb_commit (ras_state r) db1))
          as (k & rs & db' & Hc & Hend).
        exists (Datatypes.S k), (r :: rs), db'. split; [by econstructor|].
        destruct (sequential_loop _ _ _ _ _ _ _) as [[out|e]|f]; simpl in *.
        -- destruct Hend as (-> & results & out' & Hf & Hcol & ->). split; [done|].
           exists (x :: results), (with_cumulative_gas gas' x :: out'). split_and!.
           ++ by constructor.
           ++ simpl. fold gas'. by rewrite Hcol.
           ++ by rewrite <-app_assoc.
        -- done.
        -- destruct Hend as (ras & Hl & ?). exists ras. split; [|done].
           rewrite last_cons. by rewrite Hl.
      * exists 1, [r], (cdb_commit (ras_state r) db1). split; [|by exists r].
        simpl. rewrite take_0. econstructor; [done|constructor].
    + exists 0, [], db. split; [constructor|]. by exists tx, err, db1.
Qed.

(** C28. Sequential execution runs every transaction on the state that its
    predecessors committed.  It returns one result per transaction, in order,
    with the cumulative gas that the collection of parallel results also
    computes; it stops at the first transaction that revm refuses, with that
    error; and it panics only if the state of a committed transaction cannot be
    converted. *)
Theorem sequential_block_correct storage chain spec_id block_env txs :
  exists k rs db, committed chain spec_id block_env (cdb_new storage) (take k txs) rs db /\
    match execute_revm_sequential storage chain spec_id block_env txs with
    | Val (Ok out) =>
        k = length txs /\
        exists results, Forall2 (fun ras r => from_revm spec_id ras = Val r) rs results /\
          collect_results 0 (map Some results) = Val out
    | Val (Err e) =>
        exists tx err db', txs !! k = Some tx /\
          cdb_run _ (execute_tx chain spec_id block_env tx true) db = (Err err, db') /\
          e = ExecutionErrorMsg (debug_error err)
    | Fault f => exists ras, last rs = Some ras /\ from_revm spec_id ras = Fault f
    end.
Proof.
  destruct (sequential_loop_run chain spec_id block_env txs 0 [] (cdb_new storage))
    as (k & rs & db & Hc & Hend).
  exists k, rs, db. split; [done|]. unfold execute_revm_sequential.
  destruct (sequential_loop _ _ _ _ _ _ _) as [[out|e]|f]; simpl in *; [|done|done].
  destruct Hend as (Hk & results & out' & Hf & Hcol & ->). split; [done|]. by exists results.
Qed.

Section parallel.
Context `{!RevmLaws}.

Lemma finished_block_returns hasher storage chain spec_id block_env txs level su
  (p : Pool (H := vm_ops (su_vm su))) :
  (forall a b i, hasher (LocBasic a) <> hasher (LocStorage b i)) ->
  (Z.of_nat (length txs) < 2 ^ 64)%Z -> 0 < level ->
  setup hasher storage chain spec_id block_env txs level = Val (Some su) ->
  rtc (pool_step (H := vm_ops (su_vm su))) (setup_pool su txs) p ->
  all_done p = true -> execution_error (pl_shared p) = None ->
  exists rs out,
    execution_results (pl_shared p) = map Some rs /\ length rs = length txs /\
    finish_block hasher storage (su_lazy_to su) (be_coinbase block_env) (pl_shared p) =
      Val (Ok out) /\
    length out = length txs /\
    forall i r, rs !! i = Some r ->
      exists r', out !! i = Some r' /\ receipt_kept (gas_up_to 0 rs i) r r'.
Proof.
  intros Hdisj Hn Hlevel Hsu Hp Hall He.
  destruct (setup_run _ _ _ _ _ _ _ _ Hsu)
    as (Hvm & c & Hc & Hthreads & st & dependents & deps & Hs & Hwf).
  assert (reachable (H := vm_ops (su_vm su)) (vm_beneficiary_location_hash (su_vm su))
    st dependents deps (su_threads su) p) as Hreach.
  { unfold reachable. rewrite (iw_status _ _ _ _ Hwf), <-Hs. exact Hp. }
  destruct (pool_complete (H := vm_ops (su_vm su)) (n := length txs)
    (lazy := vm_beneficiary_location_hash (su_vm su)) (VmContract0 := vm_contract (su_vm su) _)
    st dependents deps (su_threads su) p) as [Hinv Hcomplete]; try done; [lia|].
  destruct (all_results (execution_results (pl_shared p)) (length txs)) as (rs & Hrs & Hlen);
    [apply Hinv|intros i Hi; by apply Hcomplete|].
  destruct (collect_results_run 0 rs) as (out & Hout & Hlout & Hreceipt).
  destruct (evaluate_addresses_run hasher storage
    (elements (su_lazy_to su) ++ [be_coinbase block_env]) (sh_memory (pl_shared p)) out)
    as (out' & Hout' & Hsame).
  { intros address k e Hent. rewrite Hlout, Hlen.
    assert (k < length txs) as Hk by by eapply mv_wf_bound; [apply Hinv|].
    split; [done|]. destruct (Hcomplete k Hk) as (_ & _ & Hno).
    destruct e as [inc v|]; [|by destruct (Hno _ Hent)].
    pose proof (pi_typed Hinv _ _ _ _ Hent) as Ht. destruct v; simpl; try done.
    destruct Ht as (a & ix & Ht). rewrite Hvm in Ht. by destruct (Hdisj address a ix). }
  exists rs, out'. split_and!; [done|done| | |].
  - unfold finish_block. rewrite He, Hrs, Hout. simpl. by rewrite Hout'.
  - by rewrite <-(Forall2_length _ _ _ Hsame), Hlout.
  - intros i r Hr. destruct (Hreceipt i r Hr) as (r1 & Hr1 & _ & Hkept).
    destruct (Forall2_lookup_l _ _ _ _ _ Hsame Hr1) as (r2 & Hr2 & E).
    exists r2. split; [done|]. unfold receipt_kept. by rewrite E.
Qed.

(** C5. A block executed in parallel without an error yields a result: when
    the threads of [execute_revm] have left and none reported an error, the
    unwrapping of the results, the evaluation of the lazily updated accounts
    and its unchecked indexing cannot panic, whatever the interleaving was;
    there is one result per transaction, with the status and logs that its last
    execution stored and the cumulative gas of the block so far. *)
Theorem parallel_block_returns hasher storage chain spec_id block_env txs level su
  (p : Pool (H := vm_ops (su_vm su))) :
  (forall a b i, hasher (LocBasic a) <> hasher (LocStorage b i)) ->
  (Z.of_nat (length txs) < 2 ^ 64)%Z -> 0 < level ->
  setup hasher storage chain spec_id block_env txs level = Val (Some su) ->
  rtc (pool_step (H := vm_ops (su_vm su))) (setup_pool su txs) p ->
  all_done p = true -> execution_error (pl_shared p) = None ->
  exists rs out,
    execution_results (pl_shared p) = map Some rs /\ length rs = length txs /\
    finish_block hasher storage (su_lazy_to su) (be_coinbase block_env) (pl_shared p) =
      Val (Ok out) /\
    length out = length txs /\
    forall i r, rs !! i = Some r ->
      exists r', out !! i = Some r' /\ receipt_kept (gas_up_to 0 rs i) r r'.
Proof. apply finished_block_returns. Qed.

(** C18. Lazy updates mean the same to a transaction that reads the account and
    to the evaluation at the end of the block: for a location whose entries
    below transaction [i] are accounts and lazy additions (and, for the
    beneficiary's location, are there for every lower transaction), the balance
    and the nonce that [VmDb::basic] computes from the closest entry backwards
    are those that [execute_revm] computes from the oldest entry forwards
    starting with the account in storage. *)
Theorem lazy_evaluation_agrees (vm : Vm S) mv i address loc tree stored :
  0 < i -> mv_data mv !! loc = Some tree ->
  (forall k e, k < i -> tree !! k = Some e -> evaluable e) ->
  (loc = vm_beneficiary_location_hash vm -> forall k, k < i -> is_Some (tree !! k)) ->
  Storage.basic (vm_storage vm) address = Ok stored ->
  exists acc origins c,
    basic_read vm mv i address loc [] = Ok (acc, origins) /\
    evaluate_entries (initial_account (vm_storage vm) address) (reverse (range_rev tree i)) =
      Val c /\
    default 0%Z (info_balance <$> acc) = wrap 256 (ab_balance c) /\
    default 0%Z (info_nonce <$> acc) = ab_nonce c.
Proof.
  intros Hi Ht Hev Hall Hst. unfold basic_read, basic_from_memory, read_location.
  rewrite (proj2 (Nat.ltb_lt _ _) Hi), Ht.
  destruct (lazy_evaluation_loop tree (BlockingIndex (i - 1))
    (loc =? vm_beneficiary_location_hash vm)%Z (initial_account (vm_storage vm) address)
    i i 0 []) as (acc & bal' & org' & c & -> & Hc & Hacc); [done| |].
  { intros E%Z.eqb_eq. by split; [|apply Hall]. }
  assert (forall x, u256_add x 0 = wrap 256 x) as Hzero
    by (intros x; unfold u256_add; by rewrite Z.add_0_r).
  destruct acc as [info|].
  - destruct Hacc as [Hb Hn]. rewrite Hzero in Hb. by eexists _, _, c.
  - destruct Hacc as (Hbal & Hnonce & Hwidth). rewrite Hzero in Hbal.
    assert (in_width 256 bal') as Hb by (apply Hwidth; split; lia).
    unfold basic_from_storage, initial_account in *. simpl. rewrite Hst in *.
    destruct stored as [account|]; eexists _, _, c; (split; [done|]); (split; [done|]); simpl.
    + by rewrite Hbal, Hnonce.
    + assert (u256_add 0 bal' = bal') as E
        by (rewrite u256_add_comm; by apply u256_add_0_r).
      rewrite Hbal, Hnonce. simpl. rewrite E. destruct (0 <? bal')%Z eqn:Hpos; simpl.
      * by rewrite AccountInfo_from_balance_balance, AccountInfo_from_balance_nonce.
      * destruct Hb. split; [lia|done].
Qed.
End parallel.
End pevm.

(** ** Witnesses *)

(** A cache of account information over the in-memory storage. *)
Definition sample_cache : Type := InMemoryStorage * gmap Address AccountInfo.

Definition sample_cache_basic (db : sample_cache) (a : Address)
  : result (option AccountInfo) unit :=
  match db.2 !! a with
  | Some info => Ok (Some info)
  | None => basic_ref db.1 a
  end.

Fixpoint sample_cache_run R (p : DbProg unit R) (db : sample_cache) : R * sample_cache :=
  match p with
  | Return r => (r, db)
  | CallBasic a _ k => sample_cache_run R (k (sample_cache_basic db a)) db
  | CallCodeByHash h k => sample_cache_run R (k (code_by_hash_ref db.1 h)) db
  | CallHasStorage a k => sample_cache_run R (k (has_storage_ref db.1 a)) db
  | CallStorage a i k => sample_cache_run R (k (storage_ref db.1 a i)) db
  | CallBlockHash n k => sample_cache_run R (k (block_hash_ref db.1 n)) db
  end.

#[export] Instance sample_cache_db : CacheDb InMemoryStorage := {|
  cdb := sample_cache;
  cdb_new := fun s => (s, ∅);
  cdb_commit := fun changes db =>
    (db.1, foldl (fun m '(a, acc) => <[a := acc_info acc]> m) db.2 changes);
  cdb_run := sample_cache_run;
  debug_error := fun _ => "error"%string;
  debug_execution_error := fun _ => "error"%string;
|}.

Definition sample_setup : Setup (S := InMemoryStorage) :=
  {| su_vm := Vm.new sample_hasher sample_storage 1 CANCUN sample_block sample_txs;
     su_lazy_to := {[2%Z; 3%Z]};
     su_scheduler := Scheduler.new 2 [{| incarnation := 0; status := ReadyToExecute |};
                                      {| incarnation := 0; status := Aborting |}]
                                   [[1]; []] {[1 := 1%Z]};
     su_threads := 2 |}.

Definition sample_run (k : nat) : Pool (H := vm_ops (su_vm sample_setup)) :=
  foldl (fun p t => step_thread (H := vm_ops (su_vm sample_setup)) t p)
        (setup_pool sample_setup sample_txs) (concat (replicate k [0; 1])).

Lemma sample_run_steps k :
  rtc (pool_step (H := vm_ops (su_vm sample_setup))) (setup_pool sample_setup sample_txs)
      (sample_run k).
Proof. apply steps_rtc. simpl. apply Forall_concat, Forall_replicate. repeat constructor. Qed.

(** Two dependent transfers on two threads: 2 ends with 10 + 5 - 3. *)
Lemma parallel_block_returns_witness :
  exists rs out,
    execution_results (pl_shared (sample_run 40)) = map Some rs /\ length rs = 2 /\
    finish_block sample_hasher sample_storage {[2%Z; 3%Z]} 9 (pl_shared (sample_run 40)) =
      Val (Ok out) /\
    length out = 2 /\
    forall i r, rs !! i = Some r ->
      exists r', out !! i = Some r' /\ receipt_kept (gas_up_to 0 rs i) r r'.
Proof.
  apply (parallel_block_returns sample_hasher sample_storage 1 CANCUN sample_block sample_txs 8
    sample_setup (sample_run 40)).
  - exact sample_hasher_disjoint.
  - vm_compute. reflexivity.
  - lia.
  - vm_compute. reflexivity.
  - apply sample_run_steps.
  - vm_compute. reflexivity.
  - vm_compute. reflexivity.
Defined.

(** The funds that account 2 has for the second transaction. *)
Definition sample_memory : MvMemory :=
  {| mv_data := {[4%Z := {[0 := Data 0 (ValLazyBalanceAddition 5)]}]};
     mv_last_locations := replicate 2 LastLocations_default |}.

Lemma lazy_evaluation_agrees_witness :
  exists acc origins c,
    basic_read (su_vm sample_setup) sample_memory 1 2 4 [] = Ok (acc, origins) /\
    evaluate_entries (initial_account sample_storage 2)
      (reverse (range_rev {[0 := Data 0 (ValLazyBalanceAddition 5)]} 1)) = Val c /\
    default 0%Z (info_balance <$> acc) = wrap 256 (ab_balance c) /\
    default 0%Z (info_nonce <$> acc) = ab_nonce c.
Proof.
  apply (lazy_evaluation_agrees (su_vm sample_setup) sample_memory 1 2 4
    {[0 := Data 0 (ValLazyBalanceAddition 5)]}
    (Some {| ab_balance := 10; ab_nonce := 0; ab_code := None; ab_code_hash := None |})).
  - lia.
  - reflexivity.
  - intros k e Hk He. by apply lookup_singleton_Some in He as [_ <-].
  - discriminate.
  - reflexivity.
Defined.

(** The recipient of the first transfer has 10 + 5 after it. *)
Lemma lazy_accounts_evaluated_witness :
  let sh := pl_shared (sample_run 40) in
  exists out, finish_block sample_hasher sample_storage {[2%Z; 3%Z]} 9 sh = Val (Ok out) /\
    exists rs, collect_results 0 (execution_results sh) = Val rs /\ length out = length rs /\
    forall i r r' a, rs !! i = Some r -> out !! i = Some r' ->
      let stored :=
        match Storage.basic sample_storage a with Ok stored => stored | Err _ => None end in
      fully_evaluated stored
        (if bool_decide (a ∈ {[2%Z; 3%Z]} ∪ ({[9%Z]} : gset Z))
         then default ∅ (mv_data (sh_memory sh) !! sample_hasher (LocBasic a)) else ∅)
        i (state r !! a) (state r' !! a).
Proof.
  intros sh.
  destruct (finish_block sample_hasher sample_storage {[2%Z; 3%Z]} 9 sh) as [[out|e]|f] eqn:Ho.
  - exists out. split; [done|].
    apply (lazy_accounts_evaluated sample_hasher sample_storage {[2%Z; 3%Z]} 9 sh out).
    + clear. intros a b Ha Hb. assert ((a = 2 \/ a = 3 \/ a = 9) /\ (b = 2 \/ b = 3 \/ b = 9))%Z
        as [[->|[->| ->]] [->|[->| ->]]] by set_solver; vm_compute; congruence.
    + exact Ho.
  - vm_compute in Ho. discriminate.
  - vm_compute in Ho. discriminate.
Defined.

(** ** Two transfers to one contract

    A payable contract that touches no storage is neither a lazily updated
    recipient nor a dependency, and transactions that read and write only their
    sender and recipient ask for no validation. *)

Definition contract_code : EvmCode :=
  {| ec_bytecode := [0%Z]; ec_original_len := 1; ec_jump_table := [false] |}.

(** Account 5 is a contract with a balance of 100. *)
Definition contract_storage : InMemoryStorage :=
  InMemoryStorage_new id
    [(3%Z, EvmAccount_with_balance 10); (4%Z, EvmAccount_with_balance 10);
     (5%Z, {| ea_basic := {| ab_balance := 100; ab_nonce := 1; ab_code := Some contract_code;
                             ab_code_hash := Some 42%Z |};
              ea_storage := ∅ |})] [].

Definition contract_txs : list TxEnv := [pay 3 5 1; pay 4 5 1].

Definition contract_setup : Setup (S := InMemoryStorage) :=
  {| su_vm := Vm.new sample_hasher contract_storage 1 CANCUN sample_block contract_txs;
     su_lazy_to := ∅;
     su_scheduler := Scheduler.new 2 (replicate 2 {| incarnation := 0; status := ReadyToExecute |})
                                   [[]; []] ∅;
     su_threads := 2 |}.

Definition contract_run : Pool (H := vm_ops (su_vm contract_setup)) :=
  foldl (fun p t => step_thread (H := vm_ops (su_vm contract_setup)) t p)
        (setup_pool contract_setup contract_txs) (concat (replicate 20 [0; 1])).

(** The balance that the result of a transaction has for an account. *)
Definition balance_after (i : TxIdx) (a : Address) (rs : list PevmTxExecutionResult)
  : option U256 :=
  r ← rs !! i; account ← state r !! a; account ← account; Some (ab_balance (ea_basic account)).

Lemma contract_run_steps :
  rtc (pool_step (H := vm_ops (su_vm contract_setup))) (setup_pool contract_setup contract_txs)
      contract_run.
Proof. apply steps_rtc. repeat (apply Forall_cons; split; [simpl; lia|]). apply Forall_nil_2. Qed.

(** C30. A parallel block may differ from the sequential one: two senders each
    transfer 1 to a contract that has 100 and touches no storage.  There is an
    interleaving of two threads in which [execute_revm] returns without an
    error and the contract has 101 after the second transaction, where
    sequential execution gives 102: both read the balance from storage, no
    dependency was found between them, and neither asks for validation. *)
Theorem contract_transfers_lose_update :
  exists parallel sequential,
    execute_revm sample_hasher contract_storage 1 CANCUN sample_block contract_txs 8
      (Val (Ok parallel)) /\
    execute_revm_sequential contract_storage 1 CANCUN sample_block contract_txs =
      Val (Ok sequential) /\
    balance_after 1 5 parallel = Some 101%Z /\ balance_after 1 5 sequential = Some 102%Z.
Proof.
  destruct (execute_revm_sequential contract_storage 1 CANCUN sample_block contract_txs)
    as [[sequential|]|] eqn:Hs; [|vm_compute in Hs; discriminate..].
  destruct (finish_block sample_hasher contract_storage (su_lazy_to contract_setup)
              (be_coinbase sample_block) (pl_shared contract_run))
    as [[parallel|]|] eqn:Hp; [|vm_compute in Hp; discriminate..].
  exists parallel, sequential. split_and!.
  - rewrite <-Hp. apply er_parallel.
    + discriminate.
    + vm_compute. reflexivity.
    + apply contract_run_steps.
    + vm_compute. reflexivity.
  - done.
  - vm_compute in Hp. injection Hp as <-. reflexivity.
  - vm_compute in Hs. injection Hs as <-. reflexivity.
Qed.

(** ** Two payments to one sender

    [preprocess_dependencies] makes a sender wait for the closest transaction
    that pays it, not for earlier ones, and transfers between plain accounts ask
    for no validation. *)

Definition payers_storage : InMemoryStorage :=
  InMemoryStorage_new id [(1%Z, EvmAccount_with_balance 10); (2%Z, EvmAccount_with_balance 10);
                       (3%Z, EvmAccount_with_balance 10)] [].

Definition payers_txs : list TxEnv := [pay 1 3 5; pay 2 3 3; pay 3 4 1].

Definition payers_setup : Setup (S := InMemoryStorage) :=
  {| su_vm := Vm.new sample_hasher payers_storage 1 CANCUN sample_block payers_txs;
     su_lazy_to := {[3%Z; 4%Z]};
     su_scheduler := Scheduler.new 3 [{| incarnation := 0; status := ReadyToExecute |};
                                      {| incarnation := 0; status := ReadyToExecute |};
                                      {| incarnation := 0; status := Aborting |}]
                                   [[]; [2]; []] {[2 := 1%Z]};
     su_threads := 2 |}.

(** One thread takes the first transaction and waits until the other two are
    executed. *)
Definition payers_run : Pool (H := vm_ops (su_vm payers_setup)) :=
  foldl (fun p t => step_thread (H := vm_ops (su_vm payers_setup)) t p)
        (setup_pool payers_setup payers_txs)
        (0 :: replicate 40 1 ++ replicate 40 0 ++ replicate 10 1).

Lemma payers_run_steps :
  rtc (pool_step (H := vm_ops (su_vm payers_setup))) (setup_pool payers_setup payers_txs)
      payers_run.
Proof. apply steps_rtc. repeat (apply Forall_cons; split; [simpl; lia|]). apply Forall_nil_2. Qed.

(** C29. Plain transfers may lose an update: 1 pays 5 to 3, 2 pays 3 to 3, then 3,
    which has 10, pays 1.  There is an interleaving of two threads in which
    [execute_revm] returns without an error and 3 is left with 12, where
    sequential execution leaves it 17: the third transaction only waits for the
    second one, reads 3's balance before the first one has written its payment,
    and asks for no validation. *)
Theorem plain_transfers_lose_update :
  exists parallel sequential,
    execute_revm sample_hasher payers_storage 1 CANCUN sample_block payers_txs 8
      (Val (Ok parallel)) /\
    execute_revm_sequential payers_storage 1 CANCUN sample_block payers_txs =
      Val (Ok sequential) /\
    balance_after 2 3 parallel = Some 12%Z /\ balance_after 2 3 sequential = Some 17%Z.
Proof.
  destruct (execute_revm_sequential payers_storage 1 CANCUN sample_block payers_txs)
    as [[sequential|]|] eqn:Hs; [|vm_compute in Hs; discriminate..].
  destruct (finish_block sample_hasher payers_storage (su_lazy_to payers_setup)
              (be_coinbase sample_block) (pl_shared payers_run))
    as [[parallel|]|] eqn:Hp; [|vm_compute in Hp; discriminate..].
  exists parallel, sequential. split_and!.
  - rewrite <-Hp. apply er_parallel.
    + discriminate.
    + vm_compute. reflexivity.
    + apply payers_run_steps.
    + vm_compute. reflexivity.
  - done.
  - vm_compute in Hp. injection Hp as <-. reflexivity.
  - vm_compute in Hs. injection Hs as <-. reflexivity.
Qed.
