(* ===== verification/Typing.v ===== *)
(** * Typing: the multi-version memory is well typed

    The memory mixes accounts and storage slots under one hash, and a read that
    finds the wrong kind of value reports [InvalidMemoryLocationType].  With
    hashes that keep accounts and slots apart, this error is unreachable: the
    workers write only values of the location's kind, so no read ever finds
    another one. *)

From stdpp Require Import base list gmap relations.
From Stdlib Require Import ZArith Lia.
From S2P Require Import Prelude Types MvMemory Scheduler SchedulerEffects SchedulerInv Revm Storage.
From S2P Require Import Sample Vm Workers WorkersInv WorkersCorrect VmCorrect VmReplay Preprocess Pevm.

Section typing.
Context `{RevmLaws} {S : Type} `{Storage S} (vm : Vm S) (Hvm : hashes_wf vm).
Implicit Types (db : VmDb) (mv : MvMemory).

(** ** Locations *)

Definition typed_memory mv : Prop :=
  forall loc k inc v, entry_at (mv_data mv) loc k = Some (Data inc v) -> location_typed vm loc v.

Lemma typed_account a v :
  location_typed vm (vm_hasher vm (LocBasic a)) v -> forall x, v <> ValStorage x.
Proof. intros Ht x ->. destruct Ht as (b & ix & E). by apply (hw_disjoint _ Hvm) in E. Qed.

Lemma typed_slot a ix v :
  location_typed vm (vm_hasher vm (LocStorage a ix)) v -> exists x, v = ValStorage x.
Proof.
  destruct v as [| |x]; [..|by exists x]; simpl; rewrite (hw_beneficiary _ Hvm);
    (intros [E|[b E]]; [|rewrite get_address_hash_eq in E by done];
     by destruct (hw_disjoint _ Hvm _ _ _ (eq_sym E))).
Qed.

(** ** Reads *)

Definition well_typed (e : ReadError) : Prop := e <> InvalidMemoryLocationType.

Lemma evaluate_lazy_typed resch need prev iter cur bal org e :
  well_typed resch -> (forall k inc x, (k, Data inc (ValStorage x)) ∉ iter) ->
  evaluate_lazy resch need prev iter cur bal org = Err e -> well_typed e.
Proof.
  intros Hr. revert cur bal org. induction iter as [|[k [inc v|]] iter IH]; intros cur bal org Hi;
    simpl.
  - destruct (need && _); by intros [= <-].
  - destruct (need && _); [by intros [= <-]|]. destruct (negb _ && _); [by intros [= <-]|].
    destruct (negb _ && _); [by intros [= <-]|]. destruct v as [|add|x]; [done| |].
    + apply IH. intros k' inc' x' Hin. apply (Hi k' inc' x'). by right.
    + destruct (Hi k inc x). left.
  - destruct need; by intros [= <-].
Qed.

Lemma basic_read_typed mv i address a prev e :
  typed_memory mv -> basic_read vm mv i address (vm_hasher vm (LocBasic a)) prev = Err e ->
  well_typed e.
Proof.
  intros Hmv. unfold basic_read. rewrite basic_from_memory_history.
  set (r := if 0 <? i then _ else _).
  assert (forall e, r = Err e -> well_typed e) as Hr.
  { unfold r. destruct (0 <? i); [|done]. intros e0. apply evaluate_lazy_typed; [done|].
    intros k inc x [_ Hin]%entry_at_history. by apply (typed_account _ _ (Hmv _ _ _ _ Hin) x). }
  destruct r as [[[[acc|] bal] org]|e0]; [done| |intros [= <-]; by apply Hr].
  unfold basic_from_storage. destruct (_ && _); [by intros [= <-]|].
  destruct (Storage.basic _ _) as [[]|]; try done. by intros [= <-].
Qed.

Lemma storage_read_typed mv i address index prev e origins :
  typed_memory mv ->
  storage_read vm mv i address index (vm_hasher vm (LocStorage address index)) prev =
    (Err e, origins) -> well_typed e.
Proof.
  intros Hmv. rewrite storage_read_history. unfold storage_read, read_location. simpl.
  rewrite lookup_singleton_eq. set (loc := vm_hasher vm _). fold (history (mv_data mv) loc i).
  set (from_storage := match last prev with Some _ => _ | None => _ end).
  assert (forall e origins, from_storage = (Err e, origins) -> well_typed e) as Hst.
  { intros e0 o0. unfold from_storage. destruct (last prev) as [o|];
      [destruct (negb _); [by intros [= <- _]|]|];
      destruct (Storage.storage _ _ _); try done; by intros [= <- _]. }
  destruct (0 <? i); [|by apply Hst].
  destruct (history (mv_data mv) loc i) as [|[k [inc v|]] iter] eqn:Hh; [by apply Hst| |].
  - assert ((k, Data inc v) ∈ history (mv_data mv) loc i) as [_ Hin]%entry_at_history
      by (rewrite Hh; left).
    destruct (typed_slot _ _ _ (Hmv _ _ _ _ Hin)) as [x ->]. destruct (last prev); [|by intros [=]].
    case_bool_decide; simpl; intros Heq; simplify_eq; done.
  - by intros [= <- _].
Qed.

(** ** Executions *)

(** The hashes that the database keeps for the sender and the recipient. *)
Definition db_hashes db : Prop :=
  db_from_hash db = vm_hasher vm (LocBasic (db_from db)) /\
  db_to_hash db = (fun a => vm_hasher vm (LocBasic a)) <$> db_to db.

Lemma db_hashes_location db address loc :
  db_hashes db -> VmDb_get_address_hash vm db address = Val loc ->
  loc = vm_hasher vm (LocBasic address).
Proof.
  intros [Hf Ht]. unfold VmDb_get_address_hash. destruct (_ =? _)%Z eqn:E.
  - apply Z.eqb_eq in E as ->. by intros [= <-].
  - case_bool_decide as Hto.
    + rewrite Ht, <-Hto. simpl. by intros [= <-].
    + intros [= <-]. by apply get_address_hash_eq.
Qed.

Lemma basic_typed mv db address preload r db' :
  typed_memory mv -> db_hashes db -> Vm.basic vm mv db address preload = Val (r, db') ->
  db_hashes db' /\ forall e, r = Err e -> well_typed e.
Proof.
  intros Hmv Hdb. destruct (basic_shape vm db address preload)
    as [[x ->]|[[f ->]|(loc & db0 & Hloc & Hdb0 & ->)]]; [by intros [= <- <-]|done|].
  assert (db_hashes db0) as Hh by by destruct Hdb0 as [-> | ->].
  apply db_hashes_location in Hloc as ->; [|done].
  destruct (basic_read _ _ _ _ _ _) as [[acc new]|e] eqn:Hread; intros [= <- <-].
  - split; [|done]. unfold basic_record. by repeat case_match.
  - split; [done|]. intros e' [= <-]. by eapply basic_read_typed.
Qed.

Lemma storage_typed mv db address index r db' :
  typed_memory mv -> db_hashes db -> Vm.storage vm mv db address index = (r, db') ->
  db_hashes db' /\ forall e, r = Err e -> well_typed e.
Proof.
  intros Hmv Hdb. unfold Vm.storage. simpl.
  destruct (storage_read _ _ _ _ _ _ _) as [r0 origins] eqn:Hread. intros [= <- <-].
  split; [done|]. intros e ->. by eapply storage_read_typed.
Qed.

Definition typed_exec (e : @Exec (vm_ops vm)) : Prop :=
  let '(_, p, db) := e in db_hashes db /\ db_errors_fatal well_typed p.

Lemma db_call_typed mv (p p' : DbProg ReadError (result ResultAndState ExecutionError)) db db' :
  typed_memory mv -> db_hashes db -> db_errors_fatal well_typed p ->
  (forall r, p <> Return r) -> db_call vm mv p db = Val (p', db') ->
  db_hashes db' /\ db_errors_fatal well_typed p'.
Proof.
  intros Hmv Hdb Hp Hr Hrun.
  cut (exists A (r : result A ReadError), answers p A r p' /\ db_hashes db' /\
         forall e, r = Err e -> well_typed e).
  { intros (A & r & Hans & Hdb' & He). split; [done|].
    pose proof (answers_fatal _ _ _ _ _ Hans Hp) as Hnext. destruct r as [x|e]; [done|].
    by apply Hnext, He. }
  destruct p; simpl in Hrun; [by destruct (Hr r)|..].
  - destruct (Vm.basic _ _ _ _ _) as [[r db1]|] eqn:Hb; simplify_eq/=.
    eexists _, r. split; [constructor|]. by eapply basic_typed.
  - simplify_eq. eexists _, _. split; [constructor|]. split; [done|].
    unfold code_by_hash. destruct (Storage.code_by_hash _ _); by intros ? [= <-].
  - simplify_eq. eexists _, _. split; [constructor|]. split; [done|].
    unfold has_storage. destruct (Storage.has_storage _ _); by intros ? [= <-].
  - destruct (Vm.storage _ _ _ _ _) as [r db1] eqn:Hb; simplify_eq/=.
    eexists _, r. split; [constructor|]. by eapply storage_typed.
  - simplify_eq. eexists _, _. split; [constructor|]. split; [done|].
    unfold block_hash. destruct (Storage.block_hash _ _); by intros ? [= <-].
Qed.

Lemma vm_start_typed i e : vm_start (VmOps := vm_ops vm) i = Val e -> typed_exec e.
Proof.
  simpl. destruct (begin_execution vm i) as [[ex db]|] eqn:Hb; [|done]. intros [= <-].
  split; [|apply transact_db_errors]. unfold begin_execution in Hb.
  destruct (vec_get _ _) as [tx|]; [|done]. simpl in Hb.
  destruct (te_transact_to tx) as [to|]; simpl in Hb;
    [destruct (maybe_lazy vm (te_caller tx) (Some to))|]; simplify_eq/=;
    split; simpl; rewrite ?get_address_hash_eq by done; done.
Qed.

Definition ill_typed_error (err : ExecutionError) : Prop :=
  err = EvmDatabase InvalidMemoryLocationType.

Lemma vm_step_typed mv e r :
  typed_memory mv -> typed_exec e -> vm_step (VmOps := vm_ops vm) mv e = Val r ->
  match r with
  | inl e' => typed_exec e'
  | inr (VmExecutionError err) => ~ ill_typed_error err
  | inr _ => True
  end.
Proof.
  intros Hmv. destruct e as [[ex p] db]. intros [Hdb Hp] Hrun.
  destruct (not_return p) as [[x ->]|Hr].
  - simpl in Hrun. destruct x as [ras|err]; simpl in Hrun.
    + destruct (apply_rewards _ _ _ _); [|done]. simpl in Hrun.
      destruct (from_revm _ _); by simplify_eq/=.
    + simplify_eq/=. destruct (execution_failure _ err) eqn:E; try done. intros ->.
      unfold execution_failure in E. repeat case_match; simplify_eq. by apply (Hp _ eq_refl).
  - assert (('(p', db') ← db_call vm mv p db; Val (inl (ex, p', db'))) = Val r) as Hcall
      by by destruct p; [destruct (Hr r0)|..].
    destruct (db_call vm mv p db) as [[p' db']|] eqn:E; simplify_eq/=. by eapply db_call_typed.
Qed.

(** ** Workers *)

Definition typed_worker (w : worker (H := vm_ops vm)) : Prop :=
  match w with
  | WRun _ e => typed_exec e
  | WSetError _ err => ~ ill_typed_error err
  | _ => True
  end.

Record typed_pool (p : Pool (H := vm_ops vm)) : Prop := {
  tp_error : forall err, execution_error (pl_shared p) = Some err -> ~ ill_typed_error err;
  tp_workers : forall t w, pl_workers p !! t = Some w -> typed_worker w;
}.

(** A step keeps the error cell, or sets it. *)
Lemma typed_step w sh w' sh' :
  typed_memory (sh_memory sh) -> typed_worker w ->
  (forall err, execution_error sh = Some err -> ~ ill_typed_error err) ->
  worker_step (H := vm_ops vm) w sh = Val (w', sh') ->
  typed_worker w' /\ forall err, execution_error sh' = Some err -> ~ ill_typed_error err.
Proof.
  intros Hmv Hw He Hrun.
  assert (forall A (op : ST Scheduler A) k,
    on_scheduler (H := vm_ops vm) op k sh = Val (w', sh') ->
    (forall a, typed_worker (k a)) -> typed_worker w' /\
    forall err, execution_error sh' = Some err -> ~ ill_typed_error err) as Hsched.
  { intros A op k Hop Hk. unfold on_scheduler in Hop. destruct (op _) as [[a s]|]; [|done].
    injection Hop as <- <-. split; [apply Hk|done]. }
  destruct w; cbn [worker_step] in Hrun;
    try (eapply Hsched; [exact Hrun|]; clear; intros a; unfold start_task; simpl; by repeat case_match).
  - destruct (vm_start (VmOps := vm_ops vm) _) as [e|] eqn:Hs; [|done]. injection Hrun as <- <-.
    split; [by eapply vm_start_typed|done].
  - destruct (vm_step (VmOps := vm_ops vm) _ _) as [r|] eqn:Hs; [|done]. pose proof (vm_step_typed _ _ _ Hmv Hw Hs) as Hr.
    destruct r as [e'|r]; simplify_eq/=; [done|]. split; [|done]. by destruct r.
  - destruct (execution_error sh) eqn:E; simplify_eq/=. split; [done|]. by intros ? [= <-].
  - destruct (vec_get _ _); by simplify_eq/=.
  - destruct (MvMemory.record _ _ _ _) as [[]|]; by simplify_eq/=.
  - destruct (validate_read_locations _ _) as [[]|]; by simplify_eq/=.
  - destruct (convert_writes_to_estimates _ _); by simplify_eq/=.
  - injection Hrun as <- <-. split; [|done]. unfold start_task. by repeat case_match.
  - by simplify_eq.
  - by simplify_eq.
Qed.

Lemma typed_pool_thread n failed p t :
  pool_inv (H := vm_ops vm) (n := n) (lazy := vm_beneficiary_location_hash vm)
    (VmContract0 := vm_contract vm n) failed p ->
  typed_pool p -> typed_pool (step_thread (H := vm_ops vm) t p).
Proof.
  intros Hinv [He Hw]. unfold step_thread. destruct (pl_workers p !! t) as [w|] eqn:Ht; [|done].
  assert (typed_memory (sh_memory (pl_shared p))) as Hmv by exact (pi_typed Hinv).
  destruct (worker_step w (pl_shared p)) as [[w' sh']|f] eqn:Hrun.
  - destruct (typed_step w _ w' sh' Hmv (Hw _ _ Ht) He Hrun) as [Hw' He']. split; [done|].
    intros t' w0 [(_ & <- & _)|[_ Ht']]%list_lookup_insert_Some; [done|]. by eapply Hw.
  - split; [done|].
    intros t' w0 [(_ & <- & _)|[_ Ht']]%list_lookup_insert_Some; [done|]. by eapply Hw.
Qed.

Lemma typed_reachable n status_ dependents deps threads p :
  (Z.of_nat n < 2 ^ 64)%Z -> initial_wf n status_ dependents deps ->
  reachable (H := vm_ops vm) (vm_beneficiary_location_hash vm) status_ dependents deps threads p ->
  typed_memory (sh_memory (pl_shared p)) /\ typed_pool p.
Proof.
  intros Hn Hwf Hp. unfold reachable in Hp. rewrite (iw_status _ _ _ _ Hwf) in Hp.
  cut (typed_pool p /\ exists failed, pool_inv (H := vm_ops vm) (n := n)
    (lazy := vm_beneficiary_location_hash vm) (VmContract0 := vm_contract vm n) failed p).
  { intros [Ht [failed Hinv]]. split; [exact (pi_typed Hinv)|done]. }
  apply (rtc_invariant (pool_step (H := vm_ops vm)) (fun p => typed_pool p /\
    exists failed, pool_inv (H := vm_ops vm) (n := n)
      (lazy := vm_beneficiary_location_hash vm) (VmContract0 := vm_contract vm n) failed p) _ _ Hp).
  - split; [|eexists; by apply pool_inv_initial]. split; [done|].
    by intros t w [-> _]%lookup_replicate.
  - intros p1 p2 (t & _ & ->) [Ht [f1 Hinv]]. split; [by eapply typed_pool_thread|].
    destruct (step_thread_inv f1 p1 t Hinv) as (f2 & ? & _). by exists f2.
Qed.
End typing.

(** C12. The multi-version memory is well typed, so that no read of it can find
    the wrong kind of value: in every state that the threads of [execute_revm]
    reach, a location that hashes an account holds accounts and lazy additions
    only and one that hashes a slot holds slots only, and neither the error cell
    nor a worker about to fill it has an [InvalidMemoryLocationType].  It holds
    for hashers that keep accounts and slots apart, whatever the hashes'
    collisions among accounts and among slots are. *)
Theorem memory_types_respected `{RevmLaws} {S : Type} `{Storage S}
  hasher (storage : S) chain spec_id block_env txs level (su : Setup (S := S))
  (p : Pool (H := vm_ops (su_vm su))) :
  (forall a b i, hasher (LocBasic a) <> hasher (LocStorage b i)) ->
  (Z.of_nat (length txs) < 2 ^ 64)%Z ->
  setup hasher storage chain spec_id block_env txs level = Val (Some su) ->
  rtc (pool_step (H := vm_ops (su_vm su))) (setup_pool su txs) p ->
  (forall loc k inc v, entry_at (mv_data (sh_memory (pl_shared p))) loc k = Some (Data inc v) ->
     match v with
     | ValStorage _ => (exists a i, loc = hasher (LocStorage a i)) /\
                       forall a, loc <> hasher (LocBasic a)
     | _ => (exists a, loc = hasher (LocBasic a)) /\ forall a i, loc <> hasher (LocStorage a i)
     end) /\
  execution_error (pl_shared p) <> Some (EvmDatabase InvalidMemoryLocationType) /\
  forall t v, pl_workers p !! t <> Some (WSetError v (EvmDatabase InvalidMemoryLocationType)).
Proof.
  intros Hdisj Hn Hsu Hp. destruct (setup_run _ _ _ _ _ _ _ _ Hsu)
    as (Hvm & c & Hc & Hthreads & st & dependents & deps & Hs & Hwf).
  assert (hashes_wf (su_vm su)) as Hhash by (rewrite Hvm; by split).
  destruct (typed_reachable (su_vm su) Hhash (length txs) st dependents deps (su_threads su) p)
    as [Hmv [He Hw]]; [done|done| |].
  { unfold reachable. rewrite (iw_status _ _ _ _ Hwf), <-Hs. exact Hp. }
  split_and!.
  - intros loc k inc v Hent. specialize (Hmv _ _ _ _ Hent).
    assert (vm_hasher (su_vm su) = hasher) as Hh by by rewrite Hvm.
    destruct v as [info|add|x]; simpl in Hmv.
    3: { rewrite Hh in Hmv. destruct Hmv as (a & i & ->). split; [eauto|]. intros b E. by apply (Hdisj b a i). }
    all: assert (exists a, loc = hasher (LocBasic a)) as [a ->]
      by (destruct Hmv as [->|[a ->]]; [|rewrite get_address_hash_eq by done];
          rewrite ?(hw_beneficiary _ Hhash), Hh; eauto).
    all: split; [eauto|]; intros b i; apply Hdisj.
  - intros E. by apply (He _ E).
  - intros t v E. by apply (Hw _ _ E).
Qed.

(** A transfer recorded by two threads. *)
Lemma memory_types_respected_witness :
  (exists loc, entry_at (mv_data (sh_memory (pl_shared (sample_run 80)))) loc 1 =
     Some (Data 1 (ValLazyBalanceAddition 3))) /\
  execution_error (pl_shared (sample_run 80)) <> Some (EvmDatabase InvalidMemoryLocationType) /\
  forall t v, pl_workers (sample_run 80) !! t <>
    Some (WSetError v (EvmDatabase InvalidMemoryLocationType)).
Proof.
  split; [exists 6%Z; vm_compute; reflexivity|].
  apply (memory_types_respected sample_hasher sample_storage 1 CANCUN sample_block sample_txs 8
    sample_setup (sample_run 80)).
  - exact sample_hasher_disjoint.
  - vm_compute. reflexivity.
  - vm_compute. reflexivity.
  - apply sample_run_steps.
Defined.
