(* ===== verification/Relabel.v ===== *)
(** * Relabel: an execution does not depend on incarnation numbers

    The incarnation of a version only tells an entry from the earlier entries
    of the same transaction.  Renumbering the incarnations of a memory, without
    identifying two of one transaction, renumbers the origins that an execution
    records and changes nothing else: its result, its write set and where to
    validate from are the same.  [Reference] uses this to compare a parallel
    run with a run that executes every transaction once. *)

From stdpp Require Import base list gmap.
From Stdlib Require Import ZArith Lia.
From S2P Require Import Prelude Types MvMemory Revm Storage Sample Vm VmCorrect VmReplay.

(** ** Renumbering *)

Section renumber.
Variable g : TxIdx -> TxIncarnation -> TxIncarnation.

Definition ren_version (v : TxVersion) : TxVersion :=
  {| tx_idx := tx_idx v; tx_incarnation := g (tx_idx v) (tx_incarnation v) |}.

Definition ren_origin (o : ReadOrigin) : ReadOrigin :=
  match o with
  | OriginMvMemory v => OriginMvMemory (ren_version v)
  | OriginStorage => OriginStorage
  end.

Definition ren_entry (k : TxIdx) (e : MemoryEntry) : MemoryEntry :=
  match e with
  | Data inc v => Data (g k inc) v
  | Estimate => Estimate
  end.

Definition ren_tree (tree : gmap TxIdx MemoryEntry) : gmap TxIdx MemoryEntry :=
  map_imap (fun k e => Some (ren_entry k e)) tree.

Definition ren_reads (reads : ReadLocations) : ReadLocations := map ren_origin <$> reads.

Definition ren_memory (mv : MvMemory) : MvMemory :=
  {| mv_data := ren_tree <$> mv_data mv;
     mv_last_locations :=
       map (fun last => {| ll_read := ren_reads (ll_read last); ll_write := ll_write last |})
           (mv_last_locations mv) |}.

Definition ren_db (db : VmDb) : VmDb :=
  with_read_set {| rs_locations := ren_reads (rs_locations (db_read_set db));
                   rs_accounts := rs_accounts (db_read_set db) |} db.

Definition ren_result (r : VmExecutionResult) : VmExecutionResult :=
  match r with
  | VmOk res reads ws nv => VmOk res (ren_reads reads) ws nv
  | r => r
  end.

Lemma ren_tree_lookup tree k : ren_tree tree !! k = ren_entry k <$> tree !! k.
Proof. unfold ren_tree. rewrite map_lookup_imap. by destruct (tree !! k). Qed.

Lemma range_rev_ren tree i :
  range_rev (ren_tree tree) i = map (fun '(k, e) => (k, ren_entry k e)) (range_rev tree i).
Proof.
  induction i as [|i IH]; simpl; [done|]. rewrite ren_tree_lookup, IH.
  by destruct (tree !! i).
Qed.

Lemma history_ren mv loc i :
  history (mv_data (ren_memory mv)) loc i =
  map (fun '(k, e) => (k, ren_entry k e)) (history (mv_data mv) loc i).
Proof.
  unfold history. simpl. rewrite lookup_fmap. destruct (mv_data mv !! loc); simpl.
  - apply range_rev_ren.
  - by rewrite range_rev_empty.
Qed.

Lemma entry_at_ren mv loc k :
  entry_at (mv_data (ren_memory mv)) loc k = ren_entry k <$> entry_at (mv_data mv) loc k.
Proof.
  unfold entry_at. simpl. rewrite lookup_fmap. destruct (mv_data mv !! loc); [|done].
  simpl. apply ren_tree_lookup.
Qed.

Lemma ren_reads_lookup (reads : ReadLocations) loc :
  default [] (ren_reads reads !! loc) = map ren_origin (default [] (reads !! loc)).
Proof. unfold ren_reads. rewrite lookup_fmap. by destruct (reads !! loc). Qed.

Lemma ren_with_origins loc origins db :
  with_origins loc (map ren_origin origins) (ren_db db) = ren_db (with_origins loc origins db).
Proof. unfold with_origins, ren_db, with_read_set. simpl. unfold ren_reads. by rewrite fmap_insert. Qed.

Lemma ren_with_account loc account db :
  with_account loc account (ren_db db) = ren_db (with_account loc account db).
Proof. done. Qed.

Lemma ren_with_only b db :
  with_only_read_from_and_to b (ren_db db) = ren_db (with_only_read_from_and_to b db).
Proof. done. Qed.

Lemma ren_nil_test (l : list ReadOrigin) :
  (length (map ren_origin l) =? 0) = (length l =? 0).
Proof. by rewrite length_map. Qed.

Hypothesis g_inj : forall k, Inj (=) (=) (g k).

Lemma ren_origin_inj : Inj (=) (=) ren_origin.
Proof.
  intros [[k inc]|] [[k' inc']|] Heq; try done. simpl in Heq.
  injection Heq as -> Hinc. by apply (g_inj k') in Hinc as ->.
Qed.

Lemma ren_lookup_eq (l : list ReadOrigin) j o :
  bool_decide (map ren_origin l !! j = Some (ren_origin o)) = bool_decide (l !! j = Some o).
Proof.
  rewrite list_lookup_fmap. apply bool_decide_ext. destruct (l !! j) as [o'|]; simpl; [|done].
  split; [intros [= Heq]; by apply ren_origin_inj in Heq as ->|by intros [= ->]].
Qed.

Lemma ren_last (l : list ReadOrigin) : last (map ren_origin l) = ren_origin <$> last l.
Proof. apply fmap_last. Qed.

Lemma ren_last_storage (l : list ReadOrigin) :
  bool_decide (last (map ren_origin l) = Some OriginStorage) =
  bool_decide (last l = Some OriginStorage).
Proof.
  rewrite ren_last. apply bool_decide_ext. destruct (last l) as [[v|]|]; simpl; done.
Qed.

Lemma ren_origin_eq o o' : bool_decide (ren_origin o = ren_origin o') = bool_decide (o = o').
Proof. apply bool_decide_ext. split; [apply ren_origin_inj|by intros ->]. Qed.

(** ** Reads *)

Definition ren_found {A E} (r : result (A * list ReadOrigin) E) : result (A * list ReadOrigin) E :=
  map_ok (fun '(a, origins) => (a, map ren_origin origins)) r.

Lemma evaluate_lazy_ren resch need prev iter cur bal org :
  evaluate_lazy resch need (map ren_origin prev)
    (map (fun '(k, e) => (k, ren_entry k e)) iter) cur bal (map ren_origin org) =
  ren_found (evaluate_lazy resch need prev iter cur bal org).
Proof.
  revert cur bal org. induction iter as [|[k [inc v|]] iter IH]; intros cur bal org; simpl.
  - by destruct (need && _).
  - rewrite !length_map.
    pose proof (ren_lookup_eq prev (length org)
      (OriginMvMemory {| tx_idx := k; tx_incarnation := inc |})) as Hl.
    simpl in Hl. unfold ren_version in Hl. simpl in Hl. rewrite Hl.
    destruct (need && _); [done|]. destruct (negb (length prev =? 0) && (_ =? _)); [done|].
    destruct (negb (length prev =? 0) && _); [done|].
    destruct v as [info|addition|value]; simpl; [by rewrite map_app| |done].
    rewrite <-IH. by rewrite map_app.
  - done.
Qed.

Context `{RevmLaws} {S : Type} `{Storage S}.
Implicit Types (vm : Vm S) (db : VmDb) (mv : MvMemory).

Lemma basic_from_memory_ren vm mv i loc prev :
  basic_from_memory vm (ren_memory mv) i loc (map ren_origin prev) =
  ren_found (basic_from_memory vm mv i loc prev).
Proof.
  rewrite !basic_from_memory_history, history_ren. destruct (0 <? i); [|done].
  by rewrite <-evaluate_lazy_ren.
Qed.

Lemma basic_from_storage_ren vm address prev bal org :
  basic_from_storage vm address (map ren_origin prev) bal (map ren_origin org) =
  ren_found (basic_from_storage vm address prev bal org).
Proof.
  unfold basic_from_storage. rewrite !length_map, ren_last_storage.
  destruct (_ && _); [done|]. destruct (Storage.basic _ _) as [[account|]|err]; simpl; try done;
    by destruct (negb (length prev =? 0)); rewrite ?map_app.
Qed.

Lemma basic_read_ren vm mv i address loc prev :
  basic_read vm (ren_memory mv) i address loc (map ren_origin prev) =
  ren_found (basic_read vm mv i address loc prev).
Proof.
  unfold basic_read. rewrite basic_from_memory_ren.
  destruct (basic_from_memory vm mv i loc prev) as [[[[acc|] bal] org]|]; simpl; try done.
  by rewrite <-basic_from_storage_ren.
Qed.

Lemma basic_record_ren loc prev acc new db :
  basic_record loc (map ren_origin prev) acc (map ren_origin new) (ren_db db) =
  ren_db (basic_record loc prev acc new db).
Proof.
  unfold basic_record. rewrite length_map. destruct (negb _), acc; simpl;
    by rewrite ?ren_with_origins, ?ren_with_account.
Qed.

Definition ren_answer {A} (o : outcome (A * VmDb)) : outcome (A * VmDb) :=
  match o with Val (a, db) => Val (a, ren_db db) | Fault f => Fault f end.

Lemma basic_ren vm mv db address preload :
  Vm.basic vm (ren_memory mv) (ren_db db) address preload =
  ren_answer (Vm.basic vm mv db address preload).
Proof.
  unfold Vm.basic. destruct preload; [done|]. simpl.
  destruct (db_is_maybe_lazy db && _); [done|].
  set (away := negb (address =? db_from db)%Z && _).
  set (db0 := if away then with_only_read_from_and_to false db else db).
  assert ((if away then with_only_read_from_and_to false (ren_db db) else ren_db db) = ren_db db0)
    as -> by (unfold db0; by destruct away).
  change (VmDb_get_address_hash vm (ren_db db0) address) with
    (VmDb_get_address_hash vm db0 address).
  destruct (VmDb_get_address_hash vm db0 address) as [loc|]; [|done]. simpl.
  rewrite ren_reads_lookup, ren_with_origins, basic_read_ren.
  destruct (basic_read _ _ _ _ _ _) as [[acc new]|e]; [|done]. simpl.
  by rewrite basic_record_ren.
Qed.

Lemma storage_read_ren vm mv i address index loc prev :
  storage_read vm (ren_memory mv) i address index loc (map ren_origin prev) =
  (let '(r, origins) := storage_read vm mv i address index loc prev in
   (r, map ren_origin origins)).
Proof.
  rewrite (storage_read_history vm (ren_memory mv)), (storage_read_history vm mv).
  unfold storage_read, read_location. simpl. rewrite !lookup_singleton_eq, ren_last.
  fold (history (ren_tree <$> mv_data mv) loc i). fold (history (mv_data mv) loc i).
  pose proof (history_ren mv loc i) as Hh. simpl in Hh. rewrite Hh.
  destruct (0 <? i).
  - destruct (history (mv_data mv) loc i) as [|[k [inc [info|add|value]|]] iter]; simpl; try done.
    + destruct (last prev) as [[v|]|]; simpl; rewrite ?map_app; try done.
    + destruct (last prev) as [o|]; simpl; rewrite ?map_app; [|done].
      pose proof (ren_origin_eq o (OriginMvMemory {| tx_idx := k; tx_incarnation := inc |})) as He.
      simpl in He. unfold ren_version in He. simpl in He. rewrite He.
      by destruct (negb _).
  - destruct (last prev) as [[v|]|]; simpl; rewrite ?map_app; done.
Qed.

Lemma storage_ren vm mv db address index :
  Vm.storage vm (ren_memory mv) (ren_db db) address index =
  (let '(r, db') := Vm.storage vm mv db address index in (r, ren_db db')).
Proof.
  unfold Vm.storage. rewrite ren_with_only. set (db0 := with_only_read_from_and_to false db).
  set (loc := vm_hasher vm _). simpl. rewrite ren_reads_lookup, storage_read_ren.
  destruct (storage_read _ _ _ _ _ _ _) as [r origins]. by rewrite ren_with_origins.
Qed.

Lemma db_call_ren {R} vm mv (p : DbProg ReadError R) db :
  db_call vm (ren_memory mv) p (ren_db db) = ren_answer (db_call vm mv p db).
Proof.
  destruct p; try done; simpl.
  - rewrite basic_ren. by destruct (Vm.basic _ _ _ _ _) as [[]|].
  - rewrite storage_ren. by destruct (Vm.storage _ _ _ _ _).
Qed.

Lemma run_db_ren {R} vm mvs (p : DbProg ReadError R) calls db :
  run_db vm (fun c => ren_memory (mvs c)) p calls (ren_db db) =
  ren_answer (run_db vm mvs p calls db).
Proof.
  revert calls db. induction p as [r|p Hp IH] using DbProg_call_ind; intros calls db; [done|].
  rewrite !run_db_call by done. rewrite db_call_ren.
  destruct (db_call vm (mvs calls) p db) as [[p1 db1]|] eqn:Hcall; [|done]. simpl.
  destruct (db_call_ok _ _ _ _ _ _ Hcall Hp) as (A & x & Hans & Hok). by eapply IH.
Qed.

(** ** Executions *)

Definition ren_outcome (o : outcome VmExecutionResult) : outcome VmExecutionResult :=
  match o with Val r => Val (ren_result r) | Fault f => Fault f end.

Lemma end_execution_ren vm ex db r :
  end_execution vm ex (ren_db db) r = ren_outcome (end_execution vm ex db r).
Proof.
  destruct r as [ras|e]; simpl.
  - destruct (apply_rewards _ _ _ _); [|done]. simpl. by destruct (from_revm _ _).
  - unfold execution_failure. by repeat case_match.
Qed.

Lemma execute_ren vm mvs i :
  Vm.execute vm (fun c => ren_memory (mvs c)) i = ren_outcome (Vm.execute vm mvs i).
Proof.
  unfold Vm.execute. destruct (begin_execution vm i) as [[ex db]|] eqn:Hb; [|done]. simpl.
  assert (ren_db db = db) as Hdb.
  { unfold begin_execution in Hb. destruct (vec_get _ _) as [tx|]; [|done]. simpl in Hb.
    destruct (te_transact_to tx) as [to|]; simpl in Hb;
      [destruct (maybe_lazy vm (te_caller tx) (Some to))|]; simplify_eq/=; done. }
  rewrite <-Hdb at 1. rewrite run_db_ren.
  destruct (run_db vm mvs _ 0 db) as [[r db']|]; [|done]. simpl. apply end_execution_ren.
Qed.
End renumber.
