(* ===== verification/Serial.v ===== *)
(** * Serial: validated transactions are executed as if in order

    When the threads of a block have left without an error, every transaction
    from [min_validation_idx] on (and the first one) has, in the results and in
    the multi-version memory, exactly what executing it alone on the final
    memory gives.  An execution reads only what lower transactions wrote, so
    this determines the block from its first transaction on. *)

From stdpp Require Import base list gmap relations strings.
From Stdlib Require Import ZArith Lia.
From S2P Require Import Prelude Types MvMemory Scheduler SchedulerInv Revm Storage Sample.
From S2P Require Import Vm Workers WorkersInv WorkersCorrect Validity Commit.
From S2P Require Import VmCorrect VmReplay Preprocess Pevm.

Section serial.
Context `{RevmLaws} {S : Type} `{Storage S}.
Implicit Types (vm : Vm S).

(** ** From the workers' steps to [Vm::execute] *)

Lemma explained_steps vm (G : knowledge) i e :
  explained (H := vm_ops vm) G i e ->
  exists k mvs e0, vm_start (VmOps := vm_ops vm) i = Val e0 /\
    (forall j, j < k -> known G (mvs j)) /\
    forall mvs', (forall j, j < k -> mvs' j = mvs j) -> forall fuel,
      execute_steps vm mvs' (k + fuel) 0 e0 = execute_steps vm mvs' fuel k e.
Proof.
  induction 1 as [e He|e mv e' _ (k & mvs & e0 & Hs & Hk & Hrun) Hmv Hstep].
  - exists 0, (fun _ => MvMemory.new 0 []), e. split_and!; [done|lia|done].
  - exists (k + 1), (fun j => if j <? k then mvs j else mv), e0. split_and!; [done|..].
    + intros j Hj. destruct (Nat.ltb_spec j k); auto.
    + intros mvs' Hmvs' fuel. rewrite <-Nat.add_assoc, Hrun.
      * simpl. rewrite (Hmvs' k) by lia. rewrite Nat.ltb_irrefl.
        change (vm_step mv e) with (vm_step (VmOps := vm_ops vm) mv e) in Hstep.
        simpl in Hstep. rewrite Hstep. done.
      * intros j Hj. rewrite Hmvs' by lia. by rewrite (proj2 (Nat.ltb_lt j k)).
Qed.

Lemma produced_execute vm (G : knowledge) i r :
  produced (H := vm_ops vm) G i r ->
  exists mvs, (forall k, known G (mvs k)) /\ Vm.execute vm mvs i = Val r.
Proof.
  intros (e & mv & He & Hmv & Hr). destruct (explained_steps vm G i e He)
    as (k & mvs & e0 & Hs & Hk & Hrun).
  set (mvs' := fun j => if j <? k then mvs j else mv).
  exists mvs'. split; [intros j; unfold mvs'; destruct (Nat.ltb_spec j k); auto|].
  unfold Vm.execute. simpl in Hs. destruct (begin_execution vm i) as [[ex db]|]; [|done].
  simpl in *. injection Hs as <-.
  destruct (execute_steps_run vm mvs' ex (execution_program vm ex) 0 db) as [fuel Hfuel].
  rewrite <-(Hfuel (k + Datatypes.S fuel)) by lia. rewrite Hrun.
  - simpl. unfold mvs'. rewrite Nat.ltb_irrefl. simpl in Hr. by rewrite Hr.
  - intros j Hj. unfold mvs'. by rewrite (proj2 (Nat.ltb_lt j k)).
Qed.

(** ** An execution sees lower transactions only *)

Definition same_below (i : TxIdx) (mv mv' : MvMemory) : Prop :=
  forall loc k, k < i -> entry_at (mv_data mv) loc k = entry_at (mv_data mv') loc k.

Lemma db_call_below {R} vm mv mv' (p : DbProg ReadError R) db :
  same_below (db_tx_idx db) mv mv' -> db_call vm mv p db = db_call vm mv' p db.
Proof.
  intros Hsame. destruct p as [r|address is_preload k|code_hash k|address k|address index k|number k];
    try done; simpl.
  - unfold Vm.basic. destruct is_preload; [done|]. destruct (_ && _); [done|].
    set (db0 := if _ && _ then _ else db).
    assert (db_tx_idx db0 = db_tx_idx db) as Hdb0 by (unfold db0; by destruct (_ && _)).
    destruct (VmDb_get_address_hash vm db0 address) as [loc|]; [|done]. simpl.
    unfold basic_read. rewrite !basic_from_memory_history, Hdb0.
    by rewrite (history_ext (mv_data mv) (mv_data mv')) by auto.
  - unfold Vm.storage. simpl. rewrite (storage_read_history vm mv), (storage_read_history vm mv').
    set (loc := vm_hasher vm _). unfold storage_read, read_location. simpl.
    rewrite !lookup_singleton_eq. fold (history (mv_data mv) loc (db_tx_idx db)).
    fold (history (mv_data mv') loc (db_tx_idx db)).
    by rewrite (history_ext (mv_data mv) (mv_data mv')) by auto.
Qed.

Lemma run_db_below {R} vm mvs mvs' i (p : DbProg ReadError R) calls db :
  (forall c, same_below i (mvs c) (mvs' c)) -> db_tx_idx db = i ->
  run_db vm mvs p calls db = run_db vm mvs' p calls db.
Proof.
  intros Hsame. revert calls db. induction p as [r|p Hp IH] using DbProg_call_ind;
    intros calls db Hdb; [done|].
  rewrite !run_db_call by done. rewrite (db_call_below vm (mvs calls) (mvs' calls)).
  2: { rewrite Hdb. apply Hsame. }
  destruct (db_call vm (mvs' calls) p db) as [[p1 db1]|] eqn:Hcall; [|done]. simpl.
  destruct (db_call_ok _ _ _ _ _ _ Hcall Hp) as (A & x & Hans & Hok).
  eapply IH; [done|]. by rewrite (co_tx_idx _ _ _ Hok).
Qed.

Lemma execute_below vm mvs mvs' i :
  (forall c, same_below i (mvs c) (mvs' c)) -> Vm.execute vm mvs i = Vm.execute vm mvs' i.
Proof.
  intros Hsame. unfold Vm.execute. destruct (begin_execution vm i) as [[ex db]|] eqn:Hb; [|done].
  simpl. rewrite (run_db_below vm mvs mvs' i); [done|done|].
  by destruct (begin_execution_ok vm i ex db Hb) as (_ & ? & _).
Qed.

(** C14. The execution of a transaction depends on the entries of lower
    transactions only, whatever the memory holds for itself and for higher ones;
    so what a block computes is determined from its first transaction on. *)
Theorem execution_sees_lower vm mvs mvs' i :
  (forall c loc k, k < i ->
     entry_at (mv_data (mvs c)) loc k = entry_at (mv_data (mvs' c)) loc k) ->
  Vm.execute vm mvs i = Vm.execute vm mvs' i.
Proof. intros Hsame. by apply execute_below. Qed.

(** ** The final memory *)

Lemma known_valued (G : knowledge) mv :
  known G mv -> valued (fun loc ver => default (ValStorage 0) (G loc ver)) mv.
Proof. intros Hk loc k inc v He. by rewrite (Hk loc k inc v He). Qed.

Lemma committed_serial vm n (G : knowledge) sh i :
  hashes_wf vm -> mv_wf n (sh_memory sh) -> known G (sh_memory sh) ->
  committed_tx (H := vm_ops vm) G sh i -> i = 0 \/ reads_valid (sh_memory sh) i ->
  exists r reads ws nv inc,
    Vm.execute vm (fun _ => sh_memory sh) i = Val (VmOk r reads ws nv) /\
    execution_results sh !! i = Some (Some r) /\
    forall loc, entry_at (mv_data (sh_memory sh)) loc i = Data inc <$> written_value ws loc.
Proof.
  intros Hvm Hmv Hk (r & reads & ws & nv & inc & Hp & Hr & Hl & He) Hvalid.
  exists r, reads, ws, nv, inc. split_and!; [|done|done].
  destruct (produced_execute vm G i _ Hp) as (mvs & Hmvs & Hrun). destruct Hvalid as [->|Hvalid].
  - rewrite <-Hrun. apply execute_below. intros c loc k Hk0. lia.
  - eapply execute_replay; [done|intros k; by apply known_valued, Hmvs|by apply known_valued|done|].
    eapply (validate_read_locations_true _ i _ Hl). exact Hvalid.
Qed.

Lemma pool_serial vm n status_ dependents deps threads p i :
  hashes_wf vm -> (Z.of_nat n < 2 ^ 64)%Z -> initial_wf n status_ dependents deps -> 0 < threads ->
  reachable (H := vm_ops vm) (vm_beneficiary_location_hash vm) status_ dependents deps threads p ->
  all_done (H := vm_ops vm) p = true ->
  execution_error (pl_shared (H := vm_ops vm) p) = None ->
  i < n -> i = 0 \/ min_validation_idx (sh_scheduler (pl_shared (H := vm_ops vm) p)) <= i \/
    reads_valid (sh_memory (pl_shared (H := vm_ops vm) p)) i ->
  exists r reads ws nv inc,
    Vm.execute vm (fun _ => sh_memory (pl_shared (H := vm_ops vm) p)) i =
      Val (VmOk r reads ws nv) /\
    execution_results (pl_shared (H := vm_ops vm) p) !! i = Some (Some r) /\
    forall loc, entry_at (mv_data (sh_memory (pl_shared (H := vm_ops vm) p))) loc i =
      Data inc <$> written_value ws loc.
Proof.
  intros Hvm Hn Hwf Hthreads Hp Hall He Hi Hmin.
  destruct (pool_complete (H := vm_ops vm) (n := n) (lazy := vm_beneficiary_location_hash vm)
    (VmContract0 := vm_contract vm _) _ _ _ _ _ Hn Hwf Hthreads Hp Hall He) as [Hinv Hcomplete].
  destruct (Hcomplete i Hi) as ((st & Hst & Hd & _) & _).
  destruct (commit_reachable (H := vm_ops vm) (n := n) (lazy := vm_beneficiary_location_hash vm)
    (VmContract0 := vm_contract vm _) _ _ _ _ _ Hn Hwf Hp) as [G Hc].
  eapply (committed_serial vm n G); [done|apply Hinv|apply Hc|by eapply (ci_done _ _ Hc)|].
  destruct Hmin as [?|[Hmin|Hvalid]]; [by left|right|by right].
  by eapply (complete_reads_valid (H := vm_ops vm) (n := n) (VmContract0 := vm_contract vm _)).
Qed.

(** C3. Parallel execution is serializable where transactions are validated: when
    the threads of [execute_revm] have left without an error, whatever the
    interleaving was, the first transaction and every transaction from
    [min_validation_idx] on has stored exactly the result and exactly the entries
    that executing it alone on the final memory gives, that is, on the final
    values of the transactions before it. *)
Theorem parallel_block_serializable hasher storage chain spec_id block_env txs level
  (su : Setup (S := S)) (p : Pool (H := vm_ops (su_vm su))) i :
  (forall a b i, hasher (LocBasic a) <> hasher (LocStorage b i)) ->
  (Z.of_nat (length txs) < 2 ^ 64)%Z -> 0 < level ->
  setup hasher storage chain spec_id block_env txs level = Val (Some su) ->
  rtc (pool_step (H := vm_ops (su_vm su))) (setup_pool su txs) p ->
  all_done p = true -> execution_error (pl_shared p) = None ->
  i < length txs -> i = 0 \/ min_validation_idx (sh_scheduler (pl_shared p)) <= i ->
  exists r reads ws nv inc,
    Vm.execute (su_vm su) (fun _ => sh_memory (pl_shared p)) i = Val (VmOk r reads ws nv) /\
    execution_results (pl_shared p) !! i = Some (Some r) /\
    forall loc, entry_at (mv_data (sh_memory (pl_shared p))) loc i =
      Data inc <$> written_value ws loc.
Proof.
  intros Hdisj Hn Hlevel Hsu Hp Hall He Hi Hmin.
  destruct (setup_run _ _ _ _ _ _ _ _ Hsu)
    as (Hvm & c & Hc & Hthreads & st & dependents & deps & Hs & Hwf).
  apply (pool_serial (su_vm su) (length txs) st dependents deps (su_threads su)); try done; [|lia| |tauto].
  - rewrite Hvm. by split.
  - unfold reachable. rewrite (iw_status _ _ _ _ Hwf), <-Hs. exact Hp.
Qed.
End serial.

(** ** Witnesses *)

(** 1 pays 5 to 2, 3 creates a contract, and 2 pays 3 to 4: the creation asks for
    the validation of the third transaction. *)
Definition create_tx (from : Address) : TxEnv :=
  {| te_caller := from; te_gas_limit := 21000; te_gas_price := 2; te_gas_priority_fee := None;
     te_transact_to := Create; te_value := 0; te_data := []; te_nonce := None;
     te_chain_id := None; te_access_list := []; te_blob_hashes := [];
     te_max_fee_per_blob_gas := None |}.

Definition create_txs : list TxEnv := [pay 1 2 5; create_tx 3; pay 2 4 3].

Definition create_setup : Setup (S := InMemoryStorage) :=
  {| su_vm := Vm.new sample_hasher sample_storage 1 CANCUN sample_block create_txs;
     su_lazy_to := {[2%Z; 4%Z]};
     su_scheduler := Scheduler.new 3 [{| incarnation := 0; status := ReadyToExecute |};
                                      {| incarnation := 0; status := ReadyToExecute |};
                                      {| incarnation := 0; status := Aborting |}]
                                   [[2]; []; []] {[2 := 1%Z]};
     su_threads := 2 |}.

Definition create_run : Pool (H := vm_ops (su_vm create_setup)) :=
  foldl (fun p t => step_thread (H := vm_ops (su_vm create_setup)) t p)
        (setup_pool create_setup create_txs) (concat (replicate 40 [0; 1])).

Lemma create_run_steps :
  rtc (pool_step (H := vm_ops (su_vm create_setup))) (setup_pool create_setup create_txs)
      create_run.
Proof. apply steps_rtc. repeat (apply Forall_cons; split; [simpl; lia|]). apply Forall_nil_2. Qed.

Lemma parallel_block_serializable_witness :
  exists r reads ws nv inc,
    Vm.execute (su_vm create_setup) (fun _ => sh_memory (pl_shared create_run)) 2 =
      Val (VmOk r reads ws nv) /\
    execution_results (pl_shared create_run) !! 2 = Some (Some r) /\
    forall loc, entry_at (mv_data (sh_memory (pl_shared create_run))) loc 2 =
      Data inc <$> written_value ws loc.
Proof.
  apply (parallel_block_serializable sample_hasher sample_storage 1 CANCUN sample_block create_txs 8
    create_setup create_run 2).
  - exact sample_hasher_disjoint.
  - vm_compute. reflexivity.
  - lia.
  - vm_compute. reflexivity.
  - exact create_run_steps.
  - vm_compute. reflexivity.
  - vm_compute. reflexivity.
  - simpl. lia.
  - right. vm_compute. lia.
Defined.

Lemma execution_sees_lower_witness :
  Vm.execute (su_vm create_setup) (fun _ => sh_memory (pl_shared create_run)) 0 =
  Vm.execute (su_vm create_setup) (fun _ => MvMemory.new 3 []) 0.
Proof.
  apply (execution_sees_lower (su_vm create_setup)). intros c loc k Hk. lia.
Defined.
