(* ===== verification/Reference.v ===== *)
(** * Reference: the block as an in-order execution

    The reference that a parallel run is compared with: every transaction is
    executed once, in order, on what the transactions before it wrote, and the
    lazily updated accounts are evaluated at the end.  It has no scheduler, no
    estimates and no validation.  A finished parallel run whose transactions
    read valid values returns exactly what the reference returns, so two such
    runs of one block agree. *)

From stdpp Require Import base list gmap relations strings.
From Stdlib Require Import ZArith Lia.
From S2P Require Import Prelude Types MvMemory Scheduler SchedulerInv Revm Storage Sample.
From S2P Require Import Vm Workers WorkersInv WorkersCorrect Validity Commit.
From S2P Require Import VmCorrect VmReplay Preprocess Pevm Relabel Serial.

(** ** Memories that hold the same values *)

Definition entry_value (e : MemoryEntry) : option MemoryValue :=
  match e with Data _ v => Some v | Estimate => None end.

Definition value_at (mv : MvMemory) (loc : MemoryLocationHash) (k : TxIdx)
  : option (option MemoryValue) := entry_value <$> entry_at (mv_data mv) loc k.

Definition same_values (mv mv' : MvMemory) : Prop :=
  forall loc k, value_at mv loc k = value_at mv' loc k.

#[export] Instance same_values_equivalence : Equivalence same_values.
Proof.
  split; [by intros mv loc k|by intros mv mv' Hs loc k; rewrite (Hs loc k)|].
  intros mv1 mv2 mv3 H1 H2 loc k. by rewrite (H1 loc k), (H2 loc k).
Qed.

Section evaluation.
Context `{Revm} {S : Type} `{Storage S}.

Lemma evaluate_history_values address c h h' results :
  map (fun '(k, e) => (k, entry_value e)) h = map (fun '(k, e) => (k, entry_value e)) h' ->
  evaluate_history address c h results = evaluate_history address c h' results.
Proof.
  revert c h' results. induction h as [|[k e] h IH]; intros c [|[k' e'] h'] results Heq;
    simplify_eq/=; [done|].
  assert (evaluate_entry c e = evaluate_entry c e') as ->.
  { destruct e as [? [| |]|], e' as [? [| |]|]; by simplify_eq/=. }
  destruct (evaluate_entry c e'); [|done]. simpl. destruct (vec_get results k'); [|done]. simpl.
  by apply IH.
Qed.

Lemma evaluate_addresses_values hasher (storage : S) addresses mv mv' results :
  same_values mv mv' ->
  evaluate_addresses hasher storage addresses mv results =
  evaluate_addresses hasher storage addresses mv' results.
Proof.
  revert mv mv' results. induction addresses as [|a addresses IH]; intros mv mv' results Hs; [done|].
  simpl. set (loc := hasher (LocBasic a)).
  set (mv1 := {| mv_data := delete loc (mv_data mv); mv_last_locations := _ |}).
  set (mv2 := {| mv_data := delete loc (mv_data mv'); mv_last_locations := _ |}).
  assert (same_values mv1 mv2) as Hs'.
  { intros l k. specialize (Hs l k). revert Hs. unfold value_at, entry_at, mv1, mv2. simpl.
    destruct (decide (loc = l)) as [->|]; [by rewrite !lookup_delete_eq|].
    by rewrite !lookup_delete_ne by done. }
  assert (forall (mv0 mv3 : MvMemory),
    match mv_data mv0 !! loc with
    | Some h => r ← evaluate_history a (initial_account storage a) (btree_iter h) results;
                evaluate_addresses hasher storage addresses mv3 r
    | None => evaluate_addresses hasher storage addresses mv3 results
    end = (r ← evaluate_history a (initial_account storage a)
                 (btree_iter (default ∅ (mv_data mv0 !! loc))) results;
           evaluate_addresses hasher storage addresses mv3 r)) as Hdef.
  { intros mv0 mv3. by destruct (mv_data mv0 !! loc). }
  rewrite !Hdef. rewrite (evaluate_history_values _ _ _
    (btree_iter (default ∅ (mv_data mv' !! loc)))).
  - destruct (evaluate_history _ _ _ _); [|done]. simpl. by apply IH.
  - rewrite <-!btree_iter_fmap. f_equal. apply map_eq. intros k. rewrite !lookup_fmap.
    specialize (Hs loc k). revert Hs. unfold value_at, entry_at.
    destruct (mv_data mv !! loc), (mv_data mv' !! loc); simpl; by rewrite ?lookup_empty.
Qed.
End evaluation.

(** ** The reference *)

Section reference.
Context `{RevmLaws} {S : Type} `{Storage S}.
Implicit Types (vm : Vm S) (mv : MvMemory).

(** Execute [todo] transactions from [i] on, each once; the first one that does
    not succeed ends the run. *)
Fixpoint in_order vm (todo : nat) (i : TxIdx) mv
  : outcome (result (list PevmTxExecutionResult * MvMemory) (TxIdx * VmExecutionResult)) :=
  match todo with
  | 0 => Val (Ok ([], mv))
  | Datatypes.S todo =>
      r ← Vm.execute vm (fun _ => mv) i;
      match r with
      | VmOk execution_result reads write_set _ =>
          '(_, mv) ← record {| tx_idx := i; tx_incarnation := 0 |} reads write_set mv;
          rest ← in_order vm todo (i + 1) mv;
          Val (map_ok (fun '(results, mv) => (execution_result :: results, mv)) rest)
      | r => Val (Err (i, r))
      end
  end.

(** The whole block: execute in order on an empty memory, add up the gas and
    evaluate the lazily updated accounts. *)
Definition in_order_block (hasher : MemoryLocation -> MemoryLocationHash) (storage : S)
  (chain : u64) (spec_id : SpecId) (block_env : BlockEnv) (txs : list TxEnv)
  : outcome (result (list PevmTxExecutionResult) (TxIdx * VmExecutionResult)) :=
  r ← in_order (Vm.new hasher storage chain spec_id block_env txs) (length txs) 0
        (MvMemory.new (length txs) []);
  match r with
  | Err e => Val (Err e)
  | Ok (results, mv) =>
      lazy_to ← lazy_to_addresses storage txs;
      results ← collect_results 0 (map Some results);
      results ← evaluate_addresses hasher storage
                  (elements lazy_to ++ [be_coinbase block_env]) mv results;
      Val (Ok results)
  end.

(** ** A memory that explains every result is the reference's *)

(** What [Serial] shows of a finished transaction. *)
Definition serial_tx vm mv (results : list (option PevmTxExecutionResult)) (i : TxIdx) : Prop :=
  exists r reads ws nv inc,
    Vm.execute vm (fun _ => mv) i = Val (VmOk r reads ws nv) /\
    results !! i = Some (Some r) /\
    forall loc, entry_at (mv_data mv) loc i = Data inc <$> written_value ws loc.

(** The reference's memory before transaction [i], against the final one. *)
Record in_order_inv (n : nat) (final : MvMemory) (i : TxIdx) mv : Prop := {
  io_length : length (mv_last_locations mv) = n;
  io_below : exists first : TxIdx -> TxIncarnation, forall loc k, k < i ->
    entry_at (mv_data final) loc k =
    ren_entry (fun k inc => first k + inc) k <$> entry_at (mv_data mv) loc k;
  io_above : forall loc k, i <= k -> entry_at (mv_data mv) loc k = None;
}.

(** Executing on the final memory is executing on the reference's, up to the
    numbers of the incarnations read. *)
Lemma in_order_outcome vm n final i mv :
  in_order_inv n final i mv ->
  exists g, Vm.execute vm (fun _ => final) i = ren_outcome g (Vm.execute vm (fun _ => mv) i).
Proof.
  intros [_ [first Hbelow] _]. set (g := fun k inc => first k + inc) in *. exists g.
  assert (forall k, Inj (=) (=) (g k)) as Hg by (intros k x y; unfold g; simpl; lia).
  rewrite <-(execute_ren g Hg vm (fun _ => mv)). apply execute_below. intros _ loc k Hk.
  by rewrite entry_at_ren, (Hbelow loc k Hk).
Qed.

Lemma in_order_execute vm n final results i mv :
  in_order_inv n final i mv -> serial_tx vm final results i ->
  exists r reads ws nv inc, Vm.execute vm (fun _ => mv) i = Val (VmOk r reads ws nv) /\
    results !! i = Some (Some r) /\
    forall loc, entry_at (mv_data final) loc i = Data inc <$> written_value ws loc.
Proof.
  intros Hinv (r & reads & ws & nv & inc & Hrun & Hr & He).
  destruct (in_order_outcome vm _ _ _ _ Hinv) as [g Hren]. rewrite Hren in Hrun.
  destruct (Vm.execute vm (fun _ => mv) i) as [[| | |r0 reads0 ws0 nv0]|]; simplify_eq/=.
  exists r, reads0, ws, nv, inc. done.
Qed.

Lemma in_order_record n final i mv reads ws inc :
  in_order_inv n final i mv -> i < n ->
  (forall loc, entry_at (mv_data final) loc i = Data inc <$> written_value ws loc) ->
  exists wrote mv', record {| tx_idx := i; tx_incarnation := 0 |} reads ws mv = Val (wrote, mv') /\
    in_order_inv n final (i + 1) mv'.
Proof.
  intros [Hlen [first Hbelow] Habove] Hi He.
  destruct (lookup_lt_is_Some_2 (mv_last_locations mv) i) as [last Hlast]; [lia|].
  destruct (record_run {| tx_idx := i; tx_incarnation := 0 |} reads ws mv last Hlast)
    as (wrote & mv' & Hrec & _ & Hl & Hent). simpl in *.
  exists wrote, mv'. split; [done|]. split.
  - by rewrite Hl, length_insert.
  - exists (fun k => if k =? i then inc else first k). intros loc k Hk. rewrite Hent.
    case_bool_decide as Hki.
    + subst k. rewrite He. destruct (written_value ws loc) as [v|]; simpl.
      * by rewrite Nat.eqb_refl, Nat.add_0_r.
      * case_bool_decide; [done|]. by rewrite (Habove loc i).
    + rewrite Hbelow by lia. destruct (entry_at (mv_data mv) loc k) as [[]|]; simpl; try done.
      by rewrite (proj2 (Nat.eqb_neq k i)) by lia.
  - intros loc k Hk. rewrite Hent, bool_decide_false by lia. apply Habove. lia.
Qed.

Lemma in_order_run vm n final results todo i mv :
  in_order_inv n final i mv -> i + todo = n ->
  (forall j, j < n -> serial_tx vm final results j) ->
  exists rs mv', in_order vm todo i mv = Val (Ok (rs, mv')) /\
    in_order_inv n final n mv' /\ length rs = todo /\
    forall j r, rs !! j = Some r -> results !! (i + j) = Some (Some r).
Proof.
  revert i mv. induction todo as [|todo IH]; intros i mv Hinv Hn Hs.
  - exists [], mv. rewrite Nat.add_0_r in Hn. subst. by split_and!.
  - destruct (in_order_execute _ _ _ _ _ _ Hinv (Hs i ltac:(lia)))
      as (r & reads & ws & nv & inc & Hrun & Hr & He).
    destruct (in_order_record _ _ _ _ reads _ _ Hinv ltac:(lia) He) as (wrote & mv1 & Hrec & Hinv1).
    destruct (IH (i + 1) mv1 Hinv1 ltac:(lia) Hs) as (rs & mv' & Hrest & Hinv' & Hl & Hrs).
    exists (r :: rs), mv'. simpl. rewrite Hrun. simpl. rewrite Hrec. simpl. rewrite Hrest.
    split_and!; [done|done|simpl; lia|]. intros [|j] r' Hj; simplify_eq/=.
    + by rewrite Nat.add_0_r.
    + rewrite <-(Hrs j r' Hj). f_equal. lia.
Qed.

Lemma in_order_same_values n final mv :
  (forall loc k e, entry_at (mv_data final) loc k = Some e -> k < n) ->
  in_order_inv n final n mv -> same_values final mv.
Proof.
  intros Hb [_ [first Hbelow] Habove] loc k. unfold value_at.
  destruct (decide (k < n)) as [Hk|Hk].
  - rewrite (Hbelow loc k Hk). by destruct (entry_at (mv_data mv) loc k) as [[]|].
  - rewrite (Habove loc k) by lia. destruct (entry_at (mv_data final) loc k) eqn:He; [|done].
    apply Hb in He. lia.
Qed.

Lemma in_order_inv_start n final : in_order_inv n final 0 (MvMemory.new n []).
Proof.
  split.
  - simpl. apply length_replicate.
  - exists (fun _ => 0). intros loc k Hk. lia.
  - done.
Qed.

(** The reference of a finished pool. *)
Lemma pool_in_order vm n status_ dependents deps threads (p : Pool (H := vm_ops vm)) :
  hashes_wf vm -> (Z.of_nat n < 2 ^ 64)%Z -> initial_wf n status_ dependents deps -> 0 < threads ->
  reachable (H := vm_ops vm) (vm_beneficiary_location_hash vm) status_ dependents deps threads p ->
  all_done p = true -> execution_error (pl_shared p) = None ->
  (forall i, 0 < i < n -> i < min_validation_idx (sh_scheduler (pl_shared p)) ->
     reads_valid (sh_memory (pl_shared p)) i) ->
  exists rs mv, in_order vm n 0 (MvMemory.new n []) = Val (Ok (rs, mv)) /\
    execution_results (pl_shared p) = map Some rs /\ same_values (sh_memory (pl_shared p)) mv.
Proof.
  intros Hvm Hn Hwf Hthreads Hp Hall He Hvalid.
  destruct (pool_complete (H := vm_ops vm) (n := n) (lazy := vm_beneficiary_location_hash vm)
    (VmContract0 := vm_contract vm _) _ _ _ _ _ Hn Hwf Hthreads Hp Hall He) as [Hinv _].
  destruct (in_order_run vm n (sh_memory (pl_shared p)) (execution_results (pl_shared p)) n 0
    (MvMemory.new n [])) as (rs & mv & Hrun & Hio & Hl & Hrs); [apply in_order_inv_start|done|..].
  { intros i Hi. eapply (pool_serial vm n); try done.
    destruct (decide (i = 0)); [by left|right].
    destruct (decide (min_validation_idx (sh_scheduler (pl_shared p)) <= i)); [by left|right].
    apply Hvalid; lia. }
  exists rs, mv. split_and!; [done| |].
  - pose proof (pi_results Hinv) as Hlen. apply list_eq. intros i. rewrite list_lookup_fmap.
    destruct (rs !! i) as [r|] eqn:Hr; simpl; [by apply Hrs|].
    apply lookup_ge_None in Hr. apply lookup_ge_None. simpl in *. lia.
  - eapply in_order_same_values; [|done]. intros loc k e Hent.
    by eapply mv_wf_bound; [apply Hinv|].
Qed.

Context `{!CacheDb S}.

Lemma finished_block_in_order hasher storage chain spec_id block_env txs level
  (su : Setup (S := S)) (p : Pool (H := vm_ops (su_vm su))) :
  (forall a b i, hasher (LocBasic a) <> hasher (LocStorage b i)) ->
  (Z.of_nat (length txs) < 2 ^ 64)%Z -> 0 < level ->
  setup hasher storage chain spec_id block_env txs level = Val (Some su) ->
  rtc (pool_step (H := vm_ops (su_vm su))) (setup_pool su txs) p ->
  all_done p = true -> execution_error (pl_shared p) = None ->
  (forall i, 0 < i < length txs -> i < min_validation_idx (sh_scheduler (pl_shared p)) ->
     validate_read_locations i (sh_memory (pl_shared p)) = Val true) ->
  exists out,
    finish_block hasher storage (su_lazy_to su) (be_coinbase block_env) (pl_shared p) =
      Val (Ok out) /\
    in_order_block hasher storage chain spec_id block_env txs = Val (Ok out).
Proof.
  intros Hdisj Hn Hlevel Hsu Hp Hall He Hvalid.
  destruct (finished_block_returns _ _ _ _ _ _ _ _ p Hdisj Hn Hlevel Hsu Hp Hall He)
    as (_ & out & _ & _ & Hout & _).
  destruct (setup_run _ _ _ _ _ _ _ _ Hsu)
    as (Hvm & c & Hc & Hthreads & st & dependents & deps & Hs & Hwf).
  destruct (pool_in_order (su_vm su) (length txs) st dependents deps (su_threads su) p)
    as (rs & mv & Hrun & Hrs & Hsame); try done; [|lia| |].
  - rewrite Hvm. by split.
  - unfold reachable. rewrite (iw_status _ _ _ _ Hwf), <-Hs. exact Hp.
  - exists out. split; [done|]. unfold in_order_block. rewrite <-Hvm, Hrun. simpl.
    rewrite (setup_lazy_to _ _ _ _ _ _ _ _ Hsu). simpl.
    unfold finish_block in Hout. rewrite He, Hrs in Hout.
    destruct (collect_results 0 (map Some rs)) as [results|]; [|done]. simpl in *.
    rewrite <-(evaluate_addresses_values _ _ _ _ _ _ Hsame).
    destruct (evaluate_addresses _ _ _ _ _) as [out'|]; [|done]. simpl in *. by simplify_eq.
Qed.

(** C1. A parallel block is the in-order block: when the threads of
    [execute_revm] have left without an error, and the transactions that no
    validation was asked for (those below [min_validation_idx], but the first
    one) read what the final memory holds, then what [execute_revm] returns is
    exactly what executing every transaction once, in order, on the writes of the
    transactions before it returns.  It does not depend on the interleaving, the
    number of threads, or how often transactions were executed. *)
Theorem parallel_block_in_order hasher storage chain spec_id block_env txs level
  (su : Setup (S := S)) (p : Pool (H := vm_ops (su_vm su))) :
  (forall a b i, hasher (LocBasic a) <> hasher (LocStorage b i)) ->
  (Z.of_nat (length txs) < 2 ^ 64)%Z -> 0 < level ->
  setup hasher storage chain spec_id block_env txs level = Val (Some su) ->
  rtc (pool_step (H := vm_ops (su_vm su))) (setup_pool su txs) p ->
  all_done p = true -> execution_error (pl_shared p) = None ->
  (forall i, 0 < i < length txs -> i < min_validation_idx (sh_scheduler (pl_shared p)) ->
     validate_read_locations i (sh_memory (pl_shared p)) = Val true) ->
  exists out,
    finish_block hasher storage (su_lazy_to su) (be_coinbase block_env) (pl_shared p) =
      Val (Ok out) /\
    in_order_block hasher storage chain spec_id block_env txs = Val (Ok out).
Proof. apply finished_block_in_order. Qed.
End reference.

(** ** Witness *)

Definition create_block : list PevmTxExecutionResult :=
  match in_order_block sample_hasher sample_storage 1 CANCUN sample_block create_txs with
  | Val (Ok out) => out
  | _ => []
  end.

Lemma parallel_block_in_order_witness :
  length create_block = 3 /\
  exists out,
    finish_block sample_hasher sample_storage (su_lazy_to create_setup) (be_coinbase sample_block)
      (pl_shared create_run) = Val (Ok out) /\
    in_order_block sample_hasher sample_storage 1 CANCUN sample_block create_txs = Val (Ok out).
Proof.
  split; [vm_compute; reflexivity|].
  apply (parallel_block_in_order sample_hasher sample_storage 1 CANCUN sample_block create_txs 8
    create_setup create_run).
  - exact sample_hasher_disjoint.
  - vm_compute. reflexivity.
  - lia.
  - vm_compute. reflexivity.
  - exact create_run_steps.
  - vm_compute. reflexivity.
  - vm_compute. reflexivity.
  - intros i [Hi _] Hmin. assert (i = 1) as -> by (vm_compute in Hmin; lia).
    vm_compute. reflexivity.
Defined.
