(* ===== verification/Solo.v ===== *)
(** * Solo: a block on one thread terminates with the in-order result

    With a concurrency level of one, the only worker executes the transactions
    in order: each one on the final values of the lower ones, so that no
    validation fails and nothing is executed twice.  When the in-order
    reference succeeds, [execute_revm] terminates and returns its result, and
    nothing else (blocks that preprocessing sends to sequential execution have
    its outcome).  A transaction, not the first, that lacks funds is retried
    forever. *)

From stdpp Require Import base list gmap relations strings.
From Stdlib Require Import ZArith Lia.
From S2P Require Import Prelude Types MvMemory Scheduler SchedulerEffects SchedulerInv Revm Storage.
From S2P Require Import Sample Vm Workers WorkersInv WorkersCorrect Validity Commit.
From S2P Require Import VmCorrect VmReplay VmValid Preprocess Pevm Relabel Serial Reference.

(** ** One iteration of [next_task] *)

Lemma next_task_iter_validation s v s' :
  sized s -> next_task_iter s = Val (Some (Some (ValidationTask v)), s') ->
  s' = with_validation_idx (validation_idx s + 1) s /\
  exists st, st_at s (tx_idx v) = Some st /\ is_done st = true.
Proof.
  intros Hs. unfold next_task_iter, mbind, ST_bind, st_gets. simpl.
  destruct (_ && _); [by case_match|]. destruct (_ <? _).
  - destruct (try_validate_run s Hs) as (r & -> & Hr). destruct r as [v'|]; [|done].
    intros [= -> <-]. split; [done|]. destruct Hr as (_ & tx & Htx & Hd & _).
    exists (status tx). split; [apply st_at_Some; eauto|done].
  - by destruct (try_execute _ _) as [[[]]|].
Qed.

(** The counter is past the transaction that was taken. *)
Lemma try_execute_loop_past fuel i s v s' :
  i < execution_idx s -> try_execute_loop fuel i s = Val (Some v, s') ->
  tx_idx v < execution_idx s'.
Proof.
  revert i s. induction fuel as [|fuel IH]; intros i s Hi; simpl; st_run.
  { by destruct (_ <? _). }
  destruct (_ <? _); [|done]. destruct (vec_get _ _) as [tx|]; [|done]. simpl.
  case_bool_decide; simpl; [by intros [= <- <-]|]. apply IH. simpl. lia.
Qed.

Lemma next_task_iter_execution s v s' :
  sized s -> next_task_iter s = Val (Some (Some (ExecutionTask v)), s') ->
  tx_idx v < execution_idx s'.
Proof.
  intros Hs. unfold next_task_iter, mbind, ST_bind, st_gets. simpl.
  destruct (_ && _); [by case_match|]. destruct (_ <? _).
  - by destruct (try_validate_run s Hs) as ([] & -> & _).
  - destruct (try_execute _ _) as [[[v'|] s1]|] eqn:He; try done. intros [= -> <-].
    unfold try_execute in He. eapply try_execute_loop_past; [|done]. simpl. lia.
Qed.

Lemma finish_validation_keeps v s r s' :
  finish_validation v false s = Val (r, s') ->
  r = None /\ execution_idx s' = execution_idx s /\ validation_idx s' = validation_idx s.
Proof.
  unfold finish_validation. st_run. destruct (vec_get _ _) as [tx|]; [|done]. simpl.
  case_bool_decide; simpl; by intros [= <- <-].
Qed.

(** ** A pool with one worker *)

Section solo.
Context `{RevmLaws} {S : Type} `{Storage S} (vm : Vm S) (n : nat).
#[local] Existing Instance vm_ops.
Implicit Types (sh : Shared) (mv : MvMemory).

Abbreviation Worker := (worker (H := vm_ops vm)) (only parsing).
Abbreviation PoolOf := (Pool (H := vm_ops vm)) (only parsing).
Abbreviation steps := (rtc (pool_step (H := vm_ops vm))) (only parsing).

Definition solo (w : Worker) sh : PoolOf :=
  {| pl_shared := sh; pl_workers := [w] |}.

Lemma solo_step w sh w' sh' :
  worker_step (H := vm_ops vm) w sh = Val (w', sh') -> steps (solo w sh) (solo w' sh').
Proof.
  intros Hrun. apply rtc_once. exists 0. split; [simpl; lia|]. unfold step_thread, solo. simpl.
  by rewrite Hrun.
Qed.

Lemma solo_steps_execute fuel calls (e : @Exec (vm_ops vm)) v sh r :
  execute_steps vm (fun _ => sh_memory sh) fuel calls e = Val r ->
  steps (solo (WRun v e) sh) (solo (handle_result v r) sh).
Proof.
  revert calls e. induction fuel as [|fuel IH]; intros calls e Hrun; [done|].
  cbn [execute_steps] in Hrun.
  destruct (vm_step (sh_memory sh) e) as [[e'|r']|] eqn:Hstep; simpl in Hrun; [| |done].
  - transitivity (solo (WRun v e') sh); [|by eapply IH].
    apply solo_step. cbn [worker_step]. by rewrite Hstep.
  - simplify_eq. apply solo_step. cbn [worker_step]. by rewrite Hstep.
Qed.

(** An undisturbed execution ends with the result of [Vm::execute]. *)
Lemma solo_execute v sh r :
  Vm.execute vm (fun _ => sh_memory sh) (tx_idx v) = Val r ->
  steps (solo (WExecute v) sh) (solo (handle_result v r) sh).
Proof.
  intros Hrun. unfold Vm.execute in Hrun.
  destruct (begin_execution vm (tx_idx v)) as [[ex db]|] eqn:Hb; [|done].
  change (('(r, db) ← run_db vm (fun _ => sh_memory sh) (execution_program vm ex) 0 db;
           end_execution vm ex db r) = Val r) in Hrun.
  destruct (execute_steps_run vm (fun _ => sh_memory sh) ex (execution_program vm ex) 0 db)
    as [fuel Hfuel].
  transitivity (solo (WRun (H := vm_ops vm) v (ex, execution_program vm ex, db)) sh).
  - apply solo_step. cbn [worker_step vm_start vm_ops]. by rewrite Hb.
  - apply (solo_steps_execute fuel 0). by rewrite Hfuel.
Qed.

Abbreviation good p :=
  (pool_inv (H := vm_ops vm) (n := n) (lazy := vm_beneficiary_location_hash vm)
            (VmContract0 := vm_contract vm n) false p) (only parsing).

Lemma solo_good w sh w' sh' :
  good (solo w sh) -> steps (solo w sh) (solo w' sh') -> execution_error sh' = None ->
  (forall f, w' <> WPanicked f) -> good (solo w' sh').
Proof.
  intros Hinv Hsteps He Hp.
  destruct (pool_inv_steps (H := vm_ops vm) _ _ _ Hinv Hsteps) as [failed Hf].
  eapply pool_inv_not_failed; [done|done|].
  intros [|t] f Ht; simpl in Ht; simplify_eq; by eapply Hp.
Qed.

(** The pool has executed the transactions below [e] as the reference has. *)
Record in_step (e : TxIdx) (m : MvMemory) (p : PoolOf) : Prop := {
  is_good : good p;
  is_error : execution_error (pl_shared p) = None;
  is_reference : in_order_inv n (sh_memory (pl_shared p)) e m;
  is_valid : forall i, i < e -> reads_valid (sh_memory (pl_shared p)) i;
  is_executed : forall i st, st_at (sh_scheduler (pl_shared p)) i = Some st ->
    is_done st = true <-> i < e;
}.

(** A step that is a scheduler operation on no transaction's execution. *)
Lemma in_step_sched e m w w' sh s' :
  in_step e m (solo w sh) -> steps (solo w sh) (solo w' (with_scheduler s' sh)) ->
  (forall f, w' <> WPanicked f) -> effect None (sh_scheduler sh) s' ->
  in_step e m (solo w' (with_scheduler s' sh)).
Proof.
  intros [Hg He Hr Hv Hd] Hsteps Hp Hef. split; try done.
  - by eapply solo_good.
  - intros i st' Hst'. simpl in Hst'. destruct (effect_st_at _ _ _ _ _ Hef Hst') as (st & Hst & E).
    rewrite E by done. by apply Hd.
Qed.

Lemma solo_check sh next :
  execution_error sh = None ->
  steps (solo (WCheckError next) sh)
        (solo (match next with Some task => start_task task | None => WNext end) sh).
Proof. intros He. apply solo_step. simpl. by rewrite He. Qed.

(** A validation finds the reads valid. *)
Lemma solo_validate e m v sh :
  in_step e m (solo (WValidate v) sh) -> tx_idx v < e ->
  exists s', steps (solo (WValidate v) sh) (solo WNext (with_scheduler s' sh)) /\
    in_step e m (solo WNext (with_scheduler s' sh)) /\
    execution_idx s' = execution_idx (sh_scheduler sh) /\
    validation_idx s' = validation_idx (sh_scheduler sh).
Proof.
  intros Hin Hv. pose proof (is_valid _ _ _ Hin _ Hv) as Hvalid. simpl in Hvalid.
  assert (steps (solo (WValidate v) sh) (solo (WFinishValidation v false) sh)) as Hs1.
  { apply solo_step. simpl. by rewrite Hvalid. }
  assert (good (solo (WFinishValidation v false) sh)) as Hg
    by (eapply solo_good; [apply Hin|done|apply Hin|done]).
  destruct (finish_validation_ok_sinv (sh_scheduler sh) [Some (RValidate (tx_idx v))] false 0 v)
    as (s' & Hrun & _); [apply Hg|done|].
  pose proof (finish_validation_ensures None _ _ _ _ _ Hrun) as Hef.
  destruct (finish_validation_keeps _ _ _ _ Hrun) as (_ & Hx & Hy).
  assert (steps (solo (WValidate v) sh) (solo WNext (with_scheduler s' sh))) as Hs2.
  { etransitivity; [done|]. etransitivity; [|apply (solo_check _ None), Hin].
    apply solo_step. cbn [worker_step]. unfold on_scheduler. by rewrite Hrun. }
  exists s'. split_and!; [done| |done|done]. by eapply in_step_sched.
Qed.

(** Recording an execution keeps the memories in step. *)
Lemma record_in_order e m mv v reads reads0 ws wrote mv' w0 m1 :
  in_order_inv n mv e m -> mv_wf n mv -> e < n -> tx_idx v = e ->
  (forall loc, entry_at (mv_data mv) loc e = Some Estimate ->
     loc ∈ map fst ws \/
     exists last, mv_last_locations mv !! e = Some last /\ loc ∈ ll_write last) ->
  record v reads ws mv = Val (wrote, mv') ->
  record {| tx_idx := e; tx_incarnation := 0 |} reads0 ws m = Val (w0, m1) ->
  in_order_inv n mv' (e + 1) m1.
Proof.
  intros Hio Hwf Hlt He Hest Hrec Hm.
  destruct (lookup_lt_is_Some_2 (mv_last_locations mv) (tx_idx v)) as [last Hlast].
  { rewrite (mv_wf_length _ _ Hwf). lia. }
  destruct (record_run v reads ws mv last Hlast) as (wrote' & mv'' & Hrec' & _ & Hl' & Hent).
  rewrite Hrec in Hrec'. simplify_eq. set (e := tx_idx v) in *.
  destruct Hio as [Hl [first Hbelow] Habove].
  destruct (in_order_record n mv'' e m reads0 ws (tx_incarnation v)) as (w1 & m1' & Hm' & Hinv);
    [|done| |by rewrite Hm in Hm'; simplify_eq].
  - split; [done| |done]. exists first. intros loc k Hk. rewrite Hent, bool_decide_false by lia.
    by apply Hbelow.
  - intros loc. rewrite Hent, bool_decide_true by done.
    destruct (written_value ws loc) eqn:Hw; [done|]. apply written_value_None in Hw.
    case_bool_decide as Hin; [done|]. destruct (entry_at (mv_data mv) loc e) as [[inc x|]|] eqn:Hx;
      [|destruct (Hest loc Hx) as [?|(? & ? & ?)]; by simplify_eq|done].
    destruct (mv_wf_data _ _ Hwf _ _ _ _ Hx) as (? & ? & ?). by simplify_eq.
Qed.

(** Recorded reads of the current memory are valid, and others stay so. *)
Lemma record_reads_valid e mv v reads ws wrote mv' res nv :
  mv_wf n mv -> mv_wf n mv' -> e < n -> tx_idx v = e ->
  Vm.execute vm (fun _ => mv) e = Val (VmOk res reads ws nv) ->
  record v reads ws mv = Val (wrote, mv') ->
  (forall i, i < e -> reads_valid mv i) -> forall i, i < e + 1 -> reads_valid mv' i.
Proof.
  intros Hwf Hwf' Hlt He Hrun Hrec Hv i Hi.
  destruct (lookup_lt_is_Some_2 (mv_last_locations mv) (tx_idx v)) as [last Hlast].
  { rewrite (mv_wf_length _ _ Hwf). lia. }
  destruct (record_run v reads ws mv last Hlast) as (wrote' & mv'' & Hrec' & _ & Hl' & Hent).
  rewrite Hrec in Hrec'. simplify_eq.
  assert (forall loc k, k < tx_idx v ->
    entry_at (mv_data mv'') loc k = entry_at (mv_data mv) loc k) as Hbelow.
  { intros loc k Hk. by rewrite Hent, bool_decide_false by lia. }
  destruct (decide (i = tx_idx v)) as [->|Hne].
  - assert (mv_last_locations mv'' !! tx_idx v =
      Some {| ll_read := reads; ll_write := map fst ws |}) as Hlast'.
    { rewrite Hl'. apply list_lookup_insert_eq. by eapply lookup_lt_Some. }
    apply (validate_read_locations_true _ _ _ Hlast'). simpl. intros loc origins Ho.
    pose proof (execute_confirms vm mv _ _ _ _ _ Hrun loc origins Ho) as Hc.
    rewrite validate_location_history in Hc |- *.
    2, 3: by eapply (mv_wf_read _ _ Hwf' (tx_idx v) _ loc).
    by rewrite (history_ext (mv_data mv'') (mv_data mv)) by auto.
  - unfold reads_valid. rewrite (validate_ext n mv mv''); [apply Hv; lia|done|done|lia| |].
    + rewrite Hl'. by apply list_lookup_insert_ne.
    + intros loc k Hk. apply Hbelow. lia.
Qed.

(** The execution of the next transaction, up to the worker's next task. *)
Lemma solo_execution e m m1 v sh res reads0 ws nv w0 :
  in_step e m (solo (WExecute v) sh) -> e < n -> tx_idx v = e ->
  Vm.execute vm (fun _ => m) e = Val (VmOk res reads0 ws nv) ->
  record {| tx_idx := e; tx_incarnation := 0 |} reads0 ws m = Val (w0, m1) ->
  exists w' sh', steps (solo (WExecute v) sh) (solo w' sh') /\
    in_step (e + 1) m1 (solo w' sh') /\ (w' = WNext \/ w' = WValidate v).
Proof.
  intros Hin Hlt Hv Hrun Hm1. pose proof (is_good _ _ _ Hin) as Hg.
  pose proof (is_error _ _ _ Hin) as Herr. simpl in Herr.
  destruct (in_order_outcome vm _ _ _ _ (is_reference _ _ _ Hin)) as [g Hren].
  rewrite Hrun in Hren. simpl in Hren. set (reads := ren_reads g reads0) in *.
  assert (steps (solo (WExecute v) sh) (solo (WStoreResult v res reads ws nv) sh)) as Hs1.
  { apply (solo_execute v sh (VmOk res reads ws nv)). by rewrite Hv. }
  assert (good (solo (WStoreResult v res reads ws nv) sh)) as Hg1 by by apply (solo_good _ _ _ _ Hg).
  destruct (wi_holds (pi_workers Hg1 0 _ eq_refl)) as (Hlazy & Horigins & _).
  destruct (lookup_lt_is_Some_2 (execution_results sh) e) as [old Hold].
  { pose proof (pi_results Hg) as Hl. simpl in Hl. by rewrite Hl. }
  set (sh1 := with_results (<[e := Some res]> (execution_results sh)) sh).
  assert (steps (solo (WExecute v) sh) (solo (WRecord v reads ws nv) sh1)) as Hs2.
  { etransitivity; [done|]. apply solo_step. cbn [worker_step]. rewrite Hv.
    by rewrite (vec_get_Some _ _ _ Hold). }
  destruct (lookup_lt_is_Some_2 (mv_last_locations (sh_memory sh)) (tx_idx v)) as [last Hlast].
  { pose proof (mv_wf_length _ _ (pi_memory Hg)) as Hl. simpl in Hl. by rewrite Hl, Hv. }
  destruct (record_run v reads ws (sh_memory sh) last Hlast) as (wrote & mv' & Hrec & _).
  set (sh2 := with_memory mv' sh1).
  assert (steps (solo (WExecute v) sh) (solo (WFinishExecution v wrote nv) sh2)) as Hs3.
  { etransitivity; [done|]. apply solo_step. cbn [worker_step]. simpl. by rewrite Hrec. }
  assert (good (solo (WFinishExecution v wrote nv) sh2)) as Hg3 by by apply (solo_good _ _ _ _ Hg).
  destruct (wi_holds (pi_workers Hg3 0 _ eq_refl)) as (_ & _ & Hnv & Hwrote).
  destruct (finish_execution_sinv (sh_scheduler sh2) [Some (RExecute (tx_idx v))] false 0 v wrote nv)
    as (r & s' & Hfin & _ & Hr & Hst & _); [apply Hg3|done|done|by intros _|].
  set (sh3 := with_scheduler s' sh2).
  set (w' := match r with Some task => start_task (H := vm_ops vm) task | None => WNext end).
  assert (steps (solo (WExecute v) sh) (solo w' sh3)) as Hs4.
  { etransitivity; [done|]. etransitivity; [|by apply solo_check].
    apply solo_step. cbn [worker_step]. unfold on_scheduler. by rewrite Hfin. }
  assert (w' = WNext \/ w' = WValidate v) as Hw' by (destruct Hr as [-> | ->]; auto).
  exists w', sh3. split_and!; [done| |done].
  assert (good (solo w' sh3)) as Hg4.
  { apply (solo_good _ _ _ _ Hg); [done|done|]. by destruct Hw' as [-> | ->]. }
  split; [done|done| | |].
  - eapply (record_in_order e m (sh_memory sh)); [apply Hin|apply Hg|done|done| |done|done].
    intros loc Hest. destruct (pi_estimates Hg _ _ Hest) as [->|?]; [by left|by right].
  - eapply (record_reads_valid e (sh_memory sh)); [apply Hg|apply Hg4|done|done|done|done|].
    apply Hin.
  - intros i st' Hst'. simpl in Hst'.
    destruct (effect_st_at _ _ _ _ _ (finish_execution_ensures _ _ _ _ _ _ Hfin) Hst')
      as (st & Hsti & Heq). destruct (decide (i = e)) as [->|Hne].
    + rewrite <-Hv, Hst in Hst'. simplify_eq. split; [lia|done].
    + rewrite Heq by congruence. rewrite (is_executed _ _ _ Hin _ _ Hsti). lia.
Qed.

(** ** The lowest transaction that is not executed is the one that is taken *)

Lemma lowest_ready s roles e :
  sinv s roles false -> (forall t i, ~ has_role roles t (RAbort i)) ->
  (forall t, ~ has_role roles t (RExecute e)) -> e < block_size s ->
  (forall i st, st_at s i = Some st -> is_done st = true <-> i < e) ->
  execution_idx s <= e.
Proof.
  intros Hinv Hna Hne Hlt Hd. destruct (sized_lookup s e (si_sized Hinv) Hlt) as [tx Htx].
  assert (st_at s e = Some (status tx)) as Hst by (apply st_at_Some; eauto).
  pose proof (si_tx Hinv _ _ Hst) as Hti. pose proof (Hd _ _ Hst) as [Hde _].
  destruct (status tx) eqn:E; try (specialize (Hde eq_refl); lia).
  - by apply (ti_ready Hti).
  - destruct (ti_executing Hti eq_refl eq_refl) as [t Ht]. by destruct (Hne t).
  - destruct (ti_aborting Hti eq_refl eq_refl) as [Hw|[t Ht]]; [|by destruct (Hna t e)].
    apply waits_pos in Hw as [b Hb]. destruct (si_wait Hinv e b Hb) as [Hbe Hnd].
    destruct (sized_lookup s b (si_sized Hinv)) as [txb Htxb]; [lia|].
    assert (st_at s b = Some (status txb)) as Hstb by (apply st_at_Some; eauto).
    specialize (Hnd _ Hstb). rewrite (proj2 (Hd _ _ Hstb)) in Hnd by lia. done.
Qed.

(** One iteration of [next_task], by what it returns. *)
Lemma solo_next e m sh r s' :
  in_step e m (solo WNext sh) -> next_task_iter (sh_scheduler sh) = Val (r, s') ->
  let w' := match r with None => WNext | Some None => WDone
                       | Some (Some task) => start_task (H := vm_ops vm) task end in
  steps (solo WNext sh) (solo w' (with_scheduler s' sh)) /\
  in_step e m (solo w' (with_scheduler s' sh)).
Proof.
  intros Hin Hrun w'.
  assert (steps (solo WNext sh) (solo w' (with_scheduler s' sh))) as Hs.
  { apply solo_step. cbn [worker_step]. unfold on_scheduler. rewrite Hrun. by destruct r as [[]|]. }
  split; [done|]. eapply in_step_sched; [done|done| |by eapply next_task_iter_ensures].
  unfold w'. by destruct r as [[[]|]|].
Qed.

Lemma solo_task_execution e m sh v s' :
  in_step e m (solo WNext sh) ->
  next_task_iter (sh_scheduler sh) = Val (Some (Some (ExecutionTask v)), s') ->
  tx_idx v = e /\ e < n.
Proof.
  intros Hin Hrun. pose proof (is_good _ _ _ Hin) as Hg.
  destruct (solo_next _ _ _ _ _ Hin Hrun) as [Hsteps Hin'].
  pose proof (is_good _ _ _ Hin') as Hg'. pose proof (pi_scheduler Hg') as Hs'.
  pose proof (pi_size Hg') as Hn. simpl in Hs', Hn.
  destruct (si_tx Hs') with (i := tx_idx v) (st := Executing) as [Hx _ _ _ _ _ _ _ _ _].
  { destruct (wi_pending (pi_workers Hg' 0 _ eq_refl) v eq_refl) as [Hv _].
    apply st_at_Some. by eexists. }
  pose proof (si_roles Hs' 0 _ eq_refl) as Hv. simpl in Hv.
  assert (st_at s' (tx_idx v) = Some Executing) as Hst.
  { destruct (wi_pending (pi_workers Hg' 0 _ eq_refl) v eq_refl) as [Hv' _].
    apply st_at_Some. by eexists. }
  pose proof (is_executed _ _ _ Hin' _ _ Hst) as [_ Hge].
  assert (e <= tx_idx v) as Hle.
  { destruct (decide (e <= tx_idx v)); [done|]. specialize (Hge ltac:(lia)). done. }
  destruct (decide (e = tx_idx v)) as [->|Hne]; [split; [done|lia]|exfalso].
  assert (execution_idx s' <= e) as Hidx.
  { apply (lowest_ready s' [Some (RExecute (tx_idx v))]); [done| | |lia|].
    - by intros [|[]].
    - intros [|[]]; try done. intros [= ?]. lia.
    - apply (is_executed _ _ _ Hin'). }
  pose proof (next_task_iter_execution _ _ _ (si_sized (pi_scheduler Hg)) Hrun). lia.
Qed.

(** From [next_task], the worker leaves or executes the next transaction: every
    other turn moves a counter. *)
Lemma solo_settles k e m sh :
  in_step e m (solo WNext sh) ->
  2 * n + 2 - (execution_idx (sh_scheduler sh) + validation_idx (sh_scheduler sh)) <= k ->
  exists w' sh', steps (solo WNext sh) (solo w' sh') /\ in_step e m (solo w' sh') /\
    (w' = WDone /\ n <= e \/ exists v, w' = WExecute v /\ tx_idx v = e /\ e < n).
Proof.
  revert sh. induction k as [|k IH]; intros sh Hin Hk;
    pose proof (is_good _ _ _ Hin) as Hg; pose proof (pi_scheduler Hg) as Hs;
    pose proof (pi_size Hg) as Hsize; simpl in Hs, Hsize;
    pose proof (si_execution_bound Hs) as Hxb; pose proof (si_validation_bound Hs) as Hvb; [lia|].
  assert (forall t r0, ~ has_role [@None role] t r0) as Hno by (by intros [|[]] ?).
  destruct (next_task_iter_sinv (sh_scheduler sh) [None] false 0 Hs eq_refl)
    as (r & s' & Hiter & _ & Hend & Hloop & _).
  destruct (solo_next _ _ _ _ _ Hin Hiter) as [Hsteps Hin'].
  assert (forall w0 s0, steps (solo WNext sh) (solo w0 (with_scheduler s0 sh)) -> w0 = WNext ->
    in_step e m (solo w0 (with_scheduler s0 sh)) ->
    execution_idx (sh_scheduler sh) + validation_idx (sh_scheduler sh) <
      execution_idx s0 + validation_idx s0 ->
    exists w' sh', steps (solo WNext sh) (solo w' sh') /\ in_step e m (solo w' sh') /\
      (w' = WDone /\ n <= e \/ exists v, w' = WExecute v /\ tx_idx v = e /\ e < n)) as Hnext.
  { intros w0 s0 Hs0 -> Hin0 Hmove. destruct (IH (with_scheduler s0 sh)) as (w' & sh' & ? & ?);
      [done|simpl; lia|]. exists w', sh'. split; [by etransitivity|done]. }
  destruct r as [[[v|v]|]|]; simpl in Hsteps, Hin'.
  - destruct (solo_task_execution _ _ _ _ _ Hin Hiter) as [Hv Hlt].
    eexists _, _. split; [done|]. split; [done|]. right. by exists v.
  - destruct (next_task_iter_validation _ _ _ (si_sized Hs) Hiter) as (-> & st & Hst & Hd).
    apply (is_executed _ _ _ Hin) in Hst as Hlt. apply Hlt in Hd.
    destruct (solo_validate _ _ _ _ Hin' Hd) as (s2 & Hs2 & Hin2 & Hx & Hy).
    apply (Hnext WNext s2); [by etransitivity|done|done|]. simpl in Hx, Hy. lia.
  - eexists _, _. split; [done|]. split; [done|]. left. split; [done|].
    destruct (Hend eq_refl) as (-> & He & _). destruct (decide (n <= e)); [done|].
    destruct (sized_lookup (sh_scheduler sh) e (si_sized Hs)) as [tx Htx]; [lia|].
    assert (st_at (sh_scheduler sh) e = Some (status tx)) as Hst by (apply st_at_Some; eauto).
    pose proof (sinv_idle_done _ _ Hs Hno He _ _ Hst) as Hd.
    apply (is_executed _ _ _ Hin) in Hst as Hlt. apply Hlt in Hd. lia.
  - destruct (Hloop eq_refl) as [(_ & He & Hv & Hwait)|Hmove]; [|by eapply Hnext].
    destruct Hwait. by eapply sinv_idle_validated.
Qed.

(** The worker executes the next transactions once, in order. *)
Lemma solo_reaches todo e m sh rs m' :
  in_step e m (solo WNext sh) -> e + todo <= n -> in_order vm todo e m = Val (Ok (rs, m')) ->
  exists sh', steps (solo WNext sh) (solo WNext sh') /\ in_step (e + todo) m' (solo WNext sh').
Proof.
  revert e m sh rs. induction todo as [|todo IH]; intros e m sh rs Hin Hn Hrun; simpl in Hrun.
  { simplify_eq. exists sh. split; [done|]. by rewrite Nat.add_0_r. }
  destruct (solo_settles _ e m sh Hin (le_n _))
    as (w1 & sh1 & Hs1 & Hin1 & [[-> Hle]|(v & -> & Hv & Hlt)]); [lia|].
  destruct (Vm.execute vm (fun _ => m) e) as [[| | |res reads ws nv]|] eqn:Hx; simplify_eq/=.
  destruct (record {| tx_idx := tx_idx v; tx_incarnation := 0 |} reads ws m) as [[w0 m1]|] eqn:Hm1;
    [|done]. simpl in Hrun.
  destruct (in_order vm todo (tx_idx v + 1) m1) as [[[rs1 m2]|]|] eqn:Hrest; simplify_eq/=.
  destruct (solo_execution _ _ _ _ _ _ _ _ _ _ Hin1 Hlt eq_refl Hx Hm1)
    as (w2 & sh2 & Hs2 & Hin2 & Hw2).
  assert (exists sh3, steps (solo WNext sh) (solo WNext sh3) /\
    in_step (tx_idx v + 1) m1 (solo WNext sh3)) as (sh3 & Hs3 & Hin3).
  { destruct Hw2 as [-> | ->].
    - exists sh2. split; [|done]. etransitivity; [exact Hs1|exact Hs2].
    - destruct (solo_validate _ _ _ _ Hin2) as (s3 & Hs3 & Hin3 & _); [lia|].
      exists (with_scheduler s3 sh2). split; [|done].
      etransitivity; [exact Hs1|]. by etransitivity. }
  destruct (IH _ _ _ _ Hin3 ltac:(lia) Hrest) as (sh' & Hs' & Hin').
  exists sh'. split; [by etransitivity|]. by replace (tx_idx v + Datatypes.S todo) with (tx_idx v + 1 + todo) by lia.
Qed.

(** At the end of the block the worker leaves. *)
Lemma solo_runs todo e m sh rs m' :
  in_step e m (solo WNext sh) -> e + todo = n -> in_order vm todo e m = Val (Ok (rs, m')) ->
  exists sh', steps (solo WNext sh) (solo WDone sh') /\ execution_error sh' = None /\
    forall i, i < n -> reads_valid (sh_memory sh') i.
Proof.
  intros Hin Hn Hrun. destruct (solo_reaches todo e m sh rs m' Hin ltac:(lia) Hrun) as (sh1 & Hs1 & Hin1).
  destruct (solo_settles _ _ _ _ Hin1 (le_n _))
    as (w2 & sh2 & Hs2 & Hin2 & [[-> Hle]|(v & _ & _ & Hlt)]); [|lia].
  exists sh2. split_and!; [by etransitivity|apply Hin2|]. intros i Hi. apply Hin2. lia.
Qed.

(** An execution that is blocked on an executed transaction starts again. *)
Lemma solo_blocked e m v sh b :
  in_step e m (solo (WExecute v) sh) -> tx_idx v = e -> b < e -> e < n ->
  Vm.execute vm (fun _ => m) e = Val (VmReadError b) ->
  steps (solo (WExecute v) sh) (solo (WAddDependency v b) sh) /\
  steps (solo (WAddDependency v b) sh) (solo (WExecute v) sh).
Proof.
  intros Hin Hv Hb He Hrun. destruct (in_order_outcome vm _ _ _ _ (is_reference _ _ _ Hin)) as [g Hren].
  rewrite Hrun in Hren. simpl in Hren. split.
  { apply (solo_execute v sh (VmReadError b)). by rewrite Hv. }
  apply solo_step. cbn [worker_step]. unfold on_scheduler.
  pose proof (is_good _ _ _ Hin) as Hg. pose proof (pi_size Hg) as Hsize. simpl in Hsize.
  destruct (sized_lookup (sh_scheduler sh) b (si_sized (pi_scheduler Hg))) as [tx Htx];
    [simpl; lia|].
  assert (is_done (status tx) = true) as Hd.
  { apply (is_executed _ _ _ Hin b); [|done]. apply st_at_Some. eauto. }
  unfold add_dependency, lock_status. unfold mbind, ST_bind. simpl.
  rewrite (vec_get_Some _ _ _ Htx). simpl. rewrite Hd. simpl. by destruct sh.
Qed.

(** ** The only run *)

Lemma solo_step_inv w sh p :
  pool_step (H := vm_ops vm) (solo w sh) p -> p = step_thread (H := vm_ops vm) 0 (solo w sh).
Proof. intros (t & Ht & ->). simpl in Ht. by assert (t = 0) as -> by lia. Qed.

Lemma solo_shape w sh p : pool_step (H := vm_ops vm) (solo w sh) p -> exists w' sh', p = solo w' sh'.
Proof.
  intros ->%solo_step_inv. unfold step_thread. simpl.
  destruct (worker_step w sh) as [[w' sh']|f]; [by exists w', sh'|by exists (WPanicked f), sh].
Qed.

Lemma solo_shapes w sh p : steps (solo w sh) p -> exists w' sh', p = solo w' sh'.
Proof.
  intros Hs. apply (rtc_invariant _ (fun p => exists w' sh', p = solo w' sh') _ _ Hs); [eauto|].
  intros p1 p2 Hstep (w' & sh' & ->). by eapply solo_shape.
Qed.

(** A worker that has ended stays where it is. *)
Lemma solo_ended w sh p :
  w = WDone \/ (exists f, w = WPanicked f) -> steps (solo w sh) p -> p = solo w sh.
Proof.
  intros Hw Hsteps. remember (solo w sh) as q eqn:Hq. induction Hsteps as [|q p1 p2 Hstep _ IH];
    [done|]. subst. apply solo_step_inv in Hstep.
  assert (p1 = solo w sh) as -> by (destruct Hw as [->|[f ->]]; done). auto.
Qed.

(** Two runs of one worker are one run. *)
Lemma solo_confluent w sh p1 p2 :
  steps (solo w sh) p1 -> steps (solo w sh) p2 -> steps p1 p2 \/ steps p2 p1.
Proof.
  intros Hs1 Hs2. remember (solo w sh) as q eqn:Hq. revert w sh Hq p2 Hs2.
  induction Hs1 as [|q q1 p1 Hstep Hs1 IH]; intros w sh -> p2 Hs2; [by left|].
  inversion Hs2 as [|? q2 ? Hstep2 Hs2']; subst; [right; by eapply rtc_l|].
  destruct (solo_shape _ _ _ Hstep) as (w1 & sh1 & ->).
  apply solo_step_inv in Hstep. pose proof (solo_step_inv _ _ _ Hstep2) as ->.
  rewrite <-Hstep in Hs2'. by eapply IH.
Qed.

(** From a state that the run comes back to, every state leads back to it. *)
Lemma solo_cycle w sh q p :
  pool_step (H := vm_ops vm) (solo w sh) q -> steps q (solo w sh) ->
  steps (solo w sh) p -> steps p (solo w sh).
Proof.
  intros Hstep Hback Hp.
  assert (steps p (solo w sh) /\ exists w' sh', p = solo w' sh') as [? _]; [|done].
  apply (rtc_invariant _ (fun p => steps p (solo w sh) /\ exists w' sh', p = solo w' sh') _ _ Hp);
    [by split; [|eexists _, _]|].
  intros p1 p2 Hp12 [Hp1 (w1 & sh1 & ->)]. split; [|by eapply solo_shape].
  inversion Hp1 as [|? q1 ? Hq1]; subst.
  - apply solo_step_inv in Hstep. apply solo_step_inv in Hp12. by subst.
  - apply solo_step_inv in Hq1. apply solo_step_inv in Hp12. by subst.
Qed.

Lemma in_step_start status_ dependents deps :
  (Z.of_nat n < 2 ^ 64)%Z -> initial_wf n status_ dependents deps ->
  in_step 0 (MvMemory.new n [])
    (start_pool (Scheduler.new n status_ dependents deps)
       (initial_memory n (vm_beneficiary_location_hash vm)) n 1).
Proof.
  intros Hn Hwf. split; [by apply pool_inv_initial|done|apply in_order_inv_start|lia|].
  intros i st (tx & Htx & <-)%st_at_Some. simpl in Htx. split; [|lia].
  by destruct (iw_tx _ _ _ _ Hwf i tx Htx) as [[-> _]|[-> _]].
Qed.
End solo.

(** ** Total correctness on one thread *)

Section total.
Context `{RevmLaws} {S : Type} `{Storage S} `{!CacheDb S}.

Lemma setup_pool_solo hasher (storage : S) chain spec_id block_env txs su :
  setup hasher storage chain spec_id block_env txs 1 = Val (Some su) ->
  exists sh, setup_pool su txs = solo (su_vm su) WNext sh.
Proof.
  intros Hsu. destruct (setup_run _ _ _ _ _ _ _ _ Hsu) as (_ & c & Hc & Hthreads & _).
  unfold setup_pool. rewrite Hthreads, Nat.min_l by lia. by eexists.
Qed.

(** The worker comes to the execution of transaction [k]. *)
Lemma solo_block_reaches hasher (storage : S) chain spec_id block_env txs su k rs m :
  (Z.of_nat (length txs) < 2 ^ 64)%Z ->
  setup hasher storage chain spec_id block_env txs 1 = Val (Some su) -> k < length txs ->
  in_order (Vm.new hasher storage chain spec_id block_env txs) k 0
    (MvMemory.new (length txs) []) = Val (Ok (rs, m)) ->
  exists v sh, rtc (pool_step (H := vm_ops (su_vm su))) (setup_pool su txs)
                   (solo (su_vm su) (WExecute v) sh) /\
    in_step (su_vm su) (length txs) k m (solo (su_vm su) (WExecute v) sh) /\ tx_idx v = k.
Proof.
  intros Hn Hsu Hk Hrun. destruct (setup_run _ _ _ _ _ _ _ _ Hsu)
    as (Hvm & c & Hc & Hthreads & st & dependents & deps & Hs & Hwf).
  rewrite <-Hvm in Hrun.
  pose proof (in_step_start (su_vm su) (length txs) st dependents deps Hn Hwf) as Hin.
  unfold setup_pool. rewrite Hs, Hthreads, Nat.min_l by lia.
  destruct (solo_reaches (su_vm su) (length txs) k 0 _ _ _ _ Hin ltac:(lia) Hrun)
    as (sh1 & Hs1 & Hin1).
  destruct (solo_settles _ _ _ _ _ _ Hin1 (le_n _))
    as (w2 & sh2 & Hs2 & Hin2 & [[_ Hle]|(v & -> & Hv & _)]); [simpl in Hle; lia|].
  exists v, sh2. split_and!; [by etransitivity|done|done].
Qed.

Lemma solo_block hasher (storage : S) chain spec_id block_env txs su rs m' :
  (Z.of_nat (length txs) < 2 ^ 64)%Z ->
  setup hasher storage chain spec_id block_env txs 1 = Val (Some su) ->
  in_order (Vm.new hasher storage chain spec_id block_env txs) (length txs) 0
    (MvMemory.new (length txs) []) = Val (Ok (rs, m')) ->
  exists sh', rtc (pool_step (H := vm_ops (su_vm su))) (setup_pool su txs)
                  (solo (su_vm su) WDone sh') /\
    execution_error sh' = None /\
    forall i, i < length txs -> reads_valid (sh_memory sh') i.
Proof.
  intros Hn Hsu Hrun. destruct (setup_run _ _ _ _ _ _ _ _ Hsu)
    as (Hvm & c & Hc & Hthreads & st & dependents & deps & Hs & Hwf).
  rewrite <-Hvm in Hrun.
  pose proof (in_step_start (su_vm su) (length txs) st dependents deps Hn Hwf) as Hin.
  unfold setup_pool. rewrite Hs, Hthreads, Nat.min_l by lia.
  eapply (solo_runs (su_vm su) (length txs)); [exact Hin|done|done].
Qed.

(** The block on one thread, when it is not executed sequentially. *)
Lemma single_thread_parallel hasher (storage : S) chain spec_id block_env txs su out :
  (forall a b i, hasher (LocBasic a) <> hasher (LocStorage b i)) ->
  (Z.of_nat (length txs) < 2 ^ 64)%Z -> txs <> [] ->
  setup hasher storage chain spec_id block_env txs 1 = Val (Some su) ->
  in_order_block hasher storage chain spec_id block_env txs = Val (Ok out) ->
  forall o, execute_revm hasher storage chain spec_id block_env txs 1 o <-> o = Val (Ok out).
Proof.
  intros Hdisj Hn Htxs Hsu Hout.
  destruct (in_order (Vm.new hasher storage chain spec_id block_env txs) (length txs) 0
    (MvMemory.new (length txs) [])) as [[[rs m']|]|] eqn:Hrun;
    [|by unfold in_order_block in Hout; rewrite Hrun in Hout..].
  destruct (solo_block _ _ _ _ _ _ _ _ _ Hn Hsu Hrun) as (sh' & Hsteps & He & Hvalid).
  destruct (finished_block_in_order hasher storage chain spec_id block_env txs 1 su
    (solo (su_vm su) WDone sh')) as (out' & Hfin & Hout'); try done; [lia|by intros i [_ ?] _; apply Hvalid|].
  rewrite Hout in Hout'. simplify_eq.
  assert (setup_pool su txs = solo (su_vm su) WNext (pl_shared (setup_pool su txs))) as Hstart.
  { destruct (setup_run _ _ _ _ _ _ _ _ Hsu) as (_ & c & Hc & Hthreads & _).
    unfold setup_pool. by rewrite Hthreads, Nat.min_l by lia. }
  assert (forall p, rtc (pool_step (H := vm_ops (su_vm su))) (setup_pool su txs) p ->
    rtc (pool_step (H := vm_ops (su_vm su))) p (solo (su_vm su) WDone sh')) as Hall.
  { intros p Hp. rewrite Hstart in Hp, Hsteps.
    destruct (solo_confluent _ _ _ _ _ Hp Hsteps) as [?|Hback]; [done|].
    by rewrite (solo_ended _ _ _ _ (or_introl eq_refl) Hback). }
  assert (forall p w sh, rtc (pool_step (H := vm_ops (su_vm su))) (setup_pool su txs) p ->
    p = solo (su_vm su) w sh -> w = WDone \/ (exists f, w = WPanicked f) ->
    p = solo (su_vm su) WDone sh') as Hend.
  { intros p w sh Hp -> Hw. specialize (Hall _ Hp). by apply solo_ended in Hall. }
  intros o. split; [|intros ->; rewrite <-Hfin; by apply er_parallel].
  intros Ho. destruct Ho as [?|f ? Hf|? Hf|su1 p ? Hsu1 Hp Hdone|su1 p t f ? Hsu1 Hp Hended Ht];
    [done|congruence|congruence|..]; rewrite Hsu in Hsu1; injection Hsu1 as <-;
    pose proof Hp as Hshape; rewrite Hstart in Hshape;
    apply solo_shapes in Hshape as (w & sh & ->).
  - pose proof (all_done_lookup (H := vm_ops (su_vm su)) _ 0 w Hdone eq_refl) as ->.
    rewrite (Hend _ _ _ Hp eq_refl (or_introl eq_refl)). exact Hfin.
  - destruct t as [|[]]; simpl in Ht; simplify_eq.
    specialize (Hend _ _ _ Hp eq_refl (or_intror (ex_intro _ f eq_refl))). done.
Qed.

(** C2. With one thread, [execute_revm] terminates and has one outcome.  When
    preprocessing falls back, it is that of sequential execution; when
    preparing the block panics on an error of the storage, it is that panic;
    and otherwise, when executing the transactions once, in order, succeeds, it
    is the result of that: the worker neither waits nor retries forever, never
    aborts a transaction into another result, and no call panics. *)
Theorem single_thread_total hasher (storage : S) chain spec_id block_env txs out :
  (forall a b i, hasher (LocBasic a) <> hasher (LocStorage b i)) ->
  (Z.of_nat (length txs) < 2 ^ 64)%Z ->
  (forall su, setup hasher storage chain spec_id block_env txs 1 = Val (Some su) ->
     in_order_block hasher storage chain spec_id block_env txs = Val (Ok out)) ->
  forall o, execute_revm hasher storage chain spec_id block_env txs 1 o <->
    o = match setup hasher storage chain spec_id block_env txs 1 with
        | Val (Some _) => Val (Ok out)
        | Val None => execute_revm_sequential storage chain spec_id block_env txs
        | Fault f => Fault f
        end.
Proof.
  intros Hdisj Hn Hout. destruct (decide (txs = [])) as [->|Htxs].
  { specialize (Hout _ eq_refl). injection Hout as <-. intros o. simpl. split.
    - by intros [_|f []|[]|su p []|su p t f []].
    - intros ->. by apply er_empty. }
  destruct (setup hasher storage chain spec_id block_env txs 1) as [[su|]|f] eqn:Hsu.
  - by apply (single_thread_parallel _ _ _ _ _ _ su); [..|by eapply Hout].
  - intros o. split; [|intros ->; by apply er_sequential].
    intros [?|f ? Hf|? Hf|su p ? Hf|su p t f ? Hf]; congruence.
  - intros o. split; [|intros ->; by apply er_setup_panic].
    intros [?|f' ? Hf|? Hf|su p ? Hf|su p t f' ? Hf]; congruence.
Qed.

(** ** A transaction that lacks funds

    [Vm::execute] reports it as blocked on the transaction before it;
    [add_dependency] refuses, as that one is executed; and [try_execute] tries
    again. *)

Lemma unfunded_execution (vm : Vm S) m k ex db db' fee balance :
  0 < k -> begin_execution vm k = Val (ex, db) ->
  run_db vm (fun _ => m) (execution_program vm ex) 0 db =
    Val (Err (EvmTransaction (LackOfFundForMaxFee fee balance)), db') ->
  Vm.execute vm (fun _ => m) k = Val (VmReadError (k - 1)).
Proof.
  intros Hk Hb Hr. destruct (begin_execution_ok vm k ex db Hb) as (Hex & _ & _).
  unfold Vm.execute. rewrite Hb. simpl. rewrite Hr. simpl. rewrite Hex.
  by rewrite (proj2 (Nat.ltb_lt _ _) Hk).
Qed.

(** C11. A transaction (other than the first one) that lacks funds makes
    [execute_revm] hang: when the transactions before it execute in order and
    revm then refuses it for a lack of funds, one thread never ends.  There is no
    outcome: the transaction is reported as blocked on its predecessor, which is
    already executed, and is retried forever. *)
Theorem unfunded_transaction_hangs hasher (storage : S) chain spec_id block_env txs su
  k rs m ex db db' fee balance :
  (Z.of_nat (length txs) < 2 ^ 64)%Z -> 0 < k < length txs ->
  setup hasher storage chain spec_id block_env txs 1 = Val (Some su) ->
  let vm := Vm.new hasher storage chain spec_id block_env txs in
  in_order vm k 0 (MvMemory.new (length txs) []) = Val (Ok (rs, m)) ->
  begin_execution vm k = Val (ex, db) ->
  run_db vm (fun _ => m) (execution_program vm ex) 0 db =
    Val (Err (EvmTransaction (LackOfFundForMaxFee fee balance)), db') ->
  forall o, ~ execute_revm hasher storage chain spec_id block_env txs 1 o.
Proof.
  intros Hn [Hk Hkn] Hsu vm Hrun Hbegin Hdb.
  pose proof (unfunded_execution vm m k ex db db' fee balance Hk Hbegin Hdb) as Hexec.
  destruct (solo_block_reaches _ _ _ _ _ _ _ _ _ _ Hn Hsu Hkn Hrun)
    as (v & sh & Hs & Hin & Hv).
  destruct (setup_run _ _ _ _ _ _ _ _ Hsu) as (Hvm & _). subst vm. rewrite <-Hvm in Hexec.
  destruct (solo_blocked (su_vm su) (length txs) k m v sh (k - 1) Hin Hv ltac:(lia) Hkn Hexec)
    as [Hadd Hback].
  inversion Hadd as [|? q ? Hstep Hq]; subst.
  assert (forall p w sh', rtc (pool_step (H := vm_ops (su_vm su))) (setup_pool su txs) p ->
    p = solo (su_vm su) w sh' -> w = WDone \/ (exists f, w = WPanicked f) -> False) as Hnever.
  { intros p w sh' Hp -> Hw. destruct (setup_pool_solo _ _ _ _ _ _ _ Hsu) as [sh0 Hstart].
    rewrite Hstart in Hp, Hs.
    assert (rtc (pool_step (H := vm_ops (su_vm su))) (solo (su_vm su) w sh')
      (solo (su_vm su) (WExecute v) sh)) as Hto.
    { destruct (solo_confluent _ _ _ _ _ Hp Hs) as [?|Hfrom]; [done|].
      eapply (solo_cycle _ _ _ q); [exact Hstep|by etransitivity|done]. }
    apply solo_ended in Hto; [|done]. destruct Hw as [->|[f ->]]; discriminate Hto. }
  intros o Ho. destruct Ho as [->|f ? Hf|? Hf|su1 p ? Hsu1 Hp Hdone|su1 p t f ? Hsu1 Hp Hended Ht];
    [simpl in Hkn; lia|congruence|congruence|..]; rewrite Hsu in Hsu1; injection Hsu1 as <-;
    pose proof Hp as Hshape; destruct (setup_pool_solo _ _ _ _ _ _ _ Hsu) as [sh0 Hstart];
    rewrite Hstart in Hshape; apply solo_shapes in Hshape as (w & sh' & ->).
  - pose proof (all_done_lookup (H := vm_ops (su_vm su)) _ 0 w Hdone eq_refl) as ->.
    eapply Hnever; eauto.
  - destruct t as [|[]]; simpl in Ht; simplify_eq. eapply Hnever; eauto.
Qed.
End total.

(** ** Witness: the block of [Pevm.plain_transfers_lose_update] on one thread *)

Definition payers_solo : Setup (S := InMemoryStorage) :=
  {| su_vm := su_vm payers_setup; su_lazy_to := su_lazy_to payers_setup;
     su_scheduler := su_scheduler payers_setup; su_threads := 1 |}.

Definition payers_block : list PevmTxExecutionResult :=
  match in_order_block sample_hasher payers_storage 1 CANCUN sample_block payers_txs with
  | Val (Ok out) => out
  | _ => []
  end.

Lemma single_thread_total_witness :
  balance_after 2 3 payers_block = Some 17%Z /\
  forall o, execute_revm sample_hasher payers_storage 1 CANCUN sample_block payers_txs 1 o <->
            o = Val (Ok payers_block).
Proof.
  split; [vm_compute; reflexivity|].
  assert (setup sample_hasher payers_storage 1 CANCUN sample_block payers_txs 1 =
    Val (Some payers_solo)) as Hsu by (vm_compute; reflexivity).
  pose proof (single_thread_total sample_hasher payers_storage 1 CANCUN sample_block payers_txs
    payers_block sample_hasher_disjoint) as Htotal.
  rewrite Hsu in Htotal. apply Htotal; [vm_compute; reflexivity|].
  intros su _. vm_compute. reflexivity.
Defined.

(** ** Witness: 1 pays 5 to 2, then 2 pays 1000, which it does not have *)

Definition unfunded_txs : list TxEnv := [pay 1 2 5; pay 2 3 1000].

Definition unfunded_setup : Setup (S := InMemoryStorage) :=
  {| su_vm := Vm.new sample_hasher payers_storage 1 CANCUN sample_block unfunded_txs;
     su_lazy_to := {[2%Z; 3%Z]};
     su_scheduler := Scheduler.new 2 [{| incarnation := 0; status := ReadyToExecute |};
                                      {| incarnation := 0; status := Aborting |}]
                                   [[1]; []] {[1 := 1%Z]};
     su_threads := 1 |}.

Lemma unfunded_transaction_hangs_witness :
  (exists err, execute_revm_sequential payers_storage 1 CANCUN sample_block unfunded_txs =
     Val (Err err)) /\
  forall o, ~ execute_revm sample_hasher payers_storage 1 CANCUN sample_block unfunded_txs 1 o.
Proof.
  split.
  { eexists. vm_compute. reflexivity. }
  eapply (unfunded_transaction_hangs sample_hasher payers_storage 1 CANCUN sample_block unfunded_txs
    unfunded_setup 1).
  - vm_compute. reflexivity.
  - simpl. lia.
  - vm_compute. reflexivity.
  - vm_compute. reflexivity.
  - vm_compute. reflexivity.
  - vm_compute. reflexivity.
Defined.
