(* ===== verification/Rpc.v ===== *)
(** * Rpc: a storage over an RPC provider ([src/storage/rpc.rs])

    [RpcStorage] fetches accounts, slots and block hashes from a node and caches
    what it fetched behind mutexes.  The node is a parameter: its answers during
    a call are a [Provider], which may differ from call to call (a request may
    fail and succeed later).  A method is a state transformer on the caches; a
    mutex that the calling thread already holds is the fault [SelfDeadlock]. *)

From Stdlib Require Import ZArith Lia.
From stdpp Require Import base list gmap strings.
From S2P Require Import Prelude Types Revm Storage Sample Vm Accounts.

(** ** The provider *)

Abbreviation TransportError := string (only parsing).

(** The answers of the node for the block of the storage. *)
Record Provider : Type := {
  get_balance : Address -> result U256 TransportError;
  get_transaction_count : Address -> result u64 TransportError;
  get_code_at : Address -> result Bytes TransportError;
  get_storage_at : Address -> U256 -> result U256 TransportError;
  (* the block, if it is known, with the hash of its header, if it has one *)
  get_block_by_number : u64 -> result (option (option B256)) TransportError;
}.

(** ** The storage *)

Record RpcStorage : Type := {
  rpc_precompiles : list Address;
  cache_accounts : gmap Address EvmAccount;
  cache_block_hashes : gmap U256 B256;
}.

Definition with_cache_accounts (m : gmap Address EvmAccount) (s : RpcStorage) : RpcStorage :=
  {| rpc_precompiles := rpc_precompiles s; cache_accounts := m;
     cache_block_hashes := cache_block_hashes s |}.

Definition with_cache_block_hashes (m : gmap U256 B256) (s : RpcStorage) : RpcStorage :=
  {| rpc_precompiles := rpc_precompiles s; cache_accounts := cache_accounts s;
     cache_block_hashes := m |}.

(** [RpcStorage::new], from the precompiles of the hard fork. *)
Definition RpcStorage_new (precompiles : list Address) : RpcStorage :=
  {| rpc_precompiles := precompiles; cache_accounts := ∅; cache_block_hashes := ∅ |}.

Section rpc.
Context `{Revm}.

(** The account built from the node's answers, or none for a new account. *)
Definition account_of_answers (precompiles : list Address) (address : Address) (balance : U256)
  (nonce : u64) (code : Bytes) : outcome (option AccountBasic) :=
  if negb (bool_decide (address ∈ precompiles)) && (balance =? 0)%Z && (nonce =? 0)%Z
     && (length code =? 0)
  then Val None
  else
    let code := LegacyRaw code in
    if Bytecode_is_empty code
    then Val (Some {| ab_balance := balance; ab_nonce := nonce; ab_code_hash := None;
                      ab_code := None |})
    else
      evm_code ← EvmCode_from_bytecode code;
      Val (Some {| ab_balance := balance; ab_nonce := nonce;
                   ab_code_hash := Some (hash_slow code); ab_code := Some evm_code |}).

(** [basic] *)
Definition rpc_basic (p : Provider) (address : Address)
  : ST RpcStorage (result (option AccountBasic) TransportError) := fun s =>
  match cache_accounts s !! address with
  | Some account => Val (Ok (Some (ea_basic account)), s)
  | None =>
      match get_balance p address, get_transaction_count p address, get_code_at p address with
      | Err e, _, _ => Val (Err e, s)
      | Ok _, Err e, _ => Val (Err e, s)
      | Ok _, Ok _, Err e => Val (Err e, s)
      | Ok balance, Ok nonce, Ok code =>
          account ← account_of_answers (rpc_precompiles s) address balance nonce code;
          match account with
          | None => Val (Ok None, s)
          | Some basic =>
              Val (Ok (Some basic),
                   with_cache_accounts
                     (<[address := EvmAccount_from_basic basic]> (cache_accounts s)) s)
          end
      end
  end.

(** [code_by_hash] panics. *)
Definition rpc_code_by_hash (code_hash : B256)
  : ST RpcStorage (result (option EvmCode) TransportError) := st_fail Unreachable.

(** [has_storage] *)
Definition rpc_has_storage (address : Address) : ST RpcStorage (result bool TransportError) :=
  fun s => Val (Ok false, s).

(** [storage]: the scrutinee of the last [match] keeps [cache_accounts] locked,
    and the arm of an account that is not cached calls [basic], which locks it
    again. *)
Definition rpc_storage (p : Provider) (address : Address) (index : U256)
  : ST RpcStorage (result U256 TransportError) := fun s =>
  match cache_accounts s !! address ≫= (fun account => ea_storage account !! index) with
  | Some value => Val (Ok value, s)
  | None =>
      match get_storage_at p address index with
      | Err e => Val (Err e, s)
      | Ok value =>
          match cache_accounts s !! address with
          | Some account =>
              Val (Ok value,
                   with_cache_accounts
                     (<[address := {| ea_basic := ea_basic account;
                                      ea_storage := <[index := value]> (ea_storage account) |}]>
                        (cache_accounts s)) s)
          | None => Fault SelfDeadlock
          end
      end
  end.

(** [block_hash]: [number.to::<u64>()] and the two [unwrap]s may panic. *)
Definition rpc_block_hash (p : Provider) (number : U256)
  : ST RpcStorage (result B256 TransportError) := fun s =>
  match cache_block_hashes s !! number with
  | Some block_hash => Val (Ok block_hash, s)
  | None =>
      if (2 ^ 64 <=? number)%Z then Fault UnwrapFailed
      else
        match get_block_by_number p number with
        | Err e => Val (Err e, s)
        | Ok (Some (Some block_hash)) =>
            Val (Ok block_hash,
                 with_cache_block_hashes (<[number := block_hash]> (cache_block_hashes s)) s)
        | Ok _ => Fault UnwrapFailed
        end
  end.

(** ** What the caches hold *)

(** The state of the chain that the node serves. *)
Record ChainState : Type := {
  cs_balance : Address -> U256;
  cs_nonce : Address -> u64;
  cs_code : Address -> Bytes;
  cs_slot : Address -> U256 -> U256;
  cs_block_hash : u64 -> B256;
}.

(** Requests may fail, and a node may not know a block, but answers are true. *)
Record truthful (t : ChainState) (p : Provider) : Prop := {
  tr_balance : forall a v, get_balance p a = Ok v -> v = cs_balance t a;
  tr_nonce : forall a v, get_transaction_count p a = Ok v -> v = cs_nonce t a;
  tr_code : forall a v, get_code_at p a = Ok v -> v = cs_code t a;
  tr_slot : forall a i v, get_storage_at p a i = Ok v -> v = cs_slot t a i;
  tr_block_hash : forall n h, get_block_by_number p n = Ok (Some (Some h)) ->
    h = cs_block_hash t n;
}.

(** The account that the node's answers make of the chain's. *)
Definition chain_account (t : ChainState) (precompiles : list Address) (a : Address)
  : outcome (option AccountBasic) :=
  account_of_answers precompiles a (cs_balance t a) (cs_nonce t a) (cs_code t a).

(** The account that the chain has at an address: none for an address that is no
    precompile and has no balance, no nonce and no code; and otherwise one with
    the chain's balance and nonce, and with its analysed code and the code's hash
    unless there is none. *)
Definition chain_has (t : ChainState) (precompiles : list Address) (a : Address)
  (b : option AccountBasic) : Prop :=
  let absent :=
    (a ∉ precompiles) /\ cs_balance t a = 0%Z /\ cs_nonce t a = 0%Z /\ cs_code t a = [] in
  match b with
  | None => absent
  | Some account =>
      ~ absent /\ ab_balance account = cs_balance t a /\ ab_nonce account = cs_nonce t a /\
      if Bytecode_is_empty (LegacyRaw (cs_code t a))
      then ab_code account = None /\ ab_code_hash account = None
      else ab_code_hash account = Some (hash_slow (LegacyRaw (cs_code t a))) /\
           exists code, ab_code account = Some code /\
             to_analysed (LegacyRaw (cs_code t a)) = Bytecode_from_code code
  end.

Lemma chain_account_has t precompiles a b :
  chain_account t precompiles a = Val b -> chain_has t precompiles a b.
Proof.
  unfold chain_account, account_of_answers, chain_has.
  destruct (negb _ && _ && _ && _) eqn:Habsent.
  - intros [= <-]. rewrite !andb_true_iff, negb_true_iff, bool_decide_eq_false, !Z.eqb_eq,
      Nat.eqb_eq, length_zero_iff_nil in Habsent. tauto.
  - assert (~ ((a ∉ precompiles) /\ cs_balance t a = 0%Z /\ cs_nonce t a = 0%Z /\ cs_code t a = []))
      as Hpresent.
    { intros (Ha & Hb & Hn & Hc). by rewrite bool_decide_false, Hb, Hn, Hc in Habsent. }
    destruct (Bytecode_is_empty _); [by intros [= <-]|]. unfold EvmCode_from_bytecode. simpl.
    destruct (to_analysed _) as [?|[]|?]; simpl; try done. intros [= <-].
    split_and!; try done. by eexists.
Qed.

(** Any call of the trait that returns. *)
Inductive rpc_step (t : ChainState) (s : RpcStorage) : RpcStorage -> Prop :=
| rpc_step_basic p a r s' :
    truthful t p -> rpc_basic p a s = Val (r, s') -> rpc_step t s s'
| rpc_step_has_storage a r s' : rpc_has_storage a s = Val (r, s') -> rpc_step t s s'
| rpc_step_storage p a i r s' :
    truthful t p -> rpc_storage p a i s = Val (r, s') -> rpc_step t s s'
| rpc_step_block_hash p n r s' :
    truthful t p -> rpc_block_hash p n s = Val (r, s') -> rpc_step t s s'.

Record rpc_inv (t : ChainState) (precompiles : list Address) (s : RpcStorage) : Prop := {
  ri_precompiles : rpc_precompiles s = precompiles;
  ri_basic : forall a account, cache_accounts s !! a = Some account ->
    chain_account t precompiles a = Val (Some (ea_basic account));
  ri_slot : forall a account i v, cache_accounts s !! a = Some account ->
    ea_storage account !! i = Some v -> v = cs_slot t a i;
  ri_block_hash : forall n h, cache_block_hashes s !! n = Some h -> h = cs_block_hash t n;
}.

(** The caches only grow. *)
Record rpc_grows (s s' : RpcStorage) : Prop := {
  rg_account : forall a account, cache_accounts s !! a = Some account ->
    exists account', cache_accounts s' !! a = Some account' /\
      ea_basic account' = ea_basic account /\ ea_storage account ⊆ ea_storage account';
  rg_block_hash : cache_block_hashes s ⊆ cache_block_hashes s';
}.

#[local] Instance rpc_grows_preorder : PreOrder rpc_grows.
Proof.
  split.
  - intros s. split; [|done]. intros a account Ha. by exists account.
  - intros s1 s2 s3 [Ha1 Hb1] [Ha2 Hb2]. split; [|by etransitivity].
    intros a account Ha. destruct (Ha1 _ _ Ha) as (x & Hx & E1 & ?).
    destruct (Ha2 _ _ Hx) as (y & Hy & E2 & ?). exists y.
    split_and!; [done|congruence|by etransitivity].
Qed.

(** What a call answers is what the chain has, and is cached. *)
Lemma rpc_basic_ok t pre p a s r s' :
  truthful t p -> rpc_inv t pre s -> rpc_basic p a s = Val (r, s') ->
  rpc_inv t pre s' /\ rpc_grows s s' /\
  forall b, r = Ok b ->
    chain_account t pre a = Val b /\ ea_basic <$> cache_accounts s' !! a = b.
Proof.
  intros Hp Hinv. unfold rpc_basic. destruct (cache_accounts s !! a) as [account|] eqn:Ha.
  { intros [= <- <-]. split_and!; try done. intros b [= <-]. rewrite Ha.
    split; [by apply Hinv|done]. }
  destruct (get_balance p a) as [bal|] eqn:Hb; [|by intros [= <- <-]].
  destruct (get_transaction_count p a) as [nonce|] eqn:Hn; [|by intros [= <- <-]].
  destruct (get_code_at p a) as [code|] eqn:Hc; [|by intros [= <- <-]].
  apply (tr_balance _ _ Hp) in Hb. apply (tr_nonce _ _ Hp) in Hn. apply (tr_code _ _ Hp) in Hc.
  rewrite (ri_precompiles _ _ _ Hinv), Hb, Hn, Hc. fold (chain_account t pre a).
  destruct (chain_account t pre a) as [[basic|]|] eqn:Hacc; simpl; [| |done];
    intros [= <- <-].
  - split_and!.
    + destruct Hinv as [Hpre Hba Hsl Hbh]. split; simpl; try done.
      * intros a' account [[-> <-]|[_ ?]]%lookup_insert_Some; [done|by apply Hba].
      * intros a' account i v [[-> <-]|[_ ?]]%lookup_insert_Some; [done|by eapply Hsl].
    + split; simpl; [|done]. intros a' account Ha'. exists account.
      rewrite lookup_insert_ne; [done|congruence].
    + intros b [= <-]. simpl. by rewrite lookup_insert_eq.
  - split_and!; try done. intros b [= <-]. by rewrite Ha.
Qed.

Lemma rpc_storage_ok t pre p a i s r s' :
  truthful t p -> rpc_inv t pre s -> rpc_storage p a i s = Val (r, s') ->
  rpc_inv t pre s' /\ rpc_grows s s' /\
  forall v, r = Ok v ->
    v = cs_slot t a i /\ (cache_accounts s' !! a ≫= fun account => ea_storage account !! i) = Some v.
Proof.
  intros Hp Hinv. unfold rpc_storage.
  destruct (cache_accounts s !! a ≫= _) as [v|] eqn:Hv.
  { intros [= <- <-]. split_and!; try done. intros v' [= <-].
    destruct (cache_accounts s !! a) as [account|] eqn:Ha; [|done]. simpl in Hv.
    split; [by eapply ri_slot|done]. }
  destruct (get_storage_at p a i) as [v|] eqn:Hs; [|by intros [= <- <-]].
  destruct (cache_accounts s !! a) as [account|] eqn:Ha; [|done]. simpl in Hv.
  intros [= <- <-]. apply (tr_slot _ _ Hp) in Hs. split_and!.
  - destruct Hinv as [Hpre Hba Hsl Hbh]. split; simpl; try done.
    + intros a' account' [[<- <-]|[_ ?]]%lookup_insert_Some; simpl; by apply Hba.
    + intros a' account' i' v' [[<- <-]|[_ ?]]%lookup_insert_Some; [|by eapply Hsl].
      simpl. intros [[<- <-]|[_ ?]]%lookup_insert_Some; [done|by eapply Hsl].
  - split; simpl; [|done]. intros a' account' Ha'. destruct (decide (a = a')) as [->|Hne].
    + rewrite lookup_insert_eq. eexists. simplify_eq. split_and!; try done. simpl.
      by apply insert_subseteq.
    + exists account'. by rewrite lookup_insert_ne.
  - intros v' [= <-]. simpl. by rewrite lookup_insert_eq; simpl; rewrite lookup_insert_eq.
Qed.

Lemma rpc_block_hash_ok t pre p n s r s' :
  truthful t p -> rpc_inv t pre s -> rpc_block_hash p n s = Val (r, s') ->
  rpc_inv t pre s' /\ rpc_grows s s' /\
  forall h, r = Ok h -> h = cs_block_hash t n /\ cache_block_hashes s' !! n = Some h.
Proof.
  intros Hp Hinv. unfold rpc_block_hash. destruct (cache_block_hashes s !! n) as [h|] eqn:Hh.
  { intros [= <- <-]. split_and!; try done. intros h' [= <-]. split; [by apply Hinv|done]. }
  destruct (_ <=? n)%Z; [done|].
  destruct (get_block_by_number p n) as [[[h|]|]|] eqn:Hb; try done; [|by intros [= <- <-]].
  intros [= <- <-]. apply (tr_block_hash _ _ Hp) in Hb. split_and!.
  - destruct Hinv as [Hpre Hba Hsl Hbh]. split; simpl; try done.
    intros n' h' [[-> <-]|[_ ?]]%lookup_insert_Some; [done|by apply Hbh].
  - split; simpl; [|by apply insert_subseteq]. intros a account Ha. by exists account.
  - intros h' [= <-]. simpl. by rewrite lookup_insert_eq.
Qed.

Lemma rpc_step_ok t pre s s' :
  rpc_inv t pre s -> rpc_step t s s' -> rpc_inv t pre s' /\ rpc_grows s s'.
Proof.
  intros Hinv [p a r s0 Hp Hrun|a r s0 Hrun|p a i r s0 Hp Hrun|p n r s0 Hp Hrun].
  - by destruct (rpc_basic_ok _ _ _ _ _ _ _ Hp Hinv Hrun) as (? & ? & _).
  - by injection Hrun as _ <-.
  - by destruct (rpc_storage_ok _ _ _ _ _ _ _ _ Hp Hinv Hrun) as (? & ? & _).
  - by destruct (rpc_block_hash_ok _ _ _ _ _ _ _ Hp Hinv Hrun) as (? & ? & _).
Qed.

Lemma rpc_steps_ok t pre s s' :
  rpc_inv t pre s -> rtc (rpc_step t) s s' -> rpc_inv t pre s' /\ rpc_grows s s'.
Proof.
  intros Hinv Hs. induction Hs as [|s s1 s2 Hs _ IH]; [done|].
  destruct (rpc_step_ok _ _ _ _ Hinv Hs) as [Hinv1 Hg]. destruct (IH Hinv1) as [? ?].
  split; [done|]. by etransitivity.
Qed.

Lemma rpc_inv_new t pre : rpc_inv t pre (RpcStorage_new pre).
Proof. by split. Qed.

(** C35. Whatever was asked before, and however requests failed in between, the
    RPC storage answers with the state of the chain that a truthful node serves:
    the account (its balance, nonce, code and hash; none for an address without
    any of these that is no precompile), the slot and the block hash. *)
Theorem rpc_answers_chain_state t precompiles s p a i n :
  rtc (rpc_step t) (RpcStorage_new precompiles) s -> truthful t p ->
  (forall b s', rpc_basic p a s = Val (Ok b, s') -> chain_has t precompiles a b) /\
  (forall v s', rpc_storage p a i s = Val (Ok v, s') -> v = cs_slot t a i) /\
  (forall h s', rpc_block_hash p n s = Val (Ok h, s') -> h = cs_block_hash t n).
Proof.
  intros Hs Hp. destruct (rpc_steps_ok _ _ _ _ (rpc_inv_new t precompiles) Hs) as [Hinv _].
  split_and!.
  - intros b s' Hrun. destruct (rpc_basic_ok _ _ _ _ _ _ _ Hp Hinv Hrun) as (_ & _ & Hr).
    by apply chain_account_has, Hr.
  - intros v s' Hrun. destruct (rpc_storage_ok _ _ _ _ _ _ _ _ Hp Hinv Hrun) as (_ & _ & Hr).
    by apply Hr.
  - intros h s' Hrun. destruct (rpc_block_hash_ok _ _ _ _ _ _ _ Hp Hinv Hrun) as (_ & _ & Hr).
    by apply Hr.
Qed.

(** Snapshots of the two caches. *)
Definition get_cache_accounts (s : RpcStorage) : gmap Address EvmAccount := cache_accounts s.

Definition get_cache_block_hashes (s : RpcStorage) : gmap U256 B256 := cache_block_hashes s.

(** The in-memory storage that a user of the two snapshots makes of them. *)
Definition rpc_snapshot (s : RpcStorage) : InMemoryStorage :=
  InMemoryStorage_new id (map_to_list (get_cache_accounts s))
                         (map_to_list (get_cache_block_hashes s)).

Lemma collect_map_to_list {V} (m : gmap Z V) :
  foldl (fun m '(k, v) => <[k := v]> m) ∅ (map_to_list m) = m.
Proof.
  apply map_eq. intros k. rewrite collect_lookup. unfold last_value.
  destruct (last (filter _ _)) as [[k' v]|] eqn:Hl; simpl.
  - apply last_Some_elem_of, list_elem_of_filter in Hl as [<- Hin].
    by apply elem_of_map_to_list in Hin.
  - destruct (m !! k) as [v|] eqn:Hv; [|done]. apply last_None in Hl.
    apply elem_of_map_to_list in Hv.
    assert ((k, v) ∈ filter (fun p => p.1 = k) (map_to_list m)) as Hin
      by (by apply list_elem_of_filter).
    rewrite Hl in Hin. set_solver.
Qed.

(** C36. The caches persist what was answered: an in-memory storage built from the
    caches at any later time gives the same accounts, slots and block hashes as
    the calls did. *)
Theorem rpc_snapshot_replays t precompiles s p s1 s2 :
  rtc (rpc_step t) (RpcStorage_new precompiles) s -> truthful t p ->
  rtc (rpc_step t) s1 s2 ->
  (forall a b, rpc_basic p a s = Val (Ok b, s1) -> Storage.basic (rpc_snapshot s2) a = Ok b) /\
  (forall a i v, rpc_storage p a i s = Val (Ok v, s1) ->
     Storage.storage (rpc_snapshot s2) a i = Ok v) /\
  (forall n h, rpc_block_hash p n s = Val (Ok h, s1) ->
     Storage.block_hash (rpc_snapshot s2) n = Ok h).
Proof.
  intros Hs Hp Hs2. destruct (rpc_steps_ok _ _ _ _ (rpc_inv_new t precompiles) Hs) as [Hinv _].
  simpl. unfold im_basic, im_storage, im_block_hash, rpc_snapshot, InMemoryStorage_new,
    get_cache_accounts, get_cache_block_hashes, id. simpl. rewrite !collect_map_to_list. split_and!.
  - intros a b Hrun. destruct (rpc_basic_ok _ _ _ _ _ _ _ Hp Hinv Hrun) as (Hinv1 & _ & Hr).
    destruct (Hr b eq_refl) as [Hchain Hc]. destruct (rpc_steps_ok _ _ _ _ Hinv1 Hs2) as [Hinv2 Hg].
    destruct (cache_accounts s1 !! a) as [account|] eqn:Ha; simpl in Hc; subst b.
    + by destruct (rg_account _ _ Hg _ _ Ha) as (x & -> & <- & _).
    + destruct (cache_accounts s2 !! a) as [x|] eqn:Hx; [|done].
      apply (ri_basic _ _ _ Hinv2) in Hx. congruence.
  - intros a i v Hrun. destruct (rpc_storage_ok _ _ _ _ _ _ _ _ Hp Hinv Hrun) as (Hinv1 & _ & Hr).
    destruct (Hr v eq_refl) as [_ Hc]. destruct (rpc_steps_ok _ _ _ _ Hinv1 Hs2) as [_ Hg].
    destruct (cache_accounts s1 !! a) as [account|] eqn:Ha; simpl in Hc; [|done].
    destruct (rg_account _ _ Hg _ _ Ha) as (x & -> & _ & Hsub). simpl.
    by rewrite (lookup_weaken _ _ _ _ Hc Hsub).
  - intros n h Hrun. destruct (rpc_block_hash_ok _ _ _ _ _ _ _ Hp Hinv Hrun) as (Hinv1 & _ & Hr).
    destruct (Hr h eq_refl) as [_ Hc]. destruct (rpc_steps_ok _ _ _ _ Hinv1 Hs2) as [_ Hg].
    by rewrite (lookup_weaken _ _ _ _ Hc (rg_block_hash _ _ Hg)).
Qed.

(** C37. When a call of the RPC storage does not return: a slot of an account that
    is not cached is fetched and then never returned, since the thread waits for
    the lock it holds; an account never blocks; an unknown block, a block
    without a hash or a number past 64 bits panics. *)
Theorem rpc_calls_return `{!RevmLaws} p a i n s :
  (exists r s', rpc_basic p a s = Val (r, s')) /\
  (forall f, rpc_storage p a i s = Fault f <->
     f = SelfDeadlock /\ cache_accounts s !! a = None /\ exists v, get_storage_at p a i = Ok v) /\
  (forall f, rpc_block_hash p n s = Fault f <->
     f = UnwrapFailed /\ cache_block_hashes s !! n = None /\
     (n < 2 ^ 64 -> get_block_by_number p n = Ok None \/ get_block_by_number p n = Ok (Some None))%Z).
Proof.
  split_and!.
  - unfold rpc_basic. destruct (cache_accounts s !! a); [eauto|].
    destruct (get_balance p a), (get_transaction_count p a), (get_code_at p a) as [code|]; eauto.
    unfold account_of_answers. destruct (_ && _); [eauto|]. simpl.
    destruct (Bytecode_is_empty _); simpl; [eauto|]. unfold EvmCode_from_bytecode. simpl.
    destruct (to_analysed_raw code) as [c ->]. simpl. eauto.
  - intros f. unfold rpc_storage. split.
    + destruct (cache_accounts s !! a) as [x|]; simpl.
      * destruct (ea_storage x !! i); [done|]. by destruct (get_storage_at p a i).
      * destruct (get_storage_at p a i); [|done]. intros [= <-]. eauto.
    + intros (-> & -> & v & ->). done.
  - intros f. unfold rpc_block_hash. split.
    + destruct (cache_block_hashes s !! n); [done|]. destruct (Z.leb_spec (2 ^ 64) n).
      * intros [= <-]. split_and!; try done. intros. lia.
      * destruct (get_block_by_number p n) as [[[h|]|]|]; try done; intros [= <-]; eauto.
    + intros (-> & -> & Hn). destruct (Z.leb_spec (2 ^ 64) n); [done|].
      by destruct Hn as [-> | ->].
Qed.
End rpc.

(** ** Witnesses *)

(** A chain where every account has 7 and every slot holds its index. *)
Definition sample_chain : ChainState :=
  {| cs_balance := fun _ => 7%Z; cs_nonce := fun _ => 0%Z; cs_code := fun _ => [];
     cs_slot := fun _ i => i; cs_block_hash := fun n => n |}.

Definition sample_provider : Provider :=
  {| get_balance := fun _ => Ok 7%Z; get_transaction_count := fun _ => Ok 0%Z;
     get_code_at := fun _ => Ok []; get_storage_at := fun _ i => Ok i;
     get_block_by_number := fun n => Ok (Some (Some n)) |}.

Lemma sample_truthful : truthful sample_chain sample_provider.
Proof. split; simpl; congruence. Qed.

Definition sample_rpc : RpcStorage :=
  {| rpc_precompiles := [1%Z];
     cache_accounts := {[5%Z := EvmAccount_with_balance 7]}; cache_block_hashes := ∅ |}.

Lemma sample_rpc_step : rpc_step sample_chain (RpcStorage_new [1%Z]) sample_rpc.
Proof. by eapply (rpc_step_basic _ _ sample_provider 5); [apply sample_truthful|]. Qed.

Lemma rpc_answers_chain_state_witness :
  (forall b s', rpc_basic sample_provider 5 sample_rpc = Val (Ok b, s') ->
     chain_has sample_chain [1%Z] 5 b) /\
  (forall v s', rpc_storage sample_provider 5 3 sample_rpc = Val (Ok v, s') -> v = 3%Z) /\
  (forall h s', rpc_block_hash sample_provider 2 sample_rpc = Val (Ok h, s') -> h = 2%Z).
Proof.
  apply (rpc_answers_chain_state sample_chain [1%Z] sample_rpc sample_provider 5 3 2).
  - apply rtc_once, sample_rpc_step.
  - exact sample_truthful.
Defined.

Lemma rpc_snapshot_replays_witness :
  Storage.storage (rpc_snapshot
    {| rpc_precompiles := [1%Z];
       cache_accounts := {[5%Z := {| ea_basic := ea_basic (EvmAccount_with_balance 7);
                                     ea_storage := {[3%Z := 3%Z]} |}]};
       cache_block_hashes := ∅ |}) 5 3 = Ok 3%Z.
Proof.
  set (s1 := {| rpc_precompiles := _; cache_accounts := _; cache_block_hashes := _ |}).
  apply (rpc_snapshot_replays sample_chain [1%Z] sample_rpc sample_provider s1 s1).
  - apply rtc_once, sample_rpc_step.
  - exact sample_truthful.
  - apply rtc_refl.
  - vm_compute. reflexivity.
Defined.

(** A slot of an account that was never asked for. *)
Lemma rpc_calls_return_witness :
  rpc_storage sample_provider 6 3 sample_rpc = Fault SelfDeadlock.
Proof.
  apply (rpc_calls_return sample_provider 6 3 0 sample_rpc).
  split; [reflexivity|]. split; [reflexivity|]. exists 3%Z. reflexivity.
Defined.
